(* ===== verification/_CoqProject ===== *)
-Q . S2P
Prelude.v
RustStd.v
Glob.v
Pattern.v
Scope.v
Encode.v
Knob.v
ValueOrder.v
Rule.v
Registry.v
Grants.v
GrantsFacts.v
Charter.v
CharterFacts.v
Boundary.v
Seal.v
SealFacts.v
Document.v
DocumentFacts.v
Examples.v
Calendar.v
CalendarFacts.v
Json.v
Workflow.v
WorkflowFacts.v
Journal.v
JournalFacts.v
Frontier.v
FrontierFacts.v
WorkflowExamples.v
TxFrames.v
TxBuffers.v
TxReducer.v
TxDriver.v
TxReducerFacts.v
TxSavepoints.v
TxBegin.v
TxDriverFacts.v
TxExamples.v
TxLanes.v
TxThread.v
TxScopes.v
TxThreadExamples.v
Resp.v
RespFacts.v
RespWire.v
RedisConn.v
RedisConnFacts.v
RedisPool.v
RedisPoolFacts.v
RedisCluster.v
RedisClusterFacts.v
RedisExamples.v
RedisClusterExamples.v
Kv.v
KvFacts.v
KvClients.v
KvRedis.v
KvRedisFacts.v
KvBackends.v
KvExamples.v
