(* ===== verification/Prelude.v ===== *)
(** * Verification of the migration policy engine, the workflow service, database
      transactions, the Redis client and the key-value store

    This library models five parts of the repository and proves that they keep their
    promises.

    The first is the crate [zeroship-migrate-policy]
    ([src/crates/zeroship-migrate-policy/src]). It decides what a database migration may
    do. An operator writes a root charter; a tenant writes a draft; the crate loads both,
    checks that the draft asks for nothing the charter does not give, and answers, object
    by object, which authority the result confers.

    The second is the durable-workflow service: the crates
    [zeroship-workflow-calendar] and [zeroship-workflow] and the values they share in
    [zeroship-core] (all under [src/crates]). A run is a program that suspends. Each time
    it is due, the service leases it to an executor as a task; the executor replays the
    run's journal and reports a batch of outcomes; the service folds the batch into
    journal checkpoints and decides what the run waits for next. Runs sleep, await
    messages and children, retry, roll back, and are paused, cancelled and restarted.

    The third is the transaction protocol of the data layer
    ([zeroship-data-orm/src]: [transaction], [tx_lanes.rs]). A worker thread runs the
    transactions of many tenants, each pinned to one database session. A pure reducer
    decides what each transaction may do next; a driver performs its actions against the
    server and feeds the answers back; a lane per tenant and database holds the session,
    the change events to publish on commit, and whoever waits.

    The fourth is the Redis client ([src/libs/compio-redis/src]). Connections of a worker
    thread are pooled and shared by tenants, so a reply must reach the command it answers
    whatever times out or is cancelled; a cluster's servers say where a key lives, so the
    client must decide which of them to believe.

    The fifth is the key-value store ([src/crates/zeroship-kv/src]). Applications and the
    platform get handles bound to a namespace; one store, embedded or behind the Redis
    client, keeps the keys of all of them, with lifetimes, counters, locks and listings.

    ** Migration policy: parts and files

    File names are relative to [zeroship-migrate-policy/src].

    - [Prelude] and [RustStd]: the result type with its [?], loops that may fail, ordered
      sets and maps as sorted lists, and the parts of Rust's [str], [u8] and integer
      printing and parsing that the code uses. Text is a list of bytes; [utf8]
      characterizes the valid ones where validity matters.
    - [Glob] ([scope/glob.rs]), [Pattern] ([scope/pattern.rs]), [Scope]
      ([scope/mod.rs]): globs with one star, [schema.table] patterns with the
      identifier normalizer, and scopes, that is includes minus excludes. The object set
      of a scope is [in_scope]. Containment and intersection of globs and patterns and
      the meet of scopes are exact; the join and the difference err only on the side of
      more objects; [subset] never errs on the side of yes, and is exact below 256
      patterns, a bound shown to be needed. The class [ScopeAlgebra] states what
      composition uses of this.
    - [Encode], [Knob] ([knob.rs]), [ValueOrder] ([value_order.rs]), [Rule] ([rule.rs]),
      [Registry] ([registry.rs]): knob definitions and their canonical encoding, shown
      injective through the class [Delimits] of self-delimiting encoders; the order of
      values, shown to be a lattice through the denotation [den]; rules; the registry
      and its digest.
    - [Grants] and [GrantsFacts] ([compose.rs], first half): grant models, layers, and
      the queries of [EffectivePolicy]. A query answers with the first layer that covers
      the object, and that layer joins its covering rules.
    - [Charter] and [CharterFacts] ([compose.rs], second half): [overlay], [restrict],
      [finalize_charter] and the checks they run. [restrict] is the pointwise meet, a
      finalized charter has no contradictory injects, and a mandatory inject reaches
      every object on which tables may be created.
    - [Boundary] ([boundary.rs]): [admit], over the class [AdmitCharter] of the three
      things a draft may be admitted against. The central theorems: an admitted policy
      is nowhere looser than its charter, also along chains of admissions; obligations
      only accumulate; a knob that is not inheritable is not conferred by silence.
    - [Seal] and [SealFacts] ([seal.rs]): the canonical bytes of a policy, minting and
      verification. A seal verifies only against what it was minted over, and what it
      binds determines every decision.
    - [Document] and [DocumentFacts] ([document.rs], and the loading functions of
      [compose.rs]): the wire types, their resolution, and [extends]. Every loaded
      document is well-formed for its provenance, which discharges the hypotheses of the
      theorems on admission: [text_to_decision] goes from the two texts to the decision.
    - [Examples]: one deployment on which the theorems are applied, and the documents
      behind two defects of the loader.

    ** Workflows: parts and files

    - [Calendar] and [CalendarFacts] ([zeroship-workflow-calendar]: [calendar.rs],
      [timing.rs]): cron expressions and interval schedules. A field denotes the values
      its items say; the normal form of an expression parses back to it; the next fire is
      the first one after the given instant, and every accepted expression has one.
    - [Json]: the JSON values the engine carries, as serde_json holds them.
    - [Workflow] and [WorkflowFacts] ([zeroship-workflow]: [engine.rs], [lifecycle.rs],
      [validation.rs]; [zeroship-core/src/workflow_coordination/lifecycle.rs]): the
      outcomes of an execution and their fold, shown equal to a description of the batch
      outcome by outcome; lifecycle states and the checks shared by all callers.
    - [Journal] and [JournalFacts] ([zeroship-workflow/src/service/journal.rs],
      [zeroship-core/src/workflow_policy.rs]): the record [Journal] holds a run's step,
      wait and signal rows; [append] commits a folded batch and [resolve] settles waits.
      Both preserve the typing invariant of the journal, and neither rewrites history.
    - [Frontier] ([zeroship-workflow/src/service]: [frontier.rs], [tasks.rs],
      [control.rs], [control/restart.rs], [control/replay.rs], [signals.rs],
      [publication.rs], and what [app.rs], [fanout] and [propagation] do to a run): the
      record [Run], one run with its row, generation, journal and tasks. Each operation is a
      transaction: [poll], [complete], [release], [heartbeat], [transition], [deliver],
      [materialize], [wake], [cascade], [replace], [restart]. What it does to other runs
      is a list of effects. The relation [run_step] is one committed operation, with any
      policy, clock and answers of the rest of the system; [reachable] is any sequence
      of them from a new run.
    - [FrontierFacts]: every reachable run satisfies [run_ok]; at most one task can
      report; a report is committed once and answered alike ever after; rollback runs
      compensators newest first and ends; only a restart moves a terminal run; a message
      the run waits for makes it due and the next poll makes progress; a run nobody
      reports on is put to rest; a restart keeps exactly the history before its target.
    - [WorkflowExamples]: an order that charges, ships, fails and rolls back, on which the
      theorems are applied.

    ** Database transactions: parts and files

    File names are relative to [zeroship-data-orm/src].

    - [TxFrames] ([transaction/reducer/frames.rs]; the event queue of [tx_lanes.rs]): the
      stack of frames, one per savepoint, with their buffered effects, and the lane's flat
      queue with a watermark per savepoint. [TxBuffers] proves the two keep the same
      events.
    - [TxReducer] ([transaction/reducer/mod.rs], [deadline.rs], [identity.rs]): the record
      [TxReducer] and a handler per event; [tx_apply] is the whole transition, and its
      [None] a panic. [TxReducerFacts], [TxSavepoints] and [TxBegin]: a forced transaction
      never resumes; a transaction settles once and begins at most once; its mask ceiling
      only tightens; savepoint names never repeat. They hold for any events in any order
      ([tx_steps]).
    - [TxDriver] ([transaction/driver.rs], [queue_or_emit] of [exec.rs]): the record
      [Drive] is a transaction with its statements in flight, its lane's queue and the
      server's side of it; [driven] is any interleaving of requests, timers and answers.
      The class [Server] is the database, with the laws of savepoints in [ServerLaws].
      [TxDriverFacts]: no panicking branch is reached; the lane mirrors the server while
      the transaction is open; the deadlines alone end it; what is published is what was
      committed, for settlements that wait for the work of their callback ([drained]).
      Without that discipline events can come too late ([dr_late],
      [published_unless_late]).
    - [TxLanes] ([tx_lanes.rs], the session functions of [transaction/driver.rs],
      [transaction/scope.rs]): the lanes by route, the guards that hold a session out of
      its lane, and the claims operations hold on frames. [TxThread]: under any sequence of
      [thread_move]s every session has one owner, stays with its route, and once
      withdrawn is never parked or pooled again. [TxScopes]: routes do not touch each other;
      claims on a frame are exclusive; a frame that is being settled only drains.
    - [TxExamples] and [TxThreadExamples]: a server that keeps the laws, and runs on which
      the theorems are applied.

    ** Redis client: parts and files

    File names are relative to [compio-redis/src].

    - [Resp] ([protocol/mod.rs], [error.rs]): replies, errors and [ReplyDecoder], which
      measures one reply on a buffer that grows read by read; [scan] is its loop and
      [take_frame] hands the measured bytes to the third-party parser, the class
      [RespCodec]. [RespFacts]: chunked and whole scans agree, but for one header length
      that is characterized exactly, and the scan is linear. [RespWire]: the RESP2 grammar
      as a printer, every reply of which is measured to its last byte.
    - [RedisConn] ([client.rs]): a connection is the client's buffer, decoder and dirty
      flag with the bytes its server has sent and nobody has read; [send_recv] is a command
      under any behaviour of the network ([Exchange]). [RedisConnFacts]: a settled
      connection gives a command its own reply and is settled again, any other end leaves
      it dirty, and the buffer is bounded.
    - [RedisPool] ([pool.rs], [Source] of [sentinel.rs]): the pool's state and its tasks;
      [pool_step] is the code from one await to the next. [RedisPoolFacts], for any
      interleaving: slots are never oversubscribed, replies reach their command for
      callers that stop at an error ([careful_run]), and connections of an older generation
      are never kept.
    - [RedisCluster] ([cluster.rs], [deployment.rs]): redirects, the slot map, the allowlist
      and the send loop. [RedisClusterFacts]: the slot map is the last range that covers
      a slot; sending ends and repeats a command only after a redirect; only addresses
      vouched for from the seeds on are dialled; a redirect is committed once its target
      answered.
    - [RedisExamples] and [RedisClusterExamples]: concrete runs on which the theorems are
      applied, and the run in which a reply crosses to the next caller when a holder goes
      on after a timeout.

    ** Key-value store: parts and files

    File names are relative to [zeroship-kv/src].

    - [Kv] ([limits.rs], [namespace.rs], [backend/mod.rs], [backend/redb.rs], [store.rs]):
      the checks on arguments, namespaces and the keys they are stored under ([scope]),
      the trait as the class [Backend], the embedded backend over the ordered table of redb
      ([RedbTable], with its documented behaviour as [RedbTableLaws]), and the handles.
      A call runs in an environment [Env]: the clock it reads and the steps that fail.
    - [KvFacts]: the contract is a [Keyspace] per namespace with [keyspace_call];
      [redb_serves_namespaces] shows that one table serves every namespace as its own
      keyspace, under any faults.
    - [KvClients]: listings that follow cursors while others write, locks taken by
      [set_if_absent], and counters with a fixed window, all from the contract.
    - [KvRedis] ([backend/redis.rs]): the commands and the reading of their replies, over
      any answers of the Redis client ([Exec]), and the clients kept by a thread.
      [KvRedisFacts]: whatever the servers answer, commands and results stay in the
      namespace and a cluster routes them alike ([HashTags] is the documented rule for
      hash tags).
    - [KvBackends]: over a server with the documented commands ([RedisServerLaws]) the two
      backends answer alike.
    - [KvExamples]: a table and a server that keep the laws, and the histories on which
      the theorems are applied.

    ** Conventions

    A [BTreeMap] or [BTreeSet] is a strictly sorted list and iterates in its order.
    [u64] and [i64] are [Z]; the encoders cut them to their width, and the theorems that
    read bytes back assume the widths ([fits], [short], the [_sized] predicates); the
    checked arithmetic of schedules fails where the machine type would overflow.
    Error values keep their constructors and payloads; text composed for people is kept
    as its ingredients ([Detail], [LoadDetail], [Problem]). Instants are nanoseconds.

    The counters of the transaction protocol are unbounded, except where a theorem
    assumes a width. Sessions, completions and wakers are identities, and waking or
    destroying one is an output ([LaneEffect]).

    Code outside the repository and tables of other components are parameters. The class
    [Chrono] holds the operations of the two date crates, and [ChronoLaws] the facts of
    the calendar the search for a fire relies on; [plain_chrono] is an instance of both.
    The record [World] holds what other tables answer within a transaction. Safety holds
    for every [World]; liveness for every one that answers ([serviceable]) and counters
    short of their maximum.

    ** Fuel

    [subtract_loop] is the [while] loop of [subtract_each]: each round but the last
    shortens the list of deferred scopes, so one more than its length is enough
    ([subtract_loop_terminates]). [resolve_with_catalog] follows [extends]: each round
    visits a new catalog name, so one more than the number of names is enough
    ([loading_terminates]); without a catalog one round is. [fill] steps through a cron
    range and gets one round per value of the range ([fill_spec]). [probe_gap] and
    [HORIZON] are bounds of the source itself, 48 hours of minutes and eight years of
    days, shown to be enough ([calendar_always_fires]). [scan] gets one round per byte of
    the buffer and one more; every round moves past a CRLF, and the equation [scan_eq] shows
    that it never runs out. [route] runs on the networks it is given, of which four are
    enough ([routing_ends]). The service has no loop
    without a bound; [rollback] and [silent] count reports and dispatches in theorems.

    ** Not modelled

    SHA-256, HMAC, the TOML and JSON readers and the profile catalog are parameters.
    Theorems on digests and seals conclude "or exhibits a collision", so they assume
    nothing of the first two. The serde and JSON-schema impls, hexadecimal rendering and
    constant-time comparison are left out. A digest knob ([KDigest]) is compared with
    equal values only, so its join may fail; theorems that produce a value exclude it.

    Of the workflow service: the choice among runs that are due, the identity of
    workers, the path by which the manager delivers jobs, payload storage, deployments,
    request receipts and paging, and the provenance checks on child rows are queries over
    many tables, and appear as answers of [World] where an operation depends on them. The
    epoch that tells a waiting executor of new messages and the textual durations of
    [engine.rs] are left out. A continuation is the effect of inserting its successor.

    Of the data layer: SQL text, connection pools, the tasks behind timers and waits and the
    mapping of errors are left out, and so is everything outside transactions. Opening
    a second session for one admission is not a move of a thread, since the reducer issues
    at most one [BEGIN] ([begins_once]).

    Of the Redis client: sockets, TLS, timers, URLs and the loop over sentinels are left
    out, and what they do is an event or an answer of the network; the typed command
    wrappers are a command frame, [send_recv] and an extractor. The theorems on replies
    assume a server that answers each command with one reply ([fair]). Calls of the cluster
    client are taken one after the other, although those of one thread may interleave at
    an await.

    Of the key-value store: configuration, opening the database file with its lock, and the
    binding for scripts are left out. redb's table is a parameter, and so is everything a
    Redis server does beyond the commands [RedisServerLaws] describes, of which [SCAN] is not
    one: what a listing on Redis returns is only bounded from above. Calls of one
    store follow one another, as its write transactions do.

    The rest of the repository - the migration engine and its dialects, the runtime, the
    control plane and the other services - is not modelled. *)

From stdpp Require Export base tactics list option sets sorting.
From Stdlib Require Export Strings.Byte.

(** * Results

    [Result<A, E>] of the source, with the [?] operator as stdpp's monadic bind. *)

Inductive result (E A : Type) : Type :=
  | Ok (a : A)
  | Err (e : E).
Arguments Ok {E A} a.
Arguments Err {E A} e.

#[global] Instance result_eq_dec `{EqDecision E, EqDecision A} : EqDecision (result E A).
Proof. solve_decision. Defined.

#[global] Instance result_ret E : MRet (result E) := λ A, @Ok E A.
#[global] Instance result_bind E : MBind (result E) :=
  λ A B f m, match m with Ok a => f a | Err e => Err e end.
#[global] Instance result_fmap E : FMap (result E) :=
  λ A B f m, match m with Ok a => Ok (f a) | Err e => Err e end.

(** Peel the first [?] off [(x ← m; k) = r → _]: the failing case contradicts [r]. *)
Tactic Notation "bind_ok" "as" simple_intropattern(x) ident(E) :=
  let rec peel m :=
    lazymatch m with
    | mbind _ ?m' => peel m'
    | _ => destruct m as [x|] eqn:E; cbn [mbind result_bind]; [|done]
    end in
  lazymatch goal with |- mbind _ ?m = _ → _ => peel m end.
Tactic Notation "bind_ok" "as" simple_intropattern(x) :=
  let E := fresh in bind_ok as x E; clear E.

(** The hints that settle well-formedness side conditions. *)
Create HintDb policy.

(** [Result::map_err], [Option::ok_or] and [Result::ok]. *)
Definition map_err {E F A} (f : E → F) (m : result E A) : result F A :=
  match m with Ok a => Ok a | Err e => Err (f e) end.
Definition ok_or {E A} (o : option A) (e : E) : result E A :=
  match o with Some a => Ok a | None => Err e end.
Definition result_ok {E A} (m : result E A) : option A :=
  match m with Ok a => Some a | Err _ => None end.

(** A [for] loop whose body may leave the function with an error. *)
Fixpoint try_for {E A} (f : A → result E unit) (l : list A) : result E unit :=
  match l with
  | [] => Ok tt
  | x :: l' => _ ← f x; try_for f l'
  end.

(** A [for] loop that threads an accumulator and may leave with an error. *)
Fixpoint try_fold {E A B} (f : B → A → result E B) (acc : B) (l : list A) : result E B :=
  match l with
  | [] => Ok acc
  | x :: l' => acc' ← f acc x; try_fold f acc' l'
  end.

(** [iter().map(f).collect::<Result<Vec<_>, _>>()]. *)
Fixpoint try_map {E A B} (f : A → result E B) (l : list A) : result E (list B) :=
  match l with
  | [] => Ok []
  | x :: l' => y ← f x; ys ← try_map f l'; Ok (y :: ys)
  end.

(** The first [Some] a search loop returns. *)
Fixpoint find_map {A B} (f : A → option B) (l : list A) : option B :=
  match l with
  | [] => None
  | x :: l' => match f x with Some b => Some b | None => find_map f l' end
  end.

(** * Total orders

    [Ord] of the source: every ordered type here derives its order, that is
    lexicographically over its fields. *)

Class Ord (A : Type) := cmp : A → A → comparison.
Class OrdLaws (A : Type) `{Ord A} : Prop := {
  cmp_eq : ∀ x y : A, cmp x y = Eq ↔ x = y;
  cmp_opp : ∀ x y : A, cmp y x = CompOpp (cmp x y);
  cmp_trans : ∀ x y z : A, cmp x y = Lt → cmp y z = Lt → cmp x z = Lt
}.

#[global] Instance byte_ord : Ord byte := λ x y, N.compare (Byte.to_N x) (Byte.to_N y).
#[global] Instance bool_ord : Ord bool := λ x y,
  match x, y with
  | false, true => Lt | true, false => Gt | _, _ => Eq
  end.
#[global] Instance Z_ord : Ord Z := Z.compare.
#[global] Instance list_ord `{Ord A} : Ord (list A) :=
  fix go (l k : list A) :=
    match l, k with
    | [], [] => Eq
    | [], _ :: _ => Lt
    | _ :: _, [] => Gt
    | x :: l', y :: k' => match cmp x y with Eq => go l' k' | c => c end
    end.
#[global] Instance prod_ord `{Ord A, Ord B} : Ord (A * B) := λ x y,
  match cmp (fst x) (fst y) with Eq => cmp (snd x) (snd y) | c => c end.

(** The order a record derives, through the tuple of its fields. *)
Definition ord_via {A B} `{Ord B} (f : A → B) : Ord A := λ x y, cmp (f x) (f y).

(** * [BTreeSet] and [BTreeMap]: strictly sorted lists. *)

Section btree.
Context `{Ord A}.

Fixpoint bset_insert (x : A) (s : list A) : list A :=
  match s with
  | [] => [x]
  | y :: s' =>
      match cmp x y with
      | Lt => x :: y :: s'
      | Eq => y :: s'
      | Gt => y :: bset_insert x s'
      end
  end.

Definition bset_extend (s l : list A) : list A :=
  fold_left (λ acc x, bset_insert x acc) l s.

(** [collect::<BTreeSet<_>>()]. *)
Definition bset_of (l : list A) : list A := bset_extend [] l.

Definition bset_wf (s : list A) : Prop := StronglySorted (λ x y, cmp x y = Lt) s.

Context {V : Type}.

Fixpoint bm_get (k : A) (m : list (A * V)) : option V :=
  match m with
  | [] => None
  | (k', v) :: m' => match cmp k k' with Eq => Some v | _ => bm_get k m' end
  end.

(** [entry(k).or_insert_with(d)] followed by an update of the slot. *)
Fixpoint bm_entry (k : A) (d : V) (f : V → V) (m : list (A * V)) : list (A * V) :=
  match m with
  | [] => [(k, f d)]
  | (k', v) :: m' =>
      match cmp k k' with
      | Lt => (k, f d) :: (k', v) :: m'
      | Eq => (k', f v) :: m'
      | Gt => (k', v) :: bm_entry k d f m'
      end
  end.

Definition bm_insert (k : A) (v : V) (m : list (A * V)) : list (A * V) :=
  bm_entry k v (λ _, v) m.

Definition bm_keys (m : list (A * V)) : list A := map fst m.
Definition bm_values (m : list (A * V)) : list V := map snd m.
Definition bm_wf (m : list (A * V)) : Prop := bset_wf (bm_keys m).
End btree.

(** * Order lemmas *)

#[global] Instance byte_eq_dec : EqDecision byte := Byte.byte_eq_dec.

Lemma byte_to_N_inj x y : Byte.to_N x = Byte.to_N y → x = y.
Proof. intros E. assert (Some x = Some y) by (by rewrite <-!Byte.of_to_N, E). congruence. Qed.

#[global] Instance byte_ord_laws : OrdLaws byte.
Proof.
  split; unfold cmp, byte_ord.
  - intros x y. rewrite N.compare_eq_iff. split; [apply byte_to_N_inj|by intros ->].
  - intros x y. apply N.compare_antisym.
  - intros x y z. rewrite !N.compare_lt_iff. apply N.lt_trans.
Qed.

#[global] Instance bool_ord_laws : OrdLaws bool.
Proof. split; [intros [] []|intros [] []|intros [] [] []]; done. Qed.

#[global] Instance Z_ord_laws : OrdLaws Z.
Proof.
  split; unfold cmp, Z_ord; [apply Z.compare_eq_iff|intros; apply Z.compare_antisym|].
  intros x y z. rewrite !Z.compare_lt_iff. apply Z.lt_trans.
Qed.

Lemma try_fold_inv {E A B} (P : B → Prop) (f : B → A → result E B) l acc r :
  P acc → (∀ b x b', x ∈ l → P b → f b x = Ok b' → P b') → try_fold f acc l = Ok r → P r.
Proof.
  revert acc. induction l as [|x l IH]; intros acc Hacc Hf; cbn; [by intros [= <-]|].
  destruct (f acc x) as [b|] eqn:E1; cbn; [|done]. apply IH; [|intros b0 y ? ?; apply Hf; by right].
  apply (Hf acc x b); [left|exact Hacc|exact E1].
Qed.

Lemma try_fold_total {E A B} (P : B → Prop) (f : B → A → result E B) l acc :
  P acc → (∀ b x, x ∈ l → P b → ∃ b', f b x = Ok b' ∧ P b') → ∃ r, try_fold f acc l = Ok r ∧ P r.
Proof.
  revert acc. induction l as [|x l IH]; intros acc Hacc Hf; cbn; [eauto|].
  destruct (Hf acc x) as (b & -> & Hb); [left|done|]. apply IH; [done|].
  intros b0 y ?. apply Hf. by right.
Qed.

Lemma find_map_none {A B} (f : A → option B) l :
  find_map f l = None ↔ ∀ x, x ∈ l → f x = None.
Proof.
  induction l as [|x l IH]; cbn; [split; [set_solver|done]|].
  destruct (f x) as [b|] eqn:E; split; try done.
  - intros H. rewrite <-E. apply H. left.
  - rewrite IH. intros H y [->|?]%elem_of_cons; auto.
  - intros H. apply IH. intros y Hy. apply H. by right.
Qed.

Lemma find_map_Some {A B} (f : A → option B) l y :
  find_map f l = Some y → ∃ x, x ∈ l ∧ f x = Some y.
Proof.
  induction l as [|x l IH]; cbn; [done|]. destruct (f x) as [z|] eqn:E.
  - intros [= ->]. exists x. split; [left|done].
  - intros (x' & ? & ?)%IH. exists x'. split; [by right|done].
Qed.

Lemma existsb_false {A} (f : A → bool) l x : existsb f l = false → x ∈ l → f x = false.
Proof.
  intros Hf Hx. apply not_true_iff_false. intros E. apply not_true_iff_false in Hf. apply Hf, existsb_exists.
  exists x. by split; [apply list_elem_of_In|].
Qed.

Lemma elem_of_lfilter {A} (f : A → bool) l x : x ∈ List.filter f l ↔ x ∈ l ∧ f x = true.
Proof. by rewrite !list_elem_of_In, filter_In. Qed.

Lemma lfilter_none {A} (f : A → bool) l : (∀ x, x ∈ l → f x = false) → List.filter f l = [].
Proof.
  intros Hf. destruct (List.filter f l) as [|x l'] eqn:E; [done|].
  assert (x ∈ List.filter f l) as [Hin Hx]%elem_of_lfilter by (rewrite E; by left). by rewrite Hf in Hx.
Qed.

Lemma lfilter_within {A} (f g : A → bool) l : (∀ x, f x = true → g x = true) →
  List.filter f (List.filter g l) = List.filter f l.
Proof.
  intros Hfg. induction l as [|x l IH]; [done|]. cbn. destruct (g x) eqn:Eg; cbn; [by rewrite IH|].
  destruct (f x) eqn:Ef; [|done]. by rewrite Hfg in Eg.
Qed.

Section ord_lemmas.
Context `{OrdLaws A}.

Lemma cmp_refl (x : A) : cmp x x = Eq.
Proof. by apply cmp_eq. Qed.

Lemma cmp_gt (x y : A) : cmp x y = Gt ↔ cmp y x = Lt.
Proof. rewrite (cmp_opp x y). by destruct (cmp x y). Qed.

Lemma cmp_lt_irrefl (x : A) : cmp x x ≠ Lt.
Proof. by rewrite cmp_refl. Qed.

Lemma list_cmp_eq (l k : list A) : cmp l k = Eq ↔ l = k.
Proof.
  revert k. induction l as [|x l IH]; intros [|y k]; try done.
  change (cmp (x :: l) (y :: k)) with (match cmp x y with Eq => cmp l k | c => c end).
  destruct (cmp x y) eqn:E.
  - apply cmp_eq in E as ->. rewrite IH. split; [by intros ->|congruence].
  - split; [done|intros [= -> ->]]. by rewrite cmp_refl in E.
  - split; [done|intros [= -> ->]]. by rewrite cmp_refl in E.
Qed.

#[global] Instance list_ord_laws : OrdLaws (list A).
Proof.
  split.
  - apply list_cmp_eq.
  - induction x as [|x l IH]; intros [|y k]; try done. cbn in *.
    rewrite (cmp_opp x y). destruct (cmp x y); cbn; auto.
  - induction x as [|x l IH]; intros [|y k] [|z m]; try done. cbn in *.
    destruct (cmp x y) eqn:E1, (cmp y z) eqn:E2; try done.
    + apply cmp_eq in E1 as ->. rewrite E2. apply IH.
    + apply cmp_eq in E1 as ->. by rewrite E2.
    + apply cmp_eq in E2 as ->. by rewrite E1.
    + by rewrite (cmp_trans _ _ _ E1 E2).
Qed.

Lemma ord_via_laws {B} (f : B → A) `{!Inj (=) (=) f} : @OrdLaws B (ord_via f).
Proof.
  split; unfold cmp, ord_via.
  - intros x y. rewrite cmp_eq. split; [apply (inj f)|by intros ->].
  - intros x y. apply cmp_opp.
  - intros x y z. apply cmp_trans.
Qed.
End ord_lemmas.

#[global] Instance prod_ord_laws `{OrdLaws A, OrdLaws B} : OrdLaws (A * B).
Proof.
  split; unfold cmp, prod_ord.
  - intros [x1 x2] [y1 y2]; cbn. destruct (cmp x1 y1) eqn:E.
    + apply cmp_eq in E as ->. rewrite cmp_eq. split; [by intros ->|congruence].
    + split; [done|intros [= -> ->]]. by rewrite cmp_refl in E.
    + split; [done|intros [= -> ->]]. by rewrite cmp_refl in E.
  - intros [x1 x2] [y1 y2]; cbn. rewrite (cmp_opp x1 y1).
    destruct (cmp x1 y1); cbn; auto using cmp_opp.
  - intros [x1 x2] [y1 y2] [z1 z2]; cbn.
    destruct (cmp x1 y1) eqn:E1, (cmp y1 z1) eqn:E2; try done.
    + apply cmp_eq in E1 as ->. rewrite E2. apply cmp_trans.
    + apply cmp_eq in E1 as ->. by rewrite E2.
    + apply cmp_eq in E2 as ->. by rewrite E1.
    + by rewrite (cmp_trans _ _ _ E1 E2).
Qed.

(** * [BTreeSet] lemmas *)

Section bset_lemmas.
Context `{OrdLaws A}.
Implicit Types (x y : A) (s l : list A).

Lemma elem_of_bset_insert x y s : y ∈ bset_insert x s ↔ y = x ∨ y ∈ s.
Proof.
  induction s as [|z s IH]; cbn; [set_solver|].
  destruct (cmp x z) eqn:E; [apply cmp_eq in E as ->| |]; set_solver.
Qed.

Lemma elem_of_bset_extend y s l : y ∈ bset_extend s l ↔ y ∈ s ∨ y ∈ l.
Proof.
  unfold bset_extend. revert s. induction l as [|x l IH]; intros s; cbn; [set_solver|].
  rewrite IH, elem_of_bset_insert. set_solver.
Qed.

Lemma elem_of_bset_of y l : y ∈ bset_of l ↔ y ∈ l.
Proof. unfold bset_of. rewrite elem_of_bset_extend. set_solver. Qed.

Lemma bset_insert_wf x s : bset_wf s → bset_wf (bset_insert x s).
Proof.
  unfold bset_wf. induction 1 as [|z s Hs IH Hz]; cbn; [by repeat constructor|].
  destruct (cmp x z) eqn:E.
  - by constructor.
  - constructor; [by constructor|]. constructor; [done|].
    eapply Forall_impl; [exact Hz|]. intros w ?. by eapply cmp_trans.
  - constructor; [done|]. apply Forall_forall. intros w [->|Hw]%elem_of_bset_insert.
    + by apply cmp_gt.
    + by eapply Forall_forall in Hz.
Qed.

Lemma bset_filter_wf f s : bset_wf s → bset_wf (List.filter f s).
Proof.
  unfold bset_wf. induction 1 as [|x s Hs IH Hx]; cbn; [constructor|]. destruct (f x); [|done].
  constructor; [done|]. rewrite Forall_forall in Hx |- *. intros y [? _]%elem_of_lfilter. auto.
Qed.

Lemma bset_extend_wf s l : bset_wf s → bset_wf (bset_extend s l).
Proof.
  unfold bset_extend. revert s. induction l; cbn; auto using bset_insert_wf.
Qed.

Lemma bset_of_wf l : bset_wf (bset_of l).
Proof. apply bset_extend_wf. constructor. Qed.

(** A set has one representation, which is what makes comparing two of them,
    or encoding one, independent of insertion order. *)
Lemma bset_ext s t : bset_wf s → bset_wf t → (∀ x, x ∈ s ↔ x ∈ t) → s = t.
Proof.
  unfold bset_wf. intros Hs. revert t.
  induction Hs as [|x s Hs IH Hx]; intros t Ht Hst.
  { destruct t as [|y t]; [done|]. destruct (Hst y); set_solver. }
  destruct Ht as [|y t Ht Hy]; [destruct (Hst x); set_solver|].
  assert (x = y) as ->.
  { destruct (cmp x y) eqn:E; [by apply cmp_eq| |].
    - assert (x ∈ y :: t) as [->|Hin]%elem_of_cons by (apply Hst; set_solver); [done|].
      rewrite Forall_forall in Hy. apply Hy in Hin.
      pose proof (cmp_trans _ _ _ E Hin). by destruct (cmp_lt_irrefl x).
    - apply cmp_gt in E.
      assert (y ∈ x :: s) as [->|Hin]%elem_of_cons by (apply Hst; set_solver); [done|].
      rewrite Forall_forall in Hx. apply Hx in Hin.
      pose proof (cmp_trans _ _ _ E Hin). by destruct (cmp_lt_irrefl y). }
  f_equal. apply IH; [done|]. intros z.
  rewrite Forall_forall in Hx, Hy. specialize (Hst z). rewrite !elem_of_cons in Hst.
  split; intros Hz.
  - destruct (proj1 Hst) as [->|?]; auto. apply Hx in Hz. by destruct (cmp_lt_irrefl y).
  - destruct (proj2 Hst) as [->|?]; auto. apply Hy in Hz. by destruct (cmp_lt_irrefl y).
Qed.

Lemma bset_of_wf_id s : bset_wf s → bset_of s = s.
Proof. intros. apply bset_ext; auto using bset_of_wf. intros. apply elem_of_bset_of. Qed.
End bset_lemmas.

(** * [BTreeMap] lemmas *)

Section bmap_lemmas.
Context `{OrdLaws A} {V : Type}.
Implicit Types (k : A) (v : V) (m : list (A * V)).

Lemma bm_get_entry_ne k k' d f m : k ≠ k' → bm_get k (bm_entry k' d f m) = bm_get k m.
Proof.
  intros Hne. induction m as [|[k0 v] m IH]; cbn.
  { destruct (cmp k k') eqn:E; [by apply cmp_eq in E|done|done]. }
  destruct (cmp k' k0) eqn:E; cbn.
  - apply cmp_eq in E as ->.
    destruct (cmp k k0) eqn:E'; [by apply cmp_eq in E'|done|done].
  - destruct (cmp k k') eqn:E'; [by apply cmp_eq in E'|done|done].
  - by rewrite IH.
Qed.

Lemma bm_keys_entry k d f m : bm_keys (bm_entry k d f m) = bset_insert k (bm_keys m).
Proof.
  unfold bm_keys. induction m as [|[k0 v] m IH]; cbn; [done|].
  destruct (cmp k k0); cbn; by rewrite ?IH.
Qed.

Lemma bm_entry_wf k d f m : bm_wf m → bm_wf (bm_entry k d f m).
Proof. unfold bm_wf. rewrite bm_keys_entry. apply bset_insert_wf. Qed.

Lemma bm_get_elem k v m : bm_get k m = Some v → (k, v) ∈ m.
Proof.
  induction m as [|[k' v'] m IH]; cbn; [done|].
  destruct (cmp k k') eqn:E; [apply cmp_eq in E as ->; intros [= ->]| |]; set_solver.
Qed.

Lemma bm_get_key k v m : bm_get k m = Some v → k ∈ bm_keys m.
Proof. intros Hk%bm_get_elem. apply list_elem_of_fmap. by exists (k, v). Qed.

Lemma bm_get_lt k m : Forall (λ k', cmp k k' = Lt) (bm_keys m) → bm_get k m = None.
Proof.
  induction m as [|[k' v'] m IH]; cbn; [done|].
  intros [E ?]%Forall_cons. rewrite E. auto.
Qed.

Lemma bm_get_entry_eq k d f m : bm_wf m →
  bm_get k (bm_entry k d f m) = Some (f (default d (bm_get k m))).
Proof.
  unfold bm_wf. induction m as [|[k0 v] m IH]; cbn; [by rewrite cmp_refl|].
  intros [Hs Hk]%StronglySorted_inv.
  destruct (cmp k k0) eqn:E; cbn.
  - by rewrite E.
  - rewrite cmp_refl, bm_get_lt; [done|]. cbn.
    eapply Forall_impl; [exact Hk|]. intros w ?. by eapply cmp_trans.
  - rewrite E. by apply IH.
Qed.

Lemma elem_bm_get k v m : bm_wf m → (k, v) ∈ m → bm_get k m = Some v.
Proof.
  unfold bm_wf. induction m as [|[k' v'] m IH]; cbn; [set_solver|].
  intros [Hs Hk]%StronglySorted_inv [[= -> ->]|Hin]%elem_of_cons; [by rewrite cmp_refl|].
  destruct (cmp k k') eqn:E; [|by apply IH..].
  apply cmp_eq in E as ->. rewrite Forall_forall in Hk.
  destruct (cmp_lt_irrefl k'). apply Hk, list_elem_of_fmap. by exists (k', v).
Qed.

Lemma bm_get_insert_eq k v m : bm_wf m → bm_get k (bm_insert k v m) = Some v.
Proof. intros. unfold bm_insert. by rewrite bm_get_entry_eq. Qed.

Lemma bm_get_insert_ne k k' v m : k ≠ k' → bm_get k (bm_insert k' v m) = bm_get k m.
Proof. apply bm_get_entry_ne. Qed.

Lemma bm_insert_wf k v m : bm_wf m → bm_wf (bm_insert k v m).
Proof. apply bm_entry_wf. Qed.

Lemma bm_get_None k m : bm_get k m = None → k ∉ bm_keys m.
Proof.
  induction m as [|[k' v] m IH]; cbn; [set_solver|].
  destruct (cmp k k') eqn:E; [done|..]; intros ?%IH;
    (assert (k ≠ k') by (intros ->; by rewrite cmp_refl in E)); set_solver.
Qed.

Lemma elem_of_bm_insert k v m kv :
  bm_get k m = None → kv ∈ bm_insert k v m ↔ kv = (k, v) ∨ kv ∈ m.
Proof.
  unfold bm_insert. induction m as [|[k' v'] m IH]; cbn; [set_solver|].
  destruct (cmp k k') eqn:E; [done|set_solver|]. intros ?%IH. set_solver.
Qed.

(** A map has one representation. *)
Lemma bm_ext m1 m2 : bm_wf m1 → bm_wf m2 → (∀ kv, kv ∈ m1 ↔ kv ∈ m2) → m1 = m2.
Proof.
  assert (∀ m, bm_wf m → StronglySorted (λ p q : A * V, cmp p.1 q.1 = Lt) m) as Hs.
  { unfold bm_wf, bset_wf. induction m as [|p m IH]; cbn; [constructor|].
    intros [Hm Hp]%StronglySorted_inv. constructor; [auto|]. by apply Forall_fmap in Hp. }
  assert (∀ m, StronglySorted (λ p q : A * V, cmp p.1 q.1 = Lt) m → NoDup m) as Hn.
  { induction 1 as [|p m Hm IH Hp]; constructor; [|done]. intros Hin.
    rewrite Forall_forall in Hp. apply Hp in Hin. by destruct (cmp_lt_irrefl p.1). }
  intros H1%Hs H2%Hs He.
  apply (StronglySorted_unique_strong (λ p q : A * V, cmp p.1 q.1 = Lt)); [|done|done|].
  - intros p q _ _ H12 H21. destruct (cmp_lt_irrefl p.1). by eapply cmp_trans.
  - apply NoDup_Permutation; auto.
Qed.
End bmap_lemmas.
