(* ===== verification/RustStd.v ===== *)
(** The parts of Rust's standard library the modelled crates use on byte strings:
    [slice::starts_with]/[ends_with], [str::split], ASCII case folding, trimming,
    [String::from_utf8_lossy], and the big-endian integer encodings. A [String],
    a [&str] and a [Vec<u8>] are all lists of bytes; that a [str] holds UTF-8 is
    the predicate [utf8]. *)

From Stdlib Require String.
From stdpp Require Import countable.
From S2P Require Export Prelude.
Export (notations) String.

Notation bytes := (list byte).

#[global] Instance byte_countable : Countable byte.
Proof. refine (inj_countable Byte.to_N Byte.of_N _). apply Byte.of_to_N. Defined.

(** A byte-string literal, [b"..."] or ["..."] of the source. *)
Definition lit (s : String.string) : bytes := String.list_byte_of_string s.
Arguments lit s%_string.

Definition byte_of_N (n : N) : byte := default "000"%byte (Byte.of_N n).
Definition byte_in (lo hi : N) (b : byte) : bool :=
  (lo <=? Byte.to_N b)%N && (Byte.to_N b <=? hi)%N.

Definition starts_with (w p : bytes) : bool := bool_decide (p `prefix_of` w).
Definition ends_with (w s : bytes) : bool := bool_decide (s `suffix_of` w).

(** [u8::to_ascii_lowercase] and the string version. *)
Definition to_ascii_lowercase (b : byte) : byte :=
  if byte_in 65 90 b then byte_of_N (Byte.to_N b + 32) else b.
Definition str_to_ascii_lowercase (s : bytes) : bytes := map to_ascii_lowercase s.

Definition is_ascii_lowercase (b : byte) : bool := byte_in 97 122 b.
Definition is_ascii_digit (b : byte) : bool := byte_in 48 57 b.
Definition is_ascii_alphabetic (b : byte) : bool := byte_in 65 90 b || byte_in 97 122 b.

(** [str::split(c)] collected: always at least one piece. *)
Fixpoint split_on (c : byte) (s : bytes) : list bytes :=
  match s with
  | [] => [[]]
  | b :: s' =>
      if decide (b = c) then [] :: split_on c s'
      else match split_on c s' with
           | p :: ps => (b :: p) :: ps
           | [] => [[b]]
           end
  end.

(** [str::split_once] and [str::splitn] on a byte. *)
Fixpoint split_once (c : byte) (s : bytes) : option (bytes * bytes) :=
  match s with
  | [] => None
  | b :: s' =>
      if decide (b = c) then Some ([], s')
      else '(l, r) ← split_once c s'; Some (b :: l, r)
  end.
Fixpoint splitn (n : nat) (c : byte) (s : bytes) : list bytes :=
  match n with
  | 0 => []
  | 1 => [s]
  | S n' => match split_once c s with Some (l, r) => l :: splitn n' c r | None => [s] end
  end.

(** [str::strip_prefix] and [str::strip_suffix]. *)
Fixpoint strip_prefix (p s : bytes) : option bytes :=
  match p, s with
  | [], _ => Some s
  | a :: p', b :: s' => if decide (a = b) then strip_prefix p' s' else None
  | _ :: _, [] => None
  end.
Definition strip_suffix (p s : bytes) : option bytes :=
  reverse <$> strip_prefix (reverse p) (reverse s).

(** The UTF-8 encodings of the characters with the [White_Space] property. *)
Definition white_space : list bytes :=
  map (map byte_of_N)
    [[9]; [10]; [11]; [12]; [13]; [32]; [194; 133]; [194; 160]; [225; 154; 128];
     [226; 128; 128]; [226; 128; 129]; [226; 128; 130]; [226; 128; 131]; [226; 128; 132];
     [226; 128; 133]; [226; 128; 134]; [226; 128; 135]; [226; 128; 136]; [226; 128; 137];
     [226; 128; 138]; [226; 128; 168]; [226; 128; 169]; [226; 128; 175]; [226; 129; 159];
     [227; 128; 128]]%N.

(** Drops leading pieces of [ws]; each round drops at least one byte, so the length of
    the text is enough rounds. *)
Fixpoint trim_pieces (fuel : nat) (ws : list bytes) (s : bytes) : bytes :=
  match fuel with
  | O => s
  | S fuel' =>
      match find_map (λ w, strip_prefix w s) ws with
      | Some s' => trim_pieces fuel' ws s'
      | None => s
      end
  end.
Definition trim_start (s : bytes) : bytes := trim_pieces (length s) white_space s.
Definition trim_end (s : bytes) : bytes :=
  reverse (trim_pieces (length s) (map reverse white_space) (reverse s)).
(** [str::trim]. *)
Definition trim (s : bytes) : bytes := trim_end (trim_start s).

(** [[T]::join]. *)
Fixpoint join_with (sep : bytes) (l : list bytes) : bytes :=
  match l with
  | [] => []
  | [x] => x
  | x :: l' => x ++ sep ++ join_with sep l'
  end.

(** [str::split_whitespace] collected: the maximal runs between pieces of white space.
    Each round consumes at least one byte. *)
Definition flush (word : bytes) : list bytes := if bool_decide (word = []) then [] else [word].
Fixpoint words (fuel : nat) (s word : bytes) : list bytes :=
  match fuel, s with
  | S fuel', b :: s' =>
      match find_map (λ w, strip_prefix w s) white_space with
      | Some rest => flush word ++ words fuel' rest []
      | None => words fuel' s' (word ++ [b])
      end
  | _, _ => flush word
  end.
Definition split_whitespace (s : bytes) : list bytes := words (length s) s [].

(** ** Decimal integers *)

Definition digit_byte (d : Z) : byte := byte_of_N (Z.to_N (48 + d)).
Definition byte_digit (b : byte) : option Z :=
  if is_ascii_digit b then Some (Z.of_N (Byte.to_N b) - 48)%Z else None.

(** The decimal digits of [z], least significant first; an [n]-digit number needs [n]
    rounds, and a 64-bit one has at most 20. *)
Fixpoint dec_digits (fuel : nat) (z : Z) : list Z :=
  match fuel with
  | O => []
  | S fuel' => if (z <? 10)%Z then [z] else (z `mod` 10)%Z :: dec_digits fuel' (z / 10)
  end.
Definition nat_to_string (z : Z) : bytes := map digit_byte (reverse (dec_digits 20 z)).
#[global] Arguments nat_to_string : simpl never.
(** [Display for i64]. *)
Definition i64_to_string (z : Z) : bytes :=
  if (z <? 0)%Z then "-"%byte :: nat_to_string (- z) else nat_to_string z.

Definition i64_min : Z := (- 2 ^ 63)%Z.
Definition i64_max : Z := (2 ^ 63 - 1)%Z.
Definition i64 (z : Z) : Prop := (i64_min ≤ z ≤ i64_max)%Z.
Definition u32_max : Z := (2 ^ 32 - 1)%Z.

Fixpoint parse_digits (acc : Z) (s : bytes) : option Z :=
  match s with
  | [] => Some acc
  | b :: s' => d ← byte_digit b; parse_digits (acc * 10 + d)%Z s'
  end.

(** [str::parse::<i64>]: an optional sign, at least one digit, and the value in range. *)
Definition parse_i64 (s : bytes) : option Z :=
  '(sign, digits) ← match s with
    | [] => None
    | "-"%byte :: s' => Some ((-1)%Z, s')
    | "+"%byte :: s' => Some (1%Z, s')
    | _ => Some (1%Z, s)
    end;
  if bool_decide (digits = []) then None
  else
    v ← parse_digits 0 digits;
    if (i64_min <=? sign * v)%Z && (sign * v <=? i64_max)%Z then Some (sign * v)%Z else None.

(** [str::parse] of an unsigned type: an optional plus sign, at least one digit, in range. *)
Definition parse_unsigned (max : Z) (s : bytes) : option Z :=
  let digits := match s with "+"%byte :: s' => s' | _ => s end in
  if bool_decide (digits = []) then None
  else v ← parse_digits 0 digits; if (v <=? max)%Z then Some v else None.

(** ** UTF-8 *)

Definition is_cont (b : byte) : bool := byte_in 128 191 b.
(** Whether [b1] may follow the lead byte [b0] of a three- or four-byte sequence. *)
Definition second_ok (b0 b1 : byte) : bool :=
  match Byte.to_N b0 with
  | 224%N => byte_in 160 191 b1
  | 237%N => byte_in 128 159 b1
  | 240%N => byte_in 144 191 b1
  | 244%N => byte_in 128 143 b1
  | _ => is_cont b1
  end.

Inductive lead := LeadAscii | Lead2 | Lead3 | Lead4 | LeadBad.
Definition lead_of (b : byte) : lead :=
  if byte_in 0 127 b then LeadAscii
  else if byte_in 194 223 b then Lead2
  else if byte_in 224 239 b then Lead3
  else if byte_in 240 244 b then Lead4
  else LeadBad.

(** U+FFFD, which replaces each maximal ill-formed prefix. *)
Definition replacement : bytes := [byte_of_N 239; byte_of_N 191; byte_of_N 189].

(** [String::from_utf8_lossy]. *)
Fixpoint from_utf8_lossy (s : bytes) : bytes :=
  match s with
  | [] => []
  | b0 :: r =>
      match lead_of b0, r with
      | LeadAscii, _ => b0 :: from_utf8_lossy r
      | LeadBad, _ => replacement ++ from_utf8_lossy r
      | _, [] => replacement
      | Lead2, b1 :: r1 =>
          if is_cont b1 then b0 :: b1 :: from_utf8_lossy r1
          else replacement ++ from_utf8_lossy r
      | Lead3, b1 :: r1 =>
          if second_ok b0 b1 then
            match r1 with
            | [] => replacement
            | b2 :: r2 =>
                if is_cont b2 then b0 :: b1 :: b2 :: from_utf8_lossy r2
                else replacement ++ from_utf8_lossy r1
            end
          else replacement ++ from_utf8_lossy r
      | Lead4, b1 :: r1 =>
          if second_ok b0 b1 then
            match r1 with
            | [] => replacement
            | b2 :: r2 =>
                if is_cont b2 then
                  match r2 with
                  | [] => replacement
                  | b3 :: r3 =>
                      if is_cont b3 then b0 :: b1 :: b2 :: b3 :: from_utf8_lossy r3
                      else replacement ++ from_utf8_lossy r2
                  end
                else replacement ++ from_utf8_lossy r1
            end
          else replacement ++ from_utf8_lossy r
      end
  end.

(** Well-formed UTF-8, the invariant of [str]. *)
Inductive utf8 : bytes → Prop :=
  | utf8_nil : utf8 []
  | utf8_1 b0 r : lead_of b0 = LeadAscii → utf8 r → utf8 (b0 :: r)
  | utf8_2 b0 b1 r : lead_of b0 = Lead2 → is_cont b1 = true → utf8 r → utf8 (b0 :: b1 :: r)
  | utf8_3 b0 b1 b2 r :
      lead_of b0 = Lead3 → second_ok b0 b1 = true → is_cont b2 = true →
      utf8 r → utf8 (b0 :: b1 :: b2 :: r)
  | utf8_4 b0 b1 b2 b3 r :
      lead_of b0 = Lead4 → second_ok b0 b1 = true → is_cont b2 = true → is_cont b3 = true →
      utf8 r → utf8 (b0 :: b1 :: b2 :: b3 :: r).

(** ** Machine integers, big-endian *)

(** The low [8 * n] bits of [z], most significant byte first ([to_be_bytes]). *)
Fixpoint be_bytes (n : nat) (z : Z) : bytes :=
  match n with
  | O => []
  | S n' => byte_of_N (Z.to_N ((z / 2 ^ (8 * Z.of_nat n')) `mod` 256)) :: be_bytes n' z
  end.

Definition u32_be (z : Z) : bytes := be_bytes 4 z.
Definition u64_be (z : Z) : bytes := be_bytes 8 z.
(** [x as u32] of a length. *)
Definition len_u32 {A} (l : list A) : Z := Z.of_nat (length l) `mod` 2 ^ 32.

(** * Lemmas *)

Lemma starts_with_spec w p : starts_with w p = true ↔ p `prefix_of` w.
Proof. apply bool_decide_eq_true. Qed.
Lemma ends_with_spec w s : ends_with w s = true ↔ s `suffix_of` w.
Proof. apply bool_decide_eq_true. Qed.

Lemma from_utf8_lossy_id s : utf8 s → from_utf8_lossy s = s.
Proof.
  induction 1; cbn [from_utf8_lossy];
    repeat match goal with E : _ = _ |- _ => rewrite E; clear E end; done.
Qed.

Lemma lead_of_ascii b : lead_of b = LeadAscii ↔ byte_in 0 127 b = true.
Proof. by destruct b. Qed.
Lemma ascii_not_cont b b0 : lead_of b = LeadAscii → is_cont b = false ∧ second_ok b0 b = false.
Proof.
  intros Hb. assert (is_cont b = false) as Hc by (by destruct b).
  split; [done|]. unfold second_ok. destruct b0; cbn; try exact Hc; by destruct b.
Qed.

(** UTF-8 text may be cut at any ASCII byte. *)
Lemma utf8_cut a c b : lead_of c = LeadAscii → utf8 (a ++ c :: b) → utf8 a ∧ utf8 b.
Proof.
  intros Hc. remember (a ++ c :: b) as s eqn:E. intros Hs. revert a E.
  induction Hs as [|b0 r ?? IH|b0 b1 r ??? IH|b0 b1 b2 r ???? IH|b0 b1 b2 b3 r ????? IH];
    intros [|a0 a] E; simplify_eq/=; try (by split; [constructor|]); try congruence.
  - destruct (IH a eq_refl). split; [by constructor|done].
  - destruct a as [|a1 a]; simplify_eq/=; [by destruct (ascii_not_cont c c) as [? ?]; congruence|].
    destruct (IH a eq_refl). split; [by constructor|done].
  - destruct a as [|a1 [|a2 a]]; simplify_eq/=;
      [by destruct (ascii_not_cont c a0) as [? ?]; congruence..|].
    destruct (IH a eq_refl). split; [by constructor|done].
  - destruct a as [|a1 [|a2 [|a3 a]]]; simplify_eq/=;
      [by destruct (ascii_not_cont c a0) as [? ?]; congruence..|].
    destruct (IH a eq_refl). split; [by constructor|done].
Qed.

Lemma utf8_app a b : utf8 a → utf8 b → utf8 (a ++ b).
Proof. induction 1; cbn; intros; [done|by constructor; auto..]. Qed.

Lemma to_ascii_lowercase_high b : lead_of b ≠ LeadAscii → to_ascii_lowercase b = b.
Proof. by destruct b. Qed.
Lemma to_ascii_lowercase_ascii b :
  lead_of b = LeadAscii → lead_of (to_ascii_lowercase b) = LeadAscii.
Proof. by destruct b. Qed.
Lemma to_ascii_lowercase_cont b : is_cont b = true → to_ascii_lowercase b = b.
Proof. by destruct b. Qed.
Lemma second_ok_cont b0 b : second_ok b0 b = true → is_cont b = true.
Proof. destruct b0; cbn; try done; by destruct b. Qed.
Lemma to_ascii_lowercase_idem b : to_ascii_lowercase (to_ascii_lowercase b) = to_ascii_lowercase b.
Proof. by destruct b. Qed.

Lemma utf8_lowercase s : utf8 s → utf8 (str_to_ascii_lowercase s).
Proof.
  induction 1; cbn; rewrite ?(to_ascii_lowercase_high b0) by congruence;
    rewrite ?to_ascii_lowercase_cont by eauto using second_ok_cont;
    by constructor; auto using to_ascii_lowercase_ascii.
Qed.

Lemma str_to_ascii_lowercase_idem s :
  str_to_ascii_lowercase (str_to_ascii_lowercase s) = str_to_ascii_lowercase s.
Proof.
  unfold str_to_ascii_lowercase. rewrite map_map. apply map_ext, to_ascii_lowercase_idem.
Qed.

(** Splitting then joining gives the text back, and no piece holds the separator. *)
Lemma split_on_nil c s : split_on c s ≠ [].
Proof. destruct s as [|b s]; cbn; [done|]. case_decide; [done|]. by destruct (split_on c s). Qed.

Lemma split_on_pieces c s : Forall (λ p, c ∉ p) (split_on c s).
Proof.
  induction s as [|b s IH]; cbn; [repeat constructor; set_solver|].
  case_decide; [constructor; [set_solver|done]|].
  destruct (split_on c s) as [|p ps]; [repeat constructor; set_solver|].
  apply Forall_cons in IH as [??]. constructor; [set_solver|done].
Qed.

Lemma split_on_none c s : c ∉ s → split_on c s = [s].
Proof.
  induction s as [|b s IH]; cbn; [done|]. intros Hc.
  rewrite decide_False by set_solver. rewrite IH by set_solver. done.
Qed.

Lemma split_on_cut c a b : c ∉ a → split_on c (a ++ c :: b) = a :: split_on c b.
Proof.
  induction a as [|x a IH]; cbn; intros Hc; [by rewrite decide_True|].
  rewrite decide_False by set_solver. by rewrite IH by set_solver.
Qed.

Lemma split_on_one c s p : split_on c s = [p] → s = p.
Proof.
  revert p. induction s as [|b s IH]; cbn; intros p E; [by simplify_eq|].
  case_decide; simplify_eq; [by destruct (split_on_nil c s)|].
  destruct (split_on c s) as [|q qs] eqn:Es; simplify_eq; [by destruct (split_on_nil c s)|].
  f_equal. by apply IH.
Qed.

Lemma split_on_two c s p q : split_on c s = [p; q] → s = p ++ c :: q.
Proof.
  revert p. induction s as [|b s IH]; cbn; intros p E; [by simplify_eq|].
  case_decide; [injection E as <- E; apply split_on_one in E; by subst|].
  destruct (split_on c s) as [|p' ps]; simplify_eq. by rewrite (IH p').
Qed.

(** ** Fresh bytes *)

Definition all_bytes : bytes := omap Byte.of_N (map N.of_nat (seq 0 256)).

Lemma all_bytes_complete b : b ∈ all_bytes.
Proof.
  unfold all_bytes. apply list_elem_of_omap. exists (Byte.to_N b).
  split; [|apply Byte.of_to_N]. apply list_elem_of_fmap. exists (N.to_nat (Byte.to_N b)).
  split; [by rewrite N2Nat.id|]. apply elem_of_seq.
  pose proof (Byte.to_N_bounded b). lia.
Qed.

Lemma all_bytes_nodup : NoDup all_bytes.
Proof. apply (bool_decide_unpack _). by vm_compute. Qed.

(** Fewer than 256 bytes leave one out. *)
Lemma fresh_byte (l : bytes) : length l < 256 → ∃ b, b ∉ l.
Proof.
  intros Hl. destruct (decide (Exists (λ b, b ∉ l) all_bytes)) as [(b & _ & ?)%Exists_exists|Hn].
  { by exists b. }
  exfalso. assert (length all_bytes ≤ length l) as Hle.
  { apply submseteq_length, NoDup_submseteq; [apply all_bytes_nodup|].
    intros b _. destruct (decide (b ∈ l)) as [|Hb]; [done|].
    exfalso. apply Hn, Exists_exists. eauto using all_bytes_complete. }
  change (length all_bytes) with 256 in Hle. lia.
Qed.

(** ** Integer encodings are injective at their width *)

Lemma byte_of_N_inj m n :
  (m < 256)%N → (n < 256)%N → byte_of_N m = byte_of_N n → m = n.
Proof.
  intros Hm Hn. unfold byte_of_N.
  destruct (Byte.of_N m) as [bm|] eqn:Em; [|apply Byte.of_N_None_iff in Em; lia].
  destruct (Byte.of_N n) as [bn|] eqn:En; [|apply Byte.of_N_None_iff in En; lia].
  cbn. intros ->. apply Byte.to_of_N in Em, En. congruence.
Qed.

Lemma length_be_bytes n z : length (be_bytes n z) = n.
Proof. induction n; cbn; auto. Qed.

Lemma be_bytes_inj n x y :
  (0 ≤ x < 2 ^ (8 * Z.of_nat n))%Z → (0 ≤ y < 2 ^ (8 * Z.of_nat n))%Z →
  be_bytes n x = be_bytes n y → x = y.
Proof.
  enough (be_bytes n x = be_bytes n y →
    x `mod` 2 ^ (8 * Z.of_nat n) = y `mod` 2 ^ (8 * Z.of_nat n))%Z as Hmod.
  { intros Hx Hy E. apply Hmod in E. by rewrite !Z.mod_small in E. }
  induction n as [|n IH]; cbn [be_bytes]; [by rewrite !Z.mod_1_r|].
  intros [= Eb E]. apply IH in E.
  apply byte_of_N_inj in Eb; [|pose proof (Z.mod_pos_bound (x / 2 ^ (8 * Z.of_nat n)) 256); lia
                              |pose proof (Z.mod_pos_bound (y / 2 ^ (8 * Z.of_nat n)) 256); lia].
  apply Z2N.inj in Eb; [|apply Z.mod_pos_bound; lia..].
  replace (8 * Z.of_nat (S n))%Z with (8 * Z.of_nat n + 8)%Z by lia.
  rewrite Z.pow_add_r by lia. change (2 ^ 8)%Z with 256%Z.
  rewrite !Z.rem_mul_r by lia. by rewrite E, Eb.
Qed.

(** ** Trimming and decimals *)

(** A byte of no white-space character. *)
Definition ws_free (b : byte) : bool := negb (existsb (λ w, bool_decide (b ∈ w)) white_space).

Lemma ws_free_spec b w : ws_free b = true → w ∈ white_space → b ∉ w ∧ w ≠ [].
Proof.
  unfold ws_free. rewrite negb_true_iff, <-not_true_iff_false, existsb_exists.
  intros Hb Hw. split.
  - intros Hin. apply Hb. exists w. split; [by apply list_elem_of_In|by apply bool_decide_eq_true].
  - revert w Hw. apply Forall_forall, (bool_decide_unpack _). by vm_compute.
Qed.

Lemma trim_pieces_id fuel ws b s :
  (∀ w, w ∈ ws → b ∉ w ∧ w ≠ []) → trim_pieces fuel ws (b :: s) = b :: s.
Proof.
  intros Hws. destruct fuel; cbn; [done|]. rewrite (proj2 (find_map_none _ _)); [done|].
  intros [|a w] [Hw ?]%Hws; [done|]. cbn. rewrite decide_False by set_solver. done.
Qed.

Lemma trim_id b s c t :
  b :: s = t ++ [c] → ws_free b = true → ws_free c = true → trim (b :: s) = b :: s.
Proof.
  intros E Hb Hc. unfold trim, trim_start.
  rewrite trim_pieces_id by (intros; by apply ws_free_spec). unfold trim_end.
  rewrite E, reverse_snoc, trim_pieces_id, <-reverse_snoc, reverse_involutive; [done|].
  intros w (v & -> & Hv)%list_elem_of_fmap. rewrite elem_of_reverse.
  destruct (ws_free_spec c v) as [? Hne]; [done..|]. split; [done|].
  intros Hr. apply Hne. by rewrite <-(reverse_involutive v), Hr.
Qed.

Lemma strip_prefix_app p s : strip_prefix p (p ++ s) = Some s.
Proof. induction p as [|a p IH]; cbn; [done|]. by rewrite decide_True. Qed.
Lemma strip_prefix_Some p s r : strip_prefix p s = Some r ↔ s = p ++ r.
Proof.
  revert s. induction p as [|a p IH]; intros s; cbn; [split; [by intros [= ->]|by intros ->]|].
  destruct s as [|b s]; [done|]. case_decide as E.
  - rewrite IH. split; [by intros ->; subst|by intros [= _ ->]].
  - split; [done|]. by intros [= ->].
Qed.
Lemma strip_suffix_app p s : strip_suffix p (s ++ p) = Some s.
Proof.
  unfold strip_suffix. rewrite reverse_app, strip_prefix_app. cbn. by rewrite reverse_involutive.
Qed.

Definition dec_value (l : list Z) : Z := fold_right (λ d acc, (d + 10 * acc)%Z) 0%Z l.

Lemma length_dec_digits fuel z : length (dec_digits fuel z) ≤ fuel.
Proof.
  revert z. induction fuel as [|fuel IH]; intros z; cbn; [lia|].
  destruct (_ <? _)%Z; cbn; [lia|]. specialize (IH (z / 10)%Z). lia.
Qed.

Lemma length_i64_to_string z : length (i64_to_string z) ≤ 21.
Proof.
  assert (∀ y, length (nat_to_string y) ≤ 20) as H.
  { intros y. unfold nat_to_string. rewrite length_map, length_reverse. apply length_dec_digits. }
  unfold i64_to_string. destruct (_ <? _)%Z; cbn [length]; [specialize (H (- z)%Z)|specialize (H z)]; lia.
Qed.

Lemma dec_digits_spec fuel z : (0 ≤ z < 10 ^ Z.of_nat (S fuel))%Z →
  dec_value (dec_digits (S fuel) z) = z ∧ Forall (λ d, 0 ≤ d < 10)%Z (dec_digits (S fuel) z) ∧
  dec_digits (S fuel) z ≠ [].
Proof.
  revert z. induction fuel as [|fuel IH]; intros z Hz; cbn [dec_digits].
  { destruct (Z.ltb_spec z 10); [|cbn in Hz; lia]. cbn. split; [lia|].
    split; [constructor; [lia|constructor]|done]. }
  destruct (Z.ltb_spec z 10).
  { cbn. split; [lia|]. split; [constructor; [lia|constructor]|done]. }
  pose proof (Z.mod_pos_bound z 10). pose proof (Z.div_mod z 10).
  rewrite Nat2Z.inj_succ, Z.pow_succ_r in Hz by lia.
  destruct (IH (z / 10)%Z) as (Hv & Hd & _).
  { split; [apply Z.div_pos; lia|]. apply Z.div_lt_upper_bound; lia. }
  split; [|split; [constructor; [lia|exact Hd]|done]].
  change (dec_value (_ :: ?l)) with (z `mod` 10 + 10 * dec_value l)%Z.
  cbn [dec_digits] in Hv. rewrite Hv. lia.
Qed.

Lemma digit_byte_in d : (0 ≤ d < 10)%Z → digit_byte d ∈ lit "0123456789".
Proof.
  intros Hd. assert (d ∈ [0; 1; 2; 3; 4; 5; 6; 7; 8; 9]%Z) as Hin by (rewrite !elem_of_cons; lia).
  apply (list_elem_of_fmap_2 digit_byte) in Hin. exact Hin.
Qed.

Lemma byte_digit_byte d : (0 ≤ d < 10)%Z → byte_digit (digit_byte d) = Some d.
Proof.
  intros Hd. assert (d ∈ [0; 1; 2; 3; 4; 5; 6; 7; 8; 9]%Z) as Hin by (rewrite !elem_of_cons; lia).
  clear Hd. revert d Hin. apply Forall_forall. repeat constructor.
Qed.

Lemma parse_digits_app acc a b :
  parse_digits acc (a ++ b) = v ← parse_digits acc a; parse_digits v b.
Proof.
  revert acc. induction a as [|x a IH]; intros acc; cbn; [done|].
  destruct (byte_digit x); cbn; [apply IH|done].
Qed.

Lemma parse_digits_print l acc : Forall (λ d, 0 ≤ d < 10)%Z l →
  parse_digits acc (map digit_byte (reverse l)) =
    Some (acc * 10 ^ Z.of_nat (length l) + dec_value l)%Z.
Proof.
  intros Hl. revert acc. induction Hl as [|d l Hd Hl IH]; intros acc; cbn [length].
  { cbn. f_equal. lia. }
  rewrite reverse_cons, map_app, parse_digits_app, IH. cbn.
  rewrite byte_digit_byte by done. cbn. f_equal.
  change (Z.pow_pos 10 (Pos.of_succ_nat (length l))) with (10 ^ Z.of_nat (S (length l)))%Z.
  rewrite Nat2Z.inj_succ, Z.pow_succ_r by lia. unfold dec_value. cbn. ring.
Qed.

Lemma nat_to_string_parse z : (0 ≤ z < 10 ^ 20)%Z → parse_digits 0 (nat_to_string z) = Some z.
Proof.
  intros Hz. destruct (dec_digits_spec 19 z) as (Hv & Hd & _); [exact Hz|].
  unfold nat_to_string. rewrite parse_digits_print by done. f_equal. lia.
Qed.

(** A printed number is a digit, more digits, and ends in a digit. *)
Lemma nat_to_string_digits z : (0 ≤ z < 10 ^ 20)%Z →
  nat_to_string z ≠ [] ∧ ∀ b, b ∈ nat_to_string z → b ∈ lit "0123456789".
Proof.
  intros Hz. destruct (dec_digits_spec 19 z) as (_ & Hd & Hne); [exact Hz|].
  unfold nat_to_string. split.
  - intros E. apply map_eq_nil in E. apply Hne.
    by rewrite <-(reverse_involutive (dec_digits 20 z)), E.
  - intros b (d & -> & Hin)%list_elem_of_fmap. rewrite elem_of_reverse in Hin.
    apply digit_byte_in. by eapply Forall_forall in Hd.
Qed.

Lemma i64_to_string_shape z : (i64_min ≤ z ≤ i64_max)%Z →
  ∃ b s t c, i64_to_string z = b :: s ∧ b :: s = t ++ [c] ∧
    b ∈ lit "-0123456789" ∧ c ∈ lit "0123456789".
Proof.
  unfold i64_min, i64_max, i64_to_string. intros Hz.
  assert (∀ y, (0 ≤ y < 10 ^ 20)%Z → ∃ b s t c, nat_to_string y = b :: s ∧ b :: s = t ++ [c] ∧
    b ∈ lit "0123456789" ∧ c ∈ lit "0123456789") as Hnat.
  { intros y [Hne Hall]%nat_to_string_digits. destruct (nat_to_string y) as [|b s] eqn:E; [done|].
    destruct (exists_last (l := b :: s)) as (t & c & Et); [done|]. exists b, s, t, c.
    split; [done|]. split; [done|]. split; apply Hall; [|rewrite Et]; set_solver. }
  destruct (Z.ltb_spec z 0).
  - destruct (Hnat (- z)%Z) as (b & s & t & c & -> & E & _ & Hc); [lia|].
    exists "-"%byte, (b :: s), ("-"%byte :: t), c. split; [done|].
    split; [by rewrite E|]. split; [left|done].
  - destruct (Hnat z) as (b & s & t & c & -> & E & Hb & Hc); [lia|].
    exists b, s, t, c. split; [done|]. split; [done|]. split; [by right|done].
Qed.

Lemma parse_i64_unsigned b s : b ∈ lit "0123456789" →
  parse_i64 (b :: s) =
    v ← parse_digits 0 (b :: s);
    if (i64_min <=? 1 * v)%Z && (1 * v <=? i64_max)%Z then Some (1 * v)%Z else None.
Proof. intros Hb. by repeat (apply elem_of_cons in Hb as [->|Hb]; [done|]); set_solver. Qed.

(** Printing a 64-bit integer and parsing it gives it back. *)
Lemma parse_i64_print z : (i64_min ≤ z ≤ i64_max)%Z → parse_i64 (i64_to_string z) = Some z.
Proof.
  intros Hz. pose proof Hz as Hz'. unfold i64_min, i64_max in Hz'. unfold i64_to_string.
  destruct (Z.ltb_spec z 0).
  - unfold parse_i64. cbn [mbind option_bind].
    destruct (nat_to_string_digits (- z)) as [Hne _]; [lia|].
    rewrite bool_decide_eq_false_2 by done. rewrite nat_to_string_parse by lia.
    cbn [mbind option_bind]. replace (-1 * - z)%Z with z by lia.
    rewrite !Zle_imp_le_bool by lia. done.
  - destruct (nat_to_string_digits z) as [Hne Hall]; [lia|].
    pose proof (nat_to_string_parse z) as Hp.
    destruct (nat_to_string z) as [|b s]; [done|].
    rewrite parse_i64_unsigned by (apply Hall; set_solver). rewrite Hp by lia.
    cbn [mbind option_bind]. replace (1 * z)%Z with z by lia.
    rewrite !Zle_imp_le_bool by lia. done.
Qed.
