(* ===== verification/Glob.v ===== *)
(** Single-segment identifier globs and their intersection algebra
    ([crates/zeroship-migrate-policy/src/scope/glob.rs]).

    [SegGlob] is the source's record; [seg_matches] is its ground-truth matcher, and
    [covers] and [intersect_seg] are shown to be exact with respect to it: they decide,
    and compute, containment and intersection of the denoted sets of byte strings. *)

From S2P Require Export RustStd.

(** * Model *)

Record SegGlob := mk_seg {
  sg_prefix : bytes;
  sg_suffix : bytes;
  sg_has_star : bool
}.

#[global] Instance SegGlob_eq_dec : EqDecision SegGlob.
Proof. solve_decision. Defined.

(** [derive(PartialOrd, Ord)]. *)
Definition seg_fields (g : SegGlob) : bytes * bytes * bool :=
  (sg_prefix g, sg_suffix g, sg_has_star g).
#[global] Instance SegGlob_ord : Ord SegGlob := ord_via seg_fields.
#[global] Instance seg_fields_inj : Inj (=) (=) seg_fields.
Proof. intros [] [] E. by simplify_eq/=. Qed.
#[global] Instance SegGlob_ord_laws : OrdLaws SegGlob.
Proof. apply ord_via_laws, _. Qed.

Definition seg_literal (b : bytes) : SegGlob := mk_seg b [] false.
Definition seg_star : SegGlob := mk_seg [] [] true.
Definition seg_infix (p s : bytes) : SegGlob := mk_seg p s true.

Definition star_byte : byte := "*"%byte.

(** The positions [iter().enumerate().filter(|(_, &b)| b == b'*')] yields. *)
Fixpoint star_positions (i : nat) (s : bytes) : list nat :=
  match s with
  | [] => []
  | b :: s' =>
      if decide (b = star_byte) then i :: star_positions (S i) s'
      else star_positions (S i) s'
  end.

Definition seg_parse (s : bytes) : option SegGlob :=
  match star_positions 0 s with
  | [] => Some (seg_literal s)
  | [star] => Some (seg_infix (take star s) (drop (star + 1) s))
  | _ :: _ :: _ => None
  end.

Definition is_star (g : SegGlob) : bool :=
  sg_has_star g && bool_decide (sg_prefix g = []) && bool_decide (sg_suffix g = []).

Definition is_literal (g : SegGlob) : bool := negb (sg_has_star g).

Definition seg_render (g : SegGlob) : bytes :=
  let p := from_utf8_lossy (sg_prefix g) in
  if sg_has_star g then p ++ star_byte :: from_utf8_lossy (sg_suffix g) else p.

Definition seg_matches (g : SegGlob) (w : bytes) : bool :=
  if sg_has_star g then
    bool_decide (length (sg_prefix g) + length (sg_suffix g) ≤ length w)
      && starts_with w (sg_prefix g) && ends_with w (sg_suffix g)
  else bool_decide (w = sg_prefix g).

Definition covers (self other : SegGlob) : bool :=
  match sg_has_star self, sg_has_star other with
  | false, false => bool_decide (sg_prefix self = sg_prefix other)
  | false, true => false
  | true, false => seg_matches self (sg_prefix other)
  | true, true =>
      starts_with (sg_prefix other) (sg_prefix self)
        && ends_with (sg_suffix other) (sg_suffix self)
  end.

Definition longer_prefix (x y : bytes) : option bytes :=
  if starts_with x y then Some x else if starts_with y x then Some y else None.

Definition longer_suffix (x y : bytes) : option bytes :=
  if ends_with x y then Some x else if ends_with y x then Some y else None.

(** The literal for an overlap of [o] bytes, when the two pieces agree on it. *)
Definition overlap_literal (p s : bytes) (floor o : nat) : option SegGlob :=
  if bool_decide (drop (length p - o) p = take o s) then
    let l := p ++ drop o s in
    if bool_decide (floor ≤ length l) then Some (seg_literal l) else None
  else None.

Definition enumerate_prefix_suffix (p s : bytes) (floor : nat) (out : list SegGlob)
    : list SegGlob :=
  let base := length p + length s in
  let out := if bool_decide (floor ≤ base) then bset_insert (seg_infix p s) out else out in
  fold_left
    (λ out o, match overlap_literal p s floor o with
              | Some g => bset_insert g out
              | None => out
              end)
    (seq 1 (Nat.min (length p) (length s))) out.

Definition subsume (globs : list SegGlob) : list SegGlob :=
  bset_of (List.filter
    (λ g, negb (existsb (λ h, bool_decide (h ≠ g) && covers h g) globs)) globs).

Definition intersect_seg (a b : SegGlob) : list SegGlob :=
  match sg_has_star a, sg_has_star b with
  | false, false =>
      subsume (if bool_decide (sg_prefix a = sg_prefix b) then bset_insert a [] else [])
  | false, true => subsume (if seg_matches b (sg_prefix a) then bset_insert a [] else [])
  | true, false => subsume (if seg_matches a (sg_prefix b) then bset_insert b [] else [])
  | true, true =>
      match longer_prefix (sg_prefix a) (sg_prefix b),
            longer_suffix (sg_suffix a) (sg_suffix b) with
      | Some p, Some s =>
          let floor := Nat.max (length (sg_prefix a) + length (sg_suffix a))
                               (length (sg_prefix b) + length (sg_suffix b)) in
          subsume (enumerate_prefix_suffix p s floor [])
      | _, _ => []
      end
  end.

(** The documented representation invariant: a literal has no suffix. *)
Definition seg_canonical (g : SegGlob) : Prop := sg_has_star g = false → sg_suffix g = [].

(** * Matching *)

Lemma seg_matches_star g w : sg_has_star g = true →
  seg_matches g w = true ↔
  length (sg_prefix g) + length (sg_suffix g) ≤ length w ∧
  sg_prefix g `prefix_of` w ∧ sg_suffix g `suffix_of` w.
Proof.
  unfold seg_matches. intros ->.
  rewrite !andb_true_iff, bool_decide_eq_true, starts_with_spec, ends_with_spec. tauto.
Qed.

Lemma seg_matches_literal g w : sg_has_star g = false →
  seg_matches g w = true ↔ w = sg_prefix g.
Proof. unfold seg_matches. intros ->. apply bool_decide_eq_true. Qed.

Lemma seg_star_matches w : seg_matches seg_star w = true.
Proof.
  rewrite seg_matches_star by done. cbn.
  split; [lia|split]; [apply prefix_nil|apply suffix_nil].
Qed.

Lemma is_star_spec g : is_star g = true ↔ g = seg_star.
Proof.
  unfold is_star. rewrite !andb_true_iff, !bool_decide_eq_true.
  destruct g; cbn. unfold seg_star. naive_solver.
Qed.

(** A star glob matches its own pieces around any middle. *)
Lemma seg_matches_pieces p s m : seg_matches (seg_infix p s) (p ++ m ++ s) = true.
Proof.
  rewrite seg_matches_star by done. cbn. rewrite !length_app. split; [lia|].
  split; [by apply prefix_app_r|]. rewrite app_assoc. by apply suffix_app_r.
Qed.

(** * A point of a glob that only its covers match

    [covers] is decided by one sample: for fewer than 256 globs there is a string the
    given glob matches and that only the globs covering it match. The sample starts
    its middle with a byte none of the globs' prefixes continue with, ends it with a
    byte none of their suffixes continue with, and is longer than every literal. *)

Lemma prefix_past {A} (p q : list A) c r :
  q `prefix_of` p ++ c :: r → q !! length p ≠ Some c → q `prefix_of` p.
Proof.
  intros [t E] Hq. destruct (decide (length q ≤ length p)) as [Hle|Hgt].
  - exists (take (length p - length q) t).
    apply (f_equal (take (length p))) in E. rewrite take_app_length in E.
    rewrite take_app_ge in E by done. done.
  - exfalso. apply Hq. apply (f_equal (λ l, l !! length p)) in E.
    rewrite lookup_app_r, Nat.sub_diag, lookup_app_l in E by lia. by rewrite <-E.
Qed.

Lemma suffix_past {A} (s q : list A) d r :
  q `suffix_of` r ++ d :: s → reverse q !! length s ≠ Some d → q `suffix_of` s.
Proof.
  rewrite !suffix_prefix_reverse, reverse_app, reverse_cons, <-app_assoc. cbn.
  rewrite <-(length_reverse s). apply prefix_past.
Qed.

Definition lit_bound (gs : list SegGlob) : nat :=
  list_max (map (λ g, length (sg_prefix g)) gs).

Lemma lit_bound_le g gs : g ∈ gs → length (sg_prefix g) ≤ lit_bound gs.
Proof.
  intros Hg. pose proof (proj1 (list_max_le (map (λ g, length (sg_prefix g)) gs) _) (Nat.le_refl _)) as HF.
  rewrite Forall_forall in HF. apply HF. apply list_elem_of_fmap. eauto.
Qed.

Lemma omap_length_le {A B} (f : A → option B) l : length (omap f l) ≤ length l.
Proof. induction l as [|x l IH]; cbn; [done|]. destruct (f x); cbn; lia. Qed.

Lemma fresh_point g gs : length gs < 256 →
  ∃ w, seg_matches g w = true ∧ ∀ h, h ∈ gs → seg_matches h w = true → covers h g = true.
Proof.
  intros Hlen. destruct (sg_has_star g) eqn:Hg; last first.
  { exists (sg_prefix g). split; [by apply seg_matches_literal|]. intros h _ Hh.
    unfold covers. rewrite Hg. destruct (sg_has_star h) eqn:E; [done|].
    apply seg_matches_literal in Hh; [|done]. by apply bool_decide_eq_true. }
  destruct (fresh_byte (omap (λ h, sg_prefix h !! length (sg_prefix g)) gs)) as [c Hc].
  { eapply Nat.le_lt_trans; [apply omap_length_le|done]. }
  destruct (fresh_byte (omap (λ h, reverse (sg_suffix h) !! length (sg_suffix g)) gs)) as [d Hd].
  { eapply Nat.le_lt_trans; [apply omap_length_le|done]. }
  set (w := sg_prefix g ++ c :: replicate (lit_bound gs) c ++ d :: sg_suffix g).
  exists w. split.
  { replace g with (seg_infix (sg_prefix g) (sg_suffix g)) by (destruct g; cbn in *; by subst).
    replace w with (sg_prefix g ++ (c :: replicate (lit_bound gs) c ++ [d]) ++ sg_suffix g)
      by (unfold w; cbn; by rewrite <-app_assoc).
    apply seg_matches_pieces. }
  intros h Hin Hh. unfold covers. rewrite Hg.
  destruct (sg_has_star h) eqn:Hs; last first.
  { exfalso. apply seg_matches_literal in Hh; [|done].
    pose proof (lit_bound_le _ _ Hin). apply (f_equal length) in Hh. unfold w in Hh.
    repeat (rewrite length_app in Hh || rewrite length_replicate in Hh || cbn in Hh). lia. }
  apply seg_matches_star in Hh as (_ & Hp & Hq); [|done].
  rewrite andb_true_iff, starts_with_spec, ends_with_spec. split.
  - eapply prefix_past; [exact Hp|]. intros E. apply Hc, list_elem_of_omap. eauto.
  - unfold w in Hq. rewrite app_comm_cons, app_assoc in Hq.
    eapply suffix_past; [exact Hq|]. intros E. apply Hd, list_elem_of_omap. eauto.
Qed.

Lemma covers_sound h g w : covers h g = true → seg_matches g w = true → seg_matches h w = true.
Proof.
  unfold covers. destruct (sg_has_star h) eqn:Hh, (sg_has_star g) eqn:Hg; try done.
  - rewrite andb_true_iff, starts_with_spec, ends_with_spec, !seg_matches_star by done.
    intros [Hp Hs] (Hl & Hp' & Hs').
    pose proof (prefix_length _ _ Hp). pose proof (suffix_length _ _ Hs).
    split; [lia|]. split; by etrans.
  - intros Hm Hw. apply seg_matches_literal in Hw; [|done]. by subst w.
  - rewrite bool_decide_eq_true, !seg_matches_literal by done. congruence.
Qed.

(** [SegGlob::covers] decides containment exactly: it answers yes precisely when
    every byte string the other glob matches is matched by this one. *)
Theorem covers_exact (h g : SegGlob) :
  covers h g = true ↔ ∀ w, seg_matches g w = true → seg_matches h w = true.
Proof.
  split; [eauto using covers_sound|]. intros Hw.
  destruct (fresh_point g [h]) as (w & Hg & Hc); [cbn; lia|]. apply Hc; [set_solver|auto].
Qed.

(** * Intersection *)

Lemma covers_refl g : covers g g = true.
Proof.
  unfold covers. destruct (sg_has_star g) eqn:Hg; [|by apply bool_decide_eq_true].
  rewrite andb_true_iff, starts_with_spec, ends_with_spec. done.
Qed.

Lemma covers_trans a b c : covers a b = true → covers b c = true → covers a c = true.
Proof.
  intros Hab Hbc. destruct (fresh_point c [a]) as (w & Hw & Hf); [cbn; lia|].
  apply Hf; [set_solver|]. eauto using covers_sound.
Qed.

(** What one glob covers and another does not equal is longer. *)
Lemma covers_shorter h g :
  sg_has_star g = true → covers h g = true → h ≠ g →
  length (sg_prefix h) + length (sg_suffix h) < length (sg_prefix g) + length (sg_suffix g).
Proof.
  unfold covers. intros Hg. rewrite Hg. destruct (sg_has_star h) eqn:Hh; [|done].
  rewrite andb_true_iff, starts_with_spec, ends_with_spec. intros [[p Hp] [s Hs]] Hne.
  destruct (decide (p = [] ∧ s = [])) as [[-> ->]|Hn].
  - exfalso. apply Hne. rewrite app_nil_r in Hp. cbn in Hs. destruct g, h; cbn in *. congruence.
  - rewrite Hp, Hs, !length_app. destruct p, s; cbn in *; try lia. by destruct Hn.
Qed.

Lemma elem_of_subsume g v :
  g ∈ subsume v ↔ g ∈ v ∧ ∀ h, h ∈ v → h ≠ g → covers h g = false.
Proof.
  unfold subsume. rewrite elem_of_bset_of, list_elem_of_In, filter_In, <-list_elem_of_In.
  rewrite negb_true_iff. split; intros [Hg Hn]; split; try done.
  - intros h Hh Hne. destruct (covers h g) eqn:E; [|done].
    assert (existsb (λ h, bool_decide (h ≠ g) && covers h g) v = true) as He; [|congruence].
    apply existsb_exists. exists h. rewrite <-list_elem_of_In, E, bool_decide_eq_true_2; done.
  - apply not_true_iff_false. intros (h & Hh & E)%existsb_exists.
    apply list_elem_of_In in Hh. rewrite andb_true_iff, bool_decide_eq_true in E.
    destruct E as [Hne E]. rewrite Hn in E; done.
Qed.

(** Every member of a set of canonical globs lies below one that [subsume] keeps. *)
Lemma subsume_star_kept v h n :
  length (sg_prefix h) + length (sg_suffix h) = n → sg_has_star h = true →
  Forall seg_canonical v → h ∈ v → ∃ k, k ∈ subsume v ∧ covers k h = true.
Proof.
  revert h. induction (lt_wf n) as [n _ IH]. intros h Hn Hs Hv Hh.
  destruct (existsb (λ k, bool_decide (k ≠ h) && covers k h) v) eqn:E.
  - apply existsb_exists in E as (k & Hk & Hc). apply list_elem_of_In in Hk.
    rewrite andb_true_iff, bool_decide_eq_true in Hc. destruct Hc as [Hne Hc].
    pose proof (covers_shorter _ _ Hs Hc Hne).
    assert (sg_has_star k = true).
    { unfold covers in Hc. rewrite Hs in Hc. by destruct (sg_has_star k). }
    destruct (IH (length (sg_prefix k) + length (sg_suffix k)) ltac:(lia) k) as (k' & ? & ?); auto.
    exists k'. split; [done|]. by eapply covers_trans.
  - exists h. split; [|apply covers_refl]. apply elem_of_subsume. split; [done|].
    intros k Hk Hne. destruct (covers k h) eqn:Hc; [|done].
    rewrite <-E. symmetry. apply existsb_exists. exists k.
    rewrite <-list_elem_of_In, Hc, bool_decide_eq_true_2; done.
Qed.

Lemma subsume_kept v g : Forall seg_canonical v → g ∈ v →
  ∃ k, k ∈ subsume v ∧ covers k g = true.
Proof.
  intros Hv Hg.
  destruct (existsb (λ k, bool_decide (k ≠ g) && covers k g) v) eqn:E.
  - apply existsb_exists in E as (k & Hk & Hc). apply list_elem_of_In in Hk.
    rewrite andb_true_iff, bool_decide_eq_true in Hc. destruct Hc as [Hne Hc].
    assert (sg_has_star k = true) as Hs.
    { destruct (sg_has_star k) eqn:Hk'; [done|]. exfalso. apply Hne.
      rewrite Forall_forall in Hv. pose proof (Hv _ Hk Hk') as Sk.
      unfold covers in Hc. rewrite Hk' in Hc. destruct (sg_has_star g) eqn:Hg'; [done|].
      apply bool_decide_eq_true in Hc. pose proof (Hv _ Hg Hg') as Sg.
      destruct k, g; cbn in *. congruence. }
    destruct (subsume_star_kept v k _ eq_refl Hs Hv Hk) as (k' & ? & ?).
    exists k'. split; [done|]. by eapply covers_trans.
  - exists g. split; [|apply covers_refl]. apply elem_of_subsume. split; [done|].
    intros k Hk Hne. destruct (covers k g) eqn:Hc; [|done].
    rewrite <-E. symmetry. apply existsb_exists. exists k.
    rewrite <-list_elem_of_In, Hc, bool_decide_eq_true_2; done.
Qed.

(** [subsume] changes the set of globs and not what it denotes. *)
Lemma subsume_denotes v w : Forall seg_canonical v →
  (∃ g, g ∈ subsume v ∧ seg_matches g w = true) ↔ ∃ g, g ∈ v ∧ seg_matches g w = true.
Proof.
  intros Hv. split; intros (g & Hg & Hw).
  - apply elem_of_subsume in Hg as [??]. eauto.
  - destruct (subsume_kept v g) as (k & ? & ?); eauto using covers_sound.
Qed.

Lemma subsume_singleton g : subsume (bset_insert g []) = [g].
Proof.
  unfold subsume. cbn. rewrite bool_decide_eq_false_2 by (intros H; by apply H). done.
Qed.

Lemma longer_prefix_spec (x y w : bytes) :
  (x `prefix_of` w ∧ y `prefix_of` w) ↔ ∃ p, longer_prefix x y = Some p ∧ p `prefix_of` w.
Proof.
  unfold longer_prefix. destruct (starts_with x y) eqn:E1; [|destruct (starts_with y x) eqn:E2].
  - apply starts_with_spec in E1. split; [naive_solver|].
    intros (p & [= ->] & ?). split; [done|by etrans].
  - apply starts_with_spec in E2. split; [naive_solver|].
    intros (p & [= ->] & ?). split; [by etrans|done].
  - split; [|naive_solver]. intros [Hx Hy].
    destruct (prefix_weak_total _ _ _ Hx Hy) as [H|H]; apply starts_with_spec in H; congruence.
Qed.

Lemma suffix_weak_total' {A} (x y w : list A) :
  x `suffix_of` w → y `suffix_of` w → x `suffix_of` y ∨ y `suffix_of` x.
Proof. rewrite !suffix_prefix_reverse. apply prefix_weak_total. Qed.

Lemma longer_suffix_spec (x y w : bytes) :
  (x `suffix_of` w ∧ y `suffix_of` w) ↔ ∃ p, longer_suffix x y = Some p ∧ p `suffix_of` w.
Proof.
  unfold longer_suffix. destruct (ends_with x y) eqn:E1; [|destruct (ends_with y x) eqn:E2].
  - apply ends_with_spec in E1. split; [naive_solver|].
    intros (p & [= ->] & ?). split; [done|by etrans].
  - apply ends_with_spec in E2. split; [naive_solver|].
    intros (p & [= ->] & ?). split; [by etrans|done].
  - split; [|naive_solver]. intros [Hx Hy].
    destruct (suffix_weak_total' _ _ _ Hx Hy) as [H|H]; apply ends_with_spec in H; congruence.
Qed.

Lemma longer_prefix_length x y p :
  longer_prefix x y = Some p → length x ≤ length p ∧ length y ≤ length p.
Proof.
  unfold longer_prefix. destruct (starts_with x y) eqn:E1; [|destruct (starts_with y x) eqn:E2];
    intros; simplify_eq;
    [apply starts_with_spec, prefix_length in E1|apply starts_with_spec, prefix_length in E2]; lia.
Qed.

Lemma longer_suffix_length x y p :
  longer_suffix x y = Some p → length x ≤ length p ∧ length y ≤ length p.
Proof.
  unfold longer_suffix. destruct (ends_with x y) eqn:E1; [|destruct (ends_with y x) eqn:E2];
    intros; simplify_eq;
    [apply ends_with_spec, suffix_length in E1|apply ends_with_spec, suffix_length in E2]; lia.
Qed.

(** The members the overlap loop adds. *)
Lemma elem_of_overlaps p s floor l out g :
  g ∈ fold_left (λ out o, match overlap_literal p s floor o with
                          | Some g => bset_insert g out | None => out end) l out
  ↔ g ∈ out ∨ ∃ o, o ∈ l ∧ overlap_literal p s floor o = Some g.
Proof.
  revert out. induction l as [|o l IH]; intros out; cbn; [set_solver|].
  rewrite IH. destruct (overlap_literal p s floor o) as [h|] eqn:E.
  - rewrite elem_of_bset_insert. set_solver.
  - set_solver.
Qed.

Lemma overlap_literal_spec p s floor o g :
  overlap_literal p s floor o = Some g ↔
  drop (length p - o) p = take o s ∧ floor ≤ length (p ++ drop o s)
  ∧ g = seg_literal (p ++ drop o s).
Proof. unfold overlap_literal. repeat case_bool_decide; naive_solver. Qed.

Lemma elem_of_enumerate p s floor g : floor ≤ length p + length s →
  g ∈ enumerate_prefix_suffix p s floor [] ↔
  g = seg_infix p s ∨
  ∃ o, 1 ≤ o ≤ Nat.min (length p) (length s) ∧ overlap_literal p s floor o = Some g.
Proof.
  intros Hf. unfold enumerate_prefix_suffix.
  rewrite elem_of_overlaps, bool_decide_eq_true_2 by done.
  rewrite elem_of_bset_insert. setoid_rewrite elem_of_seq.
  split; [intros [[->|?]|(o & ? & ?)]|intros [->|(o & ? & ?)]]; try set_solver.
  - right. exists o. split; [lia|done].
  - right. exists o. split; [lia|done].
Qed.

Lemma enumerate_canonical p s floor : floor ≤ length p + length s →
  Forall seg_canonical (enumerate_prefix_suffix p s floor []).
Proof.
  intros Hf. apply Forall_forall. intros g Hg. apply elem_of_enumerate in Hg; [|done].
  destruct Hg as [->|(o & _ & (_ & _ & ->)%overlap_literal_spec)]; done.
Qed.

(** A string starting with [p] and ending with [s] that is too short to hold both
    apart is the literal of one overlap. *)
Lemma overlap_word (p s w : bytes) :
  p `prefix_of` w → s `suffix_of` w → length w < length p + length s →
  let o := length p + length s - length w in
  1 ≤ o ≤ Nat.min (length p) (length s) ∧
  drop (length p - o) p = take o s ∧ w = p ++ drop o s.
Proof.
  intros [t Ht] [u Hu] Hl o. pose proof (f_equal length Ht) as Lt. pose proof (f_equal length Hu) as Lu.
  rewrite length_app in Lt, Lu. split; [lia|].
  assert (w = p ++ drop o s) as Hw.
  { rewrite Ht. f_equal. apply (f_equal (drop (length p))) in Hu.
    rewrite Ht, drop_app_length, drop_app in Hu. rewrite Hu.
    rewrite (drop_ge u) by lia. cbn. f_equal. lia. }
  split; [|done]. apply (f_equal (drop (length u))) in Hw.
  rewrite Hu, drop_app_length, drop_app in Hw.
  replace (length p - o) with (length u) by lia.
  apply (f_equal (take o)) in Hw.
  rewrite take_app_length' in Hw by (rewrite length_drop; lia). done.
Qed.

Lemma overlap_word_pieces (p s : bytes) o :
  o ≤ length p → drop (length p - o) p = take o s →
  p `prefix_of` p ++ drop o s ∧ s `suffix_of` p ++ drop o s.
Proof.
  intros Ho E. split; [by apply prefix_app_r|].
  exists (take (length p - o) p). rewrite <-(take_drop (length p - o) p) at 1.
  rewrite E, <-app_assoc. by rewrite take_drop.
Qed.

Lemma enumerate_denotes p s floor w : floor ≤ length p + length s →
  (∃ g, g ∈ enumerate_prefix_suffix p s floor [] ∧ seg_matches g w = true) ↔
  p `prefix_of` w ∧ s `suffix_of` w ∧ floor ≤ length w.
Proof.
  intros Hf. setoid_rewrite elem_of_enumerate; [|done]. split.
  - intros (g & [->|(o & Ho & (E & Hl & ->)%overlap_literal_spec)] & Hw).
    + apply seg_matches_star in Hw as (? & ? & ?); cbn in *; [|done]. repeat split; try done. lia.
    + apply seg_matches_literal in Hw as ->; [|done]. cbn.
      destruct (overlap_word_pieces p s o) as [??]; [lia|done|]. done.
  - intros (Hp & Hs & Hl). destruct (decide (length p + length s ≤ length w)) as [Hb|Hb].
    + exists (seg_infix p s). split; [by left|]. by apply seg_matches_star.
    + destruct (overlap_word p s w Hp Hs ltac:(lia)) as (Ho & E & Hw).
      exists (seg_literal w). split; [|by apply seg_matches_literal].
      right. eexists. split; [exact Ho|]. apply overlap_literal_spec. rewrite <-Hw. done.
Qed.

Lemma intersect_seg_denotes a b w :
  (∃ g, g ∈ intersect_seg a b ∧ seg_matches g w = true) ↔
  seg_matches a w = true ∧ seg_matches b w = true.
Proof.
  unfold intersect_seg. destruct (sg_has_star a) eqn:Ha, (sg_has_star b) eqn:Hb.
  - rewrite !seg_matches_star by done.
    pose proof (longer_prefix_spec (sg_prefix a) (sg_prefix b) w) as HP.
    pose proof (longer_suffix_spec (sg_suffix a) (sg_suffix b) w) as HS.
    destruct (longer_prefix _ _) as [p|] eqn:Ep; last first.
    { split; [set_solver|]. intros [(_ & ? & _) (_ & ? & _)]. by destruct (proj1 HP) as (? & ? & _). }
    destruct (longer_suffix _ _) as [s|] eqn:Es; last first.
    { split; [set_solver|]. intros [(_ & _ & ?) (_ & _ & ?)]. by destruct (proj1 HS) as (? & ? & _). }
    apply longer_prefix_length in Ep. apply longer_suffix_length in Es.
    rewrite subsume_denotes by (apply enumerate_canonical; lia).
    rewrite enumerate_denotes by lia. split.
    + intros (Hp & Hs & Hl). destruct (proj2 HP) as [??]; [by eauto|].
      destruct (proj2 HS) as [??]; [by eauto|]. repeat split; try done; lia.
    + intros [(? & ? & ?) (? & ? & ?)]. destruct (proj1 HP) as (? & [= <-] & ?); [done|].
      destruct (proj1 HS) as (? & [= <-] & ?); [done|]. repeat split; try done; lia.
  - destruct (seg_matches a (sg_prefix b)) eqn:E; rewrite (seg_matches_literal b w) by done.
    + rewrite subsume_singleton. setoid_rewrite list_elem_of_singleton. split.
      * intros (g & -> & Hg). apply seg_matches_literal in Hg; [|done]. by subst w.
      * intros [? ->]. exists b. split; [done|]. by apply seg_matches_literal.
    + cbn. split; [set_solver|]. intros [? ->]. congruence.
  - destruct (seg_matches b (sg_prefix a)) eqn:E; rewrite (seg_matches_literal a w) by done.
    + rewrite subsume_singleton. setoid_rewrite list_elem_of_singleton. split.
      * intros (g & -> & Hg). apply seg_matches_literal in Hg; [|done]. by subst w.
      * intros [-> ?]. exists a. split; [done|]. by apply seg_matches_literal.
    + cbn. split; [set_solver|]. intros [-> ?]. congruence.
  - rewrite !seg_matches_literal by done. case_bool_decide as E.
    + rewrite subsume_singleton. setoid_rewrite list_elem_of_singleton. split.
      * intros (g & -> & Hg). apply seg_matches_literal in Hg; [|done]. split; congruence.
      * intros [-> ?]. exists a. split; [done|]. by apply seg_matches_literal.
    + cbn. split; [set_solver|]. intros [-> ?]. congruence.
Qed.

(** [intersect_seg] is exact: the globs it returns match exactly the byte strings
    both operands match, no more (the length floors hold) and no fewer. *)
Theorem intersect_seg_exact (a b : SegGlob) (w : bytes) :
  existsb (λ g, seg_matches g w) (intersect_seg a b) = seg_matches a w && seg_matches b w.
Proof.
  apply eq_true_iff_eq. rewrite existsb_exists, andb_true_iff, <-intersect_seg_denotes.
  setoid_rewrite <-list_elem_of_In. done.
Qed.

(** The globs [intersect_seg] returns are irredundant: none of them covers
    another. *)
Theorem intersect_seg_irredundant (a b g h : SegGlob) :
  g ∈ intersect_seg a b → h ∈ intersect_seg a b → covers h g = true → h = g.
Proof.
  assert (∀ v, g ∈ subsume v → h ∈ subsume v → covers h g = true → h = g) as Hsub.
  { intros v [_ Hg]%elem_of_subsume [Hh _]%elem_of_subsume Hc.
    destruct (decide (h = g)) as [|Hne]; [done|]. rewrite Hg in Hc; done. }
  unfold intersect_seg. destruct (sg_has_star a), (sg_has_star b); eauto.
  destruct (longer_prefix _ _); [|set_solver]. destruct (longer_suffix _ _); [|set_solver]. eauto.
Qed.

Lemma intersect_seg_irredundant_witness :
  let a := seg_infix (lit "ab") [] in
  let b := seg_infix [] (lit "bc") in
  length (intersect_seg a b) = 2 ∧
  ∀ g, g ∈ intersect_seg a b → covers (seg_literal (lit "abc")) g = true →
    seg_literal (lit "abc") = g.
Proof.
  split; [vm_compute; reflexivity|]. intros g Hg Hc.
  refine (intersect_seg_irredundant (seg_infix (lit "ab") []) (seg_infix [] (lit "bc"))
            g _ Hg _ Hc).
  apply (bool_decide_unpack _). vm_compute. exact I.
Defined.

Lemma intersect_seg_canonical a b :
  seg_canonical a → seg_canonical b → Forall seg_canonical (intersect_seg a b).
Proof.
  intros Ha Hb. apply Forall_forall. intros g Hg.
  assert (∀ v, Forall seg_canonical v → g ∈ subsume v → seg_canonical g) as Hsub.
  { intros v Hv [Hin _]%elem_of_subsume. rewrite Forall_forall in Hv. auto. }
  revert Hg. unfold intersect_seg. destruct (sg_has_star a), (sg_has_star b).
  - destruct (longer_prefix _ _) as [p|] eqn:Ep; [|set_solver].
    destruct (longer_suffix _ _) as [s|] eqn:Es; [|set_solver].
    apply longer_prefix_length in Ep. apply longer_suffix_length in Es.
    apply Hsub, enumerate_canonical. lia.
  - apply Hsub. destruct (seg_matches _ _); by repeat constructor.
  - apply Hsub. destruct (seg_matches _ _); by repeat constructor.
  - apply Hsub. case_bool_decide; by repeat constructor.
Qed.

(** Every glob matches something, so an intersection is empty exactly when no byte
    string matches both globs. *)
Lemma seg_inhabited g : ∃ w, seg_matches g w = true.
Proof. destruct (fresh_point g []) as (w & ? & _); [cbn; lia|eauto]. Qed.

Lemma intersect_seg_nil a b :
  intersect_seg a b = [] ↔ ∀ w, seg_matches a w = true → seg_matches b w = true → False.
Proof.
  split.
  - intros E w Ha Hb. destruct (proj2 (intersect_seg_denotes a b w)) as (g & Hg & _); [done|].
    rewrite E in Hg. set_solver.
  - intros Hn. destruct (intersect_seg a b) as [|g l] eqn:E; [done|].
    destruct (seg_inhabited g) as [w Hw]. destruct (Hn w); apply (intersect_seg_denotes a b w);
      exists g; rewrite E; set_solver.
Qed.

(** * Text *)

Lemma star_positions_nil i s : star_positions i s = [] ↔ star_byte ∉ s.
Proof.
  revert i. induction s as [|b s IH]; intros i; cbn; [set_solver|].
  case_decide; [set_solver|]. rewrite IH. set_solver.
Qed.

Lemma star_positions_one i s k : star_positions i s = [k] →
  ∃ p q, s = p ++ star_byte :: q ∧ k = i + length p ∧ star_byte ∉ p ∧ star_byte ∉ q.
Proof.
  revert i. induction s as [|b s IH]; intros i; cbn; [done|].
  case_decide as Hb.
  - intros [= <- E]. apply star_positions_nil in E. exists [], s. subst b.
    cbn. repeat split; [lia|set_solver|done].
  - intros (p & q & -> & -> & ? & ?)%IH. exists (b :: p), q. cbn.
    repeat split; [lia|set_solver|done].
Qed.

Lemma star_positions_app i p q : star_byte ∉ p →
  star_positions i (p ++ star_byte :: q) = i + length p :: star_positions (S (i + length p)) q.
Proof.
  revert i. induction p as [|b p IH]; intros i Hp; cbn.
  { rewrite decide_True by done. by rewrite Nat.add_0_r. }
  rewrite decide_False by set_solver. rewrite IH by set_solver. by rewrite <-plus_n_Sm.
Qed.

(** What a successful parse means: a star-free text is its own literal, and a text
    with one star is the pieces around it. *)
Lemma seg_parse_spec s g :
  seg_parse s = Some g ↔
  (star_byte ∉ s ∧ g = seg_literal s) ∨
  (∃ p q, s = p ++ star_byte :: q ∧ star_byte ∉ p ∧ star_byte ∉ q ∧ g = seg_infix p q).
Proof.
  unfold seg_parse. split.
  - destruct (star_positions 0 s) as [|k [|? ?]] eqn:E; intros Hg; simplify_eq.
    + left. by apply star_positions_nil in E.
    + right. apply star_positions_one in E as (p & q & -> & -> & ? & ?).
      exists p, q. repeat split; try done. cbn.
      rewrite take_app_length, drop_app_ge by lia.
      by replace (length p + 1 - length p) with 1 by lia.
  - intros [[Hs ->]|(p & q & -> & Hp & Hq & ->)].
    + apply star_positions_nil with (i := 0) in Hs. by rewrite Hs.
    + rewrite star_positions_app by done. cbn.
      rewrite (proj2 (star_positions_nil _ q)) by done. cbn.
      rewrite take_app_length, drop_app_ge by lia.
      by replace (length p + 1 - length p) with 1 by lia.
Qed.

Lemma seg_parse_canonical s g : seg_parse s = Some g → seg_canonical g.
Proof. intros [[_ ->]|(p & q & _ & _ & _ & ->)]%seg_parse_spec; done. Qed.

Lemma seg_parse_matches_text s g : seg_parse s = Some g → seg_matches g s = true.
Proof.
  intros [[_ ->]|(p & q & -> & _ & _ & ->)]%seg_parse_spec.
  - by apply seg_matches_literal.
  - apply (seg_matches_pieces p q [star_byte]).
Qed.

(** Printing and parsing a segment glob are inverse on text: a parsed text prints
    back as itself, and it is refused exactly when it has two stars. *)
Theorem seg_parse_render (s : bytes) : utf8 s →
  match seg_parse s with
  | Some g => seg_render g = s ∧ seg_canonical g
  | None => ∃ a b c, s = a ++ star_byte :: b ++ star_byte :: c
  end.
Proof.
  intros Hs. destruct (seg_parse s) as [g|] eqn:E.
  - split; [|by eapply seg_parse_canonical].
    apply seg_parse_spec in E as [[_ ->]|(p & q & -> & _ & _ & ->)]; unfold seg_render; cbn.
    + by apply from_utf8_lossy_id.
    + apply utf8_cut in Hs as [??]; [|done]. by rewrite !from_utf8_lossy_id.
  - destruct (decide (star_byte ∈ s)) as [(a & r & -> & Ha)%list_elem_of_split_l|Hn]; last first.
    { apply star_positions_nil with (i := 0) in Hn. unfold seg_parse in E. by rewrite Hn in E. }
    exists a. destruct (decide (star_byte ∈ r)) as [(b & c & -> & _)%list_elem_of_split_l|Hn].
    { by exists b, c. }
    assert (seg_parse (a ++ star_byte :: r) = Some (seg_infix a r)); [|congruence].
    apply seg_parse_spec. right. eauto 10.
Qed.

Lemma seg_parse_render_witness :
  utf8 (lit "app_*_v2") ∧
  ∃ g, seg_parse (lit "app_*_v2") = Some g ∧ seg_render g = lit "app_*_v2".
Proof.
  assert (utf8 (lit "app_*_v2")) as H; [repeat (apply utf8_1; [vm_compute; reflexivity|]); constructor|].
  split; [exact H|]. eexists. split; [reflexivity|].
  exact (proj1 (seg_parse_render (lit "app_*_v2") H)).
Defined.
