(* ===== verification/Pattern.v ===== *)
(** Two-segment scope patterns, the object names they address, and the identifier
    normalization both go through
    ([crates/zeroship-migrate-policy/src/scope/pattern.rs]). *)

From S2P Require Export Glob.

(** * Model *)

Record ObjectName := mk_object {
  on_schema : bytes;
  on_table : option bytes
}.
Definition object_schema (s : bytes) : ObjectName := mk_object s None.
Definition object_table (s t : bytes) : ObjectName := mk_object s (Some t).

Record Pattern := mk_pattern {
  pt_schema : SegGlob;
  pt_table : SegGlob
}.

#[global] Instance ObjectName_eq_dec : EqDecision ObjectName.
Proof. solve_decision. Defined.
#[global] Instance Pattern_eq_dec : EqDecision Pattern.
Proof. solve_decision. Defined.

(** [derive(PartialOrd, Ord)]. *)
Definition pattern_fields (p : Pattern) : SegGlob * SegGlob := (pt_schema p, pt_table p).
#[global] Instance Pattern_ord : Ord Pattern := ord_via pattern_fields.
#[global] Instance pattern_fields_inj : Inj (=) (=) pattern_fields.
Proof. intros [] [] E. by simplify_eq/=. Qed.
#[global] Instance Pattern_ord_laws : OrdLaws Pattern.
Proof. apply ord_via_laws, _. Qed.

Definition pattern_schema (g : SegGlob) : Pattern := mk_pattern g seg_star.
Definition pattern_table (s t : SegGlob) : Pattern := mk_pattern s t.

Definition dot_byte : byte := "."%byte.
Definition quote_byte : byte := byte_of_N 34.
#[global] Arguments dot_byte : simpl never.
#[global] Arguments quote_byte : simpl never.

Definition pattern_parse (s : bytes) : option Pattern :=
  match split_on dot_byte s with
  | [schema] => sg ← seg_parse schema; Some (pattern_schema sg)
  | [schema; table] =>
      sg ← seg_parse schema; tg ← seg_parse table; Some (pattern_table sg tg)
  | _ => None
  end.

Record NormalizedSegment := mk_segment {
  ns_bytes : bytes;
  ns_quoted : bool
}.

Definition finish_segment (b : bytes) (quoted unquoted : bool) : option NormalizedSegment :=
  if bool_decide (b = []) then None
  else if quoted && unquoted then None
  else Some (mk_segment b quoted).

(** The scanner of [split_normalize_segments]: [in_quote] says whether it is in the
    inner loop, the other arguments are the loop's variables, and [s] is what is left
    of the text at the index the source keeps. *)
Fixpoint split_scan (in_quote : bool) (out : list NormalizedSegment) (cur : bytes)
    (cur_quoted cur_unquoted : bool) (s : bytes) : option (list NormalizedSegment) :=
  let next in_quote out cur q u s :=
    if bool_decide (2 < length out) then None else split_scan in_quote out cur q u s in
  match s with
  | [] =>
      if in_quote then None
      else
        seg ← finish_segment cur cur_quoted cur_unquoted;
        let out := out ++ [seg] in
        if bool_decide (2 < length out) then None else Some out
  | c :: r =>
      if in_quote then
        if decide (c = quote_byte) then
          match r with
          | c' :: r' =>
              if decide (c' = quote_byte) then
                split_scan true out (cur ++ [quote_byte]) cur_quoted cur_unquoted r'
              else next false out cur cur_quoted cur_unquoted r
          | [] => next false out cur cur_quoted cur_unquoted r
          end
        else split_scan true out (cur ++ [c]) cur_quoted cur_unquoted r
      else if decide (c = quote_byte) then
        split_scan true out cur true cur_unquoted r
      else if decide (c = dot_byte) then
        seg ← finish_segment cur cur_quoted cur_unquoted;
        next false (out ++ [seg]) [] false false r
      else next false out (cur ++ [to_ascii_lowercase c]) cur_quoted true r
  end.

Definition split_normalize_segments (s : bytes) : option (list NormalizedSegment) :=
  split_scan false [] [] false false s.

Definition seg_from_normalized (seg : NormalizedSegment) : option SegGlob :=
  if ns_quoted seg then Some (seg_literal (ns_bytes seg))
  else seg_parse (from_utf8_lossy (ns_bytes seg)).

Definition parse_normalized (s : bytes) : option Pattern :=
  segs ← split_normalize_segments s;
  match segs with
  | [schema] => sg ← seg_from_normalized schema; Some (pattern_schema sg)
  | [schema; table] =>
      sg ← seg_from_normalized schema; tg ← seg_from_normalized table;
      Some (pattern_table sg tg)
  | _ => None
  end.

Definition pattern_universe : Pattern := mk_pattern seg_star seg_star.

Definition pattern_matches (p : Pattern) (n : ObjectName) : bool :=
  if seg_matches (pt_schema p) (on_schema n) then
    match on_table n with
    | Some t => seg_matches (pt_table p) t
    | None => is_star (pt_table p)
    end
  else false.

Definition normalize_object_name (s : bytes) : option ObjectName :=
  segs ← split_normalize_segments s;
  match segs with
  | [schema] => Some (object_schema (ns_bytes schema))
  | [schema; table] => Some (object_table (ns_bytes schema) (ns_bytes table))
  | _ => None
  end.

Definition intersect_pattern (a b : Pattern) : list Pattern :=
  let schemas := intersect_seg (pt_schema a) (pt_schema b) in
  if bool_decide (schemas = []) then [] else
  let tables := intersect_seg (pt_table a) (pt_table b) in
  if bool_decide (tables = []) then [] else
  fold_left
    (λ out s, fold_left (λ out t, bset_insert (mk_pattern s t) out) tables out)
    schemas [].

Definition pattern_covers (a b : Pattern) : bool :=
  covers (pt_schema a) (pt_schema b) && covers (pt_table a) (pt_table b).

Definition pattern_canonical (p : Pattern) : Prop :=
  seg_canonical (pt_schema p) ∧ seg_canonical (pt_table p).

(** * Matching and covering *)

Lemma pattern_matches_table p s t :
  pattern_matches p (mk_object s (Some t)) = seg_matches (pt_schema p) s && seg_matches (pt_table p) t.
Proof. unfold pattern_matches. cbn. by destruct (seg_matches _ _). Qed.
Lemma pattern_matches_schema p s :
  pattern_matches p (mk_object s None) = seg_matches (pt_schema p) s && is_star (pt_table p).
Proof. unfold pattern_matches. cbn. by destruct (seg_matches _ _). Qed.

Lemma star_covers g : covers seg_star g = true.
Proof.
  unfold covers. cbn [sg_has_star seg_star]. destruct (sg_has_star g); [|apply seg_star_matches].
  rewrite andb_true_iff, starts_with_spec, ends_with_spec.
  split; [apply prefix_nil|apply suffix_nil].
Qed.

Lemma covers_star g : covers g seg_star = true ↔ is_star g = true.
Proof.
  rewrite is_star_spec. split; [|intros ->; apply covers_refl].
  unfold covers. cbn. destruct g as [p s []]; cbn; [|done].
  rewrite andb_true_iff, starts_with_spec, ends_with_spec.
  intros [->%prefix_nil_inv ->%suffix_nil_inv]. done.
Qed.

Lemma pattern_covers_sound a b n :
  pattern_covers a b = true → pattern_matches b n = true → pattern_matches a n = true.
Proof.
  unfold pattern_covers. rewrite andb_true_iff. intros [Hs Ht].
  destruct n as [s [t|]]; [rewrite !pattern_matches_table|rewrite !pattern_matches_schema];
    rewrite !andb_true_iff; intros [Hms Hmt]; split; eauto using covers_sound.
  apply is_star_spec in Hmt. rewrite Hmt in Ht. by apply covers_star.
Qed.

(** A table of [p] that only the patterns covering [p] match. *)
Lemma pattern_fresh_point p ps : length ps < 256 →
  ∃ s t, pattern_matches p (mk_object s (Some t)) = true ∧
    ∀ q, q ∈ ps → pattern_matches q (mk_object s (Some t)) = true → pattern_covers q p = true.
Proof.
  intros Hl.
  destruct (fresh_point (pt_schema p) (map pt_schema ps)) as (s & Hs & Fs); [by rewrite length_map|].
  destruct (fresh_point (pt_table p) (map pt_table ps)) as (t & Ht & Ft); [by rewrite length_map|].
  exists s, t. rewrite pattern_matches_table, Hs, Ht. split; [done|].
  intros q Hq. rewrite pattern_matches_table, andb_true_iff. intros [Hqs Hqt].
  unfold pattern_covers. rewrite andb_true_iff. split; [apply Fs|apply Ft]; try done; apply list_elem_of_fmap; eauto.
Qed.

Lemma pattern_covers_refl p : pattern_covers p p = true.
Proof. unfold pattern_covers. by rewrite !covers_refl. Qed.

Lemma pattern_covers_trans a b c :
  pattern_covers a b = true → pattern_covers b c = true → pattern_covers a c = true.
Proof.
  unfold pattern_covers. rewrite !andb_true_iff. intros [??] [??].
  split; by eapply covers_trans.
Qed.

(** [pattern_covers] decides containment of the object sets exactly, schema
    objects and tables alike. *)
Theorem pattern_covers_exact (a b : Pattern) :
  pattern_covers a b = true ↔
  ∀ n, pattern_matches b n = true → pattern_matches a n = true.
Proof.
  split; [eauto using pattern_covers_sound|]. intros Hn.
  destruct (pattern_fresh_point b [a]) as (s & t & Hm & Hc); [cbn; lia|].
  apply Hc; [set_solver|auto].
Qed.

(** * Intersection *)

Lemma elem_of_pattern_row s tables out p :
  p ∈ fold_left (λ out t, bset_insert (mk_pattern s t) out) tables out ↔
  p ∈ out ∨ (pt_schema p = s ∧ pt_table p ∈ tables).
Proof.
  revert out. induction tables as [|t ts IH]; intros out; cbn; [set_solver|].
  rewrite IH, elem_of_bset_insert. destruct p as [ps pt]; cbn.
  split; [intros [[[= -> ->]|?]|[-> ?]]|intros [?|[-> [->|?]%elem_of_cons]]]; set_solver.
Qed.

Lemma elem_of_pattern_product schemas tables out p :
  p ∈ fold_left (λ out s, fold_left (λ out t, bset_insert (mk_pattern s t) out) tables out)
        schemas out ↔
  p ∈ out ∨ (pt_schema p ∈ schemas ∧ pt_table p ∈ tables).
Proof.
  revert out. induction schemas as [|s ss IH]; intros out; cbn; [set_solver|].
  rewrite IH, elem_of_pattern_row. set_solver.
Qed.

Lemma elem_of_intersect_pattern a b p :
  p ∈ intersect_pattern a b ↔
  pt_schema p ∈ intersect_seg (pt_schema a) (pt_schema b) ∧
  pt_table p ∈ intersect_seg (pt_table a) (pt_table b).
Proof.
  unfold intersect_pattern. case_bool_decide as E1; [rewrite E1; set_solver|].
  cbv zeta. case_bool_decide as E2; [rewrite E2; set_solver|].
  rewrite elem_of_pattern_product. set_solver.
Qed.

(** The universe glob survives an intersection exactly when both operands are it. *)
Lemma intersect_seg_star a b :
  (∃ g, g ∈ intersect_seg a b ∧ is_star g = true) ↔ is_star a = true ∧ is_star b = true.
Proof.
  split.
  - intros (g & Hg & ->%is_star_spec).
    assert (∀ w, seg_matches a w = true ∧ seg_matches b w = true) as Hall.
    { intros w. apply intersect_seg_denotes. eauto using seg_star_matches. }
    rewrite <-!covers_star. split;
      (destruct (fresh_point seg_star [a; b]) as (w & _ & Hw); [cbn; lia|]);
      destruct (Hall w); apply Hw; set_solver.
  - intros [->%is_star_spec ->%is_star_spec]. exists seg_star. split; [|done].
    by apply (bool_decide_unpack _).
Qed.

Lemma intersect_pattern_denotes a b n :
  (∃ p, p ∈ intersect_pattern a b ∧ pattern_matches p n = true) ↔
  pattern_matches a n = true ∧ pattern_matches b n = true.
Proof.
  setoid_rewrite elem_of_intersect_pattern.
  pose proof (intersect_seg_denotes (pt_schema a) (pt_schema b) (on_schema n)) as HS.
  destruct n as [s [t|]]; cbn in HS.
  - setoid_rewrite pattern_matches_table. setoid_rewrite andb_true_iff.
    pose proof (intersect_seg_denotes (pt_table a) (pt_table b) t) as HT. split.
    + intros ([ps pt] & [??] & [??]); cbn in *.
      destruct (proj1 HS) as [??]; [by eauto|]. destruct (proj1 HT) as [??]; [by eauto|]. done.
    + intros [[??] [??]]. destruct (proj2 HS) as (gs & ? & ?); [done|].
      destruct (proj2 HT) as (gt & ? & ?); [done|]. by exists (mk_pattern gs gt).
  - setoid_rewrite pattern_matches_schema. setoid_rewrite andb_true_iff.
    pose proof (intersect_seg_star (pt_table a) (pt_table b)) as HT. split.
    + intros ([ps pt] & [??] & [??]); cbn in *.
      destruct (proj1 HS) as [??]; [by eauto|]. destruct (proj1 HT) as [??]; [by eauto|]. done.
    + intros [[??] [??]]. destruct (proj2 HS) as (gs & ? & ?); [done|].
      destruct (proj2 HT) as (gt & ? & ?); [done|]. by exists (mk_pattern gs gt).
Qed.

(** [intersect_pattern] is exact: the patterns it returns match exactly the
    objects both operands match. *)
Theorem intersect_pattern_exact (a b : Pattern) (n : ObjectName) :
  existsb (λ p, pattern_matches p n) (intersect_pattern a b) =
  pattern_matches a n && pattern_matches b n.
Proof.
  apply eq_true_iff_eq. rewrite existsb_exists, andb_true_iff, <-intersect_pattern_denotes.
  setoid_rewrite <-list_elem_of_In. done.
Qed.

Lemma intersect_pattern_canonical a b :
  pattern_canonical a → pattern_canonical b → Forall pattern_canonical (intersect_pattern a b).
Proof.
  intros [??] [??]. apply Forall_forall. intros p [Hs Ht]%elem_of_intersect_pattern.
  split; (eapply Forall_forall; [|eassumption]); by apply intersect_seg_canonical.
Qed.

Lemma pattern_inhabited p : ∃ n, pattern_matches p n = true.
Proof. destruct (pattern_fresh_point p []) as (s & t & ? & _); [cbn; lia|eauto]. Qed.

Lemma intersect_pattern_nil a b :
  intersect_pattern a b = [] ↔
  ∀ n, pattern_matches a n = true → pattern_matches b n = true → False.
Proof.
  split.
  - intros E n Ha Hb. destruct (proj2 (intersect_pattern_denotes a b n)) as (p & Hp & _); [done|].
    rewrite E in Hp. set_solver.
  - intros Hn. destruct (intersect_pattern a b) as [|p l] eqn:E; [done|].
    destruct (pattern_inhabited p) as [n Hp].
    destruct (Hn n); apply (intersect_pattern_denotes a b n); exists p; rewrite E; set_solver.
Qed.

(** * Normalization *)

(** The bytes of an unquoted segment of a text are themselves text. *)
Definition segment_text (seg : NormalizedSegment) : Prop :=
  ns_quoted seg = false → utf8 (ns_bytes seg).

Lemma finish_segment_Some b q u seg :
  finish_segment b q u = Some seg →
  b ≠ [] ∧ q && u = false ∧ seg = mk_segment b q.
Proof.
  unfold finish_segment. case_bool_decide; [done|]. destruct (q && u); [done|].
  by intros [= <-].
Qed.

Lemma finish_segment_text cur q u seg raw :
  finish_segment cur q u = Some seg → utf8 raw →
  (q = false → cur = str_to_ascii_lowercase raw) → segment_text seg.
Proof.
  intros (_ & _ & ->)%finish_segment_Some Hraw Hcur Hq; cbn in *.
  rewrite Hcur by done. by apply utf8_lowercase.
Qed.

(** The scanner's invariant: [raw] is the text of the current segment so far. *)
Lemma split_scan_text n in_quote out cur q u s segs :
  length s ≤ n →
  split_scan in_quote out cur q u s = Some segs →
  (in_quote = true → q = true) →
  (∃ raw, utf8 (raw ++ s) ∧ (q = false → cur = str_to_ascii_lowercase raw)) →
  Forall segment_text out → Forall segment_text segs.
Proof.
  revert in_quote out cur q u s.
  induction n as [|n IH]; intros in_quote out cur q u [|c r] Hn E Hq (raw & Hraw & Hcur) Hout;
    cbn in Hn; try lia.
  1,2: cbn in E; destruct in_quote; [done|];
    destruct (finish_segment cur q u) as [seg|] eqn:Ef; [|done]; cbn in E;
    case_bool_decide; simplify_eq; rewrite app_nil_r in Hraw;
    apply Forall_app; split; [done|]; apply Forall_singleton; exact (finish_segment_text _ _ _ _ _ Ef Hraw Hcur).
  cbn in E. destruct in_quote.
  - rewrite (Hq eq_refl) in *. destruct (decide (c = quote_byte)) as [->|].
    + assert (∃ raw', utf8 (raw' ++ r)) as [raw' Hraw'].
      { exists []. apply utf8_cut in Hraw as [_ ?]; done. }
      destruct r as [|c' r'].
      * case_bool_decide; [done|]. eapply (IH false); [..|exact E|done|by exists raw'|done]. cbn; lia.
      * destruct (decide (c' = quote_byte)) as [->|].
        -- eapply (IH true); [..|exact E|done| |done]; [cbn in *; lia|].
           exists (raw' ++ [quote_byte]). rewrite <-app_assoc. done.
        -- case_bool_decide; [done|].
           eapply (IH false); [..|exact E|done|by exists raw'|done]. cbn in *; lia.
    + eapply (IH true); [..|exact E|done| |done]; [lia|].
      exists (raw ++ [c]). rewrite <-app_assoc. done.
  - destruct (decide (c = quote_byte)) as [->|].
    { eapply (IH true); [..|exact E|done| |done]; [lia|].
      exists (raw ++ [quote_byte]). rewrite <-app_assoc. done. }
    destruct (decide (c = dot_byte)) as [->|].
    + destruct (finish_segment cur q u) as [seg|] eqn:Ef; [|done]; cbn in E.
      case_bool_decide; [done|]. apply utf8_cut in Hraw as [Hraw Hr]; [|done].
      eapply (IH false); [..|exact E|done|by exists []|]; [lia|].
      apply Forall_app. split; [done|]. apply Forall_singleton. exact (finish_segment_text _ _ _ _ _ Ef Hraw Hcur).
    + case_bool_decide; [done|]. eapply (IH false); [..|exact E|done| |done]; [lia|].
      exists (raw ++ [c]). rewrite <-app_assoc. split; [done|].
      intros ->. rewrite Hcur by done. unfold str_to_ascii_lowercase. by rewrite map_app.
Qed.

Lemma split_normalize_text s segs :
  utf8 s → split_normalize_segments s = Some segs → Forall segment_text segs.
Proof.
  intros Hs E. eapply split_scan_text; [reflexivity|exact E|done| |constructor].
  exists []. done.
Qed.

Lemma seg_from_normalized_matches seg g :
  segment_text seg → seg_from_normalized seg = Some g → seg_matches g (ns_bytes seg) = true.
Proof.
  unfold segment_text, seg_from_normalized. destruct (ns_quoted seg); intros Ht E.
  - simplify_eq. by apply seg_matches_literal.
  - rewrite from_utf8_lossy_id in E by auto. by apply seg_parse_matches_text.
Qed.

Lemma seg_from_normalized_canonical seg g : seg_from_normalized seg = Some g → seg_canonical g.
Proof.
  unfold seg_from_normalized. destruct (ns_quoted seg); intros E; [by simplify_eq|].
  by eapply seg_parse_canonical.
Qed.

Lemma parse_normalized_canonical s p : parse_normalized s = Some p → pattern_canonical p.
Proof.
  unfold parse_normalized. destruct (split_normalize_segments s) as [[|a [|b [|]]]|]; try done; cbn.
  - destruct (seg_from_normalized a) eqn:Ea; [|done]. intros [= <-].
    split; [by eapply seg_from_normalized_canonical|done].
  - destruct (seg_from_normalized a) eqn:Ea; [|done].
    destruct (seg_from_normalized b) eqn:Eb; [|done]. intros [= <-].
    split; by eapply seg_from_normalized_canonical.
Qed.

(** A pattern and an object name written with the same text fold to the same
    bytes: whatever text parses as a pattern also normalizes as a name, and the
    pattern matches that name. *)
Theorem parse_normalized_matches_name (s : bytes) (p : Pattern) :
  utf8 s → parse_normalized s = Some p →
  ∃ n, normalize_object_name s = Some n ∧ pattern_matches p n = true.
Proof.
  intros Hs. unfold parse_normalized, normalize_object_name.
  destruct (split_normalize_segments s) as [segs|] eqn:E; [|done]; cbn.
  apply split_normalize_text in E; [|done].
  destruct segs as [|a [|b [|]]]; try done.
  - rewrite Forall_singleton in E.
    destruct (seg_from_normalized a) eqn:Ea; [|done]. intros [= <-]. eexists. split; [done|].
    unfold object_schema. rewrite pattern_matches_schema. cbn.
    by rewrite (seg_from_normalized_matches _ _ E Ea).
  - apply Forall_cons in E as [Ta Tb]. rewrite Forall_singleton in Tb.
    destruct (seg_from_normalized a) eqn:Ea; [|done].
    destruct (seg_from_normalized b) eqn:Eb; [|done]. intros [= <-]. eexists. split; [done|].
    unfold object_table. rewrite pattern_matches_table. cbn.
    by rewrite (seg_from_normalized_matches _ _ Ta Ea), (seg_from_normalized_matches _ _ Tb Eb).
Qed.

Lemma parse_normalized_matches_name_witness :
  let s := lit "App_*.Events" in
  utf8 s ∧ is_Some (parse_normalized s) ∧
  ∃ n, normalize_object_name s = Some n ∧
       pattern_matches (pattern_table (seg_infix (lit "app_") []) (seg_literal (lit "events"))) n = true.
Proof.
  assert (utf8 (lit "App_*.Events")) as Hu by (repeat constructor).
  split; [done|]. split; [by eexists|].
  by apply (parse_normalized_matches_name (lit "App_*.Events")).
Defined.

(** ** Quoting *)

(** The text of a quoted identifier: a quote in it is doubled. *)
Definition escape_byte (b : byte) : bytes :=
  if decide (b = quote_byte) then [quote_byte; quote_byte] else [b].
Definition quote_ident (b : bytes) : bytes :=
  quote_byte :: concat (map escape_byte b) ++ [quote_byte].

Lemma split_scan_quoted out cur u b r :
  hd_error r ≠ Some quote_byte →
  split_scan true out cur true u (concat (map escape_byte b) ++ quote_byte :: r) =
  if bool_decide (2 < length out) then None else split_scan false out (cur ++ b) true u r.
Proof.
  intros Hr. revert cur. induction b as [|c b IH]; intros cur.
  - cbn [map concat app split_scan]. rewrite decide_True, app_nil_r by done.
    destruct r as [|c' r']; [done|]. cbn in Hr. rewrite decide_False by congruence. done.
  - cbn [map concat]. unfold escape_byte at 1. destruct (decide (c = quote_byte)) as [->|Hc].
    + rewrite (cons_middle quote_byte cur b), app_assoc, <-IH. cbn [app split_scan].
      by rewrite !decide_True.
    + rewrite (cons_middle c cur b), app_assoc, <-IH. cbn [app split_scan].
      by rewrite decide_False.
Qed.

Lemma split_scan_open out cur q u r :
  split_scan false out cur q u (quote_byte :: r) = split_scan true out cur true u r.
Proof. reflexivity. Qed.

Lemma split_scan_dot out cur q u r :
  cur ≠ [] → q && u = false → length out < 2 →
  split_scan false out cur q u (dot_byte :: r) =
  split_scan false (out ++ [mk_segment cur q]) [] false false r.
Proof.
  intros Hc Hqu Ho. cbn [split_scan]. rewrite decide_False, decide_True by done.
  unfold finish_segment. rewrite bool_decide_eq_false_2 by done. rewrite Hqu. cbn.
  rewrite bool_decide_eq_false_2; [done|]. rewrite length_app. cbn. lia.
Qed.

Lemma split_scan_end out cur q u :
  cur ≠ [] → q && u = false → length out < 2 →
  split_scan false out cur q u [] = Some (out ++ [mk_segment cur q]).
Proof.
  intros Hc Hqu Ho. cbn [split_scan]. unfold finish_segment.
  rewrite bool_decide_eq_false_2 by done. rewrite Hqu. cbn.
  rewrite bool_decide_eq_false_2; [done|]. rewrite length_app. cbn. lia.
Qed.

(** Quoting round-trips: a quoted schema and table, whatever bytes they hold -
    dots, stars, quotes and capitals included - parse to exactly those two literals,
    as a pattern and as a name. *)
Theorem quote_ident_roundtrip (a b : bytes) :
  a ≠ [] → b ≠ [] →
  parse_normalized (quote_ident a ++ dot_byte :: quote_ident b) =
    Some (pattern_table (seg_literal a) (seg_literal b)) ∧
  normalize_object_name (quote_ident a ++ dot_byte :: quote_ident b) = Some (object_table a b).
Proof.
  intros Ha Hb.
  enough (split_normalize_segments (quote_ident a ++ dot_byte :: quote_ident b) =
    Some [mk_segment a true; mk_segment b true]) as Hsplit.
  { unfold parse_normalized, normalize_object_name. by rewrite Hsplit. }
  unfold split_normalize_segments, quote_ident. cbn [app]. rewrite <-app_assoc. cbn [app].
  rewrite split_scan_open, split_scan_quoted, bool_decide_eq_false_2 by (done || cbn; lia).
  rewrite split_scan_dot by (done || cbn; lia).
  rewrite split_scan_open, split_scan_quoted, bool_decide_eq_false_2 by (done || cbn; lia).
  rewrite split_scan_end by (done || cbn; lia). done.
Qed.

Lemma quote_ident_roundtrip_witness :
  let a := lit "App.*" in let b := [quote_byte; star_byte] in
  normalize_object_name (quote_ident a ++ dot_byte :: quote_ident b) = Some (object_table a b).
Proof. apply quote_ident_roundtrip; done. Defined.

(** ** Case folding *)

Definition plain_byte (c : byte) : Prop := c ≠ quote_byte ∧ c ≠ dot_byte.

Lemma split_scan_plain out cur u a r :
  Forall plain_byte a → a ≠ [] → length out ≤ 2 →
  split_scan false out cur false u (a ++ r) =
  split_scan false out (cur ++ str_to_ascii_lowercase a) false true r.
Proof.
  intros Ha Hne Hout. revert cur u Hne.
  induction Ha as [|c a [Hq Hd] Ha IH]; intros cur u Hne; [done|].
  cbn [app split_scan]. rewrite !decide_False, bool_decide_eq_false_2 by (done || lia).
  destruct a as [|c' a]; [done|]. rewrite IH by done. by rewrite <-app_assoc.
Qed.

(** An unquoted name is case-insensitive: it normalizes to its lower-case fold,
    segment by segment. *)
Theorem normalize_unquoted (a b : bytes) :
  Forall plain_byte a → a ≠ [] → Forall plain_byte b → b ≠ [] →
  normalize_object_name (a ++ dot_byte :: b) =
    Some (object_table (str_to_ascii_lowercase a) (str_to_ascii_lowercase b)).
Proof.
  intros Ha Hna Hb Hnb. unfold normalize_object_name, split_normalize_segments.
  rewrite split_scan_plain by (done || cbn; lia).
  rewrite split_scan_dot by (done || (cbn; lia) || by destruct a).
  rewrite <-(app_nil_r b) at 1. rewrite split_scan_plain by (done || cbn; lia).
  rewrite split_scan_end by (done || (cbn; lia) || by destruct b). done.
Qed.

Lemma normalize_unquoted_witness :
  normalize_object_name (lit "App" ++ dot_byte :: lit "Users") =
    Some (object_table (lit "app") (lit "users")).
Proof. apply (normalize_unquoted (lit "App") (lit "Users")); repeat constructor; done. Defined.
