(* ===== verification/Scope.v ===== *)
(** The scope lattice ([crates/zeroship-migrate-policy/src/scope/mod.rs]).

    [objects_membership] gives each scope its set of objects; normalization, meet,
    join, difference and containment are related to it. The laws the composition
    algebra relies on are collected in the class [ScopeAlgebra]. *)

From S2P Require Export Pattern.

(** * Model *)

Inductive Scope :=
  | Nothing
  | All
  | Of (include exclude : list Pattern).

#[global] Instance Scope_eq_dec : EqDecision Scope.
Proof. solve_decision. Defined.

Inductive ScopeError := EmptyInclude.

Inductive Difference :=
  | DScope (s : Scope)
  | NotRepresentable.

Definition is_nothing (s : Scope) : bool := match s with Nothing => true | _ => false end.

Definition objects_membership (self : Scope) (n : ObjectName) : bool :=
  match self with
  | Nothing => false
  | All => true
  | Of include exclude =>
      existsb (λ p, pattern_matches p n) include
        && negb (existsb (λ p, pattern_matches p n) exclude)
  end.

Definition denotes_universe (self : Scope) : bool :=
  match self with
  | All => true
  | Nothing => false
  | Of include exclude =>
      existsb (λ p, pattern_covers p pattern_universe && pattern_covers pattern_universe p) include
        && bool_decide (exclude = [])
  end.

(** [seen.insert(p)] answers whether [p] was new. *)
Fixpoint dedup_seen (seen patterns : list Pattern) : list Pattern :=
  match patterns with
  | [] => []
  | p :: ps =>
      if bool_decide (p ∈ seen) then dedup_seen seen ps
      else p :: dedup_seen (bset_insert p seen) ps
  end.
Definition dedup (patterns : list Pattern) : list Pattern := dedup_seen [] patterns.

Definition scope_normalize (self : Scope) : Scope :=
  match self with
  | Nothing => Nothing
  | All => All
  | Of include exclude =>
      if bool_decide (include = []) then Nothing else
      let live := List.filter
        (λ inc, negb (existsb (λ exc, pattern_covers exc inc) exclude)) include in
      if bool_decide (live = []) then Nothing else
      let include := dedup live in
      let exclude := List.filter
        (λ exc, existsb (λ inc, negb (bool_decide (intersect_pattern inc exc = []))) include)
        (dedup exclude) in
      Of include exclude
  end.

Definition scope_of (include exclude : list Pattern) : result ScopeError Scope :=
  if bool_decide (include = []) then Err EmptyInclude
  else Ok (scope_normalize (Of include exclude)).

Definition scope_include (include : list Pattern) : result ScopeError Scope :=
  scope_of include [].

Definition region_covered_and_clear (d : Pattern) (de ci ce : list Pattern) : bool :=
  if existsb (λ e, pattern_covers e d) de then true
  else if negb (existsb (λ c, pattern_covers c d) ci) then false
  else forallb
    (λ e, let overlap := intersect_pattern d e in
          bool_decide (overlap = [])
            || forallb (λ o, existsb (λ dexc, pattern_covers dexc o) de) overlap)
    ce.

Definition subset (self other : Scope) : bool :=
  match self, other with
  | Nothing, _ => true
  | _, All => true
  | All, _ => denotes_universe other
  | _, Nothing => is_nothing self
  | Of di de, Of ci ce => forallb (λ d, region_covered_and_clear d de ci ce) di
  end.

(** [for a in xs { for b in ys { out.extend(intersect_pattern(a, b)) } }]. *)
Definition intersect_all (xs ys : list Pattern) : list Pattern :=
  flat_map (λ a, flat_map (λ b, intersect_pattern a b) ys) xs.

Definition meet (self other : Scope) : Scope :=
  match self, other with
  | Nothing, _ | _, Nothing => Nothing
  | All, s | s, All => s
  | Of ai ae, Of bi be =>
      scope_normalize (Of (dedup (intersect_all ai bi)) (dedup (ae ++ be)))
  end.

Definition join (self other : Scope) : Scope :=
  match self, other with
  | All, _ | _, All => All
  | Nothing, s | s, Nothing => s
  | Of ai ae, Of bi be =>
      let include := dedup (ai ++ bi) in
      let exclude := List.filter
        (λ exc, negb (existsb (λ inc, negb (bool_decide (intersect_pattern inc exc = []))) include))
        (dedup (intersect_all ae be)) in
      scope_normalize (Of include exclude)
  end.

Definition difference (self other : Scope) : Difference :=
  match self, other with
  | _, All => DScope Nothing
  | _, Nothing => DScope self
  | Nothing, _ => DScope Nothing
  | All, _ => NotRepresentable
  | Of ai ae, Of bi be =>
      let term1 := scope_normalize (Of ai (dedup (ae ++ bi))) in
      let term2 :=
        if bool_decide (be = []) then Nothing
        else match scope_include be with
             | Ok b_holes => meet self b_holes
             | Err _ => Nothing
             end in
      DScope (join term1 term2)
  end.

#[global] Arguments scope_normalize : simpl never.
#[global] Arguments meet : simpl never.
#[global] Arguments join : simpl never.
#[global] Arguments difference : simpl never.
#[global] Arguments subset : simpl never.

(** * Membership *)

Lemma existsb_elem {A} (f : A → bool) l : existsb f l = true ↔ ∃ x, x ∈ l ∧ f x = true.
Proof. rewrite existsb_exists. by setoid_rewrite <-list_elem_of_In. Qed.
Lemma existsb_not_elem {A} (f : A → bool) l : existsb f l = false ↔ ∀ x, x ∈ l → f x = false.
Proof.
  rewrite <-not_true_iff_false, existsb_elem. setoid_rewrite <-not_true_iff_false. naive_solver.
Qed.
Lemma forallb_elem {A} (f : A → bool) l : forallb f l = true ↔ ∀ x, x ∈ l → f x = true.
Proof. rewrite forallb_forall. by setoid_rewrite <-list_elem_of_In. Qed.
(** The objects of a list of patterns, and [n] being an object of a scope. *)
Definition in_patterns (ps : list Pattern) (n : ObjectName) : Prop :=
  ∃ p, p ∈ ps ∧ pattern_matches p n = true.
Definition in_scope (n : ObjectName) (s : Scope) : Prop := objects_membership s n = true.
#[global] Instance in_scope_dec n s : Decision (in_scope n s).
Proof. unfold in_scope. apply _. Defined.

Lemma in_scope_Of n inc exc : in_scope n (Of inc exc) ↔ in_patterns inc n ∧ ¬ in_patterns exc n.
Proof.
  unfold in_scope, in_patterns, objects_membership.
  rewrite andb_true_iff, negb_true_iff, existsb_elem, <-not_true_iff_false, existsb_elem. done.
Qed.
Lemma in_scope_Nothing n : in_scope n Nothing ↔ False.
Proof. done. Qed.
Lemma in_scope_All n : in_scope n All ↔ True.
Proof. done. Qed.

Lemma in_patterns_nil n : in_patterns [] n ↔ False.
Proof. unfold in_patterns. set_solver. Qed.
Lemma not_in_patterns_nil n : ¬ in_patterns [] n.
Proof. by rewrite in_patterns_nil; intros ?. Qed.
Lemma in_patterns_app a b n : in_patterns (a ++ b) n ↔ in_patterns a n ∨ in_patterns b n.
Proof. unfold in_patterns. set_solver. Qed.

Lemma elem_of_dedup_seen seen l p : p ∈ dedup_seen seen l ↔ p ∈ l ∧ p ∉ seen.
Proof.
  revert seen. induction l as [|q l IH]; intros seen; cbn; [set_solver|].
  case_bool_decide; rewrite ?elem_of_cons, IH.
  - destruct (decide (p = q)) as [->|]; set_solver.
  - setoid_rewrite elem_of_bset_insert. destruct (decide (p = q)) as [->|]; set_solver.
Qed.
Lemma elem_of_dedup l p : p ∈ dedup l ↔ p ∈ l.
Proof. unfold dedup. rewrite elem_of_dedup_seen. set_solver. Qed.
Lemma dedup_nodup l : NoDup (dedup l).
Proof.
  unfold dedup. generalize (@nil Pattern) as seen. induction l as [|q l IH]; intros seen; cbn.
  { constructor. }
  case_bool_decide; [apply IH|]. constructor; [|apply IH].
  rewrite elem_of_dedup_seen, elem_of_bset_insert. naive_solver.
Qed.
Lemma dedup_seen_id seen l : NoDup l → (∀ p, p ∈ l → p ∉ seen) → dedup_seen seen l = l.
Proof.
  intros Hl. revert seen. induction Hl as [|q l Hq Hl IH]; intros seen Hs; cbn; [done|].
  rewrite bool_decide_eq_false_2 by set_solver. f_equal. apply IH.
  intros p Hp. rewrite elem_of_bset_insert. set_solver.
Qed.
Lemma dedup_id l : NoDup l → dedup l = l.
Proof. intros. apply dedup_seen_id; set_solver. Qed.
Lemma in_patterns_dedup l n : in_patterns (dedup l) n ↔ in_patterns l n.
Proof. unfold in_patterns. by setoid_rewrite elem_of_dedup. Qed.

Lemma elem_of_intersect_all xs ys p :
  p ∈ intersect_all xs ys ↔ ∃ a b, a ∈ xs ∧ b ∈ ys ∧ p ∈ intersect_pattern a b.
Proof.
  unfold intersect_all. rewrite list_elem_of_In, in_flat_map.
  setoid_rewrite in_flat_map. setoid_rewrite <-list_elem_of_In. naive_solver.
Qed.

Lemma in_patterns_intersect_all xs ys n :
  in_patterns (intersect_all xs ys) n ↔ in_patterns xs n ∧ in_patterns ys n.
Proof.
  unfold in_patterns. setoid_rewrite elem_of_intersect_all. split.
  - intros (p & (a & b & Ha & Hb & Hp) & Hn).
    assert (pattern_matches a n = true ∧ pattern_matches b n = true) as [??]
      by (apply intersect_pattern_denotes; eauto). eauto 10.
  - intros [(a & Ha & Hna) (b & Hb & Hnb)].
    destruct (proj2 (intersect_pattern_denotes a b n)) as (p & ? & ?); [done|]. eauto 10.
Qed.

#[export] Hint Rewrite in_scope_Of in_scope_Nothing in_scope_All in_patterns_nil
  in_patterns_app in_patterns_dedup in_patterns_intersect_all : scope.

(** * Normalization *)

(** The patterns an exclude list leaves alive, and the excludes that touch them. *)
Lemma in_patterns_live inc exc n :
  ¬ in_patterns exc n →
  in_patterns (List.filter (λ i, negb (existsb (λ e, pattern_covers e i) exc)) inc) n
  ↔ in_patterns inc n.
Proof.
  intros Hexc. unfold in_patterns. setoid_rewrite elem_of_lfilter. split; [naive_solver|].
  intros (p & Hp & Hn). exists p. split; [|done]. split; [done|].
  rewrite negb_true_iff, existsb_not_elem. intros e He. apply not_true_iff_false. intros Hc.
  apply Hexc. exists e. eauto using pattern_covers_sound.
Qed.

Lemma in_patterns_touching inc exc n :
  in_patterns inc n →
  in_patterns (List.filter
    (λ e, existsb (λ i, negb (bool_decide (intersect_pattern i e = []))) inc) exc) n
  ↔ in_patterns exc n.
Proof.
  intros (i & Hi & Hin). unfold in_patterns. setoid_rewrite elem_of_lfilter.
  split; [naive_solver|]. intros (e & He & Hen). exists e. split; [|done]. split; [done|].
  apply existsb_elem. exists i. split; [done|].
  rewrite negb_true_iff, bool_decide_eq_false. intros Hnil.
  by eapply (proj1 (intersect_pattern_nil i e)).
Qed.

Lemma in_patterns_mono f inc n : in_patterns (List.filter f inc) n → in_patterns inc n.
Proof. intros (p & [? _]%elem_of_lfilter & ?). by exists p. Qed.

Lemma in_scope_normalize n s : in_scope n (scope_normalize s) ↔ in_scope n s.
Proof.
  destruct s as [| |inc exc]; try done. unfold scope_normalize.
  case_bool_decide as Hinc; [subst; rewrite in_scope_Of, in_patterns_nil, in_scope_Nothing; tauto|].
  case_bool_decide as Hlive.
  - rewrite in_scope_Of. split; [done|]. intros [Hi He].
    apply (in_patterns_live _ exc) in Hi; [|done]. rewrite Hlive in Hi.
    by apply in_patterns_nil in Hi.
  - rewrite !in_scope_Of, in_patterns_dedup. split.
    + intros [Hi He]. assert (¬ in_patterns exc n).
      { rewrite in_patterns_touching, in_patterns_dedup in He; [done|]. by rewrite in_patterns_dedup. }
      split; [|done]. by eapply in_patterns_mono.
    + intros [Hi He]. split; [by apply in_patterns_live|].
      intros He'%in_patterns_mono. by rewrite in_patterns_dedup in He'.
Qed.

Lemma scope_normalize_idem s : scope_normalize (scope_normalize s) = scope_normalize s.
Proof.
  destruct s as [| |inc exc]; try done. unfold scope_normalize at 2 3.
  case_bool_decide as Hinc; [done|]. case_bool_decide as Hlive; [done|].
  set (live := List.filter _ inc) in *. set (exc' := List.filter _ (dedup exc)).
  unfold scope_normalize.
  assert (dedup live ≠ []) as Hne.
  { destruct live as [|p l]; [done|]. intros E. assert (p ∈ dedup (p :: l)) as Hp.
    { rewrite elem_of_dedup. set_solver. } rewrite E in Hp. set_solver. }
  rewrite bool_decide_eq_false_2 by done.
  assert (List.filter (λ i, negb (existsb (λ e, pattern_covers e i) exc')) (dedup live)
          = dedup live) as ->.
  { apply List.forallb_filter_id, forallb_elem. intros i Hi.
    rewrite elem_of_dedup in Hi. apply elem_of_lfilter in Hi as [_ Hi].
    rewrite negb_true_iff, existsb_not_elem in *. intros e [He _]%elem_of_lfilter.
    rewrite elem_of_dedup in He. auto. }
  rewrite bool_decide_eq_false_2 by done.
  rewrite (dedup_id (dedup live)) by apply dedup_nodup.
  assert (NoDup exc') as Hnd.
  { unfold exc'. apply NoDup_ListNoDup, List.NoDup_filter, NoDup_ListNoDup, dedup_nodup. }
  rewrite (dedup_id exc') by done. f_equal.
  apply List.forallb_filter_id, forallb_elem. intros e [_ He]%elem_of_lfilter. done.
Qed.

(** Normalizing a scope, which every constructor and lattice operation does,
    changes no membership answer, and doing it again changes nothing at all. *)
Theorem normalize_exact (s : Scope) :
  (∀ n, objects_membership (scope_normalize s) n = objects_membership s n) ∧
  scope_normalize (scope_normalize s) = scope_normalize s.
Proof.
  split; [intros n; apply eq_true_iff_eq, in_scope_normalize|apply scope_normalize_idem].
Qed.

(** Scopes in normal form, which is what every document and composition holds. *)
Definition scope_wf (s : Scope) : Prop := scope_normalize s = s.

Lemma scope_normalize_wf s : scope_wf (scope_normalize s).
Proof. apply scope_normalize_idem. Qed.

Lemma scope_of_wf inc exc s : scope_of inc exc = Ok s → scope_wf s.
Proof.
  unfold scope_of. case_bool_decide; [done|]. intros E.
  replace s with (scope_normalize (Of inc exc)) by congruence. apply scope_normalize_wf.
Qed.
Lemma in_scope_of inc exc s n :
  scope_of inc exc = Ok s → in_scope n s ↔ in_patterns inc n ∧ ¬ in_patterns exc n.
Proof.
  unfold scope_of. case_bool_decide; [done|]. intros E.
  replace s with (scope_normalize (Of inc exc)) by congruence.
  by rewrite in_scope_normalize, in_scope_Of.
Qed.

Lemma scope_wf_Of inc exc : scope_wf (Of inc exc) →
  inc ≠ [] ∧ ∀ i e, i ∈ inc → e ∈ exc → pattern_covers e i = false.
Proof.
  unfold scope_wf, scope_normalize. case_bool_decide; [done|].
  case_bool_decide; [done|]. intros [= Hi He]. split; [done|].
  intros i e Hin Hen. rewrite <-Hi, elem_of_dedup in Hin.
  apply elem_of_lfilter in Hin as [_ Hin]. rewrite negb_true_iff, existsb_not_elem in Hin.
  apply Hin. rewrite <-He, elem_of_lfilter, elem_of_dedup in Hen. tauto.
Qed.

Definition excludes (s : Scope) : list Pattern := match s with Of _ e => e | _ => [] end.
Definition includes (s : Scope) : list Pattern := match s with Of i _ => i | _ => [] end.

(** A scope in normal form with fewer than 256 excludes has an object. *)
Lemma scope_wf_inhabited s :
  scope_wf s → length (excludes s) < 256 → s ≠ Nothing → ∃ n, in_scope n s.
Proof.
  intros Hwf Hl Hne. destruct s as [| |inc exc]; [done| |].
  { by exists (object_schema []). }
  apply scope_wf_Of in Hwf as [Hinc Hcov]. destruct inc as [|i inc]; [done|].
  destruct (pattern_fresh_point i exc) as (s & t & Hi & Hf); [done|].
  exists (mk_object s (Some t)). apply in_scope_Of. split; [by exists i; set_solver|].
  intros (e & He & Hen). specialize (Hf e He Hen). rewrite Hcov in Hf; set_solver.
Qed.

(** * Meet *)

Lemma in_scope_meet n a b : in_scope n (meet a b) ↔ in_scope n a ∧ in_scope n b.
Proof.
  destruct a as [| |ai ae], b as [| |bi be]; unfold meet; autorewrite with scope; try tauto.
  rewrite in_scope_normalize. autorewrite with scope. tauto.
Qed.

Lemma meet_wf a b : scope_wf a → scope_wf b → scope_wf (meet a b).
Proof. destruct a, b; try done. intros _ _. apply scope_normalize_wf. Qed.

(** [meet] is exact: an object is in the meet of two scopes exactly when it is
    in both. *)
Theorem meet_exact (a b : Scope) (n : ObjectName) :
  objects_membership (meet a b) n = objects_membership a n && objects_membership b n.
Proof. apply eq_true_iff_eq. rewrite andb_true_iff. apply in_scope_meet. Qed.

Lemma meet_Nothing a b n : meet a b = Nothing → in_scope n a → in_scope n b → False.
Proof. intros E Ha Hb. assert (in_scope n (meet a b)) by (by apply in_scope_meet). by rewrite E in *. Qed.

Lemma length_dedup_seen seen l : length (dedup_seen seen l) ≤ length l.
Proof. revert seen. induction l as [|p l IH]; intros; cbn; [done|]. case_bool_decide; cbn; [etrans; [apply IH|lia]|]. by apply le_n_S. Qed.
Lemma length_lfilter {A} (f : A → bool) l : length (List.filter f l) ≤ length l.
Proof. induction l as [|x l IH]; cbn; [done|]. destruct (f x); cbn; lia. Qed.

Lemma excludes_normalize s : length (excludes (scope_normalize s)) ≤ length (excludes s).
Proof.
  destruct s as [| |inc exc]; try done. unfold scope_normalize.
  repeat case_bool_decide; cbn; try lia.
  etrans; [apply length_lfilter|apply length_dedup_seen].
Qed.

Lemma excludes_meet a b :
  length (excludes (meet a b)) ≤ length (excludes a) + length (excludes b).
Proof.
  destruct a as [| |ai ae], b as [| |bi be]; unfold meet; cbn [excludes length]; try lia.
  etrans; [apply excludes_normalize|]. cbn [excludes].
  etrans; [apply length_dedup_seen|]. by rewrite length_app.
Qed.

(** The overlap test used throughout composition, [meet(a, b) != Nothing],
    is exact for scopes with fewer than 256 excludes between them: the meet is
    [Nothing] exactly when no object is in both. *)
Theorem meet_overlap_exact (a b : Scope) :
  scope_wf a → scope_wf b → length (excludes a) + length (excludes b) < 256 →
  is_nothing (meet a b) = true ↔ ∀ n, ¬ (in_scope n a ∧ in_scope n b).
Proof.
  intros Ha Hb Hl. split.
  - intros E n [??]. assert (meet a b = Nothing) as Em by (by destruct (meet a b)).
    by eapply meet_Nothing.
  - intros Hn. destruct (decide (meet a b = Nothing)) as [->|Hne]; [done|].
    destruct (scope_wf_inhabited (meet a b)) as [n Hin]; [by apply meet_wf| |done|].
    { eapply Nat.le_lt_trans; [apply excludes_meet|done]. }
    apply in_scope_meet in Hin. by destruct (Hn n).
Qed.

(** * Join *)

Lemma in_scope_join_l n a b : in_scope n a → in_scope n (join a b).
Proof.
  destruct a as [| |ai ae], b as [| |bi be]; unfold join; autorewrite with scope; try tauto.
  rewrite in_scope_normalize, in_scope_Of. autorewrite with scope. intros [Hi _].
  split; [by left|]. intros (e & [He Hf]%elem_of_lfilter & Hen).
  rewrite negb_true_iff, existsb_not_elem in Hf. destruct Hi as (i & Hi & Hin).
  specialize (Hf i). rewrite elem_of_dedup in Hf. specialize (Hf ltac:(set_solver)).
  rewrite negb_false_iff, bool_decide_eq_true in Hf.
  by eapply (proj1 (intersect_pattern_nil i e)).
Qed.

Lemma in_scope_join_r n a b : in_scope n b → in_scope n (join a b).
Proof.
  destruct a as [| |ai ae], b as [| |bi be]; unfold join; autorewrite with scope; try tauto.
  rewrite in_scope_normalize, in_scope_Of. autorewrite with scope. intros [Hi _].
  split; [by right|]. intros (e & [He Hf]%elem_of_lfilter & Hen).
  rewrite negb_true_iff, existsb_not_elem in Hf. destruct Hi as (i & Hi & Hin).
  specialize (Hf i). rewrite elem_of_dedup in Hf. specialize (Hf ltac:(set_solver)).
  rewrite negb_false_iff, bool_decide_eq_true in Hf.
  by eapply (proj1 (intersect_pattern_nil i e)).
Qed.

Lemma join_wf a b : scope_wf a → scope_wf b → scope_wf (join a b).
Proof. destruct a, b; try done. intros _ _. apply scope_normalize_wf. Qed.

Lemma join_Nothing_r a : join a Nothing = a.
Proof. by destruct a. Qed.

(** The join includes nothing that neither operand includes. *)
Lemma in_scope_join_includes n a b :
  in_scope n (join a b) →
  in_scope n a ∨ in_scope n b ∨ in_patterns (includes a) n ∨ in_patterns (includes b) n.
Proof.
  destruct a as [| |ai ae], b as [| |bi be]; unfold join; autorewrite with scope; try tauto.
  rewrite in_scope_normalize, in_scope_Of. autorewrite with scope. cbn. tauto.
Qed.

(** [join] is an upper bound - every object of either scope is in it - and it
    is exactly the union when neither scope has excludes. *)
Theorem join_upper_bound (a b : Scope) (n : ObjectName) :
  (objects_membership a n || objects_membership b n = true → objects_membership (join a b) n = true)
  ∧ (excludes a = [] → excludes b = [] →
     objects_membership (join a b) n = objects_membership a n || objects_membership b n).
Proof.
  assert (in_scope n a ∨ in_scope n b → in_scope n (join a b)) as Hub.
  { intros [?|?]; auto using in_scope_join_l, in_scope_join_r. }
  split; [rewrite orb_true_iff; exact Hub|]. intros Ea Eb. apply eq_true_iff_eq.
  rewrite orb_true_iff. split; [|exact Hub].
  intros [|[|[Hi|Hi]]]%in_scope_join_includes; [by left|by right|left|right].
  - destruct a; cbn in *; try (by apply in_patterns_nil in Hi). subst. apply in_scope_Of.
    split; [done|apply not_in_patterns_nil].
  - destruct b; cbn in *; try (by apply in_patterns_nil in Hi). subst. apply in_scope_Of.
    split; [done|apply not_in_patterns_nil].
Qed.

(** * Difference *)

Lemma difference_sound a b d n :
  difference a b = DScope d → in_scope n a → ¬ in_scope n b → in_scope n d.
Proof.
  destruct a as [| |ai ae], b as [| |bi be]; unfold difference; intros [= <-];
    autorewrite with scope; try tauto.
  intros [Hai Hae] Hb.
  destruct (decide (in_scope n (Of bi []))) as [Hbi|Hbi].
  - apply in_scope_join_r. assert (in_patterns be n) as Hbe.
    { apply in_scope_Of in Hbi as [Hbi _].
      destruct (decide (in_scope n (Of be []))) as [[Hbe _]%in_scope_Of|Hbe]; [done|].
      destruct Hb. split; [done|]. intros Hp. apply Hbe, in_scope_Of.
      split; [done|apply not_in_patterns_nil]. }
    rewrite bool_decide_eq_false_2; last first.
    { intros ->. by apply in_patterns_nil in Hbe. }
    unfold scope_include. destruct (scope_of be []) as [h|] eqn:E.
    + apply in_scope_meet. rewrite in_scope_Of. split; [done|].
      apply (in_scope_of _ _ _ n) in E. apply E. split; [done|apply not_in_patterns_nil].
    + exfalso. unfold scope_of in E. case_bool_decide; [|done]. subst. by apply in_patterns_nil in Hbe.
  - apply in_scope_join_l. rewrite in_scope_normalize. autorewrite with scope.
    split; [done|]. intros [?|?]; [done|]. apply Hbi, in_scope_Of.
    split; [done|apply not_in_patterns_nil].
Qed.

Lemma difference_wf a b d : scope_wf a → difference a b = DScope d → scope_wf d.
Proof.
  intros Ha. destruct a as [| |ai ae], b as [| |bi be]; unfold difference; intros [= <-]; try done.
  apply join_wf; [apply scope_normalize_wf|]. case_bool_decide; [done|].
  destruct (scope_include be) eqn:E; [|done]. apply meet_wf; [done|]. by eapply scope_of_wf.
Qed.

(** [difference] never under-approximates: every object of the first scope
    outside the second is in the difference; and when the second has no excludes the
    difference is exactly the set subtraction. *)
Theorem difference_over_approximates (a b d : Scope) (n : ObjectName) :
  difference a b = DScope d →
  (in_scope n a → ¬ in_scope n b → in_scope n d) ∧
  (excludes b = [] → objects_membership d n = objects_membership a n && negb (objects_membership b n)).
Proof.
  intros E. split; [by apply difference_sound|]. intros Hbe. apply eq_true_iff_eq.
  rewrite andb_true_iff, negb_true_iff, <-not_true_iff_false.
  split; [|intros [??]; by eapply difference_sound].
  change (in_scope n d → in_scope n a ∧ ¬ in_scope n b).
  destruct a as [| |ai ae], b as [| |bi be]; unfold difference in E; cbn [excludes] in Hbe;
    try discriminate E; injection E as <-; autorewrite with scope; try tauto.
  subst be. rewrite bool_decide_eq_true_2 by done. rewrite join_Nothing_r, in_scope_normalize.
  autorewrite with scope. tauto.
Qed.

Lemma difference_over_approximates_witness :
  let a := Of [pattern_universe] [] in
  let b := Of [pattern_schema (seg_literal (lit "app"))] [] in
  let n := object_schema (lit "web") in
  ∃ d, difference a b = DScope d ∧ in_scope n a ∧ ¬ in_scope n b ∧ in_scope n d.
Proof.
  eexists. split; [reflexivity|]. split; [reflexivity|]. split; [discriminate|].
  apply (proj1 (difference_over_approximates (Of [pattern_universe] [])
           (Of [pattern_schema (seg_literal (lit "app"))] []) _
           (object_schema (lit "web")) eq_refl)); [reflexivity|discriminate].
Defined.

Lemma meet_overlap_exact_witness :
  let a := Of [pattern_schema (seg_infix (lit "app_") [])] [] in
  let b := Of [pattern_schema (seg_infix [] (lit "_prod"))] [] in
  scope_wf a ∧ scope_wf b ∧
  (is_nothing (meet a b) = true ↔ ∀ n, ¬ (in_scope n a ∧ in_scope n b)).
Proof.
  split; [vm_compute; reflexivity|]. split; [vm_compute; reflexivity|].
  apply meet_overlap_exact; [vm_compute; reflexivity..|cbn; lia].
Defined.

(** * Containment *)

Lemma region_sound d de ci ce n :
  region_covered_and_clear d de ci ce = true →
  pattern_matches d n = true → ¬ in_patterns de n → in_patterns ci n ∧ ¬ in_patterns ce n.
Proof.
  unfold region_covered_and_clear. destruct (existsb _ de) eqn:Ecarved.
  { apply existsb_elem in Ecarved as (e & He & Hc). intros _ Hn []. exists e.
    eauto using pattern_covers_sound. }
  destruct (existsb _ ci) eqn:Ecov; [|done]. cbn.
  apply existsb_elem in Ecov as (c & Hc & Hcov). rewrite forallb_elem. intros Hclear Hn Hde.
  split; [exists c; eauto using pattern_covers_sound|].
  intros (e & He & Hen). specialize (Hclear e He).
  destruct (proj2 (intersect_pattern_denotes d e n)) as (o & Ho & Hon); [done|].
  rewrite orb_true_iff, bool_decide_eq_true, forallb_elem in Hclear.
  destruct Hclear as [Hnil|Hall]; [rewrite Hnil in Ho; set_solver|].
  apply Hall, existsb_elem in Ho as (dexc & Hdexc & Hc'). apply Hde. exists dexc.
  eauto using pattern_covers_sound.
Qed.

Lemma pattern_universe_matches n : pattern_matches pattern_universe n = true.
Proof.
  unfold pattern_matches, pattern_universe. cbn [pt_schema pt_table].
  rewrite seg_star_matches. destruct (on_table n); [apply seg_star_matches|done].
Qed.

Lemma denotes_universe_sound s n : denotes_universe s = true → in_scope n s.
Proof.
  destruct s as [| |inc exc]; try done. unfold denotes_universe.
  rewrite andb_true_iff, existsb_elem, bool_decide_eq_true.
  intros [(p & Hp & Hc) ->]. rewrite andb_true_iff in Hc. destruct Hc as [Hc _].
  apply in_scope_Of. split; [|apply not_in_patterns_nil]. exists p. split; [done|].
  eapply pattern_covers_sound; [exact Hc|apply pattern_universe_matches].
Qed.

Lemma subset_sound a b n : subset a b = true → in_scope n a → in_scope n b.
Proof.
  unfold subset. destruct a as [| |di de]; [done| |].
  - destruct b; try done; intros; by apply denotes_universe_sound.
  - destruct b as [| |ci ce]; try done. rewrite forallb_elem. intros Hall.
    rewrite !in_scope_Of. intros [(d & Hd & Hn) Hde]. by eapply region_sound; eauto.
Qed.

(** The region test is complete for fewer than 256 patterns: the fresh point of [d]
    decides coverage, and the fresh point of each overlap decides clearance. *)
Lemma region_complete d de ci ce :
  length de + length ci < 256 →
  (∀ n, pattern_matches d n = true → ¬ in_patterns de n → in_patterns ci n ∧ ¬ in_patterns ce n) →
  region_covered_and_clear d de ci ce = true.
Proof.
  intros Hl Hsub. unfold region_covered_and_clear.
  destruct (existsb _ de) eqn:Ecarved; [done|]. rewrite existsb_not_elem in Ecarved.
  assert (existsb (λ c, pattern_covers c d) ci = true) as ->.
  { destruct (pattern_fresh_point d (de ++ ci)) as (s & t & Hn & Hf); [by rewrite length_app|].
    assert (¬ in_patterns de (mk_object s (Some t))) as Hde.
    { intros (e & He & Hen). specialize (Hf e ltac:(set_solver) Hen).
      rewrite Ecarved in Hf; done. }
    destruct (Hsub _ Hn Hde) as [(c & Hc & Hcn) _]. apply existsb_elem. exists c.
    split; [done|]. apply Hf; [set_solver|done]. }
  cbn. apply forallb_elem. intros e He. rewrite orb_true_iff. right.
  apply forallb_elem. intros o Ho.
  destruct (pattern_fresh_point o de) as (s & t & Hn & Hf); [lia|].
  set (n := mk_object s (Some t)) in *.
  assert (pattern_matches d n = true ∧ pattern_matches e n = true) as [Hdn Hen].
  { apply intersect_pattern_denotes. eauto. }
  destruct (existsb (λ dexc, pattern_covers dexc o) de) eqn:E; [done|]. exfalso.
  rewrite existsb_not_elem in E.
  assert (¬ in_patterns de n) as Hde.
  { intros (x & Hx & Hxn). specialize (Hf x Hx Hxn). rewrite E in Hf; done. }
  destruct (Hsub n Hdn Hde) as [_ Hce]. apply Hce. by exists e.
Qed.

Lemma denotes_universe_complete inc exc :
  length inc < 256 → (∀ n, in_scope n (Of inc exc)) → denotes_universe (Of inc exc) = true.
Proof.
  intros Hl Hall. unfold denotes_universe. rewrite andb_true_iff, existsb_elem, bool_decide_eq_true.
  split.
  - destruct (pattern_fresh_point pattern_universe inc) as (s & t & _ & Hf); [done|].
    pose proof (Hall (mk_object s (Some t))) as [(p & Hp & Hpn) _]%in_scope_Of. exists p.
    split; [done|]. rewrite (Hf p Hp Hpn). unfold pattern_covers, pattern_universe. cbn [pt_schema pt_table].
    by rewrite !star_covers.
  - destruct exc as [|e exc]; [done|]. exfalso. destruct (pattern_inhabited e) as [n Hn].
    pose proof (Hall n) as [_ []]%in_scope_Of. exists e. set_solver.
Qed.

Lemma subset_complete a b :
  scope_wf a → length (excludes a) + length (includes b) < 256 →
  (∀ n, in_scope n a → in_scope n b) → subset a b = true.
Proof.
  intros Hwf Hl Hsub. destruct a as [| |di de]; [done| |].
  - destruct b as [| |ci ce]; [|done|].
    + by specialize (Hsub (object_schema []) eq_refl).
    + apply denotes_universe_complete; [cbn in Hl; lia|]. intros n. by apply Hsub.
  - destruct b as [| |ci ce]; [|done|].
    + destruct (scope_wf_inhabited (Of di de)) as [n Hn]; [done|cbn in *; lia|done|].
      by specialize (Hsub n Hn).
    + apply forallb_elem. intros d Hd. apply region_complete; [done|].
      intros n Hdn Hde. apply in_scope_Of, Hsub, in_scope_Of. split; [by exists d|done].
Qed.

(** C37: [subset] never claims a containment that does not hold, and for scopes with
    fewer than 256 patterns between them it misses none: it decides containment. *)
Theorem subset_exact (a b : Scope) :
  (subset a b = true → ∀ n, in_scope n a → in_scope n b) ∧
  (scope_wf a → length (excludes a) + length (includes b) < 256 →
   (∀ n, in_scope n a → in_scope n b) → subset a b = true).
Proof. split; [intros ? ?; by apply subset_sound|apply subset_complete]. Qed.

(** The bound is where the byte alphabet runs out: the empty name and the 256
    one-byte prefixes cover every schema, and no single one of them does. *)
Definition every_prefix : list Pattern :=
  pattern_schema (seg_literal []) :: ((λ b, pattern_schema (seg_infix [b] [])) <$> all_bytes).

Lemma every_prefix_covers s : ∃ g, pattern_schema g ∈ every_prefix ∧ seg_matches g s = true.
Proof.
  destruct s as [|b s]; [exists (seg_literal [])|exists (seg_infix [b] [])]; split.
  - left.
  - done.
  - right. apply (list_elem_of_fmap_2 (λ b, pattern_schema (seg_infix [b] []))).
    apply all_bytes_complete.
  - apply seg_matches_star; [done|]. cbn. split; [lia|].
    split; [by exists s|apply suffix_nil].
Qed.

Lemma in_every_prefix n : in_scope n (Of every_prefix []).
Proof.
  apply in_scope_Of. split; [|apply not_in_patterns_nil].
  destruct (every_prefix_covers (on_schema n)) as (g & Hg & Hm).
  exists (pattern_schema g). split; [exact Hg|]. unfold pattern_matches.
  cbn [pt_schema pt_table pattern_schema]. rewrite Hm.
  destruct (on_table n); [apply seg_star_matches|done].
Qed.

(** Beyond that bound [subset] is a conservative test only: there are scopes in
    normal form, one contained in the other, for which it answers no. *)
Theorem subset_conservative :
  ∃ a b : Scope, scope_wf a ∧ length (includes b) = 257 ∧
    (∀ n, in_scope n a → in_scope n b) ∧ subset a b = false.
Proof.
  exists (Of [pattern_universe] []), (Of every_prefix []).
  split; [vm_compute; reflexivity|]. split; [vm_compute; reflexivity|].
  split; [intros n _; apply in_every_prefix|vm_compute; reflexivity].
Qed.

(** ** Reaching the universe token *)

Lemma normalize_Of_not_All inc exc : scope_normalize (Of inc exc) ≠ All.
Proof. unfold scope_normalize. case_bool_decide; [done|]. cbn zeta. by case_bool_decide. Qed.

Lemma join_All a b : join a b = All → a = All ∨ b = All.
Proof.
  destruct a as [| |ai ae], b as [| |bi be]; unfold join; auto. intros E.
  by apply normalize_Of_not_All in E.
Qed.

Lemma meet_All a b : meet a b = All → a = All ∧ b = All.
Proof.
  destruct a as [| |ai ae], b as [| |bi be]; unfold meet; try done. intros E.
  by apply normalize_Of_not_All in E.
Qed.

Lemma difference_All a b : difference a b = DScope All → a = All ∧ b = Nothing.
Proof.
  destruct a as [| |ai ae], b as [| |bi be]; unfold difference; try done.
  intros [= E]. apply join_All in E as [E|E]; [by apply normalize_Of_not_All in E|].
  destruct (bool_decide (be = [])); [done|]. destruct (scope_include be) as [h|]; [|done].
  by apply meet_All in E as [? _].
Qed.

Lemma join_Nothing a b n : join a b = Nothing → ¬ in_scope n a ∧ ¬ in_scope n b.
Proof.
  intros E. split; intros H; [apply (in_scope_join_l n a b) in H|apply (in_scope_join_r n a b) in H];
    by rewrite E in H.
Qed.

(** * The interface composition is proved against *)

(** What the composition algebra relies on: membership is respected by [meet]
    exactly, by [join] and [difference] from above, and by [subset] soundly. *)
Class ScopeAlgebra : Prop := {
  alg_meet : ∀ n a b, in_scope n (meet a b) ↔ in_scope n a ∧ in_scope n b;
  alg_join_l : ∀ n a b, in_scope n a → in_scope n (join a b);
  alg_join_r : ∀ n a b, in_scope n b → in_scope n (join a b);
  alg_difference : ∀ n a b d,
    difference a b = DScope d → in_scope n a → ¬ in_scope n b → in_scope n d;
  alg_subset : ∀ n a b, subset a b = true → in_scope n a → in_scope n b
}.

#[global] Instance scope_algebra : ScopeAlgebra.
Proof.
  split; intros.
  - apply in_scope_meet.
  - by apply in_scope_join_l.
  - by apply in_scope_join_r.
  - by eapply difference_sound.
  - by eapply subset_sound.
Qed.
