(* ===== verification/Encode.v ===== *)
(** Self-delimiting byte encodings. The canonical encodings of the registry digest
    and of the seal are append-only writers into a [Vec<u8>]; a writer of the
    source, [fn write_x(b: &mut Vec<u8>, x: &X)], is the function from [x] to the
    bytes it appends. [Delimits enc ok] says that among the values satisfying [ok]
    the bytes written determine the value and where it ends, whatever is written
    next. *)

From S2P Require Export RustStd.

Class Delimits {A} (enc : A → bytes) (ok : A → Prop) : Prop :=
  delimits : ∀ (x y : A) (r s : bytes),
    ok x → ok y → enc x ++ r = enc y ++ s → x = y ∧ r = s.

(** The values of an unsigned machine integer of [n] bytes. *)
Definition fits (n : nat) (z : Z) : Prop := (0 ≤ z < 2 ^ (8 * Z.of_nat n))%Z.
(** A length that [as u32] keeps. *)
Definition short {A} (l : list A) : Prop := (Z.of_nat (length l) < 2 ^ 32)%Z.

(** [(v.len() as u32).to_be_bytes()] followed by the elements. *)
Definition write_vec {A} (enc : A → bytes) (l : list A) : bytes :=
  u32_be (len_u32 l) ++ concat (map enc l).

(** A length-prefixed byte string. *)
Definition write_bytes (s : bytes) : bytes := u32_be (len_u32 s) ++ s.

(** [u8::from(b)]. *)
Definition write_bool (b : bool) : bytes := [if b then "001"%byte else "000"%byte].

#[global] Arguments u32_be : simpl never.
#[global] Arguments u64_be : simpl never.
#[global] Arguments write_bytes : simpl never.
#[global] Arguments write_vec : simpl never.
#[global] Arguments write_bool : simpl never.

Lemma delimits_inj {A} (enc : A → bytes) ok `{!Delimits enc ok} x y :
  ok x → ok y → enc x = enc y → x = y.
Proof.
  intros Hx Hy E. apply (delimits (enc := enc) x y [] []); auto. by rewrite !app_nil_r.
Qed.

Lemma app_eq_length {A} (a b c d : list A) :
  length a = length b → a ++ c = b ++ d → a = b ∧ c = d.
Proof. intros Hl E. by apply app_inj_1 in E. Qed.

#[global] Instance be_bytes_delimits n : Delimits (be_bytes n) (fits n).
Proof.
  intros x y r s Hx Hy E.
  apply app_eq_length in E as [E ->]; [|by rewrite !length_be_bytes].
  by split; [apply (be_bytes_inj n)|].
Qed.
#[global] Instance u32_be_delimits : Delimits u32_be (fits 4).
Proof. apply be_bytes_delimits. Qed.
#[global] Instance u64_be_delimits : Delimits u64_be (fits 8).
Proof. apply be_bytes_delimits. Qed.

#[global] Instance write_bool_delimits : Delimits write_bool (λ _, True).
Proof. intros [] [] r s _ _ [=]; done. Qed.

Lemma len_u32_fits {A} (l : list A) : fits 4 (len_u32 l).
Proof. unfold fits, len_u32. apply Z.mod_pos_bound. lia. Qed.

Lemma len_u32_short {A} (l k : list A) :
  short l → short k → len_u32 l = len_u32 k → length l = length k.
Proof. unfold short, len_u32. intros ??. rewrite !Z.mod_small by lia. lia. Qed.

#[global] Instance write_bytes_delimits : Delimits write_bytes short.
Proof.
  intros x y r s Hx Hy. unfold write_bytes. rewrite <-!app_assoc. intros E.
  apply delimits in E as [E1 E2]; [|apply len_u32_fits..].
  apply app_eq_length in E2; [done|by apply len_u32_short].
Qed.

(** A sequence of self-delimiting items, preceded by its count. *)
#[global] Instance write_vec_delimits {A} (enc : A → bytes) ok `{!Delimits enc ok} :
  Delimits (write_vec enc) (λ l, short l ∧ Forall ok l).
Proof.
  intros x y r s [Hx Hxs] [Hy Hys]. unfold write_vec. rewrite <-!app_assoc. intros E.
  apply delimits in E as [E1 E]; [|apply len_u32_fits..].
  apply len_u32_short in E1; [|done..]. clear Hx Hy. revert y E1 Hys E.
  induction Hxs as [|a x Ha Hxs IH]; intros [|b y] [=]; cbn; [done|].
  intros [Hb Hys]%Forall_cons. rewrite <-!app_assoc. intros E.
  apply delimits in E as [-> E]; [|done..]. by apply IH in E as [-> ->].
Qed.

(** A writer composed with an injection of its argument. *)
Lemma delimits_comap {A B} (f : A → B) (enc : B → bytes) ok `{!Delimits enc ok, !Inj (=) (=) f} :
  Delimits (λ x, enc (f x)) (λ x, ok (f x)).
Proof. intros x y r s Hx Hy E. apply delimits in E as [?%(inj f) ?]; auto. Qed.

Lemma cons_inj {A} (x y : A) l k : x :: l = y :: k → x = y ∧ l = k.
Proof. by intros [= -> ->]. Qed.

(** Peels the equal prefixes off an equation between two written streams. *)
Ltac delim_step :=
  match goal with
  | H : (_ :: _) = (_ :: _) |- _ =>
      let H1 := fresh in let H2 := fresh in
      apply cons_inj in H; destruct H as [H1 H2]; first [discriminate H1 | clear H1]
  | H : [] = [] |- _ => clear H
  | H : (_ ++ _) ++ _ = _ |- _ => rewrite <-app_assoc in H
  | H : _ = (_ ++ _) ++ _ |- _ => rewrite <-app_assoc in H
  | H : (_ :: _) ++ _ = _ |- _ => progress cbn [app] in H
  | H : _ = (_ :: _) ++ _ |- _ => progress cbn [app] in H
  | H : [] ++ _ = _ |- _ => progress cbn [app] in H
  | H : _ = [] ++ _ |- _ => progress cbn [app] in H
  | H : ?e ++ ?r = ?f ++ ?s |- _ =>
      let H1 := fresh in let H2 := fresh in
      apply delimits in H; [destruct H as [H1 H2]; try subst|done..]
  end.
Ltac delim := repeat delim_step.

(** A tagged union written tag first. *)
Ltac solve_delimits enc :=
  let x := fresh "x" in let y := fresh "y" in
  intros x y ? ? ? ? ?; destruct x, y; unfold enc in *; delim; done.
