(* ===== verification/Knob.v ===== *)
(** The knob model, [knob.rs]: keys, kinds, values, and the canonical encoding of a
    definition that the registry digest hashes. *)

From S2P Require Export Encode.

(** * Keys *)

Definition KnobKey := bytes.

Inductive KnobKeyError := Malformed | IllegalChar.

Definition knob_char (b : byte) : bool :=
  is_ascii_lowercase b || is_ascii_digit b || bool_decide (b = "_"%byte).

Definition knob_key_parse (s : bytes) : result KnobKeyError KnobKey :=
  match split_on "."%byte s with
  | [ns; name] =>
      if bool_decide (ns = []) || bool_decide (name = []) then Err Malformed
      else if negb (forallb knob_char ns) || negb (forallb knob_char name) then Err IllegalChar
      else Ok s
  | _ => Err Malformed
  end.

(** * Kinds and values *)

Inductive KnobKind :=
  | KBool
  | KStrSet
  | KUintCharter (hard_floor : Z)
  | KOrderedEnum (variants : list bytes)
  | KDigest.

Inductive KnobValue :=
  | VBool (b : bool)
  | VUint (u : Z)
  | VStrSet (xs : list bytes)
  | VStr (s : bytes).

#[global] Instance knob_kind_eq_dec : EqDecision KnobKind.
Proof. solve_decision. Defined.
#[global] Instance knob_value_eq_dec : EqDecision KnobValue.
Proof. solve_decision. Defined.

Inductive KnobValueError :=
  | TypeMismatch
  | BelowHardFloor (value hard_floor : Z)
  | UnknownVariant.

Definition validate_for (v : KnobValue) (kind : KnobKind) : result KnobValueError unit :=
  match kind, v with
  | KBool, VBool _ => Ok tt
  | KStrSet, VStrSet _ => Ok tt
  | KUintCharter hard_floor, VUint u =>
      if (u <? hard_floor)%Z then Err (BelowHardFloor u hard_floor) else Ok tt
  | KOrderedEnum variants, VStr s =>
      if existsb (λ w, bool_decide (w = s)) variants then Ok tt else Err UnknownVariant
  | KDigest, VStr _ => Ok tt
  | _, _ => Err TypeMismatch
  end.

Inductive Polarity := Grant | Require | Pinned (delegable : bool).
Inductive Enforcement := Enforced | DeclaredOnly | HostEnforced.
Inductive ObjectModel := PerTable | PerSchema | Global.

#[global] Instance polarity_eq_dec : EqDecision Polarity.
Proof. solve_decision. Defined.
#[global] Instance enforcement_eq_dec : EqDecision Enforcement.
Proof. solve_decision. Defined.
#[global] Instance object_model_eq_dec : EqDecision ObjectModel.
Proof. solve_decision. Defined.

Definition forbids_nondefault_on_enforced_path (e : Enforcement) : bool :=
  match e with DeclaredOnly => true | _ => false end.

(** * Definitions *)

Record KnobDef := mk_def {
  kd_key : KnobKey;
  kd_kind : KnobKind;
  kd_polarity : Polarity;
  kd_default : KnobValue;
  kd_enforcement : Enforcement;
  kd_object_model : ObjectModel;
  kd_requires_db_privilege : bool;
  kd_inherit : bool;
  kd_docs : bytes
}.

#[global] Instance knob_def_eq_dec : EqDecision KnobDef.
Proof. solve_decision. Defined.

(** * The canonical encoding *)

Definition write_str (s : bytes) : bytes := write_bytes s.
Definition write_str_vec (v : list bytes) : bytes := write_vec write_str v.

Definition write_value (v : KnobValue) : bytes :=
  match v with
  | VBool x => "000"%byte :: write_bool x
  | VUint x => "001"%byte :: u64_be x
  | VStrSet xs => "002"%byte :: write_str_vec xs
  | VStr s => "003"%byte :: write_str s
  end.

Definition write_kind (k : KnobKind) : bytes :=
  match k with
  | KBool => ["000"%byte]
  | KStrSet => ["001"%byte]
  | KUintCharter hard_floor => "002"%byte :: u64_be hard_floor
  | KOrderedEnum variants => "003"%byte :: write_str_vec variants
  | KDigest => ["004"%byte]
  end.

Definition write_polarity (p : Polarity) : bytes :=
  match p with
  | Grant => ["000"%byte]
  | Require => ["001"%byte]
  | Pinned delegable => "002"%byte :: write_bool delegable
  end.

Definition write_enforcement (e : Enforcement) : bytes :=
  match e with
  | Enforced => ["000"%byte]
  | DeclaredOnly => ["001"%byte]
  | HostEnforced => ["002"%byte]
  end.

Definition write_object_model (m : ObjectModel) : bytes :=
  match m with
  | PerTable => ["000"%byte]
  | PerSchema => ["001"%byte]
  | Global => ["002"%byte]
  end.

Definition canonical_encoding (d : KnobDef) : bytes :=
  "001"%byte :: write_str (kd_key d) ++
  "002"%byte :: write_kind (kd_kind d) ++
  "003"%byte :: write_polarity (kd_polarity d) ++
  "004"%byte :: write_value (kd_default d) ++
  "005"%byte :: write_enforcement (kd_enforcement d) ++
  "006"%byte :: write_object_model (kd_object_model d) ++
  "007"%byte :: write_bool (kd_requires_db_privilege d) ++
  "008"%byte :: write_bool (kd_inherit d).

#[global] Arguments write_str : simpl never.
#[global] Arguments write_str_vec : simpl never.
#[global] Arguments write_value : simpl never.
#[global] Arguments write_kind : simpl never.
#[global] Arguments write_polarity : simpl never.
#[global] Arguments write_enforcement : simpl never.
#[global] Arguments write_object_model : simpl never.

(** * Keys: correctness *)

Definition knob_segment (s : bytes) : Prop := s ≠ [] ∧ ∀ b, b ∈ s → knob_char b = true.

Lemma knob_segment_no_dot s : knob_segment s → "."%byte ∉ s.
Proof. intros [_ Hs] Hd. by specialize (Hs _ Hd). Qed.

Lemma knob_segment_test s :
  knob_segment s ↔ bool_decide (s = []) = false ∧ forallb knob_char s = true.
Proof.
  unfold knob_segment. rewrite bool_decide_eq_false, forallb_forall.
  by setoid_rewrite list_elem_of_In.
Qed.

(** A knob key is accepted exactly when it is [namespace.name], both parts
    non-empty over [[a-z0-9_]], and it is kept unchanged. *)
Theorem knob_key_parse_exact (s : bytes) (k : KnobKey) :
  knob_key_parse s = Ok k ↔
  k = s ∧ ∃ ns name, s = ns ++ "."%byte :: name ∧ knob_segment ns ∧ knob_segment name.
Proof.
  unfold knob_key_parse. split.
  - destruct (split_on _ s) as [|ns [|name []]] eqn:E; try done.
    apply split_on_two in E.
    destruct (bool_decide (ns = [])) eqn:E1; [done|].
    destruct (bool_decide (name = [])) eqn:E2; [done|]. cbn.
    destruct (forallb knob_char ns) eqn:E3; [|done].
    destruct (forallb knob_char name) eqn:E4; [|done]. intros [= <-].
    split; [done|]. exists ns, name. by rewrite !knob_segment_test.
  - intros (-> & ns & name & -> & Hns & Hname).
    rewrite split_on_cut, (split_on_none _ name) by (by apply knob_segment_no_dot).
    apply knob_segment_test in Hns as [-> ->]. apply knob_segment_test in Hname as [-> ->].
    done.
Qed.

(** * Encoding: correctness *)

(** The sizes at which the encoding keeps every length and integer. *)
Definition kind_sized (k : KnobKind) : Prop :=
  match k with
  | KUintCharter f => fits 8 f
  | KOrderedEnum vs => short vs ∧ Forall short vs
  | _ => True
  end.
Definition value_sized (v : KnobValue) : Prop :=
  match v with
  | VUint u => fits 8 u
  | VStrSet xs => short xs ∧ Forall short xs
  | VStr s => short s
  | VBool _ => True
  end.
Definition def_sized (d : KnobDef) : Prop :=
  short (kd_key d) ∧ kind_sized (kd_kind d) ∧ value_sized (kd_default d).

#[global] Instance write_str_delimits : Delimits write_str short.
Proof. apply write_bytes_delimits. Qed.
#[global] Instance write_str_vec_delimits : Delimits write_str_vec (λ v, short v ∧ Forall short v).
Proof. apply write_vec_delimits, write_str_delimits. Qed.

#[global] Instance write_value_delimits : Delimits write_value value_sized.
Proof. solve_delimits write_value. Qed.
#[global] Instance write_kind_delimits : Delimits write_kind kind_sized.
Proof. solve_delimits write_kind. Qed.
#[global] Instance write_polarity_delimits : Delimits write_polarity (λ _, True).
Proof. solve_delimits write_polarity. Qed.
#[global] Instance write_enforcement_delimits : Delimits write_enforcement (λ _, True).
Proof. solve_delimits write_enforcement. Qed.
#[global] Instance write_object_model_delimits : Delimits write_object_model (λ _, True).
Proof. solve_delimits write_object_model. Qed.

(** Equal in every field that reaches enforcement: all but the prose. *)
Definition same_machine (c d : KnobDef) : Prop :=
  mk_def (kd_key c) (kd_kind c) (kd_polarity c) (kd_default c) (kd_enforcement c)
    (kd_object_model c) (kd_requires_db_privilege c) (kd_inherit c) [] =
  mk_def (kd_key d) (kd_kind d) (kd_polarity d) (kd_default d) (kd_enforcement d)
    (kd_object_model d) (kd_requires_db_privilege d) (kd_inherit d) [].

Lemma canonical_encoding_delimits c d r s :
  def_sized c → def_sized d →
  canonical_encoding c ++ r = canonical_encoding d ++ s → same_machine c d ∧ r = s.
Proof.
  intros (Hk1 & Hd1 & Hv1) (Hk2 & Hd2 & Hv2). unfold canonical_encoding, same_machine.
  destruct c, d; cbn [kd_key kd_kind kd_polarity kd_default kd_enforcement kd_object_model
    kd_requires_db_privilege kd_inherit] in *.
  intros E. delim. done.
Qed.

(** The canonical encoding of a knob definition determines every field that
    reaches enforcement, and ignores the prose. *)
Theorem canonical_encoding_injective (c d : KnobDef) :
  def_sized c → def_sized d →
  canonical_encoding c = canonical_encoding d ↔ same_machine c d.
Proof.
  intros Hc Hd. split.
  - intros E. refine (proj1 (canonical_encoding_delimits c d [] [] Hc Hd _)). by rewrite E.
  - intros E. destruct c, d. injection E. intros. subst. reflexivity.
Qed.

Lemma canonical_encoding_injective_witness :
  let d delegable := mk_def (lit "pg.extension") KBool (Pinned delegable) (VBool false)
    Enforced Global true true [] in
  def_sized (d true) ∧ canonical_encoding (d true) ≠ canonical_encoding (d false).
Proof.
  cbn zeta. split; [repeat split; vm_compute; reflexivity|].
  rewrite canonical_encoding_injective; [discriminate|repeat split; vm_compute; reflexivity..].
Defined.
