(* ===== verification/ValueOrder.v ===== *)
(** The per-knob value order, [value_order.rs]. Every operation is relative to the
    knob's kind and fails on a value of another shape. The specification is a
    denotation of values as sets of atoms: the order is inclusion, [join_value] the
    union and [meet_value] the intersection. *)

From S2P Require Export Knob.

Inductive ValueOrderError := ShapeMismatch | UnknownVariantRank.
#[global] Instance value_order_error_eq_dec : EqDecision ValueOrderError.
Proof. solve_decision. Defined.

Definition as_bool (v : KnobValue) : result ValueOrderError bool :=
  match v with VBool b => Ok b | _ => Err ShapeMismatch end.
Definition as_uint (v : KnobValue) : result ValueOrderError Z :=
  match v with VUint u => Ok u | _ => Err ShapeMismatch end.
Definition as_str (v : KnobValue) : result ValueOrderError bytes :=
  match v with VStr s => Ok s | _ => Err ShapeMismatch end.
Definition as_strset (v : KnobValue) : result ValueOrderError (list bytes) :=
  match v with VStrSet xs => Ok (bset_of xs) | _ => Err ShapeMismatch end.

(** [iter().position(..)]. *)
Fixpoint position (f : bytes → bool) (l : list bytes) : option nat :=
  match l with
  | [] => None
  | x :: l' => if f x then Some 0 else S <$> position f l'
  end.

Definition rank (variants : list bytes) (v : KnobValue) : result ValueOrderError nat :=
  s ← as_str v;
  ok_or (position (λ cand, bool_decide (cand = s)) variants) UnknownVariantRank.

Definition a_or_b_by_rank (a b : KnobValue) (_ra _rb : nat) (take_a : bool) : KnobValue :=
  if take_a then a else b.

(** [BTreeSet::is_subset], [BTreeSet::intersection] and the sorted [Vec] of a set. *)
Definition bset_mem (x : bytes) (s : list bytes) : bool := existsb (λ y, bool_decide (y = x)) s.
Definition is_subset (x y : list bytes) : bool := forallb (λ s, bset_mem s y) x.
Definition intersection (x y : list bytes) : list bytes := List.filter (λ s, bset_mem s y) x.
Definition sorted (set : list bytes) : list bytes := set.

Definition leq_value (kind : KnobKind) (a b : KnobValue) : result ValueOrderError bool :=
  match kind with
  | KBool => x ← as_bool a; y ← as_bool b; Ok (negb x || y)
  | KStrSet => x ← as_strset a; y ← as_strset b; Ok (is_subset x y)
  | KUintCharter _ => x ← as_uint a; y ← as_uint b; Ok (x <=? y)%Z
  | KOrderedEnum variants => x ← rank variants a; y ← rank variants b; Ok (x <=? y)
  | KDigest => x ← as_str a; y ← as_str b; Ok (bool_decide (x = y))
  end.

Definition join_value (kind : KnobKind) (a b : KnobValue) : result ValueOrderError KnobValue :=
  match kind with
  | KBool =>
      x ← as_bool a;
      if x : bool then Ok (VBool true) else y ← as_bool b; Ok (VBool y)
  | KStrSet => u ← as_strset a; y ← as_strset b; Ok (VStrSet (sorted (bset_extend u y)))
  | KUintCharter _ => x ← as_uint a; y ← as_uint b; Ok (VUint (Z.max x y))
  | KOrderedEnum variants =>
      ra ← rank variants a; rb ← rank variants b;
      Ok (a_or_b_by_rank a b ra rb (rb <=? ra))
  | KDigest =>
      x ← as_str a; y ← as_str b;
      if bool_decide (x = y) then Ok a else Err ShapeMismatch
  end.

Definition meet_value (kind : KnobKind) (a b : KnobValue) : result ValueOrderError KnobValue :=
  match kind with
  | KBool =>
      x ← as_bool a;
      if x : bool then y ← as_bool b; Ok (VBool y) else Ok (VBool false)
  | KStrSet => x ← as_strset a; y ← as_strset b; Ok (VStrSet (sorted (intersection x y)))
  | KUintCharter _ => x ← as_uint a; y ← as_uint b; Ok (VUint (Z.min x y))
  | KOrderedEnum variants =>
      ra ← rank variants a; rb ← rank variants b;
      Ok (a_or_b_by_rank a b ra rb (ra <=? rb))
  | KDigest =>
      x ← as_str a; y ← as_str b;
      if bool_decide (x = y) then Ok a else Err ShapeMismatch
  end.

#[global] Arguments rank : simpl never.

(** * Specification: values as sets of atoms *)

Definition den (kind : KnobKind) (v : KnobValue) (x : Z + bytes) : Prop :=
  match kind, v, x with
  | KBool, VBool b, _ => b = true
  | KStrSet, VStrSet xs, inr s => s ∈ xs
  | KUintCharter _, VUint u, inl z => (z ≤ u)%Z
  | KOrderedEnum variants, VStr _, inl z => ∃ i, rank variants v = Ok i ∧ (z ≤ Z.of_nat i)%Z
  | KDigest, VStr s, inr t => t = s
  | _, _, _ => False
  end.

(** The value has the shape its kind orders. *)
Definition shaped (kind : KnobKind) (v : KnobValue) : Prop :=
  match kind, v with
  | KBool, VBool _ | KStrSet, VStrSet _ | KUintCharter _, VUint _ | KDigest, VStr _ => True
  | KOrderedEnum variants, VStr s => s ∈ variants
  | _, _ => False
  end.

(** "No looser than", and the equivalence of values it induces. *)
Definition vle (kind : KnobKind) (a b : KnobValue) : Prop := ∀ x, den kind a x → den kind b x.
Definition veq (kind : KnobKind) (a b : KnobValue) : Prop := ∀ x, den kind a x ↔ den kind b x.

#[global] Instance vle_preorder kind : PreOrder (vle kind).
Proof. split; unfold vle; [intros a x; done|intros a b c H1 H2 x ?; auto]. Qed.
#[global] Instance veq_equivalence kind : Equivalence (veq kind).
Proof.
  split; unfold veq; [intros a x; done|intros a b H x; by rewrite H|].
  intros a b c H1 H2 x. by rewrite H1.
Qed.
#[global] Instance vle_proper kind : Proper (veq kind ==> veq kind ==> iff) (vle kind).
Proof.
  unfold veq, vle. intros a a' Ha b b' Hb.
  split; intros H x; generalize (Ha x) (Hb x) (H x); tauto.
Qed.
#[global] Instance vle_antisym kind : AntiSymm (veq kind) (vle kind).
Proof. intros a b H1 H2 x. split; auto. Qed.

(** * The operations implement it *)

Lemma position_elem s l : s ∈ l → ∃ i, position (λ cand, bool_decide (cand = s)) l = Some i.
Proof.
  induction l as [|x l IH]; cbn; [set_solver|].
  destruct (decide (x = s)) as [->|Hne]; [rewrite bool_decide_eq_true_2 by done; eauto|].
  rewrite bool_decide_eq_false_2 by done. intros [?|Hs]%elem_of_cons; [congruence|].
  destruct (IH Hs) as [i ->]. cbn. eauto.
Qed.

Lemma position_inj s t l i :
  position (λ cand, bool_decide (cand = s)) l = Some i →
  position (λ cand, bool_decide (cand = t)) l = Some i → s = t.
Proof.
  revert i. induction l as [|x l IH]; cbn; [done|]. intros i.
  repeat case_bool_decide; intros; simplify_eq; try done;
    repeat match goal with H : S <$> ?p = _ |- _ => destruct p eqn:?; simplify_eq/= end.
  by eapply IH.
Qed.

Lemma position_found s l i : position (λ cand, bool_decide (cand = s)) l = Some i → s ∈ l.
Proof.
  revert i. induction l as [|x l IH]; cbn; [done|]. intros i. case_bool_decide; [set_solver|].
  destruct (position _ l) eqn:E; [|done]. intros _. apply elem_of_cons. eauto.
Qed.

Lemma rank_shaped vs s : s ∈ vs → ∃ i, rank vs (VStr s) = Ok i.
Proof. intros [i Hi]%position_elem. unfold rank. cbn. rewrite Hi. by exists i. Qed.

Lemma bset_mem_spec x s : bset_mem x s = true ↔ x ∈ s.
Proof.
  unfold bset_mem. rewrite existsb_exists. setoid_rewrite bool_decide_eq_true.
  split; [by intros (y & ?%list_elem_of_In & ->)|intros; exists x; by rewrite <-list_elem_of_In].
Qed.

Lemma is_subset_spec x y : is_subset x y = true ↔ ∀ s, s ∈ x → s ∈ y.
Proof.
  unfold is_subset. rewrite forallb_forall. setoid_rewrite bset_mem_spec.
  by setoid_rewrite <-list_elem_of_In.
Qed.

Lemma elem_of_intersection_list x y s : s ∈ intersection x y ↔ s ∈ x ∧ s ∈ y.
Proof.
  unfold intersection. rewrite !list_elem_of_In, filter_In, bset_mem_spec.
  by rewrite list_elem_of_In.
Qed.

(** Names the ranks of two enum values of the kind. *)
Tactic Notation "ranks" hyp(Ha) hyp(Hb) "as" ident(i) ident(j) :=
  let E1 := fresh "E" in let E2 := fresh "E0" in
  destruct (rank_shaped _ _ Ha) as [i E1], (rank_shaped _ _ Hb) as [j E2]; rewrite ?E1, ?E2.

Lemma leq_value_den kind a b : shaped kind a → shaped kind b →
  ∃ r, leq_value kind a b = Ok r ∧ (r = true ↔ vle kind a b).
Proof.
  intros Ha Hb. unfold vle. destruct kind, a, b; try done; cbn in Ha, Hb |- *.
  - eexists; split; [done|]. destruct b, b0; cbn; split; try done; intros H; by apply (H (inl 0%Z)).
  - eexists; split; [done|]. rewrite is_subset_spec. setoid_rewrite elem_of_bset_of.
    split; [intros H [z|s]; [done|apply H]|intros H s; apply (H (inr s))].
  - eexists; split; [done|]. rewrite Z.leb_le. split.
    + intros H [z|s]; [lia|done].
    + intros H. apply (H (inl u)). done.
  - ranks Ha Hb as i i0. eexists; split; [done|]. rewrite Nat.leb_le. split.
    + intros H [z|?]; [intros (? & [= <-] & ?); eexists; split; [done|lia]|done].
    + intros H. destruct (H (inl (Z.of_nat i))) as (? & [= <-] & ?); [exists i; split; [done|lia]|lia].
  - eexists; split; [done|]. rewrite bool_decide_eq_true. split.
    + intros -> [z|t]; done.
    + intros H. apply (H (inr s)). done.
Qed.

Lemma join_value_den kind a b c : shaped kind a → shaped kind b → join_value kind a b = Ok c →
  shaped kind c ∧ ∀ x, den kind c x ↔ den kind a x ∨ den kind b x.
Proof.
  intros Ha Hb. destruct kind, a, b; try done; cbn in Ha, Hb |- *.
  - destruct b, b0; intros [= <-]; split; try done; intros; cbn; intuition congruence.
  - intros [= <-]. split; [done|]. intros [z|s]; cbn; [tauto|].
    unfold sorted. by rewrite elem_of_bset_extend, !elem_of_bset_of.
  - intros [= <-]. split; [done|]. intros [z|s]; cbn; [lia|tauto].
  - ranks Ha Hb as i i0. intros [= <-]. unfold a_or_b_by_rank. destruct (Nat.leb_spec i0 i).
    + split; [done|]. intros [z|?]; cbn; [|tauto]. rewrite ?E, ?E0. split; [eauto|].
      intros [?|(? & [= <-] & ?)]; [done|]. eexists; split; [done|lia].
    + split; [done|]. intros [z|?]; cbn; [|tauto]. rewrite ?E, ?E0. split; [eauto|].
      intros [(? & [= <-] & ?)|?]; [|done]. eexists; split; [done|lia].
  - case_bool_decide; [|done]. intros [= <-]. subst. split; [done|]. intros []; cbn; tauto.
Qed.

Lemma meet_value_den kind a b c : shaped kind a → shaped kind b → meet_value kind a b = Ok c →
  shaped kind c ∧ ∀ x, den kind c x ↔ den kind a x ∧ den kind b x.
Proof.
  intros Ha Hb. destruct kind, a, b; try done; cbn in Ha, Hb |- *.
  - destruct b, b0; intros [= <-]; split; try done; intros; cbn; intuition congruence.
  - intros [= <-]. split; [done|]. intros [z|s]; cbn; [tauto|].
    unfold sorted. by rewrite elem_of_intersection_list, !elem_of_bset_of.
  - intros [= <-]. split; [done|]. intros [z|s]; cbn; [lia|tauto].
  - ranks Ha Hb as i i0. intros [= <-]. unfold a_or_b_by_rank. destruct (Nat.leb_spec i i0).
    + split; [done|]. intros [z|?]; cbn; [|tauto]. rewrite ?E, ?E0. split; [|tauto].
      intros (? & [= <-] & ?). split; eexists; (split; [done|lia]).
    + split; [done|]. intros [z|?]; cbn; [|tauto]. rewrite ?E, ?E0. split; [|tauto].
      intros (? & [= <-] & ?). split; eexists; (split; [done|lia]).
  - case_bool_decide; [|done]. intros [= <-]. subst. split; [done|]. intros []; cbn; tauto.
Qed.

(** A digest is opaque: two that differ have neither bound. *)
Definition comparable (kind : KnobKind) (a b : KnobValue) : Prop :=
  match kind with KDigest => a = b | _ => True end.

Lemma join_value_total kind a b : shaped kind a → shaped kind b → comparable kind a b →
  ∃ c, join_value kind a b = Ok c.
Proof.
  intros Ha Hb Hc. destruct kind, a, b; try done; cbn in *.
  - by (destruct b, b0; eexists).
  - by eexists.
  - by eexists.
  - ranks Ha Hb as i i0. by eexists.
  - rewrite bool_decide_eq_true_2; [eauto|congruence].
Qed.

Lemma meet_value_total kind a b : shaped kind a → shaped kind b → comparable kind a b →
  ∃ c, meet_value kind a b = Ok c.
Proof.
  intros Ha Hb Hc. destruct kind, a, b; try done; cbn in *.
  - by (destruct b, b0; eexists).
  - by eexists.
  - by eexists.
  - ranks Ha Hb as i i0. by eexists.
  - rewrite bool_decide_eq_true_2; [eauto|congruence].
Qed.

Lemma leq_value_vle kind a b : shaped kind a → shaped kind b →
  leq_value kind a b = Ok true ↔ vle kind a b.
Proof.
  intros Ha Hb. destruct (leq_value_den kind a b Ha Hb) as (r & -> & Hr).
  rewrite <-Hr. split; congruence.
Qed.

Lemma validate_for_shaped v kind : validate_for v kind = Ok tt → shaped kind v.
Proof.
  destruct kind, v; cbn; try done. destruct (existsb _ variants) eqn:E; [|done].
  intros _. by apply bset_mem_spec.
Qed.

(** * The laws *)

(** On the values of a kind, [leq_value] is a partial order that never fails,
    [join_value] is the least upper bound and [meet_value] the greatest lower bound;
    and "no looser" is the lattice identity the module header states, up to the
    order and repetition in a string set. A digest is compared only with itself. *)
Theorem value_order_lattice (kind : KnobKind) (a b : KnobValue) :
  shaped kind a → shaped kind b → comparable kind a b →
  ∃ le j m, leq_value kind a b = Ok le ∧ join_value kind a b = Ok j ∧ meet_value kind a b = Ok m ∧
    shaped kind j ∧ shaped kind m ∧
    (∀ c, shaped kind c →
       leq_value kind j c = Ok true ↔ leq_value kind a c = Ok true ∧ leq_value kind b c = Ok true) ∧
    (∀ c, shaped kind c →
       leq_value kind c m = Ok true ↔ leq_value kind c a = Ok true ∧ leq_value kind c b = Ok true) ∧
    (le = true ↔ veq kind j b) ∧ (le = true ↔ veq kind m a).
Proof.
  intros Ha Hb Hc. destruct (leq_value_den kind a b Ha Hb) as (le & Ele & Hle).
  destruct (join_value_total kind a b) as [j Ej]; [done..|].
  destruct (meet_value_total kind a b) as [m Em]; [done..|]. exists le, j, m.
  destruct (join_value_den _ _ _ _ Ha Hb Ej) as [Hj Hjd].
  destruct (meet_value_den _ _ _ _ Ha Hb Em) as [Hm Hmd]. do 3 (split; [done|]).
  split; [done|]. split; [done|]. unfold veq. rewrite Hle. unfold vle.
  split; [|split; [|split]].
  - intros c Hsc. rewrite !leq_value_vle by done. unfold vle. setoid_rewrite Hjd.
    split; [intros H; split; auto|intros [] ? []; auto].
  - intros c Hsc. rewrite !leq_value_vle by done. unfold vle. setoid_rewrite Hmd.
    split; [intros H; split; intros; by apply H|intros []; auto].
  - setoid_rewrite Hjd. split; intros H x; specialize (H x); tauto.
  - setoid_rewrite Hmd. split; intros H x; specialize (H x); tauto.
Qed.

Lemma value_order_lattice_witness :
  let kind := KOrderedEnum [lit "forbid"; lit "warn"; lit "allow"] in
  shaped kind (VStr (lit "warn")) ∧
  ∃ j, join_value kind (VStr (lit "warn")) (VStr (lit "forbid")) = Ok j ∧ shaped kind j.
Proof.
  set (kind := KOrderedEnum [lit "forbid"; lit "warn"; lit "allow"]).
  assert (shaped kind (VStr (lit "warn"))) as Ha by (cbn; set_solver).
  assert (shaped kind (VStr (lit "forbid"))) as Hb by (cbn; set_solver).
  split; [exact Ha|].
  destruct (value_order_lattice kind _ _ Ha Hb I) as (_ & j & _ & _ & Hj & _ & Hs & _). eauto.
Defined.

(** A clamp distributes over an aggregation: the meet of two joins is the join
    of the pairwise meets. *)
Theorem value_order_distributive (kind : KnobKind) (a b c j : KnobValue) :
  shaped kind a → shaped kind b → shaped kind c → kind ≠ KDigest →
  join_value kind b c = Ok j →
  ∃ m mb mc r, meet_value kind a j = Ok m ∧ meet_value kind a b = Ok mb ∧
    meet_value kind a c = Ok mc ∧ join_value kind mb mc = Ok r ∧ veq kind m r.
Proof.
  intros Ha Hb Hc Hk Ej. destruct (join_value_den _ _ _ _ Hb Hc Ej) as [Hj Hjd].
  assert (∀ x y, comparable kind x y) as Hcmp by (by destruct kind).
  destruct (meet_value_total kind a j) as [m Em]; [done..|].
  destruct (meet_value_total kind a b) as [mb Emb]; [done..|].
  destruct (meet_value_total kind a c) as [mc Emc]; [done..|].
  apply (meet_value_den _ _ _ _ Ha Hj) in Em as Hm. apply (meet_value_den _ _ _ _ Ha Hb) in Emb as Hmb.
  apply (meet_value_den _ _ _ _ Ha Hc) in Emc as Hmc.
  destruct Hm as [Hm Hmd], Hmb as [Hmb Hmbd], Hmc as [Hmc Hmcd].
  destruct (join_value_total kind mb mc) as [r Er]; [done..|].
  exists m, mb, mc, r. do 4 (split; [done|]).
  apply (join_value_den _ _ _ _ Hmb Hmc) in Er as [_ Hr]. intros x.
  rewrite Hmd, Hr, Hmbd, Hmcd, Hjd. tauto.
Qed.

Lemma value_order_distributive_witness :
  ∃ m, meet_value KStrSet (VStrSet [lit "b"; lit "a"]) (VStrSet [lit "b"; lit "c"]) = Ok m.
Proof.
  destruct (value_order_distributive KStrSet (VStrSet [lit "b"; lit "a"]) (VStrSet [lit "c"])
    (VStrSet [lit "b"]) (VStrSet [lit "b"; lit "c"])) as (m & _ & _ & _ & Hm & _);
    [exact I|exact I|exact I|discriminate|vm_compute; reflexivity|exists m; exact Hm].
Defined.

(** What composition relies on of the value order. *)
Class ValueOrder : Prop := {
  vo_leq : ∀ kind a b, shaped kind a → shaped kind b →
    ∃ r, leq_value kind a b = Ok r ∧ (r = true ↔ vle kind a b);
  vo_join : ∀ kind a b c, shaped kind a → shaped kind b → join_value kind a b = Ok c →
    shaped kind c ∧ ∀ x, den kind c x ↔ den kind a x ∨ den kind b x;
  vo_meet : ∀ kind a b c, shaped kind a → shaped kind b → meet_value kind a b = Ok c →
    shaped kind c ∧ ∀ x, den kind c x ↔ den kind a x ∧ den kind b x
}.
#[global] Instance value_order : ValueOrder.
Proof. split; [apply leq_value_den|apply join_value_den|apply meet_value_den]. Qed.
