(* ===== verification/Rule.v ===== *)
(** The scoped rule model, [rule.rs]: the four rule kinds, the injection content and
    the textual form of an assignment generator. *)

From S2P Require Export ValueOrder Scope.

(** * Injection content *)

Inductive AssignmentEvent := Insert | Write | Delete.

Inductive AssignmentGenerator :=
  | Now
  | TypedId
  | Actor
  | Increment (amount : Z)
  | Identity.

Record Assignment := mk_assignment {
  as_by : AssignmentGenerator;
  as_on : AssignmentEvent
}.

Inductive InjectCollation := Bytewise.

Record InjectColumn := mk_column {
  ic_name : bytes;
  ic_ty : bytes;
  ic_nullable : bool;
  ic_default : option bytes;
  ic_assign : option Assignment;
  ic_collation : option InjectCollation
}.

Record InjectIndex := mk_index {
  ix_name : bytes;
  ix_columns : list bytes
}.

Inductive AuthorPkPolicy := Allow | Forbid.

Record InjectSpec := mk_inject {
  is_columns : list InjectColumn;
  is_indexes : list InjectIndex;
  is_primary_key : option (list bytes);
  is_author_primary_key : AuthorPkPolicy;
  is_mandatory : bool
}.

(** * Validation content *)

Record NameGlob := mk_name_glob { ng_glob : SegGlob }.

Inductive ValidatePredicate :=
  | HasPrimaryKey
  | ColumnNamePattern (require forbid : list NameGlob)
  | ForbiddenColumns (names : list bytes)
  | TypeNullability (column : bytes) (ty : option bytes) (nullable : option bool)
  | RequireIndex (columns : list bytes)
  | TableNameForbidden (patterns : list Pattern).

(** * Rules *)

Inductive RuleKind :=
  | RGrant (key : KnobKey) (value : KnobValue)
  | RRequire (key : KnobKey) (value : KnobValue)
  | RInject (spec : InjectSpec)
  | RValidate (pred : ValidatePredicate).

Record Rule := mk_rule {
  ru_scope : Scope;
  ru_kind : RuleKind
}.

Definition rule_key (k : RuleKind) : option KnobKey :=
  match k with
  | RGrant key _ | RRequire key _ => Some key
  | RInject _ | RValidate _ => None
  end.

#[global] Instance assignment_event_eq_dec : EqDecision AssignmentEvent.
Proof. solve_decision. Defined.
#[global] Instance assignment_generator_eq_dec : EqDecision AssignmentGenerator.
Proof. solve_decision. Defined.
#[global] Instance assignment_eq_dec : EqDecision Assignment.
Proof. solve_decision. Defined.
#[global] Instance inject_collation_eq_dec : EqDecision InjectCollation.
Proof. solve_decision. Defined.
#[global] Instance inject_column_eq_dec : EqDecision InjectColumn.
Proof. solve_decision. Defined.
#[global] Instance inject_index_eq_dec : EqDecision InjectIndex.
Proof. solve_decision. Defined.
#[global] Instance author_pk_policy_eq_dec : EqDecision AuthorPkPolicy.
Proof. solve_decision. Defined.
#[global] Instance inject_spec_eq_dec : EqDecision InjectSpec.
Proof. solve_decision. Defined.
#[global] Instance name_glob_eq_dec : EqDecision NameGlob.
Proof. solve_decision. Defined.
#[global] Instance validate_predicate_eq_dec : EqDecision ValidatePredicate.
Proof. solve_decision. Defined.

(** * The textual form of a generator *)

Inductive AssignmentGeneratorParseError :=
  | UnknownInvocation (invocation : bytes)
  | InvalidIncrementArgument (argument : bytes).

Definition generator_to_string (g : AssignmentGenerator) : bytes :=
  match g with
  | Now => lit "now"
  | TypedId => lit "typedId"
  | Actor => lit "actor"
  | Increment amount => lit "increment(" ++ i64_to_string amount ++ lit ")"
  | Identity => lit "identity"
  end.

Definition generator_from_str (raw : bytes) : result AssignmentGeneratorParseError AssignmentGenerator :=
  let invocation := trim raw in
  if bool_decide (invocation = lit "now") then Ok Now
  else if bool_decide (invocation = lit "typedId") then Ok TypedId
  else if bool_decide (invocation = lit "actor") then Ok Actor
  else if bool_decide (invocation = lit "identity") then Ok Identity
  else
    match (rest ← strip_prefix (lit "increment(") invocation; strip_suffix (lit ")") rest) with
    | None => Err (UnknownInvocation raw)
    | Some argument =>
        match parse_i64 (trim argument) with
        | None => Err (InvalidIncrementArgument argument)
        | Some amount => Ok (Increment amount)
        end
    end.

(** The amounts an [i64] holds. *)
Definition generator_sized (g : AssignmentGenerator) : Prop :=
  match g with Increment z => (i64_min ≤ z ≤ i64_max)%Z | _ => True end.

Lemma increment_from_str arg :
  generator_from_str (lit "increment(" ++ arg ++ lit ")") =
    match parse_i64 (trim arg) with
    | None => Err (InvalidIncrementArgument arg)
    | Some amount => Ok (Increment amount)
    end.
Proof.
  unfold generator_from_str.
  assert (trim (lit "increment(" ++ arg ++ lit ")") = lit "increment(" ++ arg ++ lit ")") as ->.
  { apply (trim_id "i"%byte (lit "ncrement(" ++ arg ++ lit ")") ")"%byte (lit "increment(" ++ arg));
      [by rewrite <-app_assoc|done..]. }
  rewrite !bool_decide_eq_false_2 by (intros E; discriminate E).
  rewrite strip_prefix_app. cbn [mbind option_bind]. by rewrite strip_suffix_app.
Qed.

Lemma trim_i64 z : (i64_min ≤ z ≤ i64_max)%Z → trim (i64_to_string z) = i64_to_string z.
Proof.
  intros (b & s & t & c & -> & E & Hb & Hc)%i64_to_string_shape.
  eapply trim_id; [exact E| |].
  - clear E. revert b Hb. apply Forall_forall, (bool_decide_unpack _). by vm_compute.
  - clear E. revert c Hc. apply Forall_forall, (bool_decide_unpack _). by vm_compute.
Qed.

(** The textual form of an assignment generator is read back as the generator it
    was printed from, at every 64-bit increment. *)
Theorem generator_roundtrip (g : AssignmentGenerator) :
  generator_sized g → generator_from_str (generator_to_string g) = Ok g.
Proof.
  destruct g as [| | |z|]; [intros _; vm_compute; reflexivity..| |intros _; vm_compute; reflexivity].
  cbn [generator_sized]. intros Hz. unfold generator_to_string.
  rewrite increment_from_str.
  by rewrite trim_i64, parse_i64_print.
Qed.

Lemma generator_roundtrip_witness :
  generator_from_str (generator_to_string (Increment i64_min)) = Ok (Increment i64_min).
Proof. apply (generator_roundtrip (Increment i64_min)). cbn. unfold i64_min, i64_max. lia. Defined.
