(* ===== verification/Registry.v ===== *)
(** The policy registry, [registry.rs]: the knob definitions by key, and the digest
    over their canonical encodings. SHA-256 is a parameter. *)

From S2P Require Export Knob.

Definition PolicyRegistry := list (KnobKey * KnobDef).

Inductive RegistryError := DuplicateKey (key : KnobKey).

Definition registry_empty : PolicyRegistry := [].

Definition registry_get (r : PolicyRegistry) (key : KnobKey) : option KnobDef := bm_get key r.
#[global] Arguments registry_get : simpl never.
Definition registry_contains (r : PolicyRegistry) (key : KnobKey) : bool :=
  match bm_get key r with Some _ => true | None => false end.
Definition registry_len (r : PolicyRegistry) : nat := length r.
Definition registry_iter (r : PolicyRegistry) : list KnobDef := bm_values r.

Definition registry_with (r : PolicyRegistry) (defs : list KnobDef) :
    result RegistryError PolicyRegistry :=
  try_fold (λ acc def,
    if registry_contains acc (kd_key def) then Err (DuplicateKey (kd_key def))
    else Ok (bm_insert (kd_key def) def acc)) r defs.

Definition REGISTRY_DOMAIN : bytes := lit "zeroship-migrate-policy/registry/v1".

(** What the hasher absorbs: the updates in order. *)
Definition digest_preimage (r : PolicyRegistry) : bytes :=
  REGISTRY_DOMAIN ++ write_vec (λ d, write_bytes (canonical_encoding d)) (registry_iter r).

Definition registry_digest (sha256 : bytes → bytes) (r : PolicyRegistry) : bytes :=
  sha256 (digest_preimage r).

(** * Invariant: sorted, and every definition is under its own key *)

Definition registry_wf (r : PolicyRegistry) : Prop :=
  bm_wf r ∧ ∀ k d, (k, d) ∈ r → k = kd_key d.

Lemma registry_wf_empty : registry_wf registry_empty.
Proof. split; [constructor|set_solver]. Qed.

Lemma registry_contains_false r k : registry_contains r k = false ↔ registry_get r k = None.
Proof. unfold registry_contains, registry_get. by destruct (bm_get k r). Qed.

Lemma registry_insert_wf r d :
  registry_wf r → registry_get r (kd_key d) = None → registry_wf (bm_insert (kd_key d) d r).
Proof.
  intros [Hs Hk] Hd. split; [by apply bm_insert_wf|].
  intros k d'. rewrite elem_of_bm_insert by done. intros [[= -> ->]|?]; auto.
Qed.

Lemma registry_with_cons r d defs : registry_with r (d :: defs) =
  if registry_contains r (kd_key d) then Err (DuplicateKey (kd_key d))
  else registry_with (bm_insert (kd_key d) d r) defs.
Proof. unfold registry_with. cbn. by destruct (registry_contains r (kd_key d)). Qed.

Lemma registry_with_elems r defs r' : registry_wf r → registry_with r defs = Ok r' →
  registry_wf r' ∧ ∀ kv, kv ∈ r' ↔ kv ∈ r ∨ ∃ d, d ∈ defs ∧ kv = (kd_key d, d).
Proof.
  revert r. induction defs as [|d defs IH]; intros r Hr; [|rewrite registry_with_cons].
  { intros [= <-]. split; [done|]. set_solver. }
  destruct (registry_contains r (kd_key d)) eqn:Ec; [done|].
  apply registry_contains_false in Ec. intros E.
  apply IH in E as [Hr' He]; [|by apply registry_insert_wf]. split; [done|].
  intros kv. rewrite He, elem_of_bm_insert by done. set_solver.
Qed.

(** Registration succeeds exactly when no key is met twice. *)
Lemma registry_with_ok r defs : registry_wf r →
  (∃ r', registry_with r defs = Ok r') ↔
  NoDup (map kd_key defs) ∧ ∀ d, d ∈ defs → registry_get r (kd_key d) = None.
Proof.
  revert r. induction defs as [|d defs IH]; intros r Hr; [|rewrite registry_with_cons].
  { split; [intros _; split; [constructor|set_solver]|intros _; by eexists]. }
  cbn [map]. rewrite NoDup_cons.
  destruct (registry_contains r (kd_key d)) eqn:Ec.
  { split; [by intros [? ?]|]. intros [_ H].
    rewrite <-not_false_iff_true, registry_contains_false in Ec.
    destruct Ec. apply H. set_solver. }
  apply registry_contains_false in Ec. rewrite IH by (by apply registry_insert_wf).
  unfold registry_get. split.
  - intros [Hnd Hget]. split; [split; [|done]|].
    + intros (d' & Ek & Hd')%list_elem_of_fmap. apply Hget in Hd'.
      rewrite <-Ek, bm_get_insert_eq in Hd'; [done|apply Hr].
    + intros d' [->|Hd']%elem_of_cons; [done|]. pose proof (Hget _ Hd') as Hg.
      destruct (decide (kd_key d' = kd_key d)) as [E|Hne].
      * rewrite E, bm_get_insert_eq in Hg; [done|apply Hr].
      * by rewrite bm_get_insert_ne in Hg.
  - intros [[Hd Hnd] Hget]. split; [done|]. intros d' Hd'.
    rewrite bm_get_insert_ne; [apply Hget; set_solver|]. intros E. apply Hd, list_elem_of_fmap.
    by exists d'.
Qed.

(** Registering definitions succeeds exactly when their keys are distinct, and
    the registry - hence its digest - does not depend on the order they come in. *)
Theorem registry_order_independent (defs defs' : list KnobDef) : defs ≡ₚ defs' →
  ((∃ r, registry_with registry_empty defs = Ok r) ↔ NoDup (map kd_key defs)) ∧
  result_ok (registry_with registry_empty defs) = result_ok (registry_with registry_empty defs').
Proof.
  intros Hp.
  assert (∀ l, (∃ r, registry_with registry_empty l = Ok r) ↔ NoDup (map kd_key l)) as Hok.
  { intros l. rewrite registry_with_ok by apply registry_wf_empty. split; [by intros []|done]. }
  split; [done|]. pose proof (Hok defs) as H1. pose proof (Hok defs') as H2.
  change (map kd_key) with (fmap (M := list) kd_key) in *.
  rewrite Hp in H1. rewrite <-H2 in H1. clear H2.
  destruct (registry_with registry_empty defs) as [r|] eqn:E;
    destruct (registry_with registry_empty defs') as [r'|] eqn:E'; cbn.
  - apply registry_with_elems in E as [[Hr _] He]; [|apply registry_wf_empty].
    apply registry_with_elems in E' as [[Hr' _] He']; [|apply registry_wf_empty].
    f_equal. apply bm_ext; [done..|]. intros kv. rewrite He, He'. by setoid_rewrite Hp.
  - destruct H1 as [[? ?] _]; eauto. done.
  - destruct H1 as [_ [? ?]]; eauto. done.
  - done.
Qed.

Lemma registry_get_key r k d : registry_wf r → registry_get r k = Some d → kd_key d = k.
Proof. intros [_ Hk] Hd. symmetry. by apply Hk, bm_get_elem. Qed.

(** * The digest *)

Definition registry_sized (r : PolicyRegistry) : Prop :=
  short r ∧ Forall (λ d, def_sized d ∧ short (canonical_encoding d)) (registry_iter r).

(** The same registry, up to the prose. *)
Definition same_registry (r r' : PolicyRegistry) : Prop :=
  Forall2 same_machine (registry_iter r) (registry_iter r').

Lemma encodings_same l k :
  Forall (λ d, def_sized d ∧ short (canonical_encoding d)) l →
  Forall (λ d, def_sized d ∧ short (canonical_encoding d)) k →
  map canonical_encoding l = map canonical_encoding k → Forall2 same_machine l k.
Proof.
  intros Hl. revert k. induction Hl as [|c l [Hc _] Hl IH]; intros [|d k] Hk E; [constructor|discriminate E|discriminate E|].
  apply cons_inj in E as [E1 E2].
  apply Forall_cons in Hk as [[Hd _] Hk]. constructor; [|by apply IH].
  refine (proj1 (canonical_encoding_delimits c d [] [] Hc Hd _)). congruence.
Qed.

Lemma digest_preimage_same r r' : registry_sized r → registry_sized r' →
  digest_preimage r = digest_preimage r' → same_registry r r'.
Proof.
  intros [Hs Hr] [Hs' Hr'] E. unfold digest_preimage in E. apply app_inv_head in E.
  apply encodings_same; [done..|].
  assert (∀ l, write_vec (λ d, write_bytes (canonical_encoding d)) l
    = write_vec write_bytes (map canonical_encoding l)) as Hw.
  { intros l. unfold write_vec, len_u32. by rewrite map_map, length_map. }
  rewrite !Hw in E. assert (∀ q, short q → Forall (λ d, def_sized d ∧ short (canonical_encoding d))
    (registry_iter q) → short (map canonical_encoding (registry_iter q)) ∧
    Forall short (map canonical_encoding (registry_iter q))) as Hshort.
  { intros q Hq Hf. split; [unfold short, registry_iter, bm_values; by rewrite !length_map|].
    apply Forall_fmap. eapply Forall_impl; [exact Hf|]. by intros ? []. }
  by eapply (delimits_inj (write_vec write_bytes)); [apply _|apply Hshort..|].
Qed.

(** The digest binds the whole machine: two registries with one digest agree on
    every field that reaches enforcement, or exhibit a SHA-256 collision. *)
Theorem registry_digest_binds (sha256 : bytes → bytes) (r r' : PolicyRegistry) :
  registry_sized r → registry_sized r' →
  registry_digest sha256 r = registry_digest sha256 r' →
  same_registry r r' ∨ ∃ x y, x ≠ y ∧ sha256 x = sha256 y.
Proof.
  intros Hr Hr' E. destruct (decide (digest_preimage r = digest_preimage r')) as [Ep|Ep].
  - left. by apply digest_preimage_same.
  - right. by exists (digest_preimage r), (digest_preimage r').
Qed.

Lemma registry_digest_binds_witness :
  let d om := mk_def (lit "core.raw_sql") KBool Grant (VBool false) Enforced om false true [] in
  let r om := [(lit "core.raw_sql", d om)] in
  registry_digest id (r PerTable) ≠ registry_digest id (r PerSchema).
Proof.
  intros d r E.
  assert (∀ om, registry_sized (r om)) as Hs.
  { intros om. split; [vm_compute; reflexivity|]. repeat constructor; destruct om; vm_compute; reflexivity. }
  destruct (registry_digest_binds id _ _ (Hs _) (Hs _) E) as [H|(x & y & Hne & Exy)].
  - apply Forall2_cons in H as [H _]. discriminate H.
  - by apply Hne.
Defined.
