(* ===== verification/Grants.v ===== *)
(** The pointwise grant model and the layered effective policy, the first half of
    [compose.rs]: the per-key grant maps, layers, and the decision queries of
    [EffectivePolicy]. A diagnostic message is kept as its template and arguments. *)

From S2P Require Export Registry Rule.

(** * Errors *)

(** The [detail] strings of the composition errors. *)
Inductive Detail :=
  | ColumnDivergent (name : bytes)
  | IndexDivergent (name : bytes)
  | PkDivergent (pa pb : list bytes)
  | PkPolicyDivergent
  | DraftForbidsColumn (name : bytes)
  | CharterForbidsColumn (name : bytes)
  | UnknownKnob (key : KnobKey)
  | OrderError (e : ValueOrderError).

Inductive ComposeError :=
  | GrantExceedsCharter (key : KnobKey) (offending_pattern : bytes)
  | UncoveredRegionNotRepresentable (key : KnobKey)
  | DraftInjectCollidesCharter (detail : Detail)
  | DraftValidateContradictsCharterInject (detail : Detail)
  | CreatableEscapesMandatoryInject (inject_scope : bytes)
  | CharterInjectCollision (detail : Detail)
  | RegistryOrValueMismatch (detail : Detail).

(** [From<ValueOrderError>], applied by the question mark. *)
Definition from_value_order {A} (m : result ValueOrderError A) : result ComposeError A :=
  map_err (λ e, RegistryOrValueMismatch (OrderError e)) m.

Definition lookup (registry : PolicyRegistry) (key : KnobKey) : result ComposeError KnobDef :=
  ok_or (registry_get registry key) (RegistryOrValueMismatch (UnknownKnob key)).

(** * One key's grants *)

Record GrantRule := mk_grant { gr_scope : Scope; gr_value : KnobValue }.

Record GrantKeyMap := mk_keymap {
  km_kind : KnobKind;
  km_default : KnobValue;
  km_rules : list GrantRule
}.

Definition value_at (km : GrantKeyMap) (o : ObjectName) : result ComposeError KnobValue :=
  try_fold (λ acc r,
    if objects_membership (gr_scope r) o
    then from_value_order (join_value (km_kind km) acc (gr_value r))
    else Ok acc) (km_default km) (km_rules km).

Definition granted_scope (km : GrantKeyMap) : result ComposeError Scope :=
  try_fold (λ acc r,
    below ← from_value_order (leq_value (km_kind km) (gr_value r) (km_default km));
    Ok (if below : bool then acc else join acc (gr_scope r))) Nothing (km_rules km).

Definition covered_scope (km : GrantKeyMap) : Scope :=
  fold_left (λ acc r, join acc (gr_scope r)) (km_rules km) Nothing.

Definition covers_object (km : GrantKeyMap) (o : ObjectName) : bool :=
  existsb (λ r, objects_membership (gr_scope r) o) (km_rules km).

(** * All keys *)

Record GrantModel := mk_model { gm_keys : list (KnobKey * GrantKeyMap) }.

Definition push_rule (r : GrantRule) (km : GrantKeyMap) : GrantKeyMap :=
  mk_keymap (km_kind km) (km_default km) (km_rules km ++ [r]).

Definition grant_model_build (rules : list Rule) (registry : PolicyRegistry) :
    result ComposeError GrantModel :=
  keys ← try_fold (λ keys rule,
    match ru_kind rule with
    | RGrant key value =>
        def ← lookup registry key;
        Ok (bm_entry key (mk_keymap (kd_kind def) (kd_default def) [])
              (push_rule (mk_grant (ru_scope rule) value)) keys)
    | _ => Ok keys
    end) [] rules;
  Ok (mk_model keys).

Definition grant_model_get (m : GrantModel) (key : KnobKey) : option GrantKeyMap :=
  bm_get key (gm_keys m).
Definition grant_model_keys (m : GrantModel) : list KnobKey := bm_keys (gm_keys m).

(** Sorted, without duplicates. *)
Definition key_union (a b : GrantModel) : list KnobKey :=
  bset_of (grant_model_keys a ++ grant_model_keys b).

(** * Layers *)

Inductive LayerTag := Base | Env | Draft.

Record Layer := mk_layer {
  l_tag : LayerTag;
  l_grants : GrantModel;
  l_requires : list Rule;
  l_injects : list Rule;
  l_validates : list Rule
}.

(** A loaded document ([document.rs]); composition reads its rules. *)
Inductive LoadWarning := DeadRule (index : nat).

Record PolicyDoc := mk_doc {
  pd_policy_version : Z;
  pd_default_scope : option Scope;
  pd_rules : list Rule;
  pd_warnings : list LoadWarning
}.

Definition is_require (k : RuleKind) : bool := match k with RRequire _ _ => true | _ => false end.
Definition is_inject (k : RuleKind) : bool := match k with RInject _ => true | _ => false end.
Definition is_validate (k : RuleKind) : bool := match k with RValidate _ => true | _ => false end.

Definition rules_of (rules : list Rule) (pred : RuleKind → bool) : list Rule :=
  List.filter (λ r, pred (ru_kind r)) rules.

Definition layer_from_doc (tag : LayerTag) (doc : PolicyDoc) (registry : PolicyRegistry) :
    result ComposeError Layer :=
  grants ← grant_model_build (pd_rules doc) registry;
  Ok (mk_layer tag grants
        (rules_of (pd_rules doc) is_require)
        (rules_of (pd_rules doc) is_inject)
        (rules_of (pd_rules doc) is_validate)).

Definition pin_layer_key_to_default (layer : Layer) (key : KnobKey) (kind : KnobKind)
    (default : KnobValue) : Layer :=
  mk_layer (l_tag layer)
    (mk_model (bm_entry key (mk_keymap kind default []) (push_rule (mk_grant All default))
                 (gm_keys (l_grants layer))))
    (l_requires layer) (l_injects layer) (l_validates layer).

Definition layer_get (key : KnobKey) (l : Layer) : option GrantKeyMap :=
  bm_get key (gm_keys (l_grants l)).

(** * The effective policy and its queries *)

Record EffectivePolicy := mk_policy {
  ep_registry : PolicyRegistry;
  ep_layers : list Layer
}.

Definition deny_all (registry : PolicyRegistry) : EffectivePolicy := mk_policy registry [].
Definition from_layers (registry : PolicyRegistry) (layers : list Layer) : EffectivePolicy :=
  mk_policy registry layers.

(** The first layer covering the object decides; below them all, the default. *)
Fixpoint grants_layers (registry : PolicyRegistry) (layers : list Layer) (key : KnobKey)
    (object : ObjectName) : option KnobValue :=
  match layers with
  | [] => kd_default <$> registry_get registry key
  | layer :: layers' =>
      match layer_get key layer with
      | Some km =>
          if covers_object km object then result_ok (value_at km object)
          else grants_layers registry layers' key object
      | None => grants_layers registry layers' key object
      end
  end.
Definition grants (p : EffectivePolicy) (key : KnobKey) (object : ObjectName) : option KnobValue :=
  grants_layers (ep_registry p) (ep_layers p) key object.

Inductive Exactness := Exact | Widened.
Inductive GrantRegion := Ungranted | Top | Scoped.

(** The loop of [effective_granted_scope]: [acc], [exactness] and [masked_above] are
    its three accumulators. *)
Fixpoint effective_scope_loop (layers : list Layer) (key : KnobKey) (acc : Scope)
    (exactness : Exactness) (masked_above : Scope) : result ComposeError (Scope * Exactness) :=
  match layers with
  | [] => Ok (acc, exactness)
  | layer :: layers' =>
      match layer_get key layer with
      | Some km =>
          granted ← granted_scope km;
          let '(visible, exactness') :=
            match difference granted masked_above with
            | DScope s => (s, exactness)
            | NotRepresentable => (granted, Widened)
            end in
          effective_scope_loop layers' key (join acc visible) exactness'
            (join masked_above (covered_scope km))
      | None => effective_scope_loop layers' key acc exactness masked_above
      end
  end.
Definition effective_granted_scope (p : EffectivePolicy) (key : KnobKey) :
    result ComposeError (Scope * Exactness) :=
  effective_scope_loop (ep_layers p) key Nothing Exact Nothing.

Definition grant_region (p : EffectivePolicy) (key : KnobKey) : GrantRegion :=
  match effective_granted_scope p key with
  | Ok (All, Exact) => Top
  | Ok (All, Widened) => Scoped
  | Ok (Nothing, _) => Ungranted
  | Ok (Of _ _, _) => Scoped
  | Err _ => Ungranted
  end.
Definition grant_is_top (p : EffectivePolicy) (key : KnobKey) : bool :=
  match grant_region p key with Top => true | _ => false end.

Definition schema_include_of (out : list bytes) (pattern : Pattern) : option (list bytes) :=
  if negb (is_star (pt_table pattern)) || negb (is_literal (pt_schema pattern)) then None
  else Some (bset_insert (seg_render (pt_schema pattern)) out).

Fixpoint opt_fold {A B} (f : B → A → option B) (acc : B) (l : list A) : option B :=
  match l with
  | [] => Some acc
  | x :: l' => acc' ← f acc x; opt_fold f acc' l'
  end.

Definition rule_includes (km : GrantKeyMap) (out : list bytes) (r : GrantRule) : option (list bytes) :=
  below ← result_ok (leq_value (km_kind km) (gr_value r) (km_default km));
  if below : bool then Some out
  else match gr_scope r with
       | Nothing => Some out
       | All => None
       | Of include exclude =>
           if bool_decide (exclude = []) then opt_fold schema_include_of out include else None
       end.

Definition grant_literal_schema_includes (p : EffectivePolicy) (key : KnobKey) :
    option (list bytes) :=
  '(out, seen_key) ← opt_fold (λ '(out, seen_key) layer,
    match layer_get key layer with
    | None => Some (out, seen_key)
    | Some km => out' ← opt_fold (rule_includes km) out (km_rules km); Some (out', true)
    end) ([], false) (ep_layers p);
  if negb seen_key || bool_decide (out = []) then None else Some out.

Definition require_of (r : Rule) : option (KnobKey * KnobValue) :=
  match ru_kind r with RRequire key value => Some (key, value) | _ => None end.
Definition inject_of (r : Rule) : option InjectSpec :=
  match ru_kind r with RInject spec => Some spec | _ => None end.
Definition validate_of (r : Rule) : option ValidatePredicate :=
  match ru_kind r with RValidate pred => Some pred | _ => None end.

Definition covering (object : ObjectName) (rules : list Rule) : list Rule :=
  List.filter (λ r, objects_membership (ru_scope r) object) rules.

Definition obligations (p : EffectivePolicy) (object : ObjectName) : list (KnobKey * KnobValue) :=
  omap require_of (covering object (concat (map l_requires (ep_layers p)))).

Definition obligation_values_anywhere (p : EffectivePolicy) (key : KnobKey) : list KnobValue :=
  omap (λ r, match ru_kind r with
             | RRequire k value => if bool_decide (k = key) then Some value else None
             | _ => None
             end)
    (List.filter (λ r, negb (is_nothing (ru_scope r)))
       (concat (map l_requires (ep_layers p)))).

Definition injects_for (p : EffectivePolicy) (object : ObjectName) : list InjectSpec :=
  omap inject_of (covering object (concat (map l_injects (reverse (ep_layers p))))).

Definition validates_for (p : EffectivePolicy) (object : ObjectName) : list ValidatePredicate :=
  omap validate_of (covering object (concat (map l_validates (reverse (ep_layers p))))).

(** The single-identifier fold: a name that does not normalise is lowercased. *)
Definition fold_ident (s : bytes) : bytes :=
  match normalize_object_name s with
  | Some o => on_schema o
  | None => str_to_ascii_lowercase s
  end.
Definition names_match (a b : bytes) : bool := bool_decide (fold_ident a = fold_ident b).

Inductive ShapeElement := SColumn (name : bytes) | SIndex (name : bytes) | SPrimaryKey.

Definition spec_contributes (element : ShapeElement) (spec : InjectSpec) : bool :=
  match element with
  | SColumn name => existsb (λ c, names_match (ic_name c) name) (is_columns spec)
  | SIndex name => existsb (λ i, names_match (ix_name i) name) (is_indexes spec)
  | SPrimaryKey => match is_primary_key spec with Some _ => true | None => false end
  end.
Definition is_injected_shape (p : EffectivePolicy) (object : ObjectName) (element : ShapeElement) :
    bool :=
  existsb (spec_contributes element) (injects_for p object).

(** The scopes of a stack's rules on a key that rise above the default. *)
Definition layered_nondefault_grant_rules (layers : list Layer) (key : KnobKey) :
    result ComposeError (list Scope) :=
  try_fold (λ out layer,
    match layer_get key layer with
    | None => Ok out
    | Some km =>
        try_fold (λ out r,
          below ← from_value_order (leq_value (km_kind km) (gr_value r) (km_default km));
          Ok (if below : bool then out else out ++ [gr_scope r])) out (km_rules km)
    end) [] layers.

#[global] Arguments value_at : simpl never.
#[global] Arguments covers_object : simpl never.
#[global] Arguments granted_scope : simpl never.
#[global] Arguments covered_scope : simpl never.
#[global] Arguments layer_get : simpl never.
