(* ===== verification/GrantsFacts.v ===== *)
(** Correctness of the grant model: the value of a layer is the least upper bound of
    its covering rules, the fall-through query, and what the region summaries of
    [EffectivePolicy] guarantee. *)

From S2P Require Export Grants.

(** * Well-formedness *)

(** The maps of a layer carry the registry's kind and default, and values of that
    kind - what loading a document against the registry guarantees. *)
Definition km_wf (km : GrantKeyMap) : Prop :=
  shaped (km_kind km) (km_default km) ∧
  Forall (λ r, shaped (km_kind km) (gr_value r)) (km_rules km).

Definition km_of (registry : PolicyRegistry) (key : KnobKey) (km : GrantKeyMap) : Prop :=
  ∃ def, registry_get registry key = Some def ∧
    km_kind km = kd_kind def ∧ km_default km = kd_default def.

Record layer_wf (registry : PolicyRegistry) (l : Layer) : Prop := {
  lw_sorted : bm_wf (gm_keys (l_grants l));
  lw_maps : ∀ key km, layer_get key l = Some km → km_of registry key km ∧ km_wf km
}.

Record registry_ok (registry : PolicyRegistry) : Prop := {
  ro_wf : registry_wf registry;
  ro_default : ∀ key def,
    registry_get registry key = Some def → shaped (kd_kind def) (kd_default def)
}.

Lemma registry_with_registry_ok defs r : registry_with registry_empty defs = Ok r →
  Forall (λ d, shaped (kd_kind d) (kd_default d)) defs → registry_ok r.
Proof.
  intros E Hd. apply registry_with_elems in E as [Hwf He]; [|apply registry_wf_empty].
  split; [done|]. intros key def Hdef. apply bm_get_elem, He in Hdef as [?|(d & Hin & [= _ ->])]; [set_solver|].
  by apply (proj1 (Forall_forall _ _) Hd).
Qed.

(** The values of a rule list fit their knobs. *)
Definition rules_shaped (registry : PolicyRegistry) (rules : list Rule) : Prop :=
  ∀ scope key value def, mk_rule scope (RGrant key value) ∈ rules →
    registry_get registry key = Some def → shaped (kd_kind def) value.

(** * Errors *)

Lemma from_value_order_Ok {A} (m : result ValueOrderError A) a :
  from_value_order m = Ok a ↔ m = Ok a.
Proof. destruct m; cbn; split; congruence. Qed.

(** * One key *)

Section keymap.
Context {VO : ValueOrder}.
Implicit Types (km : GrantKeyMap) (o : ObjectName) (v : KnobValue).

(** What the loop of [value_at] holds after a list of rules. *)
Lemma value_at_loop kind o acc rules v :
  shaped kind acc → Forall (λ r, shaped kind (gr_value r)) rules →
  try_fold (λ acc r,
    if objects_membership (gr_scope r) o
    then from_value_order (join_value kind acc (gr_value r)) else Ok acc) acc rules = Ok v →
  shaped kind v ∧ ∀ x, den kind v x ↔
    den kind acc x ∨ ∃ r, r ∈ rules ∧ in_scope o (gr_scope r) ∧ den kind (gr_value r) x.
Proof.
  intros Hacc Hrs. revert acc Hacc. induction Hrs as [|r rules Hr Hrs IH]; intros acc Hacc; cbn.
  { intros [= <-]. split; [done|]. intros x. split; [by left|]. intros [?|(?&?&_)]; set_solver. }
  destruct (objects_membership (gr_scope r) o) eqn:Eo; cbn.
  - destruct (join_value kind acc (gr_value r)) as [acc'|] eqn:Ej; cbn; [|done].
    apply vo_join in Ej as [Hs Hd]; [|done..]. intros [? Hv]%IH; [|done]. split; [done|].
    intros x. rewrite Hv, Hd. setoid_rewrite elem_of_cons. unfold in_scope.
    split; [intros [[?|?]|(r' & ? & ?)]|intros [?|(r' & [->|?] & ? & ?)]]; eauto 10.
  - intros [? Hv]%IH; [|done]. split; [done|].
    intros x. rewrite Hv. setoid_rewrite elem_of_cons. unfold in_scope.
    split; [intros [?|(r' & ? & ?)]|intros [?|(r' & [->|?] & ? & ?)]]; eauto 10; congruence.
Qed.

Lemma value_at_den km o v : km_wf km → value_at km o = Ok v →
  shaped (km_kind km) v ∧ ∀ x, den (km_kind km) v x ↔ den (km_kind km) (km_default km) x ∨
    ∃ r, r ∈ km_rules km ∧ in_scope o (gr_scope r) ∧ den (km_kind km) (gr_value r) x.
Proof. intros [Hd Hr] E. by eapply value_at_loop. Qed.

Lemma value_at_total km o : km_wf km → km_kind km ≠ KDigest → ∃ v, value_at km o = Ok v.
Proof.
  intros [Hd Hr] Hk. unfold value_at.
  destruct (try_fold_total (shaped (km_kind km)) (λ acc r,
    if objects_membership (gr_scope r) o
    then from_value_order (join_value (km_kind km) acc (gr_value r)) else Ok acc)
    (km_rules km) (km_default km)) as (v & -> & _); [done| |eauto].
  intros acc r Hin Hacc. rewrite Forall_forall in Hr.
  destruct (objects_membership _ _); [|eauto].
  destruct (join_value_total (km_kind km) acc (gr_value r)) as [c Ec]; [auto..|by destruct (km_kind km)|].
  rewrite Ec. exists c. split; [done|]. apply vo_join in Ec as [? _]; auto.
Qed.

(** The value is the least upper bound of the default and the covering rules. *)
Lemma value_at_vle km o v w : km_wf km → value_at km o = Ok v →
  vle (km_kind km) v w ↔ vle (km_kind km) (km_default km) w ∧
    ∀ r, r ∈ km_rules km → in_scope o (gr_scope r) → vle (km_kind km) (gr_value r) w.
Proof.
  intros Hkm E. destruct (value_at_den _ _ _ Hkm E) as [_ Hv]. unfold vle. setoid_rewrite Hv.
  split.
  - intros H. split; [auto|]. intros r Hr Ho x Hx. apply H. right. eauto.
  - intros [H1 H2] x [?|(r & Hr & Ho & Hx)]; [auto|]. by eapply H2.
Qed.

Lemma covers_object_spec km o :
  covers_object km o = true ↔ ∃ r, r ∈ km_rules km ∧ in_scope o (gr_scope r).
Proof. unfold covers_object. by rewrite existsb_elem. Qed.

Lemma covers_object_false km o :
  covers_object km o = false ↔ ∀ r, r ∈ km_rules km → ¬ in_scope o (gr_scope r).
Proof.
  rewrite <-not_true_iff_false, covers_object_spec. split.
  - intros H r Hr Ho. apply H. eauto.
  - intros H (r & Hr & Ho). by eapply H.
Qed.
End keymap.

(** * Scopes of a key *)

Lemma fold_join_in (rs : list GrantRule) acc o :
  in_scope o acc ∨ (∃ r, r ∈ rs ∧ in_scope o (gr_scope r)) →
  in_scope o (fold_left (λ acc r, join acc (gr_scope r)) rs acc).
Proof.
  revert acc. induction rs as [|r rs IH]; intros acc; cbn.
  { intros [?|(? & ? & _)]; [done|set_solver]. }
  intros H. apply IH. destruct H as [?|(r' & [->|?]%elem_of_cons & ?)].
  - left. by apply alg_join_l.
  - left. by apply alg_join_r.
  - right. eauto.
Qed.

Lemma covered_scope_in km o :
  covers_object km o = true → in_scope o (covered_scope km).
Proof. rewrite covers_object_spec. intros H. apply fold_join_in. by right. Qed.

(** The rules of a key that rise above its default. *)
Definition raises (km : GrantKeyMap) (r : GrantRule) : Prop :=
  leq_value (km_kind km) (gr_value r) (km_default km) = Ok false.

#[global] Instance raises_dec km r : Decision (raises km r).
Proof. unfold raises. apply _. Defined.

Lemma granted_scope_loop kind default acc rules s o :
  try_fold (λ acc r,
    below ← from_value_order (leq_value kind (gr_value r) default);
    Ok (if below : bool then acc else join acc (gr_scope r))) acc rules = Ok s →
  in_scope o acc ∨ (∃ r, r ∈ rules ∧ leq_value kind (gr_value r) default = Ok false ∧
    in_scope o (gr_scope r)) → in_scope o s.
Proof.
  revert acc. induction rules as [|r rules IH]; intros acc; cbn.
  { intros [= <-] [?|(? & ? & _)]; [done|set_solver]. }
  destruct (leq_value kind (gr_value r) default) as [below|] eqn:E; cbn; [|done].
  intros Es H. apply (IH _ Es). destruct H as [H|(r' & [->|Hr']%elem_of_cons & Hf & Ho)].
  - left. destruct below; [done|]. by apply alg_join_l.
  - rewrite E in Hf. injection Hf as ->. left. by apply alg_join_r.
  - right. eauto.
Qed.

Lemma granted_scope_in km s o r : granted_scope km = Ok s →
  r ∈ km_rules km → raises km r → in_scope o (gr_scope r) → in_scope o s.
Proof. intros E Hr Hra Ho. eapply granted_scope_loop; [exact E|]. right. eauto. Qed.

Lemma granted_scope_total km : km_wf km → ∃ s, granted_scope km = Ok s.
Proof.
  intros [Hd Hr]. unfold granted_scope. rewrite Forall_forall in Hr.
  destruct (try_fold_total (λ _ : Scope, True) (λ acc r,
    below ← from_value_order (leq_value (km_kind km) (gr_value r) (km_default km));
    Ok (if below : bool then acc else join acc (gr_scope r))) (km_rules km) Nothing)
    as (s & -> & _); [done| |eauto].
  intros acc r Hin _. destruct (vo_leq (km_kind km) (gr_value r) (km_default km)) as (b & -> & _); auto.
  cbn. eauto.
Qed.

(** Where the value of a well-formed map is above the default, a raising rule covers. *)
Lemma value_above_default km o v : km_wf km → value_at km o = Ok v →
  ¬ vle (km_kind km) v (km_default km) ↔
  ∃ r, r ∈ km_rules km ∧ raises km r ∧ in_scope o (gr_scope r).
Proof.
  intros Hkm E. rewrite (value_at_vle km o v _ Hkm E). destruct Hkm as [Hd Hr].
  rewrite Forall_forall in Hr.
  assert (∀ r, r ∈ km_rules km →
    raises km r ↔ ¬ vle (km_kind km) (gr_value r) (km_default km)) as Hra.
  { intros r Hin. unfold raises.
    destruct (vo_leq (km_kind km) (gr_value r) (km_default km)) as (b & -> & <-); auto.
    destruct b; split; congruence. }
  split.
  - intros Hn. destruct (decide (Exists (λ r, raises km r ∧ in_scope o (gr_scope r)) (km_rules km)))
      as [(r & ? & ? & ?)%Exists_exists|Hne]; [eauto|].
    destruct Hn. split; [done|]. intros r Hin Ho.
    destruct (vo_leq (km_kind km) (gr_value r) (km_default km)) as (b & Eb & Hb); auto.
    apply Hb. destruct b; [done|]. destruct Hne. apply Exists_exists. eauto.
  - intros (r & Hin & Hr' & Ho) [_ H]. apply Hra in Hr'; auto.
Qed.

(** * Building a model *)

Definition grant_for (key : KnobKey) (r : Rule) : option GrantRule :=
  match ru_kind r with
  | RGrant k value => if bool_decide (k = key) then Some (mk_grant (ru_scope r) value) else None
  | _ => None
  end.
(** The grant rules on a key, in document order. *)
Definition grants_for (key : KnobKey) (rules : list Rule) : list GrantRule := omap (grant_for key) rules.

Lemma grants_for_cons key r rules : grants_for key (r :: rules) =
  match grant_for key r with Some g => g :: grants_for key rules | None => grants_for key rules end.
Proof. done. Qed.

Definition extend_map (o : option GrantKeyMap) (def : option KnobDef) (rs : list GrantRule) :
    option GrantKeyMap :=
  match o, rs with
  | Some km, _ => Some (mk_keymap (km_kind km) (km_default km) (km_rules km ++ rs))
  | None, [] => None
  | None, _ => (λ d, mk_keymap (kd_kind d) (kd_default d) rs) <$> def
  end.

Lemma extend_map_nil o def : extend_map o def [] = o.
Proof. destruct o as [[]|]; cbn; [by rewrite app_nil_r|done]. Qed.

Lemma build_loop registry rules acc keys : bm_wf acc →
  try_fold (λ keys rule,
    match ru_kind rule with
    | RGrant key value =>
        def ← lookup registry key;
        Ok (bm_entry key (mk_keymap (kd_kind def) (kd_default def) [])
              (push_rule (mk_grant (ru_scope rule) value)) keys)
    | _ => Ok keys
    end) acc rules = Ok keys →
  bm_wf keys ∧ ∀ key, bm_get key keys =
    extend_map (bm_get key acc) (registry_get registry key) (grants_for key rules).
Proof.
  revert acc. induction rules as [|r rules IH]; intros acc Hacc; cbn [try_fold].
  { intros [= <-]. split; [done|]. intros key. by rewrite extend_map_nil. }
  setoid_rewrite grants_for_cons. unfold grant_for at 1.
  destruct (ru_kind r) as [k v| | |] eqn:Ek; cbn [mbind result_bind];
    [|by apply IH..].
  unfold lookup. destruct (registry_get registry k) as [def|] eqn:Ed; cbn; [|done].
  intros [? H]%IH; [|by apply bm_entry_wf]. split; [done|]. intros key. rewrite H. clear H.
  case_bool_decide as Ekey.
  - subst key. rewrite bm_get_entry_eq, Ed by done.
    destruct (bm_get k acc) as [km|]; cbn; by rewrite <-?app_assoc.
  - by rewrite bm_get_entry_ne.
Qed.

Lemma build_get registry rules m : grant_model_build rules registry = Ok m →
  bm_wf (gm_keys m) ∧ ∀ key, bm_get key (gm_keys m) =
    extend_map None (registry_get registry key) (grants_for key rules).
Proof.
  unfold grant_model_build. destruct (try_fold _ _ _) as [keys|] eqn:E; cbn; [|done].
  intros [= <-]. apply build_loop in E; [done|constructor].
Qed.

Lemma elem_of_grants_for key rules r : r ∈ grants_for key rules ↔
  mk_rule (gr_scope r) (RGrant key (gr_value r)) ∈ rules.
Proof.
  unfold grants_for. rewrite list_elem_of_omap. unfold grant_for. split.
  - intros ([sc kd] & Hin & E). cbn in E. destruct kd; try done.
    case_bool_decide; [|done]. injection E as <-. by subst.
  - intros Hin. eexists. split; [exact Hin|]. cbn. rewrite bool_decide_eq_true_2 by done.
    by destruct r.
Qed.

Lemma build_wf registry rules m :
  registry_ok registry → rules_shaped registry rules → grant_model_build rules registry = Ok m →
  ∀ key km, bm_get key (gm_keys m) = Some km → km_of registry key km ∧ km_wf km.
Proof.
  intros [_ Hdef] Hsh [_ Hget]%build_get key km. rewrite Hget. unfold extend_map.
  destruct (grants_for key rules) as [|r rs] eqn:Eg; [done|].
  destruct (registry_get registry key) as [def|] eqn:Ed; [|done]. intros [= <-]. split.
  - by exists def.
  - split; cbn [km_kind km_default km_rules]; [by eapply Hdef|]. apply Forall_forall.
    intros r' Hr'. rewrite <-Eg in Hr'. apply elem_of_grants_for in Hr'. by eapply Hsh.
Qed.

Lemma layer_from_doc_wf registry tag doc l :
  registry_ok registry → rules_shaped registry (pd_rules doc) →
  layer_from_doc tag doc registry = Ok l → layer_wf registry l.
Proof.
  intros Hr Hs. unfold layer_from_doc.
  destruct (grant_model_build _ _) as [m|] eqn:E; cbn; [|done]. intros [= <-]. split; cbn.
  - by apply build_get in E as [? _].
  - intros key km. by apply (build_wf registry (pd_rules doc)).
Qed.

(** * The layered query *)

(** The map of the first layer that covers the object. *)
Fixpoint deciding (layers : list Layer) (key : KnobKey) (o : ObjectName) : option GrantKeyMap :=
  match layers with
  | [] => None
  | l :: layers' =>
      match layer_get key l with
      | Some km => if covers_object km o then Some km else deciding layers' key o
      | None => deciding layers' key o
      end
  end.

Lemma grants_deciding registry layers key o :
  grants_layers registry layers key o =
    match deciding layers key o with
    | Some km => result_ok (value_at km o)
    | None => kd_default <$> registry_get registry key
    end.
Proof.
  induction layers as [|l layers IH]; cbn; [done|].
  destruct (layer_get key l) as [km|]; [|done]. by destruct (covers_object km o).
Qed.

Lemma deciding_layer layers key o km : deciding layers key o = Some km →
  ∃ l, l ∈ layers ∧ layer_get key l = Some km.
Proof.
  induction layers as [|l layers IH]; cbn; [done|].
  destruct (layer_get key l) as [km'|] eqn:E; [destruct (covers_object km' o)|].
  - intros [= ->]. exists l. split; [left|done].
  - intros (l' & ? & ?)%IH. exists l'. split; [by right|done].
  - intros (l' & ? & ?)%IH. exists l'. split; [by right|done].
Qed.

Lemma deciding_wf registry layers key o km :
  Forall (layer_wf registry) layers → deciding layers key o = Some km →
  km_of registry key km ∧ km_wf km ∧ covers_object km o = true.
Proof.
  induction 1 as [|l layers [_ Hl] _ IH]; cbn; [done|].
  destruct (layer_get key l) as [km'|] eqn:El; [|done].
  destruct (covers_object km' o) eqn:Ec; [|done]. intros [= ->].
  destruct (Hl _ _ El). done.
Qed.

Section layered.
Context (registry : PolicyRegistry) (key : KnobKey) (def : KnobDef).
Context (Hreg : registry_ok registry) (Hdef : registry_get registry key = Some def).

Lemma grants_layers_shaped layers o v : Forall (layer_wf registry) layers →
  grants_layers registry layers key o = Some v →
  shaped (kd_kind def) v ∧ vle (kd_kind def) (kd_default def) v.
Proof.
  intros Hl. rewrite grants_deciding. destruct (deciding layers key o) as [km|] eqn:E.
  - destruct (deciding_wf _ _ _ _ _ Hl E) as ((d & Hd & Hk & Hdf) & Hkm & _).
    assert (d = def) as -> by congruence.
    destruct (value_at km o) as [w|] eqn:Ev; [|done]. intros [= <-].
    pose proof (value_at_vle km o w w Hkm Ev) as [Hle _].
    apply value_at_den in Ev as [? _]; [|done]. rewrite <-Hk, <-Hdf. split; [done|].
    by apply Hle.
  - rewrite Hdef. intros [= <-]. split; [by eapply ro_default|done].
Qed.

(** A key whose values have joins always has a value. *)
Lemma grants_layers_total layers o : Forall (layer_wf registry) layers → kd_kind def ≠ KDigest →
  ∃ v, grants_layers registry layers key o = Some v.
Proof.
  intros Hl Hk. rewrite grants_deciding. destruct (deciding layers key o) as [km|] eqn:E.
  - destruct (deciding_wf _ _ _ _ _ Hl E) as ((d & Hd & Hkk & Hdf) & Hkm & _).
    assert (d = def) as -> by congruence.
    destruct (value_at_total km o) as [v ->]; [done|congruence|]. by exists v.
  - rewrite Hdef. by eexists.
Qed.
End layered.

(** The value a layer gives an object is the least upper bound of the knob's
    default and of the layer's rules covering the object, and a layered policy
    answers with the value of its first covering layer, or the default. *)
Theorem grants_first_covering_layer (registry : PolicyRegistry) (layers : list Layer)
    (key : KnobKey) (def : KnobDef) (o : ObjectName) :
  registry_ok registry → Forall (layer_wf registry) layers →
  registry_get registry key = Some def → kd_kind def ≠ KDigest →
  ∃ v, grants (mk_policy registry layers) key o = Some v ∧ shaped (kd_kind def) v ∧
    match deciding layers key o with
    | Some km => ∀ w, vle (kd_kind def) v w ↔ vle (kd_kind def) (kd_default def) w ∧
        ∀ r, r ∈ km_rules km → in_scope o (gr_scope r) → vle (kd_kind def) (gr_value r) w
    | None => v = kd_default def
    end.
Proof.
  intros Hreg Hl Hdef Hk.
  destruct (grants_layers_total registry key def Hdef layers o Hl Hk) as [v Hv]. exists v.
  split; [done|]. split; [by eapply grants_layers_shaped|].
  rewrite grants_deciding in Hv. destruct (deciding layers key o) as [km|] eqn:E.
  - destruct (deciding_wf _ _ _ _ _ Hl E) as ((d & Hd & Hkk & Hdf) & Hkm & _).
    assert (d = def) as -> by congruence. destruct (value_at km o) as [v'|] eqn:Ev; [|done].
    injection Hv as ->. intros w. rewrite <-Hkk, <-Hdf. by apply value_at_vle.
  - rewrite Hdef in Hv. by injection Hv as <-.
Qed.

(** * Region summaries *)

Lemma granted_scope_All km : granted_scope km = Ok All →
  ∃ r, r ∈ km_rules km ∧ raises km r ∧ gr_scope r = All.
Proof.
  unfold granted_scope, raises. intros E.
  assert (∀ acc rules, try_fold (λ acc r,
    below ← from_value_order (leq_value (km_kind km) (gr_value r) (km_default km));
    Ok (if below : bool then acc else join acc (gr_scope r))) acc rules = Ok All →
    acc = All ∨ ∃ r, r ∈ rules ∧
      leq_value (km_kind km) (gr_value r) (km_default km) = Ok false ∧ gr_scope r = All) as H.
  { intros acc rules. revert acc. induction rules as [|r rules IH]; intros acc; cbn.
    { intros [= ->]. by left. }
    destruct (leq_value _ (gr_value r) _) as [below|] eqn:El; cbn; [|done].
    intros [Ha|(r' & ? & ?)]%IH; [|right; exists r'; split; [by right|done]].
    destruct below; [by left|]. apply join_All in Ha as [?|?]; [by left|].
    right. exists r. split; [left|done]. }
  destruct (H _ _ E) as [?|?]; done.
Qed.

Lemma effective_scope_loop_All layers key acc ex masked :
  effective_scope_loop layers key acc ex masked = Ok (All, Exact) →
  ex = Exact ∧ (acc = All ∨
    ((∀ o, ¬ in_scope o masked) ∧ ∀ o, ∃ km, deciding layers key o = Some km ∧
      granted_scope km = Ok All)).
Proof.
  revert acc ex masked. induction layers as [|l layers IH]; intros acc ex masked; cbn.
  { intros [= -> ->]. auto. }
  destruct (layer_get key l) as [km|]; [|apply IH].
  destruct (granted_scope km) as [granted|] eqn:Eg; cbn; [|done].
  destruct (difference granted masked) as [visible|] eqn:Ed; intros [Hex H]%IH; [|done].
  split; [done|]. destruct H as [[?| ->]%join_All|[Hm Hd]]; [by left| |].
  - apply difference_All in Ed as [-> ->]. right. split; [done|]. intros o. exists km.
    rewrite (proj2 (covers_object_spec km o)); [done|].
    destruct (granted_scope_All km Eg) as (r & Hr & _ & Es). exists r. by rewrite Es.
  - right. split.
    + intros o Ho. by eapply Hm, alg_join_l.
    + intros o. destruct (covers_object km o) eqn:Ec; [|done].
      destruct (Hm o). by apply alg_join_r, covered_scope_in.
Qed.

(** A [Top] region is never claimed falsely: every object whatever has a value
    above the knob's default. *)
Theorem grant_region_top_sound (registry : PolicyRegistry) (layers : list Layer)
    (key : KnobKey) (o : ObjectName) :
  Forall (layer_wf registry) layers → grant_region (mk_policy registry layers) key = Top →
  ∃ def, registry_get registry key = Some def ∧
    (kd_kind def ≠ KDigest → ∃ v, grants (mk_policy registry layers) key o = Some v ∧
       ¬ vle (kd_kind def) v (kd_default def)).
Proof.
  intros Hl. unfold grant_region, effective_granted_scope, grants. cbn.
  destruct (effective_scope_loop layers key Nothing Exact Nothing) as [[s ex]|] eqn:E; [|done].
  destruct s, ex; try done. intros _.
  apply effective_scope_loop_All in E as [_ [?|[_ Hd]]]; [done|].
  destruct (Hd o) as (km & Hkm & Hg). rewrite grants_deciding, Hkm.
  destruct (deciding_wf _ _ _ _ _ Hl Hkm) as ((def & Hdef & Hk & Hdf) & Hwf & _).
  exists def. split; [done|]. intros Hnd. destruct (value_at_total km o) as [v Hv]; [done|congruence|].
  rewrite Hv. exists v. split; [done|]. rewrite <-Hk, <-Hdf.
  apply (value_above_default km o v Hwf Hv).
  destruct (granted_scope_All km Hg) as (r & Hr & Hra & Es). exists r. by rewrite Es.
Qed.

(** ** [Ungranted] *)

Definition plain (s : Scope) : Prop := excludes s = [].
Definition layer_plain (key : KnobKey) (l : Layer) : Prop :=
  ∀ km r, layer_get key l = Some km → r ∈ km_rules km → plain (gr_scope r).

Lemma plain_normalize inc : plain (scope_normalize (Of inc [])).
Proof. unfold plain, scope_normalize. case_bool_decide; [done|]. cbn zeta. by case_bool_decide. Qed.

Lemma join_plain a b : plain a → plain b → plain (join a b).
Proof.
  destruct a as [| |ai ae], b as [| |bi be]; unfold join; try done.
  unfold plain at 1. cbn [excludes]. intros -> _. apply plain_normalize.
Qed.

Lemma join_plain_in a b o : plain a → plain b → in_scope o (join a b) → in_scope o a ∨ in_scope o b.
Proof.
  intros Ha Hb. intros [?|[?|[Hi|Hi]]]%in_scope_join_includes; [by left|by right|left|right].
  - destruct a; cbn in *; try (by apply in_patterns_nil in Hi). unfold plain in Ha. cbn in Ha. subst.
    apply in_scope_Of. split; [done|apply not_in_patterns_nil].
  - destruct b; cbn in *; try (by apply in_patterns_nil in Hi). unfold plain in Hb. cbn in Hb. subst.
    apply in_scope_Of. split; [done|apply not_in_patterns_nil].
Qed.

Lemma covered_scope_plain km :
  (∀ r, r ∈ km_rules km → plain (gr_scope r)) →
  plain (covered_scope km) ∧
  ∀ o, in_scope o (covered_scope km) → covers_object km o = true.
Proof.
  intros Hp. unfold covered_scope. setoid_rewrite covers_object_spec.
  assert (∀ rs acc, (∀ r, r ∈ rs → plain (gr_scope r)) → plain acc →
    plain (fold_left (λ acc r, join acc (gr_scope r)) rs acc) ∧
    ∀ o, in_scope o (fold_left (λ acc r, join acc (gr_scope r)) rs acc) →
      in_scope o acc ∨ ∃ r, r ∈ rs ∧ in_scope o (gr_scope r)) as H.
  { induction rs as [|r rs IH]; intros acc Hrs Hacc; cbn; [auto|].
    destruct (IH (join acc (gr_scope r))) as [H1 H2]; [set_solver|apply join_plain; set_solver|].
    split; [done|]. intros o Ho. apply H2 in Ho as [Ho|(r' & ? & ?)].
    - apply join_plain_in in Ho as [?|?]; [by left| |done|apply Hrs; left].
      right. exists r. split; [left|done].
    - right. exists r'. split; [by right|done]. }
  destruct (H (km_rules km) Nothing) as [H1 H2]; [done..|]. split; [done|].
  intros o [?|?]%H2; done.
Qed.

Lemma effective_scope_loop_in layers key acc ex masked s e o :
  (∀ l, l ∈ layers → layer_plain key l) → plain masked →
  effective_scope_loop layers key acc ex masked = Ok (s, e) →
  in_scope o acc ∨ (¬ in_scope o masked ∧ ∃ km r, deciding layers key o = Some km ∧
    r ∈ km_rules km ∧ raises km r ∧ in_scope o (gr_scope r)) →
  in_scope o s.
Proof.
  revert acc ex masked. induction layers as [|l layers IH]; intros acc ex masked Hp Hm; cbn.
  { intros [= -> _] [?|(_ & ? & ? & ? & _)]; done. }
  assert (∀ l', l' ∈ layers → layer_plain key l') as Hp' by (intros; apply Hp; by right).
  destruct (layer_get key l) as [km|] eqn:El; [|by apply IH].
  destruct (granted_scope km) as [granted|] eqn:Eg; cbn; [|done].
  destruct (covered_scope_plain km) as [Hcp Hcov].
  { intros r Hr. apply (Hp l) with km; [left|done|done]. }
  assert (∃ visible ex', match difference granted masked with
    | DScope s => (s, ex) | NotRepresentable => (granted, Widened) end = (visible, ex') ∧
    (in_scope o granted → ¬ in_scope o masked → in_scope o visible)) as (vis & ex' & -> & Hvis).
  { destruct (difference granted masked) as [vis|] eqn:Ed; eexists _, _; (split; [done|]); [|done].
    intros ??. by eapply alg_difference. }
  intros E H. apply (IH _ _ _ Hp' (join_plain _ _ Hm Hcp) E). clear E IH.
  destruct H as [?|(Ho & km' & r & Hkm & Hr & Hra & Hin)]; [left; by apply alg_join_l|].
  destruct (covers_object km o) eqn:Ec.
  - injection Hkm as ->. left. apply alg_join_r, Hvis; [|done]. by eapply granted_scope_in.
  - right. split; [|by eauto 10]. intros [?|?%Hcov]%join_plain_in; [done|congruence|done..].
Qed.

Lemma effective_scope_loop_total registry layers key acc ex masked :
  Forall (layer_wf registry) layers →
  ∃ s e, effective_scope_loop layers key acc ex masked = Ok (s, e).
Proof.
  intros Hl. revert acc ex masked. induction Hl as [|l layers [_ Hl] _ IH]; intros; cbn; [eauto|].
  destruct (layer_get key l) as [km|] eqn:El; [|apply IH]. destruct (Hl _ _ El) as [_ Hkm].
  destruct (granted_scope_total km Hkm) as [s ->]. cbn. destruct (difference s masked); apply IH.
Qed.

(** When the rules on a key carry no excludes, an [Ungranted] region is truthful:
    the key is above its default nowhere. *)
Theorem grant_region_ungranted_sound (registry : PolicyRegistry) (layers : list Layer)
    (key : KnobKey) (def : KnobDef) (o : ObjectName) (v : KnobValue) :
  Forall (layer_wf registry) layers → (∀ l, l ∈ layers → layer_plain key l) →
  registry_get registry key = Some def →
  grant_region (mk_policy registry layers) key = Ungranted →
  grants (mk_policy registry layers) key o = Some v → vle (kd_kind def) v (kd_default def).
Proof.
  intros Hl Hp Hdef. unfold grant_region, effective_granted_scope, grants. cbn.
  destruct (effective_scope_loop_total registry layers key Nothing Exact Nothing Hl) as (s & e & E).
  rewrite E. intros Hu. assert (s = Nothing) as -> by (destruct s, e; done). clear Hu.
  rewrite grants_deciding. destruct (deciding layers key o) as [km|] eqn:Ed.
  - destruct (deciding_wf _ _ _ _ _ Hl Ed) as ((d & Hd & Hk & Hdf) & Hwf & _).
    assert (d = def) as -> by congruence.
    destruct (value_at km o) as [w|] eqn:Ev; [|done]. intros [= ->]. rewrite <-Hk, <-Hdf.
    apply (value_at_vle km o v _ Hwf Ev). split; [done|]. intros r Hr Ho.
    destruct Hwf as [Hd' Hrs]. rewrite Forall_forall in Hrs.
    destruct (vo_leq (km_kind km) (gr_value r) (km_default km)) as ([] & Eb & Hb); auto.
    { by apply Hb. }
    exfalso. cut (in_scope o Nothing); [done|].
    refine (effective_scope_loop_in _ _ _ _ _ _ _ o Hp _ E _); [done|]. right. split; [done|]. eauto 10.
  - rewrite Hdef. by intros [= <-].
Qed.

Lemma one_key_layer_wf registry tag key def rs req inj val :
  registry_get registry key = Some def → shaped (kd_kind def) (kd_default def) →
  Forall (λ r, shaped (kd_kind def) (gr_value r)) rs →
  layer_wf registry
    (mk_layer tag (mk_model [(key, mk_keymap (kd_kind def) (kd_default def) rs)]) req inj val).
Proof.
  intros Hdef Hd Hrs. split; [repeat constructor|]. intros k km. unfold layer_get. cbn.
  destruct (cmp k key) eqn:E; try done. apply cmp_eq in E as ->. intros [= <-].
  split; [by exists def|done].
Qed.

(** A charter grants [app_x]; a draft layer denies [app_*] except [app_x], and [web]. *)
Definition raw_sql_def : KnobDef :=
  mk_def (lit "sql.raw") KBool Grant (VBool false) Enforced PerSchema false true [].
Definition masked_registry : PolicyRegistry := [(lit "sql.raw", raw_sql_def)].
Definition masked_layers : list Layer :=
  let layer tag rs :=
    mk_layer tag (mk_model [(lit "sql.raw", mk_keymap KBool (VBool false) rs)]) [] [] [] in
  let app g := pattern_schema g in
  [layer Draft
     [mk_grant (Of [app (seg_infix (lit "app_") [])] [app (seg_literal (lit "app_x"))]) (VBool false);
      mk_grant (Of [app (seg_literal (lit "web"))] []) (VBool false)];
   layer Base [mk_grant (Of [app (seg_literal (lit "app_x"))] []) (VBool true)]].

(** With excludes [Ungranted] is not truthful: the mask of the layers above is
    joined upward, a hole in it is lost, and a grant that shows through the hole is
    reported as no grant at all. *)
Theorem grant_region_ungranted_unsound :
  Forall (layer_wf masked_registry) masked_layers ∧
  grant_region (mk_policy masked_registry masked_layers) (lit "sql.raw") = Ungranted ∧
  grants (mk_policy masked_registry masked_layers) (lit "sql.raw") (object_schema (lit "app_x"))
    = Some (VBool true).
Proof.
  split; [|split; vm_compute; reflexivity]. apply Forall_cons; split; [|apply Forall_singleton];
    (apply (one_key_layer_wf _ _ _ raw_sql_def); [reflexivity|exact I|repeat constructor]).
Qed.
