(* ===== verification/Charter.v ===== *)
(** The trusted side of composition, the second half of [compose.rs]: inject and
    validate collisions, the charter combinators [overlay] and [restrict], the
    [finalize_charter] gate and the creatable-escape check. *)

From S2P Require Export GrantsFacts.

Definition CREATE_TABLE_KEY : bytes := lit "schema.create_table".

(** * Trusted documents *)

Record TrustedDoc := mk_trusted { td_doc : PolicyDoc }.
Record RootCharter := mk_root { rc_doc : TrustedDoc }.
Definition root_doc (c : RootCharter) : PolicyDoc := td_doc (rc_doc c).

(** * Rendering for diagnostics *)

Definition render_pattern (p : Pattern) : bytes :=
  seg_render (pt_schema p) ++ lit "." ++ seg_render (pt_table p).

Definition render_scope (s : Scope) : bytes :=
  match s with
  | Nothing => lit "∅"
  | All => lit "*.*"
  | Of include exclude =>
      let inc := map render_pattern include in
      if bool_decide (exclude = []) then join_with (lit ",") inc
      else join_with (lit ",") inc ++ lit " \ " ++ join_with (lit ",") (map render_pattern exclude)
  end.

(** * Collisions *)

Definition inject_columns_diverge (a b : InjectColumn) : bool :=
  negb (bool_decide (ic_ty a = ic_ty b))
  || negb (bool_decide (ic_nullable a = ic_nullable b))
  || negb (bool_decide (ic_default a = ic_default b))
  || negb (bool_decide (ic_collation a = ic_collation b))
  || negb (bool_decide (ic_assign a = ic_assign b)).

Definition inject_column_conflict (a b : InjectSpec) : option Detail :=
  find_map (λ ca, find_map (λ cb,
    if names_match (ic_name ca) (ic_name cb) && inject_columns_diverge ca cb
    then Some (ColumnDivergent (ic_name ca)) else None) (is_columns b)) (is_columns a).

Definition inject_pk_conflict (a b : InjectSpec) : option Detail :=
  match is_primary_key a, is_primary_key b with
  | Some pa, Some pb =>
      if bool_decide (pa = pb) then
        if bool_decide (is_author_primary_key a = is_author_primary_key b) then None
        else Some PkPolicyDivergent
      else Some (PkDivergent pa pb)
  | _, _ => None
  end.

Definition inject_index_conflict (a b : InjectSpec) : option Detail :=
  find_map (λ ia, find_map (λ ib,
    if names_match (ix_name ia) (ix_name ib) && negb (bool_decide (ix_columns ia = ix_columns ib))
    then Some (IndexDivergent (ix_name ia)) else None) (is_indexes b)) (is_indexes a).

(** Column shapes first, then index columns, then the primary keys. *)
Definition inject_specs_collide (a b : InjectSpec) : option Detail :=
  match find_map (λ ca, find_map (λ cb,
    if names_match (ic_name ca) (ic_name cb) && inject_columns_diverge ca cb
    then Some (ColumnDivergent (ic_name ca)) else None) (is_columns b)) (is_columns a) with
  | Some d => Some d
  | None =>
      match find_map (λ ia, find_map (λ ib,
        if names_match (ix_name ia) (ix_name ib) && negb (bool_decide (ix_columns ia = ix_columns ib))
        then Some (IndexDivergent (ix_name ia)) else None) (is_indexes b)) (is_indexes a) with
      | Some d => Some d
      | None =>
          match is_primary_key a, is_primary_key b with
          | Some pa, Some pb =>
              if bool_decide (pa = pb) then
                if bool_decide (is_author_primary_key a = is_author_primary_key b) then None
                else Some PkPolicyDivergent
              else Some (PkDivergent pa pb)
          | _, _ => None
          end
      end
  end.

Definition check_inject_collisions (charter_injects draft_injects : list Rule) :
    result ComposeError unit :=
  try_for (λ l,
    match ru_kind l with
    | RInject ls =>
        try_for (λ r,
          match ru_kind r with
          | RInject rs =>
              if is_nothing (meet (ru_scope l) (ru_scope r)) then Ok tt
              else match inject_specs_collide ls rs with
                   | Some detail => Err (DraftInjectCollidesCharter detail)
                   | None => Ok tt
                   end
          | _ => Ok tt
          end) draft_injects
    | _ => Ok tt
    end) charter_injects.

(** The first injected column a [ForbiddenColumns] predicate names. *)
Definition forbidden_column (spec : InjectSpec) (pred : ValidatePredicate) : option bytes :=
  match pred with
  | ForbiddenColumns names =>
      find_map (λ col, find_map (λ forbidden,
        if names_match (ic_name col) forbidden then Some (ic_name col) else None) names)
        (is_columns spec)
  | _ => None
  end.

Definition check_validate_vs_inject (charter_injects draft_validates : list Rule) :
    result ComposeError unit :=
  try_for (λ inj,
    match ru_kind inj with
    | RInject spec =>
        try_for (λ val,
          match ru_kind val with
          | RValidate pred =>
              if is_nothing (meet (ru_scope inj) (ru_scope val)) then Ok tt
              else match forbidden_column spec pred with
                   | Some col => Err (DraftValidateContradictsCharterInject (DraftForbidsColumn col))
                   | None => Ok tt
                   end
          | _ => Ok tt
          end) draft_validates
    | _ => Ok tt
    end) charter_injects.

(** * Creatable escape *)

Definition unrepresentable_creatable : bytes := lit "<unrepresentable creatable scope>".

Definition creatable_of (layers : list Layer) (create_key : KnobKey) : option Scope :=
  opt_fold (λ creatable layer,
    match layer_get create_key layer with
    | Some km => granted ← result_ok (granted_scope km); Some (join creatable granted)
    | None => Some creatable
    end) Nothing layers.

Definition creatable_escape_scope (layers : list Layer) : option bytes :=
  match knob_key_parse CREATE_TABLE_KEY with
  | Err _ => None
  | Ok create_key =>
      match creatable_of layers create_key with
      | None => Some unrepresentable_creatable
      | Some creatable =>
          if is_nothing creatable then None
          else find_map (λ layer, find_map (λ rule,
                 match ru_kind rule with
                 | RInject spec =>
                     if negb (is_mandatory spec) then None
                     else if negb (subset creatable (ru_scope rule))
                          then Some (render_scope (ru_scope rule)) else None
                 | _ => None
                 end) (l_injects layer)) layers
      end
  end.

Definition check_creatable_escape (p : EffectivePolicy) : result ComposeError unit :=
  match creatable_escape_scope (ep_layers p) with
  | None => Ok tt
  | Some inject_scope => Err (CreatableEscapesMandatoryInject inject_scope)
  end.

(** * Conflicting injects *)

(** A test of every pair of a list, the earlier rule first. *)
Fixpoint first_pair {B} (f : Rule → Rule → option B) (l : list Rule) : option B :=
  match l with
  | [] => None
  | a :: rest =>
      match find_map (f a) rest with
      | Some b => Some b
      | None => first_pair f rest
      end
  end.

Definition same_layer_inject_conflict (layers : list Layer) : option Detail :=
  find_map (λ layer, first_pair (λ first second,
    match ru_kind first, ru_kind second with
    | RInject first_spec, RInject second_spec =>
        if is_nothing (meet (ru_scope first) (ru_scope second)) then None
        else match inject_column_conflict first_spec second_spec with
             | Some detail => Some detail
             | None =>
                 match inject_pk_conflict first_spec second_spec with
                 | Some detail => Some detail
                 | None => inject_index_conflict first_spec second_spec
                 end
             end
    | _, _ => None
    end) (l_injects layer)) layers.

Definition check_same_layer_inject_conflicts (p : EffectivePolicy) : result ComposeError unit :=
  match same_layer_inject_conflict (ep_layers p) with
  | None => Ok tt
  | Some detail => Err (CharterInjectCollision detail)
  end.

(** * Charters *)

Record AssembledCharter := mk_assembled { ac_registry : PolicyRegistry; ac_layers : list Layer }.
Record Charter := mk_charter { ch_registry : PolicyRegistry; ch_layers : list Layer }.

Inductive FinalizeError :=
  | CharterInjectColumnConflict (detail : Detail)
  | CharterPrimaryKeyConflict (detail : Detail)
  | CharterIndexNameConflict (detail : Detail)
  | CharterInjectValidateContradiction (detail : Detail)
  | CharterCreatableEscapes (inject_scope : bytes).

Definition check_charter_creatable_lint (assembled : AssembledCharter) : result FinalizeError unit :=
  match creatable_escape_scope (ac_layers assembled) with
  | None => Ok tt
  | Some inject_scope => Err (CharterCreatableEscapes inject_scope)
  end.

Definition finalize_pair (a b : Rule) : option FinalizeError :=
  match ru_kind a, ru_kind b with
  | RInject sa, RInject sb =>
      if is_nothing (meet (ru_scope a) (ru_scope b)) then None
      else match inject_column_conflict sa sb with
           | Some detail => Some (CharterInjectColumnConflict detail)
           | None =>
               match inject_pk_conflict sa sb with
               | Some detail => Some (CharterPrimaryKeyConflict detail)
               | None => CharterIndexNameConflict <$> inject_index_conflict sa sb
               end
           end
  | _, _ => None
  end.

Definition finalize_contradiction (inj val : Rule) : option FinalizeError :=
  match ru_kind inj, ru_kind val with
  | RInject spec, RValidate pred =>
      if is_nothing (meet (ru_scope inj) (ru_scope val)) then None
      else (λ col, CharterInjectValidateContradiction (CharterForbidsColumn col))
             <$> forbidden_column spec pred
  | _, _ => None
  end.

Definition finalize_charter (assembled : AssembledCharter) : result FinalizeError Charter :=
  let injects := concat (map l_injects (ac_layers assembled)) in
  let validates := concat (map l_validates (ac_layers assembled)) in
  match first_pair finalize_pair injects with
  | Some e => Err e
  | None =>
      match find_map (λ inj, find_map (finalize_contradiction inj) validates) injects with
      | Some e => Err e
      | None =>
          _ ← check_charter_creatable_lint assembled;
          Ok (mk_charter (ac_registry assembled) (ac_layers assembled))
      end
  end.

(** * The trusted combinators *)

Definition overlay (base over : TrustedDoc) (registry : PolicyRegistry) :
    result ComposeError AssembledCharter :=
  base_layer ← layer_from_doc Base (td_doc base) registry;
  over_layer ← layer_from_doc Env (td_doc over) registry;
  Ok (mk_assembled registry [over_layer; base_layer]).

Definition clamp_grant_key (key : KnobKey) (outer inner : GrantModel) (registry : PolicyRegistry) :
    result ComposeError GrantKeyMap :=
  def ← lookup registry key;
  match grant_model_get outer key, grant_model_get inner key with
  | Some ok, Some ik =>
      rules ← try_fold (λ rules orule,
        try_fold (λ rules irule,
          let scope := meet (gr_scope orule) (gr_scope irule) in
          if is_nothing scope then Ok rules
          else
            value ← from_value_order (meet_value (kd_kind def) (gr_value orule) (gr_value irule));
            Ok (rules ++ [mk_grant scope value])) rules (km_rules ik)) [] (km_rules ok);
      Ok (mk_keymap (kd_kind def) (kd_default def) rules)
  | _, _ => Ok (mk_keymap (kd_kind def) (kd_default def) [])
  end.

Definition restrict (outer inner : TrustedDoc) (registry : PolicyRegistry) :
    result ComposeError AssembledCharter :=
  let orules := pd_rules (td_doc outer) in
  let irules := pd_rules (td_doc inner) in
  og ← grant_model_build orules registry;
  ig ← grant_model_build irules registry;
  clamped_grants ← try_fold (λ acc key,
    km ← clamp_grant_key key og ig registry;
    Ok (if bool_decide (km_rules km = []) then acc else bm_insert key km acc)) [] (key_union og ig);
  Ok (mk_assembled registry
       [mk_layer Base (mk_model clamped_grants)
          (rules_of orules is_require ++ rules_of irules is_require)
          (rules_of orules is_inject ++ rules_of irules is_inject)
          (rules_of orules is_validate ++ rules_of irules is_validate)]).

(** * Finalized charters *)

(** The charters a draft may be admitted against; an assembled one is not among them. *)
Class AdmitCharter (C : Type) :=
  charter_layers : C → PolicyRegistry → result ComposeError (list Layer).

#[global] Instance root_admit : AdmitCharter RootCharter := λ c registry,
  l ← layer_from_doc Base (root_doc c) registry; Ok [l].
#[global] Instance charter_admit : AdmitCharter Charter := λ c _, Ok (ch_layers c).
#[global] Instance policy_admit : AdmitCharter EffectivePolicy := λ p _, Ok (ep_layers p).

(** * Witness objects *)

Definition seg_witness (g : SegGlob) : bytes :=
  let w := List.filter (λ b, negb (bool_decide (b = "*"%byte))) (seg_render g) in
  if bool_decide (w = []) then lit "a" else w.

Definition pattern_witness (p : Pattern) : ObjectName :=
  if is_star (pt_table p) then object_schema (seg_witness (pt_schema p))
  else object_table (seg_witness (pt_schema p)) (seg_witness (pt_table p)).

Definition witness_of (s : Scope) : option ObjectName :=
  match s with
  | Nothing => None
  | All => Some (object_schema (lit "a"))
  | Of include _ =>
      find_map (λ p,
        let cand := pattern_witness p in
        if objects_membership s cand then Some cand
        else
          let tcand := object_table (on_schema cand) (lit "a") in
          if objects_membership s tcand then Some tcand else None) include
  end.
