(* ===== verification/CharterFacts.v ===== *)
(** What the charter gates and combinators guarantee: a finalized charter injects
    without conflict, mandatory injects cover whatever can be created, [overlay] lets
    the upper layer win by presence, and [restrict] is the pointwise meet. *)

From S2P Require Export Charter.

(** * Search loops *)

Lemma first_pair_none {B} (f : Rule → Rule → option B) l :
  first_pair f l = None ↔ ForallOrdPairs (λ a b, f a b = None) l.
Proof.
  induction l as [|a l IH]; cbn; [split; [constructor|done]|].
  destruct (find_map (f a) l) as [b|] eqn:E; split; try done.
  - inversion_clear 1 as [|? ? Hf]. rewrite (proj2 (find_map_none _ _)) in E; [done|].
    by apply Forall_forall.
  - intros ?%IH. constructor; [|done]. by apply Forall_forall, find_map_none.
  - inversion_clear 1. by apply IH.
Qed.

Lemma try_for_ok {E A} (f : A → result E unit) l :
  try_for f l = Ok tt ↔ ∀ x, x ∈ l → f x = Ok tt.
Proof.
  induction l as [|x l IH]; cbn; [split; [set_solver|done]|].
  destruct (f x) as [[]|e] eqn:Ex; cbn; split; try done.
  - rewrite IH. intros H y [->|?]%elem_of_cons; auto.
  - intros H. apply IH. intros y Hy. apply H. by right.
  - intros H. rewrite <-Ex. apply H. left.
Qed.

(** * Conflicts *)

(** Two injects that lay out on one table without contradiction. *)
Record compatible (a b : InjectSpec) : Prop := {
  co_columns : ∀ ca cb, ca ∈ is_columns a → cb ∈ is_columns b →
    fold_ident (ic_name ca) = fold_ident (ic_name cb) →
    ic_ty ca = ic_ty cb ∧ ic_nullable ca = ic_nullable cb ∧ ic_default ca = ic_default cb ∧
    ic_collation ca = ic_collation cb ∧ ic_assign ca = ic_assign cb;
  co_pk : ∀ pa pb, is_primary_key a = Some pa → is_primary_key b = Some pb →
    pa = pb ∧ is_author_primary_key a = is_author_primary_key b;
  co_indexes : ∀ ia ib, ia ∈ is_indexes a → ib ∈ is_indexes b →
    fold_ident (ix_name ia) = fold_ident (ix_name ib) → ix_columns ia = ix_columns ib
}.

Lemma compatible_sym a b : compatible a b → compatible b a.
Proof.
  intros [Hc Hp Hi]. split.
  - intros ca cb Ha Hb E. destruct (Hc cb ca) as (?&?&?&?&?); auto.
  - intros pa pb Ha Hb. destruct (Hp pb pa); auto.
  - intros ia ib Ha Hb E. symmetry. auto.
Qed.

Lemma names_match_spec a b : names_match a b = true ↔ fold_ident a = fold_ident b.
Proof. apply bool_decide_eq_true. Qed.

Lemma inject_columns_diverge_false a b : inject_columns_diverge a b = false ↔
  ic_ty a = ic_ty b ∧ ic_nullable a = ic_nullable b ∧ ic_default a = ic_default b ∧
  ic_collation a = ic_collation b ∧ ic_assign a = ic_assign b.
Proof.
  unfold inject_columns_diverge. rewrite !orb_false_iff, !negb_false_iff, !bool_decide_eq_true.
  tauto.
Qed.

Lemma column_conflict_none a b : inject_column_conflict a b = None ↔
  ∀ ca cb, ca ∈ is_columns a → cb ∈ is_columns b →
    fold_ident (ic_name ca) = fold_ident (ic_name cb) →
    ic_ty ca = ic_ty cb ∧ ic_nullable ca = ic_nullable cb ∧ ic_default ca = ic_default cb ∧
    ic_collation ca = ic_collation cb ∧ ic_assign ca = ic_assign cb.
Proof.
  unfold inject_column_conflict. rewrite find_map_none. setoid_rewrite find_map_none.
  split; intros H ca.
  - intros cb Hca Hcb E. specialize (H ca Hca cb Hcb). rewrite <-names_match_spec in E.
    rewrite E in H. cbn in H. destruct (inject_columns_diverge ca cb) eqn:Ed; [done|].
    by apply inject_columns_diverge_false.
  - intros Hca cb Hcb. destruct (names_match _ _) eqn:E; [|done].
    apply names_match_spec in E. specialize (H ca cb Hca Hcb E).
    apply inject_columns_diverge_false in H as ->. done.
Qed.

Lemma index_conflict_none a b : inject_index_conflict a b = None ↔
  ∀ ia ib, ia ∈ is_indexes a → ib ∈ is_indexes b →
    fold_ident (ix_name ia) = fold_ident (ix_name ib) → ix_columns ia = ix_columns ib.
Proof.
  unfold inject_index_conflict. rewrite find_map_none. setoid_rewrite find_map_none.
  split; intros H ia.
  - intros ib Hia Hib E. specialize (H ia Hia ib Hib). rewrite <-names_match_spec in E.
    rewrite E in H. cbn in H. by case_bool_decide.
  - intros Hia ib Hib. destruct (names_match _ _) eqn:E; [|done].
    apply names_match_spec in E. by rewrite bool_decide_eq_true_2 by auto.
Qed.

Lemma pk_conflict_none a b : inject_pk_conflict a b = None ↔
  ∀ pa pb, is_primary_key a = Some pa → is_primary_key b = Some pb →
    pa = pb ∧ is_author_primary_key a = is_author_primary_key b.
Proof.
  unfold inject_pk_conflict.
  destruct (is_primary_key a) as [pa|], (is_primary_key b) as [pb|]; try (split; [intros _|]; done).
  repeat case_bool_decide; subst; split; try done.
  - intros _ ?? [= <-] [= <-]. done.
  - intros Hc. by destruct (Hc _ _ eq_refl eq_refl).
  - intros Hc. by destruct (Hc _ _ eq_refl eq_refl).
Qed.

Lemma inject_specs_collide_eq a b : inject_specs_collide a b =
  match inject_column_conflict a b with
  | Some d => Some d
  | None => match inject_index_conflict a b with
            | Some d => Some d
            | None => inject_pk_conflict a b
            end
  end.
Proof. reflexivity. Qed.

Lemma inject_specs_collide_none a b : inject_specs_collide a b = None ↔ compatible a b.
Proof.
  rewrite inject_specs_collide_eq. split.
  - destruct (inject_column_conflict a b) eqn:Ec; [done|].
    destruct (inject_index_conflict a b) eqn:Ei; [done|]. intros Ep.
    rewrite column_conflict_none in Ec. rewrite index_conflict_none in Ei.
    rewrite pk_conflict_none in Ep. by split.
  - intros [Hc Hp Hi]. rewrite (proj2 (column_conflict_none a b)) by done.
    rewrite (proj2 (index_conflict_none a b)) by done. by apply pk_conflict_none.
Qed.

Lemma forbidden_column_none spec names : forbidden_column spec (ForbiddenColumns names) = None ↔
  ∀ col f, col ∈ is_columns spec → f ∈ names → fold_ident (ic_name col) ≠ fold_ident f.
Proof.
  cbn. rewrite find_map_none. setoid_rewrite find_map_none. split; intros H col.
  - intros f Hcol Hf E. specialize (H col Hcol f Hf). by rewrite (proj2 (names_match_spec _ _)) in H.
  - intros Hcol f Hf. destruct (names_match _ _) eqn:E; [|done].
    by apply names_match_spec, (H col f Hcol Hf) in E.
Qed.

Lemma overlap_not_nothing a b n : in_scope n a → in_scope n b → is_nothing (meet a b) = false.
Proof.
  intros Ha Hb. destruct (meet a b) eqn:E; try done. exfalso.
  assert (in_scope n (meet a b)) as H by (by apply alg_meet). by rewrite E in H.
Qed.

(** * Finalized charters *)

Section ord_pairs.
Context {A : Type} (R : A → A → Prop).

Lemma ForallOrdPairs_perm l k :
  (∀ a b, R a b → R b a) → l ≡ₚ k → ForallOrdPairs R l → ForallOrdPairs R k.
Proof.
  intros Hsym Hp. induction Hp as [|x l k Hp IH|x y l|l k m _ IH1 _ IH2]; auto.
  - inversion_clear 1 as [|? ? Hx Hl]. constructor; [by rewrite <-Hp|auto].
  - inversion_clear 1 as [|? ? Hy Hl]. inversion_clear Hl as [|? ? Hx Hl'].
    apply Forall_cons in Hy as [Hyx Hy]. constructor; [by constructor; auto|]. by constructor.
Qed.

Lemma ForallOrdPairs_omap {B} (S : B → B → Prop) (f : A → option B) l :
  (∀ a b x y, R a b → f a = Some x → f b = Some y → S x y) →
  ForallOrdPairs R l → ForallOrdPairs S (omap f l).
Proof.
  intros Hf. induction 1 as [|a l Ha Hl IH]; cbn; [constructor|].
  destruct (f a) as [x|] eqn:E; [|done]. constructor; [|done]. apply Forall_forall.
  intros y (b & Hb & Ey)%list_elem_of_omap. rewrite Forall_forall in Ha. eauto.
Qed.
End ord_pairs.

Lemma omap_filter {A B} (p : A → bool) (f : A → option B) l :
  omap f (List.filter p l) = omap (λ x, if p x then f x else None) l.
Proof. induction l as [|x l IH]; cbn; [done|]. destruct (p x); cbn; by rewrite IH. Qed.

Lemma omap_perm {A B} (f : A → option B) l k : l ≡ₚ k → omap f l ≡ₚ omap f k.
Proof.
  induction 1 as [|x l k _ IH|x y l|l k m _ IH1 _ IH2]; cbn; [done| | |by etrans].
  - destruct (f x); by rewrite ?IH.
  - destruct (f x), (f y); try done. constructor.
Qed.

Lemma concat_map_reverse {A B} (f : A → list B) l :
  concat (map f (reverse l)) ≡ₚ concat (map f l).
Proof.
  induction l as [|x l IH]; [done|]. rewrite reverse_cons, map_app, concat_app. cbn.
  by rewrite app_nil_r, IH, (comm (++)).
Qed.

Lemma finalize_pair_compatible a b sa sb o : finalize_pair a b = None →
  in_scope o (ru_scope a) → in_scope o (ru_scope b) →
  inject_of a = Some sa → inject_of b = Some sb → compatible sa sb.
Proof.
  unfold finalize_pair, inject_of. intros H Ha Hb Ea Eb.
  destruct (ru_kind a); try done. destruct (ru_kind b); try done. simplify_eq.
  rewrite (overlap_not_nothing _ _ _ Ha Hb) in H.
  destruct (inject_column_conflict sa sb) eqn:E1; [done|].
  destruct (inject_pk_conflict sa sb) eqn:E2; [done|].
  destruct (inject_index_conflict sa sb) eqn:E3; [done|].
  apply inject_specs_collide_none. by rewrite inject_specs_collide_eq, E1, E3, E2.
Qed.

Lemma elem_of_concat_map {A B} (f : A → list B) l x :
  x ∈ concat (map f l) ↔ ∃ y, y ∈ l ∧ x ∈ f y.
Proof.
  induction l as [|y l IH]; cbn; [set_solver|]. rewrite elem_of_app, IH. set_solver.
Qed.

(** The rules of one collection that cover an object, through all layers. *)
Lemma elem_of_covering {B} (f : Layer → list Rule) (g : Rule → option B) layers o b :
  b ∈ omap g (covering o (concat (map f layers))) ↔
  ∃ l r, l ∈ layers ∧ r ∈ f l ∧ in_scope o (ru_scope r) ∧ g r = Some b.
Proof.
  unfold covering. rewrite omap_filter, list_elem_of_omap. unfold in_scope. split.
  - intros (r & (l & Hl & Hr)%elem_of_concat_map & E). exists l, r.
    by destruct (objects_membership _ _).
  - intros (l & r & Hl & Hr & Ho & E). exists r. rewrite elem_of_concat_map, Ho. eauto.
Qed.

Lemma elem_of_injects_for p o spec : spec ∈ injects_for p o ↔
  ∃ l r, l ∈ ep_layers p ∧ r ∈ l_injects l ∧ in_scope o (ru_scope r) ∧ inject_of r = Some spec.
Proof. unfold injects_for. rewrite elem_of_covering. by setoid_rewrite elem_of_reverse. Qed.

Lemma elem_of_validates_for p o pred : pred ∈ validates_for p o ↔
  ∃ l r, l ∈ ep_layers p ∧ r ∈ l_validates l ∧ in_scope o (ru_scope r) ∧ validate_of r = Some pred.
Proof. unfold validates_for. rewrite elem_of_covering. by setoid_rewrite elem_of_reverse. Qed.

Lemma finalize_ok assembled c : finalize_charter assembled = Ok c →
  ch_registry c = ac_registry assembled ∧ ch_layers c = ac_layers assembled ∧
  ForallOrdPairs (λ a b, finalize_pair a b = None) (concat (map l_injects (ac_layers assembled))) ∧
  (∀ inj val, inj ∈ concat (map l_injects (ac_layers assembled)) →
     val ∈ concat (map l_validates (ac_layers assembled)) → finalize_contradiction inj val = None) ∧
  creatable_escape_scope (ac_layers assembled) = None.
Proof.
  unfold finalize_charter, check_charter_creatable_lint.
  destruct (first_pair _ _) eqn:E1; [done|]. destruct (find_map _ _) eqn:E2; [done|].
  destruct (creatable_escape_scope _); [done|]. intros [= <-]. cbn.
  rewrite first_pair_none in E1. rewrite find_map_none in E2. do 3 (split; [done|]).
  split; [|done]. intros inj val Hi Hv. specialize (E2 inj Hi). rewrite find_map_none in E2. auto.
Qed.

(** A finalized charter contributes a consistent shape to every object: the
    injects covering it agree pairwise on columns, indexes and primary key, and no
    covering predicate forbids a column one of them contributes. *)
Theorem finalize_conflict_free (assembled : AssembledCharter) (c : Charter) (o : ObjectName) :
  finalize_charter assembled = Ok c →
  let p := mk_policy (ch_registry c) (ch_layers c) in
  ForallOrdPairs compatible (injects_for p o) ∧
  ∀ spec names col f, spec ∈ injects_for p o → ForbiddenColumns names ∈ validates_for p o →
    col ∈ is_columns spec → f ∈ names → fold_ident (ic_name col) ≠ fold_ident f.
Proof.
  intros (_ & El & Hpairs & Hval & _)%finalize_ok. cbn zeta. rewrite El. split.
  - unfold injects_for, covering. cbn [ep_layers]. rewrite omap_filter.
    apply (ForallOrdPairs_perm _ (omap (λ r,
      if objects_membership (ru_scope r) o then inject_of r else None)
      (concat (map l_injects (ac_layers assembled)))));
      [apply compatible_sym|apply omap_perm; by rewrite concat_map_reverse|].
    eapply ForallOrdPairs_omap; [|exact Hpairs]. cbn. intros a b sa sb Hab Ea Eb.
    destruct (objects_membership (ru_scope a) o) eqn:Ha; [|done].
    destruct (objects_membership (ru_scope b) o) eqn:Hb; [|done].
    by eapply finalize_pair_compatible.
  - intros spec names col f (l & r & Hl & Hr & Ho & Er)%elem_of_injects_for
      (l' & v & Hl' & Hv & Ho' & Ev)%elem_of_validates_for.
    apply forbidden_column_none. cbn in Hl, Hl'.
    assert (finalize_contradiction r v = None) as Hc
      by (apply Hval; apply elem_of_concat_map; eauto).
    unfold finalize_contradiction in Hc. unfold inject_of in Er. unfold validate_of in Ev.
    destruct (ru_kind r); try done. destruct (ru_kind v); try done. simplify_eq.
    rewrite (overlap_not_nothing _ _ _ Ho Ho') in Hc.
    by destruct (forbidden_column spec (ForbiddenColumns names)).
Qed.

(** * Mandatory injects *)

Lemma creatable_of_in layers key o s km l r :
  creatable_of layers key = Some s → l ∈ layers → layer_get key l = Some km →
  r ∈ km_rules km → raises km r → in_scope o (gr_scope r) → in_scope o s.
Proof.
  intros E Hl Hkm Hr Hra Ho. unfold creatable_of in E. revert E.
  assert (∀ acc ls, opt_fold (λ creatable layer,
    match layer_get key layer with
    | Some km => granted ← result_ok (granted_scope km); Some (join creatable granted)
    | None => Some creatable
    end) acc ls = Some s → in_scope o acc ∨ l ∈ ls → in_scope o s) as H.
  { intros acc ls. revert acc. induction ls as [|l' ls IH]; intros acc; cbn.
    { intros [= ->] [?|?]; [done|set_solver]. }
    destruct (layer_get key l') as [km'|] eqn:El; cbn; last first.
    { intros Ef [?|[->|?]%elem_of_cons]; [eauto|congruence|eauto]. }
    destruct (granted_scope km') as [g|] eqn:Eg; cbn; [|done].
    intros Ef H. apply (IH _ Ef). destruct H as [?|[->|?]%elem_of_cons].
    - left. by apply alg_join_l.
    - left. apply alg_join_r. assert (km' = km) as -> by congruence. by eapply granted_scope_in.
    - by right. }
  intros E. apply (H _ _ E). by right.
Qed.

Lemma creatable_escape_none layers key : knob_key_parse CREATE_TABLE_KEY = Ok key →
  creatable_escape_scope layers = None →
  ∃ s, creatable_of layers key = Some s ∧
    (s = Nothing ∨ ∀ l r spec, l ∈ layers → r ∈ l_injects l → inject_of r = Some spec →
       is_mandatory spec = true → subset s (ru_scope r) = true).
Proof.
  intros Hk. unfold creatable_escape_scope. rewrite Hk.
  destruct (creatable_of layers key) as [s|]; [|done].
  destruct (is_nothing s) eqn:En; intros H; exists s; (split; [done|]); [left; by destruct s|right].
  intros l r spec Hl Hr Er Hm. rewrite find_map_none in H. specialize (H l Hl).
  rewrite find_map_none in H. specialize (H r Hr). unfold inject_of in Er.
  destruct (ru_kind r); try done. simplify_eq. rewrite Hm in H. cbn in H.
  by destruct (subset s (ru_scope r)).
Qed.

(** C33: in a policy that passes the creatable-escape check, every object at which
    table creation is granted receives every mandatory inject of every layer. *)
Theorem mandatory_inject_inescapable (registry : PolicyRegistry) (layers : list Layer)
    (def : KnobDef) (o : ObjectName) (v : KnobValue) (l : Layer) (r : Rule) (spec : InjectSpec) :
  Forall (layer_wf registry) layers →
  check_creatable_escape (mk_policy registry layers) = Ok tt →
  registry_get registry CREATE_TABLE_KEY = Some def →
  grants (mk_policy registry layers) CREATE_TABLE_KEY o = Some v →
  ¬ vle (kd_kind def) v (kd_default def) →
  l ∈ layers → r ∈ l_injects l → inject_of r = Some spec → is_mandatory spec = true →
  spec ∈ injects_for (mk_policy registry layers) o.
Proof.
  intros Hl Hc Hdef Hg Hv Hin Hr Er Hm. unfold grants in Hg. cbn [ep_registry ep_layers] in Hg.
  rewrite grants_deciding in Hg. destruct (deciding layers _ o) as [km|] eqn:Ed; last first.
  { rewrite Hdef in Hg. injection Hg as <-. by destruct Hv. }
  destruct (deciding_wf _ _ _ _ _ Hl Ed) as ((d & Hd & Hk & Hdf) & Hwf & _).
  assert (d = def) as -> by congruence.
  destruct (value_at km o) as [w|] eqn:Ev; [|done]. injection Hg as ->.
  rewrite <-Hk, <-Hdf in Hv. apply (value_above_default km o v Hwf Ev) in Hv as (g & Hg & Hra & Ho).
  assert (∃ l', l' ∈ layers ∧ layer_get CREATE_TABLE_KEY l' = Some km) as (l' & Hl' & Hkm).
  { by eapply deciding_layer. }
  unfold check_creatable_escape in Hc. cbn [ep_layers] in Hc.
  destruct (creatable_escape_scope layers) eqn:Ec; [done|].
  apply (creatable_escape_none layers CREATE_TABLE_KEY) in Ec as (s & Es & Hs); [|vm_compute; reflexivity].
  assert (in_scope o s) as Hos by (by eapply creatable_of_in).
  destruct Hs as [->|Hs]; [done|]. apply elem_of_injects_for. exists l, r.
  repeat (split; [done|]). split; [|done]. eapply alg_subset; [|exact Hos]. exact (Hs l r spec Hin Hr Er Hm).
Qed.

(** * Single layers *)

Definition layer_policy (registry : PolicyRegistry) (l : Layer) : EffectivePolicy :=
  mk_policy registry [l].

Lemma single_layer_total registry key def l o :
  registry_ok registry → registry_get registry key = Some def → kd_kind def ≠ KDigest →
  layer_wf registry l →
  ∃ v, grants (layer_policy registry l) key o = Some v ∧ shaped (kd_kind def) v.
Proof.
  intros Hreg Hdef Hk Hl.
  destruct (grants_layers_total registry key def Hdef [l] o) as [v Hv]; [by constructor|done|].
  exists v. split; [done|]. eapply grants_layers_shaped; [done|done| |exact Hv]. by constructor.
Qed.

Lemma single_layer_den registry key def l o v :
  layer_wf registry l → registry_get registry key = Some def →
  grants (layer_policy registry l) key o = Some v →
  ∀ x, den (kd_kind def) v x ↔ den (kd_kind def) (kd_default def) x ∨
    ∃ r, r ∈ default [] (km_rules <$> layer_get key l) ∧ in_scope o (gr_scope r) ∧
      den (kd_kind def) (gr_value r) x.
Proof.
  intros [_ Hl] Hdef. unfold grants. cbn. destruct (layer_get key l) as [km|] eqn:E; cbn.
  - destruct (Hl _ _ E) as ((d & Hd & Hk & Hdf) & Hwf). assert (d = def) as -> by congruence.
    destruct (covers_object km o) eqn:Ec.
    + destruct (value_at km o) as [w|] eqn:Ev; [|done]. intros [= ->].
      apply value_at_den in Ev as [_ Hv]; [|done]. by rewrite <-Hk, <-Hdf.
    + rewrite Hdef. intros [= <-] x. rewrite covers_object_false in Ec.
      split; [by left|]. intros [?|(r & Hr & Ho & _)]; [done|]. by destruct (Ec r).
  - rewrite Hdef. intros [= <-] x. split; [by left|].
    intros [?|(r & Hr & _)]; [done|set_solver].
Qed.

(** * [restrict] *)

Section clamp.
Context (kind : KnobKind).

(** [r] is the product of an outer and an inner rule. *)
Definition clamp_product (orule irule r : GrantRule) : Prop :=
  is_nothing (meet (gr_scope orule) (gr_scope irule)) = false ∧
  gr_scope r = meet (gr_scope orule) (gr_scope irule) ∧
  meet_value kind (gr_value orule) (gr_value irule) = Ok (gr_value r).

Definition clamp_inner (orule : GrantRule) :=
  λ (rules : list GrantRule) (irule : GrantRule),
    let scope := meet (gr_scope orule) (gr_scope irule) in
    if is_nothing scope then Ok rules
    else
      value ← from_value_order (meet_value kind (gr_value orule) (gr_value irule));
      Ok (rules ++ [mk_grant scope value]).

Lemma clamp_inner_eq orule rules irule : clamp_inner orule rules irule =
  if is_nothing (meet (gr_scope orule) (gr_scope irule)) then Ok rules
  else
    value ← from_value_order (meet_value kind (gr_value orule) (gr_value irule));
    Ok (rules ++ [mk_grant (meet (gr_scope orule) (gr_scope irule)) value]).
Proof. done. Qed.

Lemma clamp_inner_elem orule irs acc res : try_fold (clamp_inner orule) acc irs = Ok res →
  ∀ r, r ∈ res ↔ r ∈ acc ∨ ∃ irule, irule ∈ irs ∧ clamp_product orule irule r.
Proof.
  revert acc. induction irs as [|ir irs IH]; intros acc; cbn [try_fold].
  { intros [= <-] r. set_solver. }
  rewrite clamp_inner_eq.
  destruct (is_nothing (meet (gr_scope orule) (gr_scope ir))) eqn:En; cbn [mbind result_bind].
  - intros H r. rewrite (IH _ H). setoid_rewrite elem_of_cons. unfold clamp_product.
    split; [naive_solver|]. intros [?|(i & [->|?] & Hp)]; [by left|destruct Hp; congruence|eauto].
  - destruct (meet_value kind _ _) as [v|] eqn:Ev; cbn [mbind result_bind from_value_order map_err]; [|done].
    intros H r. rewrite (IH _ H). setoid_rewrite elem_of_cons. rewrite elem_of_app, list_elem_of_singleton.
    split.
    + intros [[?| ->]|(i & ? & ?)]; [by left|right|right; eauto].
      exists ir. split; [by left|]. by split.
    + intros [?|(i & [->|?] & Hp)]; [by left; left|left; right|right; eauto].
      destruct Hp as (_ & Hs & Hv). destruct r as [rs rv]. cbn in *. congruence.
Qed.

Lemma clamp_outer_elem ors irs acc res :
  try_fold (λ rules orule, try_fold (clamp_inner orule) rules irs) acc ors = Ok res →
  ∀ r, r ∈ res ↔ r ∈ acc ∨
    ∃ orule irule, orule ∈ ors ∧ irule ∈ irs ∧ clamp_product orule irule r.
Proof.
  revert acc. induction ors as [|orule ors IH]; intros acc; cbn [try_fold].
  { intros [= <-] r. set_solver. }
  bind_ok as acc' E.
  intros H r. rewrite (IH _ H), (clamp_inner_elem _ _ _ _ E). setoid_rewrite elem_of_cons.
  split.
  - intros [[?|(i & ? & ?)]|(or & i & ? & ? & ?)]; [by left|right; eauto 10|right; eauto 10].
  - intros [?|(or & i & [->|?] & ? & ?)]; [by left; left|left; right; eauto|right; eauto 10].
Qed.
End clamp.

Lemma clamp_grant_key_spec key og ig registry km def :
  registry_get registry key = Some def → clamp_grant_key key og ig registry = Ok km →
  km_kind km = kd_kind def ∧ km_default km = kd_default def ∧
  ∀ r, r ∈ km_rules km ↔ ∃ orule irule,
    orule ∈ default [] (km_rules <$> grant_model_get og key) ∧
    irule ∈ default [] (km_rules <$> grant_model_get ig key) ∧
    clamp_product (kd_kind def) orule irule r.
Proof.
  intros Hdef. unfold clamp_grant_key, lookup. rewrite Hdef. cbn [ok_or mbind result_bind].
  destruct (grant_model_get og key) as [ok|]; last first.
  { intros [= <-]. cbn. repeat (split; [done|]). set_solver. }
  destruct (grant_model_get ig key) as [ik|]; last first.
  { intros [= <-]. cbn. repeat (split; [done|]). set_solver. }
  change (try_fold _ [] (km_rules ok)) with
    (try_fold (λ rules orule, try_fold (clamp_inner (kd_kind def) orule) rules (km_rules ik))
       [] (km_rules ok)).
  bind_ok as rules E.
  intros [= <-]. cbn. repeat (split; [done|]). intros r.
  rewrite (clamp_outer_elem _ _ _ _ _ E). set_solver.
Qed.

(** What the loop over the keys of both sides has stored after a list of keys. *)
Lemma restrict_loop registry og ig keys acc res :
  bm_wf acc → (∀ k km, bm_get k acc = Some km → clamp_grant_key k og ig registry = Ok km) →
  try_fold (λ acc key,
    km ← clamp_grant_key key og ig registry;
    Ok (if bool_decide (km_rules km = []) then acc else bm_insert key km acc)) acc keys = Ok res →
  bm_wf res ∧ (∀ k km, bm_get k res = Some km → clamp_grant_key k og ig registry = Ok km) ∧
  (∀ k km, k ∈ keys ∨ bm_get k acc = Some km → clamp_grant_key k og ig registry = Ok km →
     km_rules km ≠ [] → bm_get k res = Some km) ∧
  (∀ k, k ∈ keys → ∃ km, clamp_grant_key k og ig registry = Ok km).
Proof.
  revert acc. induction keys as [|key keys IH]; intros acc Hwf Hacc; cbn [try_fold].
  { intros [= <-]. split; [done|]. split; [done|]. set_solver. }
  bind_ok as km Ek.
  case_bool_decide as Er; intros E.
  - apply IH in E as (Hw & Hr & Hk & Ht); [|done..]. split; [done|]. split; [done|].
    split; [|intros k [->|?]%elem_of_cons; eauto].
    intros k km' [[->|?]%elem_of_cons|?] Hc Hne; [congruence|eauto|eauto].
  - apply IH in E as (Hw & Hr & Hk & Ht); [|by apply bm_insert_wf|]; last first.
    { intros k km'. destruct (decide (k = key)) as [->|Hne].
      - rewrite bm_get_insert_eq by done. congruence.
      - rewrite bm_get_insert_ne by done. apply Hacc. }
    split; [done|]. split; [done|]. split; [|intros k [->|?]%elem_of_cons; eauto].
    intros k km' Hin Hc Hne. apply Hk; [|done|done]. destruct (decide (k = key)) as [->|Hkk].
    + right. rewrite bm_get_insert_eq by done. congruence.
    + rewrite bm_get_insert_ne by done. set_solver.
Qed.

Lemma restrict_spec outer inner registry ac : restrict outer inner registry = Ok ac →
  ∃ l og ig, ac = mk_assembled registry [l] ∧
    grant_model_build (pd_rules (td_doc outer)) registry = Ok og ∧
    grant_model_build (pd_rules (td_doc inner)) registry = Ok ig ∧
    bm_wf (gm_keys (l_grants l)) ∧
    (∀ k km, layer_get k l = Some km → clamp_grant_key k og ig registry = Ok km) ∧
    (∀ k def, registry_get registry k = Some def → ∀ r,
       r ∈ default [] (km_rules <$> layer_get k l) ↔ ∃ orule irule,
         orule ∈ default [] (km_rules <$> grant_model_get og k) ∧
         irule ∈ default [] (km_rules <$> grant_model_get ig k) ∧
         clamp_product (kd_kind def) orule irule r).
Proof.
  unfold restrict. cbn zeta.
  destruct (grant_model_build (pd_rules (td_doc outer)) registry) as [og|] eqn:Eo; [|done].
  destruct (grant_model_build (pd_rules (td_doc inner)) registry) as [ig|] eqn:Ei; [|done].
  cbn [mbind result_bind]. destruct (try_fold _ _ (key_union og ig)) as [keys|] eqn:Ef; [|done].
  intros [= <-].
  eexists _, og, ig. split; [reflexivity|]. split; [done|]. split; [done|].
  apply restrict_loop in Ef as (Hw & Hr & Hk & Ht); [|constructor|intros ?? [=]].
  split; [done|]. split; [done|]. unfold layer_get. cbn. intros k def Hdef r. split.
  - intros Hin. destruct (bm_get k keys) as [km|] eqn:E; cbn in Hin; [|set_solver].
    apply Hr in E. destruct (clamp_grant_key_spec _ _ _ _ _ _ Hdef E) as (_ & _ & H).
    by apply H.
  - intros Hprod. destruct (Ht k) as [km Hkm].
    { destruct Hprod as (orule & _ & Hin & _). unfold key_union.
      rewrite elem_of_bset_of, elem_of_app. left. unfold grant_model_get in Hin.
      destruct (bm_get k (gm_keys og)) eqn:E; [by eapply bm_get_key|cbn in Hin; set_solver]. }
    destruct (clamp_grant_key_spec _ _ _ _ _ _ Hdef Hkm) as (_ & _ & H). apply H in Hprod.
    rewrite (Hk k km); [done| |done|].
    + left. unfold key_union. rewrite elem_of_bset_of, elem_of_app. apply H in Hprod.
      destruct Hprod as (orule & _ & Hin & _). left. unfold grant_model_get in Hin.
      destruct (bm_get k (gm_keys og)) eqn:E; [by eapply bm_get_key|cbn in Hin; set_solver].
    + intros E. rewrite E in Hprod. set_solver.
Qed.

(** Some key of the document is unknown, or the model is the document's. *)
Lemma layer_of_build registry tag doc og :
  grant_model_build (pd_rules doc) registry = Ok og →
  ∃ l, layer_from_doc tag doc registry = Ok l ∧
    ∀ key, layer_get key l = grant_model_get og key.
Proof. unfold layer_from_doc. intros ->. cbn. by eexists. Qed.

Section restrict_exact.
Context (registry : PolicyRegistry) (outer inner : TrustedDoc).
Context (Hreg : registry_ok registry).
Context (Hso : rules_shaped registry (pd_rules (td_doc outer))).
Context (Hsi : rules_shaped registry (pd_rules (td_doc inner))).

Lemma model_rule_shaped m rule doc key def :
  grant_model_build (pd_rules doc) registry = Ok m → rules_shaped registry (pd_rules doc) →
  registry_get registry key = Some def →
  rule ∈ default [] (km_rules <$> grant_model_get m key) → shaped (kd_kind def) (gr_value rule).
Proof.
  intros Hm Hs Hdef Hin. unfold grant_model_get in Hin.
  destruct (bm_get key (gm_keys m)) as [km'|] eqn:Eg; cbn in Hin; [|set_solver].
  destruct (build_wf _ _ _ Hreg Hs Hm _ _ Eg) as ((d & Hd' & Hk' & _) & _ & Hf).
  rewrite Forall_forall in Hf. assert (d = def) as -> by congruence. rewrite <-Hk'. auto.
Qed.

Lemma clamp_wf og ig key km :
  grant_model_build (pd_rules (td_doc outer)) registry = Ok og →
  grant_model_build (pd_rules (td_doc inner)) registry = Ok ig →
  clamp_grant_key key og ig registry = Ok km → km_of registry key km ∧ km_wf km.
Proof.
  intros Ho Hi Hc. destruct (registry_get registry key) as [def|] eqn:Hdef; last first.
  { unfold clamp_grant_key, lookup in Hc. by rewrite Hdef in Hc. }
  destruct (clamp_grant_key_spec _ _ _ _ _ _ Hdef Hc) as (Hk & Hd & Hr).
  split; [by exists def|]. split; [rewrite Hk, Hd; by eapply ro_default|].
  apply Forall_forall. intros r (orule & irule & Hor & Hir & _ & _ & Hv)%Hr. rewrite Hk.
  apply vo_meet in Hv as [? _]; [done|exact (model_rule_shaped _ _ _ _ _ Ho Hso Hdef Hor)
    |exact (model_rule_shaped _ _ _ _ _ Hi Hsi Hdef Hir)].
Qed.

Lemma restrict_wf ac : restrict outer inner registry = Ok ac →
  ac_registry ac = registry ∧ Forall (layer_wf registry) (ac_layers ac).
Proof.
  intros (l & og & ig & -> & Ho & Hi & Hw & Hget & _)%restrict_spec. split; [done|].
  constructor; [|constructor]. split; [done|]. intros key km Hkm. eapply clamp_wf; eauto.
Qed.

(** C32: [restrict] is the pointwise meet of the two charters: at every object the
    value of a key is the meet of the values the two documents give it on their own. *)
Theorem restrict_pointwise_meet (ac : AssembledCharter) (lo li : Layer) (key : KnobKey)
    (def : KnobDef) (o : ObjectName) :
  restrict outer inner registry = Ok ac →
  layer_from_doc Base (td_doc outer) registry = Ok lo →
  layer_from_doc Base (td_doc inner) registry = Ok li →
  registry_get registry key = Some def → kd_kind def ≠ KDigest →
  ∃ v vo vi m, grants (mk_policy registry (ac_layers ac)) key o = Some v ∧
    grants (layer_policy registry lo) key o = Some vo ∧
    grants (layer_policy registry li) key o = Some vi ∧
    meet_value (kd_kind def) vo vi = Ok m ∧ veq (kd_kind def) v m.
Proof.
  intros Hres Hlo Hli Hdef Hk. pose proof (restrict_wf _ Hres) as [_ Hacwf].
  pose proof (layer_from_doc_wf _ _ _ _ Hreg Hso Hlo) as Hlow.
  pose proof (layer_from_doc_wf _ _ _ _ Hreg Hsi Hli) as Hliw.
  destruct (restrict_spec _ _ _ _ Hres) as (l & og & ig & -> & Ho & Hi & Hw & Hg1 & Hg2).
  cbn [ac_layers] in *. rewrite Forall_singleton in Hacwf.
  destruct (layer_of_build _ Base _ _ Ho) as (lo' & Elo & Hlog).
  assert (lo' = lo) as -> by congruence.
  destruct (layer_of_build _ Base _ _ Hi) as (li' & Eli & Hlig).
  assert (li' = li) as -> by congruence.
  pose proof (λ l, single_layer_total registry key def l o Hreg Hdef Hk) as Htot.
  destruct (Htot l Hacwf) as (v & Hv & _). destruct (Htot lo Hlow) as (vo & Hvo & Hsvo).
  destruct (Htot li Hliw) as (vi & Hvi & Hsvi).
  destruct (meet_value_total (kd_kind def) vo vi) as [m Hm]; [done..|by destruct (kd_kind def)|].
  exists v, vo, vi, m. do 4 (split; [done|]). apply vo_meet in Hm as [_ Hm]; [|done..]. intros x.
  rewrite Hm, (single_layer_den _ _ _ _ _ _ Hacwf Hdef Hv), (single_layer_den _ _ _ _ _ _ Hlow Hdef Hvo),
    (single_layer_den _ _ _ _ _ _ Hliw Hdef Hvi), Hlog, Hlig.
  setoid_rewrite (Hg2 key def Hdef). split.
  - intros [?|(r & (orule & irule & Hor & Hir & _ & Hs & Hmv) & Hin & Hx)]; [by split; left|].
    apply vo_meet in Hmv as [_ Hmv]; [|exact (model_rule_shaped _ _ _ _ _ Ho Hso Hdef Hor)
      |exact (model_rule_shaped _ _ _ _ _ Hi Hsi Hdef Hir)].
    rewrite Hs in Hin. apply alg_meet in Hin as [??]. apply Hmv in Hx as [??].
    split; right; eauto.
  - intros [[?|(orule & Hor & Hino & Hxo)] [?|(irule & Hir & Hini & Hxi)]]; [by left..|]. right.
    assert (shaped (kd_kind def) (gr_value orule)) as Hs1
      by exact (model_rule_shaped _ _ _ _ _ Ho Hso Hdef Hor).
    assert (shaped (kd_kind def) (gr_value irule)) as Hs2
      by exact (model_rule_shaped _ _ _ _ _ Hi Hsi Hdef Hir).
    destruct (meet_value_total (kd_kind def) (gr_value orule) (gr_value irule)) as [w Hmw];
      [done..|by destruct (kd_kind def)|].
    exists (mk_grant (meet (gr_scope orule) (gr_scope irule)) w). cbn. split; [|split].
    + exists orule, irule. split; [done|]. split; [done|]. split; [by eapply overlap_not_nothing|done].
    + by apply alg_meet.
    + apply vo_meet in Hmw as [_ Hmw]; [|done..]. by apply Hmw.
Qed.
End restrict_exact.
