(* ===== verification/Boundary.v ===== *)
(** The trust boundary, [boundary.rs]: [admit] takes an untrusted draft against a
    finalized charter. The theorems show that an admitted draft gives no object more
    than the charter does, whatever the knob, and keeps every obligation. *)

From S2P Require Export CharterFacts.

(** * Symbolic subtraction *)

(** One pass: subtract what can be represented, keep the rest for the next pass. *)
Fixpoint subtract_pass (r : Scope) (deferred : list Scope) : Scope * list Scope :=
  match deferred with
  | [] => (r, [])
  | s :: deferred' =>
      match difference r s with
      | DScope next => subtract_pass next deferred'
      | NotRepresentable =>
          let '(r', still_deferred) := subtract_pass r deferred' in (r', s :: still_deferred)
      end
  end.

(** The [while] loop. A pass that goes on shortens [deferred], so one more round than
    there are subtrahends is enough. *)
Fixpoint subtract_loop (fuel : nat) (r : Scope) (deferred : list Scope) : Scope * list Scope :=
  match fuel with
  | O => (r, deferred)
  | S fuel' =>
      if bool_decide (deferred = []) || is_nothing r then (r, deferred)
      else
        let '(r', still_deferred) := subtract_pass r deferred in
        if length still_deferred =? length deferred then (r', still_deferred)
        else subtract_loop fuel' r' still_deferred
  end.

Definition subtract_each (region : Scope) (subtrahends : list Scope) : option Scope :=
  let '(r, deferred) := subtract_loop (S (length subtrahends)) region subtrahends in
  if negb (bool_decide (deferred = [])) && negb (is_nothing r) then None else Some r.

(** * The grant check *)

(** The rules of a layer at or above the draft's value, and those below it. *)
Definition split_rule (kind : KnobKind) (value : KnobValue) (acc : list Scope * list Scope)
    (r : GrantRule) : result ComposeError (list Scope * list Scope) :=
  let '(satisfying, falling_short) := acc in
  above ← from_value_order (leq_value kind value (gr_value r));
  Ok (if above : bool then (satisfying ++ [gr_scope r], falling_short)
      else (satisfying, falling_short ++ [gr_scope r])).
Definition split_rules (kind : KnobKind) (value : KnobValue) (rules : list GrantRule) :
    result ComposeError (list Scope * list Scope) :=
  try_fold (split_rule kind value) ([], []) rules.

Fixpoint prove_layers (key : KnobKey) (def : KnobDef) (scope : Scope) (value : KnobValue)
    (layers : list Layer) (decided : list Scope) : result ComposeError unit :=
  match layers with
  | [] => Ok tt
  | layer :: layers' =>
      match layer_get key layer with
      | None => prove_layers key def scope value layers' decided
      | Some km =>
          '(satisfying, falling_short) ← split_rules (kd_kind def) value (km_rules km);
          _ ← try_for (λ short,
            let suspect := meet scope short in
            if is_nothing suspect then Ok tt
            else match subtract_each suspect (decided ++ satisfying) with
                 | None => Err (UncoveredRegionNotRepresentable key)
                 | Some escaping =>
                     if is_nothing escaping then Ok tt
                     else Err (GrantExceedsCharter key (render_scope escaping))
                 end) falling_short;
          prove_layers key def scope value layers' (decided ++ map gr_scope (km_rules km))
      end
  end.

Definition prove_rule_within_charter (key : KnobKey) (def : KnobDef) (scope : Scope)
    (value : KnobValue) (charter_layers : list Layer) : result ComposeError unit :=
  _ ← prove_layers key def scope value charter_layers [];
  raising ← layered_nondefault_grant_rules charter_layers key;
  match subtract_each scope raising with
  | None => Err (UncoveredRegionNotRepresentable key)
  | Some unraised =>
      if is_nothing unraised then Ok tt
      else Err (GrantExceedsCharter key (render_scope unraised))
  end.

Definition check_grant_key (key : KnobKey) (draft : GrantModel) (charter_layers : list Layer)
    (registry : PolicyRegistry) : result ComposeError unit :=
  match grant_model_get draft key with
  | None => Ok tt
  | Some dk =>
      def ← ok_or (registry_get registry key) (RegistryOrValueMismatch (UnknownKnob key));
      try_for (λ rule,
        below ← from_value_order (leq_value (kd_kind def) (gr_value rule) (kd_default def));
        if below : bool then Ok tt
        else prove_rule_within_charter key def (gr_scope rule) (gr_value rule) charter_layers)
        (km_rules dk)
  end.

(** * Admission *)

(** The rules of the layers, outermost first, of one kind. *)
Definition flatten_charter (layers : list Layer) (pred : RuleKind → bool) : list Rule :=
  List.filter (λ r, pred (ru_kind r))
    (concat (map (λ l, l_injects l ++ l_validates l) (reverse layers))).

Definition pin_noninheritable (registry : PolicyRegistry) (draft_layer : Layer) : Layer :=
  fold_left (λ layer def,
    if kd_inherit def then layer
    else pin_layer_key_to_default layer (kd_key def) (kd_kind def) (kd_default def))
    (registry_iter registry) draft_layer.

Definition admit_draft {C} `{!AdmitCharter C} (charter : C) (draft : PolicyDoc)
    (registry : PolicyRegistry) : result ComposeError EffectivePolicy :=
  layers ← charter_layers charter registry;
  draft_grants ← grant_model_build (pd_rules draft) registry;
  _ ← try_for (λ key, check_grant_key key draft_grants layers registry)
        (grant_model_keys draft_grants);
  let charter_injects := flatten_charter layers is_inject in
  let draft_injects := rules_of (pd_rules draft) is_inject in
  _ ← check_inject_collisions charter_injects draft_injects;
  let draft_validates := rules_of (pd_rules draft) is_validate in
  _ ← check_validate_vs_inject charter_injects draft_validates;
  draft_layer ← layer_from_doc Draft draft registry;
  Ok (from_layers registry (pin_noninheritable registry draft_layer :: layers)).

#[global] Arguments subtract_each : simpl never.
#[global] Arguments prove_rule_within_charter : simpl never.
#[global] Arguments check_grant_key : simpl never.

(** * Subtraction is sound and its loop ends *)

Lemma subtract_pass_sound r deferred r' still n :
  subtract_pass r deferred = (r', still) → in_scope n r →
  (∀ s, s ∈ deferred → ¬ in_scope n s) →
  in_scope n r' ∧ (∀ s, s ∈ still → s ∈ deferred) ∧ length still ≤ length deferred.
Proof.
  revert r r' still. induction deferred as [|s deferred IH]; intros r r' still; cbn.
  { intros [= <- <-] ??. auto. }
  intros E Hr Hn. assert (∀ s0, s0 ∈ deferred → ¬ in_scope n s0) as Hn' by (intros; apply Hn; by right).
  destruct (difference r s) as [next|] eqn:Ed.
  - apply IH in E as (?&?&?); [|eapply alg_difference; [exact Ed|done|apply Hn; left]|done].
    split; [done|]. split; [intros; right; auto|lia].
  - destruct (subtract_pass r deferred) as [r1 still1] eqn:E1. injection E as <- <-.
    destruct (IH _ _ _ E1) as (?&?&?); [done..|]. split; [done|]. cbn.
    split; [|lia]. intros s0 [->|?]%elem_of_cons; [left|right; auto].
Qed.

Lemma subtract_loop_sound fuel r deferred r' still n :
  subtract_loop fuel r deferred = (r', still) → in_scope n r →
  (∀ s, s ∈ deferred → ¬ in_scope n s) → in_scope n r'.
Proof.
  revert r deferred. induction fuel as [|fuel IH]; intros r deferred; cbn; [by intros [= <- <-]|].
  destruct (bool_decide (deferred = []) || is_nothing r); [by intros [= <- <-]|].
  destruct (subtract_pass r deferred) as [r1 still1] eqn:E1. intros E Hr Hn.
  destruct (subtract_pass_sound _ _ _ _ _ E1 Hr Hn) as (Hr1 & Hst & _).
  destruct (length still1 =? length deferred); [by injection E as <- <-|].
  eapply IH; [exact E|done|]. intros s ?. apply Hn. auto.
Qed.

Lemma subtract_each_sound region subs r n :
  subtract_each region subs = Some r → in_scope n region →
  (∀ s, s ∈ subs → ¬ in_scope n s) → in_scope n r.
Proof.
  unfold subtract_each. destruct (subtract_loop _ _ _) as [r' still] eqn:E.
  destruct (_ && _); [done|]. intros [= <-]. by eapply subtract_loop_sound.
Qed.

Lemma subtract_pass_length r deferred : length (subtract_pass r deferred).2 ≤ length deferred.
Proof.
  revert r. induction deferred as [|s deferred IH]; intros r; cbn; [lia|].
  destruct (difference r s) as [next|]; [specialize (IH next); lia|].
  specialize (IH r). destruct (subtract_pass r deferred). cbn in *. lia.
Qed.

(** The subtraction loop ends on its own: from the fuel [subtract_each] gives it
    on, more fuel changes nothing, so it is the [while] loop of the source. *)
Theorem subtract_loop_terminates (fuel : nat) (r : Scope) (deferred : list Scope) :
  length deferred < fuel →
  subtract_loop fuel r deferred = subtract_loop (S (length deferred)) r deferred.
Proof.
  enough (∀ n f1 f2 r deferred, length deferred ≤ n → length deferred < f1 → length deferred < f2 →
    subtract_loop f1 r deferred = subtract_loop f2 r deferred) as H by (intros; apply (H (length deferred)); lia).
  clear. induction n as [|n IH]; intros [|f1] [|f2] r deferred Hn H1 H2; try lia; cbn [subtract_loop].
  - destruct deferred; [done|cbn in Hn; lia].
  - destruct (_ || _); [done|]. pose proof (subtract_pass_length r deferred) as Hl.
    destruct (subtract_pass r deferred) as [r1 still]. cbn in Hl.
    destruct (Nat.eqb_spec (length still) (length deferred)); [done|]. apply IH; lia.
Qed.

(** * The grant check is sound *)

Lemma split_rules_elem kind value rules sat short :
  split_rules kind value rules = Ok (sat, short) →
  (∀ r, r ∈ rules → ∃ b : bool, leq_value kind value (gr_value r) = Ok b ∧
     gr_scope r ∈ (if b then sat else short)) ∧
  (∀ s, s ∈ sat → ∃ r, r ∈ rules ∧ gr_scope r = s ∧ leq_value kind value (gr_value r) = Ok true).
Proof.
  unfold split_rules.
  enough (∀ a b, try_fold (split_rule kind value) (a, b) rules = Ok (sat, short) →
    (∀ s, s ∈ a → s ∈ sat) ∧ (∀ s, s ∈ b → s ∈ short) ∧
    (∀ r, r ∈ rules → ∃ b : bool, leq_value kind value (gr_value r) = Ok b ∧
       gr_scope r ∈ (if b then sat else short)) ∧
    (∀ s, s ∈ sat → s ∈ a ∨
       ∃ r, r ∈ rules ∧ gr_scope r = s ∧ leq_value kind value (gr_value r) = Ok true)) as H.
  { intros E. destruct (H _ _ E) as (_ & _ & H1 & H2). split; [done|].
    intros s [?|?]%H2; [set_solver|done]. }
  induction rules as [|r rules IH]; intros a b; cbn [try_fold]; [intros [= -> ->]; set_solver|].
  cbn [split_rule]. destruct (leq_value kind value (gr_value r)) as [above|] eqn:E; cbn; [|done].
  destruct above; intros (Ha & Hb & Hr & Hs)%IH.
  - split; [set_solver|]. split; [done|]. split.
    + intros r' [->|?]%elem_of_cons; [exists true; set_solver|auto].
    + intros s [[?|Hsr]%elem_of_app|(r' & ? & ?)]%Hs; [by left| |].
      * apply list_elem_of_singleton in Hsr as ->. right. exists r. split; [left|done].
      * right. exists r'. split; [by right|done].
  - split; [done|]. split; [set_solver|]. split.
    + intros r' [->|?]%elem_of_cons; [exists false; set_solver|auto].
    + intros s [?|(r' & ? & ?)]%Hs; [by left|right; exists r'; split; [by right|done]].
Qed.

Lemma prove_layers_sound key def scope value layers decided o km :
  prove_layers key def scope value layers decided = Ok tt →
  in_scope o scope → (∀ s, s ∈ decided → ¬ in_scope o s) →
  deciding layers key o = Some km →
  ∃ r, r ∈ km_rules km ∧ in_scope o (gr_scope r) ∧
    leq_value (kd_kind def) value (gr_value r) = Ok true.
Proof.
  revert decided. induction layers as [|l layers IH]; intros decided; cbn; [done|].
  destruct (layer_get key l) as [km'|]; [|apply IH].
  destruct (split_rules _ _ _) as [[sat short]|] eqn:Es; cbn; [|done].
  destruct (try_for _ short) as [[]|] eqn:Ef; cbn; [|done]. intros Hrec Ho Hdec.
  destruct (covers_object km' o) eqn:Ec; last first.
  { rewrite covers_object_false in Ec. apply (IH _ Hrec Ho).
    intros s [?|(r & -> & ?)%list_elem_of_fmap]%elem_of_app; auto. }
  intros [= ->]. clear IH Hrec. apply split_rules_elem in Es as [Hrules Hsat].
  rewrite try_for_ok in Ef. apply covers_object_spec in Ec as (r & Hr & Hor).
  destruct (decide (Exists (in_scope o) sat)) as [(s & Hs & Hos)%Exists_exists|Hne].
  { destruct (Hsat s Hs) as (r' & ? & <- & ?). eauto. }
  destruct (Hrules r Hr) as ([] & Hl & Hin); [eauto|]. exfalso.
  specialize (Ef _ Hin). cbn in Ef. rewrite (overlap_not_nothing _ _ _ Ho Hor) in Ef.
  destruct (subtract_each _ _) as [esc|] eqn:Ee; [|done].
  assert (in_scope o esc) as Hesc; [|by destruct esc].
  eapply subtract_each_sound; [exact Ee|by apply alg_meet|].
  intros s [?|?]%elem_of_app; [auto|]. intros ?. apply Hne, Exists_exists. eauto.
Qed.

Lemma nondefault_rules_elem layers key out s :
  layered_nondefault_grant_rules layers key = Ok out → s ∈ out →
  ∃ l km r, l ∈ layers ∧ layer_get key l = Some km ∧ r ∈ km_rules km ∧ gr_scope r = s.
Proof.
  unfold layered_nondefault_grant_rules. intros E.
  refine (try_fold_inv (λ out, ∀ s, s ∈ out → ∃ l km r, l ∈ layers ∧ layer_get key l = Some km ∧
    r ∈ km_rules km ∧ gr_scope r = s) _ _ _ _ _ _ E s); [set_solver|].
  intros b l b' Hl Hb. destruct (layer_get key l) as [km|] eqn:El; [|by intros [= <-]].
  intros E'. refine (try_fold_inv (λ out, ∀ s, s ∈ out → ∃ l km r, l ∈ layers ∧
    layer_get key l = Some km ∧ r ∈ km_rules km ∧ gr_scope r = s) _ _ _ _ Hb _ E').
  intros c r c' Hr Hc. destruct (from_value_order _) as [[]|]; cbn; [by intros [= <-]| |done].
  intros [= <-] s' [?| ->%list_elem_of_singleton]%elem_of_app; [auto|]. exists l, km, r. done.
Qed.

Lemma deciding_covered layers key o l km :
  l ∈ layers → layer_get key l = Some km → covers_object km o = true →
  ∃ km', deciding layers key o = Some km'.
Proof.
  intros Hl Hkm Hc. induction layers as [|x layers IH]; [set_solver|]. cbn.
  destruct (layer_get key x) as [km'|] eqn:E; [destruct (covers_object km' o) eqn:Ec; [eauto|]|];
    (apply elem_of_cons in Hl as [->|?]; [congruence|auto]).
Qed.

Lemma prove_rule_sound registry key def scope value layers o c :
  registry_ok registry → Forall (layer_wf registry) layers →
  registry_get registry key = Some def → shaped (kd_kind def) value →
  prove_rule_within_charter key def scope value layers = Ok tt → in_scope o scope →
  grants_layers registry layers key o = Some c → vle (kd_kind def) value c.
Proof.
  intros Hreg Hl Hdef Hsh. unfold prove_rule_within_charter.
  destruct (prove_layers _ _ _ _ _ _) as [[]|] eqn:Ep; cbn; [|done].
  destruct (layered_nondefault_grant_rules layers key) as [raising|] eqn:Er; cbn; [|done].
  destruct (subtract_each scope raising) as [un|] eqn:Es; [|done].
  destruct (is_nothing un) eqn:En; [|done]. intros _ Ho Hg.
  destruct (deciding layers key o) as [km|] eqn:Ed; last first.
  { exfalso. assert (in_scope o un) as Hun; [|by destruct un].
    eapply subtract_each_sound; [exact Es|done|]. intros s Hs Hos.
    destruct (nondefault_rules_elem _ _ _ _ Er Hs) as (l & km & r & Hin & Hkm & Hr & <-).
    destruct (deciding_covered layers key o l km) as [? ?]; [done|done| |congruence].
    apply covers_object_spec. eauto. }
  destruct (prove_layers_sound _ _ _ _ _ _ _ _ Ep Ho ltac:(set_solver) Ed) as (r & Hr & Hor & Hle).
  destruct (deciding_wf _ _ _ _ _ Hl Ed) as ((d & Hd & Hk & Hdf) & Hwf & _).
  assert (d = def) as -> by congruence. rewrite grants_deciding, Ed in Hg.
  destruct (value_at km o) as [w|] eqn:Ev; [|done]. injection Hg as ->.
  pose proof (proj1 (value_at_vle km o c c Hwf Ev) (reflexivity c)) as [_ Hall].
  rewrite <-Hk in Hle, Hsh |- *. transitivity (gr_value r); [|by apply Hall].
  destruct Hwf as [_ Hrs]. rewrite Forall_forall in Hrs. apply leq_value_vle; auto.
Qed.

(** * Non-inheritable knobs *)

Lemma pin_get layer key kind d k : bm_wf (gm_keys (l_grants layer)) →
  layer_get k (pin_layer_key_to_default layer key kind d) =
    if decide (k = key)
    then Some (push_rule (mk_grant All d) (default (mk_keymap kind d []) (layer_get key layer)))
    else layer_get k layer.
Proof.
  intros Hwf. unfold layer_get. cbn. case_decide as E.
  - subst k. by rewrite bm_get_entry_eq.
  - by rewrite bm_get_entry_ne.
Qed.

Section pin.
Context (registry : PolicyRegistry) (Hreg : registry_ok registry).

(** What pinning may add to the map of a key: the default, everywhere. *)
Definition pinned_from (def : KnobDef) (before after : option GrantKeyMap) : Prop :=
  ∀ r, r ∈ default [] (km_rules <$> after) →
    r ∈ default [] (km_rules <$> before) ∨ gr_value r = kd_default def.

Lemma pin_step_wf layer def : layer_wf registry layer →
  registry_get registry (kd_key def) = Some def →
  layer_wf registry (pin_layer_key_to_default layer (kd_key def) (kd_kind def) (kd_default def)).
Proof.
  intros [Hs Hm] Hdef. split; [by apply bm_entry_wf|]. intros k km. rewrite pin_get by done.
  case_decide as E; [|apply Hm]. subst k. intros [= <-].
  pose proof (ro_default _ Hreg _ _ Hdef) as Hd.
  destruct (layer_get (kd_key def) layer) as [km|] eqn:El; cbn.
  - destruct (Hm _ _ El) as ((d & Hd' & Hk & Hdf) & Hdk & Hrs).
    assert (d = def) as -> by congruence. split; [by exists def|]. split; [done|]. cbn.
    apply Forall_app. split; [done|]. constructor; [|constructor]. cbn. by rewrite Hk.
  - split; [by exists def|]. split; [done|]. by repeat constructor.
Qed.

Lemma pin_loop defs layer :
  (∀ d, d ∈ defs → registry_get registry (kd_key d) = Some d) → layer_wf registry layer →
  let layer' := fold_left (λ layer def,
    if kd_inherit def then layer
    else pin_layer_key_to_default layer (kd_key def) (kd_kind def) (kd_default def)) defs layer in
  layer_wf registry layer' ∧
  l_requires layer' = l_requires layer ∧ l_injects layer' = l_injects layer ∧
  l_validates layer' = l_validates layer ∧
  (∀ key def, registry_get registry key = Some def →
     pinned_from def (layer_get key layer) (layer_get key layer') ∧
     (kd_inherit def = true → layer_get key layer' = layer_get key layer) ∧
     (kd_inherit def = false → def ∈ defs ∨ (∃ km, layer_get key layer = Some km ∧
        mk_grant All (kd_default def) ∈ km_rules km) →
      ∃ km, layer_get key layer' = Some km ∧ mk_grant All (kd_default def) ∈ km_rules km)).
Proof.
  revert layer. induction defs as [|d defs IH]; intros layer Hd Hwf; cbn zeta; cbn [fold_left].
  { split; [done|]. do 3 (split; [done|]). intros key def Hdef. split; [intros r; by left|].
    split; [done|]. intros _ [?|?]; [set_solver|done]. }
  assert (∀ d0, d0 ∈ defs → registry_get registry (kd_key d0) = Some d0) as Hd' by (intros; apply Hd; by right).
  assert (registry_get registry (kd_key d) = Some d) as Hdd by (apply Hd; left).
  destruct (kd_inherit d) eqn:Ei.
  { destruct (IH layer Hd' Hwf) as (H1 & H2 & H3 & H4 & H5). do 4 (split; [done|]).
    intros key def Hdef. destruct (H5 key def Hdef) as (? & ? & H). split; [done|]. split; [done|].
    intros Hf [[->|?]%elem_of_cons|?]; [congruence|auto|auto]. }
  destruct (IH _ Hd' (pin_step_wf layer d Hwf Hdd)) as (H1 & H2 & H3 & H4 & H5).
  do 4 (split; [done|]). intros key def Hdef. destruct (H5 key def Hdef) as (Hp & Hin & Hni).
  rewrite pin_get in Hp, Hin, Hni by apply Hwf.
  case_decide as E; [|].
  - subst key. assert (d = def) as -> by congruence. split; [|split; [congruence|]].
    + intros r [Hr|?]%Hp; [|by right]. cbn in Hr. apply elem_of_app in Hr as [Hr|Hr].
      * left. by destruct (layer_get (kd_key def) layer).
      * right. by apply list_elem_of_singleton in Hr as ->.
    + intros _ _. apply Hni; [done|]. right. eexists. split; [done|]. cbn. set_solver.
  - split; [done|]. split; [done|]. intros Hf [[->|?]%elem_of_cons|?]; [|auto|auto].
    destruct E. by eapply registry_get_key in Hdef; [|apply Hreg].
Qed.
End pin.

(** * Admission *)

Lemma registry_iter_get registry d : registry_wf registry → d ∈ registry_iter registry →
  registry_get registry (kd_key d) = Some d.
Proof.
  intros [Hs Hk] ([k d'] & -> & Hin)%list_elem_of_fmap. cbn.
  rewrite <-(Hk _ _ Hin). by apply elem_bm_get.
Qed.

Lemma covering_app o a b : covering o (a ++ b) = covering o a ++ covering o b.
Proof. apply List.filter_app. Qed.

Section admit_draft.
Context {C : Type} {AC : AdmitCharter C}.
Context (registry : PolicyRegistry) (Hreg : registry_ok registry).
Context (charter : C) (draft : PolicyDoc) (layers : list Layer) (p : EffectivePolicy).
Context (Hcharter : charter_layers charter registry = Ok layers).
Context (Hlayers : Forall (layer_wf registry) layers).
Context (Hdraft : rules_shaped registry (pd_rules draft)).
Context (Hadmit : admit_draft charter draft registry = Ok p).

Lemma admit_inv : ∃ dl, layer_from_doc Draft draft registry = Ok dl ∧
  p = mk_policy registry (pin_noninheritable registry dl :: layers) ∧
  (∀ key km def r, layer_get key dl = Some km → registry_get registry key = Some def →
     r ∈ km_rules km → leq_value (kd_kind def) (gr_value r) (kd_default def) = Ok true ∨
       prove_rule_within_charter key def (gr_scope r) (gr_value r) layers = Ok tt) ∧
  check_inject_collisions (flatten_charter layers is_inject) (rules_of (pd_rules draft) is_inject)
    = Ok tt ∧
  check_validate_vs_inject (flatten_charter layers is_inject)
    (rules_of (pd_rules draft) is_validate) = Ok tt.
Proof using Hadmit Hcharter.
  revert Hadmit. unfold admit_draft. rewrite Hcharter. cbn [mbind result_bind].
  bind_ok as dg Eg. bind_ok as [] Et. do 2 (bind_ok as []).
  unfold layer_from_doc. rewrite Eg. cbn [mbind result_bind]. intros [= <-].
  eexists. split; [done|]. split; [done|]. split; [|done].
  intros key km def r Hkm Hdef Hr. rewrite try_for_ok in Et.
  assert (key ∈ grant_model_keys dg) as Hin by (by eapply bm_get_key).
  specialize (Et key Hin). unfold check_grant_key, grant_model_get in Et.
  unfold layer_get in Hkm. cbn in Hkm. rewrite Hkm, Hdef in Et. cbn in Et.
  rewrite try_for_ok in Et. specialize (Et r Hr). cbn in Et.
  destruct (leq_value _ _ _) as [[]|]; cbn in Et; [by left|by right|done].
Qed.

Lemma admit_layer : ∃ dl dl', layer_from_doc Draft draft registry = Ok dl ∧
  p = mk_policy registry (dl' :: layers) ∧ layer_wf registry dl' ∧
  l_requires dl' = rules_of (pd_rules draft) is_require ∧
  l_injects dl' = rules_of (pd_rules draft) is_inject ∧
  l_validates dl' = rules_of (pd_rules draft) is_validate ∧
  (∀ key def, registry_get registry key = Some def →
     pinned_from def (layer_get key dl) (layer_get key dl') ∧
     (kd_inherit def = true → layer_get key dl' = layer_get key dl) ∧
     (kd_inherit def = false → ∃ km, layer_get key dl' = Some km ∧
        mk_grant All (kd_default def) ∈ km_rules km)).
Proof using Hadmit Hcharter Hdraft Hreg.
  destruct admit_inv as (dl & Hdl & -> & _).
  exists dl, (pin_noninheritable registry dl). split; [done|]. split; [done|].
  destruct (pin_loop registry Hreg (registry_iter registry) dl) as (H1 & H2 & H3 & H4 & H5).
  { intros d. apply registry_iter_get, Hreg. }
  { by eapply layer_from_doc_wf. }
  split; [exact H1|]. unfold layer_from_doc in Hdl.
  destruct (grant_model_build _ _) as [dg|]; [|done]. injection Hdl as <-. cbn in H2, H3, H4.
  do 3 (split; [done|]). intros key def Hdef. destruct (H5 key def Hdef) as (? & ? & Hni).
  split; [done|]. split; [done|]. intros Hf. apply Hni; [done|]. left.
  apply list_elem_of_fmap. exists (key, def). split; [done|]. by apply bm_get_elem.
Qed.

Lemma admit_wf : ep_registry p = registry ∧ Forall (layer_wf registry) (ep_layers p).
Proof using Hadmit Hcharter Hdraft Hreg Hlayers.
  destruct admit_layer as (dl & dl' & _ & -> & Hwf & _). split; [done|]. by constructor.
Qed.

(** The value the admitted policy gives is no looser than the charter's. *)
Lemma admit_value_le key def o v c : registry_get registry key = Some def →
  grants p key o = Some v → grants_layers registry layers key o = Some c → vle (kd_kind def) v c.
Proof using Hadmit Hcharter Hdraft Hreg Hlayers.
  intros Hdef Hv Hc. destruct admit_inv as (dl & Hdl & _ & Hcheck & _).
  destruct admit_layer as (dl0 & dl' & Hdl0 & -> & Hwf & _ & _ & _ & Hpin).
  assert (dl0 = dl) as -> by congruence.
  pose proof (layer_from_doc_wf _ _ _ _ Hreg Hdraft Hdl) as [_ Hdlm].
  destruct (Hpin key def Hdef) as (Hfrom & _ & _). unfold grants in Hv. cbn in Hv.
  destruct (layer_get key dl') as [km|] eqn:El; [|assert (v = c) as -> by congruence; done].
  destruct (covers_object km o) eqn:Eo; [|assert (v = c) as -> by congruence; done].
  destruct (lw_maps _ _ Hwf _ _ El) as ((d & Hd & Hk & Hdf) & Hkm).
  assert (d = def) as -> by congruence.
  destruct (value_at km o) as [w|] eqn:Ev; [|done]. injection Hv as ->. rewrite <-Hk.
  apply (value_at_vle km o v c Hkm Ev). rewrite Hk, Hdf.
  destruct (grants_layers_shaped registry key def Hreg Hdef layers o c Hlayers Hc) as [_ Hdc].
  split; [done|]. intros r Hr Ho. destruct (Hfrom r) as [Hin| ->]; [done| |done].
  destruct (layer_get key dl) as [km0|] eqn:E0; cbn in Hin; [|set_solver].
  destruct (Hdlm _ _ E0) as ((d & Hd' & Hk0 & Hdf0) & _ & Hrs). assert (d = def) as -> by congruence.
  rewrite Forall_forall in Hrs. specialize (Hrs r Hin). rewrite Hk0 in Hrs.
  destruct (Hcheck key km0 def r E0 Hdef Hin) as [Hle|Hprove].
  - apply leq_value_vle in Hle; [|done|by eapply ro_default]. by transitivity (kd_default def).
  - by eapply prove_rule_sound.
Qed.

Lemma admit_value (key : KnobKey) (def : KnobDef) (o : ObjectName) :
  registry_get registry key = Some def → kd_kind def ≠ KDigest →
  ∃ v c, grants p key o = Some v ∧ grants (mk_policy registry layers) key o = Some c ∧
    leq_value (kd_kind def) v c = Ok true.
Proof using Hadmit Hcharter Hdraft Hreg Hlayers.
  intros Hdef Hk. destruct admit_wf as [Hpr Hpl].
  destruct (grants_layers_total registry key def Hdef layers o Hlayers Hk) as [c Hc].
  destruct (grants_layers_total registry key def Hdef (ep_layers p) o Hpl Hk) as [v Hv].
  assert (grants p key o = Some v) as Hv' by (unfold grants; by rewrite Hpr).
  exists v, c. split; [done|]. split; [done|]. apply leq_value_vle.
  - by destruct (grants_layers_shaped registry key def Hreg Hdef _ o v Hpl Hv).
  - by destruct (grants_layers_shaped registry key def Hreg Hdef _ o c Hlayers Hc).
  - by eapply admit_value_le.
Qed.

(** C2: no escalation. An admitted policy gives every object a value of every knob,
    and that value is no looser than the one the charter gives it. *)
Theorem admit_no_escalation (key : KnobKey) (def : KnobDef) (o : ObjectName) :
  registry_get registry key = Some def → kd_kind def ≠ KDigest →
  ∃ v c, grants p key o = Some v ∧ grants (mk_policy registry layers) key o = Some c ∧
    leq_value (kd_kind def) v c = Ok true.
Proof using Hadmit Hcharter Hdraft Hreg Hlayers. apply admit_value. Qed.

(** C29: obligations only accumulate. The requires, injects and validates of an
    admitted policy at an object are the charter's, none dropped and none narrowed,
    and the draft's own; charter injects come first. *)
Theorem admit_union_up (o : ObjectName) :
  let c := mk_policy registry layers in
  obligations p o
    = omap require_of (covering o (rules_of (pd_rules draft) is_require)) ++ obligations c o ∧
  injects_for p o
    = injects_for c o ++ omap inject_of (covering o (rules_of (pd_rules draft) is_inject)) ∧
  validates_for p o
    = validates_for c o ++ omap validate_of (covering o (rules_of (pd_rules draft) is_validate)).
Proof using Hadmit Hcharter Hdraft Hreg.
  destruct admit_layer as (dl & dl' & _ & -> & _ & Hr & Hi & Hv & _). cbn zeta.
  unfold obligations, injects_for, validates_for. cbn [ep_layers].
  rewrite reverse_cons, !map_app, !concat_app. cbn [map concat].
  by rewrite !app_nil_r, !covering_app, !omap_app, Hr, Hi, Hv.
Qed.

(** A knob marked not inheritable is conferred by nothing but the draft's own
    rules: at an object the draft is silent on it has the knob's default, whatever the
    charter grants; an inheritable one has the charter's value there. *)
Theorem admit_silent_draft (key : KnobKey) (def : KnobDef) (o : ObjectName) :
  registry_get registry key = Some def → kd_kind def ≠ KDigest →
  (∀ scope value, mk_rule scope (RGrant key value) ∈ pd_rules draft → ¬ in_scope o scope) →
  ∃ v, grants p key o = Some v ∧
    if kd_inherit def then grants (mk_policy registry layers) key o = Some v
    else veq (kd_kind def) v (kd_default def).
Proof using Hadmit Hcharter Hdraft Hreg Hlayers.
  intros Hdef Hk Hsilent.
  destruct admit_layer as (dl & dl' & Hdl & -> & Hwf & _ & _ & _ & Hpin).
  destruct (Hpin key def Hdef) as (Hfrom & Hinh & Hni).
  destruct (grants_layers_total registry key def Hdef (dl' :: layers) o) as [v Hv];
    [by constructor|done|]. exists v. split; [done|].
  assert (∀ r, r ∈ default [] (km_rules <$> layer_get key dl) → ¬ in_scope o (gr_scope r)) as Hdr.
  { intros r Hr. eapply Hsilent. apply elem_of_grants_for. unfold layer_from_doc in Hdl.
    destruct (grant_model_build _ _) as [m|] eqn:Eb; [|done]. injection Hdl as <-.
    apply build_get in Eb as [_ Hget]. unfold layer_get in Hr. cbn in Hr. rewrite Hget in Hr.
    unfold extend_map in Hr. destruct (grants_for key (pd_rules draft)); [done|].
    by rewrite Hdef in Hr. }
  cbn in Hv. destruct (kd_inherit def) eqn:Ei.
  - rewrite Hinh in Hv by done. destruct (layer_get key dl) as [km|]; [|done].
    rewrite (proj2 (covers_object_false km o)) in Hv by done. done.
  - destruct (Hni eq_refl) as (km & Ekm & Hall). rewrite Ekm in Hv.
    rewrite (proj2 (covers_object_spec km o)) in Hv; [|by exists (mk_grant All (kd_default def))].
    destruct (value_at km o) as [w|] eqn:Ev; [|done]. injection Hv as ->.
    destruct (lw_maps _ _ Hwf _ _ Ekm) as ((d & Hd & Hkk & Hdf) & Hkm).
    assert (d = def) as -> by congruence. apply (anti_symm (vle (kd_kind def))).
    + rewrite <-Hkk. apply (value_at_vle km o v _ Hkm Ev). rewrite Hkk, Hdf. split; [done|].
      intros r Hr Ho. unfold pinned_from in Hfrom. rewrite Ekm in Hfrom.
      destruct (Hfrom r Hr) as [?| ->]; [by destruct (Hdr r)|done].
    + rewrite <-Hkk, <-Hdf. by apply (value_at_vle km o v v Hkm Ev).
Qed.

(** An admitted draft contradicts no charter inject: on an object both cover, a
    draft inject agrees with it, and no draft predicate forbids one of its columns. *)
Theorem admit_respects_injects (o : ObjectName) (spec : InjectSpec) :
  spec ∈ injects_for (mk_policy registry layers) o →
  (∀ dspec, dspec ∈ omap inject_of (covering o (rules_of (pd_rules draft) is_inject)) →
     compatible spec dspec) ∧
  (∀ names col f,
     ForbiddenColumns names ∈ omap validate_of (covering o (rules_of (pd_rules draft) is_validate)) →
     col ∈ is_columns spec → f ∈ names → fold_ident (ic_name col) ≠ fold_ident f).
Proof using Hadmit Hcharter.
  intros (l & r & Hl & Hr & Ho & Er)%elem_of_injects_for. cbn in Hl.
  destruct admit_inv as (dl & _ & _ & _ & Hi & Hv). unfold check_inject_collisions in Hi.
  unfold check_validate_vs_inject in Hv. rewrite try_for_ok in Hi, Hv.
  assert (r ∈ flatten_charter layers is_inject) as Hfl.
  { unfold flatten_charter. apply list_elem_of_In, filter_In. split.
    - apply list_elem_of_In, elem_of_concat_map. exists l. rewrite elem_of_reverse.
      split; [done|]. apply elem_of_app. by left.
    - unfold inject_of in Er. by destruct (ru_kind r). }
  specialize (Hi r Hfl). specialize (Hv r Hfl). unfold inject_of in Er.
  destruct (ru_kind r); try done. injection Er as ->. rewrite try_for_ok in Hi, Hv.
  unfold covering. rewrite !omap_filter. setoid_rewrite list_elem_of_omap. split.
  - intros dspec (x & Hx & Ex). specialize (Hi x Hx). unfold in_scope in Ho.
    destruct (objects_membership (ru_scope x) o) eqn:Eo; [|done]. unfold inject_of in Ex.
    destruct (ru_kind x); try done. injection Ex as ->.
    rewrite (overlap_not_nothing _ _ o Ho Eo) in Hi. apply inject_specs_collide_none.
    by destruct (inject_specs_collide spec dspec).
  - intros names col f (x & Hx & Ex). apply forbidden_column_none. specialize (Hv x Hx).
    destruct (objects_membership (ru_scope x) o) eqn:Eo; [|done]. unfold validate_of in Ex.
    destruct (ru_kind x); try done. injection Ex as ->.
    rewrite (overlap_not_nothing _ _ o Ho Eo) in Hv.
    by destruct (forbidden_column spec (ForbiddenColumns names)).
Qed.
End admit_draft.

(** * Chains of admissions *)

(** The policies obtained from a finalized charter by admitting drafts, each against
    the policy before it. *)
Inductive descends (registry : PolicyRegistry) : EffectivePolicy → EffectivePolicy → Prop :=
  | descends_refl c : descends registry c c
  | descends_admit c q p draft :
      descends registry c q → rules_shaped registry (pd_rules draft) →
      admit_draft q draft registry = Ok p → descends registry c p.

Lemma descends_wf registry c p : registry_ok registry → descends registry c p →
  ep_registry c = registry → Forall (layer_wf registry) (ep_layers c) →
  ep_registry p = registry ∧ Forall (layer_wf registry) (ep_layers p).
Proof.
  intros Hreg. induction 1 as [|c q p draft _ IH Hs Ha]; intros Hr Hl; [done|].
  destruct (IH Hr Hl). by eapply (admit_wf registry Hreg q draft (ep_layers q)).
Qed.

(** C11: authority only ever shrinks along a chain: however many drafts are admitted
    one on top of the other, the result gives no object more than the charter the
    chain starts from. *)
Theorem chain_no_escalation (registry : PolicyRegistry) (c p : EffectivePolicy)
    (key : KnobKey) (def : KnobDef) (o : ObjectName) :
  registry_ok registry → ep_registry c = registry → Forall (layer_wf registry) (ep_layers c) →
  descends registry c p → registry_get registry key = Some def → kd_kind def ≠ KDigest →
  ∃ v w, grants p key o = Some v ∧ grants c key o = Some w ∧ leq_value (kd_kind def) v w = Ok true.
Proof.
  intros Hreg Hc Hl Hd Hdef Hk.
  enough (∃ v w, grants p key o = Some v ∧ grants c key o = Some w ∧ shaped (kd_kind def) v ∧
    shaped (kd_kind def) w ∧ vle (kd_kind def) v w) as (v & w & ? & ? & ? & ? & ?).
  { exists v, w. split; [done|]. split; [done|]. by apply leq_value_vle. }
  assert (∀ q, ep_registry q = registry → Forall (layer_wf registry) (ep_layers q) →
    ∃ v, grants q key o = Some v ∧ shaped (kd_kind def) v) as Htot.
  { intros q Hq Hql. destruct (grants_layers_total registry key def Hdef (ep_layers q) o Hql Hk)
      as [v Hv]. exists v. unfold grants. rewrite Hq. split; [done|].
    by destruct (grants_layers_shaped registry key def Hreg Hdef _ o v Hql Hv). }
  induction Hd as [c|c q p draft Hq IH Hs Ha].
  { destruct (Htot c) as (v & ? & ?); [done..|]. exists v, v. done. }
  destruct (IH Hc Hl) as (u & w & Hu & Hw & Hsu & Hsw & Hle).
  destruct (descends_wf _ _ _ Hreg Hq Hc Hl) as [Hqr Hql].
  destruct (admit_wf registry Hreg q draft (ep_layers q) p eq_refl Hql Hs Ha) as [Hpr Hpl].
  destruct (Htot p) as (v & Hv & Hsv); [done..|]. exists v, w.
  repeat (split; [done|]). transitivity u; [|done].
  eapply (admit_value_le registry Hreg q draft (ep_layers q) p eq_refl Hql Hs Ha); [done|done|].
  unfold grants in Hu. by rewrite Hqr in Hu.
Qed.
