(* ===== verification/Seal.v ===== *)
(** The seal, [seal.rs]: the canonical encoding of a policy's rule set with its layer
    boundaries, and the HMAC over it and the binding. SHA-256 and HMAC-SHA256 are
    parameters; the theorems name a collision instead of assuming there is none. *)

From S2P Require Export Boundary.

(** [slice::sort] on a totally ordered type: the order leaves one sorted sequence. *)
Fixpoint sort_insert `{Ord A} (x : A) (l : list A) : list A :=
  match l with
  | [] => [x]
  | y :: l' => match cmp x y with Gt => y :: sort_insert x l' | _ => x :: y :: l' end
  end.
Definition sort `{Ord A} (l : list A) : list A := foldr sort_insert [] l.

(** * Writers *)

(** [i64::to_be_bytes]: two's complement, which is what division towards minus
    infinity yields. *)
Definition i64_be (z : Z) : bytes := be_bytes 8 z.

Definition seal_byte (t : LayerTag) : byte :=
  match t with Base => "000"%byte | Env => "001"%byte | Draft => "002"%byte end.

Definition seal_write_value (v : KnobValue) : bytes :=
  match v with
  | VBool x => "000"%byte :: write_bool x
  | VUint x => "001"%byte :: u64_be x
  | VStrSet xs => "002"%byte :: write_str_vec (sort xs)
  | VStr s => "003"%byte :: write_str s
  end.

Definition write_seg (g : SegGlob) : bytes :=
  write_bool (negb (is_literal g)) ++ write_bytes (sg_prefix g) ++ write_bytes (sg_suffix g).

Definition write_pattern (p : Pattern) : bytes := write_seg (pt_schema p) ++ write_seg (pt_table p).
Definition write_patterns (pats : list Pattern) : bytes := write_vec write_pattern (sort pats).

Definition write_scope (s : Scope) : bytes :=
  match s with
  | Nothing => ["000"%byte]
  | All => ["001"%byte]
  | Of include exclude => "002"%byte :: write_patterns include ++ write_patterns exclude
  end.

Definition write_opt {A} (enc : A → bytes) (o : option A) : bytes :=
  match o with Some x => "001"%byte :: enc x | None => ["000"%byte] end.

Definition write_generator (g : AssignmentGenerator) : bytes :=
  match g with
  | Now => ["000"%byte]
  | TypedId => ["001"%byte]
  | Actor => ["002"%byte]
  | Increment amount => "003"%byte :: i64_be amount
  | Identity => ["004"%byte]
  end.

Definition write_event (e : AssignmentEvent) : bytes :=
  match e with Insert => ["000"%byte] | Write => ["001"%byte] | Delete => ["002"%byte] end.

Definition write_assignment (a : Assignment) : bytes :=
  write_generator (as_by a) ++ write_event (as_on a).

Definition write_collation (c : option InjectCollation) : bytes :=
  match c with None => ["000"%byte] | Some Bytewise => ["001"%byte] end.

Definition write_column (c : InjectColumn) : bytes :=
  write_str (ic_name c) ++ write_str (ic_ty c) ++ write_bool (ic_nullable c) ++
  write_opt write_str (ic_default c) ++ write_opt write_assignment (ic_assign c) ++
  write_collation (ic_collation c).

Definition write_index (i : InjectIndex) : bytes :=
  write_str (ix_name i) ++ write_str_vec (ix_columns i).

Definition write_author_pk (p : AuthorPkPolicy) : bytes :=
  match p with Allow => ["000"%byte] | Forbid => ["001"%byte] end.

Definition write_inject (spec : InjectSpec) : bytes :=
  write_vec write_column (is_columns spec) ++ write_vec write_index (is_indexes spec) ++
  write_opt write_str_vec (is_primary_key spec) ++
  write_author_pk (is_author_primary_key spec) ++ write_bool (is_mandatory spec).

Definition write_name_globs (globs : list NameGlob) : bytes :=
  write_vec (λ g, write_seg (ng_glob g)) globs.

Definition write_predicate (pred : ValidatePredicate) : bytes :=
  match pred with
  | HasPrimaryKey => ["000"%byte]
  | ColumnNamePattern require forbid =>
      "001"%byte :: write_name_globs require ++ write_name_globs forbid
  | ForbiddenColumns names => "002"%byte :: write_str_vec names
  | TypeNullability column ty nullable =>
      "003"%byte :: write_str column ++ write_opt write_str ty ++ write_opt write_bool nullable
  | RequireIndex columns => "004"%byte :: write_str_vec columns
  | TableNameForbidden patterns => "005"%byte :: write_patterns patterns
  end.

(** * The rule set *)

Record SealLayer := mk_seal_layer {
  sl_tag : LayerTag;
  sl_grants : list (KnobKey * Scope * KnobValue);
  sl_requires : list Rule;
  sl_injects : list Rule;
  sl_validates : list Rule
}.

Definition seal_layer (l : Layer) : SealLayer :=
  mk_seal_layer (l_tag l)
    (concat (map (λ '(key, km), map (λ r, (key, gr_scope r, gr_value r)) (km_rules km))
       (gm_keys (l_grants l))))
    (l_requires l) (l_injects l) (l_validates l).
Definition seal_layers (p : EffectivePolicy) : list SealLayer := map seal_layer (ep_layers p).

Definition write_grant (g : KnobKey * Scope * KnobValue) : bytes :=
  let '(key, scope, value) := g in write_str key ++ write_scope scope ++ seal_write_value value.

Definition write_rule (r : Rule) : bytes :=
  match ru_kind r with
  | RGrant _ _ => []
  | RRequire key value => write_str key ++ write_scope (ru_scope r) ++ seal_write_value value
  | RInject spec => write_scope (ru_scope r) ++ write_inject spec
  | RValidate pred => write_scope (ru_scope r) ++ write_predicate pred
  end.

Definition write_layer (l : SealLayer) : bytes :=
  "014"%byte :: seal_byte (sl_tag l) ::
  "016"%byte :: write_vec write_grant (sl_grants l) ++
  "017"%byte :: write_vec write_rule (rules_of (sl_requires l) is_require) ++
  "018"%byte :: write_vec write_rule (rules_of (sl_injects l) is_inject) ++
  "019"%byte :: write_vec write_rule (rules_of (sl_validates l) is_validate).

Definition canonical_rule_set (p : EffectivePolicy) : bytes :=
  "015"%byte :: write_vec write_layer (seal_layers p).

(** * Seals *)

Record SealedPolicy := mk_sealed {
  se_tag : bytes;
  se_nonce : bytes;
  se_dialect : bytes;
  se_matcher_version : Z;
  se_charter_version : Z;
  se_registry_digest : bytes
}.

Inductive SealError :=
  | TagMismatch
  | RegistryDigestMismatch
  | PolicyComposedUnderOtherRegistry
  | DialectMismatch
  | MatcherVersionMismatch
  | CharterVersionMismatch.

Definition SEAL_DOMAIN : bytes := lit "zeroship-migrate-policy/seal/v1".

(** What the MAC absorbs: the updates in order. *)
Definition seal_payload (policy : EffectivePolicy) (registry_digest dialect : bytes)
    (matcher_version charter_version : Z) (nonce : bytes) : bytes :=
  SEAL_DOMAIN ++ write_bytes (canonical_rule_set policy) ++ registry_digest ++
  write_bytes dialect ++ u32_be matcher_version ++ u64_be charter_version ++ nonce.

Section seal.
Context (sha256 : bytes → bytes) (hmac : bytes → bytes → bytes).

Definition mac_tag (mac_key : bytes) (policy : EffectivePolicy) (registry_digest dialect : bytes)
    (matcher_version charter_version : Z) (nonce : bytes) : bytes :=
  hmac mac_key (seal_payload policy registry_digest dialect matcher_version charter_version nonce).

Definition seal (policy : EffectivePolicy) (mac_key nonce dialect : bytes)
    (matcher_version charter_version : Z) : SealedPolicy :=
  let digest := registry_digest sha256 (ep_registry policy) in
  mk_sealed (mac_tag mac_key policy digest dialect matcher_version charter_version nonce)
    nonce dialect matcher_version charter_version digest.

Definition verify (self : SealedPolicy) (mac_key : bytes) (policy : EffectivePolicy)
    (expected_registry_digest dialect : bytes) (matcher_version charter_version : Z) :
    result SealError unit :=
  let policy_digest := registry_digest sha256 (ep_registry policy) in
  if negb (bool_decide (se_registry_digest self = expected_registry_digest))
  then Err RegistryDigestMismatch
  else if negb (bool_decide (policy_digest = se_registry_digest self))
  then Err PolicyComposedUnderOtherRegistry
  else if negb (bool_decide (se_dialect self = dialect)) then Err DialectMismatch
  else if negb (se_matcher_version self =? matcher_version)%Z then Err MatcherVersionMismatch
  else if negb (se_charter_version self =? charter_version)%Z then Err CharterVersionMismatch
  else if bool_decide (mac_tag mac_key policy policy_digest dialect matcher_version
                         charter_version (se_nonce self) = se_tag self)
  then Ok tt else Err TagMismatch.
End seal.
