(* ===== verification/SealFacts.v ===== *)
(** What a seal binds: the encoding of a policy determines its rules layer by layer up
    to the order inside string sets and scopes, a fresh seal verifies, and a policy
    that verifies decides as the sealed one does. *)

From S2P Require Export Seal.

(** * Sorting *)

Section sort.
Context `{OrdLaws A}.

Lemma sort_insert_perm (x : A) l : sort_insert x l ≡ₚ x :: l.
Proof.
  induction l as [|y l IH]; cbn; [done|]. destruct (cmp x y); [done|done|].
  rewrite IH. constructor.
Qed.

Lemma sort_perm (l : list A) : sort l ≡ₚ l.
Proof. induction l as [|x l IH]; cbn; [done|]. by rewrite sort_insert_perm, IH. Qed.

Lemma sort_insert_sorted (x : A) l :
  StronglySorted (λ a b, cmp a b ≠ Gt) l → StronglySorted (λ a b, cmp a b ≠ Gt) (sort_insert x l).
Proof.
  induction 1 as [|y l Hl IH Hy]; cbn; [by repeat constructor|].
  destruct (cmp x y) eqn:E.
  - apply cmp_eq in E as ->. constructor; [by constructor|]. constructor; [by rewrite cmp_refl|done].
  - constructor; [by constructor|]. constructor; [congruence|].
    eapply Forall_impl; [exact Hy|]. cbn. intros z Hz Hxz. destruct (cmp y z) eqn:Eyz; [|..|done].
    + apply cmp_eq in Eyz as ->. congruence.
    + rewrite (cmp_trans _ _ _ E Eyz) in Hxz. done.
  - constructor; [done|]. rewrite sort_insert_perm. constructor; [|done].
    apply cmp_gt in E. congruence.
Qed.

Lemma sort_sorted (l : list A) : StronglySorted (λ a b, cmp a b ≠ Gt) (sort l).
Proof. induction l; cbn; [constructor|by apply sort_insert_sorted]. Qed.

(** Sorting forgets exactly the order. *)
Lemma sort_eq (l k : list A) : sort l = sort k ↔ l ≡ₚ k.
Proof.
  split; [intros E; by rewrite <-(sort_perm l), E, sort_perm|]. intros Hp.
  apply (StronglySorted_unique_strong (λ a b : A, cmp a b ≠ Gt)); [|apply sort_sorted..|].
  - intros a b _ _ Hab Hba. destruct (cmp a b) eqn:E; [by apply cmp_eq| |done].
    destruct Hba. by apply cmp_gt.
  - by rewrite !sort_perm.
Qed.
End sort.

(** * Encodings up to a canonical form *)

Class DelimitsBy {A B} (enc : A → bytes) (ok : A → Prop) (f : A → B) : Prop :=
  delimits_by : ∀ (x y : A) (r s : bytes),
    ok x → ok y → enc x ++ r = enc y ++ s → f x = f y ∧ r = s.

#[global] Instance write_vec_delimits_by {A B} (enc : A → bytes) ok (f : A → B)
  `{!DelimitsBy enc ok f} :
  DelimitsBy (write_vec enc) (λ l, short l ∧ Forall ok l) (map f).
Proof.
  intros x y r s [Hx Hxs] [Hy Hys]. unfold write_vec. rewrite <-!app_assoc. intros E.
  apply delimits in E as [E1 E]; [|apply len_u32_fits..].
  apply len_u32_short in E1; [|done..]. clear Hx Hy. revert y E1 Hys E.
  induction Hxs as [|a x Ha Hxs IH]; intros [|b y] [=]; cbn; [done|].
  intros [Hb Hys]%Forall_cons. rewrite <-!app_assoc. intros E.
  apply delimits_by in E as [E1 E]; [|done..]. apply IH in E as [-> ->]; [|done..].
  by rewrite E1.
Qed.

(** Peels prefixes written up to a canonical form, then the plain ones. *)
Ltac delim_by_step :=
  match goal with
  | H : ?e ++ ?r = ?f ++ ?s |- _ =>
      let H1 := fresh in let H2 := fresh in
      apply delimits_by in H; [destruct H as [H1 H2]|done..]
  end.
Ltac delim_by := repeat first [delim_step | delim_by_step].
Ltac solve_delimits_by enc :=
  let x := fresh "x" in let y := fresh "y" in
  intros x y ? ? ? ? ?; destruct x, y; unfold enc in *; delim_by; subst; try done.

Definition canon_value (v : KnobValue) : KnobValue :=
  match v with VStrSet xs => VStrSet (sort xs) | _ => v end.
Definition canon_scope (s : Scope) : Scope :=
  match s with Of include exclude => Of (sort include) (sort exclude) | _ => s end.
Definition canon_pred (p : ValidatePredicate) : ValidatePredicate :=
  match p with TableNameForbidden patterns => TableNameForbidden (sort patterns) | _ => p end.
Definition canon_kind (k : RuleKind) : RuleKind :=
  match k with
  | RGrant key value => RGrant key (canon_value value)
  | RRequire key value => RRequire key (canon_value value)
  | RInject spec => RInject spec
  | RValidate pred => RValidate (canon_pred pred)
  end.
Definition canon_rule (r : Rule) : Rule := mk_rule (canon_scope (ru_scope r)) (canon_kind (ru_kind r)).

(** What a seal distinguishes of a layer, and of a policy. *)
Definition layer_view (l : SealLayer) : SealLayer :=
  mk_seal_layer (sl_tag l)
    (map (λ '(key, scope, value), (key, canon_scope scope, canon_value value)) (sl_grants l))
    (map canon_rule (rules_of (sl_requires l) is_require))
    (map canon_rule (rules_of (sl_injects l) is_inject))
    (map canon_rule (rules_of (sl_validates l) is_validate)).
Definition seal_view (p : EffectivePolicy) : list SealLayer := map layer_view (seal_layers p).

(** ** Sizes: every length is kept by its 32-bit prefix *)

Definition strs_sized (l : list bytes) : Prop := short l ∧ Forall short l.
Definition seg_sized (g : SegGlob) : Prop := short (sg_prefix g) ∧ short (sg_suffix g).
Definition pattern_sized (p : Pattern) : Prop := seg_sized (pt_schema p) ∧ seg_sized (pt_table p).
Definition patterns_sized (l : list Pattern) : Prop := short l ∧ Forall pattern_sized l.
Definition scope_sized (s : Scope) : Prop := patterns_sized (includes s) ∧ patterns_sized (excludes s).
Definition opt_sized {A} (ok : A → Prop) (o : option A) : Prop :=
  match o with Some x => ok x | None => True end.
Definition assignment_sized (a : Assignment) : Prop := generator_sized (as_by a).
Definition column_sized (c : InjectColumn) : Prop :=
  short (ic_name c) ∧ short (ic_ty c) ∧ opt_sized short (ic_default c) ∧
  opt_sized assignment_sized (ic_assign c).
Definition index_sized (i : InjectIndex) : Prop := short (ix_name i) ∧ strs_sized (ix_columns i).
Definition inject_sized (s : InjectSpec) : Prop :=
  (short (is_columns s) ∧ Forall column_sized (is_columns s)) ∧
  (short (is_indexes s) ∧ Forall index_sized (is_indexes s)) ∧
  opt_sized strs_sized (is_primary_key s).
Definition name_globs_sized (l : list NameGlob) : Prop :=
  short l ∧ Forall (λ g, seg_sized (ng_glob g)) l.
Definition pred_sized (p : ValidatePredicate) : Prop :=
  match p with
  | HasPrimaryKey => True
  | ColumnNamePattern r f => name_globs_sized r ∧ name_globs_sized f
  | ForbiddenColumns names => strs_sized names
  | TypeNullability column ty _ => short column ∧ opt_sized short ty
  | RequireIndex columns => strs_sized columns
  | TableNameForbidden patterns => patterns_sized patterns
  end.
Definition grant_sized (g : KnobKey * Scope * KnobValue) : Prop :=
  let '(key, scope, value) := g in short key ∧ scope_sized scope ∧ value_sized value.
Definition rule_sized (r : Rule) : Prop :=
  scope_sized (ru_scope r) ∧
  match ru_kind r with
  | RGrant key value | RRequire key value => short key ∧ value_sized value
  | RInject spec => inject_sized spec
  | RValidate pred => pred_sized pred
  end.
Definition layer_sized (l : SealLayer) : Prop :=
  (short (sl_grants l) ∧ Forall grant_sized (sl_grants l)) ∧
  (short (sl_requires l) ∧ Forall rule_sized (sl_requires l)) ∧
  (short (sl_injects l) ∧ Forall rule_sized (sl_injects l)) ∧
  (short (sl_validates l) ∧ Forall rule_sized (sl_validates l)).
Definition policy_sized (p : EffectivePolicy) : Prop :=
  short (seal_layers p) ∧ Forall layer_sized (seal_layers p) ∧ short (canonical_rule_set p).

(** ** Every writer delimits *)

#[global] Arguments i64_be : simpl never.
#[global] Arguments write_collation : simpl never.
#[global] Typeclasses Opaque i64_be u64_be u32_be.
#[global] Arguments write_opt : simpl never.
#[global] Arguments write_patterns : simpl never.
#[global] Arguments write_scope : simpl never.
#[global] Arguments seal_write_value : simpl never.

Lemma short_perm {A} (l k : list A) : l ≡ₚ k → short l → short k.
Proof. unfold short. intros Hp. by rewrite Hp. Qed.

Lemma sized_sort `{OrdLaws A} (ok : A → Prop) l :
  short l ∧ Forall ok l → short (sort l) ∧ Forall ok (sort l).
Proof. intros [Hs Ho]. split; [by eapply short_perm, Hs; rewrite sort_perm|by rewrite sort_perm]. Qed.

Lemma be_bytes_mod n z : be_bytes n (z `mod` 2 ^ (8 * Z.of_nat n)) = be_bytes n z.
Proof.
  enough (∀ m k, be_bytes m (z `mod` 2 ^ (8 * Z.of_nat (m + k))) = be_bytes m z) as H.
  { specialize (H n 0). by rewrite Nat.add_0_r in H. }
  clear n. induction m as [|m IH]; intros k; cbn [be_bytes]; [done|]. f_equal.
  - do 2 f_equal. replace (8 * Z.of_nat (S m + k))%Z with (8 * Z.of_nat m + (8 + 8 * Z.of_nat k))%Z by lia.
    rewrite Z.pow_add_r, Z.rem_mul_r by lia. set (P := (2 ^ (8 * Z.of_nat m))%Z).
    assert (0 < P)%Z by (unfold P; lia).
    assert (∀ a b, 0 ≤ a < P → (a + P * b) / P = b)%Z as Hdiv
      by (intros a b ?; symmetry; apply (Z.div_unique _ _ _ a); lia).
    rewrite Hdiv by (apply Z.mod_pos_bound; lia). rewrite Z.pow_add_r by lia.
    change (2 ^ 8)%Z with 256%Z. rewrite Z.rem_mul_r by lia.
    rewrite <-Z.add_mod_idemp_r, Z.mul_comm, Z_mod_mult, Z.add_0_r, Z.mod_mod by lia. done.
  - replace (S m + k) with (m + S k) by lia. apply IH.
Qed.

#[global] Instance i64_be_delimits : Delimits i64_be (λ z, i64_min ≤ z ≤ i64_max)%Z.
Proof.
  intros x y r s Hx Hy. unfold i64_be. rewrite <-(be_bytes_mod 8 x), <-(be_bytes_mod 8 y).
  intros E. change (8 * Z.of_nat 8)%Z with 64%Z in E.
  apply delimits in E as [E ->]; [|unfold fits; apply Z.mod_pos_bound; lia..].
  unfold i64_min, i64_max in *. split; [|done].
  pose proof (Z.div_mod x (2 ^ 64)). pose proof (Z.div_mod y (2 ^ 64)).
  assert (x / 2 ^ 64 = y / 2 ^ 64 ∨ x / 2 ^ 64 ≠ y / 2 ^ 64)%Z as [?|?] by lia; [lia|].
  pose proof (Z.mod_pos_bound x (2 ^ 64)). pose proof (Z.mod_pos_bound y (2 ^ 64)). nia.
Qed.

#[global] Instance write_opt_delimits {A} (enc : A → bytes) ok `{!Delimits enc ok} :
  Delimits (write_opt enc) (opt_sized ok).
Proof. solve_delimits (@write_opt). Qed.

#[global] Instance write_seg_delimits : Delimits write_seg seg_sized.
Proof.
  intros [p1 s1 h1] [p2 s2 h2] r s [H1 H2] [H3 H4]. unfold write_seg. cbn in *. intros E.
  delim. destruct h1, h2; done.
Qed.

#[global] Instance write_pattern_delimits : Delimits write_pattern pattern_sized.
Proof.
  intros [s1 t1] [s2 t2] r s [H1 H2] [H3 H4]. unfold write_pattern. cbn in *. intros E.
  by delim.
Qed.

#[global] Instance write_patterns_delimits : DelimitsBy write_patterns patterns_sized sort.
Proof.
  intros x y r s Hx%sized_sort Hy%sized_sort E. unfold write_patterns in E. by apply delimits in E.
Qed.

#[global] Instance write_scope_delimits : DelimitsBy write_scope scope_sized canon_scope.
Proof.
  intros x y r s [Hx1 Hx2] [Hy1 Hy2] E. destruct x, y; unfold write_scope in E; cbn in *;
    delim_by; try done. split; [by f_equal|done].
Qed.

#[global] Instance seal_write_value_delimits :
  DelimitsBy seal_write_value value_sized canon_value.
Proof.
  intros x y r s Hx Hy E. destruct x, y; unfold seal_write_value in E; cbn in *; delim;
    try done; try (by split).
  match goal with H : write_str_vec _ ++ _ = _ |- _ =>
    apply delimits in H as [-> ->]; [done|by apply sized_sort..]
  end.
Qed.

#[global] Instance write_generator_delimits : Delimits write_generator generator_sized.
Proof. solve_delimits write_generator. Qed.
#[global] Instance write_event_delimits : Delimits write_event (λ _, True).
Proof. solve_delimits write_event. Qed.
#[global] Arguments write_generator : simpl never.
#[global] Arguments write_event : simpl never.

#[global] Instance write_assignment_delimits : Delimits write_assignment assignment_sized.
Proof.
  intros [b1 o1] [b2 o2] r s Hx Hy E. unfold assignment_sized, write_assignment in *.
  cbn in *. by delim.
Qed.

#[global] Instance write_collation_delimits : Delimits write_collation (λ _, True).
Proof. intros [[]|] [[]|] r s _ _ E; unfold write_collation in E; by delim. Qed.

#[global] Instance write_column_delimits : Delimits write_column column_sized.
Proof.
  intros [n1 t1 u1 d1 a1 c1] [n2 t2 u2 d2 a2 c2] r s (?&?&?&?) (?&?&?&?) E.
  unfold write_column in E. cbn in *. by delim.
Qed.

#[global] Instance write_index_delimits : Delimits write_index index_sized.
Proof. intros [n1 c1] [n2 c2] r s [??] [??] E. unfold write_index in E. cbn in *. by delim. Qed.
#[global] Instance write_author_pk_delimits : Delimits write_author_pk (λ _, True).
Proof. solve_delimits write_author_pk. Qed.
#[global] Arguments write_author_pk : simpl never.

#[global] Instance write_inject_delimits : Delimits write_inject inject_sized.
Proof.
  intros [c1 i1 p1 a1 m1] [c2 i2 p2 a2 m2] r s (?&?&?) (?&?&?) E. unfold write_inject in E.
  cbn in *. by delim.
Qed.

#[global] Instance write_name_globs_delimits : Delimits write_name_globs name_globs_sized.
Proof.
  assert (Inj (=) (=) ng_glob) by (intros [] []; cbn; congruence).
  apply write_vec_delimits, (delimits_comap ng_glob write_seg seg_sized).
Qed.
#[global] Arguments write_name_globs : simpl never.

#[global] Instance write_opt_bool_delimits : Delimits (write_opt write_bool) (λ _, True).
Proof.
  intros x y r s _ _ E. apply (write_opt_delimits write_bool (λ _, True)) in E; [done|..].
  - by destruct x.
  - by destruct y.
Qed.

#[global] Instance write_predicate_delimits : DelimitsBy write_predicate pred_sized canon_pred.
Proof.
  intros x y r s Hx Hy E. destruct x, y; unfold write_predicate in E; cbn in *;
    repeat match goal with H : _ ∧ _ |- _ => destruct H end; delim_by; subst; try done.
  split; [by f_equal|done].
Qed.

Lemma write_grant_delimits : DelimitsBy write_grant grant_sized
  (λ '(key, scope, value), (key, canon_scope scope, canon_value value)).
Proof.
  intros [[k1 s1] v1] [[k2 s2] v2] r s (?&?&?) (?&?&?) E. unfold write_grant in E.
  delim_by. split; [congruence|done].
Qed.
#[global] Existing Instance write_grant_delimits.

(** The rules of one section of a layer are of one kind. *)
Lemma write_rule_delimits (pred : RuleKind → bool) :
  pred = is_require ∨ pred = is_inject ∨ pred = is_validate →
  DelimitsBy write_rule (λ r, pred (ru_kind r) = true ∧ rule_sized r) canon_rule.
Proof.
  intros Hp [s1 k1] [s2 k2] r s [Hk1 [Hs1 Hr1]] [Hk2 [Hs2 Hr2]] E.
  unfold write_rule, canon_rule in *. cbn in *.
  destruct Hp as [->|[->| ->]]; destruct k1; try done; destruct k2; try done; cbn in *;
    repeat match goal with H : _ ∧ _ |- _ => destruct H end; delim_by; subst;
    (split; [congruence|done]).
Qed.

Lemma rules_of_sized pred rules : short rules ∧ Forall rule_sized rules →
  short (rules_of rules pred) ∧
  Forall (λ r, pred (ru_kind r) = true ∧ rule_sized r) (rules_of rules pred).
Proof.
  intros [Hs Hr]. unfold rules_of. split.
  - unfold short in *. pose proof (filter_length_le (λ r, pred (ru_kind r)) rules). lia.
  - rewrite Forall_forall in Hr |- *. intros r [Hin Hp]%list_elem_of_In%filter_In.
    split; [done|]. by apply Hr, list_elem_of_In.
Qed.

Lemma write_rules_delimits pred x y r s :
  pred = is_require ∨ pred = is_inject ∨ pred = is_validate →
  short x ∧ Forall rule_sized x → short y ∧ Forall rule_sized y →
  write_vec write_rule (rules_of x pred) ++ r = write_vec write_rule (rules_of y pred) ++ s →
  map canon_rule (rules_of x pred) = map canon_rule (rules_of y pred) ∧ r = s.
Proof.
  intros Hp Hx Hy. pose proof (write_rule_delimits pred Hp).
  apply (delimits_by (DelimitsBy := write_vec_delimits_by write_rule _ canon_rule));
    by apply rules_of_sized.
Qed.

#[global] Instance write_layer_delimits : DelimitsBy write_layer layer_sized layer_view.
Proof.
  intros [t1 g1 r1 i1 v1] [t2 g2 r2 i2 v2] r s (Hg1 & Hr1 & Hi1 & Hv1) (Hg2 & Hr2 & Hi2 & Hv2).
  unfold write_layer, layer_view. cbn in *. intros E. apply cons_inj in E as [_ E].
  apply cons_inj in E as [Et E]. assert (t1 = t2) as -> by (by destruct t1, t2). clear Et.
  apply cons_inj in E as [_ E]. rewrite <-!app_assoc in E.
  apply delimits_by in E as [Eg E]; [|done..]. cbn in E. apply cons_inj in E as [_ E].
  rewrite <-!app_assoc in E. apply write_rules_delimits in E as [Er E]; [|by auto..].
  cbn in E. apply cons_inj in E as [_ E].
  rewrite <-!app_assoc in E. apply write_rules_delimits in E as [Ei E]; [|by auto..].
  cbn in E. apply cons_inj in E as [_ E].
  apply write_rules_delimits in E as [Ev E]; [|by auto..].
  split; [f_equal; assumption|done].
Qed.

Lemma canonical_rule_set_view p q : policy_sized p → policy_sized q →
  canonical_rule_set p = canonical_rule_set q → seal_view p = seal_view q.
Proof.
  intros (Hp & Hpl & _) (Hq & Hql & _) E. unfold canonical_rule_set in E.
  apply cons_inj in E as [_ E].
  refine (proj1 (delimits_by (enc := write_vec write_layer) (f := map layer_view) _ _ [] [] _ _ _));
    [done..|by rewrite E].
Qed.

(** * Seal and verify *)

Section seal_facts.
Context (sha256 : bytes → bytes) (hmac : bytes → bytes → bytes).

(** A fresh seal verifies against the policy it was minted for, under the same
    key and binding, when the verifier pins that policy's registry. *)
Theorem seal_verifies (p : EffectivePolicy) (mac_key nonce dialect : bytes)
    (matcher_version charter_version : Z) :
  verify sha256 hmac (seal sha256 hmac p mac_key nonce dialect matcher_version charter_version)
    mac_key p (registry_digest sha256 (ep_registry p)) dialect matcher_version charter_version
  = Ok tt.
Proof.
  unfold verify, seal. cbn [se_registry_digest se_dialect se_matcher_version se_charter_version
    se_tag se_nonce]. by rewrite !bool_decide_eq_true_2, !Z.eqb_refl by done.
Qed.

Lemma verify_ok s mac_key p expected dialect matcher_version charter_version :
  verify sha256 hmac s mac_key p expected dialect matcher_version charter_version = Ok tt ↔
  se_registry_digest s = expected ∧ registry_digest sha256 (ep_registry p) = expected ∧
  se_dialect s = dialect ∧ se_matcher_version s = matcher_version ∧
  se_charter_version s = charter_version ∧
  mac_tag hmac mac_key p expected dialect matcher_version charter_version (se_nonce s) = se_tag s.
Proof.
  unfold verify. case_bool_decide as E1; cbn; [|split; [done|tauto]].
  case_bool_decide as E2; cbn; [|split; [done|intros (?&?&_); congruence]].
  case_bool_decide as E3; cbn; [|split; [done|tauto]].
  destruct (Z.eqb_spec (se_matcher_version s) matcher_version); cbn; [|split; [done|tauto]].
  destruct (Z.eqb_spec (se_charter_version s) charter_version); cbn; [|split; [done|tauto]].
  rewrite E2, E1. case_bool_decide; [|split; [done|tauto]]. split; [|done]. intros _.
  repeat (split; [congruence|]). done.
Qed.

Lemma seal_payload_inj p q d1 d2 l1 l2 m1 m2 c1 c2 n1 n2 :
  policy_sized p → policy_sized q → length d1 = length d2 → short l1 → short l2 →
  fits 4 m1 → fits 4 m2 → fits 8 c1 → fits 8 c2 →
  seal_payload p d1 l1 m1 c1 n1 = seal_payload q d2 l2 m2 c2 n2 →
  seal_view p = seal_view q ∧ d1 = d2 ∧ l1 = l2 ∧ m1 = m2 ∧ c1 = c2 ∧ n1 = n2.
Proof.
  intros Hp Hq Hd ?????? E. unfold seal_payload in E. apply app_inv_head in E.
  apply delimits in E as [Er E]; [|apply Hp|apply Hq].
  apply canonical_rule_set_view in Er; [|done..].
  apply app_eq_length in E as [-> E]; [|done]. delim. done.
Qed.

End seal_facts.

(** * A seal fixes the decisions *)

Lemma existsb_perm {A} (f : A → bool) l k : l ≡ₚ k → existsb f l = existsb f k.
Proof.
  intros Hp. apply eq_true_iff_eq. rewrite !existsb_exists. by setoid_rewrite Hp.
Qed.

Lemma canon_scope_membership s o : objects_membership (canon_scope s) o = objects_membership s o.
Proof.
  destruct s as [| |inc exc]; try done. cbn.
  by rewrite !(existsb_perm _ _ _ (sort_perm _)).
Qed.

Lemma canon_value_den kind v : veq kind (canon_value v) v.
Proof.
  intros x. destruct kind, v; cbn; try done. destruct x; [done|]. by rewrite sort_perm.
Qed.

(** The section of a layer for one kind of content, read through its view. *)
Lemma view_content {B} (f : Rule → option B) (pred : RuleKind → bool) o l k :
  (∀ r, f (canon_rule r) = f r) → (∀ r, pred (ru_kind r) = false → f r = None) →
  map canon_rule (rules_of l pred) = map canon_rule (rules_of k pred) →
  omap f (covering o l) = omap f (covering o k).
Proof.
  intros Hc Hp E. set (h := λ r, if objects_membership (ru_scope r) o then f r else None).
  assert (∀ l, omap f (covering o l) = omap h (map canon_rule (rules_of l pred))) as H.
  { clear -Hc Hp. intros l. unfold covering. rewrite omap_filter. fold h.
    induction l as [|r l IH]; [done|]. unfold rules_of in *. cbn [List.filter].
    destruct (pred (ru_kind r)) eqn:Er; cbn [map omap list_omap].
    - change (omap h (r :: l)) with (match h r with Some x => x :: omap h l | None => omap h l end).
      change (omap h (canon_rule r :: ?m)) with
        (match h (canon_rule r) with Some x => x :: omap h m | None => omap h m end).
      assert (h (canon_rule r) = h r) as ->.
      { unfold h. cbn [canon_rule ru_scope]. by rewrite canon_scope_membership, Hc. }
      by rewrite IH.
    - change (omap h (r :: l)) with (match h r with Some x => x :: omap h l | None => omap h l end).
      unfold h at 1. rewrite (Hp r Er). by destruct (objects_membership _ _). }
  by rewrite !H, E.
Qed.

Lemma elem_of_seal_grants l key s v : bm_wf (gm_keys (l_grants l)) →
  (key, s, v) ∈ sl_grants (seal_layer l) ↔
  mk_grant s v ∈ default [] (km_rules <$> layer_get key l).
Proof.
  intros Hwf. cbn. rewrite elem_of_concat_map. unfold layer_get. split.
  - intros ([k km] & Hin & (r & [= -> -> ->] & Hr)%list_elem_of_fmap).
    rewrite (elem_bm_get _ _ _ Hwf Hin). cbn. by destruct r.
  - destruct (bm_get key (gm_keys (l_grants l))) as [km|] eqn:E; cbn; [|set_solver]. intros Hr.
    exists (key, km). split; [by apply bm_get_elem|]. apply list_elem_of_fmap.
    by exists (mk_grant s v).
Qed.

(** The rules of a key in two layers with one view correspond. *)
Lemma view_grants l k key s v : bm_wf (gm_keys (l_grants l)) → bm_wf (gm_keys (l_grants k)) →
  layer_view (seal_layer l) = layer_view (seal_layer k) →
  mk_grant s v ∈ default [] (km_rules <$> layer_get key l) →
  ∃ s' v', mk_grant s' v' ∈ default [] (km_rules <$> layer_get key k) ∧
    canon_scope s' = canon_scope s ∧ canon_value v' = canon_value v.
Proof.
  intros Hl Hk E Hin. rewrite <-elem_of_seal_grants in Hin by done.
  assert ((key, canon_scope s, canon_value v) ∈ sl_grants (layer_view (seal_layer l))) as Hv.
  { apply list_elem_of_fmap. exists (key, s, v). done. }
  rewrite E in Hv. apply list_elem_of_fmap in Hv as ([[k' s'] v'] & [= -> Hs Hv] & Hin').
  exists s', v'. by rewrite <-elem_of_seal_grants.
Qed.

Section same_view.
Context (registry : PolicyRegistry) (Hreg : registry_ok registry).

Lemma view_covers l k key o : layer_wf registry l → layer_wf registry k →
  layer_view (seal_layer l) = layer_view (seal_layer k) →
  (∃ r, r ∈ default [] (km_rules <$> layer_get key l) ∧ in_scope o (gr_scope r)) →
  ∃ r, r ∈ default [] (km_rules <$> layer_get key k) ∧ in_scope o (gr_scope r).
Proof.
  intros [Hl _] [Hk _] E ([s v] & Hr & Ho).
  destruct (view_grants l k key s v) as (s' & v' & Hr' & Hs & _); [done..|].
  exists (mk_grant s' v'). split; [done|]. unfold in_scope in *. cbn in *.
  by rewrite <-canon_scope_membership, Hs, canon_scope_membership.
Qed.

Lemma view_den l k key def o v w : layer_wf registry l → layer_wf registry k →
  layer_view (seal_layer l) = layer_view (seal_layer k) →
  registry_get registry key = Some def →
  grants (layer_policy registry l) key o = Some v →
  grants (layer_policy registry k) key o = Some w → vle (kd_kind def) v w.
Proof.
  intros Hl Hk E Hdef Hv Hw x. rewrite (single_layer_den _ _ _ _ _ _ Hl Hdef Hv),
    (single_layer_den _ _ _ _ _ _ Hk Hdef Hw).
  intros [?|([s u] & Hr & Ho & Hx)]; [by left|right].
  destruct (view_grants l k key s u) as (s' & u' & Hr' & Hs & Hu); [apply Hl|apply Hk|done|done|].
  exists (mk_grant s' u'). split; [done|]. unfold in_scope in *. cbn in *. split.
  - by rewrite <-canon_scope_membership, Hs, canon_scope_membership.
  - apply (canon_value_den _ u'). rewrite Hu. by apply canon_value_den.
Qed.
End same_view.

Lemma grants_layers_cons registry l ls key o :
  grants_layers registry (l :: ls) key o =
    if match layer_get key l with Some km => covers_object km o | None => false end
    then grants (layer_policy registry l) key o else grants_layers registry ls key o.
Proof.
  unfold grants. cbn. destruct (layer_get key l) as [km|]; [|done]. by destruct (covers_object km o).
Qed.

Lemma layer_covers key l o :
  match layer_get key l with Some km => covers_object km o | None => false end = true ↔
  ∃ r, r ∈ default [] (km_rules <$> layer_get key l) ∧ in_scope o (gr_scope r).
Proof.
  destruct (layer_get key l); cbn; [apply covers_object_spec|]. split; [done|].
  intros (? & ? & _). set_solver.
Qed.

Lemma view_grants_veq registry key def o ls ks v w :
  registry_ok registry → Forall (layer_wf registry) ls → Forall (layer_wf registry) ks →
  map layer_view (map seal_layer ls) = map layer_view (map seal_layer ks) →
  registry_get registry key = Some def →
  grants_layers registry ls key o = Some v → grants_layers registry ks key o = Some w →
  veq (kd_kind def) v w.
Proof.
  intros Hreg Hls. revert ks. induction Hls as [|l ls Hl Hls IH]; intros [|k ks] Hks E Hdef; try done.
  { intros Hv Hw. assert (v = w) as -> by congruence. done. }
  cbn [map] in E. apply cons_inj in E as [Elk E]. apply Forall_cons in Hks as [Hk Hks].
  rewrite !grants_layers_cons.
  assert (match layer_get key l with Some km => covers_object km o | None => false end
    = match layer_get key k with Some km => covers_object km o | None => false end) as ->.
  { apply eq_true_iff_eq. rewrite !layer_covers. by split; eapply view_covers. }
  destruct (match layer_get key k with Some km => covers_object km o | None => false end);
    [|by apply IH].
  intros Hv Hw. apply (anti_symm (vle (kd_kind def))).
  - exact (view_den registry l k key def o v w Hl Hk Elk Hdef Hv Hw).
  - exact (view_den registry k l key def o w v Hk Hl (eq_sym Elk) Hdef Hw Hv).
Qed.

Lemma view_concat {B} (f : Rule → option B) (g : Layer → list Rule) o ls ks :
  (∀ l k, layer_view (seal_layer l) = layer_view (seal_layer k) →
     omap f (covering o (g l)) = omap f (covering o (g k))) →
  map layer_view (map seal_layer ls) = map layer_view (map seal_layer ks) →
  omap f (covering o (concat (map g ls))) = omap f (covering o (concat (map g ks))).
Proof.
  intros Hg. revert ks. induction ls as [|l ls IH]; intros [|k ks] E; try done.
  cbn [map] in E. apply cons_inj in E as [Elk E]. cbn [map concat].
  by rewrite !covering_app, !omap_app, (Hg l k Elk), (IH ks E).
Qed.

Lemma view_reverse ls ks :
  map layer_view (map seal_layer ls) = map layer_view (map seal_layer ks) →
  map layer_view (map seal_layer (reverse ls)) = map layer_view (map seal_layer (reverse ks)).
Proof.
  intros E. change (map ?f) with (fmap (M := list) f) in *. by rewrite !fmap_reverse, E.
Qed.

(** What a seal binds is the decision: two policies over one registry with the
    same sealed view give every object the same value of every knob, the same injects
    and the same forbidden columns. *)
Theorem sealed_same_decisions (registry : PolicyRegistry) (ls ks : list Layer)
    (key : KnobKey) (def : KnobDef) (o : ObjectName) :
  registry_ok registry → Forall (layer_wf registry) ls → Forall (layer_wf registry) ks →
  seal_view (mk_policy registry ls) = seal_view (mk_policy registry ks) →
  registry_get registry key = Some def → kd_kind def ≠ KDigest →
  (∃ v w, grants (mk_policy registry ls) key o = Some v ∧
     grants (mk_policy registry ks) key o = Some w ∧ veq (kd_kind def) v w) ∧
  injects_for (mk_policy registry ls) o = injects_for (mk_policy registry ks) o ∧
  map canon_pred (validates_for (mk_policy registry ls) o)
    = map canon_pred (validates_for (mk_policy registry ks) o).
Proof.
  intros Hreg Hls Hks E Hdef Hk. unfold seal_view, seal_layers in E. cbn [ep_layers] in E. split.
  { destruct (grants_layers_total registry key def Hdef ls o Hls Hk) as [v Hv].
    destruct (grants_layers_total registry key def Hdef ks o Hks Hk) as [w Hw].
    exists v, w. split; [done|]. split; [done|]. by eapply (view_grants_veq registry key def o ls ks). }
  apply view_reverse in E. unfold injects_for, validates_for. cbn [ep_layers]. split.
  - apply view_concat; [|done]. intros l k [= _ _ _ Hi _].
    apply (view_content _ is_inject); [|by intros [? []]|done]. by intros [? []].
  - change (map canon_pred) with (fmap (M := list) canon_pred). rewrite !list_fmap_omap.
    apply view_concat; [|done]. intros l k [= _ _ _ _ Hv].
    apply (view_content _ is_validate); [|by intros [? []]|done]. intros [? [| | |[]]]; try done.
    cbn. do 2 f_equal. apply sort_eq. by rewrite sort_perm.
Qed.
