(* ===== verification/Document.v ===== *)
(** The strict document loader, [document.rs]: the wire form of a document and its
    resolution against the registry, with every legality gate. The TOML and JSON
    parsers and the profile catalog are parameters. *)

From S2P Require Export Boundary.

Definition SUPPORTED_POLICY_VERSION : Z := 1.

Inductive LoadContext := CtxRootCharter | CtxTrustedCatalogEntry | CtxNonRootLayer.
#[global] Instance load_context_eq_dec : EqDecision LoadContext.
Proof. solve_decision. Defined.

Definition is_trusted (c : LoadContext) : bool :=
  match c with CtxRootCharter | CtxTrustedCatalogEntry => true | CtxNonRootLayer => false end.

(** * Errors *)

(** The debug rendering of an inner error, kept as the error. *)
Inductive LoadDetail :=
  | ValueDetail (e : KnobValueError)
  | OrderDetail (e : ValueOrderError)
  | ComposeDetail (e : ComposeError).

Inductive LoadError :=
  | Parse (detail : bytes)
  | UnknownPolicyVersion (found : Z)
  | MalformedKnobKey (key : bytes)
  | UnknownKnobKey (key : bytes)
  | SectionPolarityMismatch (key : bytes) (expected found : Polarity)
  | InvalidKnobValue (key : bytes) (detail : LoadDetail)
  | DeclaredOnlyNonDefault (key : bytes)
  | ExtendsGrantDominatedByBase (key : bytes) (base_value own_value : KnobValue)
  | MalformedScope (pattern : bytes)
  | LoadEmptyInclude
  | ScopeIllegalForGlobalKnob (key : bytes)
  | ScopeTooGranularForKnob (key : bytes)
  | GrantScopeUnbounded (key : bytes)
  | InjectPinsPrimaryKeyWithoutAuthorPolicy (primary_key : list bytes)
  | InjectForbidsAuthorPrimaryKeyWithoutPin
  | ValidatePredicateNotEnforced (kind : bytes)
  | MandatoryInjectOnNonRootLayer
  | AssignOnNonRootLayer
  | SelfContradictoryInjectValidate (column : bytes)
  | ExtendsForbiddenInDraft
  | ExtendsUnknownBase (base : bytes)
  | ExtendsCycle (base : bytes).

Definition from_scope_error (e : ScopeError) : LoadError :=
  match e with EmptyInclude => LoadEmptyInclude end.

(** * Wire types *)

Inductive WireScope :=
  | WToken (t : bytes)
  | WExtreme (all nothing : option bool)
  | WOf (include exclude : list bytes).

Inductive WireValue :=
  | WBool (b : bool)
  | WUint (u : Z)
  | WStrSet (v : list bytes)
  | WStr (s : bytes).

Definition into_knob_value (w : WireValue) : KnobValue :=
  match w with
  | WBool b => VBool b
  | WUint u => VUint u
  | WStrSet v => VStrSet v
  | WStr s => VStr s
  end.

Record WireGrant := mk_wgrant {
  wg_key : bytes;
  wg_value : WireValue;
  wg_scope : option WireScope
}.

Inductive WireCollation := WBytewise.
Record WireColumn := mk_wcolumn {
  wc_name : bytes;
  wc_ty : bytes;
  wc_nullable : bool;
  wc_default : option bytes;
  wc_assign : option Assignment;
  wc_collation : option WireCollation
}.
Record WireIndex := mk_windex { wi_name : bytes; wi_columns : list bytes }.
Inductive WireAuthorPk := WAllow | WForbid.
Record WireInject := mk_winject {
  wj_scope : option WireScope;
  wj_columns : list WireColumn;
  wj_indexes : list WireIndex;
  wj_primary_key : option (list bytes);
  wj_author_primary_key : option WireAuthorPk;
  wj_mandatory : bool
}.

Inductive WirePredicate :=
  | WHasPrimaryKey
  | WColumnNamePattern (require forbid : list bytes)
  | WForbiddenColumns (names : list bytes)
  | WTypeNullability (column : bytes) (ty : option bytes) (nullable : option bool)
  | WRequireIndex (columns : list bytes)
  | WTableNameForbidden (patterns : list bytes).
Record WireValidate := mk_wvalidate {
  wv_scope : option WireScope;
  wv_predicate : WirePredicate
}.

Record WireDoc := mk_wdoc {
  wd_policy_version : Z;
  wd_extends : option bytes;
  wd_default_scope : option WireScope;
  wd_grant : list WireGrant;
  wd_require : list WireGrant;
  wd_inject : list WireInject;
  wd_validate : list WireValidate
}.

(** * Scopes *)

Definition normalize_patterns (lits : list bytes) : result LoadError (list Pattern) :=
  try_map (λ lit, ok_or (parse_normalized lit) (MalformedScope lit)) lits.

Definition resolve_scope (ws : WireScope) : result LoadError Scope :=
  match ws with
  | WToken t =>
      if bool_decide (t = lit "all") then Ok All
      else if bool_decide (t = lit "nothing") then Ok Nothing
      else Err (MalformedScope t)
  | WExtreme all nothing =>
      match all, nothing with
      | Some true, None => Ok All
      | None, Some true => Ok Nothing
      | _, _ => Err (MalformedScope (lit "ambiguous all/nothing"))
      end
  | WOf include exclude =>
      inc ← normalize_patterns include;
      exc ← normalize_patterns exclude;
      map_err from_scope_error (scope_of inc exc)
  end.

Definition resolve_opt_scope (ws : option WireScope) : result LoadError (option Scope) :=
  match ws with
  | Some ws => s ← resolve_scope ws; Ok (Some s)
  | None => Ok None
  end.

Definition pattern_is_table_granular (p : Pattern) : bool := negb (is_star (pt_table p)).

Definition scope_has_table_granular_pattern (scope : Scope) : bool :=
  match scope with
  | Nothing | All => false
  | Of include exclude => existsb pattern_is_table_granular (include ++ exclude)
  end.

Definition effective_meet (own default_scope : option Scope) : Scope :=
  match own, default_scope with
  | None, None => All
  | Some s, None => s
  | None, Some d => d
  | Some s, Some d => meet d s
  end.

Inductive RuleClass := ClassGrant | ClassRequire.
#[global] Instance rule_class_eq_dec : EqDecision RuleClass.
Proof. solve_decision. Defined.

Definition resolve_rule_scope (authored : option WireScope) (def : KnobDef)
    (default_scope : option Scope) (class : RuleClass) (key : bytes) : result LoadError Scope :=
  match kd_object_model def with
  | Global =>
      match authored with
      | Some ws =>
          scope ← resolve_scope ws;
          if bool_decide (scope = All) then Ok All else Err (ScopeIllegalForGlobalKnob key)
      | None => Err (ScopeIllegalForGlobalKnob key)
      end
  | model =>
      own ← resolve_opt_scope authored;
      if bool_decide (model = PerSchema)
         && match own with Some s => scope_has_table_granular_pattern s | None => false end
      then Err (ScopeTooGranularForKnob key)
      else if bool_decide (class = ClassGrant) && bool_decide (own = None)
              && bool_decide (default_scope = None)
      then Err (GrantScopeUnbounded key)
      else Ok (effective_meet own default_scope)
  end.

Definition resolve_content_scope (authored : option WireScope) (default_scope : option Scope) :
    result LoadError Scope :=
  own ← resolve_opt_scope authored;
  Ok (effective_meet own default_scope).

(** * Knob rules *)

Definition lookup_knob (registry : PolicyRegistry) (key : bytes) :
    result LoadError (KnobKey * KnobDef) :=
  parsed ← map_err (λ _, MalformedKnobKey key) (knob_key_parse key);
  def ← ok_or (registry_get registry parsed) (UnknownKnobKey key);
  Ok (parsed, def).

Definition validate_value (key : bytes) (value : KnobValue) (kind : KnobKind) :
    result LoadError unit :=
  map_err (λ e, InvalidKnobValue key (ValueDetail e)) (validate_for value kind).

Definition reject_declared_only_nondefault (key : bytes) (def : KnobDef) (value : KnobValue) :
    result LoadError unit :=
  if negb (forbids_nondefault_on_enforced_path (kd_enforcement def)) then Ok tt
  else
    below ← map_err (λ e, InvalidKnobValue key (OrderDetail e))
      (leq_value (kd_kind def) value (kd_default def));
    if negb below then Err (DeclaredOnlyNonDefault key) else Ok tt.

(** The body of the grant and require loops; they differ in the polarity they demand,
    the class of the scope gate and the kind of rule. *)
Definition resolve_knob_rule (registry : PolicyRegistry) (default_scope : option Scope)
    (expected : Polarity) (class : RuleClass) (mk : KnobKey → KnobValue → RuleKind)
    (g : WireGrant) : result LoadError Rule :=
  '(key, def) ← lookup_knob registry (wg_key g);
  if negb (bool_decide (kd_polarity def = expected))
  then Err (SectionPolarityMismatch (wg_key g) expected (kd_polarity def))
  else
    let value := into_knob_value (wg_value g) in
    _ ← validate_value (wg_key g) value (kd_kind def);
    _ ← reject_declared_only_nondefault (wg_key g) def value;
    scope ← resolve_rule_scope (wg_scope g) def default_scope class (wg_key g);
    Ok (mk_rule scope (mk key value)).

(** * Content rules *)

Definition resolve_column (c : WireColumn) : InjectColumn :=
  mk_column (wc_name c) (wc_ty c) (wc_nullable c) (wc_default c) (wc_assign c)
    ((λ '(WBytewise), Bytewise) <$> wc_collation c).

Definition resolve_inject (inj : WireInject) : result LoadError InjectSpec :=
  author_primary_key ←
    match wj_author_primary_key inj, wj_primary_key inj with
    | Some WAllow, _ => Ok Allow
    | Some WForbid, Some _ => Ok Forbid
    | Some WForbid, None => Err InjectForbidsAuthorPrimaryKeyWithoutPin
    | None, None => Ok Allow
    | None, Some pinned => Err (InjectPinsPrimaryKeyWithoutAuthorPolicy pinned)
    end;
  Ok (mk_inject (map resolve_column (wj_columns inj))
        (map (λ i, mk_index (wi_name i) (wi_columns i)) (wj_indexes inj))
        (wj_primary_key inj) author_primary_key (wj_mandatory inj)).

Definition resolve_inject_rule (ctx : LoadContext) (default_scope : option Scope)
    (inj : WireInject) : result LoadError Rule :=
  if wj_mandatory inj && negb (bool_decide (ctx = CtxRootCharter))
  then Err MandatoryInjectOnNonRootLayer
  else if negb (bool_decide (ctx = CtxRootCharter))
          && existsb (λ c, negb (bool_decide (wc_assign c = None))) (wj_columns inj)
  then Err AssignOnNonRootLayer
  else
    scope ← resolve_content_scope (wj_scope inj) default_scope;
    spec ← resolve_inject inj;
    Ok (mk_rule scope (RInject spec)).

Definition unenforced_predicate_kind (wp : WirePredicate) : option bytes :=
  match wp with
  | WForbiddenColumns _ => None
  | WHasPrimaryKey => Some (lit "has_primary_key")
  | WColumnNamePattern _ _ => Some (lit "column_name_pattern")
  | WTypeNullability _ _ _ => Some (lit "type_nullability")
  | WRequireIndex _ => Some (lit "require_index")
  | WTableNameForbidden _ => Some (lit "table_name_forbidden")
  end.

Definition name_globs (lits : list bytes) : result LoadError (list NameGlob) :=
  try_map (λ lit,
    pat ← ok_or (parse_normalized lit) (MalformedScope lit);
    if negb (is_star (pt_table pat)) then Err (MalformedScope lit)
    else Ok (mk_name_glob (pt_schema pat))) lits.

Definition resolve_predicate (wp : WirePredicate) : result LoadError ValidatePredicate :=
  match unenforced_predicate_kind wp with
  | Some kind => Err (ValidatePredicateNotEnforced kind)
  | None =>
      match wp with
      | WHasPrimaryKey => Ok HasPrimaryKey
      | WColumnNamePattern require forbid =>
          r ← name_globs require; f ← name_globs forbid; Ok (ColumnNamePattern r f)
      | WForbiddenColumns names => Ok (ForbiddenColumns names)
      | WTypeNullability column ty nullable => Ok (TypeNullability column ty nullable)
      | WRequireIndex columns => Ok (RequireIndex columns)
      | WTableNameForbidden patterns => ps ← normalize_patterns patterns; Ok (TableNameForbidden ps)
      end
  end.

Definition resolve_validate_rule (default_scope : option Scope) (val : WireValidate) :
    result LoadError Rule :=
  scope ← resolve_content_scope (wv_scope val) default_scope;
  pred ← resolve_predicate (wv_predicate val);
  Ok (mk_rule scope (RValidate pred)).

(** * Cross-rule checks *)

(** The column-name fold of the self-contradiction gate, the same as [fold_ident]. *)
Definition fold_name (s : bytes) : bytes :=
  match normalize_object_name s with
  | Some o => on_schema o
  | None => str_to_ascii_lowercase s
  end.

Definition check_self_contradiction (rules : list Rule) : result LoadError unit :=
  try_for (λ inj,
    match ru_kind inj with
    | RInject spec =>
        try_for (λ val,
          match ru_kind val with
          | RValidate pred =>
              if is_nothing (meet (ru_scope inj) (ru_scope val)) then Ok tt
              else match pred with
                   | ForbiddenColumns names =>
                       try_for (λ col, try_for (λ forbidden,
                         if bool_decide (fold_name forbidden = fold_name (ic_name col))
                         then Err (SelfContradictoryInjectValidate (ic_name col)) else Ok tt) names)
                         (is_columns spec)
                   | _ => Ok tt
                   end
          | _ => Ok tt
          end) rules
    | _ => Ok tt
    end) rules.

Definition extends_model (registry : PolicyRegistry) (rules : list Rule) (which : bytes) :
    result LoadError GrantModel :=
  map_err (λ e, InvalidKnobValue (lit "<" ++ which ++ lit " grants>") (ComposeDetail e))
    (grant_model_build rules registry).

Definition check_extends_grant_direction (base own : PolicyDoc) (registry : PolicyRegistry) :
    result LoadError unit :=
  base_grants ← extends_model registry (pd_rules base) (lit "base");
  own_grants ← extends_model registry (pd_rules own) (lit "extending document");
  try_for (λ rule,
    match ru_kind rule with
    | RGrant key _ =>
        match grant_model_get base_grants key, grant_model_get own_grants key with
        | Some base_key, Some own_key =>
            match witness_of (meet (ru_scope rule) (covered_scope base_key)) with
            | None => Ok tt
            | Some witness =>
                let bad_value e := InvalidKnobValue key (ComposeDetail e) in
                base_value ← map_err bad_value (value_at base_key witness);
                own_value ← map_err bad_value (value_at own_key witness);
                if bool_decide (own_value = base_value) then Ok tt
                else
                  below ← map_err (λ e, InvalidKnobValue key (OrderDetail e))
                    (leq_value (km_kind own_key) own_value base_value);
                  if below : bool then Err (ExtendsGrantDominatedByBase key base_value own_value)
                  else Ok tt
            end
        | _, _ => Ok tt
        end
    | _ => Ok tt
    end) (pd_rules own).

Definition overlay_docs (base over : PolicyDoc) : PolicyDoc :=
  mk_doc (pd_policy_version over)
    (match pd_default_scope over with Some s => Some s | None => pd_default_scope base end)
    (pd_rules base ++ pd_rules over) [].

(** The indexes of the rules that can match nothing. *)
Fixpoint dead_rules (index : nat) (rules : list Rule) : list LoadWarning :=
  match rules with
  | [] => []
  | r :: rules' =>
      if is_nothing (ru_scope r) then DeadRule index :: dead_rules (S index) rules'
      else dead_rules (S index) rules'
  end.

(** * Resolution *)

Section load.
(** [toml::from_str] and [serde_json::from_str] into the wire type, or the message. *)
Context (from_toml from_json : bytes → result bytes WireDoc).

(** The document's own rules, before [extends]. *)
Definition resolve_own (wire : WireDoc) (registry : PolicyRegistry) (ctx : LoadContext) :
    result LoadError PolicyDoc :=
  default_scope ← resolve_opt_scope (wd_default_scope wire);
  grants ← try_map (resolve_knob_rule registry default_scope Grant ClassGrant RGrant) (wd_grant wire);
  requires ← try_map (resolve_knob_rule registry default_scope Require ClassRequire RRequire)
    (wd_require wire);
  injects ← try_map (resolve_inject_rule ctx default_scope) (wd_inject wire);
  validates ← try_map (resolve_validate_rule default_scope) (wd_validate wire);
  Ok (mk_doc (wd_policy_version wire) default_scope (grants ++ requires ++ injects ++ validates) []).

Definition with_warnings (doc : PolicyDoc) : PolicyDoc :=
  mk_doc (pd_policy_version doc) (pd_default_scope doc) (pd_rules doc) (dead_rules 0 (pd_rules doc)).

(** [resolve_with_catalog]: [seen] is the chain of base names; each base resolved is
    one round of [fuel], and [None] is running out of it. *)
Fixpoint resolve_with_catalog (fuel : nat) (wire : WireDoc) (registry : PolicyRegistry)
    (ctx : LoadContext) (catalog : option (bytes → option bytes)) (seen : list bytes) :
    option (result LoadError PolicyDoc) :=
  match fuel with
  | O => None
  | S fuel' =>
      if negb (wd_policy_version wire =? SUPPORTED_POLICY_VERSION)%Z
      then Some (Err (UnknownPolicyVersion (wd_policy_version wire)))
      else if negb (bool_decide (wd_extends wire = None)) && negb (is_trusted ctx)
      then Some (Err ExtendsForbiddenInDraft)
      else
        match resolve_own wire registry ctx with
        | Err e => Some (Err e)
        | Ok own =>
            let finish doc :=
              _ ← check_self_contradiction (pd_rules doc); Ok (with_warnings doc) in
            match wd_extends wire with
            | None => Some (finish own)
            | Some base_name =>
                match catalog with
                | None => Some (Err (ExtendsUnknownBase base_name))
                | Some get_source =>
                    if existsb (λ n, bool_decide (n = base_name)) seen
                    then Some (Err (ExtendsCycle base_name))
                    else
                      match get_source base_name with
                      | None => Some (Err (ExtendsUnknownBase base_name))
                      | Some base_src =>
                          match from_toml base_src with
                          | Err detail => Some (Err (Parse detail))
                          | Ok base_wire =>
                              base ← resolve_with_catalog fuel' base_wire registry
                                CtxTrustedCatalogEntry catalog (seen ++ [base_name]);
                              Some (base ← base;
                                    _ ← check_extends_grant_direction base own registry;
                                    finish (overlay_docs base own))
                          end
                      end
                end
            end
        end
  end.

(** Without a catalog no base is ever resolved, so one round is enough. *)
Definition resolve (wire : WireDoc) (registry : PolicyRegistry) (ctx : LoadContext) :
    option (result LoadError PolicyDoc) :=
  resolve_with_catalog 1 wire registry ctx None [].

Definition parse_toml (src : bytes) (registry : PolicyRegistry) (ctx : LoadContext) :
    option (result LoadError PolicyDoc) :=
  match from_toml src with
  | Err detail => Some (Err (Parse detail))
  | Ok wire => resolve wire registry ctx
  end.
Definition parse_json (src : bytes) (registry : PolicyRegistry) (ctx : LoadContext) :
    option (result LoadError PolicyDoc) :=
  match from_json src with
  | Err detail => Some (Err (Parse detail))
  | Ok wire => resolve wire registry ctx
  end.
Definition parse_toml_with_catalog (fuel : nat) (src : bytes) (registry : PolicyRegistry)
    (ctx : LoadContext) (catalog : bytes → option bytes) : option (result LoadError PolicyDoc) :=
  match from_toml src with
  | Err detail => Some (Err (Parse detail))
  | Ok wire => resolve_with_catalog fuel wire registry ctx (Some catalog) []
  end.

(** ** The trusted mint sites of [compose.rs] *)

Definition loaded {A B} (f : A → B) (m : option (result LoadError A)) :
    option (result LoadError B) :=
  match m with Some r => Some (f <$> r) | None => None end.

Definition register_catalog_entry (src : bytes) (registry : PolicyRegistry) :
    option (result LoadError TrustedDoc) :=
  loaded mk_trusted (parse_toml src registry CtxTrustedCatalogEntry).
Definition register_catalog_entry_json (src : bytes) (registry : PolicyRegistry) :
    option (result LoadError TrustedDoc) :=
  loaded mk_trusted (parse_json src registry CtxTrustedCatalogEntry).
Definition register_catalog_entry_with_catalog (fuel : nat) (src : bytes)
    (registry : PolicyRegistry) (catalog : bytes → option bytes) :
    option (result LoadError TrustedDoc) :=
  loaded mk_trusted (parse_toml_with_catalog fuel src registry CtxTrustedCatalogEntry catalog).

Definition root_parse_toml (src : bytes) (registry : PolicyRegistry) :
    option (result LoadError RootCharter) :=
  loaded (λ doc, mk_root (mk_trusted doc)) (parse_toml src registry CtxRootCharter).
Definition root_parse_json (src : bytes) (registry : PolicyRegistry) :
    option (result LoadError RootCharter) :=
  loaded (λ doc, mk_root (mk_trusted doc)) (parse_json src registry CtxRootCharter).
Definition root_parse_toml_with_catalog (fuel : nat) (src : bytes) (registry : PolicyRegistry)
    (catalog : bytes → option bytes) : option (result LoadError RootCharter) :=
  loaded (λ doc, mk_root (mk_trusted doc))
    (parse_toml_with_catalog fuel src registry CtxRootCharter catalog).
End load.
