(* ===== verification/DocumentFacts.v ===== *)
(** What a loaded document guarantees to composition, that loading ends for a finite
    catalog, and that admitting a loaded draft against a loaded charter never
    escalates. *)

From S2P Require Export Document.

Lemma try_map_elem {E A B} (f : A → result E B) l ys y :
  try_map f l = Ok ys → y ∈ ys → ∃ x, x ∈ l ∧ f x = Ok y.
Proof.
  revert ys. induction l as [|x l IH]; intros ys; cbn; [intros [= <-]; set_solver|].
  destruct (f x) as [z|] eqn:E1; cbn; [|done]. destruct (try_map f l) as [zs|]; cbn; [|done].
  intros [= <-] [->|Hy]%elem_of_cons; [exists x; split; [left|done]|].
  destruct (IH zs eq_refl Hy) as (x' & ? & ?). exists x'. split; [by right|done].
Qed.

(** * Scopes *)

Lemma resolve_scope_wf ws s : resolve_scope ws = Ok s → scope_wf s.
Proof.
  destruct ws as [t|a n|inc exc]; cbn.
  - repeat case_bool_decide; try done; by intros [= <-].
  - destruct a as [[]|], n as [[]|]; try done; by intros [= <-].
  - destruct (normalize_patterns inc) as [i|]; cbn; [|done].
    destruct (normalize_patterns exc) as [e|]; cbn; [|done].
    destruct (scope_of i e) as [s'|] eqn:E; cbn; [|done]. intros [= <-]. by eapply scope_of_wf.
Qed.

Lemma resolve_opt_scope_wf ws s : resolve_opt_scope ws = Ok (Some s) → scope_wf s.
Proof.
  destruct ws as [ws|]; cbn; [|done]. destruct (resolve_scope ws) as [s'|] eqn:E; cbn; [|done].
  intros [= <-]. by eapply resolve_scope_wf.
Qed.

Definition opt_scope_wf (s : option Scope) : Prop := ∀ d, s = Some d → scope_wf d.

Lemma effective_meet_wf own d : opt_scope_wf own → opt_scope_wf d → scope_wf (effective_meet own d).
Proof.
  intros Ho Hd. destruct own as [s|], d as [t|]; cbn; auto; [|done].
  apply meet_wf; auto.
Qed.

Lemma own_meet_wf ws own d :
  resolve_opt_scope ws = Ok own → opt_scope_wf d → scope_wf (effective_meet own d).
Proof.
  intros E Hd. apply effective_meet_wf; [|done]. intros s ->. by eapply resolve_opt_scope_wf.
Qed.
#[export] Hint Resolve own_meet_wf : policy.

Lemma resolve_rule_scope_ok authored def d class key s :
  opt_scope_wf d → resolve_rule_scope authored def d class key = Ok s →
  scope_wf s ∧ (kd_object_model def = Global → s = All) ∧
  (class = ClassGrant → authored = None → d ≠ None).
Proof.
  intros Hd. unfold resolve_rule_scope. destruct (kd_object_model def) eqn:Em; last first.
  { destruct authored as [ws|]; [|done]. destruct (resolve_scope ws) as [s'|]; cbn; [|done].
    case_bool_decide; [|done]. by intros [= <-]. }
  all: destruct (resolve_opt_scope authored) as [own|] eqn:E; cbn [mbind result_bind]; [|done];
    destruct (bool_decide _ && match own with _ => _ end); [done|];
    destruct (bool_decide (class = ClassGrant) && bool_decide (own = None)
                && bool_decide (d = None)) eqn:Eu; [done|]; intros [= <-];
    (split; [|split; [done|]]);
    [by eauto with policy|];
    intros -> -> ->; cbn in E; injection E as <-; by cbn in Eu.
Qed.

(** * Well-formed documents *)

Record knob_rule_ok (registry : PolicyRegistry) (polarity : Polarity) (scope : Scope)
    (key : KnobKey) (value : KnobValue) : Prop := {
  kr_def : ∃ def, registry_get registry key = Some def ∧ kd_polarity def = polarity ∧
    validate_for value (kd_kind def) = Ok tt ∧
    (kd_enforcement def = DeclaredOnly → leq_value (kd_kind def) value (kd_default def) = Ok true) ∧
    (kd_object_model def = Global → scope = All)
}.

Record inject_ok (ctx : LoadContext) (spec : InjectSpec) : Prop := {
  io_mandatory : ctx ≠ CtxRootCharter → is_mandatory spec = false;
  io_assign : ctx ≠ CtxRootCharter → ∀ c, c ∈ is_columns spec → ic_assign c = None;
  io_pin : is_author_primary_key spec = Forbid → is_primary_key spec ≠ None
}.

Definition rule_ok (registry : PolicyRegistry) (ctx : LoadContext) (r : Rule) : Prop :=
  scope_wf (ru_scope r) ∧
  match ru_kind r with
  | RGrant key value => knob_rule_ok registry Grant (ru_scope r) key value
  | RRequire key value => knob_rule_ok registry Require (ru_scope r) key value
  | RInject spec => inject_ok ctx spec
  | RValidate pred => ∃ names, pred = ForbiddenColumns names
  end.

Lemma resolve_knob_rule_ok registry d pol class mk g r :
  opt_scope_wf d → resolve_knob_rule registry d pol class mk g = Ok r →
  ∃ key value, ru_kind r = mk key value ∧ scope_wf (ru_scope r) ∧
    knob_rule_ok registry pol (ru_scope r) key value.
Proof.
  intros Hd. unfold resolve_knob_rule, lookup_knob.
  destruct (knob_key_parse (wg_key g)) as [key|]; cbn [map_err mbind result_bind]; [|done].
  destruct (registry_get registry key) as [def|] eqn:Hdef; cbn [ok_or mbind result_bind]; [|done].
  case_bool_decide as Hp; cbn [negb]; [|done]. unfold validate_value.
  destruct (validate_for _ _) as [[]|] eqn:Hv; cbn [map_err mbind result_bind]; [|done].
  bind_ok as [] Hr.
  bind_ok as s Hs.
  intros [= <-]. apply resolve_rule_scope_ok in Hs as (Hwf & Hg & _); [|done].
  exists key, (into_knob_value (wg_value g)). cbn. split; [done|]. split; [done|]. split.
  exists def. repeat (split; [done|]). split; [|done]. intros Hdo.
  unfold reject_declared_only_nondefault in Hr. rewrite Hdo in Hr. cbn in Hr.
  destruct (leq_value _ _ _) as [[]|]; cbn in Hr; done.
Qed.

Lemma resolve_inject_ok inj spec : resolve_inject inj = Ok spec →
  is_columns spec = map resolve_column (wj_columns inj) ∧ is_mandatory spec = wj_mandatory inj ∧
  (is_author_primary_key spec = Forbid → is_primary_key spec ≠ None).
Proof.
  unfold resolve_inject.
  destruct (wj_author_primary_key inj) as [[]|], (wj_primary_key inj); cbn; try done;
    by intros [= <-].
Qed.

Lemma resolve_inject_rule_ok ctx d inj r :
  opt_scope_wf d → resolve_inject_rule ctx d inj = Ok r →
  ∃ spec, ru_kind r = RInject spec ∧ scope_wf (ru_scope r) ∧ inject_ok ctx spec.
Proof.
  intros Hd. unfold resolve_inject_rule.
  destruct (wj_mandatory inj && _) eqn:Em; [done|].
  destruct (negb _ && existsb _ _) eqn:Ea; [done|]. unfold resolve_content_scope.
  bind_ok as own Es.
  bind_ok as spec Ei.
  apply resolve_inject_ok in Ei as (Hc & Hm & Hp).
  intros [= <-]. exists spec. split; [done|]. cbn. split; [by eauto with policy|].
  split; [| |done].
  - intros Hx. rewrite bool_decide_eq_false_2 in Em by done. rewrite Hm.
    by destruct (wj_mandatory inj).
  - intros Hx c. rewrite Hc, list_elem_of_In, in_map_iff. intros (w & <- & Hw). cbn.
    rewrite bool_decide_eq_false_2 in Ea by done. cbn in Ea.
    destruct (wc_assign w) eqn:Ew; [|done]. apply not_true_iff_false in Ea. destruct Ea.
    apply existsb_exists. exists w. by rewrite Ew.
Qed.

Lemma resolve_validate_rule_ok d val r :
  opt_scope_wf d → resolve_validate_rule d val = Ok r →
  ∃ names, ru_kind r = RValidate (ForbiddenColumns names) ∧ scope_wf (ru_scope r).
Proof.
  intros Hd. unfold resolve_validate_rule, resolve_content_scope.
  bind_ok as own Es.
  unfold resolve_predicate. destruct (wv_predicate val); cbn [unenforced_predicate_kind]; try done.
  intros [= <-]. eexists. split; [done|]. cbn. by eauto with policy.
Qed.

Lemma resolve_own_ok wire registry ctx doc : resolve_own wire registry ctx = Ok doc →
  ∀ r, r ∈ pd_rules doc → rule_ok registry ctx r.
Proof.
  unfold resolve_own. bind_ok as d Ed.
  assert (opt_scope_wf d) as Hd by (intros s ->; by eapply resolve_opt_scope_wf).
  bind_ok as gs Eg.
  bind_ok as qs Eq.
  bind_ok as js Ej.
  bind_ok as vs Ev.
  intros [= <-] r. cbn [pd_rules]. rewrite !elem_of_app. unfold rule_ok.
  intros [Hr|[Hr|[Hr|Hr]]].
  - destruct (try_map_elem _ _ _ _ Eg Hr) as (g & _ & Hg).
    apply resolve_knob_rule_ok in Hg as (key & v & -> & ? & ?); done.
  - destruct (try_map_elem _ _ _ _ Eq Hr) as (g & _ & Hg).
    apply resolve_knob_rule_ok in Hg as (key & v & -> & ? & ?); done.
  - destruct (try_map_elem _ _ _ _ Ej Hr) as (g & _ & Hg).
    apply resolve_inject_rule_ok in Hg as (spec & -> & ? & ?); done.
  - destruct (try_map_elem _ _ _ _ Ev Hr) as (g & _ & Hg).
    apply resolve_validate_rule_ok in Hg as (names & -> & ?); [|done]. eauto.
Qed.

Lemma resolve_own_version wire registry ctx doc : resolve_own wire registry ctx = Ok doc →
  pd_policy_version doc = wd_policy_version wire.
Proof.
  unfold resolve_own. do 5 (bind_ok as ?). by intros [= <-].
Qed.

(** * Loaded documents *)

(** What loading [ctx] guarantees of a document: every rule fits its knob and its
    provenance, no inject is contradicted by a validate where both apply, and exactly
    the rules that match nothing are warned about. *)
Record doc_ok (registry : PolicyRegistry) (ctx : LoadContext) (doc : PolicyDoc) : Prop := {
  do_version : pd_policy_version doc = SUPPORTED_POLICY_VERSION;
  do_rules : ∀ r, r ∈ pd_rules doc → rule_ok registry ctx r;
  do_consistent : ∀ inj val spec names col f o, inj ∈ pd_rules doc → val ∈ pd_rules doc →
    ru_kind inj = RInject spec → ru_kind val = RValidate (ForbiddenColumns names) →
    in_scope o (ru_scope inj) → in_scope o (ru_scope val) →
    col ∈ is_columns spec → f ∈ names → fold_name f ≠ fold_name (ic_name col);
  do_warnings : ∀ i, DeadRule i ∈ pd_warnings doc ↔
    ∃ r, pd_rules doc !! i = Some r ∧ ru_scope r = Nothing
}.

Lemma check_self_contradiction_ok rules inj val spec names col f o :
  check_self_contradiction rules = Ok tt → inj ∈ rules → val ∈ rules →
  ru_kind inj = RInject spec → ru_kind val = RValidate (ForbiddenColumns names) →
  in_scope o (ru_scope inj) → in_scope o (ru_scope val) →
  col ∈ is_columns spec → f ∈ names → fold_name f ≠ fold_name (ic_name col).
Proof.
  unfold check_self_contradiction. rewrite try_for_ok. intros H Hi Hv Ei Ev Ho1 Ho2 Hc Hf.
  specialize (H inj Hi). rewrite Ei, try_for_ok in H. specialize (H val Hv).
  rewrite Ev, (overlap_not_nothing _ _ o Ho1 Ho2), try_for_ok in H.
  specialize (H col Hc). rewrite try_for_ok in H. specialize (H f Hf).
  by case_bool_decide.
Qed.

Lemma dead_rules_spec rules n i : DeadRule i ∈ dead_rules n rules ↔
  ∃ j r, i = n + j ∧ rules !! j = Some r ∧ ru_scope r = Nothing.
Proof.
  revert n. induction rules as [|r rules IH]; intros n; cbn; [split; [set_solver|naive_solver]|].
  assert (DeadRule i ∈ dead_rules (S n) rules ↔
    ∃ j r', i = n + S j ∧ rules !! j = Some r' ∧ ru_scope r' = Nothing) as IH'.
  { rewrite IH. split; intros (j & r' & -> & ?); exists j, r'; (split; [lia|done]). }
  destruct (is_nothing (ru_scope r)) eqn:E.
  - rewrite elem_of_cons, IH'. split.
    + intros [[= ->]|(j & r' & ? & ?)]; [exists 0, r|by exists (S j), r'].
      split; [lia|]. split; [done|]. by destruct (ru_scope r).
    + intros ([|j] & r' & -> & Hr & Hn); [left; f_equal; lia|right; eauto].
  - rewrite IH'. split; [intros (j & r' & ? & ?); by exists (S j), r'|].
    intros ([|j] & r' & -> & Hr & Hn); [|eauto]. injection Hr as ->. by rewrite Hn in E.
Qed.

Lemma finish_ok registry ctx doc doc' :
  pd_policy_version doc = SUPPORTED_POLICY_VERSION →
  (∀ r, r ∈ pd_rules doc → rule_ok registry ctx r) →
  (_ ← check_self_contradiction (pd_rules doc); Ok (with_warnings doc)) = Ok doc' →
  doc_ok registry ctx doc'.
Proof.
  intros Hv Hr. destruct (check_self_contradiction _) as [[]|] eqn:E; cbn; [|done].
  intros [= <-]. split; cbn; [done|done| |].
  - intros inj val spec names col f o. exact (check_self_contradiction_ok _ _ _ _ _ _ _ _ E).
  - intros i. rewrite dead_rules_spec. split; [intros (j & r & -> & ?)|intros (r & ?)]; eauto.
Qed.

(** Rules a catalog base may contribute are rules a root or catalog document may hold. *)
Lemma rule_ok_trusted registry ctx r : is_trusted ctx = true →
  rule_ok registry CtxTrustedCatalogEntry r → rule_ok registry ctx r.
Proof.
  intros Ht [Hwf Hk]. split; [done|]. destruct (ru_kind r); try done.
  destruct Hk as [H1 H2 H3]. destruct ctx; try done; split; auto.
Qed.

Section load_facts.
Context (from_toml from_json : bytes → result bytes WireDoc).

Lemma resolve_with_catalog_ok fuel wire registry ctx catalog seen doc :
  resolve_with_catalog from_toml fuel wire registry ctx catalog seen = Some (Ok doc) →
  doc_ok registry ctx doc ∧ (ctx = CtxNonRootLayer → wd_extends wire = None).
Proof.
  revert wire ctx seen doc. induction fuel as [|fuel IH]; intros wire ctx seen doc; [done|].
  cbn [resolve_with_catalog].
  destruct (wd_policy_version wire =? SUPPORTED_POLICY_VERSION)%Z eqn:Ev; cbn [negb]; [|done].
  apply Z.eqb_eq in Ev. destruct (negb _ && negb _) eqn:Ed; [done|].
  destruct (resolve_own wire registry ctx) as [own|] eqn:Eo; [|done].
  assert (pd_policy_version own = SUPPORTED_POLICY_VERSION) as Hov.
  { rewrite <-Ev. by eapply resolve_own_version. }
  pose proof (resolve_own_ok _ _ _ _ Eo) as Hrules.
  destruct (wd_extends wire) as [base_name|] eqn:Ee; last first.
  { intros [= H]. split; [|done]. by eapply finish_ok. }
  assert (is_trusted ctx = true) as Ht by (by destruct (is_trusted ctx)).
  destruct catalog as [get_source|]; [|done]. destruct (existsb _ _); [done|].
  destruct (get_source base_name) as [src|]; [|done].
  destruct (from_toml src) as [bw|]; [|done].
  destruct (resolve_with_catalog _ _ _ _ _ _ _) as [[base|]|] eqn:Eb; cbn [mbind option_bind result_bind]; try done.
  intros H%(inj Some). revert H. bind_ok as []. intros H. split; [|by intros ->]. apply IH in Eb as [[_ Hb _ _] _].
  apply (finish_ok _ _ (overlay_docs base own)); [done| |done]. intros r. cbn. intros [?|?]%elem_of_app; [|auto].
  apply rule_ok_trusted; auto.
Qed.
End load_facts.

(** ** What composition needs of a loaded document *)

Lemma rules_ok_shaped registry ctx rules :
  (∀ r, r ∈ rules → rule_ok registry ctx r) → rules_shaped registry rules.
Proof.
  intros Hr scope key value def Hin Hdef. destruct (Hr _ Hin) as [_ Hk]. cbn in Hk.
  destruct Hk as [(d & Hd & _ & Hv & _)]. assert (d = def) as -> by congruence.
  revert Hv. unfold validate_for, shaped.
  destruct (kd_kind def), value; try done. destruct (existsb _ _) eqn:E; [|done]. intros _.
  apply existsb_exists in E as (w & Hw & Heq%bool_decide_eq_true). subst. by apply list_elem_of_In.
Qed.

Lemma grant_model_build_total registry rules :
  (∀ scope key value, mk_rule scope (RGrant key value) ∈ rules →
     is_Some (registry_get registry key)) →
  ∃ m, grant_model_build rules registry = Ok m.
Proof.
  intros H. unfold grant_model_build.
  match goal with |- context [try_fold ?f ?acc ?l] =>
    destruct (try_fold_total (λ _, True) f l acc) as (keys & E & _) end; [done| |].
  - intros b [scope kind] Hin _. destruct kind as [key value| | |]; cbn; try (by eexists; split).
    destruct (H _ _ _ Hin) as [def Hdef]. unfold lookup. rewrite Hdef. cbn. by eexists; split.
  - rewrite E. by eexists.
Qed.

(** A loaded document composes: its layer exists, holds for each key its grant rules
    in order, and is well-formed. *)
Lemma rules_ok_layer registry ctx tag doc : registry_ok registry →
  (∀ r, r ∈ pd_rules doc → rule_ok registry ctx r) →
  ∃ l, layer_from_doc tag doc registry = Ok l ∧ layer_wf registry l ∧
    ∀ key def, registry_get registry key = Some def →
      default [] (km_rules <$> layer_get key l) = grants_for key (pd_rules doc).
Proof.
  intros Hreg Hd. destruct (grant_model_build_total registry (pd_rules doc)) as [m Hm].
  { intros scope key value Hin. destruct (Hd _ Hin) as [_ Hk].
    cbn in Hk. destruct Hk as [(def & -> & _)]. done. }
  assert (∃ l, layer_from_doc tag doc registry = Ok l ∧ l_grants l = m) as (l & Hl & Hlm).
  { unfold layer_from_doc. rewrite Hm. by eexists. }
  exists l. split; [done|].
  split; [eapply layer_from_doc_wf; [done|by eapply rules_ok_shaped|done]|].
  intros key def Hdef. unfold layer_get. rewrite Hlm. apply build_get in Hm as [_ Hm].
  unfold grant_model_get. rewrite Hm, Hdef. unfold extend_map. by destruct (grants_for _ _).
Qed.

Lemma root_layers_wf registry ctx (root : RootCharter) layers : registry_ok registry →
  doc_ok registry ctx (root_doc root) → charter_layers root registry = Ok layers →
  Forall (layer_wf registry) layers.
Proof.
  intros Hreg Hd. destruct (rules_ok_layer _ _ Base _ Hreg (do_rules _ _ _ Hd)) as (l & Hl & Hwf & _).
  unfold charter_layers, root_admit. rewrite Hl. intros [= <-]. by constructor.
Qed.

(** * Termination *)

Section loading.
Context (from_toml from_json : bytes → result bytes WireDoc).

Lemma resolve_with_catalog_more f1 f2 wire registry ctx catalog seen r : f1 ≤ f2 →
  resolve_with_catalog from_toml f1 wire registry ctx catalog seen = Some r →
  resolve_with_catalog from_toml f2 wire registry ctx catalog seen = Some r.
Proof.
  revert f2 wire ctx seen r. induction f1 as [|f1 IH]; intros [|f2] wire ctx seen r Hf; try done; [lia|].
  cbn [resolve_with_catalog]. destruct (negb _); [done|]. destruct (negb _ && _); [done|].
  destruct (resolve_own _ _ _); [|done]. destruct (wd_extends wire) as [n|]; [|done].
  destruct catalog as [get|]; [|done]. destruct (existsb _ _); [done|].
  destruct (get n) as [src|]; [|done]. destruct (from_toml src) as [bw|]; [|done].
  destruct (resolve_with_catalog from_toml f1 _ _ _ _ _) as [base|] eqn:E; [|done].
  by rewrite (IH f2 _ _ _ _ ltac:(lia) E).
Qed.

(** Each base resolved is a catalog name not seen before. *)
Lemma resolve_with_catalog_total fuel wire registry ctx get names seen :
  (∀ n, is_Some (get n) → n ∈ names) → NoDup seen → seen ⊆ names →
  length names < fuel + length seen →
  ∃ r, resolve_with_catalog from_toml fuel wire registry ctx (Some get) seen = Some r.
Proof.
  intros Hget. revert wire ctx seen. induction fuel as [|fuel IH]; intros wire ctx seen Hnd Hsub Hlen.
  { pose proof (submseteq_length seen names (NoDup_submseteq _ _ Hnd Hsub)). lia. }
  cbn [resolve_with_catalog]. destruct (negb _); [eauto|]. destruct (negb _ && _); [eauto|].
  destruct (resolve_own _ _ _); [|eauto]. destruct (wd_extends wire) as [n|]; [|eauto].
  destruct (existsb _ _) eqn:Es; [eauto|]. destruct (get n) as [src|] eqn:En; [|eauto].
  destruct (from_toml src) as [bw|]; [|eauto].
  destruct (IH bw CtxTrustedCatalogEntry (seen ++ [n])) as [r ->]; [| | |cbn; eauto].
  - apply NoDup_app. split; [done|]. split; [|apply NoDup_singleton].
    intros x Hx ->%list_elem_of_singleton. apply not_true_iff_false in Es. destruct Es.
    apply existsb_exists. exists n. split; [by apply list_elem_of_In|by apply bool_decide_eq_true].
  - intros x [?| ->%list_elem_of_singleton]%elem_of_app; [auto|apply Hget; eauto].
  - rewrite length_app. cbn. lia.
Qed.

Lemma resolve_extends fuel wire registry ctx get seen name doc :
  wd_extends wire = Some name →
  resolve_with_catalog from_toml (S fuel) wire registry ctx (Some get) seen = Some (Ok doc) →
  ∃ src base_wire base own, get name = Some src ∧ from_toml src = Ok base_wire ∧
    resolve_with_catalog from_toml fuel base_wire registry CtxTrustedCatalogEntry (Some get)
      (seen ++ [name]) = Some (Ok base) ∧
    resolve_own wire registry ctx = Ok own ∧ pd_rules doc = pd_rules base ++ pd_rules own.
Proof.
  intros He. cbn [resolve_with_catalog]. rewrite He.
  destruct (negb _); [done|]. destruct (negb _ && _); [done|].
  destruct (resolve_own _ _ _) as [own|]; [|done]. destruct (existsb _ _); [done|].
  destruct (get name) as [src|]; [|done]. destruct (from_toml src) as [bw|] eqn:Ew; [|done].
  destruct (resolve_with_catalog _ _ _ _ _ _ _) as [[base|]|] eqn:Eb;
    cbn [mbind option_bind result_bind]; try done.
  intros H%(inj Some). revert H. do 2 (bind_ok as []).
  intros [= <-]. exists src, bw, base, own. done.
Qed.

(** Loading ends. A document loaded against a catalog with finitely many entries
    has a definite result: following [extends] visits each entry at most once, so past
    the number of entries more rounds change nothing. *)
Theorem loading_terminates (src : bytes) (registry : PolicyRegistry) (ctx : LoadContext)
    (catalog : bytes → option bytes) (names : list bytes) :
  (∀ n, is_Some (catalog n) → n ∈ names) →
  ∃ r, ∀ fuel, length names < fuel →
    parse_toml_with_catalog from_toml fuel src registry ctx catalog = Some r.
Proof.
  intros Hn. unfold parse_toml_with_catalog. destruct (from_toml src) as [wire|]; [|eauto].
  destruct (resolve_with_catalog_total (S (length names)) wire registry ctx catalog names [])
    as [r Hr]; [done|constructor|set_solver|cbn; lia|].
  exists r. intros fuel Hf. eapply resolve_with_catalog_more; [|exact Hr]. lia.
Qed.

(** A loaded document is well-formed for its provenance: its rules name knobs of
    the registry under the right section, with values of the right type, never above
    the default of a knob nothing enforces, and everywhere for a global knob; only a
    root charter has mandatory injects or assignments; only [forbidden_columns]
    validates get through; no inject is contradicted by a validate; the warnings are
    the rules that match nothing; and a draft extends nothing. *)
Theorem loaded_document_ok (fuel : nat) (wire : WireDoc) (registry : PolicyRegistry)
    (ctx : LoadContext) (catalog : option (bytes → option bytes)) (doc : PolicyDoc) :
  resolve_with_catalog from_toml fuel wire registry ctx catalog [] = Some (Ok doc) →
  doc_ok registry ctx doc ∧ (ctx = CtxNonRootLayer → wd_extends wire = None).
Proof. apply resolve_with_catalog_ok. Qed.

Lemma parse_toml_ok src registry ctx doc :
  parse_toml from_toml src registry ctx = Some (Ok doc) → doc_ok registry ctx doc.
Proof.
  unfold parse_toml, resolve. destruct (from_toml src); [|done].
  by intros [? _]%resolve_with_catalog_ok.
Qed.

Lemma parse_json_ok src registry ctx doc :
  parse_json from_toml from_json src registry ctx = Some (Ok doc) → doc_ok registry ctx doc.
Proof.
  unfold parse_json, resolve. destruct (from_json src); [|done].
  by intros [? _]%resolve_with_catalog_ok.
Qed.

(** C1: from text to decision. Load a root charter and an untrusted draft; if the draft
    is admitted, the resulting policy gives every object a value of every knob, no
    looser than the one the charter's text gives it. *)
Theorem text_to_decision (registry : PolicyRegistry) (root_src draft_src : bytes)
    (root : RootCharter) (draft : PolicyDoc) (p : EffectivePolicy)
    (key : KnobKey) (def : KnobDef) (o : ObjectName) :
  registry_ok registry →
  root_parse_toml from_toml root_src registry = Some (Ok root) →
  parse_json from_toml from_json draft_src registry CtxNonRootLayer = Some (Ok draft) →
  admit_draft root draft registry = Ok p →
  registry_get registry key = Some def → kd_kind def ≠ KDigest →
  ∃ base v c, layer_from_doc Base (root_doc root) registry = Ok base ∧
    grants p key o = Some v ∧ grants (mk_policy registry [base]) key o = Some c ∧
    leq_value (kd_kind def) v c = Ok true.
Proof.
  intros Hreg Hroot Hdraft Hadmit Hdef Hk. apply parse_json_ok in Hdraft.
  assert (doc_ok registry CtxRootCharter (root_doc root)) as Hr.
  { unfold root_parse_toml, loaded in Hroot.
    destruct (parse_toml _ _ _ _) as [[doc|]|] eqn:E; try done. injection Hroot as <-.
    by apply parse_toml_ok in E. }
  destruct (rules_ok_layer registry _ Base _ Hreg (do_rules _ _ _ Hr)) as (base & Hb & Hwf & _).
  exists base. pose proof (rules_ok_shaped _ _ _ (do_rules _ _ _ Hdraft)) as Hds.
  assert (charter_layers root registry = Ok [base]) as Hc.
  { unfold charter_layers, root_admit. by rewrite Hb. }
  destruct (admit_value registry Hreg root draft [base] p Hc ltac:(by constructor) Hds Hadmit
              key def o Hdef Hk) as (v & c & ?). eauto.
Qed.

(** [extends] accumulates. A document that extends a base is loaded from the base,
    itself loaded as a trusted entry, and its own rules; at every object the value it
    grants is the join of the values the two grant on their own. *)
Theorem extends_joins (fuel : nat) (wire : WireDoc) (registry : PolicyRegistry)
    (ctx : LoadContext) (get : bytes → option bytes) (seen : list bytes) (name : bytes)
    (doc : PolicyDoc) :
  registry_ok registry → wd_extends wire = Some name →
  resolve_with_catalog from_toml (S fuel) wire registry ctx (Some get) seen = Some (Ok doc) →
  ∃ src base_wire base own lb lo ld,
    get name = Some src ∧ from_toml src = Ok base_wire ∧
    resolve_with_catalog from_toml fuel base_wire registry CtxTrustedCatalogEntry (Some get)
      (seen ++ [name]) = Some (Ok base) ∧
    resolve_own wire registry ctx = Ok own ∧
    layer_from_doc Base base registry = Ok lb ∧ layer_from_doc Base own registry = Ok lo ∧
    layer_from_doc Base doc registry = Ok ld ∧
    ∀ key def o, registry_get registry key = Some def → kd_kind def ≠ KDigest →
      ∃ vb vo v j, grants (layer_policy registry lb) key o = Some vb ∧
        grants (layer_policy registry lo) key o = Some vo ∧
        grants (layer_policy registry ld) key o = Some v ∧
        join_value (kd_kind def) vb vo = Ok j ∧ veq (kd_kind def) v j.
Proof.
  intros Hreg Hext Hres. destruct (resolve_extends _ _ _ _ _ _ _ _ Hext Hres)
    as (src & bw & base & own & Hsrc & Hbw & Hbase & Hown & Hrules).
  destruct (resolve_with_catalog_ok _ _ _ _ _ _ _ _ Hbase) as [Hb _].
  destruct (resolve_with_catalog_ok _ _ _ _ _ _ _ _ Hres) as [Hd _].
  destruct (rules_ok_layer registry _ Base base Hreg (do_rules _ _ _ Hb)) as (lb & Elb & Hlb & Gb).
  destruct (rules_ok_layer registry _ Base own Hreg (resolve_own_ok _ _ _ _ Hown))
    as (lo & Elo & Hlo & Go).
  destruct (rules_ok_layer registry _ Base doc Hreg (do_rules _ _ _ Hd)) as (ld & Eld & Hld & Gd).
  exists src, bw, base, own, lb, lo, ld. do 7 (split; [done|]). intros key def o Hdef Hk.
  destruct (single_layer_total registry key def lb o) as (vb & Hvb & Hsb); [done..|].
  destruct (single_layer_total registry key def lo o) as (vo & Hvo & Hso); [done..|].
  destruct (single_layer_total registry key def ld o) as (v & Hv & _); [done..|].
  destruct (join_value_total (kd_kind def) vb vo) as [j Hj]; [done..|by destruct (kd_kind def)|].
  exists vb, vo, v, j. do 4 (split; [done|]). apply vo_join in Hj as [_ Hj]; [|done..]. intros x.
  rewrite Hj, (single_layer_den _ _ _ _ _ _ Hlb Hdef Hvb), (single_layer_den _ _ _ _ _ _ Hlo Hdef Hvo),
    (single_layer_den _ _ _ _ _ _ Hld Hdef Hv).
  rewrite (Gb _ _ Hdef), (Go _ _ Hdef), (Gd _ _ Hdef), Hrules. unfold grants_for.
  rewrite omap_app. setoid_rewrite elem_of_app. split.
  - intros [?|(r & [?|?] & ? & ?)]; [by left; left|left; right; eauto|right; right; eauto].
  - intros [[?|(r & ? & ? & ?)]|[?|(r & ? & ? & ?)]]; [by left|right; eauto|by left|right; eauto].
Qed.
End loading.
