(* ===== verification/Examples.v ===== *)
(** A worked deployment - a registry, a root charter and drafts as loaded documents -
    on which the theorems of the other files are applied, and the concrete documents
    behind the loader's findings. *)

From S2P Require Export DocumentFacts SealFacts Seal.

Definition bool_knob (key : bytes) (polarity : Polarity) (model : ObjectModel) (inherit : bool) :
    KnobDef := mk_def key KBool polarity (VBool false) Enforced model false inherit [].

Definition ex_defs : list KnobDef :=
  [bool_knob (lit "sql.raw") Grant PerTable true;
   bool_knob (lit "schema.create_table") Grant PerTable true;
   mk_def (lit "limit.rows") (KUintCharter 0) Grant (VUint 0) Enforced PerTable false false [];
   bool_knob (lit "audit.on") Require PerTable true].
Definition ex_registry : PolicyRegistry :=
  default [] (result_ok (registry_with registry_empty ex_defs)).

Definition on (inc exc : list bytes) : option WireScope := Some (WOf inc exc).
Definition ex_column (name : bytes) : WireColumn :=
  mk_wcolumn name (lit "uuid") false None None None.

(** Raw SQL on [app_*] but [app_secret], table creation on [app_*], a row limit, and an
    [id] key every created table must have. *)
Definition ex_root_wire : WireDoc :=
  mk_wdoc 1 None None
    [mk_wgrant (lit "sql.raw") (WBool true) (on [lit "app_*"] [lit "app_secret"]);
     mk_wgrant (lit "schema.create_table") (WBool true) (on [lit "app_*"] []);
     mk_wgrant (lit "limit.rows") (WUint 100) (Some (WToken (lit "all")))]
    [mk_wgrant (lit "audit.on") (WBool true) (on [lit "app_*"] [])]
    [mk_winject (on [lit "app_*"] []) [ex_column (lit "id")] [] (Some [lit "id"]) (Some WForbid) true]
    [mk_wvalidate None (WForbiddenColumns [lit "password"])].

(** A draft for the [app_web] schema. *)
Definition ex_draft_wire : WireDoc :=
  mk_wdoc 1 None (on [lit "app_web"] [])
    [mk_wgrant (lit "sql.raw") (WBool true) None] []
    [mk_winject None [ex_column (lit "tenant")] [] None None false]
    [mk_wvalidate None (WForbiddenColumns [lit "tmp"])].

Definition ex_from_text (src : bytes) : result bytes WireDoc :=
  if bool_decide (src = lit "root") then Ok ex_root_wire
  else if bool_decide (src = lit "draft") then Ok ex_draft_wire
  else Err (lit "not a document").

Definition no_doc : PolicyDoc := mk_doc 1 None [] [].
Definition doc_of (m : option (result LoadError PolicyDoc)) : PolicyDoc :=
  match m with Some (Ok d) => d | _ => no_doc end.
Definition ex_root_doc : PolicyDoc :=
  doc_of (parse_toml ex_from_text (lit "root") ex_registry CtxRootCharter).
Definition ex_root : RootCharter := mk_root (mk_trusted ex_root_doc).
Definition ex_draft : PolicyDoc :=
  doc_of (parse_json ex_from_text ex_from_text (lit "draft") ex_registry CtxNonRootLayer).
Definition ex_layers : list Layer :=
  default [] (result_ok (charter_layers ex_root ex_registry)).
Definition ex_charter : EffectivePolicy := mk_policy ex_registry ex_layers.
Definition ex_policy : EffectivePolicy :=
  default ex_charter (result_ok (admit_draft ex_root ex_draft ex_registry)).

Lemma ex_registry_ok : registry_ok ex_registry.
Proof.
  apply (registry_with_registry_ok ex_defs); [vm_compute; reflexivity|repeat constructor].
Qed.

Lemma ex_root_parse :
  root_parse_toml ex_from_text (lit "root") ex_registry = Some (Ok ex_root).
Proof. vm_compute. reflexivity. Qed.

Lemma ex_draft_parse :
  parse_json ex_from_text ex_from_text (lit "draft") ex_registry CtxNonRootLayer = Some (Ok ex_draft).
Proof. vm_compute. reflexivity. Qed.

Lemma ex_root_ok : doc_ok ex_registry CtxRootCharter ex_root_doc.
Proof. apply (parse_toml_ok ex_from_text (lit "root")). vm_compute. reflexivity. Qed.

Lemma ex_draft_ok : doc_ok ex_registry CtxNonRootLayer ex_draft.
Proof. apply (parse_json_ok ex_from_text ex_from_text (lit "draft")), ex_draft_parse. Qed.

Lemma ex_draft_shaped : rules_shaped ex_registry (pd_rules ex_draft).
Proof. exact (rules_ok_shaped _ _ _ (do_rules _ _ _ ex_draft_ok)). Qed.

Lemma ex_root_layers : charter_layers ex_root ex_registry = Ok ex_layers.
Proof. vm_compute. reflexivity. Qed.

Lemma ex_layers_wf : Forall (layer_wf ex_registry) ex_layers.
Proof. exact (root_layers_wf _ _ ex_root _ ex_registry_ok ex_root_ok ex_root_layers). Qed.

Lemma ex_admitted : admit_draft ex_root ex_draft ex_registry = Ok ex_policy.
Proof. vm_compute. reflexivity. Qed.

(** ** Objects of the deployment *)

Definition ex_web : ObjectName := object_table (lit "app_web") (lit "users").
Definition ex_other : ObjectName := object_table (lit "app_blog") (lit "posts").

(** * Theorems at the deployment *)

Lemma text_to_decision_witness :
  ∃ base v c, layer_from_doc Base (root_doc ex_root) ex_registry = Ok base ∧
    grants ex_policy (lit "sql.raw") ex_web = Some v ∧
    grants (mk_policy ex_registry [base]) (lit "sql.raw") ex_web = Some c ∧
    leq_value KBool v c = Ok true.
Proof.
  apply (text_to_decision ex_from_text ex_from_text ex_registry (lit "root") (lit "draft") ex_root
    ex_draft ex_policy (lit "sql.raw") (bool_knob (lit "sql.raw") Grant PerTable true) ex_web);
    [apply ex_registry_ok|apply ex_root_parse|apply ex_draft_parse|apply ex_admitted
    |vm_compute; reflexivity|done].
Defined.

Lemma admit_no_escalation_witness :
  ∃ v c, grants ex_policy (lit "sql.raw") ex_web = Some v ∧
    grants ex_charter (lit "sql.raw") ex_web = Some c ∧ leq_value KBool v c = Ok true.
Proof.
  apply (admit_no_escalation ex_registry ex_registry_ok ex_root ex_draft ex_layers ex_policy
    ex_root_layers ex_layers_wf ex_draft_shaped ex_admitted (lit "sql.raw")
    (bool_knob (lit "sql.raw") Grant PerTable true) ex_web); [vm_compute; reflexivity|done].
Defined.

Lemma admit_union_up_witness :
  obligations ex_policy ex_web = [(lit "audit.on", VBool true)] ∧
  length (injects_for ex_policy ex_web) = 2 ∧ length (validates_for ex_policy ex_web) = 2.
Proof.
  pose proof (admit_union_up ex_registry ex_registry_ok ex_root ex_draft ex_layers ex_policy
    ex_root_layers ex_draft_shaped ex_admitted ex_web) as (-> & -> & ->).
  split; [|split]; vm_compute; reflexivity.
Defined.

(** The charter grants the limit everywhere; the draft does not ask for it, and a knob
    that is not inheritable stays at its default. *)
Lemma admit_silent_draft_witness :
  ∃ v, grants ex_policy (lit "limit.rows") ex_web = Some v ∧ veq (KUintCharter 0) v (VUint 0) ∧
    grants ex_charter (lit "limit.rows") ex_web = Some (VUint 100).
Proof.
  destruct (admit_silent_draft ex_registry ex_registry_ok ex_root ex_draft ex_layers ex_policy
    ex_root_layers ex_layers_wf ex_draft_shaped ex_admitted (lit "limit.rows")
    (mk_def (lit "limit.rows") (KUintCharter 0) Grant (VUint 0) Enforced PerTable false false [])
    ex_web) as (v & Hv & He); [vm_compute; reflexivity|done| |].
  - intros scope value. vm_compute pd_rules.
    intros [H|[H|[H|H%elem_of_nil]%elem_of_cons]%elem_of_cons]%elem_of_cons; done.
  - exists v. split; [exact Hv|]. split; [exact He|]. vm_compute. reflexivity.
Defined.

Definition ex_id_spec : InjectSpec :=
  mk_inject [mk_column (lit "id") (lit "uuid") false None None None] [] (Some [lit "id"]) Forbid true.

Lemma admit_respects_injects_witness :
  ex_id_spec ∈ injects_for ex_charter ex_web ∧ fold_ident (lit "id") ≠ fold_ident (lit "tmp").
Proof.
  assert (ex_id_spec ∈ injects_for ex_charter ex_web) as Hs by (vm_compute; left).
  split; [exact Hs|].
  destruct (admit_respects_injects ex_registry ex_root ex_draft ex_layers ex_policy ex_root_layers
    ex_admitted ex_web ex_id_spec Hs) as [_ H].
  apply (H [lit "tmp"] (mk_column (lit "id") (lit "uuid") false None None None));
    [vm_compute; left|left|left].
Defined.

(** ** A chain of two admissions *)

Definition ex_first : EffectivePolicy :=
  default ex_charter (result_ok (admit_draft ex_charter ex_draft ex_registry)).
Definition ex_second : EffectivePolicy :=
  default ex_charter (result_ok (admit_draft ex_first ex_draft ex_registry)).

Lemma ex_chain : descends ex_registry ex_charter ex_second.
Proof.
  apply (descends_admit _ _ ex_first _ ex_draft);
    [apply (descends_admit _ _ ex_charter _ ex_draft); [constructor|apply ex_draft_shaped|]
    |apply ex_draft_shaped|]; vm_compute; reflexivity.
Qed.

Lemma chain_no_escalation_witness :
  ∃ v w, grants ex_second (lit "sql.raw") ex_web = Some v ∧
    grants ex_charter (lit "sql.raw") ex_web = Some w ∧ leq_value KBool v w = Ok true.
Proof.
  apply (chain_no_escalation ex_registry ex_charter ex_second (lit "sql.raw")
    (bool_knob (lit "sql.raw") Grant PerTable true) ex_web);
    [apply ex_registry_ok|done|apply ex_layers_wf|apply ex_chain|vm_compute; reflexivity|done].
Defined.

(** ** An environment document over the root charter *)

Definition ex_env_wire : WireDoc :=
  mk_wdoc 1 None None
    [mk_wgrant (lit "sql.raw") (WBool true) (on [lit "app_web"; lit "web"] []);
     mk_wgrant (lit "limit.rows") (WUint 50) (on [lit "app_web"] [])]
    [] [mk_winject (on [lit "app_web"] []) [ex_column (lit "region")] [] None None false] [].
Definition ex_env : PolicyDoc := doc_of (resolve ex_from_text ex_env_wire ex_registry CtxTrustedCatalogEntry).

Lemma ex_env_ok : doc_ok ex_registry CtxTrustedCatalogEntry ex_env.
Proof.
  refine (proj1 (resolve_with_catalog_ok ex_from_text 1 ex_env_wire _ _ None [] _ _)).
  vm_compute. reflexivity.
Qed.

Definition no_charter : AssembledCharter := mk_assembled ex_registry [].
Definition ex_overlaid : AssembledCharter :=
  default no_charter (result_ok (overlay (mk_trusted ex_root_doc) (mk_trusted ex_env) ex_registry)).
Definition ex_restricted : AssembledCharter :=
  default no_charter (result_ok (restrict (mk_trusted ex_root_doc) (mk_trusted ex_env) ex_registry)).
Definition ex_final : Charter :=
  default (mk_charter ex_registry []) (result_ok (finalize_charter ex_overlaid)).

(** Both the root's [id] and the environment's [region] reach [app_web]. *)
Lemma finalize_conflict_free_witness :
  let p := mk_policy (ch_registry ex_final) (ch_layers ex_final) in
  length (injects_for p ex_web) = 2 ∧ ForallOrdPairs compatible (injects_for p ex_web).
Proof.
  split; [vm_compute; reflexivity|].
  apply (finalize_conflict_free ex_overlaid ex_final ex_web). vm_compute. reflexivity.
Defined.

Definition ex_layer (doc : PolicyDoc) : Layer :=
  default (mk_layer Base (mk_model []) [] [] []) (result_ok (layer_from_doc Base doc ex_registry)).

Lemma restrict_pointwise_meet_witness :
  ∃ v vo vi m, grants (mk_policy ex_registry (ac_layers ex_restricted)) (lit "limit.rows") ex_web = Some v ∧
    grants (layer_policy ex_registry (ex_layer ex_root_doc)) (lit "limit.rows") ex_web = Some vo ∧
    grants (layer_policy ex_registry (ex_layer ex_env)) (lit "limit.rows") ex_web = Some vi ∧
    meet_value (KUintCharter 0) vo vi = Ok m ∧ veq (KUintCharter 0) v m.
Proof.
  apply (restrict_pointwise_meet ex_registry (mk_trusted ex_root_doc) (mk_trusted ex_env) ex_registry_ok
    (rules_ok_shaped _ _ _ (do_rules _ _ _ ex_root_ok)) (rules_ok_shaped _ _ _ (do_rules _ _ _ ex_env_ok))
    ex_restricted (ex_layer ex_root_doc) (ex_layer ex_env) (lit "limit.rows")
    (mk_def (lit "limit.rows") (KUintCharter 0) Grant (VUint 0) Enforced PerTable false false []) ex_web);
    try (vm_compute; reflexivity). done.
Defined.

Lemma mandatory_inject_inescapable_witness : ex_id_spec ∈ injects_for ex_charter ex_other.
Proof.
  refine (mandatory_inject_inescapable ex_registry ex_layers
    (bool_knob CREATE_TABLE_KEY Grant PerTable true) ex_other (VBool true) (ex_layer ex_root_doc)
    (mk_rule (Of [pattern_schema (seg_infix (lit "app_") [])] []) (RInject ex_id_spec)) ex_id_spec
    ex_layers_wf _ _ _ _ _ _ _ _); try (vm_compute; reflexivity).
  - intros H. discriminate (H (inl 1%Z) eq_refl).
  - vm_compute. left.
  - vm_compute. left.
Defined.

(** * Grants and regions *)

Lemma grants_first_covering_layer_witness :
  ∃ v, grants ex_policy (lit "sql.raw") ex_web = Some v ∧ vle KBool (VBool true) v.
Proof.
  destruct (grants_first_covering_layer ex_registry (ep_layers ex_policy) (lit "sql.raw")
    (bool_knob (lit "sql.raw") Grant PerTable true) ex_web) as (v & Hv & _ & H);
    [apply ex_registry_ok| |vm_compute; reflexivity|done|].
  - exact (proj2 (admit_wf ex_registry ex_registry_ok ex_root ex_draft ex_layers ex_policy
      ex_root_layers ex_layers_wf ex_draft_shaped ex_admitted)).
  - exists v. split; [exact Hv|]. destruct (deciding _ _ _) as [km|] eqn:E; [|vm_compute in E; done].
    apply (proj2 (proj1 (H v) (reflexivity v)) (mk_grant (Of [pattern_schema (seg_literal (lit "app_web"))] []) (VBool true))).
    + vm_compute in E. injection E as <-. left.
    + vm_compute. reflexivity.
Defined.

Lemma grant_region_top_sound_witness :
  ∃ v, grants ex_charter (lit "limit.rows") ex_other = Some v ∧
    ¬ vle (KUintCharter 0) v (VUint 0).
Proof.
  destruct (grant_region_top_sound ex_registry ex_layers (lit "limit.rows") ex_other) as (def & Hd & H);
    [apply ex_layers_wf|vm_compute; reflexivity|].
  vm_compute in Hd. injection Hd as <-. by apply H.
Defined.

(** A charter grant on [web], masked by a draft that denies everything. *)
Definition ex_denied : list Layer :=
  let layer tag rs :=
    mk_layer tag (mk_model [(lit "sql.raw", mk_keymap KBool (VBool false) rs)]) [] [] [] in
  [layer Draft [mk_grant All (VBool false)];
   layer Base [mk_grant (Of [pattern_schema (seg_literal (lit "web"))] []) (VBool true)]].

Lemma grant_region_ungranted_sound_witness :
  ∃ v, grants (mk_policy masked_registry ex_denied) (lit "sql.raw") (object_schema (lit "web")) = Some v ∧
    vle KBool v (VBool false).
Proof.
  exists (VBool false). split; [vm_compute; reflexivity|].
  apply (grant_region_ungranted_sound masked_registry ex_denied (lit "sql.raw") raw_sql_def
    (object_schema (lit "web")) (VBool false)); [| |reflexivity|vm_compute; reflexivity..].
  - apply Forall_cons; split; [|apply Forall_singleton];
      (apply (one_key_layer_wf _ _ _ raw_sql_def); [reflexivity|exact I|repeat constructor]).
  - intros l [->|[->|H%elem_of_nil]%elem_of_cons]%elem_of_cons km r Hk; [| |done];
      vm_compute in Hk; injection Hk as <-; intros ->%list_elem_of_singleton; reflexivity.
Defined.

(** * Registry and subtraction *)

Lemma registry_order_independent_witness :
  result_ok (registry_with registry_empty ex_defs) = result_ok (registry_with registry_empty (reverse ex_defs)).
Proof.
  refine (proj2 (registry_order_independent ex_defs (reverse ex_defs) _)).
  symmetry. apply reverse_Permutation.
Defined.

Lemma subtract_loop_terminates_witness :
  let app := Of [pattern_schema (seg_infix (lit "app_") [])] [] in
  let web := Of [pattern_schema (seg_literal (lit "app_web"))] [] in
  subtract_loop 100 app [web] = subtract_loop 2 app [web].
Proof. intros app web. apply (subtract_loop_terminates 100 app [web]). cbn. lia. Defined.

(** * Seals *)

(** Size bounds of closed data, one field at a time. *)
Ltac sized :=
  repeat match goal with
  | |- _ ∧ _ => split
  | |- True => exact I
  | |- Forall _ [] => apply Forall_nil_2
  | |- Forall _ (_ :: _) => apply Forall_cons; split
  | |- Forall ?P ?l => let l' := eval hnf in l in progress change (Forall P l')
  | |- short _ => vm_compute; reflexivity
  | |- (_ ≤ _)%Z => lia
  | |- (_ < _)%Z => vm_compute; reflexivity
  | |- _ => progress hnf
  end.

(** Two spellings of one grant: the includes in either order. *)
Definition ex_spelled (rs : list GrantRule) : list Layer :=
  [mk_layer Base (mk_model [(lit "sql.raw", mk_keymap KBool (VBool false) rs)]) [] [] []].
Definition ex_scope_ab : Scope :=
  Of [pattern_schema (seg_literal (lit "a")); pattern_schema (seg_literal (lit "b"))] [].
Definition ex_scope_ba : Scope :=
  Of [pattern_schema (seg_literal (lit "b")); pattern_schema (seg_literal (lit "a"))] [].

Definition ex_policy_ab : EffectivePolicy :=
  mk_policy masked_registry (ex_spelled [mk_grant ex_scope_ab (VBool true)]).
Definition ex_policy_ba : EffectivePolicy :=
  mk_policy masked_registry (ex_spelled [mk_grant ex_scope_ba (VBool true)]).

Lemma ex_policy_sized : policy_sized ex_policy_ab ∧ policy_sized ex_policy_ba.
Proof.
  split; (split; [vm_compute; reflexivity|split; [|vm_compute; reflexivity]]).
  - let l := eval vm_compute in (seal_layers ex_policy_ab) in change (seal_layers ex_policy_ab) with l. sized.
  - let l := eval vm_compute in (seal_layers ex_policy_ba) in change (seal_layers ex_policy_ba) with l. sized.
Qed.


Lemma sealed_same_decisions_witness :
  let ls := ex_spelled [mk_grant ex_scope_ab (VBool true)] in
  let ks := ex_spelled [mk_grant ex_scope_ba (VBool true)] in
  ∃ v w, grants (mk_policy masked_registry ls) (lit "sql.raw") (object_schema (lit "a")) = Some v ∧
    grants (mk_policy masked_registry ks) (lit "sql.raw") (object_schema (lit "a")) = Some w ∧
    veq KBool v w.
Proof.
  intros ls ks.
  refine (proj1 (sealed_same_decisions masked_registry ls ks (lit "sql.raw") raw_sql_def
    (object_schema (lit "a")) _ _ _ _ _ _)); [|apply Forall_singleton..|vm_compute; reflexivity|reflexivity|done].
  - apply (registry_with_registry_ok [raw_sql_def]); [vm_compute; reflexivity|repeat constructor].
  - apply (one_key_layer_wf _ _ _ raw_sql_def); [reflexivity|exact I|repeat constructor].
  - apply (one_key_layer_wf _ _ _ raw_sql_def); [reflexivity|exact I|repeat constructor].
Defined.

(** * Loading *)

(** A catalog whose two entries extend each other, and one base. *)
Definition ex_catalog (name : bytes) : option bytes :=
  if bool_decide (name ∈ [lit "base"; lit "left"; lit "right"]) then Some name else None.
Definition ex_base_wire : WireDoc :=
  mk_wdoc 1 None None [mk_wgrant (lit "limit.rows") (WUint 10) (on [lit "app_web"] [])] [] [] [].
Definition ex_extending (base : bytes) : WireDoc :=
  mk_wdoc 1 (Some base) None [mk_wgrant (lit "limit.rows") (WUint 20) (on [lit "app_web"] [])] [] [] [].
Definition ex_from_catalog (src : bytes) : result bytes WireDoc :=
  if bool_decide (src = lit "left") then Ok (ex_extending (lit "right"))
  else if bool_decide (src = lit "right") then Ok (ex_extending (lit "left"))
  else if bool_decide (src = lit "base") then Ok ex_base_wire
  else Ok (ex_extending (lit "base")).

(** The cycle is reported, however many rounds are allowed. *)
Lemma loading_terminates_witness :
  parse_toml_with_catalog ex_from_catalog 1000 (lit "left") ex_registry CtxRootCharter ex_catalog
  = Some (Err (ExtendsCycle (lit "right"))).
Proof.
  destruct (loading_terminates ex_from_catalog (lit "left") ex_registry CtxRootCharter ex_catalog
    [lit "base"; lit "left"; lit "right"]) as [r Hr].
  - intros n [src Hn]. unfold ex_catalog in Hn. by case_bool_decide.
  - rewrite (Hr 1000 ltac:(cbn; lia)). rewrite <-(Hr 4 ltac:(cbn; lia)). vm_compute. reflexivity.
Defined.

Lemma loaded_document_ok_witness : doc_ok ex_registry CtxNonRootLayer ex_draft.
Proof.
  refine (proj1 (loaded_document_ok ex_from_text 1 ex_draft_wire ex_registry CtxNonRootLayer None ex_draft _)).
  vm_compute. reflexivity.
Defined.

Definition ex_extended : PolicyDoc :=
  doc_of (resolve_with_catalog ex_from_catalog 2 (ex_extending (lit "base")) ex_registry CtxRootCharter
    (Some ex_catalog) []).

Lemma extends_joins_witness :
  ∃ ld v, layer_from_doc Base ex_extended ex_registry = Ok ld ∧
    grants (layer_policy ex_registry ld) (lit "limit.rows") ex_web = Some v.
Proof.
  destruct (extends_joins ex_from_catalog 1 (ex_extending (lit "base")) ex_registry CtxRootCharter
    ex_catalog [] (lit "base") ex_extended) as (? & ? & ? & ? & ? & ? & ld & _ & _ & _ & _ & _ & _ & Hld & H);
    [apply ex_registry_ok|reflexivity|vm_compute; reflexivity|].
  destruct (H (lit "limit.rows")
    (mk_def (lit "limit.rows") (KUintCharter 0) Grant (VUint 0) Enforced PerTable false false []) ex_web)
    as (? & ? & v & ? & _ & _ & Hv & _); [vm_compute; reflexivity|done|]. by exists ld, v.
Defined.

(** The granularity gate of a per-schema knob reads only the rule's own scope: a
    document that names a table in the rule is refused, and one that names it in
    [default_scope] is loaded with a rule for that table. *)
Theorem per_schema_gate_bypass :
  let table := on [lit "app.users"] [] in
  let wire default_scope scope :=
    mk_wdoc 1 None default_scope [mk_wgrant (lit "sql.raw") (WBool true) scope] [] [] [] in
  let load w := resolve ex_from_text w masked_registry CtxNonRootLayer in
  kd_object_model raw_sql_def = PerSchema ∧
  load (wire None table) = Some (Err (ScopeTooGranularForKnob (lit "sql.raw"))) ∧
  ∃ doc scope, load (wire table None) = Some (Ok doc) ∧
    pd_rules doc = [mk_rule scope (RGrant (lit "sql.raw") (VBool true))] ∧
    scope_has_table_granular_pattern scope = true.
Proof.
  split; [done|]. split; [vm_compute; reflexivity|]. eexists _, _.
  split; [vm_compute; reflexivity|]. split; vm_compute; reflexivity.
Qed.

(** The direction gate of [extends] samples one object, so its verdict depends on
    the order of the includes: over a base that grants [b] and not [a], a rule that
    grants neither is refused when [b] is written first and accepted when [a] is. *)
Theorem extends_direction_samples :
  let a := pattern_schema (seg_literal (lit "a")) in
  let b := pattern_schema (seg_literal (lit "b")) in
  let rule inc v := mk_rule (Of inc []) (RGrant (lit "sql.raw") (VBool v)) in
  let base := mk_doc 1 None [rule [a] false; rule [b] true] [] in
  let own inc := mk_doc 1 None [rule inc false] [] in
  check_extends_grant_direction base (own [a; b]) masked_registry = Ok tt ∧
  check_extends_grant_direction base (own [b; a]) masked_registry
    = Err (ExtendsGrantDominatedByBase (lit "sql.raw") (VBool true) (VBool false)).
Proof. split; vm_compute; reflexivity. Qed.
