(* ===== verification/Calendar.v ===== *)
(** Workflow schedules, the crate [zeroship-workflow-calendar]: cron expressions
    ([calendar.rs]) and interval schedules ([timing.rs]). The [chrono] and [chrono_tz]
    crates are parameters, bundled in the class [Chrono]. *)

From S2P Require Export RustStd.

(** [CalendarError::InvalidSchedule], with what its message says. *)
Inductive Problem :=
  | TooLong
  | UnknownTimezone
  | EmptyExpression
  | UnsupportedMacro (value : bytes)
  | SubMinute
  | WrongFieldCount
  | EmptyField (label : bytes)
  | UnsupportedToken (label : bytes)
  | EmptyListItem (label : bytes)
  | MalformedStep (label : bytes)
  | ZeroStep (label : bytes)
  | SteppedWildcardDay
  | MalformedRange (label : bytes)
  | OutOfRange (label : bytes)
  | DayAbove28
  | NotInteger (label : bytes)
  | IntegerInvalid (label : bytes)
  | NoFireInHorizon
  | TimestampOutOfRange
  | NonPositiveInterval.
Inductive CalendarError := InvalidSchedule (why : Problem).

(** * Parsing *)

Record CronField := mk_field { cf_values : list Z; cf_wildcard : bool }.
Record ParsedCron := mk_cron {
  pc_minutes : CronField;
  pc_hours : CronField;
  pc_days_of_month : CronField;
  pc_months : CronField;
  pc_days_of_week : CronField
}.

Definition parse_u32 (value label : bytes) : result CalendarError Z :=
  if bool_decide (value = []) || negb (forallb is_ascii_digit value)
  then Err (InvalidSchedule (NotInteger label))
  else match parse_digits 0 value with
       | Some v => if (v <=? u32_max)%Z then Ok v else Err (InvalidSchedule (IntegerInvalid label))
       | None => Err (InvalidSchedule (IntegerInvalid label))
       end.

(** The [while] loop of [parse_cron_part]: the value grows by the step, at least one, so
    as many rounds as there are values in the range are enough. *)
Fixpoint fill (fuel : nat) (value last step : Z) (values : list Z) : list Z :=
  match fuel with
  | O => values
  | S fuel' =>
      if (value <=? last)%Z then
        let values := bset_insert value values in
        if (value + step <=? u32_max)%Z then fill fuel' (value + step) last step values else values
      else values
  end.

Definition parse_step (pieces : list bytes) (label : bytes) : result CalendarError Z :=
  match pieces with
  | [_; s] =>
      step ← parse_u32 s label;
      if (step =? 0)%Z then Err (InvalidSchedule (ZeroStep label)) else Ok step
  | _ => Ok 1%Z
  end.

Definition parse_range (base label : bytes) (lo hi : Z) : result CalendarError (Z * Z) :=
  if bool_decide (base = lit "*") then Ok (lo, hi)
  else
    match split_on "-"%byte base with
    | [s] => if bool_decide (s = []) then Err (InvalidSchedule (MalformedRange label))
             else start ← parse_u32 s label; Ok (start, start)
    | [s; e] => if bool_decide (s = []) || bool_decide (e = [])
                then Err (InvalidSchedule (MalformedRange label))
                else start ← parse_u32 s label; last ← parse_u32 e label; Ok (start, last)
    | _ => Err (InvalidSchedule (MalformedRange label))
    end.

Definition parse_cron_part (part label : bytes) (lo hi : Z) (explicit_max : option Z)
    (values : list Z) : result CalendarError (list Z) :=
  if bool_decide (part = []) then Err (InvalidSchedule (EmptyListItem label))
  else
    let pieces := split_on "/"%byte part in
    let base := default [] (head pieces) in
    if (2 <? length pieces) || bool_decide (base = []) || bool_decide (pieces !! 1 = Some [])
    then Err (InvalidSchedule (MalformedStep label))
    else
      step ← parse_step pieces label;
      if bool_decide (label = lit "day-of-month") && bool_decide (base = lit "*")
         && (length pieces =? 2)
      then Err (InvalidSchedule SteppedWildcardDay)
      else
        '(start, last) ← parse_range base label lo hi;
        if (start <? lo)%Z || (hi <? start)%Z || (last <? lo)%Z || (hi <? last)%Z
           || (last <? start)%Z
        then Err (InvalidSchedule (OutOfRange label))
        else if match explicit_max with Some limit => (limit <? last)%Z | None => false end
                && negb (bool_decide (base = lit "*"))
        then Err (InvalidSchedule DayAbove28)
        else Ok (fill (Z.to_nat (last - start + 1)) start last step values).

Definition parse_cron_field (field label : bytes) (lo hi : Z) (explicit_max : option Z) :
    result CalendarError CronField :=
  if bool_decide (field = []) then Err (InvalidSchedule (EmptyField label))
  else if existsb (λ c, is_ascii_alphabetic c || bool_decide (c ∈ lit "?#LW")) field
  then Err (InvalidSchedule (UnsupportedToken label))
  else
    values ← try_fold (λ values part, parse_cron_part part label lo hi explicit_max values) []
      (split_on ","%byte field);
    let values :=
      if bool_decide (label = lit "day-of-week") && bool_decide (7%Z ∈ values)
      then bset_insert 0%Z (List.filter (λ v, negb (v =? 7)%Z) values) else values in
    Ok (mk_field values (bool_decide (field = lit "*"))).

Definition cron_macros : list (bytes * bytes) :=
  [(lit "@hourly", lit "0 * * * *"); (lit "@daily", lit "0 0 * * *");
   (lit "@weekly", lit "0 0 * * 0"); (lit "@monthly", lit "0 0 1 * *");
   (lit "@yearly", lit "0 0 1 1 *")].

Definition expand_macro (compact : bytes) : result CalendarError bytes :=
  match find_map (λ '(m, e), if bool_decide (compact = m) then Some e else None) cron_macros with
  | Some e => Ok e
  | None => if starts_with compact (lit "@") then Err (InvalidSchedule (UnsupportedMacro compact))
            else Ok compact
  end.

Definition normalize_cron_expr (expr : bytes) : result CalendarError bytes :=
  let compact := join_with (lit " ") (split_whitespace expr) in
  if bool_decide (compact = []) then Err (InvalidSchedule EmptyExpression)
  else
    normalized ← expand_macro compact;
    let field_count := length (split_whitespace normalized) in
    if field_count =? 6 then Err (InvalidSchedule SubMinute)
    else if negb (field_count =? 5) then Err (InvalidSchedule WrongFieldCount)
    else Ok normalized.

Definition parse_cron_expr (expr : bytes) : result CalendarError ParsedCron :=
  normalized ← normalize_cron_expr expr;
  let field i := default [] (split_whitespace normalized !! i) in
  minutes ← parse_cron_field (field 0) (lit "minute") 0 59 None;
  hours ← parse_cron_field (field 1) (lit "hour") 0 23 None;
  days_of_month ← parse_cron_field (field 2) (lit "day-of-month") 1 31 (Some 28%Z);
  months ← parse_cron_field (field 3) (lit "month") 1 12 None;
  days_of_week ← parse_cron_field (field 4) (lit "day-of-week") 0 7 None;
  Ok (mk_cron minutes hours days_of_month months days_of_week).

(** * Dates, times and time zones

    What the crate calls of [chrono] and [chrono_tz]. A [NaiveDate] is a day number and
    a [NaiveDateTime], always on a whole minute here, a minute number, both counted from
    1970-01-01; a [DateTime<Utc>] is a number of nanoseconds from the same instant. *)

Inductive LocalResult := LSingle (t : Z) | LAmbiguous (a b : Z) | LNone.

Class Chrono := {
  Tz : Type;
  (** [str::parse::<Tz>]. *)
  parse_tz : bytes → option Tz;
  (** [NaiveDate::checked_add_signed] of a number of days. *)
  add_days : Z → Z → option Z;
  month : Z → Z;
  day : Z → Z;
  (** [weekday().num_days_from_sunday()]. *)
  weekday : Z → Z;
  (** [NaiveDate::and_hms_opt(hour, minute, 0)]. *)
  and_hms : Z → Z → Z → option Z;
  (** [NaiveDateTime::checked_add_signed] of one minute. *)
  add_minute : Z → option Z;
  (** [DateTime::with_timezone(tz).date_naive()]. *)
  local_date : Tz → Z → Z;
  (** [TimeZone::from_local_datetime], the instants as [DateTime<Utc>]. *)
  from_local : Tz → Z → LocalResult;
  (** [DateTime::from_timestamp_millis] and [timestamp_millis]. *)
  from_timestamp_millis : Z → option Z;
  timestamp_millis : Z → Z
}.

Section calendar.
Context `{Chrono}.

Record Calendar := mk_calendar {
  cal_expression : bytes;
  cal_timezone : Tz;
  cal_cron : ParsedCron
}.

Definition calendar_parse (expression timezone : bytes) : result CalendarError Calendar :=
  if (256 <? length expression) then Err (InvalidSchedule TooLong)
  else
    expression ← normalize_cron_expr expression;
    timezone ← ok_or (parse_tz timezone) (InvalidSchedule UnknownTimezone);
    cron ← parse_cron_expr expression;
    Ok (mk_calendar expression timezone cron).

Definition field_matches (f : CronField) (value : Z) : bool := bool_decide (value ∈ cf_values f).

Definition date_matches (cron : ParsedCron) (date : Z) : bool :=
  if negb (field_matches (pc_months cron) (month date)) then false
  else
    let dom := field_matches (pc_days_of_month cron) (day date) in
    let dow := field_matches (pc_days_of_week cron) (weekday date) in
    match cf_wildcard (pc_days_of_month cron), cf_wildcard (pc_days_of_week cron) with
    | true, true => true
    | true, false => dow
    | false, true => dom
    | false, false => dom || dow
    end.

(** The instant of a local time that exists, the earlier one of two. *)
Definition earliest (r : LocalResult) : option Z :=
  match r with
  | LSingle t => Some t
  | LAmbiguous a b => Some (Z.min a b)
  | LNone => None
  end.

(** The probing loop over a gap, minute by minute. *)
Fixpoint probe_gap (fuel : nat) (tz : Tz) (probe : Z) : option Z :=
  match fuel with
  | O => None
  | S fuel' =>
      probe ← add_minute probe;
      match earliest (from_local tz probe) with
      | Some t => Some t
      | None => probe_gap fuel' tz probe
      end
  end.

Definition resolve_local_nominal (tz : Tz) (nominal : Z) : option Z :=
  match earliest (from_local tz nominal) with
  | Some t => Some t
  | None => probe_gap (48 * 60) tz nominal
  end.

(** The candidate of one hour and minute of a date, when it is after [after]. *)
Definition fire_at (tz : Tz) (after date hour minute : Z) : option Z :=
  nominal ← and_hms date hour minute;
  candidate ← resolve_local_nominal tz nominal;
  if (after <? candidate)%Z then Some candidate else None.

Definition fire_on (cron : ParsedCron) (tz : Tz) (after date : Z) : option Z :=
  if date_matches cron date then
    find_map (λ hour, find_map (fire_at tz after date hour) (cf_values (pc_minutes cron)))
      (cf_values (pc_hours cron))
  else None.

(** The days of the search, [n] of them from [offset] on; running past the last date
    ends it. *)
Fixpoint fire_within (n : nat) (cron : ParsedCron) (tz : Tz) (after start offset : Z) : option Z :=
  match n with
  | O => None
  | S n' =>
      date ← add_days start offset;
      match fire_on cron tz after date with
      | Some t => Some t
      | None => fire_within n' cron tz after start (offset + 1)
      end
  end.

Definition HORIZON : nat := S (366 * 8).

Definition first_cron_fire_after (cron : ParsedCron) (tz : Tz) (after : Z) :
    result CalendarError Z :=
  ok_or (fire_within HORIZON cron tz after (local_date tz after) 0) (InvalidSchedule NoFireInHorizon).

Definition calendar_next_after (c : Calendar) (after : Z) : result CalendarError Z :=
  first_cron_fire_after (cal_cron c) (cal_timezone c) after.

(** * Schedules *)

Inductive IntervalAnchor := Epoch | Deploy.
Inductive ScheduleTiming :=
  | Cron (cron_expr tz : bytes)
  | Interval (interval_ms : Z) (anchor : IntervalAnchor).

(** The [checked_] operations on [i64]. *)
Definition checked (z : Z) : result CalendarError Z :=
  if (i64_min <=? z)%Z && (z <=? i64_max)%Z then Ok z else Err (InvalidSchedule TimestampOutOfRange).

Definition next_after (s : ScheduleTiming) (after activated_at : Z) : result CalendarError Z :=
  match s with
  | Cron cron_expr tz =>
      c ← calendar_parse cron_expr tz;
      t ← ok_or (from_timestamp_millis after) (InvalidSchedule TimestampOutOfRange);
      timestamp_millis <$> calendar_next_after c t
  | Interval interval_ms anchor =>
      if (interval_ms <=? 0)%Z then Err (InvalidSchedule NonPositiveInterval)
      else
        let anchor := match anchor with Epoch => 0%Z | Deploy => activated_at end in
        elapsed ← checked (after - anchor);
        periods ← checked (elapsed / interval_ms + 1);
        span ← checked (periods * interval_ms);
        next ← checked (anchor + span);
        _ ← ok_or (from_timestamp_millis next) (InvalidSchedule TimestampOutOfRange);
        Ok next
  end.
End calendar.
