(* ===== verification/CalendarFacts.v ===== *)
(** Cron expressions denote what they say and survive their own normal form; the next
    fire is the first one after the given instant, and there always is one; interval
    schedules hit the grid of their anchor. *)

From S2P Require Export Calendar.

(** * Parts of a cron field *)

Lemma fill_spec fuel value last step values : (1 ≤ step)%Z → (last ≤ u32_max)%Z →
  (last - value + 1 ≤ Z.of_nat fuel)%Z →
  ∀ v, v ∈ fill fuel value last step values ↔
    v ∈ values ∨ ((value ≤ v ≤ last)%Z ∧ ((v - value) `mod` step = 0)%Z).
Proof.
  intros Hs Hl. revert value values. induction fuel as [|fuel IH]; intros value values Hf v; cbn.
  { split; [by left|]. intros [?|[? _]]; [done|lia]. }
  assert ((value ≤ v ≤ last)%Z ∧ ((v - value) `mod` step = 0)%Z ↔
    (v = value ∧ (value ≤ last)%Z) ∨
    ((value + step ≤ v ≤ last)%Z ∧ ((v - (value + step)) `mod` step = 0)%Z)) as Hstep.
  { replace (v - (value + step))%Z with (v - value + (-1) * step)%Z by lia.
    rewrite Z.mod_add by lia. split; [|intros [[-> ?]|[? ?]]; [rewrite Z.sub_diag|]; auto with lia].
    intros [Hv Hm]. destruct (decide (v = value)); [left; lia|right].
    split; [|done]. apply Z.mod_divide in Hm as [k Hk]; [|lia].
    assert (1 ≤ k)%Z by nia. nia. }
  rewrite Hstep. clear Hstep. destruct (Z.leb_spec value last).
  - destruct (Z.leb_spec (value + step) u32_max).
    + rewrite IH, elem_of_bset_insert by lia. naive_solver.
    + rewrite elem_of_bset_insert. split; [naive_solver|]. intros [?|[[? ?]|[? ?]]]; auto. lia.
  - split; [by left|]. intros [?|[[? ?]|[? ?]]]; [done|lia..].
Qed.

Lemma fill_wf fuel value last step values : bset_wf values → bset_wf (fill fuel value last step values).
Proof.
  revert value values. induction fuel as [|fuel IH]; intros value values Hw; cbn; [done|].
  destruct (_ <=? _)%Z; [|done]. destruct (_ <=? _)%Z; [apply IH|]; by apply bset_insert_wf.
Qed.

(** The syntax of a part, what it prints as and what it denotes. *)
Inductive PartBase := Star | One (n : Z) | Range (a b : Z).
#[global] Instance part_base_eq_dec : EqDecision PartBase.
Proof. solve_decision. Defined.
Record CronPart := mk_part { cp_base : PartBase; cp_step : option Z }.

Definition print_base (b : PartBase) : bytes :=
  match b with
  | Star => lit "*"
  | One n => nat_to_string n
  | Range a b => nat_to_string a ++ lit "-" ++ nat_to_string b
  end.
Definition print_part (p : CronPart) : bytes :=
  print_base (cp_base p) ++ match cp_step p with Some s => lit "/" ++ nat_to_string s | None => [] end.

Definition base_range (b : PartBase) (lo hi : Z) : Z * Z :=
  match b with Star => (lo, hi) | One n => (n, n) | Range a b => (a, b) end.
Definition part_denotes (p : CronPart) (lo hi v : Z) : Prop :=
  let '(a, b) := base_range (cp_base p) lo hi in
  (a ≤ v ≤ b)%Z ∧ ((v - a) `mod` (default 1 (cp_step p)) = 0)%Z.

(** A part the field accepts. *)
Definition part_ok (p : CronPart) (label : bytes) (lo hi : Z) (explicit_max : option Z) : Prop :=
  let '(a, b) := base_range (cp_base p) lo hi in
  (lo ≤ a ≤ b)%Z ∧ (b ≤ hi)%Z ∧ (∀ s, cp_step p = Some s → (1 ≤ s ≤ u32_max)%Z) ∧
  (cp_base p = Star → label = lit "day-of-month" → cp_step p = None) ∧
  (∀ limit, explicit_max = Some limit → cp_base p ≠ Star → (b ≤ limit)%Z).

Definition num (n : Z) : Prop := (0 ≤ n ≤ u32_max)%Z.

Lemma num_digits n : num n → nat_to_string n ≠ [] ∧ ∀ b, b ∈ nat_to_string n → b ∈ lit "0123456789".
Proof. intros Hn. apply nat_to_string_digits. unfold num, u32_max in Hn. lia. Qed.

Lemma num_without n c : num n → c ∉ lit "0123456789" → c ∉ nat_to_string n.
Proof. intros Hn Hc Hin. by apply Hc, (num_digits n Hn). Qed.

Lemma parse_u32_print n label : num n → parse_u32 (nat_to_string n) label = Ok n.
Proof.
  intros Hn. destruct (num_digits n Hn) as [Hne Hd]. unfold parse_u32.
  rewrite bool_decide_eq_false_2 by done.
  assert (forallb is_ascii_digit (nat_to_string n) = true) as ->.
  { apply forallb_forall. intros b Hb%list_elem_of_In. apply Hd in Hb. revert b Hb.
    apply Forall_forall, (bool_decide_unpack _). by vm_compute. }
  cbn [orb negb]. rewrite nat_to_string_parse by (unfold num, u32_max in Hn; lia).
  by rewrite (proj2 (Z.leb_le _ _)) by (unfold num in Hn; lia).
Qed.

Lemma parse_digits_nonneg acc s v : (0 ≤ acc)%Z → parse_digits acc s = Some v → (0 ≤ v)%Z.
Proof.
  revert acc. induction s as [|b s IH]; intros acc Ha; cbn; [by intros [= <-]|].
  unfold byte_digit. destruct (is_ascii_digit b) eqn:Eb; [|done]. cbn. apply IH.
  unfold is_ascii_digit, byte_in in Eb. apply andb_true_iff in Eb as [Eb _]. apply N.leb_le in Eb. lia.
Qed.

Lemma parse_u32_nonneg value label v : parse_u32 value label = Ok v → (0 ≤ v)%Z.
Proof.
  unfold parse_u32. destruct (_ || _); [done|]. destruct (parse_digits 0 value) as [z|] eqn:E; [|done].
  destruct (_ <=? _)%Z; [|done]. intros [= <-]. by apply parse_digits_nonneg in E.
Qed.

Definition base_nums (b : PartBase) : Prop :=
  match b with Star => True | One n => num n | Range a b => num a ∧ num b end.

Lemma print_base_bytes b c : base_nums b → c ∈ print_base b → c ∈ lit "0123456789-*".
Proof.
  assert (∀ c, c ∈ lit "0123456789" → c ∈ lit "0123456789-*") as Hsub
    by (intros ? ?; change (lit "0123456789-*") with (lit "0123456789" ++ lit "-*"); set_solver).
  destruct b as [|n|a b]; cbn [base_nums print_base].
  - intros _ ->%list_elem_of_singleton. by apply (bool_decide_unpack _).
  - intros Hn Hc. by apply Hsub, (num_digits n).
  - intros [Ha Hb]. rewrite !elem_of_app.
    intros [Hc|[->%list_elem_of_singleton|Hc]]; [by apply Hsub, (num_digits a)| |by apply Hsub, (num_digits b)].
    by apply (bool_decide_unpack _).
Qed.

Lemma print_base_nonempty b : base_nums b → print_base b ≠ [].
Proof.
  destruct b as [|n|a b]; cbn; [done|intros; by apply num_digits|intros [[? _]%num_digits _]].
  by destruct (nat_to_string a).
Qed.

Lemma print_base_star b : base_nums b → print_base b = lit "*" ↔ b = Star.
Proof.
  intros Hb. split; [|by intros ->]. destruct b as [|n|a b]; [done|intros E..]; exfalso.
  - apply (num_without n "*"%byte); [done|by apply (bool_decide_unpack _)|]. cbn in E. rewrite E. left.
  - assert ("-"%byte ∈ lit "*") as Hin by (rewrite <-E; apply elem_of_app; right; left).
    change (lit "*") with ["*"%byte] in Hin. by apply list_elem_of_singleton in Hin.
Qed.

Lemma parse_range_print b label lo hi : base_nums b →
  parse_range (print_base b) label lo hi = Ok (base_range b lo hi).
Proof.
  intros Hb. unfold parse_range. pose proof (print_base_star b Hb) as Hstar.
  destruct b as [|n|a b]; [done|..]; rewrite bool_decide_eq_false_2 by (by rewrite Hstar); cbn in *.
  - rewrite split_on_none by (apply num_without; [done|by apply (bool_decide_unpack _)]).
    rewrite bool_decide_eq_false_2 by (by apply num_digits). by rewrite parse_u32_print.
  - destruct Hb as [Ha Hb].
    rewrite split_on_cut, split_on_none by (apply num_without; [done|by apply (bool_decide_unpack _)]).
    rewrite !bool_decide_eq_false_2 by (by apply num_digits). cbn. by rewrite !parse_u32_print.
Qed.

Definition part_nums (p : CronPart) : Prop :=
  base_nums (cp_base p) ∧ ∀ s, cp_step p = Some s → num s.

Lemma part_ok_nums p label lo hi explicit_max : (0 ≤ lo)%Z → (hi ≤ u32_max)%Z →
  part_ok p label lo hi explicit_max → part_nums p.
Proof.
  intros Hlo Hhi. unfold part_ok. destruct (base_range (cp_base p) lo hi) as [a b] eqn:Eb.
  intros (Ha & Hb & Hs & _). split.
  - destruct (cp_base p); cbn in *; try done; injection Eb as <- <-; unfold num; try split; lia.
  - intros s ?%Hs. unfold num. lia.
Qed.

Lemma print_base_without b c : base_nums b → c ∉ lit "0123456789-*" → c ∉ print_base b.
Proof. intros Hb Hc Hin. by eapply Hc, print_base_bytes. Qed.

Lemma split_part p : part_nums p → split_on "/"%byte (print_part p) =
  print_base (cp_base p) :: match cp_step p with Some s => [nat_to_string s] | None => [] end.
Proof.
  intros [Hb Hs]. unfold print_part.
  assert ("/"%byte ∉ print_base (cp_base p)) as Hn
    by (apply print_base_without; [done|by apply (bool_decide_unpack _)]).
  destruct (cp_step p) as [s|]; [|by rewrite app_nil_r, split_on_none].
  change (lit "/" ++ nat_to_string s) with ("/"%byte :: nat_to_string s).
  rewrite split_on_cut, (split_on_none _ (nat_to_string s)); [done| |done].
  apply num_without; [by apply Hs|by apply (bool_decide_unpack _)].
Qed.

Lemma parse_step_print p label : part_nums p → (∀ s, cp_step p = Some s → (1 ≤ s)%Z) →
  parse_step (split_on "/"%byte (print_part p)) label = Ok (default 1%Z (cp_step p)).
Proof.
  intros Hn Hs. rewrite split_part by done. destruct Hn as [_ Hn].
  destruct (cp_step p) as [s|]; [|done]. cbn. rewrite parse_u32_print by auto. cbn.
  by rewrite (proj2 (Z.eqb_neq s 0)) by (specialize (Hs s eq_refl); lia).
Qed.

Lemma parse_cron_part_print p label lo hi explicit_max values : (0 ≤ lo)%Z → (hi ≤ u32_max)%Z →
  part_ok p label lo hi explicit_max →
  parse_cron_part (print_part p) label lo hi explicit_max values =
    Ok (let '(a, b) := base_range (cp_base p) lo hi in
        fill (Z.to_nat (b - a + 1)) a b (default 1%Z (cp_step p)) values).
Proof.
  intros Hlo Hhi Hok. pose proof (part_ok_nums _ _ _ _ _ Hlo Hhi Hok) as Hn.
  unfold part_ok in Hok. unfold parse_cron_part.
  rewrite bool_decide_eq_false_2.
  2: { unfold print_part. destruct Hn as [Hb _]. apply print_base_nonempty in Hb. by destruct (print_base _). }
  destruct (base_range (cp_base p) lo hi) as [a b] eqn:Er.
  destruct Hok as (Ha & Hb & Hs & Hd & He).
  rewrite parse_step_print by (try done; intros s ?%Hs; lia). cbn [mbind result_bind].
  rewrite split_part by done.
  change (default [] (head (print_base (cp_base p) :: _))) with (print_base (cp_base p)).
  rewrite parse_range_print by apply Hn. cbn [mbind result_bind]. rewrite Er.
  rewrite (bool_decide_ext _ _ (print_base_star (cp_base p) (proj1 Hn))).
  rewrite (bool_decide_eq_false_2 (print_base (cp_base p) = [])) by apply print_base_nonempty, Hn.
  assert ((2 <? length (print_base (cp_base p) ::
    match cp_step p with Some s => [nat_to_string s] | None => [] end)) = false) as -> by (by destruct (cp_step p)).
  rewrite (bool_decide_eq_false_2 (_ !! 1 = Some [])).
  2: { destruct (cp_step p) as [s|] eqn:E; [|done]. cbn. intros [= E0]. destruct Hn as [_ Hn].
       by apply (num_digits s (Hn s E)). }
  cbn [orb]. destruct (bool_decide (label = _) && _ && _) eqn:Edom.
  { exfalso. rewrite !andb_true_iff, !bool_decide_eq_true in Edom. destruct Edom as [[E1 E2] E3].
    by rewrite (Hd E2 E1) in E3. }
  assert ((a <? lo)%Z || (hi <? a)%Z || (b <? lo)%Z || (hi <? b)%Z || (b <? a)%Z = false) as ->
    by (rewrite !orb_false_iff, !Z.ltb_ge; lia).
  lazymatch goal with |- (if ?c then _ else _) = _ => destruct c eqn:Eex end; [exfalso|done].
  apply andb_true_iff in Eex as [E1 E2]. destruct explicit_max as [limit|]; [|done].
  apply Z.ltb_lt in E1. apply negb_true_iff, bool_decide_eq_false in E2.
  specialize (He limit eq_refl E2). lia.
Qed.

(** * Cron fields *)

Definition print_field (parts : list CronPart) : bytes := join_with (lit ",") (map print_part parts).

(** Sunday may be written 0 or 7. *)
Definition fold_weekday (label : bytes) (v : Z) : Z :=
  if bool_decide (label = lit "day-of-week") && (v =? 7)%Z then 0%Z else v.

Lemma print_part_bytes p c : part_nums p → c ∈ print_part p → c ∈ lit "0123456789-*/".
Proof.
  intros [Hb Hs]. unfold print_part. rewrite elem_of_app.
  change (lit "0123456789-*/") with (lit "0123456789-*" ++ lit "/").
  intros [Hc|Hc]; [apply elem_of_app; left; by eapply print_base_bytes|].
  destruct (cp_step p) as [s|] eqn:E; [|by apply elem_of_nil in Hc].
  apply elem_of_cons in Hc as [->|Hc]; [apply elem_of_app; right; left|].
  apply elem_of_app. left. change (lit "0123456789-*") with (lit "0123456789" ++ lit "-*").
  apply elem_of_app. left. by apply (num_digits s (Hs s eq_refl)).
Qed.

Lemma print_part_without p c : part_nums p → c ∉ lit "0123456789-*/" → c ∉ print_part p.
Proof. intros Hp Hc Hin. by eapply Hc, print_part_bytes. Qed.

Lemma split_join c l : l ≠ [] → Forall (λ w, c ∉ w) l → split_on c (join_with [c] l) = l.
Proof.
  intros Hne Hl. induction Hl as [|w l Hw Hl IH]; [done|]. destruct l as [|w' l].
  - cbn. by apply split_on_none.
  - change (join_with [c] (w :: w' :: l)) with (w ++ c :: join_with [c] (w' :: l)).
    by rewrite split_on_cut, IH.
Qed.

Lemma elem_of_join_with b c l : b ∈ join_with [c] l → b = c ∨ ∃ w, w ∈ l ∧ b ∈ w.
Proof.
  induction l as [|w [|w' l] IH]; [by intros ?%elem_of_nil|intros ?; right; exists w; by split; [left|]|].
  change (join_with [c] (w :: w' :: l)) with (w ++ c :: join_with [c] (w' :: l)).
  rewrite elem_of_app, elem_of_cons. intros [?|[?|?]]; [right; exists w; by split; [left|]|by left|].
  destruct IH as [?|(x & ? & ?)]; [done|by left|]. right. exists x. by split; [right|].
Qed.

Lemma fold_parts_values parts label lo hi explicit_max values : (0 ≤ lo)%Z → (hi ≤ u32_max)%Z →
  Forall (λ p, part_ok p label lo hi explicit_max) parts → bset_wf values →
  ∃ values', try_fold (λ values part, parse_cron_part part label lo hi explicit_max values) values
      (map print_part parts) = Ok values' ∧ bset_wf values' ∧
    ∀ v, v ∈ values' ↔ v ∈ values ∨ ∃ p, p ∈ parts ∧ part_denotes p lo hi v.
Proof.
  intros Hlo Hhi Hp. revert values. induction Hp as [|p parts Hok Hp IH]; intros values Hw; cbn.
  { exists values. split; [done|]. split; [done|]. set_solver. }
  rewrite parse_cron_part_print by done. cbn [mbind result_bind].
  destruct (base_range (cp_base p) lo hi) as [a b] eqn:Er.
  destruct (IH (fill (Z.to_nat (b - a + 1)) a b (default 1%Z (cp_step p)) values))
    as (values' & -> & Hw' & Hv); [by apply fill_wf|].
  exists values'. split; [done|]. split; [done|]. intros v. rewrite Hv.
  unfold part_ok in Hok. rewrite Er in Hok. destruct Hok as (Ha & Hb & Hs & _).
  rewrite fill_spec; [|destruct (cp_step p) as [s|]; cbn; [specialize (Hs s eq_refl)|]; lia|lia|lia].
  setoid_rewrite elem_of_cons. unfold part_denotes at 2. split.
  - intros [[?|?]|(q & ? & ?)]; [by left|right; exists p; rewrite Er; auto|right; eauto].
  - intros [?|(q & [->|?] & Hq)]; [by left; left| |right; eauto]. rewrite Er in Hq. by left; right.
Qed.

#[global] Instance cron_part_eq_dec : EqDecision CronPart.
Proof. solve_decision. Defined.

Lemma print_part_star p : part_nums p → print_part p = lit "*" ↔ p = mk_part Star None.
Proof.
  intros [Hb Hs]. split; [|by intros ->]. unfold print_part. destruct p as [b [s|]]; cbn [cp_base cp_step] in *.
  - intros E. exfalso. assert ("/"%byte ∈ lit "*") as Hin by (rewrite <-E; apply elem_of_app; right; left).
    change (lit "*") with ["*"%byte] in Hin. by apply list_elem_of_singleton in Hin.
  - rewrite app_nil_r. by intros ->%print_base_star.
Qed.

Lemma print_field_star parts : parts ≠ [] → Forall part_nums parts →
  print_field parts = lit "*" ↔ parts = [mk_part Star None].
Proof.
  intros Hne Hp. unfold print_field. destruct parts as [|p [|q parts]]; [done|..].
  - rewrite Forall_singleton in Hp. cbn [map join_with]. rewrite print_part_star by done. split; [by intros ->|by intros [= ->]].
  - split; [|done]. intros E. exfalso.
    assert (","%byte ∈ lit "*") as Hin by (rewrite <-E; apply elem_of_app; right; left).
    change (lit "*") with ["*"%byte] in Hin. by apply list_elem_of_singleton in Hin.
Qed.

Lemma print_field_bytes parts c : Forall part_nums parts → c ∈ print_field parts →
  c ∈ lit "0123456789-*/,".
Proof.
  intros Hp Hc. change (lit "0123456789-*/,") with (lit "0123456789-*/" ++ lit ","). apply elem_of_app.
  apply elem_of_join_with in Hc as [->|(w & Hw & Hc)]; [right; left|left].
  apply list_elem_of_fmap in Hw as (p & -> & Hw). rewrite Forall_forall in Hp.
  by eapply print_part_bytes; [apply Hp|].
Qed.

Lemma print_field_nonempty parts : parts ≠ [] → Forall part_nums parts → print_field parts ≠ [].
Proof.
  intros Hne Hp. destruct parts as [|p parts]; [done|]. apply Forall_cons in Hp as [[Hb _] _].
  apply print_base_nonempty in Hb. unfold print_field, print_part. cbn.
  destruct (print_base (cp_base p)) eqn:E; [done|]. by destruct parts; cbn.
Qed.

(** A cron field means what it says. A list of items [*], [a], [a-b], each with an
    optional step and within the bounds of the field, is accepted, and the values parsed
    are exactly those the items denote, Sunday's 7 read as 0; the field counts as a
    wildcard exactly when it is a lone [*]. *)
Theorem cron_field_meaning (parts : list CronPart) (label : bytes) (lo hi : Z)
    (explicit_max : option Z) :
  (0 ≤ lo)%Z → (hi ≤ u32_max)%Z → parts ≠ [] →
  Forall (λ p, part_ok p label lo hi explicit_max) parts →
  ∃ values, parse_cron_field (print_field parts) label lo hi explicit_max =
      Ok (mk_field values (bool_decide (parts = [mk_part Star None]))) ∧ bset_wf values ∧
    ∀ v, v ∈ values ↔ ∃ p w, p ∈ parts ∧ part_denotes p lo hi w ∧ v = fold_weekday label w.
Proof.
  intros Hlo Hhi Hne Hok.
  assert (Forall part_nums parts) as Hn
    by (eapply Forall_impl; [exact Hok|]; intros p; by apply part_ok_nums).
  unfold parse_cron_field. rewrite bool_decide_eq_false_2 by (by apply print_field_nonempty).
  assert (existsb (λ c, is_ascii_alphabetic c || bool_decide (c ∈ lit "?#LW")) (print_field parts) = false) as ->.
  { apply not_true_iff_false. rewrite existsb_exists. intros (c & Hc%list_elem_of_In & Ht).
    apply print_field_bytes in Hc; [|done]. revert c Hc Ht.
    apply (Forall_forall (λ c, ¬ _)), (bool_decide_unpack _). by vm_compute. }
  assert (split_on ","%byte (print_field parts) = map print_part parts) as ->.
  { apply (split_join ","%byte); [by destruct parts|]. apply Forall_fmap.
    eapply Forall_impl; [exact Hn|]. intros p Hp.
    apply print_part_without; [done|by apply (bool_decide_unpack _)]. }
  destruct (fold_parts_values parts label lo hi explicit_max [] Hlo Hhi Hok) as (values & -> & Hw & Hv);
    [constructor|]. cbn [mbind result_bind].
  rewrite (bool_decide_ext _ _ (print_field_star parts Hne Hn)).
  eexists. split; [done|]. unfold fold_weekday.
  assert (∀ v, v ∈ values ↔ ∃ p, p ∈ parts ∧ part_denotes p lo hi v) as Hv'
    by (intros v; rewrite Hv; set_solver).
  destruct (bool_decide (label = _)); cbn [andb].
  2: { split; [done|]. intros v. rewrite Hv'. naive_solver. }
  case_bool_decide as H7.
  - split; [apply bset_insert_wf, bset_filter_wf; done|]. intros v.
    rewrite elem_of_bset_insert, elem_of_lfilter, negb_true_iff, Z.eqb_neq, Hv'. split.
    + intros [->|[(p & ? & ?) ?]]; [apply Hv' in H7 as (p & ? & ?); by exists p, 7%Z|].
      exists p, v. by rewrite (proj2 (Z.eqb_neq v 7)).
    + intros (p & w & Hp & Hd & ->). destruct (Z.eqb_spec w 7); [by left|right]. split; [eauto|done].
  - split; [done|]. intros v. rewrite Hv'. split.
    + intros (p & Hp & Hd). exists p, v. split; [done|]. split; [done|].
      destruct (Z.eqb_spec v 7) as [->|]; [|done]. destruct H7. apply Hv'. eauto.
    + intros (p & w & Hp & Hd & ->). destruct (Z.eqb_spec w 7) as [->|]; [|eauto].
      destruct H7. apply Hv'. eauto.
Qed.

(** * What a parsed field holds *)

Lemma parse_cron_part_inv part label lo hi explicit_max values values' :
  (hi ≤ u32_max)%Z →
  parse_cron_part part label lo hi explicit_max values = Ok values' →
  ∃ a b step, (lo ≤ a ≤ b)%Z ∧ (b ≤ hi)%Z ∧ (1 ≤ step)%Z ∧
    (∀ limit, explicit_max = Some limit → (a ≤ limit)%Z ∨ a = lo) ∧
    values' = fill (Z.to_nat (b - a + 1)) a b step values.
Proof.
  intros Hhi. unfold parse_cron_part. case_bool_decide; [done|]. destruct (_ || _ || _); [done|].
  bind_ok as step Es. destruct (_ && _ && _); [done|]. bind_ok as [a b] Er.
  destruct ((a <? lo)%Z || _ || _ || _ || _) eqn:Eb; [done|].
  rewrite !orb_false_iff, !Z.ltb_ge in Eb. destruct Eb as [[[[? ?] ?] ?] ?].
  lazymatch goal with |- (if ?c then _ else _) = _ → _ => destruct c eqn:Ex end; [done|].
  intros [= <-]. exists a, b, step. split; [lia|]. split; [lia|]. split; [|split; [|done]].
  - revert Es. unfold parse_step. destruct (split_on _ _) as [|? [|x [|]]]; try (by intros [= <-]).
    bind_ok as v Ev. destruct (Z.eqb_spec v 0); [done|]. intros [= <-].
    apply parse_u32_nonneg in Ev. lia.
  - intros limit ->. case_bool_decide as Estar.
    + right. revert Er. unfold parse_range. rewrite bool_decide_eq_true_2 by done. by intros [= <- _].
    + left. rewrite andb_true_r in Ex. apply Z.ltb_ge in Ex. lia.
Qed.

Lemma parse_parts_inv parts label lo hi explicit_max values values' : (hi ≤ u32_max)%Z →
  try_fold (λ values part, parse_cron_part part label lo hi explicit_max values) values parts = Ok values' →
  bset_wf values →
  bset_wf values' ∧ (∀ v, v ∈ values → v ∈ values') ∧
  (∀ v, v ∈ values' → v ∈ values ∨ (lo ≤ v ≤ hi)%Z) ∧
  (parts ≠ [] → ∃ v, v ∈ values' ∧ (lo ≤ v ≤ hi)%Z ∧
     ∀ limit, explicit_max = Some limit → (v ≤ limit)%Z ∨ v = lo).
Proof.
  intros Hhi. revert values. induction parts as [|part parts IH]; intros values; cbn [try_fold].
  { intros [= <-] Hw. split; [done|]. split; [done|]. split; [by left|done]. }
  bind_ok as mid Em. intros E Hw.
  destruct (parse_cron_part_inv _ _ _ _ _ _ _ Hhi Em) as (a & b & step & ? & ? & ? & Hlim & ->).
  assert (∀ v, v ∈ fill (Z.to_nat (b - a + 1)) a b step values ↔ v ∈ values ∨
    ((a ≤ v ≤ b)%Z ∧ ((v - a) `mod` step = 0)%Z)) as Hf by (intros v; apply fill_spec; lia).
  destruct (IH _ E) as (Hw' & Hsub & Hin & _); [by apply fill_wf|]. split; [done|]. split; [|split].
  - intros v Hv. apply Hsub, Hf. by left.
  - intros v [[?|[? _]]%Hf|?]%Hin; [by left|right; lia|by right].
  - intros _. exists a. split; [|split; [lia|done]]. apply Hsub, Hf. right.
    rewrite Z.sub_diag, Z.mod_0_l by lia. lia.
Qed.

Lemma parse_cron_field_inv field label lo hi explicit_max f : (0 ≤ lo)%Z → (hi ≤ u32_max)%Z →
  parse_cron_field field label lo hi explicit_max = Ok f →
  bset_wf (cf_values f) ∧
  (∀ v, v ∈ cf_values f → (lo ≤ v ≤ hi)%Z ∨ label = lit "day-of-week" ∧ v = 0%Z) ∧
  (label = lit "day-of-week" → 7%Z ∉ cf_values f) ∧
  ∃ v, v ∈ cf_values f ∧ ∀ limit, explicit_max = Some limit → label ≠ lit "day-of-week" →
    (v ≤ limit)%Z ∨ v = lo.
Proof.
  intros Hlo Hhi. unfold parse_cron_field. case_bool_decide; [done|]. destruct (existsb _ _); [done|].
  bind_ok as values Ev. intros [= <-]. cbn [cf_values].
  destruct (parse_parts_inv _ _ _ _ _ _ _ Hhi Ev) as (Hw & _ & Hin & Hex); [constructor|].
  destruct Hex as (v & Hv & Hr & Hlim); [apply split_on_nil|].
  assert (∀ v, v ∈ values → (lo ≤ v ≤ hi)%Z) as Hin' by (intros ? [?%elem_of_nil|?]%Hin; done).
  case_bool_decide as El; cbn [andb]; [|split; [done|split; [by left; auto|split; [done|eauto]]]].
  case_bool_decide as H7; [|split; [done|split; [by left; auto|split; [done|eauto]]]].
  split; [by apply bset_insert_wf, bset_filter_wf|]. split; [|split].
  - intros x. rewrite elem_of_bset_insert, elem_of_lfilter. intros [->|[? _]]; auto.
  - intros _. rewrite elem_of_bset_insert, elem_of_lfilter. by intros [?|[_ ?]].
  - exists 0%Z. split; [by apply elem_of_bset_insert; left|]. done.
Qed.

Record cron_ok (cron : ParsedCron) : Prop := {
  co_minutes : bset_wf (cf_values (pc_minutes cron)) ∧
    ∃ m, m ∈ cf_values (pc_minutes cron) ∧ (0 ≤ m < 60)%Z;
  co_hours : bset_wf (cf_values (pc_hours cron)) ∧
    ∃ h, h ∈ cf_values (pc_hours cron) ∧ (0 ≤ h < 24)%Z;
  co_day : ∃ v, v ∈ cf_values (pc_days_of_month cron) ∧ (1 ≤ v ≤ 28)%Z;
  co_month : ∃ m, m ∈ cf_values (pc_months cron) ∧ (1 ≤ m ≤ 12)%Z;
  co_weekday : ∃ w, w ∈ cf_values (pc_days_of_week cron) ∧ (0 ≤ w < 7)%Z
}.

Lemma parse_cron_expr_ok expr cron : parse_cron_expr expr = Ok cron → cron_ok cron.
Proof.
  unfold parse_cron_expr. bind_ok as n. bind_ok as mi Emi. bind_ok as ho Eho. bind_ok as dm Edm.
  bind_ok as mo Emo. bind_ok as dw Edw. intros [= <-].
  apply parse_cron_field_inv in Emi as (Hwmi & Hmi & _ & vmi & Hvmi & _); [|done..].
  apply parse_cron_field_inv in Eho as (Hwho & Hho & _ & vho & Hvho & _); [|done..].
  apply parse_cron_field_inv in Edm as (_ & Hdm & _ & vdm & Hvdm & Hlim); [|done..].
  apply parse_cron_field_inv in Emo as (_ & Hmo & _ & vmo & Hvmo & _); [|done..].
  apply parse_cron_field_inv in Edw as (_ & Hdw & H7 & vdw & Hvdw & _); [|done..].
  split; cbn.
  - split; [done|]. exists vmi. split; [done|]. destruct (Hmi _ Hvmi) as [?|[? _]]; [lia|done].
  - split; [done|]. exists vho. split; [done|]. destruct (Hho _ Hvho) as [?|[? _]]; [lia|done].
  - exists vdm. split; [done|]. destruct (Hdm _ Hvdm) as [?|[? _]]; [|done].
    destruct (Hlim 28%Z eq_refl) as [?| ->]; [done|lia|lia].
  - exists vmo. split; [done|]. destruct (Hmo _ Hvmo) as [?|[? _]]; [lia|done].
  - exists vdw. split; [done|]. destruct (Hdw _ Hvdw) as [?|[_ ->]]; [|lia].
    destruct (decide (vdw = 7%Z)) as [->|]; [by destruct (H7 eq_refl)|lia].
Qed.

(** * The normal form of an expression *)

Definition ws (s : bytes) : option bytes := find_map (λ w, strip_prefix w s) white_space.

Lemma ws_None s : ws s = None ↔ ∀ p r, p ∈ white_space → s ≠ p ++ r.
Proof.
  unfold ws. rewrite find_map_none. split.
  - intros H p r Hp E. specialize (H p Hp). apply strip_prefix_Some in E. congruence.
  - intros H p Hp. destruct (strip_prefix p s) as [r|] eqn:E; [|done].
    apply strip_prefix_Some in E. by eapply H in E.
Qed.

(** No white space starts inside the word, whatever follows it. *)
Definition clear_of (word rest : bytes) : Prop :=
  ∀ a b, word = a ++ b → b ≠ [] → ws (b ++ rest) = None.
Definition clean (word : bytes) : Prop := word ≠ [] ∧ clear_of word [].

Lemma clear_of_nil word rest : clear_of word rest → clear_of word [].
Proof.
  intros H a b E Hb. apply ws_None. intros p r Hp Er. rewrite app_nil_r in Er.
  specialize (H a b E Hb). rewrite ws_None in H. apply (H p (r ++ rest) Hp). by rewrite Er, app_assoc.
Qed.

Lemma elem_of_flush w word : w ∈ flush word ↔ w = word ∧ word ≠ [].
Proof. unfold flush. case_bool_decide; set_solver. Qed.

Lemma words_clean fuel s word : clear_of word s → Forall clean (words fuel s word).
Proof.
  revert s word. induction fuel as [|fuel IH]; intros s word Hc.
  { cbn. apply Forall_forall. intros w [-> ?]%elem_of_flush. split; [done|by eapply clear_of_nil]. }
  destruct s as [|b s]; cbn [words].
  { apply Forall_forall. intros w [-> ?]%elem_of_flush. done. }
  fold (ws (b :: s)). destruct (ws (b :: s)) as [rest|] eqn:E.
  - apply Forall_app. split.
    + apply Forall_forall. intros w [-> ?]%elem_of_flush. split; [done|by eapply clear_of_nil].
    + apply IH. intros [] ? ?; [by subst|done].
  - apply IH. intros a c Ec Hne. destruct (exists_last Hne) as (c' & x & ->).
    rewrite app_assoc in Ec. apply app_inj_tail in Ec as [-> <-].
    rewrite <-app_assoc. cbn. destruct c' as [|y c']; [done|]. by apply (Hc a (y :: c')).
Qed.

Lemma space_only p : p ∈ white_space → " "%byte ∈ p → p = lit " ".
Proof.
  assert (Forall (λ p, " "%byte ∈ p → p = lit " ") white_space) as H
    by (apply (bool_decide_unpack _); by vm_compute).
  rewrite Forall_forall in H. apply H.
Qed.

Lemma clean_space w rest : clean w → clear_of w (" "%byte :: rest).
Proof.
  intros [_ Hc] a b E Hb. specialize (Hc a b E Hb). rewrite ws_None in Hc |- *.
  intros p r Hp Er. rewrite app_nil_r in Hc. apply app_eq_inv in Er as [(k & -> & Ek)|(k & -> & Ek)].
  - exact (Hc p k Hp eq_refl).
  - destruct k as [|x k]; [apply (Hc (b ++ []) []); [done|by rewrite !app_nil_r]|].
    injection Ek as <- _. assert (b ++ " "%byte :: k = lit " ") as E'.
    { apply space_only; [done|]. apply elem_of_app. right. left. }
    destruct b as [|y b]; [done|]. injection E' as _ E'. by destruct b.
Qed.

Lemma words_run fuel w s word : clear_of w s → length w ≤ fuel →
  words fuel (w ++ s) word = words (fuel - length w) s (word ++ w).
Proof.
  revert fuel word. induction w as [|b w IH]; intros fuel word Hc Hf; cbn [app length].
  { by rewrite app_nil_r, Nat.sub_0_r. }
  destruct fuel as [|fuel]; [cbn in Hf; lia|]. cbn [words]. fold (ws (b :: w ++ s)).
  change (b :: w ++ s) with ((b :: w) ++ s). rewrite (Hc [] (b :: w)) by done.
  rewrite IH; [by rewrite <-app_assoc|intros a c -> ?; by apply (Hc (b :: a) c)|cbn in Hf; lia].
Qed.

Lemma words_flush fuel word : words fuel [] word = flush word.
Proof. by destruct fuel. Qed.

Lemma split_whitespace_join l : Forall clean l → split_whitespace (join_with (lit " ") l) = l.
Proof.
  intros Hl. unfold split_whitespace.
  enough (∀ fuel, length (join_with (lit " ") l) ≤ fuel → words fuel (join_with (lit " ") l) [] = l) by auto.
  induction Hl as [|w l Hw Hl IH]; intros fuel Hf; [by rewrite words_flush|].
  assert (∀ r, flush w ++ r = w :: r) as Hflush.
  { intros r. unfold flush. destruct Hw as [Hw _]. by rewrite bool_decide_eq_false_2. }
  destruct l as [|w' l].
  - cbn [join_with] in *. rewrite <-(app_nil_r w) at 1. destruct Hw as [Hne Hc].
    rewrite words_run by done. rewrite words_flush, app_nil_l. by rewrite <-(app_nil_r (flush w)), Hflush.
  - change (join_with (lit " ") (w :: w' :: l)) with (w ++ " "%byte :: join_with (lit " ") (w' :: l)) in *.
    rewrite length_app in Hf. cbn [length] in Hf.
    rewrite words_run; [|by apply clean_space|lia].
    destruct (fuel - length w) as [|k] eqn:Ek; [lia|].
    change (words (S k) (" "%byte :: ?s) ([] ++ w)) with (flush w ++ words k s []).
    rewrite Hflush, IH by lia. done.
Qed.

Lemma white_space_nonempty p : p ∈ white_space → p ≠ [].
Proof.
  assert (Forall (λ p, p ≠ []) white_space) as H by (apply (bool_decide_unpack _); by vm_compute).
  rewrite Forall_forall in H. apply H.
Qed.

Lemma length_join_words fuel s word : length s ≤ fuel →
  length (join_with (lit " ") (words fuel s word)) ≤ length word + length s.
Proof.
  assert (∀ word r, length (join_with (lit " ") (flush word ++ r)) ≤
    length word + S (length (join_with (lit " ") r))) as Hflush.
  { intros w r. unfold flush. case_bool_decide as Ew; [cbn; lia|]. destruct r as [|x r]; [cbn; lia|].
    change (join_with _ ([w] ++ x :: r)) with (w ++ lit " " ++ join_with (lit " ") (x :: r)).
    rewrite !length_app. cbn [length lit String.list_byte_of_string String.list_ascii_of_string map]. lia. }
  revert s word. induction fuel as [|fuel IH]; intros [|b s] word Hf; cbn [length] in Hf; try lia;
    [rewrite words_flush, <-(app_nil_r (flush word)); specialize (Hflush word []); unfold flush;
     case_bool_decide; cbn; lia..|].
  cbn [words]. fold (ws (b :: s)). destruct (ws (b :: s)) as [rest|] eqn:E.
  - assert (length rest ≤ length s) as Hr.
    { unfold ws in E. apply find_map_Some in E as (p & Hp & Hs). apply strip_prefix_Some in Hs.
      apply white_space_nonempty in Hp.
      apply (f_equal length) in Hs. rewrite length_app in Hs. destruct p; [done|]. cbn in Hs. lia. }
    specialize (Hflush word (words fuel rest [])). specialize (IH rest [] ltac:(lia)). cbn [length] in *. lia.
  - specialize (IH s (word ++ [b]) ltac:(lia)). rewrite length_app in IH. cbn [length] in *. lia.
Qed.

Definition compact (expr : bytes) : bytes := join_with (lit " ") (split_whitespace expr).

Lemma compact_idem expr : compact (compact expr) = compact expr.
Proof.
  unfold compact at 1. unfold compact at 1. rewrite split_whitespace_join; [done|].
  apply words_clean. intros [] ? ?; [by subst|done].
Qed.

Lemma normalize_compact expr : normalize_cron_expr (compact expr) = normalize_cron_expr expr.
Proof.
  unfold normalize_cron_expr. fold (compact (compact expr)) (compact expr). by rewrite compact_idem.
Qed.

Lemma normalize_cron_expr_idem expr n : normalize_cron_expr expr = Ok n →
  normalize_cron_expr n = Ok n ∧ (length n ≤ 9 ∨ length n ≤ length expr).
Proof.
  intros E. pose proof E as E0. unfold normalize_cron_expr in E. revert E. fold (compact expr).
  case_bool_decide; [done|]. bind_ok as m Em. destruct (_ =? 6); [done|]. destruct (_ =? 5); [|done].
  intros [= <-]. revert Em. unfold expand_macro.
  destruct (find_map _ cron_macros) as [e|] eqn:Ef.
  - intros [= <-]. apply find_map_Some in Ef as ([k e'] & Hin & He). case_bool_decide; [|done].
    injection He as ->. revert Hin. clear. intros Hin.
    assert (Forall (λ ke, normalize_cron_expr ke.2 = Ok ke.2 ∧ length ke.2 ≤ 9) cron_macros) as Hall
      by (repeat (constructor; [by vm_compute; split; [reflexivity|lia]|]); constructor).
    rewrite Forall_forall in Hall. destruct (Hall _ Hin). by split; [|left].
  - destruct (starts_with _ _); [done|]. intros [= <-]. split; [by rewrite normalize_compact|right].
    unfold compact, split_whitespace. by apply (length_join_words (length expr) expr []).
Qed.

(** * Calendars *)

(** What the search relies on of the two date crates. *)
Definition day_ns : Z := (86400 * 10 ^ 9)%Z.
Definition minute_ns : Z := (60 * 10 ^ 9)%Z.

Class ChronoLaws `{Chrono} : Prop := {
  add_days_eq : ∀ d k d', add_days d k = Some d' → d' = (d + k)%Z;
  and_hms_eq : ∀ d h m, and_hms d h m =
    if (0 <=? h)%Z && (h <? 24)%Z && (0 <=? m)%Z && (m <? 60)%Z
    then Some (d * 1440 + h * 60 + m)%Z else None;
  add_minute_eq : ∀ n n', add_minute n = Some n' → n' = (n + 1)%Z;
  (** Months have at least 28 days, every month comes around within a year, and the
      days of the week follow each other. *)
  day_next : ∀ d, (day d < 28)%Z → month (d + 1) = month d ∧ day (d + 1) = (day d + 1)%Z;
  month_comes : ∀ d m, (1 ≤ m ≤ 12)%Z →
    ∃ k, (0 ≤ k ≤ 366)%Z ∧ month (d + k) = m ∧ day (d + k) = 1%Z;
  weekday_range : ∀ d, (0 ≤ weekday d < 7)%Z;
  weekday_next : ∀ d, weekday (d + 1) = ((weekday d + 1) `mod` 7)%Z;
  (** Local time is within a day of UTC, and no gap lasts two days. *)
  from_local_near : ∀ tz n t, earliest (from_local tz n) = Some t →
    (n * minute_ns - day_ns ≤ t)%Z;
  local_date_near : ∀ tz t, (t ≤ (local_date tz t + 2) * day_ns)%Z;
  gap_short : ∀ tz n, ∃ j, (0 ≤ j ≤ 2880)%Z ∧ is_Some (earliest (from_local tz (n + j)))
}.

Section calendar_facts.
Context `{Chrono}.

(** C39: a stored schedule means what was written: parsing the normalized expression a
    calendar keeps gives the same calendar. *)
Theorem calendar_reparse (expression timezone : bytes) (c : Calendar) :
  calendar_parse expression timezone = Ok c →
  calendar_parse (cal_expression c) timezone = Ok c.
Proof.
  unfold calendar_parse. destruct (256 <? length expression) eqn:El; [done|].
  apply Nat.ltb_ge in El. bind_ok as n En. bind_ok as tz Etz. bind_ok as cron Ec. intros [= <-].
  cbn [cal_expression]. destruct (normalize_cron_expr_idem _ _ En) as [-> Hlen].
  rewrite (proj2 (Nat.ltb_ge 256 (length n))) by lia. cbn [mbind result_bind].
  rewrite ?Etz. cbn [mbind result_bind]. by rewrite Ec.
Qed.

(** ** The search *)

Lemma fire_at_Some tz after date hour minute t : fire_at tz after date hour minute = Some t ↔
  ∃ nominal, and_hms date hour minute = Some nominal ∧
    resolve_local_nominal tz nominal = Some t ∧ (after < t)%Z.
Proof.
  unfold fire_at. destruct (and_hms date hour minute) as [n|]; cbn; [|naive_solver].
  destruct (resolve_local_nominal tz n) as [c|] eqn:E; cbn; [|naive_solver].
  destruct (Z.ltb_spec after c); naive_solver lia.
Qed.

Lemma fire_within_spec n cron tz after start offset t :
  fire_within n cron tz after start offset = Some t →
  ∃ k date, (offset ≤ k < offset + Z.of_nat n)%Z ∧ add_days start k = Some date ∧
    fire_on cron tz after date = Some t ∧
    ∀ k', (offset ≤ k' < k)%Z →
      ∃ date', add_days start k' = Some date' ∧ fire_on cron tz after date' = None.
Proof.
  revert offset. induction n as [|n IH]; intros offset; cbn [fire_within]; [done|].
  destruct (add_days start offset) as [date|] eqn:Ed; [|done]. cbn [mbind option_bind].
  destruct (fire_on cron tz after date) as [t'|] eqn:Ef.
  - intros [= ->]. exists offset, date. split; [lia|]. do 2 (split; [done|]). lia.
  - intros (k & d & ? & ? & ? & Hbefore)%IH. exists k, d. split; [lia|]. do 2 (split; [done|]).
    intros k' Hk'. destruct (decide (k' = offset)) as [->|]; [by exists date|].
    apply Hbefore. lia.
Qed.

Lemma fire_within_total n cron tz after start offset k :
  (offset ≤ k < offset + Z.of_nat n)%Z →
  (∀ j, (offset ≤ j ≤ k)%Z → is_Some (add_days start j)) →
  (∀ date, add_days start k = Some date → is_Some (fire_on cron tz after date)) →
  is_Some (fire_within n cron tz after start offset).
Proof.
  revert offset. induction n as [|n IH]; intros offset Hk Hj Hf; [lia|]. cbn [fire_within].
  destruct (Hj offset) as [date Hd]; [lia|]. rewrite Hd. cbn [mbind option_bind].
  destruct (fire_on cron tz after date) as [t|] eqn:Ef; [done|].
  destruct (decide (offset = k)) as [->|]; [apply Hf in Hd; by rewrite Ef in Hd|].
  apply IH; [lia| |done]. intros j ?. apply Hj. lia.
Qed.

(** A local time at which the expression fires. *)
Definition scheduled (cron : ParsedCron) (date nominal : Z) : Prop :=
  date_matches cron date = true ∧
  ∃ h m, h ∈ cf_values (pc_hours cron) ∧ m ∈ cf_values (pc_minutes cron) ∧
    and_hms date h m = Some nominal.

Lemma find_map_first {B} (f : Z → option B) l y : bset_wf l → find_map f l = Some y →
  ∃ x, x ∈ l ∧ f x = Some y ∧ ∀ x', x' ∈ l → (x' < x)%Z → f x' = None.
Proof.
  unfold bset_wf. induction 1 as [|x l Hs IH Hx]; cbn; [done|]. rewrite Forall_forall in Hx.
  destruct (f x) as [z|] eqn:E.
  - intros [= ->]. exists x. split; [left|]. split; [done|]. intros x' [->|Hin]%elem_of_cons Hlt; [lia|].
    specialize (Hx x' Hin). unfold cmp, Z_ord in Hx. rewrite Z.compare_lt_iff in Hx. lia.
  - intros (x0 & ? & ? & Hb)%IH. exists x0. split; [by right|]. split; [done|].
    intros x' [->|?]%elem_of_cons ?; auto.
Qed.

Lemma fire_on_first `{!ChronoLaws} cron tz after date t : cron_ok cron →
  fire_on cron tz after date = Some t →
  ∃ n, scheduled cron date n ∧ resolve_local_nominal tz n = Some t ∧ (after < t)%Z ∧
    (date * 1440 ≤ n < (date + 1) * 1440)%Z ∧
    ∀ n' t', scheduled cron date n' → (n' < n)%Z → resolve_local_nominal tz n' = Some t' → (t' ≤ after)%Z.
Proof.
  intros Hok. unfold fire_on. destruct (date_matches cron date) eqn:Ed; [|done].
  intros (h & Hh & E & Hhb)%find_map_first; [|apply Hok].
  apply find_map_first in E as (m & Hm & E & Hmb); [|apply Hok].
  apply fire_at_Some in E as (n & En & Er & Ht). exists n.
  pose proof En as En'. rewrite and_hms_eq in En'. destruct (_ && _) eqn:Eb; [|done]. injection En' as <-.
  rewrite !andb_true_iff, !Z.leb_le, !Z.ltb_lt in Eb.
  split; [split; [done|by exists h, m]|]. do 2 (split; [done|]). split; [lia|].
  intros n' t' (_ & h' & m' & Hh' & Hm' & En') Hlt Er'. apply Z.nlt_ge. intros Hafter.
  assert (is_Some (fire_at tz after date h' m')) as [t'' Hf]
    by (exists t'; apply fire_at_Some; by exists n').
  rewrite and_hms_eq in En'. destruct (_ && _) eqn:Eb'; [|done]. injection En' as <-.
  rewrite !andb_true_iff, !Z.leb_le, !Z.ltb_lt in Eb'.
  destruct (decide (h' = h)) as [->|]; [rewrite Hmb in Hf; [done..|lia]|].
  assert (h' < h)%Z as Hlt' by lia. specialize (Hhb h' Hh' Hlt'). rewrite find_map_none in Hhb.
  by rewrite Hhb in Hf.
Qed.

Lemma scheduled_date `{!ChronoLaws} cron date n : scheduled cron date n →
  (date * 1440 ≤ n < (date + 1) * 1440)%Z.
Proof.
  intros (_ & h & m & _ & _ & En). rewrite and_hms_eq in En. destruct (_ && _) eqn:Eb; [|done].
  injection En as <-. rewrite !andb_true_iff, !Z.leb_le, !Z.ltb_lt in Eb. lia.
Qed.

Lemma fire_on_none cron tz after date n t : fire_on cron tz after date = None →
  scheduled cron date n → resolve_local_nominal tz n = Some t → (t ≤ after)%Z.
Proof.
  unfold fire_on. intros E (Hd & h & m & Hh & Hm & En) Er. rewrite Hd in E.
  rewrite find_map_none in E. specialize (E h Hh). rewrite find_map_none in E.
  specialize (E m Hm). apply Z.nlt_ge. intros Hlt.
  assert (fire_at tz after date h m = Some t) by (apply fire_at_Some; by exists n). congruence.
Qed.

(** ** Every calendar fires *)

(** The dates and local times a search from [start] looks at are in chrono's range. *)
Definition in_range (start : Z) : Prop :=
  (∀ k, (0 ≤ k ≤ 400)%Z → is_Some (add_days start k)) ∧
  (∀ n, (start * 1440 ≤ n ≤ (start + 410) * 1440)%Z → is_Some (add_minute n)).

Lemma days_of_month `{!ChronoLaws} d i : day d = 1%Z → (0 ≤ i < 28)%Z →
  month (d + i) = month d ∧ day (d + i) = (1 + i)%Z.
Proof.
  intros Hd [Hi Hlt]. revert i Hi Hlt. refine (natlike_ind _ _ _).
  - intros _. by rewrite Z.add_0_r.
  - intros i Hi IH Hlt. destruct IH as [Hm Hday]; [lia|].
    destruct (day_next (d + i)) as [Hm' Hday']; [lia|].
    replace (d + Z.succ i)%Z with (d + i + 1)%Z by lia. split; [congruence|lia].
Qed.

Lemma weekday_comes `{!ChronoLaws} d w : (0 ≤ w < 7)%Z → ∃ i, (0 ≤ i < 7)%Z ∧ weekday (d + i) = w.
Proof.
  intros Hw. pose proof (weekday_range d) as Hr.
  assert (∀ i, (0 ≤ i)%Z → weekday (d + i) = ((weekday d + i) `mod` 7)%Z) as Hi.
  { refine (natlike_ind _ _ _); [rewrite !Z.add_0_r; by rewrite Z.mod_small|].
    intros i ? IH. replace (d + Z.succ i)%Z with (d + i + 1)%Z by lia.
    rewrite weekday_next, IH, Z.add_mod_idemp_l by lia. f_equal. lia. }
  exists ((w - weekday d) `mod` 7)%Z. split; [by apply Z.mod_pos_bound|].
  rewrite Hi by (by apply Z.mod_pos_bound). rewrite Z.add_mod_idemp_r by lia.
  replace (weekday d + (w - weekday d))%Z with w by lia. by apply Z.mod_small.
Qed.

(** Some day of the year after [d] is one of the expression's. *)
Lemma date_comes `{!ChronoLaws} cron d : cron_ok cron →
  ∃ k, (0 ≤ k ≤ 393)%Z ∧ date_matches cron (d + k) = true.
Proof.
  intros Hok. destruct (co_month _ Hok) as (m & Hm & Hmr).
  destruct (month_comes d m Hmr) as (k & Hk & Hkm & Hk1).
  destruct (co_day _ Hok) as (v & Hv & Hvr). destruct (co_weekday _ Hok) as (w & Hw & Hwr).
  assert (∀ i, (0 ≤ i < 28)%Z → field_matches (pc_months cron) (month (d + k + i)) = true) as Hmonth.
  { intros i Hi. destruct (days_of_month (d + k) i Hk1 Hi) as [-> _].
    apply bool_decide_eq_true. by rewrite Hkm. }
  destruct (cf_wildcard (pc_days_of_month cron)) eqn:Ewm, (cf_wildcard (pc_days_of_week cron)) eqn:Eww.
  1: exists (k + 0)%Z. 2, 4: destruct (weekday_comes (d + k) w Hwr) as (i & Hi & Hiw); exists (k + i)%Z.
  4: exists (k + (v - 1))%Z.
  all: (split; [lia|]); rewrite Z.add_assoc; unfold date_matches; rewrite Hmonth by lia; cbn [negb];
    rewrite Ewm, Eww.
  - done.
  - apply bool_decide_eq_true. by rewrite Hiw.
  - apply orb_true_iff. right. apply bool_decide_eq_true. by rewrite Hiw.
  - apply bool_decide_eq_true. destruct (days_of_month (d + k) (v - 1) Hk1) as [_ ->]; [lia|].
    by replace (1 + (v - 1))%Z with v by lia.
Qed.

Lemma probe_gap_total `{!ChronoLaws} tz fuel n j : (1 ≤ j ≤ Z.of_nat fuel)%Z →
  is_Some (earliest (from_local tz (n + j))) →
  (∀ i, (0 ≤ i < j)%Z → is_Some (add_minute (n + i))) →
  ∃ t i, probe_gap fuel tz n = Some t ∧ (0 ≤ i)%Z ∧ earliest (from_local tz (n + i)) = Some t.
Proof.
  revert n j. induction fuel as [|fuel IH]; intros n j Hj Hs Ha; [lia|]. cbn [probe_gap].
  destruct (Ha 0%Z) as [n' Hn']; [lia|]. rewrite Z.add_0_r in Hn'. rewrite Hn'.
  apply add_minute_eq in Hn' as ->. cbn [mbind option_bind].
  destruct (earliest (from_local tz (n + 1))) as [t|] eqn:E.
  - exists t, 1%Z. split; [done|]. split; [lia|done].
  - destruct (decide (j = 1%Z)) as [->|]; [rewrite E in Hs; by destruct Hs|].
    destruct (IH (n + 1)%Z (j - 1)%Z) as (t & i & Ht & Hi & Ei); [lia| | |].
    + by replace (n + 1 + (j - 1))%Z with (n + j)%Z by lia.
    + intros i ?. replace (n + 1 + i)%Z with (n + (1 + i))%Z by lia. apply Ha. lia.
    + exists t, (1 + i)%Z. split; [done|]. split; [lia|]. by rewrite Z.add_assoc.
Qed.

(** A local time resolves, to no earlier than a day before it. *)
Lemma resolve_total `{!ChronoLaws} tz n : (∀ i, (0 ≤ i < 2880)%Z → is_Some (add_minute (n + i))) →
  ∃ t, resolve_local_nominal tz n = Some t ∧ (n * minute_ns - day_ns ≤ t)%Z.
Proof.
  intros Ha. unfold resolve_local_nominal. destruct (earliest (from_local tz n)) as [t|] eqn:E.
  - exists t. split; [done|]. by apply (from_local_near tz).
  - destruct (gap_short tz n) as (j & Hj & Hs).
    destruct (decide (j = 0%Z)) as [->|]; [rewrite Z.add_0_r, E in Hs; by destruct Hs|].
    destruct (probe_gap_total tz (48 * 60) n j) as (t & i & Ht & Hi & Ei); [lia|done| |].
    + intros i ?. apply Ha. lia.
    + exists t. split; [done|]. apply from_local_near in Ei. unfold minute_ns in *. lia.
Qed.

Lemma fire_on_total `{!ChronoLaws} cron tz after date : cron_ok cron →
  date_matches cron date = true → (after < (date - 1) * day_ns)%Z →
  (∀ n, (date * 1440 ≤ n ≤ (date + 3) * 1440)%Z → is_Some (add_minute n)) →
  is_Some (fire_on cron tz after date).
Proof.
  intros Hok Hdate Hafter Ha. unfold fire_on. rewrite Hdate.
  destruct (co_hours _ Hok) as (_ & h & Hh & Hhr). destruct (co_minutes _ Hok) as (_ & m & Hm & Hmr).
  destruct (resolve_total tz (date * 1440 + h * 60 + m)) as (t & Ht & Hnear);
    [intros i ?; apply Ha; lia|].
  assert (is_Some (fire_at tz after date h m)) as Hf.
  { exists t. apply fire_at_Some. exists (date * 1440 + h * 60 + m)%Z. rewrite and_hms_eq.
    rewrite (proj2 (Z.leb_le _ _)), (proj2 (Z.ltb_lt h _)), (proj2 (Z.leb_le _ _)), (proj2 (Z.ltb_lt m _)) by lia.
    split; [done|]. split; [done|]. unfold minute_ns, day_ns in *. lia. }
  apply not_eq_None_Some. rewrite find_map_none. intros Hnone. specialize (Hnone h Hh).
  rewrite find_map_none in Hnone. rewrite (Hnone m Hm) in Hf. by destruct Hf.
Qed.

(** Every calendar that parses keeps firing: from any instant on there is a next
    fire, however the fields restrict the days and whatever gaps the time zone has. *)
Theorem calendar_always_fires `{!ChronoLaws} (expression timezone : bytes) (c : Calendar) (after : Z) :
  calendar_parse expression timezone = Ok c → in_range (local_date (cal_timezone c) after) →
  ∃ t, calendar_next_after c after = Ok t ∧ (after < t)%Z.
Proof.
  unfold calendar_parse. destruct (256 <? length expression); [done|].
  bind_ok as n En. bind_ok as tz Etz. bind_ok as cron Ec. intros [= <-] [Hdays Hmin].
  unfold calendar_next_after, first_cron_fire_after. cbn [cal_cron cal_timezone] in *.
  apply parse_cron_expr_ok in Ec. set (start := local_date tz after) in *.
  pose proof (local_date_near tz after) as Hnear. fold start in Hnear.
  destruct (date_comes cron (start + 5) Ec) as (k & Hk & Hmatch).
  destruct (fire_within_total HORIZON cron tz after start 0 (5 + k)) as [t Ht].
  - unfold HORIZON. lia.
  - intros j ?. apply Hdays. lia.
  - intros date ->%add_days_eq. rewrite Z.add_assoc. apply fire_on_total; [done..| |].
    + unfold day_ns in *. lia.
    + intros m ?. apply Hmin. lia.
  - exists t. rewrite Ht. split; [done|].
    apply fire_within_spec in Ht as (? & date & _ & _ & Hf & _). by apply fire_on_first in Hf as (? & _ & _ & ? & _).
Qed.

(** C38: the next fire is the first one: it is a scheduled local time of a day of the
    search that resolves to an instant after [after], and every scheduled local time
    before it, from the day of [after] on, resolves to an instant not after [after]. *)
Theorem calendar_next_is_first `{!ChronoLaws} (expression timezone : bytes) (c : Calendar) (after t : Z) :
  calendar_parse expression timezone = Ok c → calendar_next_after c after = Ok t →
  let start := local_date (cal_timezone c) after in
  (after < t)%Z ∧
  ∃ date n, (start ≤ date < start + Z.of_nat HORIZON)%Z ∧ scheduled (cal_cron c) date n ∧
    resolve_local_nominal (cal_timezone c) n = Some t ∧
    ∀ date' n' t', (start ≤ date')%Z → scheduled (cal_cron c) date' n' → (n' < n)%Z →
      resolve_local_nominal (cal_timezone c) n' = Some t' → (t' ≤ after)%Z.
Proof.
  unfold calendar_parse. destruct (256 <? length expression); [done|].
  bind_ok as n En. bind_ok as tz Etz. bind_ok as cron Ec. intros [= <-].
  unfold calendar_next_after, first_cron_fire_after. cbn [cal_cron cal_timezone].
  apply parse_cron_expr_ok in Ec. set (start := local_date tz after).
  destruct (fire_within _ _ _ _ _ _) as [t'|] eqn:E; [|done]. intros [= ->].
  apply fire_within_spec in E as (k & date & Hk & Hd & Hf & Hbefore).
  apply fire_on_first in Hf as (nom & Hs & Hr & Hlt & Hnom & Hfirst); [|done].
  split; [done|]. exists date, nom. pose proof (add_days_eq _ _ _ Hd) as ->. split; [lia|].
  do 2 (split; [done|]). intros date' n' t' Hd' Hs' Hlt' Hr'.
  destruct (decide (date' = start + k)%Z) as [->|]; [by apply (Hfirst n' t')|].
  pose proof (scheduled_date _ _ _ Hs').
  destruct (Hbefore (date' - start)%Z) as (d' & Hadd & Hnone); [lia|].
  apply add_days_eq in Hadd as ->. replace (start + (date' - start))%Z with date' in Hnone by lia.
  by eapply fire_on_none.
Qed.

(** ** Intervals *)

Lemma checked_Ok z z' : checked z = Ok z' ↔ z' = z ∧ i64 z.
Proof.
  unfold checked, i64. destruct (Z.leb_spec i64_min z), (Z.leb_spec z i64_max); cbn;
    split; [intros [= ->]|intros [-> _]|..]; naive_solver lia.
Qed.

(** The instant the points of an interval schedule are counted from. *)
Definition anchored (anchor : IntervalAnchor) (activated_at : Z) : Z :=
  match anchor with Epoch => 0 | Deploy => activated_at end.

(** The point after [after] is the only one within an interval of it. *)
Lemma point_unique i a after n : (0 < i)%Z →
  n = (a + ((after - a) / i + 1) * i)%Z ↔
  (after < n ≤ after + i)%Z ∧ (i | n - a)%Z.
Proof.
  intros Hi. pose proof (Z.div_mod (after - a) i) as Hdm.
  pose proof (Z.mod_pos_bound (after - a) i Hi) as Hb. split.
  - intros ->. split; [lia|]. exists ((after - a) / i + 1)%Z. lia.
  - intros [Hn [q Hq]]. assert (q = (after - a) / i + 1)%Z as ->; [|lia].
    assert (q - 1 = (after - a) / i)%Z; [|lia].
    apply (Z.div_unique_pos _ _ _ (after - a - (q - 1) * i)); lia.
Qed.

(** An interval schedule answers a point after [after] exactly when the point is the
    first multiple of the interval past the anchor that is after [after], and the
    distances to the anchor and the point itself fit [i64] and chrono's range; every
    other case is an error, never a wrapped or saturated instant. *)
Theorem interval_next_exact (interval_ms after activated_at next : Z) (anchor : IntervalAnchor) :
  let a := anchored anchor activated_at in
  next_after (Interval interval_ms anchor) after activated_at = Ok next ↔
  (0 < interval_ms)%Z ∧ (after < next ≤ after + interval_ms)%Z ∧ (interval_ms | next - a)%Z ∧
  i64 (after - a) ∧ i64 (next - a) ∧ i64 next ∧ is_Some (from_timestamp_millis next).
Proof.
  intros a. cbn [next_after]. fold (anchored anchor activated_at). fold a.
  destruct (Z.leb_spec interval_ms 0) as [?|Hi]; [naive_solver lia|].
  split.
  - bind_ok as e Ee. apply checked_Ok in Ee as [-> He]. bind_ok as p Ep.
    apply checked_Ok in Ep as [-> Hp]. bind_ok as sp Es. apply checked_Ok in Es as [-> Hs].
    bind_ok as nx En. apply checked_Ok in En as [-> Hn]. bind_ok as u Eu. intros [= <-].
    destruct (proj1 (point_unique interval_ms a after _ Hi) eq_refl) as [? ?].
    do 4 (split; [done|]). split; [by replace (_ - a)%Z with (((after - a) / interval_ms + 1) * interval_ms)%Z by lia|].
    split; [done|]. by destruct (from_timestamp_millis _).
  - intros (_ & Hr & Hdiv & He & Hs & Hn & [ts Hts]).
    pose proof (proj2 (point_unique interval_ms a after next Hi) (conj Hr Hdiv)) as Hnext.
    rewrite (proj2 (checked_Ok _ _) (conj eq_refl He)). cbn [mbind result_bind].
    replace (next - a)%Z with (((after - a) / interval_ms + 1) * interval_ms)%Z in Hs by lia.
    assert (i64 ((after - a) / interval_ms + 1)) as Hp by (unfold i64, i64_min, i64_max in *; nia).
    rewrite (proj2 (checked_Ok _ _) (conj eq_refl Hp)). cbn [mbind result_bind].
    rewrite (proj2 (checked_Ok _ _) (conj eq_refl Hs)). cbn [mbind result_bind].
    rewrite <- Hnext, (proj2 (checked_Ok _ _) (conj eq_refl Hn)). cbn [mbind result_bind].
    by rewrite Hts.
Qed.
End calendar_facts.

(** * The laws hold of some calendar *)

(** Twelve months of 28 days, every zone UTC, the instants counted from the first day. *)
#[local] Instance plain_chrono : Chrono := {|
  Tz := unit;
  parse_tz := λ _, Some tt;
  add_days := λ d k, Some (d + k)%Z;
  month := λ d, ((d / 28) `mod` 12 + 1)%Z;
  day := λ d, (d `mod` 28 + 1)%Z;
  weekday := λ d, (d `mod` 7)%Z;
  and_hms := λ d h m, if (0 <=? h)%Z && (h <? 24)%Z && (0 <=? m)%Z && (m <? 60)%Z
    then Some (d * 1440 + h * 60 + m)%Z else None;
  add_minute := λ n, Some (n + 1)%Z;
  local_date := λ _ t, (t / day_ns)%Z;
  from_local := λ _ n, LSingle (n * minute_ns)%Z;
  from_timestamp_millis := λ t, Some (t * 10 ^ 6)%Z;
  timestamp_millis := λ t, (t / 10 ^ 6)%Z
|}.

#[local] Instance plain_chrono_laws : ChronoLaws.
Proof.
  split; cbn.
  - by intros ? ? ? [= ->].
  - done.
  - by intros ? ? [= ->].
  - intros d ?. assert ((d + 1) / 28 = d / 28 ∧ (d + 1) `mod` 28 = d `mod` 28 + 1)%Z as [-> ->]; [|lia].
    pose proof (Z.div_mod d 28). pose proof (Z.mod_pos_bound d 28). 
    split; [symmetry; apply (Z.div_unique_pos _ _ _ (d `mod` 28 + 1))|symmetry; apply (Z.mod_unique_pos _ _ (d / 28))]; lia.
  - intros d m Hm. pose proof (Z.div_mod (d + 27) 28). pose proof (Z.mod_pos_bound (d + 27) 28).
    set (b := ((d + 27) / 28)%Z) in *. set (j := ((m - 1 - b) `mod` 12)%Z).
    assert (0 ≤ j < 12)%Z by (by apply Z.mod_pos_bound).
    exists ((b + j) * 28 - d)%Z. split; [lia|]. replace (d + _)%Z with ((b + j) * 28)%Z by lia.
    rewrite Z.div_mul, Z.mod_mul by lia. split; [|done]. unfold j. rewrite Z.add_mod_idemp_r by lia.
    rewrite Z.mod_small; lia.
  - intros d. by apply Z.mod_pos_bound.
  - intros d. by rewrite Z.add_mod_idemp_l.
  - intros _ n t [= <-]. unfold day_ns. lia.
  - intros _ t. pose proof (Z.div_mod t day_ns). pose proof (Z.mod_pos_bound t day_ns).
    unfold day_ns in *. lia.
  - intros _ n. exists 0%Z. split; [lia|done].
Qed.

(** Nine o'clock on working days. *)
Definition weekdays_at_nine : bytes := lit "0 9 * * 1-5".

Definition nine : Calendar :=
  mk_calendar weekdays_at_nine tt
    (default (mk_cron (mk_field [] true) (mk_field [] true) (mk_field [] true) (mk_field [] true)
      (mk_field [] true)) (result_ok (parse_cron_expr weekdays_at_nine))).

Lemma nine_parses : calendar_parse weekdays_at_nine (lit "UTC") = Ok nine.
Proof.
  unfold calendar_parse, nine.
  assert (normalize_cron_expr weekdays_at_nine = Ok weekdays_at_nine) as -> by by vm_compute.
  assert (∃ c, parse_cron_expr weekdays_at_nine = Ok c) as [c Ec] by (by eexists; vm_compute).
  cbn [mbind result_bind ok_or parse_tz plain_chrono]. rewrite Ec. reflexivity.
Qed.

Lemma calendar_reparse_witness : calendar_parse (cal_expression nine) (lit "UTC") = Ok nine.
Proof. apply (calendar_reparse weekdays_at_nine), nine_parses. Defined.

Lemma calendar_always_fires_witness : ∃ t, calendar_next_after nine 0 = Ok t ∧ (0 < t)%Z.
Proof.
  apply (calendar_always_fires weekdays_at_nine (lit "UTC")); [apply nine_parses|].
  split; intros; cbn; by eexists.
Defined.

(** From Friday at nine the next fire is on Monday. *)
Lemma calendar_next_is_first_witness :
  calendar_next_after nine (5 * day_ns + 9 * 60 * minute_ns) = Ok (8 * day_ns + 9 * 60 * minute_ns)%Z ∧
  ∃ date n, scheduled (cal_cron nine) date n ∧
    resolve_local_nominal (cal_timezone nine) n = Some (8 * day_ns + 9 * 60 * minute_ns)%Z.
Proof.
  assert (calendar_next_after nine (5 * day_ns + 9 * 60 * minute_ns) =
    Ok (8 * day_ns + 9 * 60 * minute_ns)%Z) as Hn by by vm_compute.
  split; [exact Hn|].
  destruct (calendar_next_is_first weekdays_at_nine (lit "UTC") nine _ _ nine_parses Hn)
    as (_ & date & n & _ & Hs & Hr & _).
  exists date, n. split; [exact Hs|exact Hr].
Defined.

Lemma cron_field_meaning_witness :
  let parts := [mk_part (Range 1 5) (Some 2%Z); mk_part (One 7) None] in
  ∃ values, parse_cron_field (print_field parts) (lit "day-of-week") 0 7 None =
    Ok (mk_field values false) ∧ bset_wf values ∧
    ∀ v, v ∈ values ↔ ∃ p w, p ∈ parts ∧ part_denotes p 0 7 w ∧ v = fold_weekday (lit "day-of-week") w.
Proof.
  apply (cron_field_meaning [mk_part (Range 1 5) (Some 2%Z); mk_part (One 7) None]
    (lit "day-of-week") 0 7 None); [done..|].
  apply Forall_cons. split; [|apply Forall_singleton];
    (split; [cbn; lia|]); (split; [cbn; lia|]); split; [..|split]; cbn; try done;
    intros s [= <-]; unfold u32_max; lia.
Defined.
