(* ===== verification/Json.v ===== *)
(** JSON values as serde_json holds them ([preserve_order]: an object is a sequence of
    entries in insertion order), with the accessors the workflow crates use. *)

From S2P Require Export RustStd.

(** [serde_json::Number]: an integer, or a float by its bits. *)
Inductive Number := NInt (z : Z) | NFloat (bits : Z).

Inductive Value :=
  | Null
  | Bool (b : bool)
  | Num (n : Number)
  | Str (s : bytes)
  | Array (l : list Value)
  | Object (entries : list (bytes * Value)).

(** [Map::get], the entry of a key. *)
Fixpoint map_get (key : bytes) (entries : list (bytes * Value)) : option Value :=
  match entries with
  | [] => None
  | (k, v) :: rest => if bool_decide (k = key) then Some v else map_get key rest
  end.

(** [Map::insert]: a known key keeps its place. *)
Fixpoint map_insert (key : bytes) (value : Value) (entries : list (bytes * Value)) :
    list (bytes * Value) :=
  match entries with
  | [] => [(key, value)]
  | (k, v) :: rest =>
      if bool_decide (k = key) then (k, value) :: rest else (k, v) :: map_insert key value rest
  end.

(** [Value::get] of a string key. *)
Definition value_get (key : bytes) (v : Value) : option Value :=
  match v with Object entries => map_get key entries | _ => None end.

Definition as_bool (v : Value) : option bool := match v with Bool b => Some b | _ => None end.
Definition is_null (v : Value) : bool := match v with Null => true | _ => false end.

(** ** Lemmas *)

Lemma map_get_insert_eq key value entries : map_get key (map_insert key value entries) = Some value.
Proof.
  induction entries as [|[k v] entries IH]; cbn; [by rewrite bool_decide_true|].
  destruct (bool_decide (k = key)) eqn:E; cbn; by rewrite E.
Qed.

Lemma map_get_insert_ne key key' value entries : key ≠ key' →
  map_get key (map_insert key' value entries) = map_get key entries.
Proof.
  intros Hne. induction entries as [|[k v] entries IH]; cbn; [by rewrite bool_decide_false|].
  case_bool_decide as E; cbn.
  - rewrite bool_decide_false by congruence. done.
  - by rewrite IH.
Qed.
