(* ===== verification/Workflow.v ===== *)
(** The durable-workflow engine: the outcomes an executor reports, the fold of a batch of
    them into journal checkpoints and the run's next state, and the lifecycle types and
    admission checks the coordinator and the workers share
    ([zeroship-workflow/src/engine.rs], [lifecycle.rs], [validation.rs] and
    [zeroship-core/src/workflow_coordination/lifecycle.rs]). Instants are numbers of
    nanoseconds, as in [Calendar]. *)

From S2P Require Export Json.

#[global] Arguments lit : simpl never.

(** * Lifecycle states *)

Inductive RunState :=
  | SQueued | SRunning | SSleeping | SWaiting | SPaused | SStalled | SCompensating
  | SCompleted | SFailed | SCancelled | SContinuedAsNew.
#[global] Instance run_state_eq_dec : EqDecision RunState.
Proof. solve_decision. Defined.

Definition run_states : list RunState :=
  [SQueued; SRunning; SSleeping; SWaiting; SPaused; SStalled; SCompensating; SCompleted;
   SFailed; SCancelled; SContinuedAsNew].

Definition run_state_position (s : RunState) : nat :=
  match s with
  | SQueued => 0
  | SRunning => 1
  | SSleeping => 2
  | SWaiting => 3
  | SPaused => 4
  | SStalled => 5
  | SCompensating => 6
  | SCompleted => 7
  | SFailed => 8
  | SCancelled => 9
  | SContinuedAsNew => 10
  end.

Definition is_terminal (s : RunState) : bool :=
  match s with
  | SCompleted | SFailed | SCancelled | SStalled | SContinuedAsNew => true
  | _ => false
  end.

Definition run_state_as_str (s : RunState) : bytes :=
  match s with
  | SQueued => lit "queued"
  | SRunning => lit "running"
  | SSleeping => lit "sleeping"
  | SWaiting => lit "waiting"
  | SPaused => lit "paused"
  | SStalled => lit "stalled"
  | SCompensating => lit "compensating"
  | SCompleted => lit "completed"
  | SFailed => lit "failed"
  | SCancelled => lit "cancelled"
  | SContinuedAsNew => lit "continuedAsNew"
  end.

(** The states a run rests in, as the journal stores them. *)
Definition terminal_strs : list bytes :=
  [run_state_as_str SCompleted; run_state_as_str SFailed; run_state_as_str SCancelled;
   run_state_as_str SStalled; run_state_as_str SContinuedAsNew].

Definition run_state_from_str (value : bytes) : result bytes RunState :=
  if bool_decide (value = lit "queued") then Ok SQueued
  else if bool_decide (value = lit "running") then Ok SRunning
  else if bool_decide (value = lit "sleeping") then Ok SSleeping
  else if bool_decide (value = lit "waiting") then Ok SWaiting
  else if bool_decide (value = lit "paused") then Ok SPaused
  else if bool_decide (value = lit "stalled") then Ok SStalled
  else if bool_decide (value = lit "compensating") then Ok SCompensating
  else if bool_decide (value = lit "completed") then Ok SCompleted
  else if bool_decide (value = lit "failed") then Ok SFailed
  else if bool_decide (value = lit "cancelled") then Ok SCancelled
  else if bool_decide (value = lit "continuedAsNew") then Ok SContinuedAsNew
  else Err (lit "unknown workflow state: " ++ value).

(** * Errors of the service *)

(** What is wrong with a batch of outcomes, the fold's messages. *)
Inductive FoldError :=
  | EntriesAfterTrailing
  | NotTrailing
  | BadStepKind (step_kind : bytes)
  | HalfFailedStep
  | InlineChildInput.

(** The errors a journal operation reports; [InvalidBatch] is an [InvalidRequest] with
    the message of the fold. *)
Inductive WorkflowServiceError :=
  | InvalidRequest (message : String.string)
  | PermissionDenied
  | NotFound (message : String.string)
  | Conflict (message : String.string)
  | ResourceExhausted (message : String.string)
  | PayloadTooLarge
  | Unavailable (message : String.string)
  | Internal (message : String.string)
  | InvalidBatch (problem : FoldError).

Notation wresult := (result WorkflowServiceError).

(** * Restarts *)

Inductive RestartDeploy := RStarted | RLatest.
#[global] Instance restart_deploy_eq_dec : EqDecision RestartDeploy.
Proof. solve_decision. Defined.

Record RestartTarget := mk_target { rt_name : bytes; rt_occurrence : option Z }.
Record RestartOptions := mk_restart { ro_from : option RestartTarget; ro_deploy : option RestartDeploy }.

Inductive InvalidRestart := EmptyTargetName | TargetOccurrenceOutOfRange | PartialLatest.

Definition i32_max : Z := (2 ^ 31 - 1)%Z.
Definition i32_min : Z := (- 2 ^ 31)%Z.

Definition effective_deploy (o : RestartOptions) : result InvalidRestart RestartDeploy :=
  match ro_from o with
  | Some target =>
      if bool_decide (rt_name target = []) then Err EmptyTargetName
      else if match rt_occurrence target with Some v => (i32_max <? v)%Z | None => false end
      then Err TargetOccurrenceOutOfRange
      else if bool_decide (ro_deploy o = Some RLatest) then Err PartialLatest
      else Ok RStarted
  | None => Ok (default RLatest (ro_deploy o))
  end.

Record RestartSafety := mk_safety {
  live_lease : bool;
  active_descendants : bool;
  active_compensation : bool;
  compensated_prefix : bool
}.

Definition restart_check (s : RestartSafety) : wresult unit :=
  if live_lease s then Err (Conflict "cannot restart while an execution lease is live")
  else if active_descendants s then Err (Conflict "cannot restart while descendant workflows are active")
  else if active_compensation s then Err (Conflict "cannot restart while compensation is active")
  else if compensated_prefix s then
    Err (Conflict "cannot retain a compensated prefix; use a full restart")
  else Ok tt.

(** * Starts *)

Record WorkflowOutputRef := mk_ref { or_hash : bytes; or_size : Z; or_content_type : option bytes }.
#[global] Instance output_ref_eq_dec : EqDecision WorkflowOutputRef.
Proof. solve_decision. Defined.

Inductive ConflictPolicy := Join | Reject | Replace.

Record StartOptions := mk_start {
  so_input_ref : option WorkflowOutputRef;
  so_key : option bytes;
  so_on_conflict : ConflictPolicy
}.
Record CreatorStartOptions := mk_creator_start {
  cs_key : option bytes;
  cs_on_conflict : ConflictPolicy
}.

Inductive InvalidStart := SuppliedInputRef.

Definition with_input (o : CreatorStartOptions) (input_ref : option WorkflowOutputRef) : StartOptions :=
  mk_start input_ref (cs_key o) (cs_on_conflict o).

Definition creator_subset (o : StartOptions) : result InvalidStart CreatorStartOptions :=
  if bool_decide (is_Some (so_input_ref o)) then Err SuppliedInputRef
  else Ok (mk_creator_start (so_key o) (so_on_conflict o)).

(** * Names *)

Definition WORKFLOW_NAME_MAX_BYTES : nat := 128.
Definition WORKFLOW_KEY_MAX_BYTES : nat := 1024.
Definition SIGNAL_TYPE_MAX_BYTES : nat := 256.
Definition STEP_NAME_MAX_BYTES : nat := 256.

(** The message names the value and its bound. *)
Definition bounded_nonempty (value : bytes) (max : nat) (name : String.string) : wresult unit :=
  if bool_decide (value = []) || (max <? length value) then Err (InvalidRequest name) else Ok tt.

Definition validate_step_name (name : bytes) : wresult unit :=
  bounded_nonempty name STEP_NAME_MAX_BYTES "workflow step name".

Definition validate_workflow_name (name : bytes) : wresult unit :=
  _ ← bounded_nonempty name WORKFLOW_NAME_MAX_BYTES "workflow name";
  if starts_with name (lit "__zs.") then Err (InvalidRequest "workflow name uses a reserved prefix")
  else Ok tt.

Definition validate_key (key : option bytes) : wresult unit :=
  match key with
  | Some key => bounded_nonempty key WORKFLOW_KEY_MAX_BYTES "workflow key"
  | None => Ok tt
  end.

Definition validate_start (options : StartOptions) : wresult unit := validate_key (so_key options).

Definition validate_signal_type (signal_type : bytes) : wresult unit :=
  _ ← bounded_nonempty signal_type SIGNAL_TYPE_MAX_BYTES "signal type";
  if starts_with signal_type (lit "__zs.") then Err PermissionDenied else Ok tt.

(** * Checkpoints and outcomes *)

Record ChildWorkflowOptions := mk_child_options {
  co_key : option bytes;
  co_cascade : bool;
  co_timeout : option Z
}.

Record StepCheckpoint := mk_step {
  st_ordinal : Z;
  st_name : bytes;
  st_name_occurrence : Z;
  st_kind : bytes;
  st_state : bytes;
  st_output : option Value;
  st_output_ref : option WorkflowOutputRef;
  st_error : option Value;
  st_wake_at : option Z;
  st_signal_type : option bytes;
  st_max_signal_age_ms : option Z;
  st_consumed_signal_id : option bytes;
  st_topic : option bytes;
  st_child_run_id : option bytes;
  st_child_workflow_name : option bytes;
  st_child_input_ref : option WorkflowOutputRef;
  st_child_options : option ChildWorkflowOptions;
  st_compensation_state : option bytes;
  st_compensation_max_attempts : Z;
  st_attempts : Z;
  st_max_attempts : Z
}.

Inductive StepOutcome :=
  | StepCompleted (ordinal : Z) (name : bytes) (name_occurrence : Z) (step_kind : bytes)
      (compensable : bool) (compensation_max_attempts : Z) (output : option Value)
      (output_ref : option WorkflowOutputRef)
  | StepFailed (ordinal : Z) (name : bytes) (name_occurrence : Z) (error : Value) (max_attempts : Z)
  | RunCompleted (output : option Value) (output_ref : option WorkflowOutputRef)
  | ContinueAsNew (input : option Value) (input_ref : option WorkflowOutputRef)
  | RunFailed (ordinal : option Z) (name : option bytes) (name_occurrence : Z) (error : Value)
      (max_attempts : Z)
  | Sleep (ordinal : Z) (name : bytes) (name_occurrence : Z) (wake_at : Z)
  | Wait (ordinal : Z) (name : bytes) (name_occurrence : Z) (wake_at timeout : option Z)
      (signal_type : option bytes) (max_signal_age_ms : option Z)
      (consumed_signal_id topic : option bytes)
  | Child (ordinal : Z) (name : bytes) (name_occurrence : Z) (child_workflow_name : bytes)
      (input : option Value) (input_ref : option WorkflowOutputRef) (options : ChildWorkflowOptions)
  | CompensationCompleted (ordinal : Z) (name : bytes) (name_occurrence : Z)
  | CompensationFailed (ordinal : Z) (name : bytes) (name_occurrence : Z) (error : Value).

Inductive RunUpdate :=
  | Queued
  | Sleeping (wake_at : option Z)
  | Waiting (wake_at : option Z)
  | Completed (output : option Value) (output_ref : option WorkflowOutputRef)
  | ContinuedAsNew (seed_input : option Value) (seed_input_ref : option WorkflowOutputRef)
  | Failed (error : Value)
  | Stalled (error : Value)
  | Cancelled.

Definition update_state (u : RunUpdate) : bytes :=
  match u with
  | Queued => lit "queued"
  | Sleeping _ => lit "sleeping"
  | Waiting _ => lit "waiting"
  | Completed _ _ => lit "completed"
  | ContinuedAsNew _ _ => lit "continuedAsNew"
  | Failed _ => lit "failed"
  | Stalled _ => lit "stalled"
  | Cancelled => lit "cancelled"
  end.

Definition update_error (u : RunUpdate) : option Value :=
  match u with Failed e | Stalled e => Some e | _ => None end.

(** [format!] of an [i32]. *)
Definition show (z : Z) : bytes := i64_to_string z.

Definition waiting_step_key (u : RunUpdate) (checkpoints : list StepCheckpoint) : option bytes :=
  let running s := bool_decide (st_state s = lit "running") in
  match u with
  | Sleeping _ =>
      s ← List.find (λ s, bool_decide (st_kind s = lit "sleep") && running s) checkpoints;
      Some (lit "sleep:" ++ show (st_ordinal s) ++ lit ":" ++ st_name s)
  | Waiting _ =>
      s ← List.find (λ s, (bool_decide (st_kind s = lit "wait_signal") ||
                           bool_decide (st_kind s = lit "child")) && running s) checkpoints;
      Some (if bool_decide (st_kind s = lit "child") then
              lit "child:" ++ show (st_ordinal s) ++ lit ":" ++ st_name s
            else
              lit "wait:" ++ show (st_ordinal s) ++ lit ":" ++ st_name s ++ lit ":" ++
              default (st_name s) (st_signal_type s) ++
              match st_max_signal_age_ms s with Some age => lit ":" ++ show age | None => [] end)
  | _ => None
  end.

Definition child_signal_type (ordinal : Z) : bytes := lit "__zs.child:" ++ show ordinal.
Definition child_dedup_key (parent_run_id : bytes) (ordinal : Z) : bytes :=
  lit "child:" ++ parent_run_id ++ lit ":" ++ show ordinal.

(** ** The checkpoint of each outcome *)

Definition completed_checkpoint (ordinal : Z) (name : bytes) (name_occurrence : Z) (step_kind : bytes)
    (compensable : bool) (compensation_max_attempts : Z) (output : option Value)
    (output_ref : option WorkflowOutputRef) : StepCheckpoint :=
  mk_step ordinal name name_occurrence step_kind (lit "completed") output output_ref None None None
    None None None None None None None
    (if compensable && bool_decide (step_kind = lit "run") then Some (lit "pending") else None)
    (Z.max compensation_max_attempts 1) 0 1.

(** The same row for a failed step and for a failed run that names its step. *)
Definition failed_checkpoint (ordinal : Z) (name : bytes) (name_occurrence : Z) (error : Value)
    (max_attempts : Z) : StepCheckpoint :=
  mk_step ordinal name name_occurrence (lit "run") (lit "failed") None None (Some error) None None
    None None None None None None None None 1 0 (Z.max max_attempts 1).

Definition sleep_checkpoint (ordinal : Z) (name : bytes) (name_occurrence : Z) (wake_at : Z) :
    StepCheckpoint :=
  mk_step ordinal name name_occurrence (lit "sleep") (lit "running") None None None (Some wake_at)
    None None None None None None None None None 1 0 1.

Definition wait_checkpoint (ordinal : Z) (name : bytes) (name_occurrence : Z) (wake_at : option Z)
    (signal_type : option bytes) (max_signal_age_ms : option Z)
    (consumed_signal_id topic : option bytes) : StepCheckpoint :=
  mk_step ordinal name name_occurrence (lit "wait_signal") (lit "running") None None None wake_at
    (Some (default name signal_type)) max_signal_age_ms consumed_signal_id topic None None None None
    None 1 0 1.

Definition child_checkpoint (ordinal : Z) (name : bytes) (name_occurrence : Z)
    (child_workflow_name : bytes) (input_ref : option WorkflowOutputRef)
    (options : ChildWorkflowOptions) : StepCheckpoint :=
  mk_step ordinal name name_occurrence (lit "child") (lit "running") None None None
    (co_timeout options) (Some (child_signal_type ordinal)) None None None None
    (Some child_workflow_name) input_ref (Some options) None 1 0 1.

(** ** The fold *)

Record Fold := mk_fold {
  f_checkpoints : list StepCheckpoint;
  f_update : RunUpdate;
  f_trailing_seen : bool;
  f_saw_step_failure : bool
}.

Definition is_step_checkpoint (o : StepOutcome) : bool :=
  match o with
  | StepCompleted _ _ _ _ _ _ _ _ | StepFailed _ _ _ _ _ | Child _ _ _ _ _ _ _ => true
  | RunFailed (Some _) (Some _) _ _ _ => true
  | _ => false
  end.

(** A checkpoint appended, and the update unless a step of the batch failed. *)
Definition fold_push (f : Fold) (step : StepCheckpoint) : Fold :=
  mk_fold (f_checkpoints f ++ [step]) (f_update f) (f_trailing_seen f) (f_saw_step_failure f).
Definition fold_update (f : Fold) (u : RunUpdate) : Fold :=
  mk_fold (f_checkpoints f) u (f_trailing_seen f) (f_saw_step_failure f).
Definition fold_suspend (f : Fold) (u : RunUpdate) : Fold :=
  if f_saw_step_failure f then f else fold_update f u.
Definition fold_failure (f : Fold) (step : StepCheckpoint) : Fold :=
  mk_fold (f_checkpoints f ++ [step]) Queued (f_trailing_seen f) true.

Definition fold_one (f : Fold) (o : StepOutcome) : result FoldError Fold :=
  match o with
  | StepCompleted ordinal name occurrence step_kind compensable max_attempts output output_ref =>
      if negb (bool_decide (step_kind = lit "run") || bool_decide (step_kind = lit "sideEffect"))
      then Err (BadStepKind step_kind)
      else Ok (fold_push f (completed_checkpoint ordinal name occurrence step_kind compensable
                              max_attempts output output_ref))
  | StepFailed ordinal name occurrence error max_attempts =>
      Ok (fold_failure f (failed_checkpoint ordinal name occurrence error max_attempts))
  | RunCompleted output output_ref => Ok (fold_update f (Completed output output_ref))
  | ContinueAsNew input input_ref => Ok (fold_update f (ContinuedAsNew input input_ref))
  | RunFailed (Some ordinal) (Some name) occurrence error max_attempts =>
      Ok (fold_failure f (failed_checkpoint ordinal name occurrence error max_attempts))
  | RunFailed None None _ error _ => Ok (fold_update f (Failed error))
  | RunFailed _ _ _ _ _ => Err HalfFailedStep
  | Sleep ordinal name occurrence wake_at =>
      Ok (fold_suspend (fold_push f (sleep_checkpoint ordinal name occurrence wake_at))
            (Sleeping (Some wake_at)))
  | Wait ordinal name occurrence wake_at timeout signal_type age consumed topic =>
      let wake_at := match wake_at with Some w => Some w | None => timeout end in
      Ok (fold_suspend (fold_push f (wait_checkpoint ordinal name occurrence wake_at signal_type age
                                       consumed topic)) (Waiting wake_at))
  | Child ordinal name occurrence child_workflow_name input input_ref options =>
      if bool_decide (is_Some input) then Err InlineChildInput
      else Ok (fold_suspend (fold_push f (child_checkpoint ordinal name occurrence
                               child_workflow_name input_ref options)) (Waiting (co_timeout options)))
  | CompensationCompleted _ _ _ | CompensationFailed _ _ _ _ => Ok f
  end.

(** The loop over the outcomes, with the position of each. *)
Fixpoint fold_loop (len idx : nat) (f : Fold) (outcomes : list StepOutcome) : result FoldError Fold :=
  match outcomes with
  | [] => Ok f
  | o :: rest =>
      if f_trailing_seen f then Err EntriesAfterTrailing
      else
        f ← (if is_step_checkpoint o then Ok f
             else if negb (idx + 1 =? len) then Err NotTrailing
             else Ok (mk_fold (f_checkpoints f) (f_update f) true (f_saw_step_failure f)));
        f ← fold_one f o;
        fold_loop len (S idx) f rest
  end.

Definition fold_outcomes (outcomes : list StepOutcome) :
    result FoldError (list StepCheckpoint * RunUpdate) :=
  f ← fold_loop (length outcomes) 0 (mk_fold [] Queued false false) outcomes;
  Ok (f_checkpoints f, if f_saw_step_failure f then Queued else f_update f).

(** ** Compensation results *)

Record CompensationApplyOutcome := mk_apply {
  ca_ordinal : Z;
  ca_name : bytes;
  ca_name_occurrence : Z;
  ca_state : bytes;
  ca_error : option Value
}.

Definition compensation_of (o : StepOutcome) : option CompensationApplyOutcome :=
  match o with
  | CompensationCompleted ordinal name occurrence =>
      Some (mk_apply ordinal name occurrence (lit "completed") None)
  | CompensationFailed ordinal name occurrence error =>
      Some (mk_apply ordinal name occurrence (lit "failed") (Some error))
  | _ => None
  end.

Inductive MixedCompensation := Mixed.

Definition compensation_outcomes_from_step_outcomes (outcomes : list StepOutcome) :
    result MixedCompensation (list CompensationApplyOutcome) :=
  let compensation := omap compensation_of outcomes in
  if negb (bool_decide (compensation = [])) && negb (length compensation =? length outcomes)
  then Err Mixed else Ok compensation.

(** ** Errors the engine reports itself *)

Definition compensable_carry_error : Value :=
  Object [(lit "type", Str (lit "CompensableCarryError"));
          (lit "message", Str (lit "cannot continue as new while compensable steps are pending"))].

Definition stalled_error (dispatches limit : Z) : Value :=
  Object [(lit "type", Str (lit "StalledError"));
          (lit "message",
           Str (lit "workflow made no durable progress before the liveness dispatch limit"));
          (lit "stuckDispatches", Num (NInt dispatches));
          (lit "maxStuckDispatches", Num (NInt limit))].
