(* ===== verification/WorkflowFacts.v ===== *)
(** What the fold of a batch of outcomes computes, and what the lifecycle types and the
    admission checks promise. *)

From S2P Require Export Workflow.

(** * The fold, against a description of a batch *)

(** The outcomes the fold refuses wherever they stand. *)
Definition outcome_ok (o : StepOutcome) : bool :=
  match o with
  | StepCompleted _ _ _ step_kind _ _ _ _ =>
      bool_decide (step_kind = lit "run") || bool_decide (step_kind = lit "sideEffect")
  | RunFailed (Some _) None _ _ _ | RunFailed None (Some _) _ _ _ => false
  | Child _ _ _ _ input _ _ => negb (bool_decide (is_Some input))
  | _ => true
  end.

(** Only the last outcome of a batch suspends or ends the run. *)
Definition batch_ok (outcomes : list StepOutcome) : bool :=
  forallb outcome_ok outcomes && forallb is_step_checkpoint (removelast outcomes).

Definition checkpoint_of (o : StepOutcome) : option StepCheckpoint :=
  match o with
  | StepCompleted ordinal name occurrence step_kind compensable max_attempts output output_ref =>
      Some (completed_checkpoint ordinal name occurrence step_kind compensable max_attempts output
              output_ref)
  | StepFailed ordinal name occurrence error max_attempts
  | RunFailed (Some ordinal) (Some name) occurrence error max_attempts =>
      Some (failed_checkpoint ordinal name occurrence error max_attempts)
  | Sleep ordinal name occurrence wake_at => Some (sleep_checkpoint ordinal name occurrence wake_at)
  | Wait ordinal name occurrence wake_at timeout signal_type age consumed topic =>
      Some (wait_checkpoint ordinal name occurrence (match wake_at with Some w => Some w | None => timeout end)
              signal_type age consumed topic)
  | Child ordinal name occurrence child_workflow_name _ input_ref options =>
      Some (child_checkpoint ordinal name occurrence child_workflow_name input_ref options)
  | _ => None
  end.

Definition step_failure (o : StepOutcome) : bool :=
  match o with
  | StepFailed _ _ _ _ _ | RunFailed (Some _) (Some _) _ _ _ => true
  | _ => false
  end.

(** What an outcome asks of the run. *)
Definition update_of (o : StepOutcome) : option RunUpdate :=
  match o with
  | RunCompleted output output_ref => Some (Completed output output_ref)
  | ContinueAsNew input input_ref => Some (ContinuedAsNew input input_ref)
  | RunFailed None None _ error _ => Some (Failed error)
  | Sleep _ _ _ wake_at => Some (Sleeping (Some wake_at))
  | Wait _ _ _ wake_at timeout _ _ _ _ =>
      Some (Waiting (match wake_at with Some w => Some w | None => timeout end))
  | Child _ _ _ _ _ _ options => Some (Waiting (co_timeout options))
  | _ => None
  end.

(** A failed step sends the run back to the queue; otherwise the last request stands. *)
Definition batch_update (outcomes : list StepOutcome) : RunUpdate :=
  if existsb step_failure outcomes then Queued else default Queued (last (omap update_of outcomes)).

Definition fold_end (f : Fold) : list StepCheckpoint * RunUpdate :=
  (f_checkpoints f, if f_saw_step_failure f then Queued else f_update f).

Lemma fold_one_spec f o :
  match fold_one f o with
  | Ok f' => outcome_ok o = true ∧
      f_checkpoints f' = f_checkpoints f ++ option_list (checkpoint_of o) ∧
      f_trailing_seen f' = f_trailing_seen f ∧
      f_saw_step_failure f' = f_saw_step_failure f || step_failure o ∧
      (if f_saw_step_failure f' then Queued else f_update f') =
      (if f_saw_step_failure f' then Queued else default (f_update f) (update_of o))
  | Err _ => outcome_ok o = false
  end.
Proof.
  destruct o as [? ? ? kind| | | |[?|] [?|] | | |? ? ? ? [?|] ? ?| |]; cbn;
    unfold fold_suspend, fold_push, fold_update, fold_failure; cbn;
    [destruct (bool_decide (kind = lit "run") || bool_decide (kind = lit "sideEffect")); cbn|..];
    destruct (f_saw_step_failure f); cbn; rewrite ?app_nil_r; try done.
Qed.

Lemma batch_ok_cons o outcomes : batch_ok (o :: outcomes) =
  outcome_ok o && (bool_decide (outcomes = []) || is_step_checkpoint o) && batch_ok outcomes.
Proof.
  unfold batch_ok. destruct outcomes as [|o' outcomes]; cbn [removelast forallb];
    [by rewrite !andb_true_r|].
  rewrite bool_decide_false by done. cbn [orb].
  destruct (outcome_ok o), (is_step_checkpoint o), (outcome_ok o' && forallb outcome_ok outcomes);
    cbn; by rewrite ?andb_false_r.
Qed.

Lemma last_omap_cons {A B} (f : A → option B) (d : B) x l :
  default d (last (omap f (x :: l))) = default (default d (f x)) (last (omap f l)).
Proof.
  change (omap f (x :: l)) with (match f x with Some y => y :: omap f l | None => omap f l end).
  destruct (f x) as [y|]; [|done]. destruct (omap f l) as [|z k] eqn:E; [done|].
  rewrite last_cons. by destruct (last (z :: k)).
Qed.

(** The guard on the position of an outcome. *)
Lemma fold_guard_spec len idx f o (outcomes : list StepOutcome) : idx + S (length outcomes) = len →
  match (if is_step_checkpoint o then Ok f else if negb (idx + 1 =? len) then Err NotTrailing
         else Ok (mk_fold (f_checkpoints f) (f_update f) true (f_saw_step_failure f))) with
  | Ok f1 => bool_decide (outcomes = []) || is_step_checkpoint o = true ∧
      f_checkpoints f1 = f_checkpoints f ∧ f_update f1 = f_update f ∧
      f_saw_step_failure f1 = f_saw_step_failure f ∧
      (f_trailing_seen f = false → f_trailing_seen f1 = false ∨ outcomes = [])
  | Err _ => bool_decide (outcomes = []) || is_step_checkpoint o = false
  end.
Proof.
  intros Hlen. destruct (is_step_checkpoint o); [rewrite orb_true_r; naive_solver|].
  rewrite orb_false_r. destruct (Nat.eqb_spec (idx + 1) len); cbn.
  - assert (outcomes = []) as -> by (apply nil_length_inv; lia). naive_solver.
  - apply bool_decide_eq_false. intros ->. cbn in Hlen. lia.
Qed.

Lemma fold_loop_spec len outcomes : ∀ idx f,
  idx + length outcomes = len → f_trailing_seen f = false →
  match fold_loop len idx f outcomes with
  | Ok f' => batch_ok outcomes = true ∧
      f_checkpoints f' = f_checkpoints f ++ omap checkpoint_of outcomes ∧
      f_saw_step_failure f' = f_saw_step_failure f || existsb step_failure outcomes ∧
      (f_saw_step_failure f' = false →
        f_update f' = default (f_update f) (last (omap update_of outcomes)))
  | Err _ => batch_ok outcomes = false
  end.
Proof.
  induction outcomes as [|o outcomes IH]; intros idx f Hlen Htr; cbn [fold_loop].
  { cbn. by rewrite app_nil_r, orb_false_r. }
  rewrite Htr, batch_ok_cons. cbn [length] in Hlen. pose proof (fold_guard_spec len idx f o outcomes Hlen) as Hg.
  destruct (if is_step_checkpoint o then _ else _) as [f1|e]; cbn [mbind result_bind];
    [|by rewrite Hg, andb_false_r].
  destruct Hg as (-> & Hc & Hu & Hs & Ht). specialize (Ht Htr).
  pose proof (fold_one_spec f1 o) as Hone.
  destruct (fold_one f1 o) as [f2|e]; cbn [mbind result_bind]; [|by rewrite Hone].
  destruct Hone as (-> & Hc2 & Ht2 & Hs2 & Hu2). cbn [andb].
  assert (∀ f', f_saw_step_failure f' = f_saw_step_failure f2 || existsb step_failure outcomes →
    f_saw_step_failure f' = f_saw_step_failure f || existsb step_failure (o :: outcomes)) as Hsaw.
  { intros f' ->. by rewrite Hs2, Hs, <- orb_assoc. }
  assert (f_saw_step_failure f2 = false → f_update f2 = default (f_update f) (update_of o)) as Hupd.
  { intros E. rewrite E in Hu2. by rewrite <- Hu. }
  assert (f_checkpoints f2 ++ omap checkpoint_of outcomes =
    f_checkpoints f ++ omap checkpoint_of (o :: outcomes)) as Hcp.
  { rewrite Hc2, Hc, <- app_assoc. f_equal. cbn. by destruct (checkpoint_of o). }
  destruct Ht as [Ht| ->].
  - specialize (IH (S idx) f2). destruct (fold_loop len (S idx) f2 outcomes) as [f'|e];
      [|apply IH; [lia|congruence]].
    destruct IH as (-> & Hc' & Hs' & Hu'); [lia|congruence|].
    split; [done|]. split; [congruence|]. split; [by apply Hsaw|]. intros E.
    rewrite Hu' by done. rewrite last_omap_cons, Hupd; [done|]. rewrite Hs' in E. by destruct (f_saw_step_failure f2).
  - cbn [fold_loop]. split; [done|]. split; [by rewrite <- Hcp, app_nil_r|]. split; [by apply Hsaw; rewrite orb_false_r|].
    intros E. by rewrite last_omap_cons, Hupd.
Qed.

Lemma fold_outcomes_spec outcomes :
  match fold_outcomes outcomes with
  | Ok r => batch_ok outcomes = true ∧ r = (omap checkpoint_of outcomes, batch_update outcomes)
  | Err _ => batch_ok outcomes = false
  end.
Proof.
  pose proof (fold_loop_spec (length outcomes) outcomes 0 (mk_fold [] Queued false false) eq_refl eq_refl) as H.
  unfold fold_outcomes. destruct (fold_loop _ _ _ _) as [f|e]; cbn [mbind result_bind] in *; [|done].
  destruct H as (-> & Hc & Hs & Hu). cbn in *. unfold batch_update. rewrite <- Hs, Hc.
  destruct (f_saw_step_failure f); [done|]. by rewrite Hu.
Qed.

(** Folding a batch of outcomes accepts it exactly when every outcome is well formed
    and only the last one suspends or ends the run, records the checkpoints of the
    outcomes in order, and moves the run as the last request of the batch says unless a
    step of the batch failed, which queues it again. *)
Theorem fold_outcomes_exact (outcomes : list StepOutcome) :
  (∀ r, fold_outcomes outcomes = Ok r ↔
    batch_ok outcomes = true ∧ r = (omap checkpoint_of outcomes, batch_update outcomes)) ∧
  ((∃ e, fold_outcomes outcomes = Err e) ↔ batch_ok outcomes = false).
Proof.
  pose proof (fold_outcomes_spec outcomes) as H.
  destruct (fold_outcomes outcomes) as [r|e]; [destruct H as [H ->]|]; rewrite H;
    (split; [intros r'|]; naive_solver congruence).
Qed.

(** ** A suspended run names what it waits for *)

Lemma fold_outcomes_Ok outcomes cps u : fold_outcomes outcomes = Ok (cps, u) →
  cps = omap checkpoint_of outcomes ∧ u = batch_update outcomes.
Proof. intros H. pose proof (fold_outcomes_spec outcomes) as Hs. rewrite H in Hs. by destruct Hs as [_ [= -> ->]]. Qed.

Lemma last_elem {A} (l : list A) x : last l = Some x → x ∈ l.
Proof. rewrite last_Some. intros [l' ->]. apply elem_of_app. right. by left. Qed.

(** A request to sleep or wait comes with a running checkpoint of its kind. *)
Lemma update_of_suspends o u : update_of o = Some u →
  match u with
  | Sleeping _ => ∃ s, checkpoint_of o = Some s ∧ st_kind s = lit "sleep" ∧ st_state s = lit "running"
  | Waiting _ => ∃ s, checkpoint_of o = Some s ∧
      (st_kind s = lit "wait_signal" ∨ st_kind s = lit "child") ∧ st_state s = lit "running"
  | _ => True
  end.
Proof.
  destruct o as [| | | |[?|] [?|] | | | | |]; cbn; intros [= <-]; cbn; eexists; repeat split; cbn; auto.
Qed.

Lemma find_is_Some {A} (p : A → bool) l x : x ∈ l → p x = true → is_Some (List.find p l).
Proof.
  intros Hx Hp. destruct (List.find p l) eqn:E; [done|].
  apply list_elem_of_In in Hx.
  by rewrite (List.find_none _ _ E x Hx) in Hp.
Qed.

(** A run that the fold suspends always names the step it is suspended on. *)
Theorem suspended_names_step (outcomes : list StepOutcome) (checkpoints : list StepCheckpoint)
    (u : RunUpdate) (wake_at : option Z) :
  fold_outcomes outcomes = Ok (checkpoints, u) → u = Sleeping wake_at ∨ u = Waiting wake_at →
  is_Some (waiting_step_key u checkpoints).
Proof.
  intros [-> ->]%fold_outcomes_Ok Hu. unfold batch_update in *.
  destruct (existsb step_failure outcomes); [naive_solver|].
  destruct (last (omap update_of outcomes)) as [u|] eqn:E; cbn in Hu |- *; [|naive_solver].
  apply last_elem, list_elem_of_omap in E as (o & Ho & Eo). apply update_of_suspends in Eo.
  destruct Hu as [-> | ->]; destruct Eo as (s & Hs & Hk & Hst);
    assert (s ∈ omap checkpoint_of outcomes) as Hin by (apply list_elem_of_omap; by exists o);
    unfold waiting_step_key; eapply find_is_Some in Hin.
  - destruct Hin as [s' Hs']. rewrite Hs'. by eexists.
  - cbn. by rewrite Hk, Hst, !bool_decide_true.
  - destruct Hin as [s' Hs']. rewrite Hs'. by eexists.
  - cbn. rewrite Hst, (bool_decide_true (lit "running" = _)) by done.
    destruct Hk as [-> | ->]; by vm_compute.
Qed.

Lemma suspended_names_step_witness :
  let batch := [StepCompleted 0 (lit "charge") 0 (lit "run") true 3 None None;
                Wait 1 (lit "paid") 0 None (Some 60%Z) None None None None] in
  is_Some (waiting_step_key (Waiting (Some 60%Z)) (omap checkpoint_of batch)).
Proof.
  apply (suspended_names_step [StepCompleted 0 (lit "charge") 0 (lit "run") true 3 None None;
    Wait 1 (lit "paid") 0 None (Some 60%Z) None None None None] _ _ (Some 60%Z)); [by vm_compute|by right].
Defined.

(** * Lifecycle states *)

(** Every run state round-trips through its stored form, which no other string has;
    its position names its slot in the list of all states, which is complete; and the
    states queried as terminal are exactly those the code treats as such. *)
Theorem run_state_codec (s : RunState) (v : bytes) :
  (run_state_from_str v = Ok s ↔ v = run_state_as_str s) ∧
  run_states !! run_state_position s = Some s ∧
  (run_state_as_str s ∈ terminal_strs ↔ is_terminal s = true).
Proof.
  split; [|split].
  - unfold run_state_from_str. split; [|intros ->; by destruct s].
    repeat (case_bool_decide as E; [intros [= <-]; exact E|clear E]). done.
  - by destruct s.
  - assert (bool_decide (run_state_as_str s ∈ terminal_strs) = is_terminal s) as <-
      by (destruct s; by vm_compute).
    by rewrite bool_decide_eq_true.
Qed.

(** * Reserved signal types *)

Definition i32 (z : Z) : Prop := (i32_min ≤ z ≤ i32_max)%Z.

Lemma show_inj x y : i32 x → i32 y → show x = show y → x = y.
Proof.
  unfold i32, i32_min, i32_max, show. intros Hx Hy E.
  assert (Some x = Some y) as [= ->]; [|done].
  rewrite <- (parse_i64_print x), <- (parse_i64_print y), E by (unfold i64_min, i64_max; lia). done.
Qed.

(** The signal a child's completion is joined on cannot be sent from outside, and no
    two ordinals of a run share one: the type is refused to creators, so every type they
    may send differs from it. *)
Theorem child_signal_reserved (ordinal ordinal' : Z) (t : bytes) : i32 ordinal → i32 ordinal' →
  validate_signal_type (child_signal_type ordinal) = Err PermissionDenied ∧
  (validate_signal_type t = Ok tt → t ≠ child_signal_type ordinal) ∧
  (child_signal_type ordinal = child_signal_type ordinal' → ordinal = ordinal').
Proof.
  intros Ho Ho'.
  assert (validate_signal_type (child_signal_type ordinal) = Err PermissionDenied) as Hden.
  { unfold validate_signal_type, bounded_nonempty. rewrite bool_decide_false by done.
    assert (length (child_signal_type ordinal) ≤ 256) as Hlen.
    { unfold child_signal_type, show. rewrite length_app. pose proof (length_i64_to_string ordinal).
      change (length (lit "__zs.child:")) with 11. lia. }
    rewrite (proj2 (Nat.ltb_ge _ _)) by done. cbn [orb mbind result_bind].
    assert (starts_with (child_signal_type ordinal) (lit "__zs.") = true) as ->; [|done].
    apply starts_with_spec. by exists (lit "child:" ++ show ordinal). }
  split; [done|]. split; [congruence|]. unfold child_signal_type. intros E%app_inv_head. by apply show_inj.
Qed.

Lemma child_signal_reserved_witness :
  validate_signal_type (child_signal_type 7) = Err PermissionDenied ∧
  (validate_signal_type (lit "paid") = Ok tt → lit "paid" ≠ child_signal_type 7) ∧
  (child_signal_type 7 = child_signal_type 8 → 7%Z = 8%Z).
Proof. apply child_signal_reserved; unfold i32, i32_min, i32_max; lia. Defined.
