(* ===== verification/Journal.v ===== *)
(** The journal of one workflow run: the app's workflow policy
    ([zeroship-core/src/workflow_policy.rs]), the append of a folded batch and the
    resolution of durable waits ([zeroship-workflow/src/service/journal.rs]). A run's
    rows in the step, wait and signal tables are the record [Journal]; an operation that
    fails leaves the transaction, so it returns the journal only on success. The tables
    other components own are read through the record [World]. *)

From S2P Require Export Workflow Calendar.

(** * The app's policy *)

Definition SIGNAL_CAPABILITY_MAX_LIFETIME_SECONDS : Z := 604800.
Definition MAX_INPUT_BYTES_CEILING : Z := 1024 * 1024.
Definition MAX_JOURNAL_BYTES_CEILING : Z := 16 * 1024 * 1024.
Definition MAX_PAYLOAD_BYTES_CEILING : Z := 64 * 1024 * 1024.
Definition MAX_CHILD_OUTPUT_BYTES_CEILING : Z := 8 * 1024 * 1024.

Record AppPolicy := mk_policy {
  admission : bool;
  dispatch : bool;
  ingress : bool;
  max_live_runs : Z;
  max_child_depth : Z;
  max_running : Z;
  max_input_bytes : Z;
  max_frontier : Z;
  max_journal_bytes : Z;
  max_child_output_bytes : Z;
  max_payload_bytes : Z;
  max_payload_objects : Z;
  max_payload_storage_bytes : Z;
  payload_staging_retention_ms : Z;
  max_step_attempts : Z;
  retry_delay_ms : Z;
  max_delivery_attempts : Z;
  max_stuck_dispatches : Z;
  max_schedules : Z;
  max_schedule_backfill : Z;
  min_schedule_interval_ms : Z;
  max_signal_token_lifetime_seconds : Z;
  lease_ms : Z
}.

Definition default_policy : AppPolicy :=
  mk_policy true true true 10000 16 16 (1024 * 1024) 256 (16 * 1024 * 1024)
    MAX_CHILD_OUTPUT_BYTES_CEILING (64 * 1024 * 1024) 100000 (1024 * 1024 * 1024) 86400000 8 1000 8 4
    64 32 1000 86400 60000.

Inductive InvalidPolicy := BadPolicy.

Definition policy_validate (p : AppPolicy) : result InvalidPolicy unit :=
  if (max_live_runs p <? 0)%Z || (max_child_depth p <? 0)%Z || (max_running p <? 0)%Z
     || (max_input_bytes p =? 0)%Z || (MAX_INPUT_BYTES_CEILING <? max_input_bytes p)%Z
     || (max_frontier p =? 0)%Z
     || (max_journal_bytes p =? 0)%Z || (MAX_JOURNAL_BYTES_CEILING <? max_journal_bytes p)%Z
     || (max_child_output_bytes p =? 0)%Z
     || (MAX_CHILD_OUTPUT_BYTES_CEILING <? max_child_output_bytes p)%Z
     || (max_payload_bytes p <=? 0)%Z || (MAX_PAYLOAD_BYTES_CEILING <? max_payload_bytes p)%Z
     || (max_payload_objects p <=? 0)%Z || (max_payload_storage_bytes p <? max_payload_bytes p)%Z
     || (payload_staging_retention_ms p <=? 0)%Z || (max_step_attempts p <=? 0)%Z
     || (retry_delay_ms p <=? 0)%Z || (max_delivery_attempts p <=? 0)%Z
     || (max_stuck_dispatches p <=? 0)%Z || (max_delivery_attempts p <=? max_stuck_dispatches p)%Z
     || (max_schedule_backfill p =? 0)%Z || (min_schedule_interval_ms p <=? 0)%Z
     || (max_signal_token_lifetime_seconds p <=? 0)%Z
     || (SIGNAL_CAPABILITY_MAX_LIFETIME_SECONDS <? max_signal_token_lifetime_seconds p)%Z
     || (lease_ms p <=? 0)%Z
  then Err BadPolicy else Ok tt.

(** [policy::admit], whose own name is reserved. *)
Definition policy_admit (p : AppPolicy) : wresult unit :=
  if negb (admission p) then Err PermissionDenied else Ok tt.

(** * The rows of a run *)

(** A row of the step table: the checkpoint and what its compensator has spent. *)
Record StepRow := mk_step_row {
  row_step : StepCheckpoint;
  row_compensation_attempts : Z;
  row_compensation_retry_ms : Z;
  row_compensation_due_at : option Z;
  row_compensation_error : option Value
}.

(** A message of the run's mailbox. *)
Record Signal := mk_signal {
  sg_id : bytes;
  sg_type : bytes;
  sg_payload : Value;
  sg_created_at : Z;
  sg_sequence : Z;
  sg_origin : bytes;
  sg_delivery : bytes;
  sg_topic : option bytes;
  sg_target : option (Z * Z);
  sg_consumed : option (Z * Z)
}.

(** A row of the wait table. *)
Record WaitRow := mk_wait { wt_ordinal : Z; wt_kind : bytes; wt_signal_type : option bytes }.

(** The journal of a run's current generation: its step rows by ordinal, its wait rows,
    the mailbox and the journal revision. *)
Record Journal := mk_journal {
  j_rows : list StepRow;
  j_waits : list WaitRow;
  j_signals : list Signal;
  j_revision : Z
}.

Definition j_steps (j : Journal) : list StepCheckpoint := map row_step (j_rows j).

(** The child a checkpoint waits on, as [continuations::resolve] reports it. *)
Record ChildView := mk_child_view {
  cv_state : RunState;
  cv_run_id : bytes;
  cv_output_ref : option WorkflowOutputRef;
  cv_error : option Value
}.

(** What the tables of other components answer within the transaction. *)
Record World := mk_world {
  w_fenced : bool;                                        (* propagation::fenced *)
  w_step_len : StepCheckpoint → Z;                        (* the encoded length of a step *)
  w_batch_len : list StepOutcome → Z;                     (* and of an execution *)
  w_promote : option Z → WorkflowOutputRef → wresult unit;  (* payloads::promote *)
  w_accept_child : StepCheckpoint → wresult bytes;        (* journal::child *)
  w_subscribe : StepCheckpoint → wresult unit;            (* signals::subscribe *)
  w_child : Z → wresult ChildView;                        (* continuations::resolve *)
  w_inherit : Z → wresult WorkflowOutputRef;              (* payloads::inherit_child_output *)
  w_sequence : Z → wresult unit;                          (* signals::validate_sequence *)
  w_successor : wresult bytes;                            (* the run a continuation inserts *)
  w_current : bool;                                       (* continuations::member, is_current *)
  w_available : bool;                                     (* the pinned deployment is available *)
  w_running : Z;                                          (* live leases of the app *)
  w_task_id : bytes;                                      (* typed_id::new_workflow_dispatch_id *)
  w_invocation : wresult unit;                            (* frontier::invocation *)
  w_admissible : wresult unit;                            (* admissible_for_commit *)
  w_digest : list StepOutcome → bytes;                    (* the digest of an execution *)
  w_commit_at : Z;                                        (* the clock read again before a commit *)
  w_live_runs : Z;                                        (* live_runs *)
  w_descendants : wresult bool;                           (* has_active_descendants *)
  w_child_waits : wresult bool;                           (* has_active_children *)
  w_bind : RestartDeploy → wresult (option String.string) (* the deployment a restart binds, or why not *)
}.

Definition usize_max : Z := (2 ^ 64 - 1)%Z.

Definition invalid {A} (message : String.string) : wresult A := Err (InvalidRequest message).

Definition deadline (now duration : Z) : wresult Z :=
  if (i64_min <=? now + duration)%Z && (now + duration <=? i64_max)%Z then Ok (now + duration)%Z
  else invalid "workflow deadline is out of range".

(** ** Updated checkpoints *)

Definition with_state (state : bytes) (wake_at : option Z) (attempts : Z) (s : StepCheckpoint) :
    StepCheckpoint :=
  mk_step (st_ordinal s) (st_name s) (st_name_occurrence s) (st_kind s) state (st_output s)
    (st_output_ref s) (st_error s) wake_at (st_signal_type s) (st_max_signal_age_ms s)
    (st_consumed_signal_id s) (st_topic s) (st_child_run_id s) (st_child_workflow_name s)
    (st_child_input_ref s) (st_child_options s) (st_compensation_state s)
    (st_compensation_max_attempts s) attempts (st_max_attempts s).

Definition with_child (run_id : bytes) (s : StepCheckpoint) : StepCheckpoint :=
  mk_step (st_ordinal s) (st_name s) (st_name_occurrence s) (st_kind s) (st_state s) (st_output s)
    (st_output_ref s) (st_error s) (st_wake_at s) (st_signal_type s) (st_max_signal_age_ms s)
    (st_consumed_signal_id s) (st_topic s) (Some run_id) (st_child_workflow_name s)
    (st_child_input_ref s) (st_child_options s) (st_compensation_state s)
    (st_compensation_max_attempts s) (st_attempts s) (st_max_attempts s).

Definition with_result (output : option Value) (output_ref : option WorkflowOutputRef)
    (error : option Value) (signal child : option bytes) (s : StepCheckpoint) : StepCheckpoint :=
  mk_step (st_ordinal s) (st_name s) (st_name_occurrence s) (st_kind s)
    (if bool_decide (is_Some error) then lit "failed" else lit "completed") output output_ref error
    (st_wake_at s) (st_signal_type s) (st_max_signal_age_ms s) signal (st_topic s) child
    (st_child_workflow_name s) (st_child_input_ref s) (st_child_options s)
    (st_compensation_state s) (st_compensation_max_attempts s) (st_attempts s) (st_max_attempts s).

Definition with_compensation (state : bytes) (s : StepCheckpoint) : StepCheckpoint :=
  mk_step (st_ordinal s) (st_name s) (st_name_occurrence s) (st_kind s) (st_state s) (st_output s)
    (st_output_ref s) (st_error s) (st_wake_at s) (st_signal_type s) (st_max_signal_age_ms s)
    (st_consumed_signal_id s) (st_topic s) (st_child_run_id s) (st_child_workflow_name s)
    (st_child_input_ref s) (st_child_options s) (Some state) (st_compensation_max_attempts s)
    (st_attempts s) (st_max_attempts s).

(** * Rewriting a row *)

(** The row of an ordinal gets the checkpoint, its compensation columns stay. *)
Definition put_step (step : StepCheckpoint) (rows : list StepRow) : list StepRow :=
  map (λ r, if (st_ordinal (row_step r) =? st_ordinal step)%Z
            then mk_step_row step (row_compensation_attempts r) (row_compensation_retry_ms r)
                   (row_compensation_due_at r) (row_compensation_error r)
            else r) rows.

Definition save_checkpoint (step : StepCheckpoint) (j : Journal) : wresult Journal :=
  if negb (existsb (λ r, (st_ordinal (row_step r) =? st_ordinal step)%Z) (j_rows j))
  then Err (Internal "workflow checkpoint is missing")
  else if (i64_max <=? j_revision j)%Z
  then Err (ResourceExhausted "workflow journal revision exhausted")
  else Ok (mk_journal (put_step step (j_rows j)) (j_waits j) (j_signals j) (j_revision j + 1)).

(** * Replay *)

Record JournalStep := mk_journal_step {
  js_ordinal : Z;
  js_name : bytes;
  js_name_occurrence : Z;
  js_kind : bytes;
  js_state : bytes;
  js_output : option Value;
  js_output_ref : option WorkflowOutputRef;
  js_error : option Value;
  js_child_run_id : option bytes;
  js_compensation_state : option bytes
}.

Definition REPLAYED_ERROR_KEYS : list bytes :=
  [lit "type"; lit "message"; lit "stack"; lit "retryable"].

Definition replay_error (error : option Value) : option Value :=
  error ← error;
  Some (Object (foldl (λ projected key,
    match value_get key error with Some v => map_insert key v projected | None => projected end)
    [] REPLAYED_ERROR_KEYS)).

Definition replay_step (s : StepCheckpoint) : JournalStep :=
  mk_journal_step (st_ordinal s) (st_name s) (st_name_occurrence s) (st_kind s) (st_state s)
    (st_output s) (st_output_ref s) (replay_error (st_error s)) (st_child_run_id s)
    (st_compensation_state s).

Definition replay (steps : list StepCheckpoint) : list JournalStep :=
  map replay_step (List.filter (λ s, negb (bool_decide (st_state s = lit "retrying"))) steps).

(** * Appending a batch *)

Section journal.
Context `{Chrono}.
Variables (policy : AppPolicy) (w : World) (now : Z).

(** A declared [false] is a refusal; an error that declares nothing is retried. *)
Definition retryable (error : option Value) : bool :=
  default true (error ← error; v ← value_get (lit "retryable") error; as_bool v).

Definition settle_attempt (step : StepCheckpoint) (prior : Z) : wresult StepCheckpoint :=
  if negb (bool_decide (st_kind step = lit "run")) then Ok step
  else if (i32_max <? prior + 1)%Z then Err (Internal "workflow step attempt overflow")
  else
    let attempts := (prior + 1)%Z in
    if negb (bool_decide (st_state step = lit "failed") || bool_decide (st_state step = lit "retrying"))
    then Ok (with_state (st_state step) (st_wake_at step) attempts step)
    else if (attempts <? st_max_attempts step)%Z && retryable (st_error step) then
      due ← deadline now (retry_delay_ms policy);
      at_ ← ok_or (from_timestamp_millis due) (Internal "workflow retry deadline is out of range");
      Ok (with_state (lit "retrying") (Some at_) attempts step)
    else Ok (with_state (lit "failed") None attempts step).

(** How a checkpoint stands to the journal: a pending effect reported again, the next
    execution of a step that holds its ordinal (with what it spent and its encoded
    length), or the next operation. *)
Inductive Standing := Reported | Held (spent len : Z) | Fresh.

Definition same_operation (e s : StepCheckpoint) : bool :=
  bool_decide (st_name e = st_name s) && (st_name_occurrence e =? st_name_occurrence s)%Z
  && bool_decide (st_kind e = st_kind s).

Definition standing (steps : list StepCheckpoint) (step : StepCheckpoint) : wresult Standing :=
  match List.find (λ e, (st_ordinal e =? st_ordinal step)%Z) steps with
  | Some e =>
      if bool_decide (st_state e = lit "retrying") then
        if negb (same_operation e step) then invalid "workflow checkpoint rewrites committed history"
        else Ok (Held (st_attempts e) (w_step_len w e))
      else if negb (bool_decide (st_state e = lit "running")) || negb (same_operation e step)
              || negb (bool_decide (st_signal_type e = st_signal_type step))
              || negb (bool_decide (st_topic e = st_topic step))
      then invalid "workflow checkpoint rewrites committed history"
      else Ok Reported
  | None =>
      if negb (st_ordinal step =? Z.of_nat (length steps))%Z
         || negb (st_name_occurrence step =?
                  Z.of_nat (length (List.filter (λ e, bool_decide (st_name e = st_name step)) steps)))%Z
      then invalid "workflow checkpoint is not the next journal operation"
      else Ok Fresh
  end.

Definition check_identity (step : StepCheckpoint) : wresult unit :=
  if (st_ordinal step <? 0)%Z || bool_decide (st_name step = [])
     || (STEP_NAME_MAX_BYTES <? length (st_name step)) || (st_name_occurrence step <? 0)%Z
  then invalid "invalid workflow checkpoint identity" else Ok tt.

(** The checks between the attempt and the write. *)
Definition check_contents (step : StepCheckpoint) : wresult unit :=
  if bool_decide (is_Some (st_consumed_signal_id step))
  then invalid "signal consumption belongs to the workflow service"
  else
    _ ← match st_output_ref step with
        | Some reference =>
            if negb (bool_decide (st_state step = lit "completed"))
               || negb (bool_decide (st_kind step = lit "run"))
               || bool_decide (is_Some (st_output step))
            then invalid "payload references require a completed operation without inline output"
            else w_promote w (Some (st_ordinal step)) reference
        | None => Ok tt
        end;
    if (max_input_bytes policy <? w_step_len w step)%Z then Err PayloadTooLarge
    else if match st_max_signal_age_ms step with Some age => (age <? 0)%Z | None => false end
    then invalid "signal maximum age cannot be negative"
    else match st_signal_type step with
         | Some kind => if bool_decide (st_kind step = lit "child") then Ok tt
                        else validate_signal_type kind
         | None => Ok tt
         end.

(** A child checkpoint is accepted with the run it waits on. *)
Definition accept_child (step : StepCheckpoint) : wresult StepCheckpoint :=
  if bool_decide (st_kind step = lit "child") then
    if negb (bool_decide (st_state step = lit "running"))
    then invalid "child acceptance requires a pending checkpoint"
    else run_id ← w_accept_child w step; Ok (with_child run_id step)
  else Ok step.

Definition wait_of (s : StepCheckpoint) : WaitRow :=
  mk_wait (st_ordinal s) (st_kind s) (st_signal_type s).

Definition push_step (step : StepCheckpoint) (j : Journal) : Journal :=
  mk_journal (j_rows j ++ [mk_step_row step 0 (retry_delay_ms policy) None None])
    (if bool_decide (st_state step = lit "running") then j_waits j ++ [wait_of step] else j_waits j)
    (j_signals j) (j_revision j).

Definition append_one (acc : Journal * Z) (step : StepCheckpoint) : wresult (Journal * Z) :=
  let '(j, journal_bytes) := acc in
  _ ← check_identity step;
  held ← standing (j_steps j) step;
  match held with
  | Reported => Ok acc
  | _ =>
      let '(spent, old_len) := match held with Held spent len => (spent, len) | _ => (0, 0)%Z end in
      step ← settle_attempt step spent;
      _ ← check_contents step;
      step ← accept_child step;
      let journal_bytes := (Z.max 0 (journal_bytes - old_len) + w_step_len w step)%Z in
      if (usize_max <? journal_bytes)%Z then Err (ResourceExhausted "workflow journal size overflow")
      else if (max_journal_bytes policy <? journal_bytes)%Z
      then Err (ResourceExhausted "workflow journal size limit reached")
      else match held with
           | Held _ _ => j ← save_checkpoint step j; Ok (j, journal_bytes)
           | _ =>
               _ ← (if bool_decide (st_state step = lit "running") then w_subscribe w step else Ok tt);
               Ok (push_step step j, journal_bytes)
           end
  end.

Definition journal_len (steps : list StepCheckpoint) : wresult Z :=
  try_fold (λ total step,
    if (usize_max <? total + w_step_len w step)%Z
    then Err (ResourceExhausted "workflow journal size overflow")
    else Ok (total + w_step_len w step)%Z) 0%Z steps.

Definition append (checkpoints : list StepCheckpoint) (j : Journal) : wresult Journal :=
  journal_bytes ← journal_len (j_steps j);
  acc ← try_fold append_one (j, journal_bytes) checkpoints;
  Ok acc.1.

(** * Resolving waits *)

Definition child_output_limit : Value :=
  Object [(lit "type", Str (lit "LimitExceededError"));
          (lit "message", Str (lit "workflow child outputs exceed the configured limit"));
          (lit "retryable", Bool false)].
Definition child_cancelled : Value :=
  Object [(lit "type", Str (lit "ChildCancelledError"));
          (lit "message", Str (lit "child workflow was cancelled"))].
Definition child_timeout : Value :=
  Object [(lit "type", Str (lit "ChildTimeoutError"));
          (lit "message", Str (lit "child workflow wait expired"))].

Definition expired (step : StepCheckpoint) : bool :=
  match st_wake_at step with Some due => (timestamp_millis due <=? now)%Z | None => false end.

(** The oldest deliverable message by delivery sequence, then id. *)
Definition before (a b : Signal) : bool :=
  (sg_sequence a <? sg_sequence b)%Z ||
  ((sg_sequence a =? sg_sequence b)%Z && match cmp (sg_id a) (sg_id b) with Gt => false | _ => true end).
Fixpoint earliest_signal (l : list Signal) : option Signal :=
  match l with
  | [] => None
  | s :: l =>
      match earliest_signal l with
      | Some t => Some (if before s t then s else t)
      | None => Some s
      end
  end.

Definition saturating_sub (a b : Z) : Z := Z.max i64_min (Z.min i64_max (a - b)).

Definition deliverable (generation : Z) (step : StepCheckpoint) (signal_type : bytes) (s : Signal) : bool :=
  let oldest := match st_max_signal_age_ms step with
                | Some age => saturating_sub now age
                | None => i64_min
                end in
  let latest := match st_wake_at step with
                | Some due => Z.min (timestamp_millis due) now
                | None => now
                end in
  bool_decide (sg_type s = signal_type) && bool_decide (sg_consumed s = None)
  && (oldest <=? sg_created_at s)%Z && (sg_created_at s <=? latest)%Z
  && match sg_target s with
     | None => true
     | Some target => bool_decide (target = (generation, st_ordinal step))
     end.

Definition consume (generation ordinal : Z) (id : bytes) (signals : list Signal) : wresult (list Signal) :=
  let hit s := bool_decide (sg_id s = id) && bool_decide (sg_consumed s = None) in
  if negb (length (List.filter hit signals) =? 1)
  then Err (Conflict "workflow signal was already consumed")
  else Ok (map (λ s, if hit s
                     then mk_signal (sg_id s) (sg_type s) (sg_payload s) (sg_created_at s)
                            (sg_sequence s) (sg_origin s) (sg_delivery s) (sg_topic s) (sg_target s)
                            (Some (generation, ordinal))
                     else s) signals).

(** What a running step resolves to, if anything: its output, output reference, error,
    consumed signal and child, with the mailbox and the bytes its children carry. *)
Record Resolution := mk_resolution {
  rs_output : option Value;
  rs_output_ref : option WorkflowOutputRef;
  rs_error : option Value;
  rs_signal : option bytes;
  rs_child : option bytes;
  rs_signals : list Signal;
  rs_child_outputs : Z
}.

Definition unresolved (step : StepCheckpoint) (signals : list Signal) (child_outputs : Z) : Resolution :=
  mk_resolution None (st_output_ref step) None (st_consumed_signal_id step) (st_child_run_id step)
    signals child_outputs.

Definition resolve_sleep (step : StepCheckpoint) (r : Resolution) : Resolution :=
  if expired step then
    mk_resolution (Some Null) (rs_output_ref r) (rs_error r) (rs_signal r) (rs_child r) (rs_signals r)
      (rs_child_outputs r)
  else r.

(** [to_rfc3339] of a message's time is chrono's. *)
Variable to_rfc3339 : Z → bytes.

Definition signal_output (step : StepCheckpoint) (s : Signal) (created_at : Z) : Value :=
  let text o := match o with Some t => Str t | None => Null end in
  Object [(lit "id", Str (sg_id s)); (lit "type", text (st_signal_type step));
          (lit "payload", sg_payload s); (lit "createdAt", Str (to_rfc3339 created_at));
          (lit "origin", Str (sg_origin s)); (lit "delivery", Str (sg_delivery s));
          (lit "topic", text (sg_topic s))].

Definition resolve_signal (generation : Z) (step : StepCheckpoint) (r : Resolution) : wresult Resolution :=
  signal_type ← ok_or (st_signal_type step) (Internal "workflow signal wait has no type");
  match earliest_signal (List.filter (deliverable generation step signal_type) (rs_signals r)) with
  | Some s =>
      _ ← w_sequence w (sg_sequence s);
      created_at ← ok_or (from_timestamp_millis (sg_created_at s))
                     (Internal "invalid workflow signal timestamp");
      signals ← consume generation (st_ordinal step) (sg_id s) (rs_signals r);
      Ok (mk_resolution (Some (signal_output step s created_at)) (rs_output_ref r) (rs_error r)
            (Some (sg_id s)) (rs_child r) signals (rs_child_outputs r))
  | None => Ok (resolve_sleep step r)
  end.

Definition resolve_child (step : StepCheckpoint) (r : Resolution) : wresult Resolution :=
  child ← w_child w (st_ordinal step);
  let r := if is_terminal (cv_state child)
           then mk_resolution (rs_output r) (rs_output_ref r) (rs_error r) (rs_signal r)
                  (Some (cv_run_id child)) (rs_signals r) (rs_child_outputs r)
           else r in
  let failed error := mk_resolution (rs_output r) (rs_output_ref r) (Some error) (rs_signal r) (rs_child r)
                        (rs_signals r) (rs_child_outputs r) in
  if bool_decide (cv_state child = SCompleted) then
    match cv_output_ref child with
    | Some reference =>
        let total := (rs_child_outputs r + or_size reference)%Z in
        if (0 <=? or_size reference)%Z && (total <=? usize_max)%Z
           && (total <=? max_child_output_bytes policy)%Z then
          inherited ← w_inherit w (st_ordinal step);
          Ok (mk_resolution (rs_output r) (Some inherited) (rs_error r) (rs_signal r) (rs_child r)
                (rs_signals r) total)
        else Ok (failed child_output_limit)
    | None => Ok (mk_resolution (Some Null) (rs_output_ref r) (rs_error r) (rs_signal r) (rs_child r)
                    (rs_signals r) (rs_child_outputs r))
    end
  else if is_terminal (cv_state child) then Ok (failed (default child_cancelled (cv_error child)))
  else if expired step then Ok (failed child_timeout)
  else Ok r.

(** [clear_wait] purges one wait row of the ordinal. *)
Fixpoint remove_wait (ordinal : Z) (waits : list WaitRow) : list WaitRow :=
  match waits with
  | [] => []
  | t :: rest => if (wt_ordinal t =? ordinal)%Z then rest else t :: remove_wait ordinal rest
  end.

Definition resolve_step (generation : Z) (acc : Journal * Z * bool) (step : StepCheckpoint) :
    wresult (Journal * Z * bool) :=
  let '(j, child_outputs, progress) := acc in
  if negb (bool_decide (st_state step = lit "running")) then Ok acc
  else
    let r := unresolved step (j_signals j) child_outputs in
    r ← (if bool_decide (st_kind step = lit "sleep") then Ok (resolve_sleep step r)
         else if bool_decide (st_kind step = lit "wait_signal") then resolve_signal generation step r
         else if bool_decide (st_kind step = lit "child") then resolve_child step r
         else Ok r);
    let j := mk_journal (j_rows j) (j_waits j) (rs_signals r) (j_revision j) in
    if bool_decide (rs_output r = None) && bool_decide (rs_error r = None)
       && bool_decide (rs_output_ref r = None)
    then Ok (j, rs_child_outputs r, progress)
    else
      j ← save_checkpoint
            (with_result (rs_output r) (rs_output_ref r) (rs_error r) (rs_signal r) (rs_child r) step) j;
      Ok (mk_journal (j_rows j) (remove_wait (st_ordinal step) (j_waits j)) (j_signals j) (j_revision j),
          rs_child_outputs r, true).

(** The bytes the completed children of the journal carry. *)
Definition carried_outputs (steps : list StepCheckpoint) : wresult Z :=
  try_fold (λ total step,
    match st_output_ref step with
    | Some reference =>
        if bool_decide (st_kind step = lit "child") && bool_decide (st_state step = lit "completed") then
          if (or_size reference <? 0)%Z || (usize_max <? total + or_size reference)%Z
          then Err (Internal "workflow child output total is unrepresentable")
          else Ok (total + or_size reference)%Z
        else Ok total
    | None => Ok total
    end) 0%Z steps.

Definition resolve (generation : Z) (j : Journal) : wresult (Journal * bool) :=
  child_outputs ← carried_outputs (j_steps j);
  acc ← try_fold (resolve_step generation) (j, child_outputs, false) (j_steps j);
  Ok (acc.1.1, acc.2).
End journal.
