(* ===== verification/JournalFacts.v ===== *)
(** The journal of a run: committed history is never rewritten, every ordinal holds the
    operation it was given, attempts stay within their budget, and a wait row stands for
    exactly the steps that wait. *)

From S2P Require Export WorkflowFacts Journal.

(** * Rows and ordinals *)

(** Row [i] has ordinal [i], and its occurrence counts the earlier rows of its name. *)
Definition named (n : bytes) (steps : list StepCheckpoint) : list StepCheckpoint :=
  List.filter (λ e, bool_decide (st_name e = n)) steps.

Definition numbered (steps : list StepCheckpoint) : Prop :=
  ∀ i s, steps !! i = Some s → st_ordinal s = Z.of_nat i ∧
    st_name_occurrence s = Z.of_nat (length (named (st_name s) (take i steps))).

(** The identity of an operation: where it is and what it is. *)
Definition identity (s : StepCheckpoint) : Z * bytes * Z * bytes :=
  (st_ordinal s, st_name s, st_name_occurrence s, st_kind s).

Lemma named_length n (l l' : list StepCheckpoint) : identity <$> l = identity <$> l' →
  length (named n l) = length (named n l').
Proof.
  revert l'. induction l as [|a l IH]; intros [|b l'] E; try done. unfold named in *.
  injection E as _ Hname _ _ Htl. cbn. rewrite Hname. destruct (bool_decide (st_name b = n)); cbn; auto.
Qed.

Lemma numbered_ext (steps steps' : list StepCheckpoint) : identity <$> steps = identity <$> steps' →
  numbered steps → numbered steps'.
Proof.
  intros E Hn i s Hs.
  assert ((identity <$> steps) !! i = Some (identity s)) as Hi by (by rewrite E, list_lookup_fmap, Hs).
  rewrite list_lookup_fmap in Hi. destruct (steps !! i) as [s0|] eqn:Hs0; [|done].
  injection Hi as Ho Hname Hocc _. destruct (Hn i s0 Hs0) as [Ho' Hc]. split; [congruence|].
  rewrite <- Hocc, Hc, Hname. f_equal. apply named_length. rewrite !fmap_take. by f_equal.
Qed.

Lemma numbered_push steps s : numbered steps → st_ordinal s = Z.of_nat (length steps) →
  st_name_occurrence s = Z.of_nat (length (named (st_name s) steps)) → numbered (steps ++ [s]).
Proof.
  intros Hn Ho Hc i s' Hs'. apply lookup_app_Some in Hs' as [Hs'|[Hlen Hs']].
  - pose proof (lookup_lt_Some _ _ _ Hs'). rewrite take_app_le by lia. by apply Hn.
  - apply list_lookup_singleton_Some in Hs' as [Hi <-]. assert (i = length steps) as -> by lia.
    by rewrite take_app_length.
Qed.

Lemma numbered_take n steps : numbered steps → numbered (take n steps).
Proof.
  intros Hn i s Hi. apply lookup_take_Some in Hi as [Hi Hlt]. destruct (Hn i s Hi) as [? Ho].
  split; [done|]. by rewrite take_take, Nat.min_l by lia.
Qed.

Lemma numbered_find steps o : numbered steps → (0 ≤ o)%Z →
  List.find (λ e, (st_ordinal e =? o)%Z) steps = steps !! Z.to_nat o.
Proof.
  intros Hn Ho. destruct (List.find _ steps) as [e|] eqn:E.
  - apply List.find_some in E as [Hin Heq]. apply Z.eqb_eq in Heq.
    apply list_elem_of_In, list_elem_of_lookup in Hin as [i Hi].
    destruct (Hn i e Hi) as [Hoe _]. assert (Z.to_nat o = i) as -> by lia. done.
  - destruct (steps !! Z.to_nat o) as [s|] eqn:Es; [|done]. destruct (Hn _ _ Es) as [Hos _].
    assert (In s steps) as Hin by (apply list_elem_of_In; by eapply list_elem_of_lookup_2).
    pose proof (List.find_none _ _ E s Hin) as Hne. cbn in Hne. apply Z.eqb_neq in Hne. lia.
Qed.

(** * Rewriting one row *)

Definition put_row (step : StepCheckpoint) (r : StepRow) : StepRow :=
  mk_step_row step (row_compensation_attempts r) (row_compensation_retry_ms r)
    (row_compensation_due_at r) (row_compensation_error r).

Lemma put_step_insert step rows i r : numbered (map row_step rows) → rows !! i = Some r →
  st_ordinal step = Z.of_nat i → put_step step rows = <[i := put_row step r]> rows.
Proof.
  intros Hn Hi Ho. apply list_eq. intros k. unfold put_step. rewrite list_lookup_fmap.
  assert (∀ q, rows !! k = Some q → st_ordinal (row_step q) = Z.of_nat k) as Hk.
  { intros q Hq. apply (Hn k). change (map row_step rows) with (row_step <$> rows).
    by rewrite list_lookup_fmap, Hq. }
  destruct (decide (i = k)) as [->|Hne].
  - rewrite list_lookup_insert_eq by (by eapply lookup_lt_Some). rewrite Hi. cbn.
    by rewrite (Hk r Hi), Ho, Z.eqb_refl.
  - rewrite list_lookup_insert_ne by done. destruct (rows !! k) as [q|] eqn:Eq; [|done]. cbn.
    rewrite (proj2 (Z.eqb_neq _ _)); [done|]. rewrite (Hk q eq_refl), Ho. lia.
Qed.

Lemma save_checkpoint_Ok step j j' : save_checkpoint step j = Ok j' →
  j' = mk_journal (put_step step (j_rows j)) (j_waits j) (j_signals j) (j_revision j + 1) ∧
  (∃ r, r ∈ j_rows j ∧ st_ordinal (row_step r) = st_ordinal step) ∧ (j_revision j < i64_max)%Z.
Proof.
  unfold save_checkpoint. destruct (existsb _ _) eqn:E; cbn; [|done].
  destruct (Z.leb_spec i64_max (j_revision j)); [done|]. intros [= <-]. split; [done|].
  apply List.existsb_exists in E as (r & Hin & Heq). apply Z.eqb_eq in Heq. split; [|done].
  exists r. by rewrite list_elem_of_In.
Qed.

Lemma save_checkpoint_total step j q : q ∈ j_rows j → st_ordinal (row_step q) = st_ordinal step →
  (j_revision j < i64_max)%Z →
  save_checkpoint step j = Ok (mk_journal (put_step step (j_rows j)) (j_waits j) (j_signals j) (j_revision j + 1)).
Proof.
  intros Hq Ho Hr. unfold save_checkpoint. rewrite (proj2 (Z.leb_gt _ _)) by done.
  assert (existsb (λ r, (st_ordinal (row_step r) =? st_ordinal step)%Z) (j_rows j) = true) as ->; [|done].
  apply List.existsb_exists. exists q. by rewrite <- list_elem_of_In, Z.eqb_eq.
Qed.

Lemma j_steps_lookup j i : j_steps j !! i = row_step <$> j_rows j !! i.
Proof. apply list_lookup_fmap. Qed.

Lemma length_j_steps j : length (j_steps j) = length (j_rows j).
Proof. apply length_map. Qed.

(** * What an append does to a row *)

Section append.
Context `{Chrono}.
Variables (policy : AppPolicy) (w : World) (now : Z).

(** An execution is counted, a failure with attempts left becomes [retrying]. *)
Lemma settle_attempt_Ok step prior step' : settle_attempt policy now step prior = Ok step' →
  identity step' = identity step ∧ st_max_attempts step' = st_max_attempts step ∧
  (st_kind step ≠ lit "run" → step' = step) ∧
  (st_kind step = lit "run" → st_attempts step' = (prior + 1)%Z) ∧
  (st_state step' = st_state step ∨
   st_kind step = lit "run" ∧ st_state step = lit "failed" ∧ st_state step' = lit "retrying" ∨
   st_kind step = lit "run" ∧ st_state step = lit "retrying" ∧ st_state step' = lit "failed") ∧
  (st_state step' = lit "retrying" → st_kind step = lit "run" →
    (st_attempts step' < st_max_attempts step')%Z ∧ is_Some (st_wake_at step')).
Proof.
  unfold settle_attempt. case_bool_decide as Ek; cbn [negb]; [|intros [= <-]; naive_solver].
  destruct (Z.ltb_spec i32_max (prior + 1)); [done|].
  destruct (bool_decide (st_state step = lit "failed") || bool_decide (st_state step = lit "retrying")) eqn:Es;
    cbn [negb].
  - apply orb_true_iff in Es. rewrite !bool_decide_eq_true in Es.
    destruct ((_ <? _)%Z && _) eqn:Er.
    + bind_ok as due Ed. bind_ok as t Et. intros [= <-]. cbn. apply andb_true_iff in Er as [Hlt%Z.ltb_lt _].
      naive_solver.
    + intros [= <-]. cbn. naive_solver.
  - intros [= <-]. cbn. apply orb_false_iff in Es as [_ Es%bool_decide_eq_false]. naive_solver.
Qed.

Lemma accept_child_Ok step step' : accept_child w step = Ok step' →
  identity step' = identity step ∧ st_state step' = st_state step ∧
  st_attempts step' = st_attempts step ∧ st_max_attempts step' = st_max_attempts step ∧
  st_wake_at step' = st_wake_at step ∧ st_signal_type step' = st_signal_type step ∧
  st_topic step' = st_topic step.
Proof.
  unfold accept_child. case_bool_decide; [|by intros [= <-]].
  destruct (negb _); [done|]. bind_ok as id Eid. by intros [= <-].
Qed.

(** The row a checkpoint becomes. *)
Definition recorded (step : StepCheckpoint) (spent : Z) (step' : StepCheckpoint) : Prop :=
  ∃ step1, settle_attempt policy now step spent = Ok step1 ∧ accept_child w step1 = Ok step'.

Lemma append_one_Ok j b step j' b' : numbered (j_steps j) →
  append_one policy w now (j, b) step = Ok (j', b') →
  j' = j ∨
  (∃ i r step', j_rows j !! i = Some r ∧ st_ordinal step = Z.of_nat i ∧
    st_state (row_step r) = lit "retrying" ∧ same_operation (row_step r) step = true ∧
    recorded step (st_attempts (row_step r)) step' ∧
    j' = mk_journal (<[i := put_row step' r]> (j_rows j)) (j_waits j) (j_signals j) (j_revision j + 1)) ∨
  (∃ step', st_ordinal step = Z.of_nat (length (j_steps j)) ∧
    st_name_occurrence step = Z.of_nat (length (named (st_name step) (j_steps j))) ∧
    recorded step 0 step' ∧ j' = push_step policy step' j).
Proof.
  intros Hn. unfold append_one. bind_ok as u Eid. bind_ok as held Eh.
  assert (0 ≤ st_ordinal step)%Z as Hpos.
  { unfold check_identity in Eid. destruct (Z.ltb_spec (st_ordinal step) 0); [done|lia]. }
  unfold standing in Eh. rewrite numbered_find, j_steps_lookup in Eh by done.
  destruct (j_rows j !! Z.to_nat (st_ordinal step)) as [r|] eqn:Er; cbn in Eh.
  - case_bool_decide as Es.
    + destruct (same_operation _ _) eqn:Eo; [|done]. injection Eh as <-. bind_ok as s1 E1.
      bind_ok as u2 E2. bind_ok as s2 E3. destruct (_ <? _)%Z; [done|]. destruct (_ <? _)%Z; [done|].
      bind_ok as j1 Ej. intros [= <- <-]. right. left.
      assert (st_ordinal s2 = st_ordinal step) as Ho2.
      { apply accept_child_Ok in E3 as [E3 _]. apply settle_attempt_Ok in E1 as [E1 _]. by injection E3; injection E1; congruence. }
      apply save_checkpoint_Ok in Ej as (-> & _ & _).
      exists (Z.to_nat (st_ordinal step)), r, s2. rewrite <- put_step_insert; [|done..|lia].
      repeat split; [done|lia|done|done|by exists s1].
    + destruct (_ || _); [done|]. injection Eh as <-. intros [= <- <-]. by left.
  - destruct (_ || _) eqn:Eo; [done|]. injection Eh as <-.
    apply orb_false_iff in Eo as [Eo1 Eo2]. rewrite negb_false_iff, Z.eqb_eq in Eo1, Eo2.
    bind_ok as s1 E1. bind_ok as u2 E2. bind_ok as s2 E3. destruct (_ <? _)%Z; [done|].
    destruct (_ <? _)%Z; [done|]. bind_ok as u3 E4. intros [= <- <-]. right. right. exists s2.
    repeat split; [done|done|by exists s1].
Qed.

(** ** History *)

(** [j'] keeps what [j] has settled: rows stay in place with their operation, and only a
    step with attempts left is replaced, having spent more of them. *)
Definition extends_history (j j' : Journal) : Prop :=
  ∀ i r, j_rows j !! i = Some r → ∃ r', j_rows j' !! i = Some r' ∧
    identity (row_step r') = identity (row_step r) ∧
    (st_state (row_step r) ≠ lit "retrying" → r' = r) ∧
    (st_kind (row_step r) = lit "run" → r' = r ∨ (st_attempts (row_step r) < st_attempts (row_step r'))%Z).

#[local] Instance extends_history_preorder : PreOrder extends_history.
Proof.
  split.
  - intros j i r Hr. exists r. naive_solver.
  - intros j1 j2 j3 H12 H23 i r Hr. destruct (H12 i r Hr) as (r2 & Hr2 & Eid & Hs & Ha).
    destruct (H23 i r2 Hr2) as (r3 & Hr3 & Eid' & Hs' & Ha'). exists r3. split; [done|].
    assert (st_kind (row_step r2) = st_kind (row_step r)) as Hk by (by injection Eid).
    split; [congruence|]. split.
    + intros Hne. specialize (Hs Hne) as ->. by apply Hs'.
    + intros Hrun. destruct (Ha Hrun) as [->|]; [by apply Ha'|].
      destruct (Ha' (eq_trans Hk Hrun)) as [->|]; right; [done|lia].
Qed.

Lemma identity_kind s s' : identity s = identity s' → st_kind s = st_kind s'.
Proof. by intros [=]. Qed.

Lemma recorded_identity step spent step' : recorded step spent step' →
  identity step' = identity step.
Proof.
  intros (s1 & E1 & E2). apply accept_child_Ok in E2 as [-> _]. by apply settle_attempt_Ok in E1 as [-> _].
Qed.

Lemma recorded_attempts step spent step' : recorded step spent step' →
  st_kind step = lit "run" → st_attempts step' = (spent + 1)%Z.
Proof.
  intros (s1 & E1 & E2) Hk. apply accept_child_Ok in E2 as (_ & _ & -> & _).
  apply settle_attempt_Ok in E1 as (_ & _ & _ & H1 & _). by apply H1.
Qed.

Lemma same_operation_identity e s i : same_operation e s = true → st_ordinal e = Z.of_nat i →
  st_ordinal s = Z.of_nat i → identity e = identity s.
Proof.
  unfold same_operation, identity. rewrite !andb_true_iff, !bool_decide_eq_true, Z.eqb_eq.
  intros [[-> ->] ->] -> ->. done.
Qed.

Lemma append_one_history j b step j' b' : numbered (j_steps j) →
  append_one policy w now (j, b) step = Ok (j', b') → numbered (j_steps j') ∧ extends_history j j'.
Proof.
  intros Hn E. apply append_one_Ok in E; [|done].
  destruct E as [->|[(i & r & step' & Hr & Ho & Hs & Hop & Hrec & ->)|(step' & Ho & Hc & Hrec & ->)]].
  - done.
  - pose proof (recorded_identity _ _ _ Hrec) as Eid.
    assert (j_steps j !! i = Some (row_step r)) as Hri by (by rewrite j_steps_lookup, Hr).
    destruct (Hn i _ Hri) as [Hor _].
    pose proof (same_operation_identity _ _ i Hop Hor Ho) as Eop.
    assert (identity (row_step (put_row step' r)) = identity (row_step r)) as Eput by (cbn; congruence).
    split.
    + apply (numbered_ext (j_steps j)); [|done]. unfold j_steps. cbn.
      change (map row_step ?l) with (row_step <$> l). rewrite <- !list_fmap_compose.
      rewrite list_fmap_insert. symmetry. apply list_insert_id. rewrite list_lookup_fmap, Hr. cbn. by f_equal.
    + intros k q Hq. cbn. destruct (decide (i = k)) as [<-|Hne].
      * exists (put_row step' r). rewrite list_lookup_insert_eq by (by eapply lookup_lt_Some).
        assert (q = r) as -> by congruence. split; [done|]. split; [done|]. split; [by intros []|]. intros Hk. right. cbn.
        rewrite (recorded_attempts _ _ _ Hrec); [lia|]. by rewrite <- (identity_kind _ _ Eop).
      * exists q. rewrite list_lookup_insert_ne by done. naive_solver.
  - pose proof (recorded_identity _ _ _ Hrec) as Eid. injection Eid as Eo En Eocc _. split.
    + unfold j_steps. cbn. rewrite map_app. apply numbered_push; [done| |]; cbn; [by rewrite Eo|].
      by rewrite Eocc, En.
    + intros k q Hq. exists q. cbn. rewrite lookup_app_l by (by eapply lookup_lt_Some). naive_solver.
Qed.

Lemma append_history j j' checkpoints : numbered (j_steps j) →
  append policy w now checkpoints j = Ok j' → numbered (j_steps j') ∧ extends_history j j'.
Proof.
  intros Hn. unfold append. bind_ok as b Eb. bind_ok as acc Ea. intros [= <-].
  refine (try_fold_inv (λ acc, numbered (j_steps acc.1) ∧ extends_history j acc.1) _ _ _ _ _ _ Ea); [done|].
  intros [j1 b1] step [j2 b2] _ [Hn1 He1] E. cbn in *.
  apply append_one_history in E as [Hn2 He2]; [|done]. split; [done|]. by transitivity j1.
Qed.
End append.

(** Committed history is never rewritten. Whatever batch an executor reports,
    an accepted append leaves every row of the journal at its ordinal with its name,
    occurrence and kind, changes only rows of steps with attempts left, and those only by
    counting a further attempt; the rows stay numbered without gaps, each occurrence
    counting the earlier steps of its name. *)
Theorem append_keeps_history `{Chrono} (policy : AppPolicy) (w : World) (now : Z) (j j' : Journal)
    (checkpoints : list StepCheckpoint) :
  numbered (j_steps j) → append policy w now checkpoints j = Ok j' →
  numbered (j_steps j') ∧ extends_history j j'.
Proof. apply append_history. Qed.

(** * The invariant of a journal *)

Definition is_running (s : StepCheckpoint) : bool := bool_decide (st_state s = lit "running").

(** Attempts are counted within the budget [B], a step that will be tried again has some
    left and knows when, no body of a [run] step is ever pending, and a pending sleep or
    wait knows what it is for. *)
Record step_ok (B : Z) (s : StepCheckpoint) : Prop := {
  so_attempts : st_kind s = lit "run" → (1 ≤ st_attempts s ≤ B)%Z;
  so_retrying : st_state s = lit "retrying" →
    st_kind s = lit "run" ∧ (st_attempts s < B)%Z ∧ is_Some (st_wake_at s);
  so_running : st_state s = lit "running" → st_kind s ≠ lit "run";
  so_sleep : st_state s = lit "running" → st_kind s = lit "sleep" → is_Some (st_wake_at s);
  so_signal : st_state s = lit "running" → st_kind s = lit "wait_signal" → is_Some (st_signal_type s)
}.

Record journal_ok (B : Z) (j : Journal) : Prop := {
  jo_numbered : numbered (j_steps j);
  jo_steps : Forall (step_ok B) (j_steps j);
  jo_waits : j_waits j = wait_of <$> List.filter is_running (j_steps j)
}.

(** A checkpoint the fold produced, whose declared attempts are within the budget. *)
Definition folded (B : Z) (s : StepCheckpoint) : Prop :=
  ∃ o, outcome_ok o = true ∧ checkpoint_of o = Some s ∧ (st_max_attempts s ≤ B)%Z.

Lemma folded_shape B s : folded B s →
  st_state s = lit "completed" ∧ (st_kind s = lit "run" ∨ st_kind s = lit "sideEffect") ∨
  st_state s = lit "failed" ∧ st_kind s = lit "run" ∨
  st_state s = lit "running" ∧
    (st_kind s = lit "sleep" ∧ is_Some (st_wake_at s) ∨
     st_kind s = lit "wait_signal" ∧ is_Some (st_signal_type s) ∨ st_kind s = lit "child").
Proof.
  intros (o & Hok & Hc & _).
  destruct o as [? ? ? kind| | | |[?|] [?|] | | | | |]; cbn in *; simplify_eq; cbn; eauto 8.
  rewrite orb_true_iff, !bool_decide_eq_true in Hok. tauto.
Qed.

(** Two literals that differ. *)
Ltac lits := match goal with
  | H : lit _ = lit _ |- _ => by vm_compute in H
  | H : ?a = lit _, H' : ?a = lit _ |- _ => rewrite H in H'; by vm_compute in H'
  | |- lit _ ≠ lit _ => by vm_compute
  end.

Section invariant.
Context `{Chrono}.
Variables (policy : AppPolicy) (w : World) (now B : Z).

Lemma recorded_ok step spent step' : folded B step → (0 ≤ spent < B)%Z →
  recorded policy w now step spent step' →
  step_ok B step' ∧ (is_running step' = true → st_ordinal step' = st_ordinal step ∧ is_running step = true) ∧
  (st_kind step = lit "run" → is_running step' = false) ∧
  (is_running step = true → is_running step' = true).
Proof.
  intros Hf Hsp Hrec. pose proof (folded_shape _ _ Hf) as Hshape. destruct Hf as (o & _ & _ & Hmax).
  pose proof (recorded_identity _ _ _ _ _ _ Hrec) as Eid. pose proof (identity_kind _ _ Eid) as Hkind.
  assert (st_ordinal step' = st_ordinal step) as Hord by (by injection Eid).
  pose proof (recorded_attempts _ _ _ _ _ _ Hrec) as Hatt. destruct Hrec as (s1 & E1 & E2).
  apply accept_child_Ok in E2 as (_ & Hs2 & Ha2 & Hm2 & Hw2 & Hg2 & _).
  apply settle_attempt_Ok in E1 as (_ & Hm1 & Hnr & _ & Hst & Hre).
  unfold is_running. rewrite !bool_decide_eq_true, bool_decide_eq_false, Hs2.
  assert (st_state s1 = lit "running" → st_state step = lit "running") as Hr1
    by (destruct Hst as [->|[(?&?&?)|(?&?&?)]]; [done|intros; lits..]).
  assert (st_kind step = lit "run" → st_state s1 ≠ lit "running") as Hr2.
  { intros Hk Hr%Hr1. destruct Hshape as [[? _]|[[? _]|[_ [[? _]|[[? _]|?]]]]]; lits. }
  split; [split|].
  - rewrite Hkind. intros Hk. rewrite Hatt by done. lia.
  - rewrite Hs2, Hkind, Hw2. intros Hr.
    assert (st_kind step = lit "run") as Hk.
    { destruct Hst as [Heq|[(?&?&?)|(?&?&?)]]; [|done..]. rewrite Heq in Hr.
      destruct Hshape as [[? _]|[[? ?]|[? _]]]; [lits|done|lits]. }
    destruct (Hre Hr Hk) as [Hlt Hw]. split; [done|]. split; [|done]. rewrite <- Ha2 in Hlt. lia.
  - rewrite Hs2, Hkind. intros Hr Hk. by apply Hr2.
  - rewrite Hs2, Hkind, Hw2. intros Hr%Hr1 Hk.
    destruct Hshape as [[? _]|[[? _]|[_ [[_ ?]|[[? _]|?]]]]]; [lits..| |lits|lits].
    rewrite Hnr; [done|]. rewrite Hk. by vm_compute.
  - rewrite Hs2, Hkind, Hg2. intros Hr%Hr1 Hk.
    destruct Hshape as [[? _]|[[? _]|[_ [[? _]|[[_ ?]|?]]]]]; [lits..| |lits].
    rewrite Hnr; [done|]. rewrite Hk. by vm_compute.
  - split; [auto|]. split; [auto|]. intros Hr. destruct Hst as [->|[(?&?&?)|(?&?&?)]]; [done|lits..].
Qed.

Lemma filter_insert_false {A} (p : A → bool) l i x y : l !! i = Some y → p y = false → p x = false →
  List.filter p (<[i := x]> l) = List.filter p l.
Proof.
  revert i. induction l as [|z l IH]; intros [|i] Hi Hy Hx; cbn in *; try done.
  - simplify_eq. by rewrite Hx, Hy.
  - by rewrite IH.
Qed.

Lemma j_steps_insert rows waits signals revision i step r :
  j_steps (mk_journal (<[i := put_row step r]> rows) waits signals revision) =
  <[i := step]> (map row_step rows).
Proof. unfold j_steps. cbn. change (map row_step ?l) with (row_step <$> l). by rewrite list_fmap_insert. Qed.

Lemma append_one_ok j b step j' b' : (1 ≤ B)%Z → journal_ok B j → folded B step →
  append_one policy w now (j, b) step = Ok (j', b') → journal_ok B j'.
Proof.
  intros HB [Hn Hs Hw] Hf E. pose proof E as E'. apply append_one_history in E' as [Hn' _]; [|done].
  apply append_one_Ok in E; [|done].
  destruct E as [->|[(i & r & step' & Hr & Ho & Hre & Hop & Hrec & ->)|(step' & Ho & Hc & Hrec & ->)]].
  - done.
  - assert (j_steps j !! i = Some (row_step r)) as Hri by (by rewrite j_steps_lookup, Hr).
    pose proof (proj1 (Forall_lookup _ _) Hs i _ Hri) as Hrow. destruct (so_retrying _ _ Hrow Hre) as (Hk & Hlt & _).
    pose proof (so_attempts _ _ Hrow Hk) as Ha.
    destruct (recorded_ok _ _ _ Hf (conj (Z.le_trans _ _ _ Z.le_0_1 (proj1 Ha)) Hlt) Hrec) as (Hok & _ & Hnr & _).
    assert (st_kind step = lit "run") as Hks.
    { unfold same_operation in Hop. rewrite !andb_true_iff, !bool_decide_eq_true in Hop. by destruct Hop as [_ <-]. }
    split; [done|rewrite j_steps_insert; by apply Forall_insert|].
    rewrite j_steps_insert. cbn [j_waits]. rewrite Hw. f_equal. symmetry. apply (filter_insert_false _ _ _ _ _ Hri).
    + unfold is_running. rewrite Hre. by vm_compute.
    + by apply Hnr.
  - destruct (recorded_ok _ _ _ Hf (conj (Z.le_refl 0) (Z.lt_le_trans _ _ _ Z.lt_0_1 HB)) Hrec) as (Hok & _).
    split; [done| |].
    + unfold j_steps. cbn. rewrite map_app. apply Forall_app. split; [done|]. by apply Forall_singleton.
    + unfold j_steps. cbn. rewrite map_app, List.filter_app, fmap_app. fold (j_steps j). cbn.
      fold (is_running step'). destruct (is_running step'); cbn; by rewrite ?app_nil_r, Hw.
Qed.

Lemma append_ok j j' checkpoints : (1 ≤ B)%Z → journal_ok B j → Forall (folded B) checkpoints →
  append policy w now checkpoints j = Ok j' → journal_ok B j'.
Proof.
  intros HB Hj Hf. unfold append. bind_ok as b Eb. bind_ok as acc Ea. intros [= <-].
  refine (try_fold_inv (λ acc, journal_ok B acc.1) _ _ _ _ _ _ Ea); [done|].
  intros [j1 b1] step [j2 b2] Hin Hj1 E. apply (append_one_ok _ _ _ _ _ HB Hj1) in E; [done|].
  by apply (proj1 (Forall_forall _ _) Hf).
Qed.

(** ** Resolving waits *)

Variable to_rfc3339 : Z → bytes.

Lemma remove_wait_insert (steps : list StepCheckpoint) i s s' : steps !! i = Some s →
  is_running s = true → is_running s' = false →
  (∀ k t, k < i → steps !! k = Some t → st_ordinal t ≠ st_ordinal s) →
  remove_wait (st_ordinal s) (wait_of <$> List.filter is_running steps) =
  wait_of <$> List.filter is_running (<[i := s']> steps).
Proof.
  revert i. induction steps as [|t steps IH]; intros [|i] Hi Hs Hs' Hne; cbn in *; try done.
  - simplify_eq. rewrite Hs, Hs'. cbn. by rewrite Z.eqb_refl.
  - assert (remove_wait (st_ordinal s) (wait_of <$> List.filter is_running steps) =
      wait_of <$> List.filter is_running (<[i := s']> steps)) as IH'.
    { apply IH; [done..|]. intros k t' Hk Ht'. by apply (Hne (S k)); [lia|]. }
    destruct (is_running t) eqn:Et; [|done]. cbn.
    rewrite (proj2 (Z.eqb_neq _ _)); [by rewrite IH'|]. apply (Hne 0); [lia|done].
Qed.

(** A step is settled by its result: completed or failed, as the operation it was. *)
Definition settled_as (s s' : StepCheckpoint) : Prop :=
  identity s' = identity s ∧ (st_state s' = lit "completed" ∨ st_state s' = lit "failed") ∧
  st_compensation_state s' = st_compensation_state s.

Lemma resolve_step_Ok generation j c p step j' c' p' i : numbered (j_steps j) →
  j_steps j !! i = Some step →
  resolve_step policy w now to_rfc3339 generation (j, c, p) step = Ok (j', c', p') →
  (j_rows j' = j_rows j ∧ j_waits j' = j_waits j ∧ p' = p ∧ j_revision j' = j_revision j) ∨
  (is_running step = true ∧ p' = true ∧ j_revision j' = (j_revision j + 1)%Z ∧
   ∃ r step', j_rows j !! i = Some r ∧ settled_as step step' ∧
     j_rows j' = <[i := put_row step' r]> (j_rows j) ∧
     j_waits j' = remove_wait (st_ordinal step) (j_waits j)).
Proof.
  intros Hn Hi. unfold resolve_step, is_running.
  destruct (bool_decide (st_state step = lit "running")) eqn:Er; cbn [negb]; [|intros [= <- <- <-]; by left].
  bind_ok as r Er'. destruct (_ && _); [intros [= <- <- <-]; by left|].
  bind_ok as j1 Ej. intros [= <- <- <-]. right. apply save_checkpoint_Ok in Ej as (-> & _ & _).
  cbn [j_rows j_waits j_signals j_revision].
  rewrite j_steps_lookup in Hi. destruct (j_rows j !! i) as [q|] eqn:Eq; [|done]. injection Hi as Hi.
  destruct (Hn i step) as [Ho _]; [rewrite j_steps_lookup, Eq; cbn; congruence|].
  do 3 (split; [done|]).
  exists q, (with_result (rs_output r) (rs_output_ref r) (rs_error r) (rs_signal r) (rs_child r) step).
  split; [done|]. split; [|split; [by apply put_step_insert|done]]. split; [done|]. split; [|done].
  unfold with_result. cbn [st_state]. by destruct (rs_error r); [right|left].
Qed.

(** [j'] settles some of the running steps of [j] and changes nothing else. *)
Definition settles (j j' : Journal) : Prop :=
  length (j_rows j') = length (j_rows j) ∧
  ∀ i r, j_rows j !! i = Some r → ∃ r', j_rows j' !! i = Some r' ∧
    (r' = r ∨ is_running (row_step r) = true ∧ settled_as (row_step r) (row_step r')).

Lemma settles_refl j : settles j j.
Proof. split; [done|]. intros i r Hr. exists r. auto. Qed.

Lemma step_ok_settled s s' : step_ok B s → is_running s = true → settled_as s s' →
  step_ok B s' ∧ is_running s' = false.
Proof.
  intros [_ _ Hr] Es%bool_decide_eq_true (Eid & Hst & _). specialize (Hr Es).
  pose proof (identity_kind _ _ Eid) as Hk. unfold is_running. split.
  - split; [by rewrite Hk|intros E; destruct Hst; lits..].
  - apply bool_decide_eq_false. intros E. destruct Hst; lits.
Qed.

(** One step of the resolution, for a step that the journal holds at [i]. *)
Lemma resolve_step_ok generation j c p step j' c' p' i : journal_ok B j → j_steps j !! i = Some step →
  resolve_step policy w now to_rfc3339 generation (j, c, p) step = Ok (j', c', p') →
  journal_ok B j' ∧ length (j_rows j') = length (j_rows j) ∧
  (∀ k r, j_rows j !! k = Some r → ∃ r', j_rows j' !! k = Some r' ∧
    (r' = r ∨ k = i ∧ is_running (row_step r) = true ∧ settled_as (row_step r) (row_step r'))) ∧
  (p' = p ∧ j_rows j' = j_rows j ∨ p' = true).
Proof.
  intros [Hn Hs Hw] Hi E. apply (resolve_step_Ok _ _ _ _ _ _ _ _ i) in E; [|done..].
  destruct E as [(Er & Ew & -> & _)|(Hrun & -> & _ & r & step' & Hr & Hset & Er & Ew)].
  - unfold j_steps in *. split; [split; unfold j_steps; by rewrite ?Er, ?Ew|]. rewrite Er. eauto 10.
  - assert (row_step r = step) as Hstep by (rewrite j_steps_lookup, Hr in Hi; by injection Hi).
    pose proof (proj1 (Forall_lookup _ _) Hs i _ Hi) as Hok.
    destruct (step_ok_settled _ _ Hok Hrun Hset) as [Hok' Hnr].
    assert (j_steps j' = <[i := step']> (j_steps j)) as Hsteps.
    { unfold j_steps. rewrite Er. change (map row_step ?l) with (row_step <$> l). by rewrite list_fmap_insert. }
    split; [split|].
    + rewrite Hsteps. apply (numbered_ext (j_steps j)); [|done]. rewrite list_fmap_insert. symmetry.
      apply list_insert_id. rewrite list_lookup_fmap, Hi. cbn. f_equal. symmetry. apply Hset.
    + rewrite Hsteps. by apply Forall_insert.
    + rewrite Ew, Hw, Hsteps. apply remove_wait_insert; [done..|].
      intros k t Hk Ht. destruct (Hn k t Ht), (Hn i step Hi). lia.
    + rewrite Er, length_insert. split; [done|]. split; [|by right]. intros k q Hq.
      destruct (decide (i = k)) as [<-|Hne].
      * exists (put_row step' r). rewrite list_lookup_insert_eq by (by eapply lookup_lt_Some).
        split; [done|]. right. assert (q = r) as -> by congruence. by rewrite Hstep.
      * exists q. rewrite list_lookup_insert_ne by done. auto.
Qed.

Lemma settled_done s s' : is_running s = true → settled_as s s' → is_running s' = false.
Proof. intros _ (_ & Hst & _). apply bool_decide_eq_false. intros E. destruct Hst; lits. Qed.

Lemma settles_trans_step j j1 j2 i : settles j j1 → length (j_rows j2) = length (j_rows j1) →
  (∀ k r, j_rows j1 !! k = Some r → ∃ r', j_rows j2 !! k = Some r' ∧
    (r' = r ∨ k = i ∧ is_running (row_step r) = true ∧ settled_as (row_step r) (row_step r'))) →
  settles j j2.
Proof.
  intros [Hl H1] Hl2 H2. split; [congruence|]. intros k r Hr. destruct (H1 k r Hr) as (r1 & Hr1 & Hc1).
  destruct (H2 k r1 Hr1) as (r2 & Hr2 & Hc2). exists r2. split; [done|].
  destruct Hc2 as [->|(_ & Hrun & Hset)]; [done|].
  destruct Hc1 as [->|[Hrun0 Hset0]]; [by right|].
  by rewrite (settled_done _ _ Hrun0 Hset0) in Hrun.
Qed.

Lemma drop_unchanged j j1 k : length (j_rows j1) = length (j_rows j) →
  (∀ i r, j_rows j !! i = Some r → ∃ r', j_rows j1 !! i = Some r' ∧
    (r' = r ∨ i = k ∧ is_running (row_step r) = true ∧ settled_as (row_step r) (row_step r'))) →
  drop (S k) (j_steps j1) = drop (S k) (j_steps j).
Proof.
  intros Hl Hrows. apply list_eq. intros i. rewrite !lookup_drop, !j_steps_lookup.
  destruct (j_rows j !! (S k + i)) as [r|] eqn:Er.
  - destruct (Hrows _ _ Er) as (r' & -> & [->|[Hi _]]); [done|lia].
  - apply lookup_ge_None in Er. by rewrite (proj2 (lookup_ge_None (j_rows j1) _)) by lia.
Qed.

Lemma resolve_loop generation rest : ∀ k j0 j c p j' c' p',
  journal_ok B j → settles j0 j → rest = drop k (j_steps j) →
  try_fold (resolve_step policy w now to_rfc3339 generation) (j, c, p) rest = Ok (j', c', p') →
  journal_ok B j' ∧ settles j0 j' ∧ (p' = p ∧ j_rows j' = j_rows j ∨ p' = true).
Proof.
  induction rest as [|s rest IH]; intros k j0 j c p j' c' p' Hok Hset Hd; cbn [try_fold].
  { intros [= <- <- <-]. auto. }
  assert (j_steps j !! k = Some s) as Hk by (rewrite <- (Nat.add_0_r k), <- lookup_drop, <- Hd; done).
  bind_ok as [[j1 c1] p1] E1. intros E.
  pose proof (resolve_step_ok _ _ _ _ _ _ _ _ k Hok Hk E1) as (Hok1 & Hl1 & Hrows & Hp1).
  pose proof (settles_trans_step _ _ _ k Hset Hl1 Hrows) as Hset1.
  apply (IH (S k) j0) in E as (Hok' & Hset' & Hp'); [|done..|].
  - split; [done|]. split; [done|]. destruct Hp' as [[-> ->]| ->]; [|by right].
    by destruct Hp1 as [[-> ->]| ->]; [left|right].
  - rewrite (drop_unchanged j j1 k) by done. rewrite (drop_S _ _ _ Hk) in Hd. congruence.
Qed.

Lemma resolve_ok generation j j' progress : journal_ok B j →
  resolve policy w now to_rfc3339 generation j = Ok (j', progress) →
  journal_ok B j' ∧ settles j j' ∧ (progress = false → j_rows j' = j_rows j).
Proof.
  intros Hok. unfold resolve. bind_ok as c Ec. bind_ok as [[j1 c1] p1] E1. intros [= <- <-]. cbn.
  apply (resolve_loop generation _ 0 j) in E1 as (? & ? & Hp); [|done..|by apply settles_refl|done].
  split; [done|]. split; [done|]. intros ->. by destruct Hp as [[_ ?]|?].
Qed.

(** ** Progress *)

(** Some running step of [j] is settled in [j']. *)
Definition some_settled (j j' : Journal) : Prop :=
  ∃ i r r', j_rows j !! i = Some r ∧ is_running (row_step r) = true ∧
    j_rows j' !! i = Some r' ∧ settled_as (row_step r) (row_step r').

Lemma settled_not_running s s' : settled_as s s' → is_running s' = false.
Proof. intros (_ & Hst & _). apply bool_decide_eq_false. intros E. destruct Hst; lits. Qed.

Lemma some_settled_trans j0 j j' : some_settled j0 j → settles j j' → some_settled j0 j'.
Proof.
  intros (i & r & r' & Hi & Hr & Hi' & Hs) [_ Hset]. destruct (Hset i r' Hi') as (r'' & Hi'' & [->|[Hr' _]]).
  - by exists i, r, r'.
  - by rewrite (settled_not_running _ _ Hs) in Hr'.
Qed.

Lemma resolve_loop_progress generation rest : ∀ k j c p j' c',
  journal_ok B j → rest = drop k (j_steps j) →
  try_fold (resolve_step policy w now to_rfc3339 generation) (j, c, p) rest = Ok (j', c', true) →
  p = true ∨ some_settled j j'.
Proof.
  induction rest as [|s rest IH]; intros k j c p j' c' Hok Hd; cbn [try_fold].
  { intros [= <- <- <-]. auto. }
  assert (j_steps j !! k = Some s) as Hk by (rewrite <- (Nat.add_0_r k), <- lookup_drop, <- Hd; done).
  bind_ok as [[j1 c1] p1] E1. intros E.
  pose proof (resolve_step_ok _ _ _ _ _ _ _ _ k Hok Hk E1) as (Hok1 & Hl1 & Hrows & _).
  assert (rest = drop (S k) (j_steps j1)) as Hd1
    by (rewrite (drop_unchanged j j1 k) by done; rewrite (drop_S _ _ _ Hk) in Hd; congruence).
  pose proof (resolve_loop _ _ (S k) j1 _ _ _ _ _ _ Hok1 (settles_refl _) Hd1 E) as (_ & Hset & _).
  apply resolve_step_Ok with (i := k) in E1 as [(Hr & _ & -> & _)|(Hrun & -> & _ & r & s' & Hkr & Hs & Hr1 & _)];
    [| |apply Hok|done].
  - destruct (IH _ _ _ _ _ _ Hok1 Hd1 E) as [?|(i & r & r' & Hi & Hx)]; [by left|right].
    exists i, r, r'. by rewrite <- Hr.
  - right. eapply some_settled_trans; [|done]. rewrite j_steps_lookup, Hkr in Hk. injection Hk as <-.
    exists k, r, (put_row s' r). rewrite Hr1, list_lookup_insert_eq by (by eapply lookup_lt_Some). done.
Qed.

(** A step of the resolution that makes no progress leaves the mailbox alone. *)
Lemma resolve_step_mailbox generation j c p step j' c' p' :
  resolve_step policy w now to_rfc3339 generation (j, c, p) step = Ok (j', c', p') →
  p' = true ∨ p' = p ∧ j_signals j' = j_signals j.
Proof.
  unfold resolve_step. destruct (negb _); [intros [= <- <- <-]; by right|].
  bind_ok as r Er. destruct (_ && _) eqn:Eu; [|bind_ok as j1 Ej; intros [= _ _ <-]; by left].
  intros [= <- <- <-]. right. split; [done|]. cbn [j_signals].
  rewrite !andb_true_iff, !bool_decide_eq_true in Eu. destruct Eu as [[Ho _] _]. revert Er.
  case_bool_decide; [intros [= <-]; unfold resolve_sleep; by destruct (expired now step)|].
  case_bool_decide.
  - unfold resolve_signal. bind_ok as t Et. destruct (earliest_signal _).
    + bind_ok as [] E1. bind_ok as at_ E2. bind_ok as sg E3. by intros [= <-].
    + intros [= <-]. unfold resolve_sleep. by destruct (expired now step).
  - case_bool_decide; [|by intros [= <-]]. unfold resolve_child. bind_ok as child Ec.
    repeat (case_match; try done); try (bind_ok as inherited Ei); by intros [= <-].
Qed.

(** A wait for messages that can be answered: its time is over, or a message it may take
    is in the mailbox. *)
Definition answerable (generation : Z) (signals : list Signal) (s : StepCheckpoint) (t : bytes) : Prop :=
  st_state s = lit "running" ∧ st_kind s = lit "wait_signal" ∧ st_signal_type s = Some t ∧
  (expired now s = true ∨ ∃ sg, sg ∈ signals ∧ deliverable now generation s t sg = true).

Lemma earliest_signal_Some l sg : sg ∈ l → is_Some (earliest_signal l).
Proof. destruct l as [|x l]; [by intros ?%elem_of_nil|]. intros _. cbn. by destruct (earliest_signal l). Qed.

Lemma resolve_step_answers generation j c p s t j' c' p' : answerable generation (j_signals j) s t →
  resolve_step policy w now to_rfc3339 generation (j, c, p) s = Ok (j', c', p') → p' = true.
Proof.
  intros (Hst & Hk & Ht & Hans). unfold resolve_step. rewrite bool_decide_true by done. cbn [negb].
  bind_ok as r Er. assert (rs_output r ≠ None) as Ho.
  { revert Er. rewrite Hk, bool_decide_false, bool_decide_true by (done || intros; lits).
    unfold resolve_signal. rewrite Ht. cbn [ok_or mbind result_bind]. cbn [rs_signals unresolved].
    destruct (earliest_signal _) eqn:Ee.
    - bind_ok as [] E1. bind_ok as at_ E2. bind_ok as sg E3. by intros [= <-].
    - intros [= <-]. destruct Hans as [He|(sg & Hin & Hd)]; [by unfold resolve_sleep; rewrite He|].
      destruct (earliest_signal_Some _ sg (proj2 (elem_of_lfilter _ _ _) (conj Hin Hd))) as [x Hx]. congruence. }
  rewrite bool_decide_false by done. cbn [andb]. bind_ok as j1 Ej. by intros [= _ _ <-].
Qed.

Lemma resolve_loop_answers generation signals s t rest : answerable generation signals s t → ∀ j c p j' c' p',
  p = true ∨ j_signals j = signals ∧ s ∈ rest →
  try_fold (resolve_step policy w now to_rfc3339 generation) (j, c, p) rest = Ok (j', c', p') → p' = true.
Proof.
  intros Hans. induction rest as [|x rest IH]; intros j c p j' c' p' Hp; cbn [try_fold].
  { intros [= <- <- <-]. by destruct Hp as [?|[_ ?%elem_of_nil]]. }
  bind_ok as [[j1 c1] p1] E1. apply IH. destruct Hp as [->|[Hs Hin]].
  - left. by apply resolve_step_mailbox in E1 as [?|[? _]].
  - apply elem_of_cons in Hin as [<-|Hin]; [left; subst signals; by eapply resolve_step_answers|].
    apply resolve_step_mailbox in E1 as [->|[-> Hj]]; [by left|right]. by rewrite Hj.
Qed.

(** A resolution that meets an answerable wait settles a step. *)
Lemma resolve_answers generation j s t j' progress : journal_ok B j → s ∈ j_steps j →
  answerable generation (j_signals j) s t →
  resolve policy w now to_rfc3339 generation j = Ok (j', progress) → progress = true ∧ some_settled j j'.
Proof.
  intros Hok Hin Hans. unfold resolve. bind_ok as c Ec. bind_ok as [[j1 c1] p1] E1. intros [= <- <-]. cbn.
  assert (p1 = true) as -> by (refine (resolve_loop_answers _ _ _ _ _ Hans _ _ _ _ _ _ _ E1); by right).
  split; [done|]. by apply (resolve_loop_progress generation _ 0) in E1 as [?|?].
Qed.
(** ** Resolutions that do not fail *)

(** Distinct messages whose sequences are valid and whose times can be represented. *)
Definition readable_mailbox (signals : list Signal) : Prop :=
  NoDup (sg_id <$> signals) ∧
  Forall (λ s, w_sequence w (sg_sequence s) = Ok tt ∧ is_Some (from_timestamp_millis (sg_created_at s))) signals.

(** The other tables answer for the children a step waits on. *)
Definition child_answers (s : StepCheckpoint) : Prop :=
  st_kind s = lit "child" →
  (∃ child, w_child w (st_ordinal s) = Ok child) ∧ ∃ reference, w_inherit w (st_ordinal s) = Ok reference.

Lemma earliest_signal_in l sg : earliest_signal l = Some sg → sg ∈ l.
Proof.
  revert sg. induction l as [|x l IH]; intros sg; cbn; [done|].
  destruct (earliest_signal l) as [y|]; [|intros [= ->]; by left].
  destruct (before x y); intros [= <-]; [by left|right; by apply IH].
Qed.

Lemma consume_total generation ordinal signals sg : readable_mailbox signals → sg ∈ signals → sg_consumed sg = None →
  ∃ signals', consume generation ordinal (sg_id sg) signals = Ok signals' ∧ readable_mailbox signals'.
Proof.
  intros [Hnd Hf] Hin Hc. unfold consume. set (hit := λ s, bool_decide (sg_id s = sg_id sg) && _).
  assert (List.filter hit signals = [sg]) as ->.
  { clear Hf. induction signals as [|x l IH]; [by apply elem_of_nil in Hin|].
    rewrite fmap_cons, NoDup_cons in Hnd. destruct Hnd as [Hx Hnd]. cbn [List.filter].
    apply elem_of_cons in Hin as [->|Hin].
    - assert (hit x = true) as -> by (unfold hit; by rewrite !bool_decide_true). f_equal.
      apply lfilter_none. intros y Hy. unfold hit. rewrite bool_decide_false; [done|].
      intros E. apply Hx. rewrite <- E. by apply list_elem_of_fmap_2.
    - assert (hit x = false) as ->; [|by apply IH]. unfold hit. rewrite bool_decide_false; [done|].
      intros E. apply Hx. rewrite E. by apply list_elem_of_fmap_2. }
  eexists. split; [done|]. split.
  - match goal with |- NoDup ?l => assert (l = sg_id <$> signals) as ->; [|done] end.
    change (map ?f signals) with (f <$> signals). rewrite <- list_fmap_compose. apply list_fmap_ext.
    intros i x _. cbn. by destruct (_ && _).
  - apply Forall_fmap. eapply Forall_impl; [exact Hf|]. intros x Hx. cbn. by destruct (_ && _).
Qed.

Lemma resolve_signal_total generation step r : is_Some (st_signal_type step) → readable_mailbox (rs_signals r) →
  ∃ r', resolve_signal w now to_rfc3339 generation step r = Ok r' ∧ readable_mailbox (rs_signals r').
Proof.
  intros [t Ht] Hm. unfold resolve_signal. rewrite Ht. cbn [ok_or mbind result_bind].
  destruct (earliest_signal _) as [sg|] eqn:E.
  - apply earliest_signal_in, elem_of_lfilter in E as [Hin Hd].
    destruct (proj1 (Forall_forall _ _) (proj2 Hm) sg Hin) as [-> [at_ ->]]. cbn [ok_or mbind result_bind].
    destruct (consume_total generation (st_ordinal step) _ sg Hm Hin) as (signals' & -> & Hm').
    { unfold deliverable in Hd. rewrite !andb_true_iff, !bool_decide_eq_true in Hd. naive_solver. }
    eexists. split; [done|]. exact Hm'.
  - eexists. split; [done|]. unfold resolve_sleep. by destruct (expired now step).
Qed.

Lemma resolve_child_total step r : st_kind step = lit "child" → child_answers step → readable_mailbox (rs_signals r) →
  ∃ r', resolve_child policy w now step r = Ok r' ∧ readable_mailbox (rs_signals r').
Proof.
  intros Hk Ha Hm. destruct (Ha Hk) as [[child Hc] [reference Hi]]. unfold resolve_child. rewrite Hc, Hi.
  cbn [mbind result_bind]. repeat case_match; by eexists.
Qed.

Lemma resolve_step_total generation j c p step i : journal_ok B j → j_steps j !! i = Some step →
  readable_mailbox (j_signals j) → child_answers step → (j_revision j < i64_max)%Z →
  ∃ j' c' p', resolve_step policy w now to_rfc3339 generation (j, c, p) step = Ok (j', c', p') ∧
    readable_mailbox (j_signals j') ∧ (j_revision j' ≤ j_revision j + 1)%Z.
Proof.
  intros Hok Hi Hm Ha Hr. unfold resolve_step. case_bool_decide as Hrun; cbn [negb]; [|do 3 eexists; split; [done|split; [done|lia]]].
  set (r0 := unresolved _ _ _). assert (readable_mailbox (rs_signals r0)) as Hm0 by done.
  match goal with |- context [mbind _ ?m] => assert (∃ r, m = Ok r ∧ readable_mailbox (rs_signals r)) as (r & -> & Hmr) end.
  { case_bool_decide; [eexists; split; [done|]; unfold resolve_sleep; by destruct (expired now step)|].
    case_bool_decide; [apply resolve_signal_total; [|done]|].
    { by apply (so_signal B step); [apply (proj1 (Forall_lookup _ _) (jo_steps _ _ Hok) i)|..]. }
    case_bool_decide; [by apply resolve_child_total|by eexists]. }
  cbn [mbind result_bind]. destruct (_ && _); [do 3 eexists; split; [done|split; [done|cbn; lia]]|].
  rewrite j_steps_lookup in Hi. destruct (j_rows j !! i) as [q|] eqn:Eq; [|done]. injection Hi as Hi.
  rewrite (save_checkpoint_total _ _ q); [|by eapply list_elem_of_lookup_2|by cbn; rewrite Hi|done].
  do 3 eexists. split; [done|]. split; [done|]. cbn. lia.
Qed.

Lemma resolve_loop_total generation rest : ∀ k j c p, journal_ok B j → rest = drop k (j_steps j) →
  readable_mailbox (j_signals j) → Forall child_answers rest → (j_revision j + Z.of_nat (length rest) ≤ i64_max)%Z →
  ∃ j' c' p', try_fold (resolve_step policy w now to_rfc3339 generation) (j, c, p) rest = Ok (j', c', p').
Proof.
  induction rest as [|s rest IH]; intros k j c p Hok Hd Hm Ha Hr; cbn [try_fold]; [by do 3 eexists|].
  assert (j_steps j !! k = Some s) as Hk by (rewrite <- (Nat.add_0_r k), <- lookup_drop, <- Hd; done).
  apply Forall_cons in Ha as [Hs Ha]. cbn [length] in Hr.
  destruct (resolve_step_total generation j c p s k) as (j1 & c1 & p1 & E1 & Hm1 & Hr1); [done..|lia|].
  pose proof (resolve_step_ok _ _ _ _ _ _ _ _ k Hok Hk E1) as (Hok1 & Hl1 & Hrows & _).
  rewrite E1. cbn [mbind result_bind]. apply (IH (S k)); [done| |done..|lia].
  rewrite (drop_unchanged j j1 k) by done. rewrite (drop_S _ _ _ Hk) in Hd. congruence.
Qed.

(** A resolution fails only for what other tables answer, for an output total or a
    journal revision that cannot be represented. *)
Lemma resolve_succeeds generation j total : journal_ok B j → readable_mailbox (j_signals j) →
  Forall child_answers (j_steps j) → carried_outputs (j_steps j) = Ok total →
  (j_revision j + Z.of_nat (length (j_rows j)) ≤ i64_max)%Z →
  ∃ j' progress, resolve policy w now to_rfc3339 generation j = Ok (j', progress).
Proof.
  intros Hok Hm Ha Hc Hr. unfold resolve. rewrite Hc. cbn [mbind result_bind].
  destruct (resolve_loop_total generation (j_steps j) 0 j total false) as (j' & c' & p' & ->);
    [done..|by rewrite length_j_steps|]. by do 2 eexists.
Qed.
End invariant.

(** C36: the journal keeps its invariant. Appending a folded batch within the attempt
    budget and resolving waits both preserve it: ordinals without gaps, every [run] step
    executed at least once and at most [B] times, only such steps retrying, and then with
    attempts and a due time left, and a wait row for exactly the steps that wait. *)
Theorem journal_invariant `{Chrono} (policy : AppPolicy) (w : World) (now B : Z)
    (to_rfc3339 : Z → bytes) (generation : Z) (checkpoints : list StepCheckpoint) (j j' : Journal)
    (progress : bool) : (1 ≤ B)%Z → journal_ok B j → Forall (folded B) checkpoints →
  (append policy w now checkpoints j = Ok j' → journal_ok B j') ∧
  (resolve policy w now to_rfc3339 generation j = Ok (j', progress) → journal_ok B j').
Proof.
  intros HB Hj Hf. split; [by apply append_ok|]. intros E. by apply resolve_ok with (B := B) in E as (? & _ & _).
Qed.

(** Resolving waits settles steps and nothing else: every changed row was a running
    step, is now completed or failed, and is still the operation it was; without progress
    no row changes. *)
Theorem resolve_settles `{Chrono} (policy : AppPolicy) (w : World) (now B : Z)
    (to_rfc3339 : Z → bytes) (generation : Z) (j j' : Journal) (progress : bool) : journal_ok B j →
  resolve policy w now to_rfc3339 generation j = Ok (j', progress) →
  settles j j' ∧ (progress = false → j_rows j' = j_rows j).
Proof. intros Hj E. by apply resolve_ok with (B := B) in E as (_ & ? & ?). Qed.
