(* ===== verification/Frontier.v ===== *)
(** One workflow run: its row, generation, journal and tasks, and the operations that
    move it - dispatch, completion of a task, lease recovery and rollback
    ([zeroship-workflow/src/service/frontier.rs], [tasks.rs] and the revision of
    [publication.rs]), pause, resume and cancel ([control.rs]), cascades
    ([propagation/application.rs]), replacement by key ([app.rs]), restart
    ([control/restart.rs], [control/replay.rs]), and messages ([signals.rs], [fanout]). Each operation is a transaction: it returns the
    run it commits, or an error and no change. What it does to other runs is recorded as a
    list of effects. *)

From S2P Require Export Journal.

Inductive ControlIntent := NoControl | PauseIntent | CancelIntent.
#[global] Instance control_eq_dec : EqDecision ControlIntent.
Proof. solve_decision. Defined.

Inductive RunOperation := OpPause | OpResume | OpCancel.
#[global] Instance operation_eq_dec : EqDecision RunOperation.
Proof. solve_decision. Defined.

Inductive TaskState := Leased | Expired | Released | TaskCompleted.
#[global] Instance task_state_eq_dec : EqDecision TaskState.
Proof. solve_decision. Defined.

(** What a worker is told about its report, now and whenever it asks again. *)
Record CompletionReceipt := mk_receipt {
  rc_task_id : bytes;
  rc_generation : Z;
  rc_state : RunState;
  rc_committed_at : Z
}.

Record Task := mk_task {
  tk_id : bytes;
  tk_generation : Z;
  tk_epoch : Z;
  tk_deadline : Z;
  tk_state : TaskState;
  tk_frontier_revision : Z;
  tk_journal_revision : Z;
  tk_receipt : option (bytes * CompletionReceipt)
}.

(** The run's row. *)
Record RunRow := mk_run_row {
  run_state : RunState;
  run_control : ControlIntent;
  run_task_id : option bytes;
  run_due_at : option Z;
  run_compensation_target : option RunState;
  run_key : option bytes;
  run_terminal_at : option Z;
  run_generation : Z;
  run_lease_epoch : Z;
  run_frontier_revision : Z
}.

(** The row of its current generation. *)
Record Generation := mk_generation {
  gen_error : option Value;
  gen_output_ref : option WorkflowOutputRef;
  gen_terminal : option (RunState * Z);
  gen_successor : option bytes
}.

(** What an operation asks of other tables and runs. *)
Inductive Effect :=
  | CascadeToChildren (generation : Z)
  | NotifyParents (generation : Z)
  | EmitTerminal (generation : Z) (state : RunState)
  | EmitSignal (id : bytes)
  | EmitStart
  | EmitRestart (generation : Z)
  | CloseGeneration (generation : Z)
  | Publish (generation revision due : Z).

Record Run := mk_run {
  r_row : RunRow;
  r_gen : Generation;
  r_journal : Journal;
  r_tasks : list Task;
  r_effects : list Effect
}.

Definition r_steps (r : Run) : list StepCheckpoint := j_steps (r_journal r).

(** Columns written together. *)
Definition set_row (state : RunState) (control : ControlIntent) (task : option bytes)
    (due : option Z) (r : RunRow) : RunRow :=
  mk_run_row state control task due (run_compensation_target r) (run_key r) (run_terminal_at r)
    (run_generation r) (run_lease_epoch r) (run_frontier_revision r).
Definition on_row (f : RunRow → RunRow) (r : Run) : Run :=
  mk_run (f (r_row r)) (r_gen r) (r_journal r) (r_tasks r) (r_effects r).
Definition on_journal (j : Journal) (r : Run) : Run :=
  mk_run (r_row r) (r_gen r) j (r_tasks r) (r_effects r).
Definition with_effect (e : Effect) (r : Run) : Run :=
  mk_run (r_row r) (r_gen r) (r_journal r) (r_tasks r) (r_effects r ++ [e]).

(** ** Publication *)

(** A due run without a live task that is not terminal is published at its revision. *)
Definition publish (r : Run) : Run :=
  match run_due_at (r_row r), run_task_id (r_row r) with
  | Some due, None =>
      if is_terminal (run_state (r_row r)) then r
      else with_effect (Publish (run_generation (r_row r)) (run_frontier_revision (r_row r)) due) r
  | _, _ => r
  end.

Definition advance (r : Run) : wresult Run :=
  if (i64_max <=? run_frontier_revision (r_row r))%Z
  then Err (ResourceExhausted "workflow frontier revision exhausted")
  else Ok (publish (on_row (λ q, mk_run_row (run_state q) (run_control q) (run_task_id q) (run_due_at q)
             (run_compensation_target q) (run_key q) (run_terminal_at q) (run_generation q)
             (run_lease_epoch q) (run_frontier_revision q + 1)) r)).

(** ** Rest states *)

(** The tasks reclaimed without an outcome since the journal last moved. *)
Definition stuck_dispatches (r : Run) : Z :=
  Z.of_nat (length (List.filter (λ t,
    (tk_generation t =? run_generation (r_row r))%Z
    && (tk_frontier_revision t =? run_frontier_revision (r_row r))%Z
    && (tk_journal_revision t =? j_revision (r_journal r))%Z
    && bool_decide (tk_state t = Expired)) (r_tasks r))).

(** An obligation still owed: a compensator pending or running. *)
Definition owed (s : StepCheckpoint) : bool :=
  match st_compensation_state s with
  | Some state => bool_decide (state = lit "pending") || bool_decide (state = lit "running")
  | None => false
  end.

Definition has_compensation (r : Run) : bool := existsb owed (r_steps r).

(** The newest step that owes its compensator. *)
Definition pending_compensation (r : Run) : wresult StepRow :=
  ok_or (List.find (λ q, owed (row_step q)) (rev (j_rows (r_journal r))))
    (Internal "compensating workflow has no pending operation").

Definition park (r : Run) : Run :=
  on_row (λ q, set_row SPaused (run_control q) None None q) r.

(** [TaskInspection::validate_at]. *)
Definition validate_task (now : Z) (task : Task) (r : Run) : wresult unit :=
  let q := r_row r in
  if negb (bool_decide (tk_state task = Leased)) || (tk_deadline task <=? now)%Z
     || negb (bool_decide (run_task_id q = Some (tk_id task)))
     || negb (run_generation q =? tk_generation task)%Z || negb (run_lease_epoch q =? tk_epoch task)%Z
     || negb (run_frontier_revision q =? tk_frontier_revision task)%Z
  then Err (Conflict "workflow task lease is no longer current") else Ok tt.

Section frontier.
Context `{Chrono}.
Variables (policy : AppPolicy) (w : World) (now : Z) (to_rfc3339 : Z → bytes).

Definition effective_control (r : Run) : ControlIntent :=
  let recorded := run_control (r_row r) in
  if bool_decide (recorded = CancelIntent) || negb (w_fenced w) then recorded else CancelIntent.

Definition finish_run (state : RunState) (error : option Value) (successor : option bytes)
    (notify_parents : bool) (r : Run) : Run :=
  let q := r_row r in
  let g := r_gen r in
  let j := r_journal r in
  let r := mk_run
    (mk_run_row state NoControl None None (run_compensation_target q) None (Some now)
       (run_generation q) (run_lease_epoch q) (run_frontier_revision q))
    (mk_generation error (gen_output_ref g) (Some (state, now)) successor)
    (mk_journal (j_rows j) [] (j_signals j) (j_revision j)) (r_tasks r) (r_effects r) in
  let r := if notify_parents && w_current w then with_effect (NotifyParents (run_generation q)) r else r in
  with_effect (EmitTerminal (run_generation q) state) r.

Definition finish (state : RunState) (error : option Value) (r : Run) : Run :=
  finish_run state error None true r.

Definition parse_state (value : bytes) : wresult RunState :=
  map_err (λ _, Internal "unknown workflow state") (run_state_from_str value).

(** A failed or cancelled run rolls back first when compensators are owed. *)
Definition settle (update : RunUpdate) (r : Run) : wresult (RunState * Run) :=
  target ← parse_state (update_state update);
  let r := with_effect (CascadeToChildren (run_generation (r_row r))) r in
  if has_compensation r then
    let g := r_gen r in
    Ok (SCompensating,
        mk_run (mk_run_row SCompensating NoControl None (Some now) (Some target) (run_key (r_row r))
                  (run_terminal_at (r_row r)) (run_generation (r_row r)) (run_lease_epoch (r_row r))
                  (run_frontier_revision (r_row r)))
          (mk_generation (update_error update) (gen_output_ref g) (gen_terminal g) (gen_successor g))
          (r_journal r) (r_tasks r) (r_effects r))
  else Ok (target, finish target (update_error update) r).

(** ** Suspension *)

Definition min_option (l : list Z) : option Z :=
  match l with [] => None | x :: l => Some (foldl Z.min x l) end.
Definition wake_millis (s : StepCheckpoint) : option Z := timestamp_millis <$> st_wake_at s.

Definition is_retrying (s : StepCheckpoint) : bool := bool_decide (st_state s = lit "retrying").
Definition is_pending (s : StepCheckpoint) : bool := bool_decide (st_state s = lit "running").

Definition suspend (progressed : bool) (r : Run) : RunState * Run :=
  let pending := List.filter is_pending (r_steps r) in
  let retry := min_option (omap wake_millis (List.filter is_retrying (r_steps r))) in
  let state :=
    if bool_decide (is_Some retry) || bool_decide (pending = []) || progressed then SQueued
    else if forallb (λ s, bool_decide (st_kind s = lit "sleep")) pending then SSleeping
    else SWaiting in
  let due :=
    match retry with
    | Some retry => Some (Z.max retry now)
    | None => if bool_decide (state = SQueued) then Some now else min_option (omap wake_millis pending)
    end in
  (state, on_row (λ q, set_row state (run_control q) None due q) r).

(** ** Rollback *)

Definition compensation_ready (r : Run) : wresult (bool * Run) :=
  pending ← pending_compensation r;
  let due := default now (row_compensation_due_at pending) in
  if (now <? due)%Z
  then Ok (false, on_row (λ q, set_row (run_state q) (run_control q) (run_task_id q) (Some due) q) r)
  else Ok (true, r).

Definition count_state (state : bytes) (steps : list StepCheckpoint) : Z :=
  Z.of_nat (length (List.filter (λ s, bool_decide (st_compensation_state s = Some state)) steps)).

Definition compensation_failures (r : Run) : list Value :=
  omap (λ q, error ← row_compensation_error q;
             Some (Object [(lit "ordinal", Num (NInt (st_ordinal (row_step q)))); (lit "error", error)]))
    (rev (j_rows (r_journal r))).

Definition compensated_error (original : option Value) (steps : list StepCheckpoint)
    (failures : list Value) (abandonment : option (list Value * Value)) : Value :=
  let completed := count_state (lit "completed") steps in
  let failed := count_state (lit "failed") steps in
  let outcome := if bool_decide (is_Some abandonment) then lit "abandoned"
                 else if bool_decide (failures = []) then lit "completed" else lit "partial" in
  let summary := [(lit "total", Num (NInt (completed + failed))); (lit "completed", Num (NInt completed));
                  (lit "failed", Num (NInt failed)); (lit "outcome", Str outcome)] in
  let summary := if bool_decide (failures = []) then summary
                 else map_insert (lit "failures") (Array failures) summary in
  let summary := match abandonment with
                 | Some (steps, reason) =>
                     map_insert (lit "reason") reason (map_insert (lit "abandoned") (Array steps) summary)
                 | None => summary
                 end in
  let error := match original with
               | Some (Object entries) => entries
               | Some cause => [(lit "type", Str (lit "Error"));
                                (lit "message", Str (lit "workflow failed during compensation"));
                                (lit "cause", cause)]
               | None => [(lit "type", Str (lit "Error"));
                          (lit "message", Str (lit "workflow compensation finished"))]
               end in
  Object (map_insert (lit "compensation") (Object summary) error).

(** The result of one compensator, for the newest obligation. *)
Definition compensation_report (outcomes : list StepOutcome) :
    wresult (Z * bytes * Z * option Value) :=
  match outcomes with
  | [CompensationCompleted ordinal name occurrence] => Ok (ordinal, name, occurrence, None)
  | [CompensationFailed ordinal name occurrence error] => Ok (ordinal, name, occurrence, Some error)
  | _ => invalid "compensation task requires a compensation outcome"
  end.

(** The compensation columns of a row. *)
Definition set_compensation (ordinal attempts : Z) (due : option Z) (error : option Value)
    (rows : list StepRow) : list StepRow :=
  map (λ q, if (st_ordinal (row_step q) =? ordinal)%Z
            then mk_step_row (row_step q) attempts (row_compensation_retry_ms q) due error else q) rows.

Definition compensate (outcomes : list StepOutcome) (r : Run) : wresult (RunState * Run) :=
  pending ← pending_compensation r;
  report ← compensation_report outcomes;
  let '(ordinal, name, occurrence, error) := report in
  if negb (ordinal =? st_ordinal (row_step pending))%Z || negb (bool_decide (name = st_name (row_step pending)))
     || negb (occurrence =? st_name_occurrence (row_step pending))%Z
  then invalid "compensation outcome does not match the pending operation"
  else
    if (i64_max <? row_compensation_attempts pending + 1)%Z
    then Err (Internal "compensation attempt overflow")
    else
      let attempts := (row_compensation_attempts pending + 1)%Z in
      let retry := bool_decide (is_Some error)
                   && (attempts <? st_compensation_max_attempts (row_step pending))%Z in
      let state := if retry then lit "pending"
                   else if bool_decide (is_Some error) then lit "failed" else lit "completed" in
      j ← save_checkpoint (with_compensation state (row_step pending)) (r_journal r);
      due ← (if retry then Some <$> deadline now (row_compensation_retry_ms pending) else Ok None);
      let r := on_journal (mk_journal (set_compensation ordinal attempts due error (j_rows j)) (j_waits j)
                 (j_signals j) (j_revision j)) r in
      if has_compensation r then
        if bool_decide (effective_control r = PauseIntent) then Ok (SPaused, park r)
        else Ok (SCompensating,
                 on_row (λ q, set_row (run_state q) (run_control q) None (Some (default now due)) q) r)
      else
        let failures := compensation_failures r in
        state ← (if bool_decide (failures = [])
                 then ok_or (run_compensation_target (r_row r)) (Internal "missing compensation target")
                 else Ok SFailed);
        Ok (state, finish state (Some (compensated_error (gen_error (r_gen r)) (r_steps r) failures None)) r).

(** Every obligation is marked abandoned, newest first, one journal update each. *)
Definition abandon_step (acc : Journal * list Value) (q : StepRow) : wresult (Journal * list Value) :=
  if negb (owed (row_step q)) then Ok acc
  else
    j ← save_checkpoint (with_compensation (lit "abandoned") (row_step q)) acc.1;
    Ok (j, acc.2 ++ [Object [(lit "ordinal", Num (NInt (st_ordinal (row_step q))));
                             (lit "name", Str (st_name (row_step q)))]]).

Definition abandon (reason : Value) (r : Run) : wresult (RunState * Run) :=
  acc ← try_fold abandon_step (r_journal r, []) (rev (j_rows (r_journal r)));
  if bool_decide (acc.2 = []) then Err (Internal "compensating workflow has no pending operation")
  else
    let r := on_journal acc.1 r in
    let error := compensated_error (gen_error (r_gen r)) (r_steps r) (compensation_failures r)
                   (Some (acc.2, reason)) in
    Ok (SFailed, finish SFailed (Some error) r).

(** ** Dispatch *)

Definition attempt_due (s : StepCheckpoint) : bool :=
  is_retrying s && match wake_millis s with Some at_ => (at_ <=? now)%Z | None => true end.

(** Control intent and durable waits, before an executor is assigned. *)
Definition prepare (r : Run) : wresult (bool * Run) :=
  let intent := effective_control r in
  if bool_decide (intent = CancelIntent) then
    res ← settle Cancelled r;
    if has_compensation res.2 then compensation_ready res.2 else Ok (false, res.2)
  else if bool_decide (intent = PauseIntent) then Ok (false, park r)
  else
    let compensating := bool_decide (run_state (r_row r) = SCompensating) in
    let stuck := stuck_dispatches r in
    if (max_stuck_dispatches policy <=? stuck)%Z then
      let reason := stalled_error stuck (max_stuck_dispatches policy) in
      if compensating then res ← abandon reason r; Ok (false, res.2)
      else Ok (false, finish SStalled (update_error (Stalled reason)) r)
    else if compensating then compensation_ready r
    else
      res ← resolve policy w now to_rfc3339 (run_generation (r_row r)) (r_journal r);
      let '(j, progressed) := res in
      let r := on_journal j r in
      if existsb is_pending (r_steps r) && negb progressed && negb (existsb attempt_due (r_steps r))
      then Ok (false, (suspend false r).2)
      else Ok (true, r).

Inductive ReadyClaim := Assigned (task : Task) | DeploymentUnavailable | PolicyOff | AtCap.

Definition assign (lease : Z) (r : Run) : wresult (ReadyClaim * Run) :=
  if negb (w_available w) then Ok (DeploymentUnavailable, r)
  else if negb (admission policy) || negb (dispatch policy) || (max_running policy =? 0)%Z
  then Ok (PolicyOff, r)
  else if (max_running policy <=? w_running w)%Z then Ok (AtCap, r)
  else
    let q := r_row r in
    _ ← w_invocation w;
    if (i64_max <? run_lease_epoch q + 1)%Z then Err (ResourceExhausted "workflow lease epoch exhausted")
    else
      expires ← deadline now (Z.min lease (lease_ms policy));
      let epoch := (run_lease_epoch q + 1)%Z in
      let task := mk_task (w_task_id w) (run_generation q) epoch expires Leased (run_frontier_revision q)
                    (j_revision (r_journal r)) None in
      if bool_decide (is_Some (run_task_id q))
      then Err (Conflict "workflow task lease is no longer current")
      else
        let state := if bool_decide (run_state q = SCompensating) then SCompensating else SRunning in
        Ok (Assigned task,
            mk_run (mk_run_row state (run_control q) (Some (w_task_id w)) (Some expires)
                      (run_compensation_target q) (run_key q) (run_terminal_at q) (run_generation q)
                      epoch (run_frontier_revision q))
              (r_gen r) (r_journal r) (r_tasks r ++ [task]) (r_effects r)).

(** The tasks a filter selects are patched. *)
Definition mark_tasks (hit : Task → bool) (patch : Task → Task) (tasks : list Task) : list Task :=
  map (λ t, if hit t then patch t else t) tasks.
Definition set_task (deadline : Z) (state : TaskState) (receipt : option (bytes * CompletionReceipt))
    (t : Task) : Task :=
  mk_task (tk_id t) (tk_generation t) (tk_epoch t) deadline state (tk_frontier_revision t)
    (tk_journal_revision t) receipt.
Definition close_task (state : TaskState) (t : Task) : Task := set_task (tk_deadline t) state (tk_receipt t) t.

(** Lease recovery of a run whose task did not report in time. *)
Definition reclaim (r : Run) : wresult Run :=
  match run_task_id (r_row r) with
  | None => Ok r
  | Some task =>
      let q := r_row r in
      let hit t := bool_decide (tk_id t = task) && (tk_generation t =? run_generation q)%Z
                   && (tk_epoch t =? run_lease_epoch q)%Z && bool_decide (tk_state t = Leased)
                   && (tk_deadline t <=? now)%Z in
      if negb (length (List.filter hit (r_tasks r)) =? 1)
      then Err (Internal "workflow lease frontier disagrees with its task")
      else Ok (mk_run (set_row (run_state q) (run_control q) None (run_due_at q) q) (r_gen r) (r_journal r)
                 (mark_tasks hit (close_task Expired) (r_tasks r)) (r_effects r))
  end.

(** The transaction of [poll_inner] for one run the service selected and no delivered job
    owns. *)
Definition poll (r : Run) : wresult (option Task * Run) :=
  if match run_due_at (r_row r) with Some due => (now <? due)%Z | None => true end
     || is_terminal (run_state (r_row r))
  then Ok (None, r)
  else
    r ← reclaim r;
    res ← prepare r;
    if (res.1 : bool) then
      claim ← assign (lease_ms policy) res.2;
      Ok (match claim.1 with Assigned task => Some task | _ => None end, claim.2)
    else r ← advance res.2; Ok (None, r).

(** ** Reports *)

(** The attempts an outcome declares, which must be within the app's budget. *)
Definition declared_attempts (o : StepOutcome) : option Z :=
  match o with
  | StepCompleted _ _ _ _ _ compensation_max_attempts _ _ => Some compensation_max_attempts
  | StepFailed _ _ _ _ max_attempts => Some max_attempts
  | RunFailed (Some _) _ _ _ max_attempts => Some max_attempts
  | _ => None
  end.

Definition is_compensation (o : StepOutcome) : bool :=
  match o with CompensationCompleted _ _ _ | CompensationFailed _ _ _ _ => true | _ => false end.

Definition unresolved_operations (r : Run) : bool :=
  existsb (λ s, is_pending s || is_retrying s) (r_steps r).

(** A run that reports its result. *)
Definition complete_run (output : option Value) (output_ref : option WorkflowOutputRef) (r : Run) :
    wresult (RunState * Run) :=
  if bool_decide (is_Some output) then invalid "workflow run output must be a staged reference"
  else
    r ← match output_ref with
        | Some reference =>
            _ ← w_promote w None reference;
            let g := r_gen r in
            Ok (mk_run (r_row r) (mk_generation (gen_error g) (Some reference) (gen_terminal g)
                                    (gen_successor g)) (r_journal r) (r_tasks r) (r_effects r))
        | None => Ok r
        end;
    if unresolved_operations r then invalid "workflow cannot complete with unresolved operations"
    else Ok (SCompleted, finish SCompleted None r).

(** A run that hands its work to a successor. *)
Definition continue_run (seed_input : option Value) (r : Run) : wresult (RunState * Run) :=
  if bool_decide (is_Some seed_input) then invalid "workflow continuation input must be a staged reference"
  else if unresolved_operations r then invalid "workflow cannot continue with unresolved operations"
  else if has_compensation r then settle (Failed compensable_carry_error) r
  else
    _ ← policy_admit policy;
    successor ← w_successor w;
    Ok (SContinuedAsNew, finish_run SContinuedAsNew None (Some successor) false r).

Definition apply_forward (outcomes : list StepOutcome) (r : Run) : wresult (RunState * Run) :=
  if existsb is_compensation outcomes
  then invalid "forward task cannot submit compensation results"
  else if existsb (λ o, match declared_attempts o with
                        | Some declared => (declared <=? 0)%Z || (max_step_attempts policy <? declared)%Z
                        | None => false
                        end) outcomes
  then invalid "workflow step retry policy exceeds the app limit"
  else
    res ← map_err InvalidBatch (fold_outcomes outcomes);
    let '(checkpoints, update) := res in
    j ← append policy w now checkpoints (r_journal r);
    let r := on_journal j r in
    let intent := effective_control r in
    if bool_decide (intent = CancelIntent) then settle Cancelled r
    else match update with
         | Stalled error => Ok (SStalled, finish SStalled (Some error) r)
         | Failed _ | Cancelled => settle update r
         | Completed output output_ref => complete_run output output_ref r
         | ContinuedAsNew seed_input _ => continue_run seed_input r
         | _ =>
             if bool_decide (intent = PauseIntent) then Ok (SPaused, park r)
             else
               res ← resolve policy w now to_rfc3339 (run_generation (r_row r)) (r_journal r);
               let '(j, progressed) := res in
               Ok (suspend progressed (on_journal j r))
         end.

Definition apply (outcomes : list StepOutcome) (r : Run) : wresult (RunState * Run) :=
  if bool_decide (outcomes = []) then invalid "workflow completion requires an outcome"
  else if (max_frontier policy <? Z.of_nat (length outcomes))%Z
  then Err (ResourceExhausted "workflow frontier exceeds the configured limit")
  else if (max_input_bytes policy <? w_batch_len w outcomes)%Z then Err PayloadTooLarge
  else if bool_decide (run_state (r_row r) = SCompensating) then compensate outcomes r
  else apply_forward outcomes r.

(** [update_task]: the task's own row, if it is still leased with that deadline. *)
Definition is_task (task t : Task) : bool :=
  bool_decide (tk_id t = tk_id task) && (tk_generation t =? tk_generation task)%Z
  && (tk_epoch t =? tk_epoch task)%Z && (tk_deadline t =? tk_deadline task)%Z
  && bool_decide (tk_state t = Leased).
Definition update_task (task : Task) (patch : Task → Task) (r : Run) : wresult Run :=
  if negb (length (List.filter (is_task task) (r_tasks r)) =? 1)
  then Err (Conflict "workflow task lease is no longer current")
  else Ok (mk_run (r_row r) (r_gen r) (r_journal r) (mark_tasks (is_task task) patch (r_tasks r)) (r_effects r)).

(** A worker keeps its task: the lease moves to a new deadline. Without admission or
    dispatch it is told to pause and keeps the old one. *)
Definition heartbeat (task : Task) (r : Run) : wresult (ControlIntent * Run) :=
  _ ← validate_task now task r;
  let control := effective_control r in
  if negb (admission policy) || negb (dispatch policy)
  then Ok (if bool_decide (control = NoControl) then PauseIntent else control, r)
  else
    expires ← deadline now (lease_ms policy);
    r' ← update_task task (λ t, set_task expires (tk_state t) (tk_receipt t) t) r;
    _ ← validate_task (w_commit_at w) task r;
    Ok (control, on_row (λ q, set_row (run_state q) (run_control q) (run_task_id q) (Some expires) q) r').

(** The commit of a report that was validated. *)
Definition complete_in (task : Task) (outcomes : list StepOutcome) (body_digest : bytes) (r : Run) :
    wresult (CompletionReceipt * Run) :=
  _ ← w_admissible w;
  res ← apply outcomes r;
  r' ← advance res.2;
  _ ← validate_task (w_commit_at w) task r;
  let receipt := mk_receipt (tk_id task) (tk_generation task) res.1 now in
  r' ← update_task task (λ t, set_task (tk_deadline t) TaskCompleted (Some (body_digest, receipt)) t) r';
  Ok (receipt, r').

(** A worker reports the outcomes of its task. A report that was committed before is
    answered with its receipt. *)
Definition complete (task : Task) (outcomes : list StepOutcome) (r : Run) :
    wresult (CompletionReceipt * Run) :=
  let body_digest := w_digest w outcomes in
  if bool_decide (tk_state task = TaskCompleted) then
    match tk_receipt task with
    | Some (digest, receipt) =>
        if bool_decide (digest = body_digest) then Ok (receipt, r)
        else Err (Conflict "workflow task was completed with another result")
    | None => Err (Conflict "workflow task was completed with another result")
    end
  else
    _ ← validate_task now task r;
    complete_in task outcomes body_digest r.

(** A worker gives its task back, once. *)
Definition release (task : Task) (r : Run) : wresult Run :=
  if bool_decide (tk_state task = Released) then Ok r
  else
    _ ← validate_task now task r;
    r ← update_task task (close_task Released) r;
    Ok (publish (on_row (λ q, set_row (run_state q) (run_control q) None (Some now) q) r)).

(** ** Lifecycle control *)

Inductive Rejection :=
  | RejectInvalid (message : String.string)
  | RejectConflict (message : String.string)
  | RejectDenied.

Definition transition (operation : RunOperation) (r : Run) : wresult (result Rejection (RunState * Run)) :=
  let q := r_row r in
  let state := run_state q in
  let patch control state due task :=
    on_row (λ q, set_row state control task due q) r in
  if is_terminal state then
    if bool_decide (operation = OpCancel) then Ok (Ok (state, r)) else Ok (Err (RejectConflict "workflow run is terminal"))
  else
    let leased := bool_decide (is_Some (run_task_id q)) in
    match operation with
    | OpPause =>
        if leased then Ok (Ok (state, patch PauseIntent state (run_due_at q) (run_task_id q)))
        else r ← advance (patch PauseIntent SPaused None None); Ok (Ok (SPaused, r))
    | OpResume =>
        if negb (admission policy) then Ok (Err RejectDenied)
        else if leased then Ok (Ok (state, patch NoControl state (run_due_at q) (run_task_id q)))
        else
          let phase := if bool_decide (is_Some (run_compensation_target q)) then SCompensating else SQueued in
          r ← advance (patch NoControl phase (Some now) (run_task_id q)); Ok (Ok (phase, r))
    | OpCancel =>
        if leased then Ok (Ok (state, patch CancelIntent state (run_due_at q) (run_task_id q)))
        else r ← advance (patch CancelIntent state (Some now) (run_task_id q)); Ok (Ok (state, r))
    end.

(** Cancellation as others record it: a leased run keeps its task and sees it at renewal or
    completion, an idle one is made due. *)
Definition cancel_intent (r : Run) : wresult Run :=
  if bool_decide (is_Some (run_task_id (r_row r)))
  then Ok (on_row (λ q, set_row (run_state q) CancelIntent (run_task_id q) (run_due_at q) q) r)
  else advance (on_row (λ q, set_row (run_state q) CancelIntent (run_task_id q) (Some now) q) r).

(** A parent's cascade reaches one child. *)
Definition cascade (r : Run) : wresult Run :=
  if is_terminal (run_state (r_row r)) then Ok r else cancel_intent r.

(** A start that replaces the run that holds its key. *)
Definition replace (r : Run) : wresult Run :=
  cancel_intent (on_row (λ q, mk_run_row (run_state q) (run_control q) (run_task_id q) (run_due_at q)
    (run_compensation_target q) None (run_terminal_at q) (run_generation q) (run_lease_epoch q)
    (run_frontier_revision q)) r).

(** ** Restarts *)

Definition restart_rejection (e : InvalidRestart) : Rejection :=
  match e with
  | PartialLatest => RejectConflict "partial restart cannot change deploy pin"
  | EmptyTargetName => RejectInvalid "restart target name must not be empty"
  | TargetOccurrenceOutOfRange =>
      RejectInvalid "restart target occurrence exceeds the journal ordinal range"
  end.

(** The ordinal a restart replays up to; a target at the first ordinal is the whole run.
    Without a result the target is missing or ambiguous. *)
Definition restart_from (options : RestartOptions) (steps : list StepCheckpoint) : option (option Z) :=
  match ro_from options with
  | None => Some None
  | Some target =>
      let hit s := bool_decide (st_name s = rt_name target)
                   && match rt_occurrence target with
                      | Some occurrence => (occurrence =? st_name_occurrence s)%Z
                      | None => true
                      end in
      match List.filter hit steps with
      | [s] => Some (if (0 <? st_ordinal s)%Z then Some (st_ordinal s) else None)
      | _ => None
      end
  end.

(** [copy_prefix]: the rows below the prefix, as they are. *)
Definition copy_prefix (prefix : Z) (rows : list StepRow) : list StepRow :=
  List.filter (λ q, (st_ordinal (row_step q) <? prefix)%Z) rows.

(** A message a dropped step consumed: one of a topic is purged, a direct one can be
    consumed again. *)
Definition give_back (signals : list Signal) (id : bytes) : list Signal :=
  omap (λ s, if bool_decide (sg_id s = id) then
               if bool_decide (sg_delivery s = lit "topic") then None
               else if bool_decide (sg_delivery s = lit "direct")
               then Some (mk_signal (sg_id s) (sg_type s) (sg_payload s) (sg_created_at s) (sg_sequence s)
                            (sg_origin s) (sg_delivery s) (sg_topic s) (sg_target s) None)
               else Some s
             else Some s) signals.
Definition restart_signals (generation prefix : Z) (steps : list StepCheckpoint) (signals : list Signal) :
    list Signal :=
  let dropped := List.filter (λ s, (prefix <=? st_ordinal s)%Z) steps in
  List.filter (λ s, negb (bool_decide (sg_delivery s = lit "topic")
                          && match sg_target s with
                             | Some (target, ordinal) => (target =? generation)%Z && (prefix <=? ordinal)%Z
                             | None => false
                             end))
    (foldl give_back signals (omap st_consumed_signal_id dropped)).

(** [RestartPlan::apply]: a new generation over the retained prefix. *)
Definition restarted (prefix : Z) (r : Run) : Run :=
  let q := r_row r in
  let j := r_journal r in
  let generation := (run_generation q + 1)%Z in
  let hit t := (tk_generation t =? run_generation q)%Z && bool_decide (tk_state t = Leased) in
  let r' := mk_run
    (mk_run_row SQueued NoControl None (Some now) None (run_key q) None generation (run_lease_epoch q) 1)
    (mk_generation None None None None)
    (mk_journal (copy_prefix prefix (j_rows j)) []
       (restart_signals (run_generation q) prefix (j_steps j) (j_signals j)) (j_revision j))
    (mark_tasks hit (close_task Expired) (r_tasks r)) (r_effects r) in
  let r' := if bool_decide (gen_terminal (r_gen r) = None)
            then with_effect (CloseGeneration (run_generation q)) r' else r' in
  with_effect (EmitRestart generation) (publish r').

Definition restart (options : RestartOptions) (r : Run) : wresult (result Rejection (option Z * Run)) :=
  let q := r_row r in
  let steps := r_steps r in
  if negb (admission policy) then Ok (Err RejectDenied)
  else match effective_deploy options with
  | Err e => Ok (Err (restart_rejection e))
  | Ok deploy_policy =>
  match restart_from options steps with
  | None => Ok (Err (RejectInvalid "restart target is missing or ambiguous"))
  | Some from =>
    let prefix := default 0%Z from in
    let retained := List.filter (λ s, (st_ordinal s <? prefix)%Z) steps in
    if is_terminal (run_state q) && (max_live_runs policy <=? w_live_runs w)%Z
    then Err (ResourceExhausted "workflow live-run limit reached")
    else
      descendants ← w_descendants w;
      children ← w_child_waits w;
      let safety := mk_safety
        (existsb (λ t, (tk_generation t =? run_generation q)%Z && bool_decide (tk_state t = Leased)
                       && (now <? tk_deadline t)%Z) (r_tasks r))
        (descendants || children)
        (bool_decide (is_Some (run_compensation_target q)) && existsb owed steps)
        (existsb (λ s, match st_compensation_state s with
                       | Some state => negb (bool_decide (state = lit "pending"))
                       | None => false
                       end) retained) in
      match restart_check safety with
      | Err (Conflict message) => Ok (Err (RejectConflict message))
      | Err e => Err e
      | Ok _ =>
        if w_fenced w
        then Ok (Err (RejectConflict "workflow cancellation is still propagating to this run"))
        else if existsb (λ s, is_pending s || is_retrying s) retained
        then Ok (Err (RejectConflict "restart prefix contains unresolved operations"))
        else
          bound ← w_bind w deploy_policy;
          match bound with
          | Some message => Ok (Err (RejectConflict message))
          | None =>
              if (i64_max <? run_generation q + 1)%Z
              then Err (ResourceExhausted "workflow generation exhausted")
              else Ok (Ok (from, restarted prefix r))
          end
      end
  end
  end.

(** ** Signals *)

(** A direct message joins the mailbox; a run that waits for its type is made due. *)
Definition deliver (id signal_type origin : bytes) (payload : Value) (sequence : Z) (r : Run) :
    wresult Run :=
  let q := r_row r in
  if is_terminal (run_state q) then Err (Conflict "cannot signal a terminal workflow run")
  else
    let j := r_journal r in
    let s := mk_signal id signal_type payload now sequence origin (lit "direct") None None None in
    let r := on_journal (mk_journal (j_rows j) (j_waits j) (j_signals j ++ [s]) (j_revision j)) r in
    r ← (if bool_decide (run_task_id q = None) && bool_decide (run_control q = NoControl)
            && bool_decide (run_state q = SWaiting)
            && existsb (λ t, bool_decide (wt_signal_type t = Some signal_type)) (j_waits j)
         then advance (on_row (λ q, set_row (run_state q) (run_control q) (run_task_id q) (Some now) q) r)
         else Ok r);
    Ok (with_effect (EmitSignal id) r).

(** [wake_idle] and the frontiers it advances: a run in one of [states] without a task or
    an intent is made due. *)
Definition wake_idle (states : list RunState) (r : Run) : wresult Run :=
  let q := r_row r in
  if bool_decide (run_task_id q = None) && bool_decide (run_control q = NoControl)
     && bool_decide (run_state q ∈ states)
  then advance (on_row (λ q, set_row (run_state q) (run_control q) (run_task_id q) (Some now) q) r)
  else Ok r.

(** A settled child wakes its idle parent. *)
Definition wake (r : Run) : wresult Run := wake_idle [SWaiting; SSleeping; SQueued] r.

(** A run is a recipient of a broadcast at a step that waits for its type. *)
Definition is_recipient (signal_type : bytes) (ordinal : Z) (r : Run) : bool :=
  negb (is_terminal (run_state (r_row r)))
  && existsb (λ t, (wt_ordinal t =? ordinal)%Z && bool_decide (wt_signal_type t = Some signal_type))
       (j_waits (r_journal r)).

(** A page of a broadcast reaches one subscription of the run. *)
Definition materialize (id signal_type origin topic : bytes) (payload : Value)
    (created_at sequence ordinal : Z) (r : Run) : wresult Run :=
  if negb (is_recipient signal_type ordinal r) then Ok r
  else
    let j := r_journal r in
    let s := mk_signal id signal_type payload created_at sequence origin (lit "topic") (Some topic)
               (Some (run_generation (r_row r), ordinal)) None in
    wake_idle [SWaiting] (with_effect (EmitSignal id)
      (on_journal (mk_journal (j_rows j) (j_waits j) (j_signals j ++ [s]) (j_revision j)) r)).
End frontier.

(** ** Starts *)

(** The run a start inserts. *)
Definition new_run (key : option bytes) (now : Z) : Run :=
  with_effect EmitStart
    (publish (mk_run (mk_run_row SQueued NoControl None (Some now) None key None 0 0 1)
       (mk_generation None None None None) (mk_journal [] [] [] 1) [] [])).

(** * The runs a service can reach *)

(** Policies may change between operations; [B] bounds the attempts they grant. *)
Definition grants_within (B : Z) (policy : AppPolicy) : Prop :=
  policy_validate policy = Ok tt ∧ (max_step_attempts policy ≤ B)%Z.

Inductive run_step `{Chrono} (B : Z) (r r' : Run) : Prop :=
  | step_poll policy w now rfc task : grants_within B policy →
      poll policy w now rfc r = Ok (task, r') → run_step B r r'
  | step_complete policy w now rfc task outcomes receipt : grants_within B policy → task ∈ r_tasks r →
      complete policy w now rfc task outcomes r = Ok (receipt, r') → run_step B r r'
  | step_release now task : task ∈ r_tasks r → release now task r = Ok r' → run_step B r r'
  | step_heartbeat policy w now task control : task ∈ r_tasks r →
      heartbeat policy w now task r = Ok (control, r') → run_step B r r'
  | step_transition policy now operation state :
      transition policy now operation r = Ok (Ok (state, r')) → run_step B r r'
  | step_deliver now id signal_type origin payload sequence :
      deliver now id signal_type origin payload sequence r = Ok r' → run_step B r r'
  | step_wake now : wake now r = Ok r' → run_step B r r'
  | step_materialize now id signal_type origin topic payload created_at sequence ordinal :
      materialize now id signal_type origin topic payload created_at sequence ordinal r = Ok r' → run_step B r r'
  | step_cascade now : cascade now r = Ok r' → run_step B r r'
  | step_replace now : is_Some (run_key (r_row r)) → replace now r = Ok r' → run_step B r r'
  | step_restart policy w now options from : restart policy w now options r = Ok (Ok (from, r')) →
      run_step B r r'.

Inductive reachable `{Chrono} (B : Z) : Run → Prop :=
  | reach_new key now : reachable B (new_run key now)
  | reach_step r r' : reachable B r → run_step B r r' → reachable B r'.
