(* ===== verification/FrontierFacts.v ===== *)
(** What every reachable workflow run satisfies, and what its operations do to it: one
    live lease, reports committed once, terminal runs at rest, rollback in reverse order
    that ends, messages that are not lost, silent executors that do not hold a run for
    ever, and restarts that keep the history before their target. *)

From stdpp Require Import relations.
From S2P Require Export JournalFacts Frontier.

(** * Changes that leave the forward journal alone *)

(** Equal up to the compensation columns. *)
Definition same_forward (s s' : StepCheckpoint) : Prop :=
  identity s' = identity s ∧ st_state s' = st_state s ∧ st_attempts s' = st_attempts s ∧
  st_wake_at s' = st_wake_at s ∧ st_signal_type s' = st_signal_type s.

#[global] Instance same_forward_preorder : PreOrder same_forward.
Proof. split; unfold same_forward; [done|]. intros x y z Hxy Hyz. destruct_and!. repeat split; congruence. Qed.

Lemma with_compensation_forward state s : same_forward s (with_compensation state s).
Proof. done. Qed.

Lemma forward_running s s' : same_forward s s' → is_running s' = is_running s ∧ wait_of s' = wait_of s.
Proof.
  intros ([= Ho _ _ Hk] & Hst & _ & _ & Hsig). unfold is_running, wait_of. by rewrite Hst, Ho, Hk, Hsig.
Qed.

Lemma forward_step_ok B s s' : same_forward s s' → step_ok B s → step_ok B s'.
Proof.
  intros (Hid & Hst & Ha & Hw & Hg) [H1 H2 H3 H4 H5]. apply identity_kind in Hid.
  split; rewrite ?Hst, ?Ha, ?Hw, ?Hg, ?Hid; auto.
Qed.

Lemma forward_steps B steps steps' : Forall2 same_forward steps steps' →
  (numbered steps → numbered steps') ∧ (Forall (step_ok B) steps → Forall (step_ok B) steps') ∧
  wait_of <$> List.filter is_running steps' = wait_of <$> List.filter is_running steps ∧
  existsb is_running steps' = existsb is_running steps.
Proof.
  intros H2. split; [|split; [|split]].
  - apply numbered_ext. induction H2 as [|s s' l l' [Hid _] _ IH]; [done|]. by rewrite !fmap_cons, IH, Hid.
  - induction H2 as [|s s' l l' Hs _ IH]; [done|]. rewrite !Forall_cons. intros [? ?].
    split; [by eapply forward_step_ok|auto].
  - induction H2 as [|s s' l l' Hs _ IH]; [done|]. cbn. destruct (forward_running _ _ Hs) as [-> Hw].
    destruct (is_running s); cbn; by rewrite ?Hw, IH.
  - induction H2 as [|s s' l l' Hs _ IH]; [done|]. cbn. destruct (forward_running _ _ Hs) as [-> _]. by rewrite IH.
Qed.

Lemma forward_refl l : Forall2 same_forward l l.
Proof. induction l; constructor; [reflexivity|done]. Qed.

(** Saving a checkpoint that the journal holds up to compensation. *)
Lemma save_forward step j j' r : numbered (j_steps j) → r ∈ j_rows j → same_forward (row_step r) step →
  save_checkpoint step j = Ok j' →
  Forall2 same_forward (j_steps j) (j_steps j') ∧ j_waits j' = j_waits j ∧ j_signals j' = j_signals j ∧
  j_revision j' = (j_revision j + 1)%Z.
Proof.
  intros Hn Hr Hf E. apply save_checkpoint_Ok in E as (-> & _ & _). cbn. split; [|done].
  apply list_elem_of_lookup in Hr as [i Hi].
  assert (st_ordinal step = Z.of_nat i) as Ho.
  { destruct (Hn i (row_step r)) as [Ho _]; [by rewrite j_steps_lookup, Hi|].
    destruct Hf as ([= ->] & _). done. }
  unfold j_steps. cbn. rewrite (put_step_insert _ _ i r Hn Hi Ho).
  change (map row_step ?l) with (row_step <$> l). rewrite list_fmap_insert.
  apply Forall2_same_length_lookup_2; [by rewrite length_insert|].
  intros k s s' Hs Hs'. destruct (decide (i = k)) as [<-|Hne].
  - rewrite list_lookup_insert_eq in Hs' by (rewrite length_fmap; by eapply lookup_lt_Some).
    rewrite list_lookup_fmap, Hi in Hs. by simplify_eq/=.
  - rewrite list_lookup_insert_ne in Hs' by done. simplify_eq. reflexivity.
Qed.

(** * The invariant *)

(** What holds of a run's row, generation and journal. *)
Record core_ok (B : Z) (r : Run) : Prop := {
  co_numbered : numbered (r_steps r);
  co_steps : Forall (step_ok B) (r_steps r);
  co_waits : is_terminal (run_state (r_row r)) = false →
    j_waits (r_journal r) = wait_of <$> List.filter is_running (r_steps r);
  co_terminal : is_terminal (run_state (r_row r)) = true →
    run_control (r_row r) = NoControl ∧ run_task_id (r_row r) = None ∧ run_due_at (r_row r) = None ∧
    run_key (r_row r) = None ∧ ∃ at_, gen_terminal (r_gen r) = Some (run_state (r_row r), at_);
  co_live : is_terminal (run_state (r_row r)) = false → gen_terminal (r_gen r) = None;
  co_rollback : ∀ target, run_compensation_target (r_row r) = Some target →
    is_terminal (run_state (r_row r)) = false →
    (run_state (r_row r) = SCompensating ∨ run_state (r_row r) = SPaused) ∧
    has_compensation r = true ∧ (target = SFailed ∨ target = SCancelled);
  co_compensating : run_state (r_row r) = SCompensating → is_Some (run_compensation_target (r_row r));
  co_paused : run_state (r_row r) = SPaused → run_control (r_row r) ≠ NoControl;
  co_task : is_Some (run_task_id (r_row r)) →
    run_state (r_row r) = SRunning ∨ run_state (r_row r) = SCompensating;
  co_suspended : run_state (r_row r) = SSleeping ∨ run_state (r_row r) = SWaiting →
    existsb is_running (r_steps r) = true ∨ is_Some (run_due_at (r_row r));
  co_completed : run_state (r_row r) = SCompleted → unresolved_operations r = false;
  co_due : run_due_at (r_row r) = None → is_terminal (run_state (r_row r)) = true ∨
    run_state (r_row r) = SPaused ∨ run_state (r_row r) = SWaiting
}.

(** A live lease is the run's task, and there is at most one. *)
Definition is_leased (t : Task) : bool := bool_decide (tk_state t = Leased).
Definition leases_ok (r : Run) : Prop :=
  match run_task_id (r_row r) with
  | None => List.filter is_leased (r_tasks r) = []
  | Some id => ∃ t, List.filter is_leased (r_tasks r) = [t] ∧ tk_id t = id ∧
      tk_generation t = run_generation (r_row r) ∧ tk_epoch t = run_lease_epoch (r_row r) ∧
      run_due_at (r_row r) = Some (tk_deadline t) ∧
      tk_frontier_revision t = run_frontier_revision (r_row r) ∧
      tk_journal_revision t = j_revision (r_journal r)
  end.

Definition run_ok (B : Z) (r : Run) : Prop := core_ok B r ∧ leases_ok r.

(** A run that has not ended, up to its columns. *)
Record live_ok (B : Z) (r : Run) : Prop := {
  lo_numbered : numbered (r_steps r);
  lo_steps : Forall (step_ok B) (r_steps r);
  lo_waits : j_waits (r_journal r) = wait_of <$> List.filter is_running (r_steps r);
  lo_gen : gen_terminal (r_gen r) = None
}.

Lemma core_live B r : core_ok B r → is_terminal (run_state (r_row r)) = false → live_ok B r.
Proof. intros [] Ht. split; auto. Qed.

Lemma live_journal B r j : live_ok B r → journal_ok B j → live_ok B (on_journal j r).
Proof. intros [_ _ _ Hg] [Hn Hs Hw]. by split. Qed.

Lemma live_journal_ok B r : live_ok B r → journal_ok B (r_journal r).
Proof. intros [Hn Hs Hw _]. by split. Qed.

(** The invariant reads these columns only. *)
Lemma core_ok_ext B r r' : r_gen r' = r_gen r → r_journal r' = r_journal r →
  run_state (r_row r') = run_state (r_row r) → run_control (r_row r') = run_control (r_row r) →
  run_task_id (r_row r') = run_task_id (r_row r) → run_due_at (r_row r') = run_due_at (r_row r) →
  run_compensation_target (r_row r') = run_compensation_target (r_row r) →
  run_key (r_row r') = run_key (r_row r) → core_ok B r → core_ok B r'.
Proof.
  intros Eg Ej Es Ec Et Ed Ek Eky []. unfold r_steps, has_compensation, unresolved_operations, r_steps in *.
  split; unfold r_steps, has_compensation, unresolved_operations, r_steps;
    rewrite ?Eg, ?Ej, ?Es, ?Ec, ?Et, ?Ed, ?Ek, ?Eky; auto.
Qed.

Lemma publish_row r : r_row (publish r) = r_row r ∧ r_gen (publish r) = r_gen r ∧
  r_journal (publish r) = r_journal r ∧ r_tasks (publish r) = r_tasks r.
Proof.
  unfold publish. destruct (run_due_at (r_row r)), (run_task_id (r_row r)); try done.
  by destruct (is_terminal (run_state (r_row r))).
Qed.

(** Advancing moves the frontier revision only. *)
Lemma advance_Ok r r' : advance r = Ok r' →
  r_gen r' = r_gen r ∧ r_journal r' = r_journal r ∧ r_tasks r' = r_tasks r ∧
  run_state (r_row r') = run_state (r_row r) ∧ run_control (r_row r') = run_control (r_row r) ∧
  run_task_id (r_row r') = run_task_id (r_row r) ∧ run_due_at (r_row r') = run_due_at (r_row r) ∧
  run_compensation_target (r_row r') = run_compensation_target (r_row r) ∧
  run_key (r_row r') = run_key (r_row r) ∧
  run_generation (r_row r') = run_generation (r_row r) ∧
  run_lease_epoch (r_row r') = run_lease_epoch (r_row r) ∧
  run_frontier_revision (r_row r') = (run_frontier_revision (r_row r) + 1)%Z.
Proof.
  unfold advance. destruct (_ <=? _)%Z; [done|]. intros [= <-].
  destruct (publish_row (on_row (λ q, mk_run_row (run_state q) (run_control q) (run_task_id q) (run_due_at q)
             (run_compensation_target q) (run_key q) (run_terminal_at q) (run_generation q)
             (run_lease_epoch q) (run_frontier_revision q + 1)) r)) as (-> & -> & -> & ->).
  done.
Qed.

Lemma advance_core B r r' : advance r = Ok r' → core_ok B r → core_ok B r'.
Proof. intros E. apply advance_Ok in E. destruct_and!. by apply core_ok_ext. Qed.

Lemma advance_leases r r' : advance r = Ok r' → run_task_id (r_row r) = None → leases_ok r → leases_ok r'.
Proof.
  intros E Ht. apply advance_Ok in E as (_ & _ & Hk & _ & _ & Ht' & _). unfold leases_ok. by rewrite Ht', Hk, Ht.
Qed.

Section operations.
Context `{Chrono}.
Variables (policy : AppPolicy) (w : World) (now B : Z) (to_rfc3339 : Z → bytes).

Lemma finish_run_row state error successor notify r :
  let r' := finish_run w now state error successor notify r in
  r_row r' = mk_run_row state NoControl None None (run_compensation_target (r_row r)) None (Some now)
    (run_generation (r_row r)) (run_lease_epoch (r_row r)) (run_frontier_revision (r_row r)) ∧
  gen_terminal (r_gen r') = Some (state, now) ∧ gen_error (r_gen r') = error ∧
  j_rows (r_journal r') = j_rows (r_journal r) ∧ r_tasks r' = r_tasks r.
Proof. unfold finish_run. by destruct (notify && w_current w). Qed.

Lemma finish_core state error successor notify r : numbered (r_steps r) → Forall (step_ok B) (r_steps r) →
  is_terminal state = true → (state = SCompleted → unresolved_operations r = false) →
  core_ok B (finish_run w now state error successor notify r).
Proof.
  intros Hn Hs Ht Hc. pose proof (finish_run_row state error successor notify r) as (Er & Eg & _ & Ej & _).
  unfold r_steps, j_steps, unresolved_operations, r_steps, j_steps in *.
  split; unfold r_steps, j_steps, unresolved_operations, r_steps, j_steps;
    rewrite ?Er, ?Ej, ?Eg; cbn; auto; try (intros; congruence).
  - intros _. repeat split. by exists now.
  - by intros ->.
  - by intros ->.
  - by intros [].
  - by intros [-> | ->].
Qed.

Lemma parse_update_state u state : parse_state (update_state u) = Ok state →
  update_state u = run_state_as_str state.
Proof.
  unfold parse_state, run_state_from_str.
  destruct u; cbn [update_state]; intros E; vm_compute in E; by injection E as <-.
Qed.

Lemma settle_core u s r r' : live_ok B r → u = Cancelled ∨ (∃ e, u = Failed e) →
  settle w now u r = Ok (s, r') →
  core_ok B r' ∧ run_task_id (r_row r') = None ∧ r_tasks r' = r_tasks r ∧
  j_rows (r_journal r') = j_rows (r_journal r) ∧ s = run_state (r_row r') ∧
  (has_compensation r' = true ∧ s = SCompensating ∨ has_compensation r' = false ∧ is_terminal s = true).
Proof.
  intros [Hn Hs Hw Hg] Hu. unfold settle.
  assert (∃ target, parse_state (update_state u) = Ok target ∧ (target = SFailed ∨ target = SCancelled)) as
    (target & -> & Ht) by (destruct Hu as [->|[e ->]]; eexists; (split; [by vm_compute|]); auto).
  cbn [mbind result_bind]. set (r1 := with_effect _ r).
  assert (has_compensation r1 = has_compensation r) as -> by done.
  destruct (has_compensation r) eqn:Ec; intros [= <- <-].
  - split; [|by auto 10]. split; cbn; auto; try done.
    intros t [= <-] _. auto.
  - destruct (finish_run_row target (update_error u) None true r1) as (Er & Eg & _ & Ej & Et).
    split; [apply finish_core; [done..| |]; destruct Ht as [-> | ->]; done|].
    unfold finish, has_compensation, r_steps, j_steps. rewrite Er, Ej, Et. cbn.
    do 4 (split; [done|]). right. split; [done|]. by destruct Ht as [-> | ->].
Qed.

Lemma min_option_None l : min_option l = None ↔ l = [].
Proof. by destruct l. Qed.

Lemma suspend_core progressed r : live_ok B r → run_compensation_target (r_row r) = None →
  core_ok B (suspend now progressed r).2 ∧ run_task_id (r_row (suspend now progressed r).2) = None ∧
  r_tasks (suspend now progressed r).2 = r_tasks r ∧
  (suspend now progressed r).1 = run_state (r_row (suspend now progressed r).2) ∧
  is_terminal (suspend now progressed r).1 = false.
Proof.
  intros [Hn Hs Hw Hg] Hk. unfold suspend. cbn [fst snd].
  set (pending := List.filter is_pending (r_steps r)). set (retry := min_option _).
  set (state := if _ || _ || progressed then _ else _).
  assert (is_terminal state = false ∧ state ≠ SCompensating ∧ state ≠ SPaused ∧ state ≠ SCompleted ∧
    (state = SQueued ∨ retry = None ∧ pending ≠ [] ∧
      (state = SSleeping ∧ forallb (λ s, bool_decide (st_kind s = lit "sleep")) pending = true ∨
       state = SWaiting))) as (Ht & Hcomp & Hpause & Hdone & Hst).
  { subst state. destruct retry; cbn; [auto 10|]. case_bool_decide; cbn; [auto 10|].
    destruct progressed; cbn; [auto 10|]. destruct (forallb _ _) eqn:Ef; naive_solver. }
  split; [|done]. split; cbn; auto; try (intros; congruence).
  - by intros [].
  - intros Hsu. destruct Hst as [->|(_ & Hne & _)]; [by destruct Hsu|]. left.
    destruct pending as [|s l] eqn:El; [done|]. apply List.existsb_exists. exists s.
    assert (s ∈ r_steps r ∧ is_pending s = true) as [Hin Hp]
      by (apply elem_of_lfilter; fold pending; rewrite El; left).
    split; [by apply list_elem_of_In|exact Hp].
  - destruct retry as [t|] eqn:Er; [done|]. case_bool_decide as Eq; [done|]. intros Hmin.
    destruct Hst as [?|(_ & Hne & [[Hsl Hf]|?])]; [done| |auto]. exfalso.
    destruct pending as [|s l] eqn:El; [done|]. cbn in Hmin.
    assert (s ∈ r_steps r ∧ is_pending s = true) as [Hin Hp%bool_decide_eq_true].
    { apply elem_of_lfilter. fold pending. rewrite El. left. }
    rewrite Forall_forall in Hs. cbn in Hf. apply andb_true_iff in Hf as [Hf%bool_decide_eq_true _].
    destruct (so_sleep _ _ (Hs s Hin) Hp Hf) as [t Et]. unfold wake_millis in Hmin. by rewrite Et in Hmin.
Qed.

(** ** Rollback *)

Lemma find_rev {A} (p : A → bool) l x : List.find p (rev l) = Some x →
  ∃ i, l !! i = Some x ∧ p x = true ∧ ∀ k y, i < k → l !! k = Some y → p y = false.
Proof.
  induction l as [|a l IH] using rev_ind; [done|]. rewrite rev_app_distr. cbn.
  destruct (p a) eqn:Ea.
  - intros [= ->]. exists (length l). rewrite list_lookup_middle by done. split; [done|]. split; [done|].
    intros k y Hk Hy. apply lookup_lt_Some in Hy. rewrite length_app in Hy. cbn in Hy. lia.
  - intros (i & Hi & Hp & Hlast)%IH. exists i. pose proof (lookup_lt_Some _ _ _ Hi).
    rewrite lookup_app_l by done. split; [done|]. split; [done|]. intros k y Hk Hy.
    apply lookup_app_Some in Hy as [Hy|[Hlen Hy]]; [by apply (Hlast k)|].
    by apply list_lookup_singleton_Some in Hy as [_ <-].
Qed.

(** The newest step that owes its compensator. *)
Lemma pending_Ok r q : pending_compensation r = Ok q → ∃ i, j_rows (r_journal r) !! i = Some q ∧
  owed (row_step q) = true ∧ ∀ k q', i < k → j_rows (r_journal r) !! k = Some q' → owed (row_step q') = false.
Proof.
  unfold pending_compensation. destruct (List.find _ _) as [q'|] eqn:E; [|done]. intros [= ->].
  by apply find_rev in E.
Qed.

Lemma set_compensation_insert ordinal attempts due error rows i q :
  numbered (map row_step rows) → rows !! i = Some q → ordinal = Z.of_nat i →
  set_compensation ordinal attempts due error rows =
  <[i := mk_step_row (row_step q) attempts (row_compensation_retry_ms q) due error]> rows.
Proof.
  intros Hn Hi ->. apply list_eq. intros k. unfold set_compensation. rewrite list_lookup_fmap.
  assert (∀ q', rows !! k = Some q' → st_ordinal (row_step q') = Z.of_nat k) as Hk.
  { intros q' Hq. apply (Hn k). change (map row_step rows) with (row_step <$> rows).
    by rewrite list_lookup_fmap, Hq. }
  destruct (decide (i = k)) as [->|Hne].
  - rewrite list_lookup_insert_eq by (by eapply lookup_lt_Some). rewrite Hi. cbn.
    by rewrite (Hk q Hi), Z.eqb_refl.
  - rewrite list_lookup_insert_ne by done. destruct (rows !! k) as [q'|] eqn:Eq; [|done]. cbn.
    rewrite (proj2 (Z.eqb_neq _ _)); [done|]. rewrite (Hk q' eq_refl). lia.
Qed.

(** The report a compensator's task owes. *)
Definition report_of (q : StepRow) (error : option Value) : StepOutcome :=
  let s := row_step q in
  match error with
  | None => CompensationCompleted (st_ordinal s) (st_name s) (st_name_occurrence s)
  | Some e => CompensationFailed (st_ordinal s) (st_name s) (st_name_occurrence s) e
  end.

(** The row after the report: another attempt, or settled. *)
Definition retries (q : StepRow) (error : option Value) : bool :=
  bool_decide (is_Some error) &&
  (row_compensation_attempts q + 1 <? st_compensation_max_attempts (row_step q))%Z.
Definition reported_state (q : StepRow) (error : option Value) : bytes :=
  if retries q error then lit "pending"
  else if bool_decide (is_Some error) then lit "failed" else lit "completed".
Definition reported_row (q : StepRow) (error : option Value) (due : option Z) : StepRow :=
  mk_step_row (with_compensation (reported_state q error) (row_step q)) (row_compensation_attempts q + 1)
    (row_compensation_retry_ms q) due error.

Lemma compensation_report_Ok outcomes ordinal name occurrence error q :
  compensation_report outcomes = Ok (ordinal, name, occurrence, error) →
  ordinal = st_ordinal (row_step q) → name = st_name (row_step q) →
  occurrence = st_name_occurrence (row_step q) → outcomes = [report_of q error].
Proof.
  unfold compensation_report, report_of.
  destruct outcomes as [|[] [|]]; try done; intros [= <- <- <- <-] -> -> ->; done.
Qed.

Lemma reported_rows rows i q error due ordinal : numbered (map row_step rows) → rows !! i = Some q →
  ordinal = Z.of_nat i →
  set_compensation ordinal (row_compensation_attempts q + 1) due error
    (put_step (with_compensation (reported_state q error) (row_step q)) rows) =
  <[i := reported_row q error due]> rows.
Proof.
  intros Hn Hi ->. assert ((row_step <$> rows) !! i = Some (row_step q)) as Hs by (by rewrite list_lookup_fmap, Hi).
  destruct (Hn i _ Hs) as [Ho _]. rewrite (put_step_insert _ _ i q Hn Hi) by done.
  rewrite (set_compensation_insert _ _ _ _ _ i
    (put_row (with_compensation (reported_state q error) (row_step q)) q)); [| | |done].
  - by rewrite list_insert_insert_eq.
  - change (map row_step ?l) with (row_step <$> l) in *. rewrite list_fmap_insert.
    apply (numbered_ext (row_step <$> rows)); [|done]. rewrite list_fmap_insert. symmetry.
    apply list_insert_id. by rewrite list_lookup_fmap, Hs.
  - by rewrite list_lookup_insert_eq by (by eapply lookup_lt_Some).
Qed.

(** What one report does: the newest obligation moves on, then the run rests, waits for
    the next report, or is paused. *)
Lemma compensate_inv outcomes r s r' : numbered (r_steps r) → compensate w now outcomes r = Ok (s, r') →
  ∃ i q error due j, j_rows (r_journal r) !! i = Some q ∧ owed (row_step q) = true ∧
    (∀ k q', i < k → j_rows (r_journal r) !! k = Some q' → owed (row_step q') = false) ∧
    outcomes = [report_of q error] ∧ (is_Some due ↔ retries q error = true) ∧
    j_rows j = <[i := reported_row q error due]> (j_rows (r_journal r)) ∧
    j_waits j = j_waits (r_journal r) ∧ j_revision j = (j_revision (r_journal r) + 1)%Z ∧
    let r1 := on_journal j r in
    (has_compensation r1 = true ∧
      (effective_control w r1 = PauseIntent ∧ s = SPaused ∧ r' = park r1 ∨
       s = SCompensating ∧
       r' = on_row (λ q, set_row (run_state q) (run_control q) None (Some (default now due)) q) r1) ∨
     has_compensation r1 = false ∧
      (compensation_failures r1 = [] ∧ run_compensation_target (r_row r) = Some s ∨
       compensation_failures r1 ≠ [] ∧ s = SFailed) ∧
      ∃ e, r' = finish w now s (Some e) r1).
Proof.
  intros Hn. unfold compensate. bind_ok as q Eq. bind_ok as [[[ordinal name] occurrence] error] Er.
  apply pending_Ok in Eq as (i & Hi & Ho & Hlast).
  destruct (_ || _) eqn:Em; [done|]. apply orb_false_iff in Em as [[Em1 Em2]%orb_false_iff Em3].
  rewrite negb_false_iff, Z.eqb_eq in Em1, Em3. rewrite negb_false_iff, bool_decide_eq_true in Em2.
  pose proof (compensation_report_Ok _ _ _ _ _ q Er Em1 Em2 Em3) as Hout.
  destruct (_ <? _)%Z; [done|]. fold (retries q error). fold (reported_state q error).
  bind_ok as j Ej. bind_ok as due Ed. apply save_checkpoint_Ok in Ej as (-> & _ & _). cbn [j_rows j_waits j_signals j_revision].
  assert (st_ordinal (row_step q) = Z.of_nat i) as Hoi by (by apply (Hn i); unfold r_steps; rewrite j_steps_lookup, Hi).
  rewrite (reported_rows _ i q error due) by (done || congruence).
  set (rows := <[i := _]> _).
  set (j := mk_journal rows _ _ _). intros E. exists i, q, error, due, j.
  do 4 (split; [done|]). split.
  { destruct (retries q error); [destruct (deadline _ _); [injection Ed as <-; split; [done|by eauto]|done]|].
    injection Ed as <-. split; [by intros []|done]. }
  do 3 (split; [done|]). cbn zeta. fold j in E. revert E.
  destruct (has_compensation (on_journal j r)) eqn:Ec.
  - case_bool_decide; intros [= <- <-]; left; auto.
  - bind_ok as st Est. intros [= <- <-]. right. split; [done|]. split; [|by eexists].
    case_bool_decide as Ef.
    + destruct (run_compensation_target _) as [t|] eqn:Et; [|done]. injection Est as <-. by left.
    + injection Est as <-. by right.
Qed.

(** The rows of a rollback differ in their compensation columns only. *)
Lemma reported_forward r i q error due j : j_rows (r_journal r) !! i = Some q →
  j_rows j = <[i := reported_row q error due]> (j_rows (r_journal r)) →
  Forall2 same_forward (r_steps r) (j_steps j).
Proof.
  intros Hi Hj. unfold r_steps, j_steps. rewrite Hj. change (map row_step ?l) with (row_step <$> l).
  rewrite list_fmap_insert. apply Forall2_same_length_lookup_2; [by rewrite length_insert|].
  intros k s s' Hs Hs'. destruct (decide (i = k)) as [<-|Hne].
  - rewrite list_lookup_insert_eq in Hs' by (rewrite length_fmap; by eapply lookup_lt_Some).
    rewrite list_lookup_fmap, Hi in Hs. simplify_eq/=. by apply with_compensation_forward.
  - rewrite list_lookup_insert_ne in Hs' by done. simplify_eq. reflexivity.
Qed.

Lemma live_forward r j : live_ok B r → Forall2 same_forward (r_steps r) (j_steps j) →
  j_waits j = j_waits (r_journal r) → live_ok B (on_journal j r).
Proof.
  intros [Hn Hs Hw Hg] Hf Hj. apply (forward_steps B) in Hf as (Hn' & Hs' & Hw' & _).
  split; [by apply Hn'|by apply Hs'| |done]. unfold r_steps in *. cbn. congruence.
Qed.

(** A live run that is rolling back, paused or not. *)
Lemma rolling_core state control task due target r : live_ok B r → has_compensation r = true →
  run_compensation_target (r_row r) = Some target → target = SFailed ∨ target = SCancelled →
  state = SCompensating ∧ is_Some due ∨ state = SPaused ∧ control ≠ NoControl ∧ task = None →
  core_ok B (on_row (λ q, set_row state control task due q) r).
Proof.
  intros [Hn Hs Hw Hg] Hc Ht Htg Hst.
  assert (is_terminal state = false) as Hnt by (by destruct Hst as [[-> _]|[-> _]]).
  split; cbn; auto; try (intros; congruence).
  - intros t Et _. assert (t = target) as -> by congruence. destruct Hst as [[-> _]|[-> _]]; auto.
  - intros ->. by destruct Hst as [[? _]|(_ & ? & _)].
  - intros [t ->]. destruct Hst as [[-> _]|(_ & _ & ?)]; [auto|done].
  - by intros [-> | ->]; destruct Hst as [[? _]|[? _]].
  - intros ->. by destruct Hst as [[? _]|[? _]].
  - intros ->. destruct Hst as [[_ []]|[-> _]]; auto; done.
Qed.

Lemma compensate_core outcomes r s r' : core_ok B r → run_state (r_row r) = SCompensating →
  compensate w now outcomes r = Ok (s, r') →
  core_ok B r' ∧ run_task_id (r_row r') = None ∧ r_tasks r' = r_tasks r ∧ s = run_state (r_row r').
Proof.
  intros Hok Hst E. assert (is_terminal (run_state (r_row r)) = false) as Hnt by (by rewrite Hst).
  pose proof (core_live _ _ Hok Hnt) as Hl.
  destruct (co_compensating _ _ Hok Hst) as [target Ht].
  destruct (co_rollback _ _ Hok _ Ht Hnt) as (_ & _ & Htg).
  apply compensate_inv in E; [|apply Hok].
  destruct E as (i & q & error & due & j & Hi & _ & _ & _ & _ & Hj & Hw & _ & Hres).
  pose proof (live_forward _ _ Hl (reported_forward _ _ _ _ _ _ Hi Hj) Hw) as Hl1. cbn zeta in Hres.
  destruct Hres as [[Hc [(Hp & -> & ->)|[-> ->]]]|(Hc & Hs & e & ->)].
  - split; [|done]. apply (rolling_core _ _ _ _ target); [done..|]. right. split; [done|]. split; [|done].
    unfold effective_control in Hp. destruct (run_control (r_row (on_journal j r))); [|done..].
    cbn in Hp. by destruct (w_fenced w).
  - split; [|cbn; by rewrite Hst]. apply (core_ok_ext B (on_row (λ q, set_row SCompensating (run_control (r_row r)) None
      (Some (default now due)) q) (on_journal j r))); try done.
    apply (rolling_core _ _ _ _ target); [done..|]. left. by eauto.
  - destruct (finish_run_row s (Some e) None true (on_journal j r)) as (Er & _ & _ & _ & Et).
    unfold finish. rewrite Er, Et. split; [|done]. destruct Hl1 as [Hn1 Hs1 _ _].
    destruct Hs as [[_ Hs]|[_ ->]]; [|by apply finish_core].
    assert (s = target) as -> by congruence. apply finish_core; [done..| |]; by destruct Htg as [-> | ->].
Qed.

Lemma abandon_step_forward j0 j acc q j' acc' : numbered (j_steps j0) → q ∈ j_rows j0 →
  Forall2 same_forward (j_steps j0) (j_steps j) → abandon_step (j, acc) q = Ok (j', acc') →
  Forall2 same_forward (j_steps j0) (j_steps j').
Proof.
  intros Hn Hq Hf. unfold abandon_step. destruct (owed (row_step q)); cbn; [|by intros [= <- <-]].
  bind_ok as j1 Ej. intros [= <- <-]. apply list_elem_of_lookup in Hq as [i Hi].
  assert (j_steps j0 !! i = Some (row_step q)) as Hs by (by rewrite j_steps_lookup, Hi).
  destruct (Forall2_lookup_l _ _ _ _ _ Hf Hs) as (s1 & Hs1 & Hfs).
  rewrite j_steps_lookup in Hs1. destruct (j_rows j !! i) as [q1|] eqn:Eq1; [|done]. injection Hs1 as Hs1.
  assert (numbered (j_steps j)) as Hn1 by (by apply (forward_steps 0) in Hf as (Hn1 & _); apply Hn1).
  transitivity (j_steps j); [done|].
  apply (save_forward _ _ _ q1 Hn1) in Ej as [? _]; [done|by eapply list_elem_of_lookup_2|].
  rewrite Hs1. destruct Hfs as (? & ? & ? & ? & ?).
  repeat split; [change (identity (row_step q) = identity s1); congruence|cbn; congruence..].
Qed.

Lemma abandon_core reason r s r' : live_ok B r → abandon w now reason r = Ok (s, r') →
  core_ok B r' ∧ r_tasks r' = r_tasks r ∧ s = SFailed ∧ run_state (r_row r') = SFailed.
Proof.
  intros Hl. unfold abandon. bind_ok as [j acc] Ea. case_bool_decide; [done|]. intros [= <- <-].
  assert (Forall2 same_forward (r_steps r) (j_steps j)) as Hf.
  { refine (try_fold_inv (λ acc, Forall2 same_forward (r_steps r) (j_steps acc.1)) _ _ _ _ _ _ Ea);
      [apply forward_refl|].
    intros [j1 a1] q [j2 a2] Hq Hf1 E. eapply (abandon_step_forward (r_journal r)); [apply Hl| |exact Hf1|exact E].
    apply list_elem_of_In. apply in_rev. by apply list_elem_of_In. }
  apply (forward_steps B) in Hf as (Hn & Hs & _ & _).
  split; [apply finish_core; [by apply Hn, Hl|by apply Hs, Hl|done..]|].
  match goal with |- context [finish w now SFailed ?e ?r] => destruct (finish_run_row SFailed e None true r) as (Er & _ & _ & _ & Et) end.
  unfold finish. by rewrite Er, Et.
Qed.

(** ** Column patches *)

Lemma patch_core control due r : core_ok B r → is_terminal (run_state (r_row r)) = false →
  (run_state (r_row r) = SPaused → control ≠ NoControl) → is_Some due ∨ due = run_due_at (r_row r) →
  core_ok B (on_row (λ q, set_row (run_state q) control (run_task_id q) due q) r).
Proof.
  intros [] Hnt Hp Hdue. split; cbn; auto; try (intros; congruence).
  - intros Hsu. destruct (co_suspended0 Hsu) as [?|[? Hd]]; [by left|].
    right. destruct Hdue as [?|Hdue]; [done|]. rewrite Hdue, Hd. eauto.
  - intros ->. apply co_due0. by destruct Hdue as [[]|<-].
Qed.

Lemma park_core control r : core_ok B r → is_terminal (run_state (r_row r)) = false → control ≠ NoControl →
  core_ok B (on_row (λ q, set_row SPaused control None None q) r).
Proof.
  intros [] Hnt Hc. split; cbn; auto; try done.
  - intros t Ht _. destruct (co_rollback0 t Ht Hnt) as (_ & ? & ?). auto.
  - by intros [].
Qed.

Lemma forward_core state control task due r : live_ok B r → run_compensation_target (r_row r) = None →
  state = SRunning ∨ state = SQueued ∧ task = None →
  core_ok B (on_row (λ q, set_row state control task (Some due) q) r).
Proof.
  intros [Hn Hs Hw Hg] Ht Hst.
  split; cbn; auto; try done; try (destruct Hst as [-> | [-> _]]; done); try (intros; congruence).
  intros [t Et]. destruct Hst as [->|[_ ?]]; [auto|congruence].
Qed.

Lemma compensation_ready_core r ready r' : core_ok B r → is_terminal (run_state (r_row r)) = false →
  compensation_ready now r = Ok (ready, r') →
  core_ok B r' ∧ r_tasks r' = r_tasks r ∧ run_task_id (r_row r') = run_task_id (r_row r) ∧
  run_state (r_row r') = run_state (r_row r).
Proof.
  intros Hok Hnt. unfold compensation_ready. bind_ok as q Eq. destruct (_ <? _)%Z; intros [= <- <-]; [|done].
  split; [|done]. apply (core_ok_ext B (on_row (λ q0, set_row (run_state q0) (run_control (r_row r)) (run_task_id q0)
    (Some (default now (row_compensation_due_at q))) q0) r)); try done.
  apply patch_core; [done..|apply Hok|by left].
Qed.

Lemma effective_control_recorded r : effective_control w r ≠ CancelIntent →
  effective_control w r = run_control (r_row r).
Proof. unfold effective_control. by destruct (_ || _). Qed.

(** ** Dispatch *)

(** A run whose waits were looked at again is as before, and due. *)
Lemma on_journal_core r j : core_ok B r → is_terminal (run_state (r_row r)) = false →
  run_compensation_target (r_row r) = None → is_Some (run_due_at (r_row r)) → journal_ok B j →
  core_ok B (on_journal j r).
Proof.
  intros Hok Hnt Htg [d Hd] Hj. destruct (live_journal _ _ _ (core_live _ _ Hok Hnt) Hj) as [Hn Hs Hw Hg].
  destruct Hok. split; cbn; auto; try (intros; congruence).
  intros E. by rewrite E in Hnt.
Qed.

Lemma no_rollback r : core_ok B r → is_terminal (run_state (r_row r)) = false →
  run_state (r_row r) ≠ SCompensating → run_state (r_row r) ≠ SPaused →
  run_compensation_target (r_row r) = None.
Proof.
  intros Hok Hnt Hc Hp. destruct (run_compensation_target (r_row r)) as [t|] eqn:Et; [|done].
  by destruct (co_rollback _ _ Hok t Et Hnt) as [[?|?] _].
Qed.

Lemma stalled_core r : live_ok B r →
  let r' := finish w now SStalled (update_error (Stalled (stalled_error (stuck_dispatches r)
              (max_stuck_dispatches policy)))) r in
  core_ok B r' ∧ r_tasks r' = r_tasks r ∧ run_task_id (r_row r') = None.
Proof.
  intros Hl. cbn zeta. unfold finish.
  match goal with |- context [finish_run w now SStalled ?e None true r] =>
    destruct (finish_run_row SStalled e None true r) as (Er & _ & _ & _ & Et) end.
  split; [by apply finish_core; try apply Hl|]. by rewrite Er, Et.
Qed.

Lemma prepare_core r ready r' : core_ok B r → is_terminal (run_state (r_row r)) = false →
  run_task_id (r_row r) = None → is_Some (run_due_at (r_row r)) →
  prepare policy w now to_rfc3339 r = Ok (ready, r') →
  core_ok B r' ∧ r_tasks r' = r_tasks r ∧ run_task_id (r_row r') = None ∧
  (ready = true → is_terminal (run_state (r_row r')) = false ∧
    (run_state (r_row r') = SCompensating ∨ run_compensation_target (r_row r') = None)).
Proof.
  intros Hok Hnt Htask Hdue. pose proof (core_live _ _ Hok Hnt) as Hl. unfold prepare.
  case_bool_decide as Hcan.
  { bind_ok as [s1 r1] Es. apply settle_core in Es as (Hok1 & Ht1 & Hk1 & _ & Hs1 & Hc1); [|done|by left].
    cbn [snd]. destruct Hc1 as [[Hc1 ->]|[Hc1 Hterm]]; rewrite Hc1; [|by intros [= <- <-]].
    intros E. apply compensation_ready_core in E as (? & Hk & Ht & Hst); [|done|by rewrite <- Hs1].
    rewrite Hk, Ht, Hst. split; [done|]. split; [done|]. split; [done|]. intros _. rewrite <- Hs1. auto. }
  pose proof (effective_control_recorded r Hcan) as Hec.
  case_bool_decide as Hpause.
  { intros [= <- <-]. split; [|done].
    apply (core_ok_ext B (on_row (λ q, set_row SPaused (run_control (r_row r)) None None q) r)); try done.
    apply park_core; [done..|]. congruence. }
  assert (run_control (r_row r) = NoControl) as Hnone by (destruct (run_control (r_row r)); congruence).
  assert (run_state (r_row r) ≠ SPaused) as Hnp by (intros E; by apply (co_paused _ _ Hok)).
  destruct (_ <=? _)%Z.
  { case_bool_decide.
    - bind_ok as [s1 r1] Ea. intros [= <- <-]. apply abandon_core in Ea as (Hok1 & Hk & _ & Hst); [|done].
      split; [done|]. split; [done|]. split; [|done]. apply (co_terminal _ _ Hok1). by rewrite Hst.
    - intros [= <- <-]. destruct (stalled_core r Hl) as (? & ? & ?). by split_and!. }
  case_bool_decide as Hcomp.
  { intros E. apply compensation_ready_core in E as (? & Hk & Ht & Hst); [|done..].
    rewrite Hk, Ht, Hst. by auto 10. }
  pose proof (no_rollback r Hok Hnt Hcomp Hnp) as Htg.
  bind_ok as [j progressed] Ej. apply resolve_ok with (B := B) in Ej as (Hj & _ & _); [|by apply live_journal_ok].
  destruct (_ && _ && _); intros [= <- <-].
  - destruct (suspend_core false _ (live_journal _ _ _ Hl Hj) Htg) as (? & ? & ? & ?). by auto.
  - split; [by apply on_journal_core|]. by auto.
Qed.

Lemma assign_ok lease r claim r' : core_ok B r → leases_ok r → run_task_id (r_row r) = None →
  is_terminal (run_state (r_row r)) = false →
  run_state (r_row r) = SCompensating ∨ run_compensation_target (r_row r) = None →
  assign policy w now lease r = Ok (claim, r') → run_ok B r'.
Proof.
  intros Hok Hle Htask Hnt Hst. unfold assign.
  destruct (negb (w_available w)); [intros [= <- <-]; by split|].
  destruct (_ || _); [intros [= <- <-]; by split|]. destruct (_ <=? _)%Z; [intros [= <- <-]; by split|].
  bind_ok as [] Ei. destruct (_ <? _)%Z; [done|]. bind_ok as expires Ee. case_bool_decide; [done|]. intros [= <- <-].
  pose proof (core_live _ _ Hok Hnt) as Hl. split.
  - set (state := if bool_decide _ then SCompensating else SRunning).
    apply (core_ok_ext B (on_row (λ q, set_row state (run_control (r_row r)) (Some (w_task_id w)) (Some expires) q) r));
      try done.
    subst state. case_bool_decide as Hc.
    + destruct (co_compensating _ _ Hok Hc) as [t Ht]. destruct (co_rollback _ _ Hok t Ht Hnt) as (_ & ? & ?).
      apply (rolling_core _ _ _ _ t); auto.
    + apply forward_core; [done| |by left]. by destruct Hst.
  - unfold leases_ok in *. rewrite Htask in Hle. cbn. eexists.
    rewrite List.filter_app, Hle. cbn. split; [done|]. done.
Qed.

Lemma filter_mark hit patch tasks : (∀ t, is_leased (patch t) = false) →
  List.filter is_leased (mark_tasks hit patch tasks) =
  List.filter (λ t, is_leased t && negb (hit t)) tasks.
Proof.
  intros Hs. unfold mark_tasks. induction tasks as [|t tasks IH]; [done|]. cbn. destruct (hit t).
  - rewrite Hs. by rewrite andb_false_r.
  - rewrite andb_true_r. by destruct (is_leased t); rewrite IH.
Qed.

Lemma filter_and {A} (p q : A → bool) l : List.filter (λ x, p x && q x) l = List.filter q (List.filter p l).
Proof. induction l as [|x l IH]; [done|]. cbn. destruct (p x); cbn; [|done]. by destruct (q x); rewrite IH. Qed.

(** The filter that finds the run's task finds the only leased one. *)
Lemma mark_one hit patch tasks : (∀ t, is_leased (patch t) = false) → length (List.filter hit tasks) = 1 →
  (∀ t, hit t = true → is_leased t = true) → length (List.filter is_leased tasks) ≤ 1 →
  List.filter is_leased (mark_tasks hit patch tasks) = [].
Proof.
  intros Hs Hone Hsub Hle. rewrite filter_mark, filter_and by done.
  assert (List.filter hit tasks = List.filter hit (List.filter is_leased tasks)) as Hh.
  { rewrite <- filter_and. apply List.filter_ext. intros t. destruct (hit t) eqn:E; [by rewrite Hsub|by rewrite andb_false_r]. }
  rewrite Hh in Hone. destruct (List.filter is_leased tasks) as [|t [|]]; cbn in *; [done| |lia].
  by destruct (hit t).
Qed.

Lemma leases_length r : leases_ok r → length (List.filter is_leased (r_tasks r)) ≤ 1.
Proof.
  unfold leases_ok. destruct (run_task_id (r_row r)); [intros (t & -> & _)|intros ->]; cbn; lia.
Qed.

Lemma reclaim_ok r r' : run_ok B r → is_terminal (run_state (r_row r)) = false →
  is_Some (run_due_at (r_row r)) → reclaim now r = Ok r' →
  run_ok B r' ∧ run_task_id (r_row r') = None ∧ run_state (r_row r') = run_state (r_row r) ∧
  run_due_at (r_row r') = run_due_at (r_row r) ∧ r_journal r' = r_journal r.
Proof.
  intros [Hok Hle] Hnt [d Hd]. unfold reclaim. destruct (run_task_id (r_row r)) as [task|] eqn:Et;
    [|intros [= <-]; split; [by split|done]].
  set (hit := λ t, bool_decide (tk_id t = task) && _ && _ && _ && _).
  destruct (Nat.eqb_spec (length (List.filter hit (r_tasks r))) 1) as [Hone|]; [|done].
  cbn [negb]. intros [= <-]. split; [split|done].
  - destruct Hok. split; cbn; auto; try (intros; congruence); by intros [].
  - unfold leases_ok. cbn. apply mark_one; [done|done| |by apply leases_length].
    intros t. subst hit. cbn. rewrite !andb_true_iff. unfold is_leased. by intros [[_ ?] _].
Qed.

Lemma poll_ok r task r' : run_ok B r → poll policy w now to_rfc3339 r = Ok (task, r') → run_ok B r'.
Proof.
  intros Hok. unfold poll. destruct (run_due_at (r_row r)) as [due|] eqn:Ed; [|by intros [= <- <-]].
  destruct (now <? due)%Z; [by intros [= <- <-]|]. cbn [orb].
  destruct (is_terminal (run_state (r_row r))) eqn:Hnt; [by intros [= <- <-]|].
  bind_ok as r1 E1. apply reclaim_ok in E1 as ([Hok1 Hle1] & Ht1 & Hs1 & Hd1 & _); [|done..|by rewrite Ed].
  bind_ok as [ready r2] E2. cbn [fst snd].
  apply prepare_core in E2 as (Hok2 & Hk2 & Ht2 & Hready); [|done|by rewrite Hs1|done|by rewrite Hd1, Ed].
  assert (leases_ok r2) as Hle2 by (unfold leases_ok in *; rewrite Ht1 in Hle1; by rewrite Ht2, Hk2).
  destruct ready.
  - destruct (Hready eq_refl) as [Hnt2 Hst2]. bind_ok as [claim r3] E3. intros [= <- <-]. by eapply assign_ok.
  - bind_ok as r3 E3. intros [= <- <-]. split; [by eapply advance_core|by eapply advance_leases].
Qed.

(** ** Reports *)

(** An accepted batch folds into checkpoints within the attempt budget. *)
Lemma folded_batch outcomes checkpoints update : (1 ≤ max_step_attempts policy ≤ B)%Z →
  existsb (λ o, match declared_attempts o with
                | Some declared => (declared <=? 0)%Z || (max_step_attempts policy <? declared)%Z
                | None => false
                end) outcomes = false →
  fold_outcomes outcomes = Ok (checkpoints, update) → Forall (folded B) checkpoints.
Proof.
  intros HB Hdecl E. pose proof (fold_outcomes_spec outcomes) as Hs. rewrite E in Hs.
  destruct Hs as [Hok [= -> _]]. apply Forall_forall. intros s (o & Ho & Hc)%list_elem_of_omap.
  exists o. unfold batch_ok in Hok. apply andb_true_iff in Hok as [Hok _].
  rewrite List.forallb_forall in Hok. split; [by apply Hok, list_elem_of_In|]. split; [done|].
  assert (∀ declared, declared_attempts o = Some declared → (0 < declared ≤ max_step_attempts policy)%Z) as Hd.
  { intros declared Ed. apply not_true_iff_false in Hdecl. destruct (Z.leb_spec declared 0), (Z.ltb_spec (max_step_attempts policy) declared);
      try lia; exfalso; apply Hdecl, List.existsb_exists; exists o; (split; [by apply list_elem_of_In|]);
      rewrite Ed; apply orb_true_iff; rewrite Z.leb_le, Z.ltb_lt; lia. }
  destruct o as [| | | |[?|] [?|] | | | | |]; cbn in *; simplify_eq/=; try lia; specialize (Hd _ eq_refl); lia.
Qed.

Lemma complete_run_core output output_ref r s r' : live_ok B r →
  complete_run w now output output_ref r = Ok (s, r') →
  core_ok B r' ∧ run_task_id (r_row r') = None ∧ r_tasks r' = r_tasks r ∧ s = run_state (r_row r').
Proof.
  intros Hl. unfold complete_run. case_bool_decide; [done|]. bind_ok as r1 E1.
  assert (r_journal r1 = r_journal r ∧ r_tasks r1 = r_tasks r) as [Ej Et].
  { destruct output_ref; [|by injection E1 as <-]. revert E1. bind_ok as u Eu. by intros [= <-]. }
  destruct (unresolved_operations r1) eqn:Eu; [done|]. intros [= <- <-].
  destruct (finish_run_row SCompleted None None true r1) as (Er & _ & _ & _ & Ek).
  split; [|unfold finish; by rewrite Er, Ek].
  apply finish_core; unfold r_steps; rewrite ?Ej; try apply Hl; done.
Qed.

Lemma continue_run_core seed r s r' : live_ok B r → continue_run policy w now seed r = Ok (s, r') →
  core_ok B r' ∧ run_task_id (r_row r') = None ∧ r_tasks r' = r_tasks r ∧ s = run_state (r_row r').
Proof.
  intros Hl. unfold continue_run. case_bool_decide; [done|]. destruct (unresolved_operations r); [done|].
  destruct (has_compensation r).
  - intros E. apply settle_core in E as (? & ? & ? & _ & ? & _); [done..|eauto].
  - bind_ok as u Eu. bind_ok as successor Es. intros [= <- <-].
    destruct (finish_run_row SContinuedAsNew None (Some successor) false r) as (Er & _ & _ & _ & Ek).
    split; [|by rewrite Er, Ek]. by apply finish_core; try apply Hl.
Qed.

(** A run that goes on: paused, or suspended on what is pending. *)
Lemma rest_core r s r' : live_ok B r → run_compensation_target (r_row r) = None →
  effective_control w r ≠ CancelIntent →
  (if bool_decide (effective_control w r = PauseIntent) then Ok (SPaused, park r)
   else res ← resolve policy w now to_rfc3339 (run_generation (r_row r)) (r_journal r);
        let '(j, progressed) := res in Ok (suspend now progressed (on_journal j r))) = Ok (s, r') →
  core_ok B r' ∧ run_task_id (r_row r') = None ∧ r_tasks r' = r_tasks r ∧ s = run_state (r_row r').
Proof.
  intros Hl Htg Hcan. pose proof (effective_control_recorded r Hcan) as Hec. case_bool_decide as Hp.
  - intros [= <- <-]. split; [|done]. destruct Hl as [Hn Hs Hw Hg].
    split; cbn; auto; try done; try (intros; congruence); by intros [].
  - bind_ok as [j p] Ej. apply resolve_ok with (B := B) in Ej as (Hj & _ & _); [|by apply live_journal_ok].
    destruct (suspend_core p _ (live_journal _ _ _ Hl Hj) Htg) as (? & ? & ? & ? & _).
    intros E. rewrite (surjective_pairing (suspend now p (on_journal j r))) in E. by injection E as <- <-.
Qed.

Lemma apply_forward_core outcomes r s r' : (1 ≤ max_step_attempts policy ≤ B)%Z → core_ok B r →
  run_state (r_row r) = SRunning → apply_forward policy w now to_rfc3339 outcomes r = Ok (s, r') →
  core_ok B r' ∧ run_task_id (r_row r') = None ∧ r_tasks r' = r_tasks r ∧ s = run_state (r_row r').
Proof.
  intros HB Hok Hst. assert (is_terminal (run_state (r_row r)) = false) as Hnt by (by rewrite Hst).
  pose proof (core_live _ _ Hok Hnt) as Hl.
  assert (run_compensation_target (r_row r) = None) as Htg by (by apply no_rollback; rewrite ?Hst).
  unfold apply_forward. destruct (existsb is_compensation outcomes); [done|].
  destruct (existsb _ _) eqn:Hdecl; [done|]. bind_ok as [checkpoints update] Ef.
  destruct (fold_outcomes outcomes) as [[cps u]|] eqn:Eo; [|done]. injection Ef as -> ->.
  pose proof (folded_batch _ _ _ HB Hdecl Eo) as Hfold.
  bind_ok as j Ej. apply append_ok with (B := B) in Ej; [|lia|by apply live_journal_ok|done].
  pose proof (live_journal _ _ _ Hl Ej) as Hl1. set (r1 := on_journal j r) in *.
  assert (run_state (r_row r1) = SRunning) as Hst1 by done.
  case_bool_decide as Hcan.
  { intros E. apply settle_core in E as (? & ? & ? & _ & ? & _); [done..|by left]. }
  pose proof (effective_control_recorded r1 Hcan) as Hec.
  destruct update as [| | |output output_ref|seed seed_ref|e|e|]; try (intros E; by apply (rest_core r1) in E).
  - intros E. by apply (complete_run_core _ _ r1) in E.
  - intros E. by apply (continue_run_core _ r1) in E.
  - intros E. apply settle_core in E as (? & ? & ? & _ & ? & _); [done..|eauto].
  - intros [= <- <-]. destruct (finish_run_row SStalled (Some e) None true r1) as (Er & _ & _ & _ & Ek).
    split; [by apply finish_core; try apply Hl1|]. unfold finish. by rewrite Er, Ek.
  - intros E. apply settle_core in E as (? & ? & ? & _ & ? & _); [done..|by left].
Qed.

Lemma apply_core outcomes r s r' : (1 ≤ max_step_attempts policy ≤ B)%Z → core_ok B r →
  is_Some (run_task_id (r_row r)) → apply policy w now to_rfc3339 outcomes r = Ok (s, r') →
  core_ok B r' ∧ run_task_id (r_row r') = None ∧ r_tasks r' = r_tasks r ∧ s = run_state (r_row r').
Proof.
  intros HB Hok Htask. unfold apply. case_bool_decide; [done|]. destruct (_ <? _)%Z; [done|].
  destruct (_ <? _)%Z; [done|]. case_bool_decide as Hc; [by apply compensate_core|].
  apply apply_forward_core; [done..|]. by destruct (co_task _ _ Hok Htask).
Qed.

Lemma validate_task_Ok task r : validate_task now task r = Ok tt →
  run_task_id (r_row r) = Some (tk_id task) ∧ tk_state task = Leased ∧ (now < tk_deadline task)%Z ∧
  run_generation (r_row r) = tk_generation task ∧ run_lease_epoch (r_row r) = tk_epoch task ∧
  run_frontier_revision (r_row r) = tk_frontier_revision task.
Proof.
  unfold validate_task. destruct (_ || _) eqn:E; [done|]. intros _.
  rewrite !orb_false_iff, !negb_false_iff, !bool_decide_eq_true, Z.leb_gt, !Z.eqb_eq in E.
  by destruct E as [[[[[? ?] ?] ?] ?] ?].
Qed.

Lemma is_task_leased task t : is_task task t = true → is_leased t = true.
Proof. unfold is_task, is_leased. rewrite !andb_true_iff. by intros [_ ?]. Qed.

Lemma update_task_Ok task patch r r' : (∀ t, is_leased (patch t) = false) →
  length (List.filter is_leased (r_tasks r)) ≤ 1 → update_task task patch r = Ok r' →
  r_row r' = r_row r ∧ r_gen r' = r_gen r ∧ r_journal r' = r_journal r ∧
  List.filter is_leased (r_tasks r') = [].
Proof.
  intros Hs Hle. unfold update_task.
  destruct (Nat.eqb_spec (length (List.filter (is_task task) (r_tasks r))) 1); [|done].
  cbn [negb]. intros [= <-]. do 3 (split; [done|]). cbn. apply mark_one; [done..| |done].
  intros t. apply is_task_leased.
Qed.

Lemma complete_ok task outcomes r receipt r' : (1 ≤ max_step_attempts policy ≤ B)%Z → run_ok B r →
  complete policy w now to_rfc3339 task outcomes r = Ok (receipt, r') → run_ok B r'.
Proof.
  intros HB [Hok Hle]. unfold complete, complete_in. case_bool_decide.
  { destruct (tk_receipt task) as [[? ?]|]; [case_bool_decide|]; try done. by intros [= <- <-]. }
  bind_ok as [] Ev. apply validate_task_Ok in Ev as (Ht & _). bind_ok as [] Ead.
  bind_ok as [s1 r1] Ea. apply apply_core in Ea as (Hok1 & Ht1 & Hk1 & Hs1); [|done..|by rewrite Ht].
  bind_ok as r2 E2. cbn [snd] in E2. pose proof (advance_core B _ _ E2 Hok1) as Hok2.
  apply advance_Ok in E2 as (_ & _ & Hk2 & Hs2 & _ & Ht2 & _).
  bind_ok as [] Ev2. bind_ok as r3 E3. intros [= <- <-].
  apply update_task_Ok in E3 as (Er & Eg & Ej & El); [|done|].
  - split; [apply (core_ok_ext B r2); congruence|]. unfold leases_ok. by rewrite Er, Ht2, Ht1.
  - rewrite Hk2, Hk1. by apply leases_length.
Qed.

Lemma release_ok task r r' : run_ok B r → release now task r = Ok r' → run_ok B r'.
Proof.
  intros [Hok Hle]. unfold release. case_bool_decide; [by intros [= <-]|]. bind_ok as [] Ev. apply validate_task_Ok in Ev as (Ht & _).
  bind_ok as r1 E1. intros [= <-]. apply update_task_Ok in E1 as (Er & Eg & Ej & El); [|done|by apply leases_length].
  destruct (publish_row (on_row (λ q, set_row (run_state q) (run_control q) None (Some now) q) r1)) as (Pr & Pg & Pj & Pk).
  assert (core_ok B r1) as Hok1 by (by apply (core_ok_ext B r); congruence).
  assert (is_Some (run_task_id (r_row r1))) as Htask by (rewrite Er, Ht; eauto).
  split.
  - apply (core_ok_ext B (on_row (λ q, set_row (run_state q) (run_control q) None (Some now) q) r1)); try congruence.
    destruct Hok1. split; cbn; auto; try (intros; congruence).
    intros Hterm. destruct (co_terminal0 Hterm) as (_ & Hn & _). rewrite Hn in Htask. by destruct Htask.
  - unfold leases_ok. rewrite Pr, Pk. done.
Qed.

Lemma heartbeat_ok task r control r' : run_ok B r → heartbeat policy w now task r = Ok (control, r') → run_ok B r'.
Proof.
  intros [Hok Hle]. unfold heartbeat. bind_ok as [] Ev. apply validate_task_Ok in Ev as (Ht & _).
  destruct (_ || _); [by intros [= <- <-]|]. bind_ok as expires Ee. bind_ok as r1 E1. bind_ok as [] Ev2.
  intros [= <- <-]. revert E1. unfold update_task, mark_tasks.
  destruct (Nat.eqb_spec (length (List.filter (is_task task) (r_tasks r))) 1) as [Hone|]; [|done].
  cbn [negb]. intros [= <-].
  assert (is_terminal (run_state (r_row r)) = false) as Hnt.
  { destruct (is_terminal _) eqn:E; [|done]. destruct (co_terminal _ _ Hok E) as (_ & Hn & _). congruence. }
  split.
  - apply (core_ok_ext B (on_row (λ q, set_row (run_state q) (run_control (r_row r)) (run_task_id q) (Some expires) q) r)); try done.
    apply patch_core; [done..|apply Hok|by left; eauto].
  - unfold leases_ok in *. cbn. rewrite Ht in *. destruct Hle as (t & Hl & Hid & Hgen & Hep & _ & Hfr & Hjr).
    set (f := λ t, if is_task task t then _ else t).
    assert (∀ l, List.filter is_leased (map f l) = map f (List.filter is_leased l)) as Hmap.
    { induction l as [|x l IH]; [done|]. cbn. assert (is_leased (f x) = is_leased x) as ->
        by (unfold f; by destruct (is_task task x)). destruct (is_leased x); cbn; by rewrite IH. }
    assert (is_task task t = true) as Htt.
    { assert (List.filter (is_task task) (r_tasks r) = List.filter (is_task task) (List.filter is_leased (r_tasks r))) as Hf.
      { rewrite <- filter_and. apply List.filter_ext. intros x.
        destruct (is_task task x) eqn:E; [by rewrite (is_task_leased _ _ E)|by rewrite andb_false_r]. }
      rewrite Hf, Hl in Hone. cbn in Hone. by destruct (is_task task t). }
    exists (f t). rewrite Hmap, Hl. split; [done|]. unfold f. by rewrite Htt.
Qed.

(** ** Control, signals and starts *)

Lemma not_leased r : core_ok B r → leases_ok r → run_task_id (r_row r) = None →
  List.filter is_leased (r_tasks r) = [].
Proof. intros _ Hle Ht. unfold leases_ok in Hle. by rewrite Ht in Hle. Qed.

(** A patched and advanced run without a task. *)
Lemma advanced_ok f r r' : core_ok B (on_row f r) → leases_ok r → run_task_id (r_row r) = None →
  run_task_id (f (r_row r)) = None → advance (on_row f r) = Ok r' → run_ok B r'.
Proof.
  intros Hok Hle Ht Hf E. split; [by apply (advance_core B (on_row f r))|].
  apply advance_leases in E; [done|done|]. unfold leases_ok in *. rewrite Ht in Hle. cbn. by rewrite Hf.
Qed.

Lemma transition_ok operation r s r' : run_ok B r →
  transition policy now operation r = Ok (Ok (s, r')) → run_ok B r'.
Proof.
  intros [Hok Hle]. unfold transition. destruct (is_terminal (run_state (r_row r))) eqn:Hnt.
  { case_bool_decide; [|done]. intros [= <- <-]. by split. }
  assert (∀ control, is_Some (run_task_id (r_row r)) → run_ok B
    (on_row (λ q, set_row (run_state (r_row r)) control (run_task_id (r_row r)) (run_due_at (r_row r)) q) r)) as Hleased.
  { intros control Htask. split; [|done]. apply (patch_core control (run_due_at (r_row r))); [done..| |by right].
    intros Hp. by destruct (co_task _ _ Hok Htask); congruence. }
  destruct (run_task_id (r_row r)) as [id|] eqn:Et.
  - rewrite (bool_decide_true (is_Some (Some id))) by eauto.
    destruct operation; [|destruct (negb (admission policy)); [done|]|]; intros [= <- <-]; apply Hleased; eauto.
  - rewrite (bool_decide_false (is_Some None)) by (by intros []). destruct operation.
    + bind_ok as r1 E1. intros [= <- <-]. refine (advanced_ok _ _ _ _ Hle Et _ E1); [by apply park_core|done].
    + destruct (negb (admission policy)); [done|]. bind_ok as r1 E1. intros [= <- <-].
      pose proof (core_live _ _ Hok Hnt) as Hl. refine (advanced_ok _ _ _ _ Hle Et _ E1); [|done].
      case_bool_decide as Htg.
      * destruct Htg as [t Ht]. destruct (co_rollback _ _ Hok t Ht Hnt) as (_ & ? & ?).
        apply (rolling_core _ _ _ _ t); [done..|]. left. eauto.
      * apply forward_core; [done| |by right]. destruct (run_compensation_target (r_row r)); [|done].
        exfalso. apply Htg. eauto.
    + bind_ok as r1 E1. intros [= <- <-]. refine (advanced_ok _ _ _ _ Hle Et _ E1); [|done].
      apply (core_ok_ext B (on_row (λ q, set_row (run_state q) CancelIntent (run_task_id q) (Some now) q) r)); try done.
      apply patch_core; [done..|by left; eauto].
Qed.

Lemma made_due_ok r r' : run_ok B r → is_terminal (run_state (r_row r)) = false → run_task_id (r_row r) = None →
  advance (on_row (λ q, set_row (run_state q) (run_control q) (run_task_id q) (Some now) q) r) = Ok r' →
  run_ok B r'.
Proof.
  intros [Hok Hle] Hnt Ht E. refine (advanced_ok _ _ _ _ Hle Ht _ E); [|done].
  apply (core_ok_ext B (on_row (λ q, set_row (run_state q) (run_control (r_row r)) (run_task_id q) (Some now) q) r)); try done.
  apply patch_core; [done..|apply Hok|by left; eauto].
Qed.

Lemma with_effect_ok e r : run_ok B r → run_ok B (with_effect e r).
Proof. intros [Hok Hle]. split; [by apply (core_ok_ext B r)|done]. Qed.

Lemma wake_idle_ok states r r' : run_ok B r → Forall (λ s, is_terminal s = false) states →
  wake_idle now states r = Ok r' → run_ok B r'.
Proof.
  intros Hok Hst. unfold wake_idle. destruct (_ && bool_decide (_ ∈ _)) eqn:E; [|by intros [= <-]].
  rewrite !andb_true_iff, !bool_decide_eq_true in E. destruct E as [[Ht _] Hs].
  apply made_due_ok; [done| |done]. by rewrite Forall_forall in Hst; apply Hst.
Qed.

Lemma wake_ok r r' : run_ok B r → wake now r = Ok r' → run_ok B r'.
Proof. intros Hok. apply wake_idle_ok; [done|by repeat constructor]. Qed.

(** The mailbox is no part of the invariant. *)
Lemma mailbox_ok signals r : run_ok B r →
  run_ok B (on_journal (mk_journal (j_rows (r_journal r)) (j_waits (r_journal r)) signals (j_revision (r_journal r))) r).
Proof. intros [Hok Hle]. split; [|done]. destruct Hok. split; auto. Qed.

Lemma materialize_ok id signal_type origin topic payload created_at sequence ordinal r r' : run_ok B r →
  materialize now id signal_type origin topic payload created_at sequence ordinal r = Ok r' → run_ok B r'.
Proof.
  intros Hok. unfold materialize. destruct (negb _); [by intros [= <-]|].
  apply wake_idle_ok; [|by repeat constructor]. by apply with_effect_ok, mailbox_ok.
Qed.

Lemma cancel_intent_ok r r' : run_ok B r → is_terminal (run_state (r_row r)) = false →
  cancel_intent now r = Ok r' → run_ok B r'.
Proof.
  intros [Hok Hle] Hnt. unfold cancel_intent. case_bool_decide as Ht.
  - intros [= <-]. split; [|done]. apply (core_ok_ext B (on_row (λ q, set_row (run_state q) CancelIntent
      (run_task_id q) (run_due_at (r_row r)) q) r)); try done. apply patch_core; [done..|by right].
  - assert (run_task_id (r_row r) = None) as Et by (destruct (run_task_id (r_row r)); [exfalso; eauto|done]).
    intros E. refine (advanced_ok _ _ _ _ Hle Et _ E); [|done]. apply patch_core; [done..|by left; eauto].
Qed.

Lemma cascade_ok r r' : run_ok B r → cascade now r = Ok r' → run_ok B r'.
Proof.
  intros Hok. unfold cascade. destruct (is_terminal _) eqn:Hnt; [by intros [= <-]|]. by apply cancel_intent_ok.
Qed.

Lemma replace_ok r r' : run_ok B r → is_Some (run_key (r_row r)) → replace now r = Ok r' → run_ok B r'.
Proof.
  intros [Hok Hle] [key Hkey]. assert (is_terminal (run_state (r_row r)) = false) as Hnt.
  { destruct (is_terminal _) eqn:E; [|done]. destruct (co_terminal _ _ Hok E) as (_ & _ & _ & Hn & _). congruence. }
  apply cancel_intent_ok; [|done]. split; [|done]. destruct Hok. split; cbn; auto; try (intros; congruence).
Qed.

Lemma deliver_ok id signal_type origin payload sequence r r' : run_ok B r →
  deliver now id signal_type origin payload sequence r = Ok r' → run_ok B r'.
Proof.
  intros [Hok Hle]. unfold deliver. destruct (is_terminal (run_state (r_row r))) eqn:Hnt; [done|].
  set (r1 := on_journal _ r).
  assert (run_ok B r1) as Hok1 by (by apply mailbox_ok).
  bind_ok as r2 E2. intros [= <-]. apply with_effect_ok. revert E2.
  destruct (_ && _) eqn:E; [|by intros [= <-]].
  rewrite !andb_true_iff, !bool_decide_eq_true in E. destruct E as [[[Ht _] Hs] _].
  by apply made_due_ok.
Qed.
(** ** Restarts *)

Lemma retained_rows prefix rows : numbered (map row_step rows) →
  copy_prefix prefix rows = take (Z.to_nat prefix) rows.
Proof.
  intros Hn. assert (∀ k l, (∀ i q, l !! i = Some q → st_ordinal (row_step q) = (k + Z.of_nat i)%Z) →
    copy_prefix prefix l = take (Z.to_nat (prefix - k)) l) as Hgen.
  { intros k l. revert k. induction l as [|q l IH]; intros k Hl; [by rewrite take_nil|].
    unfold copy_prefix in *. cbn [List.filter]. rewrite (Hl 0 q eq_refl), (IH (k + 1)%Z).
    - destruct (Z.ltb_spec (k + Z.of_nat 0) prefix).
      + replace (Z.to_nat (prefix - k)) with (S (Z.to_nat (prefix - (k + 1)))) by lia. done.
      + replace (Z.to_nat (prefix - k)) with 0 by lia. by replace (Z.to_nat (prefix - (k + 1))) with 0 by lia.
    - intros i x Hx. rewrite (Hl (S i) x Hx). lia. }
  rewrite (Hgen 0%Z), Z.sub_0_r; [done|]. intros i q Hi.
  destruct (Hn i (row_step q)) as [-> _]; [|done].
  change (map row_step rows) with (row_step <$> rows). by rewrite list_lookup_fmap, Hi.
Qed.

Lemma retained_steps prefix steps : numbered steps →
  List.filter (λ s, (st_ordinal s <? prefix)%Z) steps = take (Z.to_nat prefix) steps.
Proof.
  intros Hn. pose (rows := (λ s, mk_step_row s 0 0 None None) <$> steps).
  assert (map row_step rows = steps) as Hr.
  { unfold rows. clear. induction steps as [|s l IH]; [done|]. cbn. by rewrite IH. }
  rewrite <- Hr at 1. pose proof (retained_rows prefix rows) as H'. rewrite Hr in H'. specialize (H' Hn).
  assert (List.filter (λ s, (st_ordinal s <? prefix)%Z) (map row_step rows) = map row_step (copy_prefix prefix rows)) as ->.
  { unfold copy_prefix. clear. induction rows as [|q l IH]; [done|]. cbn. destruct (_ <? _)%Z; cbn; by rewrite IH. }
  rewrite H'. change (map row_step) with (fmap (M := list) row_step). rewrite fmap_take. by f_equal.
Qed.

Lemma expired_leases r : leases_ok r → List.filter is_leased
  (mark_tasks (λ t, (tk_generation t =? run_generation (r_row r))%Z && bool_decide (tk_state t = Leased))
     (close_task Expired) (r_tasks r)) = [].
Proof.
  intros Hle. rewrite filter_mark, filter_and by done. unfold leases_ok in Hle.
  destruct (run_task_id (r_row r)); [destruct Hle as (t & Hl & _ & Hg & _)|by rewrite Hle].
  rewrite Hl. cbn. assert (t ∈ List.filter is_leased (r_tasks r)) as Ht by (rewrite Hl; by left).
  apply elem_of_lfilter in Ht as [_ Hlt]. unfold is_leased in Hlt. by rewrite Hg, Z.eqb_refl, Hlt.
Qed.

Lemma restarted_ok prefix r : run_ok B r →
  existsb (λ s, is_pending s || is_retrying s) (take (Z.to_nat prefix) (r_steps r)) = false →
  run_ok B (restarted now prefix r).
Proof.
  intros [Hok Hle] Hun. unfold restarted. apply with_effect_ok.
  set (r1 := mk_run _ _ _ _ _).
  assert (run_ok B r1) as [Hok1 Hle1].
  { assert (r_steps r1 = take (Z.to_nat prefix) (r_steps r)) as Hst.
    { unfold r_steps, j_steps. cbn. rewrite retained_rows by apply Hok. change (map row_step) with (fmap (M := list) row_step).
      by rewrite fmap_take. }
    split; [|apply (expired_leases r Hle)].
    split; rewrite ?Hst; cbn; try done; try (intros; congruence); try (by intros []).
    - by apply numbered_take, Hok.
    - apply Forall_take, Hok.
    - intros _. destruct (List.filter is_running _) as [|s l] eqn:E; [done|exfalso].
      assert (s ∈ List.filter is_running (take (Z.to_nat prefix) (r_steps r))) as Hs by (rewrite E; by left).
      apply elem_of_lfilter in Hs as [Hin Hrun]. apply not_true_iff_false in Hun. apply Hun, existsb_exists.
      exists s. split; [by apply list_elem_of_In|]. unfold is_pending. unfold is_running in Hrun. by rewrite Hrun. }
  assert (∀ r2, run_ok B r2 → run_ok B (publish r2)) as Hpub.
  { intros r2 [Hok2 Hle2]. destruct (publish_row r2) as (Pr & Pg & Pj & Pk).
    split; [apply (core_ok_ext B r2); congruence|]. unfold leases_ok in *. by rewrite Pr, Pk, Pj. }
  apply Hpub. case_bool_decide; [apply with_effect_ok|]; by split.
Qed.

Lemma restart_inv options r from r' : numbered (r_steps r) → restart policy w now options r = Ok (Ok (from, r')) →
  restart_from options (r_steps r) = Some from ∧ r' = restarted now (default 0%Z from) r ∧
  existsb (λ s, is_pending s || is_retrying s) (take (Z.to_nat (default 0%Z from)) (r_steps r)) = false ∧
  existsb (λ s, match st_compensation_state s with
                | Some state => negb (bool_decide (state = lit "pending")) | None => false end)
    (take (Z.to_nat (default 0%Z from)) (r_steps r)) = false ∧
  existsb (λ t, (tk_generation t =? run_generation (r_row r))%Z && bool_decide (tk_state t = Leased)
                && (now <? tk_deadline t)%Z) (r_tasks r) = false.
Proof.
  intros Hn. unfold restart. destruct (negb _); [done|]. destruct (effective_deploy options); [|done].
  destruct (restart_from options (r_steps r)) as [f|]; [|done]. destruct (_ && _); [done|].
  bind_ok as d Ed. bind_ok as c Ec. rewrite retained_steps by done. unfold restart_check.
  cbn [live_lease active_descendants active_compensation compensated_prefix].
  destruct (existsb _ (r_tasks r)) eqn:El; [done|]. destruct (d || c); [done|].
  destruct (_ && existsb owed (r_steps r)); [done|].
  destruct (existsb _ (take _ _)) eqn:Ecp; [done|]. destruct (w_fenced w); [done|].
  destruct (existsb (λ s, is_pending s || is_retrying s) _) eqn:Eu; [done|]. bind_ok as b Eb.
  destruct b; [done|]. destruct (_ <? _)%Z; [done|]. by intros [= <- <-].
Qed.

Lemma restart_ok options r from r' : run_ok B r → restart policy w now options r = Ok (Ok (from, r')) → run_ok B r'.
Proof.
  intros Hok E. apply restart_inv in E as (_ & -> & Hun & _); [by apply restarted_ok|apply Hok].
Qed.
End operations.

Lemma new_run_ok B key now : run_ok B (new_run key now).
Proof.
  split; [split; cbn; try done|done].
  by intros [].
Qed.

Lemma grants_within_pos B policy : grants_within B policy → (1 ≤ max_step_attempts policy ≤ B)%Z.
Proof.
  intros [Hv Hm]. split; [|done]. unfold policy_validate in Hv. destruct (_ || _) eqn:E; [done|].
  rewrite !orb_false_iff, !Z.leb_gt in E. lia.
Qed.

Lemma run_step_ok `{Chrono} B r r' : run_ok B r → run_step B r r' → run_ok B r'.
Proof.
  intros Hok [policy w now rfc task Hp E|policy w now rfc task outcomes receipt Hp _ E|now task _ E|
    policy w now task control _ E|policy now operation state E|now id t origin payload sequence E|now E|
    now id t origin topic payload at_ sequence ordinal E|now E|now Hk E|policy w now options from E].
  - by eapply poll_ok.
  - apply (complete_ok _ _ _ B) in E; [done|by apply grants_within_pos|done].
  - by eapply release_ok.
  - by eapply heartbeat_ok.
  - by eapply transition_ok.
  - by eapply deliver_ok.
  - by eapply wake_ok.
  - by eapply materialize_ok.
  - by eapply cascade_ok.
  - by eapply replace_ok.
  - by eapply restart_ok.
Qed.

Lemma reachable_ok `{Chrono} B r : reachable B r → run_ok B r.
Proof. induction 1; [apply new_run_ok|by eapply run_step_ok]. Qed.

(** C3: every run the service can reach is well formed. Whatever polls, reports, lease
    recoveries, control operations and signals led to it, its journal has no gaps and
    keeps the attempt budget, its wait rows are its pending steps, a terminal run rests,
    a run that is rolling back still owes a compensator and knows the state it will rest
    in, and there is at most one live lease, which is the run's task. *)
Theorem reachable_run_ok `{Chrono} (B : Z) (r : Run) : reachable B r → run_ok B r.
Proof. apply reachable_ok. Qed.

(** * Rest *)

Lemma validate_needs_task now task r : run_task_id (r_row r) = None →
  validate_task now task r = Err (Conflict "workflow task lease is no longer current").
Proof.
  intros Ht. unfold validate_task. rewrite Ht, (bool_decide_false (None = Some _)) by done.
  by rewrite orb_true_r.
Qed.

Lemma restarted_generation now prefix r :
  run_generation (r_row (restarted now prefix r)) = (run_generation (r_row r) + 1)%Z ∧
  run_state (r_row (restarted now prefix r)) = SQueued.
Proof. unfold restarted. cbn. by case_bool_decide. Qed.

Lemma wake_idle_terminal now states r r' : is_terminal (run_state (r_row r)) = true →
  Forall (λ s, is_terminal s = false) states → wake_idle now states r = Ok r' → r' = r.
Proof.
  intros Hterm Hst. unfold wake_idle. destruct (_ && bool_decide (_ ∈ _)) eqn:E; [|by intros [= <-]].
  rewrite !andb_true_iff, !bool_decide_eq_true in E. destruct E as [_ Hs].
  rewrite Forall_forall in Hst. apply Hst in Hs. congruence.
Qed.

(** A terminal run rests: whatever else the service does with it, it stays exactly as
    it is, and only a restart moves it, to the next generation. *)
Theorem terminal_run_rests `{Chrono} (B : Z) (r r' : Run) : reachable B r →
  is_terminal (run_state (r_row r)) = true → run_step B r r' →
  r' = r ∨ ∃ policy w now options from, restart policy w now options r = Ok (Ok (from, r')) ∧
    run_generation (r_row r') = (run_generation (r_row r) + 1)%Z ∧ run_state (r_row r') = SQueued.
Proof.
  intros [Hok _]%reachable_ok Hterm Hstep. destruct (co_terminal _ _ Hok Hterm) as (Hc & Ht & Hd & Hkey & _).
  destruct Hstep as [policy w now rfc task _ E|policy w now rfc task outcomes receipt _ _ E|now task _ E|
    policy w now task control _ E|policy now operation state E|now id t origin payload sequence E|now E|
    now id t origin topic payload at_ sequence ordinal E|now E|now Hk E|policy w now options from E];
    [left..|right].
  - unfold poll in E. rewrite Hd in E. by injection E.
  - revert E. unfold complete, complete_in. case_bool_decide; [|intros E; by rewrite (validate_needs_task now) in E].
    destruct (tk_receipt task) as [[? ?]|]; [case_bool_decide|]; try done. by intros [= _ ->].
  - revert E. unfold release. case_bool_decide; [by intros [= ->]|intros E; by rewrite (validate_needs_task now) in E].
  - unfold heartbeat in E. by rewrite (validate_needs_task now) in E.
  - unfold transition in E. rewrite Hterm in E. case_bool_decide; by injection E.
  - unfold deliver in E. by rewrite Hterm in E.
  - revert E. apply wake_idle_terminal; [done|by repeat constructor].
  - unfold materialize, is_recipient in E. rewrite Hterm in E. by injection E.
  - unfold cascade in E. rewrite Hterm in E. by injection E.
  - rewrite Hkey in Hk. by destruct Hk.
  - exists policy, w, now, options, from. split; [done|].
    apply restart_inv in E as (_ & -> & _); [apply restarted_generation|apply Hok].
Qed.

(** * Leases *)

Lemma in_singleton_filter (l : list Task) t t1 : List.filter is_leased l = [t1] → t ∈ l →
  tk_state t = Leased → t = t1.
Proof.
  intros Hf Hin Hs. assert (t ∈ List.filter is_leased l) as Ht
    by (apply elem_of_lfilter; split; [done|by apply bool_decide_eq_true]).
  rewrite Hf in Ht. by apply list_elem_of_singleton in Ht.
Qed.

(** C12: one executor at a time. In every reachable run at most one task can report,
    extend its lease or be given back, whenever each of them tries; and once a report of
    it is committed no task of the run can. *)
Theorem single_executor `{Chrono} (B : Z) (r : Run) (t1 t2 : Task) (now1 now2 : Z) : reachable B r →
  t1 ∈ r_tasks r → t2 ∈ r_tasks r →
  validate_task now1 t1 r = Ok tt → validate_task now2 t2 r = Ok tt →
  t1 = t2 ∧ ∀ policy w rfc outcomes receipt r' now t, grants_within B policy →
    complete policy w now1 rfc t1 outcomes r = Ok (receipt, r') → t ∈ r_tasks r' →
    validate_task now t r' = Err (Conflict "workflow task lease is no longer current").
Proof.
  intros Hr Hin1 Hin2 Hv1 Hv2. apply reachable_ok in Hr. pose proof Hr as [_ Hle].
  apply validate_task_Ok in Hv1 as (Ht1 & Hs1 & _), Hv2 as (_ & Hs2 & _).
  unfold leases_ok in Hle. rewrite Ht1 in Hle. destruct Hle as (t & Hf & _).
  split; [rewrite (in_singleton_filter _ _ _ Hf Hin1 Hs1); by rewrite (in_singleton_filter _ _ _ Hf Hin2 Hs2)|].
  intros policy w rfc outcomes receipt r' now t' Hp E _. apply validate_needs_task.
  revert E. unfold complete, complete_in. rewrite bool_decide_false by congruence. bind_ok as [] Ev. bind_ok as [] Ead. bind_ok as [s1 r1] Ea.
  apply (apply_core _ _ _ B) in Ea as (_ & Hn & _); [|by apply grants_within_pos|apply Hr|by rewrite Ht1].
  bind_ok as r2 E2. apply advance_Ok in E2 as (_ & _ & _ & _ & _ & Ht2 & _). cbn [snd] in Ht2.
  bind_ok as [] Ev2. bind_ok as r3 E3. intros [= _ <-]. unfold update_task in E3. destruct (negb _); [done|]. injection E3 as <-.
  cbn. congruence.
Qed.

(** ** Settled tasks are history *)

(** A task that is no longer leased keeps its row. *)
Definition keeps_tasks (r r' : Run) : Prop :=
  ∀ t, t ∈ r_tasks r → is_leased t = false → t ∈ r_tasks r'.

#[global] Instance keeps_tasks_preorder : PreOrder keeps_tasks.
Proof. split; [by intros r t Ht _|]. intros x y z Hxy Hyz t Ht Hl. auto. Qed.

Lemma same_tasks r r' : r_tasks r' = r_tasks r → keeps_tasks r r'.
Proof. by intros E t Ht _; rewrite E. Qed.

Lemma mark_keeps hit patch tasks t : (∀ t, hit t = true → is_leased t = true) → t ∈ tasks →
  is_leased t = false → t ∈ mark_tasks hit patch tasks.
Proof.
  intros Hhit Ht Hl. apply list_elem_of_fmap. exists t. split; [|done].
  destruct (hit t) eqn:E; [apply Hhit in E; congruence|done].
Qed.

Lemma update_task_keeps task patch r r' : update_task task patch r = Ok r' → keeps_tasks r r'.
Proof.
  unfold update_task. destruct (negb _); [done|]. intros [= <-] t Ht Hl. apply mark_keeps; [|done..].
  apply is_task_leased.
Qed.

Lemma advance_keeps r r' : advance r = Ok r' → keeps_tasks r r'.
Proof. intros E. apply same_tasks. by apply advance_Ok in E as (_ & _ & -> & _). Qed.

Lemma reclaim_keeps now r r' : reclaim now r = Ok r' → keeps_tasks r r'.
Proof.
  unfold reclaim. destruct (run_task_id (r_row r)); [|by intros [= <-]]. destruct (negb _); [done|].
  intros [= <-] t Ht Hl. apply mark_keeps; [|done..].
  intros t'. rewrite !andb_true_iff. unfold is_leased. by intros [[_ ?] _].
Qed.

Lemma assign_keeps policy w now lease r claim r' : assign policy w now lease r = Ok (claim, r') → keeps_tasks r r'.
Proof.
  unfold assign. destruct (negb _); [by intros [= <- <-]|]. destruct (_ || _); [by intros [= <- <-]|].
  destruct (_ <=? _)%Z; [by intros [= <- <-]|]. bind_ok as [] Ei. destruct (_ <? _)%Z; [done|].
  bind_ok as expires Ee. case_bool_decide; [done|]. intros [= <- <-] t Ht _. apply elem_of_app. by left.
Qed.

Lemma poll_keeps `{Chrono} B policy w now rfc r task r' : run_ok B r → poll policy w now rfc r = Ok (task, r') →
  keeps_tasks r r'.
Proof.
  intros Hok. unfold poll. destruct (run_due_at (r_row r)) as [due|] eqn:Ed; [|by intros [= <- <-]].
  destruct (now <? due)%Z; [by intros [= <- <-]|]. cbn [orb].
  destruct (is_terminal (run_state (r_row r))) eqn:Hnt; [by intros [= <- <-]|].
  bind_ok as r1 E1. pose proof (reclaim_keeps _ _ _ E1) as Hk1.
  apply (reclaim_ok _ B) in E1 as ([Hok1 _] & Ht1 & Hs1 & Hd1 & _); [|done..|by rewrite Ed].
  bind_ok as [ready r2] E2. cbn [fst snd].
  apply (prepare_core _ _ _ B) in E2 as (_ & Hk2 & _); [|done|by rewrite Hs1|done|by rewrite Hd1, Ed].
  assert (keeps_tasks r r2) as Hk by (etrans; [done|by apply same_tasks]). destruct ready.
  - bind_ok as [claim r3] E3. intros [= <- <-]. etrans; [done|]. by eapply assign_keeps.
  - bind_ok as r3 E3. intros [= <- <-]. etrans; [done|]. by apply advance_keeps.
Qed.

Lemma complete_keeps `{Chrono} B policy w now rfc task outcomes r receipt r' : grants_within B policy →
  run_ok B r → complete policy w now rfc task outcomes r = Ok (receipt, r') → keeps_tasks r r'.
Proof.
  intros Hp%grants_within_pos [Hok _]. unfold complete, complete_in. case_bool_decide.
  { destruct (tk_receipt task) as [[? ?]|]; [case_bool_decide|]; try done. by intros [= <- <-]. }
  bind_ok as [] Ev. apply validate_task_Ok in Ev as (Ht & _). bind_ok as [] Ead.
  bind_ok as [s1 r1] Ea. apply (apply_core _ _ _ B) in Ea as (_ & _ & Hk1 & _); [|done..|by rewrite Ht].
  bind_ok as r2 E2. bind_ok as [] Ev2. bind_ok as r3 E3. intros [= <- <-].
  etrans; [by apply same_tasks|]. etrans; [by apply advance_keeps|]. by eapply update_task_keeps.
Qed.

Lemma transition_keeps policy now operation r s r' : transition policy now operation r = Ok (Ok (s, r')) →
  keeps_tasks r r'.
Proof.
  unfold transition. destruct (is_terminal _); [case_bool_decide; [|done]; by intros [= <- <-]|].
  destruct operation, (bool_decide (is_Some (run_task_id (r_row r))));
    try (destruct (negb (admission policy)); [done|]); try (intros [= <- <-]; by apply same_tasks);
    bind_ok as r1 E1; intros [= <- <-]; apply advance_keeps in E1; exact E1.
Qed.

Lemma wake_idle_keeps now states r r' : wake_idle now states r = Ok r' → keeps_tasks r r'.
Proof. unfold wake_idle. destruct (_ && _); [|by intros [= <-]]. intros E1%advance_keeps. exact E1. Qed.

Lemma cancel_intent_keeps now r r' : cancel_intent now r = Ok r' → keeps_tasks r r'.
Proof.
  unfold cancel_intent. case_bool_decide; [intros [= <-]; by apply same_tasks|].
  intros E1%advance_keeps. exact E1.
Qed.

Lemma restarted_keeps now prefix r : keeps_tasks r (restarted now prefix r).
Proof.
  intros t Ht Hl. unfold restarted. cbn [with_effect r_tasks].
  match goal with |- context [publish ?q] => destruct (publish_row q) as (_ & _ & _ & ->) end.
  case_bool_decide; cbn [with_effect r_tasks]; (apply mark_keeps; [|done..]);
    intros t'; rewrite andb_true_iff; by intros [_ ?].
Qed.

Lemma run_step_keeps `{Chrono} B r r' : run_ok B r → run_step B r r' → keeps_tasks r r'.
Proof.
  intros Hok [policy w now rfc task Hp E|policy w now rfc task outcomes receipt Hp _ E|now task _ E|
    policy w now task control _ E|policy now operation state E|now id t origin payload sequence E|now E|
    now id t origin topic payload at_ sequence ordinal E|now E|now Hk E|policy w now options from E].
  - by eapply poll_keeps.
  - by eapply complete_keeps.
  - revert E. unfold release. case_bool_decide; [by intros [= <-]|]. bind_ok as [] Ev. bind_ok as r1 E1.
    intros [= <-]. etrans; [by eapply update_task_keeps|]. apply same_tasks.
    by match goal with |- context [publish ?q] => destruct (publish_row q) as (_ & _ & _ & ->) end.
  - revert E. unfold heartbeat. bind_ok as [] Ev. destruct (_ || _); [by intros [= <- <-]|].
    bind_ok as expires Ee. bind_ok as r1 E1. bind_ok as [] Ev2. intros [= <- <-].
    apply update_task_keeps in E1. exact E1.
  - by eapply transition_keeps.
  - revert E. unfold deliver. destruct (is_terminal _); [done|]. bind_ok as r1 E1. intros [= <-]. revert E1.
    destruct (_ && _); [|intros [= <-]; by apply same_tasks]. intros E1%advance_keeps. exact E1.
  - by eapply wake_idle_keeps.
  - revert E. unfold materialize. destruct (negb _); [by intros [= <-]|]. intros E%wake_idle_keeps. exact E.
  - revert E. unfold cascade. destruct (is_terminal _); [by intros [= <-]|]. apply cancel_intent_keeps.
  - apply cancel_intent_keeps in E. exact E.
  - apply restart_inv in E as (_ & -> & _); [|apply Hok]. apply restarted_keeps.
Qed.

Lemma run_steps_keep `{Chrono} B r r' : run_ok B r → rtc (run_step B) r r' → keeps_tasks r r'.
Proof.
  intros Hok Hs. induction Hs as [|r r1 r2 Hs _ IH]; [done|].
  etrans; [by eapply run_step_keeps|]. apply IH. by eapply run_step_ok.
Qed.

(** The row a committed report leaves. *)
Lemma complete_receipt `{Chrono} policy w now rfc task outcomes r receipt r' : task ∈ r_tasks r →
  complete policy w now rfc task outcomes r = Ok (receipt, r') →
  ∃ t, t ∈ r_tasks r' ∧ tk_id t = tk_id task ∧ tk_state t = TaskCompleted ∧
    tk_receipt t = Some (w_digest w outcomes, receipt).
Proof.
  intros Hin. unfold complete, complete_in. case_bool_decide as Hst.
  { destruct (tk_receipt task) as [[d rc]|] eqn:E; [|done]. case_bool_decide; [|done]. intros [= <- <-].
    exists task. subst d. by rewrite Hst, E. }
  bind_ok as [] Ev. bind_ok as [] Ead. bind_ok as [s1 r1] Ea. bind_ok as r2 E2. bind_ok as [] Ev2.
  bind_ok as r3 E3. intros [= <- <-]. revert E3. unfold update_task.
  destruct (Nat.eqb_spec (length (List.filter (is_task task) (r_tasks r2))) 1) as [Hone|]; [|done].
  cbn [negb]. intros [= <-].
  destruct (List.filter (is_task task) (r_tasks r2)) as [|t l] eqn:Ef; [done|].
  assert (t ∈ List.filter (is_task task) (r_tasks r2)) as Ht by (rewrite Ef; by left).
  apply elem_of_lfilter in Ht as [Htin Htt]. cbn [r_tasks].
  eexists (set_task (tk_deadline t) TaskCompleted _ t). split.
  { apply list_elem_of_fmap. exists t. rewrite Htt. by split. }
  unfold is_task in Htt. rewrite !andb_true_iff, bool_decide_eq_true in Htt. split; [apply Htt|done].
Qed.

(** C4: a report is committed once. After it, whatever happens to the run, the same
    report is answered with the same receipt and changes nothing, and a different report
    on that task is refused. *)
Theorem completion_once `{Chrono} (B : Z) (policy : AppPolicy) (w : World) (now : Z) (rfc : Z → bytes)
    (task : Task) (outcomes : list StepOutcome) (r r' : Run) (receipt : CompletionReceipt) :
  reachable B r → grants_within B policy → task ∈ r_tasks r →
  complete policy w now rfc task outcomes r = Ok (receipt, r') →
  ∃ t, tk_id t = tk_id task ∧ ∀ r'', rtc (run_step B) r' r'' → t ∈ r_tasks r'' ∧
    ∀ policy' w' now' rfc' outcomes', complete policy' w' now' rfc' t outcomes' r'' =
      if bool_decide (w_digest w outcomes = w_digest w' outcomes') then Ok (receipt, r'')
      else Err (Conflict "workflow task was completed with another result").
Proof.
  intros Hr%reachable_ok Hp Hin E. pose proof (complete_receipt _ _ _ _ _ _ _ _ _ Hin E) as (t & Ht & Hid & Hst & Hrc).
  exists t. split; [done|]. intros r'' Hs. split.
  - apply (run_steps_keep B r'); [|done..|by unfold is_leased; rewrite Hst, bool_decide_false].
    apply (complete_ok _ _ _ B) in E; [done|by apply grants_within_pos|done].
  - intros. unfold complete, complete_in. by rewrite Hst, (bool_decide_true (TaskCompleted = TaskCompleted)), Hrc.
Qed.

(** * Rollback *)

(** The reports a rollback can still take: what is left of each owed compensator's
    attempts, one at least. *)
Definition row_budget (q : StepRow) : nat :=
  if owed (row_step q)
  then Z.to_nat (Z.max 1 (st_compensation_max_attempts (row_step q) - row_compensation_attempts q)) else 0.
Definition rollback_budget (r : Run) : nat := sum_list (row_budget <$> j_rows (r_journal r)).

Lemma sum_list_insert (f : StepRow → nat) l i x y : l !! i = Some x →
  sum_list (f <$> <[i := y]> l) + f x = sum_list (f <$> l) + f y.
Proof.
  revert i. induction l as [|z l IH]; intros [|i] Hi; try done.
  - injection Hi as ->. cbn. lia.
  - specialize (IH i Hi). change (<[S i := y]> (z :: l)) with (z :: <[i := y]> l).
    rewrite !fmap_cons. cbn [sum_list_with]. lia.
Qed.

Lemma reported_owed q error due : owed (row_step (reported_row q error due)) = true ↔
  is_Some error ∧ (row_compensation_attempts q + 1 < st_compensation_max_attempts (row_step q))%Z.
Proof.
  unfold owed, reported_row, reported_state. cbn [row_step with_compensation st_compensation_state].
  destruct (retries q error) eqn:Er; unfold retries in Er.
  - rewrite andb_true_iff, bool_decide_eq_true, Z.ltb_lt in Er. rewrite (bool_decide_true (lit "pending" = _)) by done.
    naive_solver.
  - split; [|intros [He Hlt]; rewrite bool_decide_true, (proj2 (Z.ltb_lt _ _)) in Er by done; done].
    destruct error; vm_compute; done.
Qed.

Lemma reported_budget q error due : owed (row_step q) = true →
  row_budget (reported_row q error due) < row_budget q.
Proof.
  intros Ho. unfold row_budget. rewrite Ho. cbn [reported_row row_step row_compensation_attempts].
  change (st_compensation_max_attempts (with_compensation _ ?s)) with (st_compensation_max_attempts s).
  unfold owed, reported_state. cbn [with_compensation st_compensation_state].
  destruct (retries q error) eqn:Er.
  - rewrite (bool_decide_true (lit "pending" = lit "pending")) by done. cbn [orb].
    unfold retries in Er. apply andb_true_iff in Er as [_ Er%Z.ltb_lt]. lia.
  - assert (∀ s, s = lit "failed" ∨ s = lit "completed" →
      bool_decide (s = lit "pending") || bool_decide (s = lit "running") = false) as Hs
      by (intros s [-> | ->]; by vm_compute).
    rewrite Hs; [lia|]. destruct error; [left|right]; done.
Qed.

Section rollback.
Context `{Chrono}.
Variables (w : World) (clock : nat → Z) (errors : nat → option Value).

(** A rollback whose compensators report, at the times [clock] and with the results
    [errors], as long as the run asks for one. *)
Fixpoint rollback (n : nat) (r : Run) : wresult Run :=
  match n with
  | O => Ok r
  | S n' =>
      if bool_decide (run_state (r_row r) = SCompensating) then
        q ← pending_compensation r;
        res ← compensate w (clock n') [report_of q (errors n')] r;
        rollback n' res.2
      else Ok r
  end.

(** Counters and deadlines with room for [n] more reports. *)
Definition roomy (n : nat) (r : Run) : Prop :=
  (j_revision (r_journal r) + Z.of_nat n ≤ i64_max)%Z ∧
  Forall (λ q, (row_compensation_attempts q + Z.of_nat n ≤ i64_max)%Z ∧
    ∀ k, i64 (clock k + row_compensation_retry_ms q)) (j_rows (r_journal r)).

Lemma has_compensation_budget r : has_compensation r = true → rollback_budget r ≠ 0.
Proof.
  unfold has_compensation, rollback_budget, r_steps, j_steps. intros (s & Hin & Ho)%List.existsb_exists.
  apply in_map_iff in Hin as (q & <- & Hq). induction (j_rows (r_journal r)) as [|q' l IH]; [done|].
  cbn. destruct Hq as [->|Hq]; [unfold row_budget at 1; rewrite Ho; unfold id; lia|]. specialize (IH Hq). cbn in IH. lia.
Qed.

Lemma pending_total r : has_compensation r = true → ∃ q, pending_compensation r = Ok q.
Proof.
  unfold has_compensation, pending_compensation, r_steps, j_steps. intros (s & Hin & Ho)%List.existsb_exists.
  apply in_map_iff in Hin as (q & <- & Hq). destruct (find_is_Some (λ q, owed (row_step q)) (rev (j_rows (r_journal r))) q) as [q' ->];
    [by rewrite list_elem_of_In, <- in_rev|done|by eexists].
Qed.

Lemma compensation_report_of q error : compensation_report [report_of q error] =
  Ok (st_ordinal (row_step q), st_name (row_step q), st_name_occurrence (row_step q), error).
Proof. by destruct error. Qed.

(** The report of the newest obligation is accepted. *)
Lemma compensate_total n k r q : numbered (r_steps r) → pending_compensation r = Ok q → roomy (S n) r →
  is_Some (run_compensation_target (r_row r)) →
  ∃ s r', compensate w (clock k) [report_of q (errors k)] r = Ok (s, r').
Proof.
  intros Hn Hq [Hrev Hrows] [t Ht]. pose proof (pending_Ok _ _ Hq) as (i & Hi & Ho & _).
  destruct (proj1 (Forall_lookup _ _) Hrows i q Hi) as [Ha Hd].
  unfold compensate. rewrite Hq. cbn [mbind result_bind]. rewrite compensation_report_of. cbn [mbind result_bind].
  rewrite !Z.eqb_refl, bool_decide_true by done. cbn [negb orb].
  rewrite (proj2 (Z.ltb_ge _ _)) by lia. fold (retries q (errors k)). fold (reported_state q (errors k)).
  rewrite (save_checkpoint_total _ _ q) by (done || lia || by eapply list_elem_of_lookup_2).
  cbn [mbind result_bind].
  assert (∃ due, (if retries q (errors k) then Some <$> deadline (clock k) (row_compensation_retry_ms q) else Ok None) = Ok due) as [due ->].
  { destruct (retries q (errors k)); [|by eexists]. unfold deadline. specialize (Hd k). unfold i64 in Hd.
    rewrite (proj2 (Z.leb_le _ _)), (proj2 (Z.leb_le _ _)) by lia. by eexists. }
  cbn [mbind result_bind]. destruct (has_compensation _); [case_bool_decide; by do 2 eexists|].
  cbn [r_row on_journal]. rewrite Ht. cbn [ok_or]. case_bool_decide; cbn [mbind result_bind]; by do 2 eexists.
Qed.

(** One report leaves room and a smaller budget, or ends the rollback. *)
Lemma compensate_progress B n k r s r' outcomes : core_ok B r → run_state (r_row r) = SCompensating →
  effective_control w r ≠ PauseIntent → roomy (S n) r → compensate w (clock k) outcomes r = Ok (s, r') →
  is_terminal (run_state (r_row r')) = true ∨
  run_state (r_row r') = SCompensating ∧ effective_control w r' ≠ PauseIntent ∧ roomy n r' ∧
    rollback_budget r' < rollback_budget r.
Proof.
  intros Hok Hst Hec [Hrev Hrows] E. assert (is_terminal (run_state (r_row r)) = false) as Hnt by (by rewrite Hst).
  destruct (co_compensating _ _ Hok Hst) as [target Ht]. destruct (co_rollback _ _ Hok _ Ht Hnt) as (_ & _ & Htg).
  apply compensate_inv in E; [|apply Hok].
  destruct E as (i & q & error & due & j & Hi & Ho & _ & _ & _ & Hj & _ & Hjr & Hres). cbn zeta in Hres.
  destruct Hres as [[_ [(Hp & _)|[-> ->]]]|(_ & Hs & e & ->)]; [done| |].
  - right. split; [done|]. split; [done|]. split.
    + split; cbn; [lia|]. rewrite Hj. destruct (proj1 (Forall_lookup _ _) Hrows i q Hi) as [Ha Hd].
      apply Forall_insert; [|cbn; split; [lia|done]].
      eapply Forall_impl; [exact Hrows|]. intros q' [? ?]. split; [lia|done].
    + unfold rollback_budget. cbn. rewrite Hj.
      pose proof (sum_list_insert row_budget _ _ _ (reported_row q error due) Hi).
      pose proof (reported_budget q error due Ho). lia.
  - left. unfold finish. destruct (finish_run_row w (clock k) s (Some e) None true (on_journal j r)) as (-> & _). cbn.
    destruct Hs as [[_ Hs]|[_ ->]]; [|done]. assert (s = target) as -> by congruence. by destruct Htg as [-> | ->].
Qed.

Lemma rollback_ends B n r : core_ok B r → run_state (r_row r) = SCompensating →
  effective_control w r ≠ PauseIntent → roomy n r → rollback_budget r ≤ n →
  ∃ r', rollback n r = Ok r' ∧ is_terminal (run_state (r_row r')) = true.
Proof.
  revert r. induction n as [|n IH]; intros r Hok Hst Hec Hroom Hb;
    (assert (is_terminal (run_state (r_row r)) = false) as Hnt by (by rewrite Hst));
    destruct (co_compensating _ _ Hok Hst) as [target Ht];
    destruct (co_rollback _ _ Hok _ Ht Hnt) as (_ & Hc & _).
  { pose proof (has_compensation_budget r Hc). lia. }
  cbn [rollback]. rewrite bool_decide_true by done. destruct (pending_total r Hc) as [q Hq].
  rewrite Hq. cbn [mbind result_bind].
  destruct (compensate_total n n r q) as (s & r' & Hr'); [apply Hok|done..|by rewrite Ht|].
  rewrite Hr'. cbn [mbind result_bind snd].
  destruct (compensate_progress B n n r s r' _ Hok Hst Hec Hroom Hr') as [Hterm|(Hst' & Hec' & Hroom' & Hb')].
  - exists r'. split; [|done]. destruct n; [done|]. cbn [rollback]. rewrite bool_decide_false; [done|].
    intros E. by rewrite E in Hterm.
  - apply IH; [|done..|lia]. by apply (compensate_core w (clock n) B) in Hr' as [? _].
Qed.
End rollback.

(** Every rollback ends. However the compensators' attempts turn out, after at most
    as many reports as the owed steps have attempts left the run is at rest; a report is
    always accepted while the run asks for one. *)
Theorem rollback_terminates `{Chrono} (B : Z) (w : World) (clock : nat → Z)
    (errors : nat → option Value) (r : Run) : reachable B r → run_state (r_row r) = SCompensating →
  effective_control w r ≠ PauseIntent → roomy clock (rollback_budget r) r →
  ∃ r', rollback w clock errors (rollback_budget r) r = Ok r' ∧ is_terminal (run_state (r_row r')) = true.
Proof. intros [Hok _]%reachable_ok Hst Hec Hroom. by apply (rollback_ends w clock errors B). Qed.

(** C15: compensators run newest first, within their attempts. An accepted report is that
    of the newest step that owes its compensator; the step owes it again only after a
    failure with attempts left, and the rows of all other steps are untouched. When
    nothing is owed any more the run rests in the state it was rolling back for, or
    failed if a compensator did. *)
Theorem rollback_order `{Chrono} (B : Z) (w : World) (now : Z) (outcomes : list StepOutcome) (r r' : Run)
    (s : RunState) : reachable B r → run_state (r_row r) = SCompensating →
  compensate w now outcomes r = Ok (s, r') →
  ∃ i q error due, j_rows (r_journal r) !! i = Some q ∧ owed (row_step q) = true ∧
    (∀ k q', i < k → j_rows (r_journal r) !! k = Some q' → owed (row_step q') = false) ∧
    outcomes = [report_of q error] ∧
    j_rows (r_journal r') = <[i := reported_row q error due]> (j_rows (r_journal r)) ∧
    (owed (row_step (reported_row q error due)) = true ↔ is_Some error ∧
      (row_compensation_attempts q + 1 < st_compensation_max_attempts (row_step q))%Z) ∧
    (has_compensation r' = false → s = run_state (r_row r') ∧
      (compensation_failures r' = [] ∧ run_compensation_target (r_row r) = Some s ∨
       compensation_failures r' ≠ [] ∧ s = SFailed)).
Proof.
  intros [Hok _]%reachable_ok Hst E. apply compensate_inv in E; [|apply Hok].
  destruct E as (i & q & error & due & j & Hi & Ho & Hlast & Hout & _ & Hj & _ & _ & Hres).
  exists i, q, error, due. do 4 (split; [done|]). cbn zeta in Hres.
  assert (∀ e, j_rows (r_journal (finish w now s (Some e) (on_journal j r))) = j_rows j ∧
    run_state (r_row (finish w now s (Some e) (on_journal j r))) = s) as Hfin.
  { intros e. unfold finish. by destruct (finish_run_row w now s (Some e) None true (on_journal j r)) as (-> & _ & _ & -> & _). }
  split; [|split].
  - destruct Hres as [[_ [(_ & _ & ->)|[_ ->]]]|(_ & _ & e & ->)]; [done..|]. by rewrite (proj1 (Hfin e)).
  - apply reported_owed.
  - destruct Hres as [[Hc [(_ & _ & ->)|[_ ->]]]|(_ & Hs & e & ->)]; [intros Hf; change (has_compensation (on_journal j r) = false) in Hf; congruence..|].
    intros _. split; [by rewrite (proj2 (Hfin e))|]. unfold compensation_failures in *.
    by rewrite (proj1 (Hfin e)).
Qed.

(** * Silent executors *)

(** The strike a reclaimed lease leaves. *)
Lemma count_mark (p hit : Task → bool) tasks :
  (∀ t, t ∈ tasks → hit t = true → p t = true ∧ tk_state t = Leased) →
  (∀ t, p (close_task Expired t) = p t) →
  length (List.filter (λ t, p t && bool_decide (tk_state t = Expired)) (mark_tasks hit (close_task Expired) tasks)) =
  length (List.filter (λ t, p t && bool_decide (tk_state t = Expired)) tasks) + length (List.filter hit tasks).
Proof.
  intros Hhit Hp. unfold mark_tasks. induction tasks as [|t tasks IH]; [done|].
  assert (∀ t, t ∈ tasks → hit t = true → p t = true ∧ tk_state t = Leased) as Hhit'
    by (intros; apply Hhit; [by right|done]).
  specialize (IH Hhit'). cbn [map List.filter]. destruct (hit t) eqn:E.
  - destruct (Hhit t) as [Hpt Hst]; [by left|done|]. cbn [tk_state close_task set_task]. rewrite Hp, Hpt, Hst.
    rewrite bool_decide_true, bool_decide_false by done. cbn [andb length]. lia.
  - destruct (p t && _); cbn [length]; lia.
Qed.

Lemma reclaim_strikes B now r r' : run_ok B r → is_Some (run_task_id (r_row r)) → reclaim now r = Ok r' →
  stuck_dispatches r' = (stuck_dispatches r + 1)%Z.
Proof.
  intros [_ Hle] [task Et]. unfold reclaim, leases_ok in *. rewrite Et in *.
  destruct Hle as (t0 & Hl & _ & Hg & _ & _ & Hf & Hj).
  set (hit := λ t, bool_decide (tk_id t = task) && _ && _ && _ && _).
  destruct (Nat.eqb_spec (length (List.filter hit (r_tasks r))) 1) as [Hone|]; [|done].
  cbn [negb]. intros [= <-]. unfold stuck_dispatches. cbn [r_row r_tasks r_journal set_row run_generation run_frontier_revision].
  rewrite count_mark, Hone; [lia| |done].
  intros t Hin Hhit. assert (is_leased t = true) as Hlt.
  { revert Hhit. unfold hit, is_leased. rewrite !andb_true_iff. by intros [[_ ?] _]. }
  apply bool_decide_eq_true in Hlt. assert (t = t0) as -> by (by eapply in_singleton_filter).
  by rewrite Hg, Hf, Hj, !Z.eqb_refl.
Qed.

Lemma reclaim_control now r r' : reclaim now r = Ok r' → run_control (r_row r') = run_control (r_row r).
Proof.
  unfold reclaim. destruct (run_task_id (r_row r)); [|by intros [= <-]]. destruct (negb _); [done|].
  by intros [= <-].
Qed.

(** What an uncontrolled run that is not stuck is dispatched with. *)
Lemma prepare_uncontrolled policy w now rfc `{Chrono} r r' : effective_control w r = NoControl →
  prepare policy w now rfc r = Ok (true, r') →
  (stuck_dispatches r < max_stuck_dispatches policy)%Z ∧ r_row r' = r_row r ∧ r_tasks r' = r_tasks r.
Proof.
  intros Hc. unfold prepare. rewrite Hc. rewrite !bool_decide_false by done.
  destruct (Z.leb_spec (max_stuck_dispatches policy) (stuck_dispatches r)).
  { case_bool_decide; [bind_ok as res E|]; done. }
  case_bool_decide.
  - unfold compensation_ready. bind_ok as q Eq. destruct (_ <? _)%Z; [done|]. by intros [= <-].
  - bind_ok as [j progressed] Ej. destruct (_ && _ && _); [done|]. by intros [= <-].
Qed.

Lemma assign_stuck policy w now lease r task r' : assign policy w now lease r = Ok (Assigned task, r') →
  stuck_dispatches r' = stuck_dispatches r ∧ j_revision (r_journal r') = j_revision (r_journal r) ∧
  is_Some (run_task_id (r_row r')).
Proof.
  unfold assign. destruct (negb _); [done|]. destruct (_ || _); [done|]. destruct (_ <=? _)%Z; [done|].
  bind_ok as [] Ei. destruct (_ <? _)%Z; [done|]. bind_ok as expires Ee. case_bool_decide; [done|]. intros [= <- <-].
  split; [|split; [done|by eexists]]. unfold stuck_dispatches. cbn. rewrite List.filter_app, length_app. cbn.
  rewrite (bool_decide_false (Leased = Expired)), andb_false_r by done. cbn. lia.
Qed.

(** Polls that dispatch a run whose journal does not move in between: the executors
    they dispatch it to let their leases lapse without a report. *)
Inductive silent `{Chrono} (policy : AppPolicy) : nat → Run → Run → Prop :=
  | silent_start r : silent policy 0 r r
  | silent_dispatch n r r1 r2 w now rfc task : silent policy n r r1 → effective_control w r1 = NoControl →
      poll policy w now rfc r1 = Ok (Some task, r2) →
      j_revision (r_journal r2) = j_revision (r_journal r1) → silent policy (S n) r r2.

Lemma poll_uncontrolled `{Chrono} policy w now rfc B r task r' : run_ok B r → effective_control w r = NoControl →
  poll policy w now rfc r = Ok (Some task, r') →
  ∃ r1, reclaim now r = Ok r1 ∧ (stuck_dispatches r1 < max_stuck_dispatches policy)%Z ∧
    is_Some (run_task_id (r_row r')) ∧
    (j_revision (r_journal r') = j_revision (r_journal r) → stuck_dispatches r' = stuck_dispatches r1).
Proof.
  intros Hok Hc. unfold poll. destruct (run_due_at (r_row r)) as [due|] eqn:Ed; [|done].
  destruct (now <? due)%Z; [done|]. cbn [orb].
  destruct (is_terminal (run_state (r_row r))) eqn:Hnt; [done|].
  bind_ok as r1 E1. pose proof (reclaim_control _ _ _ E1) as Hc1.
  assert (r_journal r1 = r_journal r) as Hj1 by (apply (reclaim_ok _ B) in E1; naive_solver).
  bind_ok as [ready r2] E2. cbn [fst snd]. destruct ready; [|by bind_ok as r3 E3].
  apply prepare_uncontrolled in E2 as (Hlt & Hr2 & Hk2); [|by unfold effective_control in *; rewrite Hc1].
  bind_ok as [claim r3] E3. cbn [fst snd]. destruct claim; try done. intros [= -> ->].
  apply assign_stuck in E3 as (Hst & Hj & Ht). exists r1. split; [done|]. split; [done|]. split; [done|].
  intros Hrev. rewrite Hst. unfold stuck_dispatches. by rewrite Hr2, Hk2, <- Hj, Hrev, Hj1.
Qed.

Lemma silent_strikes `{Chrono} policy B n r r' : silent policy n r r' → run_ok B r →
  run_task_id (r_row r) = None → stuck_dispatches r = 0%Z →
  run_ok B r' ∧ (n = 0 ∧ r' = r ∨
    is_Some (run_task_id (r_row r')) ∧ stuck_dispatches r' = (Z.of_nat n - 1)%Z ∧
    (Z.of_nat n ≤ max_stuck_dispatches policy)%Z).
Proof.
  induction 1 as [r|n r r1 r2 w now rfc task Hsil IH Hc E Hrev]; intros Hok Ht Hs; [by auto|].
  destruct (IH Hok Ht Hs) as [Hok1 Hcase]. split; [by eapply poll_ok|]. right.
  destruct (poll_uncontrolled _ _ _ _ _ _ _ _ Hok1 Hc E) as (r3 & Erec & Hlt & Htask & Hstuck).
  rewrite (Hstuck Hrev). split; [done|]. destruct Hcase as [[-> ->]|(Htask1 & Hs1 & Hm)].
  - unfold reclaim in Erec. rewrite Ht in Erec. injection Erec as <-. lia.
  - rewrite (reclaim_strikes B _ _ _ Hok1 Htask1 Erec) in *. lia.
Qed.

(** A due lease is reclaimed. *)
Lemma reclaim_total B now r due : run_ok B r → run_due_at (r_row r) = Some due → (due ≤ now)%Z →
  ∃ r', reclaim now r = Ok r'.
Proof.
  intros [_ Hle] Hd Hnow. unfold reclaim, leases_ok in *.
  destruct (run_task_id (r_row r)) as [task|]; [|by eexists].
  destruct Hle as (t & Hl & Hid & Hg & He & Hdue & _). set (hit := λ t, bool_decide (tk_id t = task) && _ && _ && _ && _).
  assert (List.filter hit (r_tasks r) = [t]) as ->; [|by eexists].
  rewrite <- (lfilter_within hit is_leased), Hl
    by (intros x; unfold hit, is_leased; rewrite !andb_true_iff; naive_solver).
  assert (is_leased t = true) as Ht by (apply (elem_of_lfilter is_leased (r_tasks r)); rewrite Hl; by left).
  assert (hit t = true) as Hh; [|cbn [List.filter]; by rewrite Hh]. unfold hit, is_leased in *.
  rewrite Ht, Hg, He, !Z.eqb_refl, bool_decide_true by done. cbn. apply Z.leb_le. congruence || lia.
Qed.

(** Abandoning an owed rollback does not fail. *)
Lemma abandon_loop_total rows : ∀ j acc,
  (∀ q, q ∈ rows → ∃ q', q' ∈ j_rows j ∧ st_ordinal (row_step q') = st_ordinal (row_step q)) →
  (j_revision j + Z.of_nat (length rows) ≤ i64_max)%Z →
  ∃ res, try_fold abandon_step (j, acc) rows = Ok res ∧
    (acc ≠ [] ∨ existsb (λ q, owed (row_step q)) rows = true → res.2 ≠ []).
Proof.
  induction rows as [|q rows IH]; intros j acc Hrows Hr; cbn [try_fold existsb].
  { eexists. split; [done|]. by intros [?|?]. }
  cbn [length] in Hr. unfold abandon_step at 2. destruct (owed (row_step q)) eqn:Ho; cbn [negb orb].
  - destruct (Hrows q ltac:(by left)) as (q' & Hq' & Hord). cbn [fst snd].
    rewrite (save_checkpoint_total _ _ q') by (done || lia). cbn [mbind result_bind].
    match goal with |- context [try_fold abandon_step (?j1, ?acc1) rows] =>
      destruct (IH j1 acc1) as (res & E & Hne); [| |exists res; split; [exact E|]] end.
    + intros x Hx. destruct (Hrows x ltac:(by right)) as (y & Hy & Hxy). cbn [j_rows]. unfold put_step.
      eexists. split; [apply list_elem_of_In, in_map, list_elem_of_In, Hy|]. cbn beta.
      destruct (Z.eqb_spec (st_ordinal (row_step y)) (st_ordinal (with_compensation (lit "abandoned") (row_step q))));
        cbn [row_step]; congruence.
    + cbn [j_revision]. lia.
    + intros _. apply Hne. left. by destruct acc.
  - cbn [mbind result_bind]. apply IH; [|lia]. intros x Hx. apply Hrows. by right.
Qed.

Lemma abandon_total w now reason r : has_compensation r = true →
  (j_revision (r_journal r) + Z.of_nat (length (j_rows (r_journal r))) ≤ i64_max)%Z →
  ∃ j e, abandon w now reason r = Ok (SFailed, finish w now SFailed (Some e) (on_journal j r)).
Proof.
  intros Hc Hr. unfold abandon.
  destruct (abandon_loop_total (rev (j_rows (r_journal r))) (r_journal r) []) as (res & -> & Hne).
  { intros q Hq. exists q. by rewrite list_elem_of_In, <- in_rev, <- list_elem_of_In in Hq. }
  { by rewrite length_rev. }
  cbn [mbind result_bind]. rewrite bool_decide_false; [by do 2 eexists|]. apply Hne. right.
  unfold has_compensation, r_steps, j_steps in Hc. apply List.existsb_exists in Hc as (s & Hin & Ho).
  apply in_map_iff in Hin as (q & <- & Hq). apply List.existsb_exists. exists q. by rewrite <- in_rev.
Qed.

Lemma reclaim_row now r r' : reclaim now r = Ok r' →
  run_frontier_revision (r_row r') = run_frontier_revision (r_row r).
Proof.
  unfold reclaim. destruct (run_task_id (r_row r)); [|by intros [= <-]]. destruct (negb _); [done|].
  by intros [= <-].
Qed.

(** A stuck run is not dispatched again: the poll puts it to rest. *)
Lemma prepare_stuck policy w now rfc `{Chrono} B r : core_ok B r → is_terminal (run_state (r_row r)) = false →
  effective_control w r = NoControl → (max_stuck_dispatches policy ≤ stuck_dispatches r)%Z →
  (j_revision (r_journal r) + Z.of_nat (length (j_rows (r_journal r))) ≤ i64_max)%Z →
  ∃ r', prepare policy w now rfc r = Ok (false, r') ∧ is_terminal (run_state (r_row r')) = true ∧
    run_frontier_revision (r_row r') = run_frontier_revision (r_row r).
Proof.
  intros Hok Hnt Hc Hm Hj. unfold prepare. rewrite Hc, !bool_decide_false by done. rewrite (proj2 (Z.leb_le _ _) Hm).
  assert (∀ s e x, is_terminal s = true → r_row x = r_row r →
    is_terminal (run_state (r_row (finish w now s e x))) = true ∧
    run_frontier_revision (r_row (finish w now s e x)) = run_frontier_revision (r_row r)) as Hfin.
  { intros s e x Hs <-. unfold finish. by destruct (finish_run_row w now s e None true x) as (-> & _). }
  case_bool_decide as Hs; [|eexists; split; [done|by apply Hfin]].
  destruct (co_compensating _ _ Hok Hs) as [target Ht]. destruct (co_rollback _ _ Hok _ Ht Hnt) as (_ & Hcomp & _).
  match goal with |- context [abandon w now ?e r] => destruct (abandon_total w now e r Hcomp Hj) as (j & e' & ->) end.
  eexists. split; [done|by apply Hfin].
Qed.

(** The poll of a due run whose last strike is its last. *)
Lemma poll_stuck policy w now rfc `{Chrono} B r due : run_ok B r → effective_control w r = NoControl →
  run_due_at (r_row r) = Some due → (due ≤ now)%Z → (run_frontier_revision (r_row r) < i64_max)%Z →
  (j_revision (r_journal r) + Z.of_nat (length (j_rows (r_journal r))) ≤ i64_max)%Z →
  is_Some (run_task_id (r_row r)) → (max_stuck_dispatches policy ≤ stuck_dispatches r + 1)%Z →
  ∃ r', poll policy w now rfc r = Ok (None, r') ∧ is_terminal (run_state (r_row r')) = true.
Proof.
  intros Hok Hc Hd Hnow Hf Hj Htask Hm. unfold poll. rewrite Hd. destruct (Z.ltb_spec now due); [lia|]. cbn [orb].
  destruct (is_terminal (run_state (r_row r))) eqn:Hnt; [by eexists|].
  destruct (reclaim_total B now r due) as [r1 E1]; [done..|]. rewrite E1. cbn [mbind result_bind].
  pose proof (reclaim_control _ _ _ E1) as Hc1. pose proof (reclaim_row _ _ _ E1) as Hf1.
  pose proof (reclaim_strikes _ _ _ _ Hok Htask E1) as Hst.
  apply (reclaim_ok _ B) in E1 as ([Hok1 _] & _ & Hs1 & _ & Hj1); [|done..|by rewrite Hd].
  assert (effective_control w r1 = NoControl) as Hc' by (unfold effective_control in *; by rewrite Hc1).
  rewrite <- Hs1 in Hnt. rewrite <- Hj1 in Hj.
  destruct (prepare_stuck policy w now rfc B r1) as (r2 & -> & Hterm & Hf2); [done..|lia|done|].
  cbn [mbind result_bind fst snd].
  assert (∃ r3, advance r2 = Ok r3) as [r3 E3] by (unfold advance; rewrite (proj2 (Z.leb_gt _ _)) by lia; by eexists).
  rewrite E3. eexists. split; [done|]. by apply advance_Ok in E3 as (_ & _ & _ & -> & _).
Qed.

(** A run that no executor reports on is not dispatched forever. From a run without a
    strike, at most [max_stuck_dispatches] dispatches in a row can pass in silence. The
    poll that comes due after that many succeeds, short of counters at their maximum; it
    hands out no task and puts the run to rest. *)
Theorem silent_run_stalls `{Chrono} (B : Z) (policy : AppPolicy) (n : nat) (r r' : Run) : reachable B r →
  run_task_id (r_row r) = None → stuck_dispatches r = 0%Z → silent policy n r r' → n ≠ 0 →
  (Z.of_nat n ≤ max_stuck_dispatches policy)%Z ∧
  ∀ w now rfc due, (max_stuck_dispatches policy ≤ Z.of_nat n)%Z →
    effective_control w r' = NoControl → run_due_at (r_row r') = Some due → (due ≤ now)%Z →
    (run_frontier_revision (r_row r') < i64_max)%Z →
    (j_revision (r_journal r') + Z.of_nat (length (j_rows (r_journal r'))) ≤ i64_max)%Z →
    ∃ r'', poll policy w now rfc r' = Ok (None, r'') ∧ is_terminal (run_state (r_row r'')) = true.
Proof.
  intros Hr%reachable_ok Ht Hs Hsil Hn. destruct (silent_strikes _ _ _ _ _ Hsil Hr Ht Hs) as [Hok Hcase].
  destruct Hcase as [[? _]|(Htask & Hs1 & Hle)]; [done|]. split; [done|].
  intros w now rfc due Hm Hc Hd Hnow Hf Hj. by apply (poll_stuck _ _ _ _ B _ due); [..|lia].
Qed.

(** * Signals *)

(** What a poll needs of the other tables, the counters and the clock not to fail. *)
Record serviceable `{Chrono} (policy : AppPolicy) (w : World) (now : Z) (r : Run) : Prop := {
  sv_mailbox : readable_mailbox w (j_signals (r_journal r));
  sv_children : Forall (child_answers w) (r_steps r);
  sv_outputs : ∃ total, carried_outputs (r_steps r) = Ok total;
  sv_revision : (j_revision (r_journal r) + Z.of_nat (length (j_rows (r_journal r))) ≤ i64_max)%Z;
  sv_invocation : w_invocation w = Ok tt;
  sv_epoch : (run_lease_epoch (r_row r) < i64_max)%Z;
  sv_lease : i64 (now + lease_ms policy)
}.

Lemma assign_total policy w now r : w_invocation w = Ok tt → (run_lease_epoch (r_row r) < i64_max)%Z →
  i64 (now + lease_ms policy) → run_task_id (r_row r) = None →
  ∃ claim r', assign policy w now (lease_ms policy) r = Ok (claim, r') ∧ r_journal r' = r_journal r.
Proof.
  intros Hi He [Hl Hl'] Ht. unfold assign. destruct (negb _); [by do 2 eexists|]. destruct (_ || _); [by do 2 eexists|].
  destruct (_ <=? _)%Z; [by do 2 eexists|]. rewrite Hi. cbn [mbind result_bind].
  rewrite (proj2 (Z.ltb_ge _ _)) by lia. unfold deadline.
  rewrite Z.min_id, (proj2 (Z.leb_le _ _) Hl), (proj2 (Z.leb_le _ _) Hl'). cbn [andb mbind result_bind].
  rewrite Ht, bool_decide_false by (by intros []). by do 2 eexists.
Qed.

(** A poll of an idle run with an answerable wait settles a step. *)
Lemma poll_answers `{Chrono} policy w now rfc B r s t due : run_ok B r →
  run_state (r_row r) = SWaiting → run_task_id (r_row r) = None → effective_control w r = NoControl →
  run_due_at (r_row r) = Some due → (due ≤ now)%Z → (stuck_dispatches r < max_stuck_dispatches policy)%Z →
  s ∈ r_steps r → answerable now (run_generation (r_row r)) (j_signals (r_journal r)) s t →
  serviceable policy w now r →
  ∃ task r', poll policy w now rfc r = Ok (task, r') ∧ some_settled (r_journal r) (r_journal r').
Proof.
  intros [Hok _] Hs Ht Hc Hd Hnow Hst Hin Hans [Hm Ha [total Ho] Hr Hi He Hl]. unfold poll. rewrite Hd, Hs.
  destruct (Z.ltb_spec now due); [lia|]. cbn [orb is_terminal].
  unfold reclaim. rewrite Ht. cbn [mbind result_bind]. unfold prepare at 1.
  rewrite Hc, !bool_decide_false by (done || by rewrite Hs).
  destruct (Z.leb_spec (max_stuck_dispatches policy) (stuck_dispatches r)); [lia|].
  assert (journal_ok B (r_journal r)) as Hj by (apply live_journal_ok, core_live; [done|by rewrite Hs]).
  destruct (resolve_succeeds policy w now B rfc (run_generation (r_row r)) (r_journal r) total) as (j & progressed & E);
    [done..|]. rewrite E. cbn [mbind result_bind].
  apply (resolve_answers _ _ _ B _ _ _ s t) in E as [-> Hset]; [|done..].
  rewrite andb_false_r. cbn [andb mbind result_bind fst snd].
  destruct (assign_total policy w now (on_journal j r)) as (claim & r2 & -> & Hj2); [done..|].
  cbn [mbind result_bind fst snd]. do 2 eexists. split; [done|]. by rewrite Hj2.
Qed.

(** The message of a delivery answers the wait it is for. *)
Lemma delivered_answers `{Chrono} now now' generation signals s id t payload sequence origin :
  i64 now → (now ≤ now')%Z → st_state s = lit "running" → st_kind s = lit "wait_signal" →
  st_signal_type s = Some t → st_max_signal_age_ms s = None →
  answerable now' generation (signals ++ [mk_signal id t payload now sequence origin (lit "direct") None None None])
    s t.
Proof.
  intros Hi Hnow Hst Hk Ht Ha. do 3 (split; [done|]). unfold expired.
  destruct (st_wake_at s) as [due|] eqn:Ew; [destruct (Z.leb_spec (timestamp_millis due) now'); [by left|]|];
    right; (eexists; split; [apply elem_of_app; right; apply list_elem_of_singleton; reflexivity|]);
    unfold deliverable, i64 in *; rewrite Ha, Ew; cbn; rewrite !bool_decide_true by done; cbn [andb];
    rewrite andb_true_r, andb_true_iff, !Z.leb_le; lia.
Qed.


(** * Restarts *)

(** A message that can be consumed again. *)
Definition released (s : Signal) : Signal :=
  mk_signal (sg_id s) (sg_type s) (sg_payload s) (sg_created_at s) (sg_sequence s) (sg_origin s)
    (sg_delivery s) (sg_topic s) (sg_target s) None.

Lemma give_back_direct ids : ∀ signals s, s ∈ signals → sg_delivery s = lit "direct" →
  (if decide (sg_id s ∈ ids) then released s else s) ∈ foldl give_back signals ids.
Proof.
  induction ids as [|id ids IH]; intros signals s Hs Hd; cbn [foldl].
  { by rewrite decide_False by apply not_elem_of_nil. }
  assert ((if decide (sg_id s = id) then released s else s) ∈ give_back signals id) as Hone.
  { unfold give_back. apply list_elem_of_omap. exists s. split; [done|]. unfold released. rewrite Hd.
    rewrite (bool_decide_false (lit "direct" = lit "topic")), (bool_decide_true (lit "direct" = lit "direct"))
      by (done || intros; lits).
    destruct (decide (sg_id s = id)); [by rewrite bool_decide_true|by rewrite bool_decide_false]. }
  apply IH in Hone; [|by destruct (decide _)].
  destruct (decide (sg_id s = id)) as [<-|Hne]; cbn [sg_id released] in Hone.
  - rewrite (decide_True (P := sg_id s ∈ sg_id s :: ids)) by (by left).
    by destruct (decide (sg_id s ∈ ids)).
  - destruct (decide (sg_id s ∈ ids)) as [Hin|Hin].
    + by rewrite decide_True by (by right).
    + rewrite decide_False; [done|]. by intros [?|?]%elem_of_cons.
Qed.

Lemma restart_signals_direct generation prefix steps signals s : s ∈ signals → sg_delivery s = lit "direct" →
  (if decide (sg_id s ∈ omap st_consumed_signal_id (List.filter (λ x, (prefix <=? st_ordinal x)%Z) steps))
   then released s else s) ∈ restart_signals generation prefix steps signals.
Proof.
  intros Hs Hd. apply elem_of_lfilter. split; [by apply give_back_direct|].
  destruct (decide _); cbn [released sg_delivery]; rewrite Hd, bool_decide_false by (intros; lits); done.
Qed.

Lemma dropped_steps prefix steps : numbered steps →
  List.filter (λ s, (prefix <=? st_ordinal s)%Z) steps = drop (Z.to_nat prefix) steps.
Proof.
  intros Hn. assert (∀ k l, (∀ i s, l !! i = Some s → st_ordinal s = (k + Z.of_nat i)%Z) →
    List.filter (λ s, (prefix <=? st_ordinal s)%Z) l = drop (Z.to_nat (prefix - k)) l) as Hgen.
  { intros k l. revert k. induction l as [|s l IH]; intros k Hl; [by rewrite drop_nil|]. cbn [List.filter].
    rewrite (Hl 0 s eq_refl), (IH (k + 1)%Z) by (intros i x Hx; rewrite (Hl (S i) x Hx); lia).
    destruct (Z.leb_spec prefix (k + Z.of_nat 0)).
    - replace (Z.to_nat (prefix - k)) with 0 by lia. by replace (Z.to_nat (prefix - (k + 1))) with 0 by lia.
    - by replace (Z.to_nat (prefix - k)) with (S (Z.to_nat (prefix - (k + 1)))) by lia. }
  rewrite (Hgen 0%Z), Z.sub_0_r; [done|]. intros i s Hi. by destruct (Hn i s Hi) as [-> _].
Qed.

(** The step a restart names is the first it drops. *)
Lemma restart_from_step options steps k : numbered steps → restart_from options steps = Some (Some k) →
  (0 < k)%Z ∧ ∃ s target, steps !! Z.to_nat k = Some s ∧ ro_from options = Some target ∧
    st_name s = rt_name target.
Proof.
  intros Hn. unfold restart_from. destruct (ro_from options) as [target|]; [|done].
  destruct (List.filter _ steps) as [|s [|]] eqn:E; [done| |done].
  destruct (Z.ltb_spec 0 (st_ordinal s)) as [Hlt|]; [|done]. intros [= <-]. split; [done|].
  assert (s ∈ [s]) as Hs by (by left). rewrite <- E in Hs. apply elem_of_lfilter in Hs as [Hin Hhit].
  apply list_elem_of_lookup in Hin as [i Hi]. destruct (Hn i s Hi) as [Ho _].
  exists s, target. rewrite Ho, Nat2Z.id. split; [done|]. split; [done|].
  by rewrite andb_true_iff, bool_decide_eq_true in Hhit; destruct Hhit.
Qed.

Lemma restarted_journal now prefix r : r_journal (restarted now prefix r) =
  mk_journal (copy_prefix prefix (j_rows (r_journal r))) []
    (restart_signals (run_generation (r_row r)) prefix (j_steps (r_journal r)) (j_signals (r_journal r)))
    (j_revision (r_journal r)) ∧ run_task_id (r_row (restarted now prefix r)) = None.
Proof. unfold restarted. cbn. by case_bool_decide. Qed.

(** Without a live lease of the generation there is none at all. *)
Lemma lapsed_leases now r t : leases_ok r →
  existsb (λ t, (tk_generation t =? run_generation (r_row r))%Z && bool_decide (tk_state t = Leased)
                && (now <? tk_deadline t)%Z) (r_tasks r) = false →
  t ∈ r_tasks r → tk_state t = Leased → (tk_deadline t ≤ now)%Z.
Proof.
  intros Hle Hlive Ht Hl. apply existsb_false with (x := t) in Hlive; [|done].
  rewrite (bool_decide_true (tk_state t = Leased)), andb_true_r in Hlive by done.
  apply andb_false_iff in Hlive as [Hlive|Hlive]; [|by apply Z.ltb_ge in Hlive].
  unfold leases_ok in Hle. assert (t ∈ List.filter is_leased (r_tasks r)) as Hin
    by (apply elem_of_lfilter; split; [done|by apply bool_decide_eq_true]).
  destruct (run_task_id (r_row r)); [destruct Hle as (t0 & Hl0 & _ & Hg0 & _)|rewrite Hle in Hin; by apply elem_of_nil in Hin].
  rewrite Hl0 in Hin. apply list_elem_of_singleton in Hin as ->. by rewrite Hg0, Z.eqb_refl in Hlive.
Qed.

(** C28: a restart rewinds a run to the step it names and no further. The history before
    that step is kept row by row, all of it settled and none of it compensated; the run
    is queued in a new generation, no live lease is taken from an executor and none is
    left; and every direct message is still in the mailbox, consumable again exactly when
    a dropped step had consumed it. *)
Theorem restart_rewinds `{Chrono} (B : Z) (policy : AppPolicy) (w : World) (now : Z) (options : RestartOptions)
    (from : option Z) (r r' : Run) : reachable B r → restart policy w now options r = Ok (Ok (from, r')) →
  let n := Z.to_nat (default 0%Z from) in
  j_rows (r_journal r') = take n (j_rows (r_journal r)) ∧
  (∀ k, from = Some k → (0 < k)%Z ∧ ∃ s target, r_steps r !! n = Some s ∧ ro_from options = Some target ∧
     st_name s = rt_name target) ∧
  (∀ q, q ∈ j_rows (r_journal r') → is_pending (row_step q) = false ∧ is_retrying (row_step q) = false ∧
     (st_compensation_state (row_step q) = None ∨ st_compensation_state (row_step q) = Some (lit "pending"))) ∧
  run_generation (r_row r') = (run_generation (r_row r) + 1)%Z ∧ run_state (r_row r') = SQueued ∧
  (∀ t, t ∈ r_tasks r → tk_state t = Leased → (tk_deadline t ≤ now)%Z) ∧
  (∀ t, t ∈ r_tasks r' → tk_state t ≠ Leased) ∧
  (∀ s, s ∈ j_signals (r_journal r) → sg_delivery s = lit "direct" →
     (if decide (sg_id s ∈ omap st_consumed_signal_id (drop n (r_steps r))) then released s else s)
       ∈ j_signals (r_journal r')).
Proof.
  intros Hr%reachable_ok E n. pose proof Hr as [Hok Hle].
  pose proof (restart_ok _ _ _ _ _ _ _ _ Hr E) as [_ Hle'].
  apply restart_inv in E as (Hfrom & -> & Hun & Hcp & Hlive); [|apply Hok]. fold n in Hun, Hcp.
  destruct (restarted_generation now (default 0%Z from) r) as [Hg Hs].
  destruct (restarted_journal now (default 0%Z from) r) as [Hj Hn].
  rewrite Hj. cbn [j_rows j_signals]. rewrite retained_rows by apply Hok. fold n.
  split; [done|]. split; [intros k ->; apply (restart_from_step options); [apply Hok|done]|]. split; [|split; [done|split; [done|]]].
  - intros q Hq. assert (row_step q ∈ take n (r_steps r)) as Hin.
    { unfold r_steps, j_steps. change (map row_step) with (fmap (M := list) row_step). rewrite <- fmap_take.
      by apply list_elem_of_fmap_2. }
    apply existsb_false with (x := row_step q) in Hun, Hcp; [|done..]. apply orb_false_iff in Hun as [-> ->].
    split; [done|]. split; [done|]. destruct (st_compensation_state (row_step q)) as [state|]; [right|by left].
    apply negb_false_iff, bool_decide_eq_true in Hcp. by subst.
  - split; [|split].
    + intros t. by apply lapsed_leases.
    + intros t Ht Hl. unfold leases_ok in Hle'. rewrite Hn in Hle'.
      assert (t ∈ @nil Task) as []%elem_of_nil. rewrite <- Hle'. apply elem_of_lfilter.
      split; [done|by apply bool_decide_eq_true].
    + intros s Hin Hd. unfold r_steps. rewrite <- (dropped_steps (default 0%Z from)) by apply Hok.
      by apply restart_signals_direct.
Qed.
