(* ===== verification/WorkflowExamples.v ===== *)
(** An order that charges a card, books a shipment and fails: the runs it passes through,
    on which the theorems about journals and runs are applied. *)

From stdpp Require Import relations.
From S2P Require Import CalendarFacts FrontierFacts.

#[local] Existing Instance plain_chrono.

(** The other components answer that all is well. *)
Definition ex_world : World :=
  mk_world false (λ _, 1%Z) (λ _, 1%Z) (λ _ _, Ok tt) (λ _, Ok (lit "child")) (λ _, Ok tt)
    (λ _, Err (Internal "no child")) (λ _, Err (Internal "no child")) (λ _, Ok tt) (Ok (lit "next"))
    true true 0 (lit "task") (Ok tt) (Ok tt) (λ _, lit "digest") 15
    0 (Ok false) (Ok false) (λ _, Ok None).

Definition ex_rfc3339 (_ : Z) : bytes := [].

Definition ex_after {A} (res : wresult (A * Run)) : Run :=
  match res with Ok (_, r) => r | Err _ => new_run None 0 end.

Definition ex_poll (now : Z) (r : Run) : Run := ex_after (poll default_policy ex_world now ex_rfc3339 r).

Definition ex_complete (now : Z) (outcomes : list StepOutcome) (r : Run) : Run :=
  match r_tasks r with
  | task :: _ => ex_after (complete default_policy ex_world now ex_rfc3339 task outcomes r)
  | [] => r
  end.

Definition ex_failure : Value := Str (lit "out of stock").

Definition ex_batch : list StepOutcome :=
  [StepCompleted 0 (lit "charge") 0 (lit "run") true 2 None None;
   StepCompleted 1 (lit "ship") 0 (lit "run") true 2 None None;
   RunFailed None None 0 ex_failure 1].

Definition ex_new : Run := new_run (Some (lit "order-7")) 0.
Definition ex_leased : Run := ex_poll 0 ex_new.
Definition ex_rolling : Run := ex_complete 10 ex_batch ex_leased.

Lemma ex_grants : grants_within 8 default_policy.
Proof. by vm_compute. Qed.

Lemma ex_leased_reachable : reachable 8 ex_leased.
Proof.
  eapply reach_step; [apply (reach_new _ (Some (lit "order-7")) 0)|].
  apply (step_poll _ _ _ default_policy ex_world 0 ex_rfc3339 (hd_error (r_tasks ex_leased))); [apply ex_grants|].
  vm_compute. reflexivity.
Qed.

Lemma ex_rolling_reachable : reachable 8 ex_rolling.
Proof.
  eapply reach_step; [apply ex_leased_reachable|].
  eapply (step_complete _ _ _ default_policy ex_world 10 ex_rfc3339 _ ex_batch (mk_receipt (lit "task") 0 SCompensating 10));
    [apply ex_grants|apply list_elem_of_lookup_2 with 0; vm_compute; reflexivity|vm_compute; reflexivity].
Qed.

Definition ex_checkpoints : list StepCheckpoint :=
  match fold_outcomes (take 2 ex_batch) with Ok (checkpoints, _) => checkpoints | Err _ => [] end.
Definition ex_empty : Journal := mk_journal [] [] [] 1.
Definition ex_journal : Journal :=
  match append default_policy ex_world 10 ex_checkpoints ex_empty with Ok j => j | Err _ => ex_empty end.

Lemma ex_numbered : numbered (j_steps ex_empty).
Proof. by intros [] s. Qed.

Lemma ex_empty_ok : journal_ok 8 ex_empty.
Proof. split; [apply ex_numbered|constructor|reflexivity]. Qed.

Lemma append_keeps_history_witness :
  append default_policy ex_world 10 ex_checkpoints ex_empty = Ok ex_journal ∧ length (j_rows ex_journal) = 2 ∧
  numbered (j_steps ex_journal).
Proof.
  split; [vm_compute; reflexivity|]. split; [vm_compute; reflexivity|].
  eapply (append_keeps_history default_policy ex_world 10 ex_empty ex_journal ex_checkpoints);
    [apply ex_numbered|vm_compute; reflexivity].
Defined.

Lemma ex_folded : Forall (folded 8) ex_checkpoints.
Proof.
  replace ex_checkpoints with (omap checkpoint_of (take 2 ex_batch)) by (vm_compute; reflexivity).
  apply Forall_cons; split; [|apply Forall_cons; split; [|constructor]].
  - by exists (StepCompleted 0 (lit "charge") 0 (lit "run") true 2 None None).
  - by exists (StepCompleted 1 (lit "ship") 0 (lit "run") true 2 None None).
Qed.

Lemma journal_invariant_witness : journal_ok 8 ex_journal.
Proof.
  refine (proj1 (journal_invariant default_policy ex_world 10 8 ex_rfc3339 0 ex_checkpoints ex_empty ex_journal
    false _ ex_empty_ok ex_folded) _); [done|vm_compute; reflexivity].
Defined.

(** A nap of five milliseconds, reported at the first and over at the tenth. *)
Definition ex_nap : StepOutcome := Sleep 0 (lit "nap") 0 5000000.
Definition ex_napping : Journal :=
  match append default_policy ex_world 1 (omap checkpoint_of [ex_nap]) ex_empty with Ok j => j | Err _ => ex_empty end.
Definition ex_awake : Journal :=
  match resolve default_policy ex_world 10 ex_rfc3339 0 ex_napping with Ok (j, _) => j | Err _ => ex_empty end.

Lemma ex_napping_ok : journal_ok 8 ex_napping.
Proof.
  apply (append_ok default_policy ex_world 1 8 ex_empty _ (omap checkpoint_of [ex_nap]));
    [done|apply ex_empty_ok| |vm_compute; reflexivity].
  apply Forall_cons; split; [|constructor]. by exists ex_nap.
Qed.

Lemma resolve_settles_witness :
  resolve default_policy ex_world 10 ex_rfc3339 0 ex_napping = Ok (ex_awake, true) ∧
  j_rows ex_awake ≠ j_rows ex_napping ∧ settles ex_napping ex_awake.
Proof.
  split; [vm_compute; reflexivity|]. split; [by vm_compute|].
  apply (resolve_settles default_policy ex_world 10 8 ex_rfc3339 0 ex_napping ex_awake true);
    [apply ex_napping_ok|vm_compute; reflexivity].
Defined.

Lemma reachable_run_ok_witness : run_state (r_row ex_rolling) = SCompensating ∧ run_ok 8 ex_rolling.
Proof. split; [vm_compute; reflexivity|]. apply (reachable_run_ok 8), ex_rolling_reachable. Defined.

Lemma ex_roomy : roomy (λ _, 20%Z) (rollback_budget ex_rolling) ex_rolling.
Proof.
  split; [by vm_compute|].
  assert (forallb (λ q, (row_compensation_attempts q =? 0)%Z && (row_compensation_retry_ms q =? 1000)%Z)
    (j_rows (r_journal ex_rolling)) = true) as Hall by (vm_compute; reflexivity).
  rewrite forallb_forall in Hall. apply Forall_forall. intros q Hq%list_elem_of_In.
  apply Hall in Hq. rewrite andb_true_iff, !Z.eqb_eq in Hq. destruct Hq as [-> ->]. by vm_compute.
Qed.

Lemma rollback_terminates_witness :
  ∃ r', rollback ex_world (λ _, 20%Z) (λ _, Some ex_failure) 4 ex_rolling = Ok r' ∧
    is_terminal (run_state (r_row r')) = true.
Proof.
  apply (rollback_terminates 8 ex_world (λ _, 20%Z) (λ _, Some ex_failure) ex_rolling);
    [apply ex_rolling_reachable|vm_compute; reflexivity|by vm_compute|].
  apply ex_roomy.
Defined.

Definition ex_report : list StepOutcome := [CompensationCompleted 1 (lit "ship") 0].
Definition ex_shipped_back : Run := ex_after (compensate ex_world 20 ex_report ex_rolling).

Lemma rollback_order_witness :
  ∃ i q error, j_rows (r_journal ex_rolling) !! i = Some q ∧ owed (row_step q) = true ∧
    ex_report = [report_of q error].
Proof.
  destruct (rollback_order 8 ex_world 20 ex_report ex_rolling ex_shipped_back SCompensating)
    as (i & q & error & _ & Hi & Ho & _ & Hr & _);
    [apply ex_rolling_reachable|vm_compute; reflexivity|vm_compute; reflexivity|]. by exists i, q, error.
Defined.

Definition ex_task : Task := mk_task (lit "task") 0 1 60000 Leased 1 1 None.

Lemma single_executor_witness : r_tasks ex_leased = [ex_task] ∧
  ∀ t, t ∈ r_tasks ex_rolling →
    validate_task 20 t ex_rolling = Err (Conflict "workflow task lease is no longer current").
Proof.
  split; [vm_compute; reflexivity|]. intros t Ht.
  refine (proj2 (single_executor 8 ex_leased ex_task ex_task 10 10 ex_leased_reachable _ _ _ _)
    default_policy ex_world ex_rfc3339 ex_batch (mk_receipt (lit "task") 0 SCompensating 10) ex_rolling 20%Z t ex_grants _ Ht);
    try (apply list_elem_of_lookup_2 with 0); vm_compute; reflexivity.
Defined.

(** The order without failures, completed at once and then cancelled. *)
Definition ex_done : Run := ex_complete 10 [RunCompleted None None] ex_leased.

Lemma ex_done_reachable : reachable 8 ex_done.
Proof.
  eapply reach_step; [apply ex_leased_reachable|].
  eapply (step_complete _ _ _ default_policy ex_world 10 ex_rfc3339 _ [RunCompleted None None] (mk_receipt (lit "task") 0 SCompleted 10));
    [apply ex_grants|apply list_elem_of_lookup_2 with 0; vm_compute; reflexivity|vm_compute; reflexivity].
Qed.

Definition ex_restart (options : RestartOptions) (r : Run) : Run :=
  match restart default_policy ex_world 30 options r with Ok (Ok (_, r')) => r' | _ => r end.

Lemma terminal_run_rests_witness :
  let again := ex_restart (mk_restart None None) ex_done in
  again = ex_done ∨ ∃ policy w now options from, restart policy w now options ex_done = Ok (Ok (from, again)) ∧
    run_generation (r_row again) = (run_generation (r_row ex_done) + 1)%Z ∧ run_state (r_row again) = SQueued.
Proof.
  apply (terminal_run_rests 8); [apply ex_done_reachable|vm_compute; reflexivity|].
  apply (step_restart _ _ _ default_policy ex_world 30 (mk_restart None None) None). vm_compute. reflexivity.
Defined.

(** The charge is kept when the order is restarted from its approval. *)
Definition ex_paid : Run :=
  ex_complete 10 [StepCompleted 0 (lit "charge") 0 (lit "run") true 2 None None;
                  Wait 1 (lit "approval") 0 None None (Some (lit "approve")) None None None] ex_leased.

Lemma ex_paid_reachable : reachable 8 ex_paid.
Proof.
  eapply reach_step; [apply ex_leased_reachable|].
  eapply (step_complete _ _ _ default_policy ex_world 10 ex_rfc3339 _
    [StepCompleted 0 (lit "charge") 0 (lit "run") true 2 None None;
     Wait 1 (lit "approval") 0 None None (Some (lit "approve")) None None None]
    (mk_receipt (lit "task") 0 SWaiting 10));
    [apply ex_grants|apply list_elem_of_lookup_2 with 0; vm_compute; reflexivity|vm_compute; reflexivity].
Qed.

Definition ex_from_approval : RestartOptions := mk_restart (Some (mk_target (lit "approval") None)) None.

Lemma restart_rewinds_witness :
  let again := ex_restart ex_from_approval ex_paid in
  j_rows (r_journal again) = take 1 (j_rows (r_journal ex_paid)) ∧
  run_generation (r_row again) = 1%Z ∧ run_state (r_row again) = SQueued.
Proof.
  destruct (restart_rewinds 8 default_policy ex_world 30 ex_from_approval (Some 1%Z) ex_paid
    (ex_restart ex_from_approval ex_paid)) as (Hrows & _ & _ & Hg & Hs & _);
    [apply ex_paid_reachable|vm_compute; reflexivity|].
  split; [exact Hrows|]. split; [exact Hg|exact Hs].
Defined.

(** Four dispatches whose leases lapse, and the poll after them. *)
Definition ex_lapsed (n : nat) : Run := Nat.iter n (λ r, ex_poll (default 0%Z (run_due_at (r_row r))) r) ex_new.

Definition ex_lapsed_task (n : nat) : Task :=
  mk_task (lit "task") 0 (Z.of_nat (S n)) (60000 * Z.of_nat (S n)) Leased 1 1 None.

Lemma ex_silent n : n ≤ 4 → silent default_policy n ex_new (ex_lapsed n).
Proof.
  assert (∀ n, n < 4 → poll default_policy ex_world (60000 * Z.of_nat n) ex_rfc3339 (ex_lapsed n) =
      Ok (Some (ex_lapsed_task n), ex_lapsed (S n)) ∧
    effective_control ex_world (ex_lapsed n) = NoControl ∧
    j_revision (r_journal (ex_lapsed (S n))) = j_revision (r_journal (ex_lapsed n))) as Hstep.
  { intros [|[|[|[|]]]] ?; try lia; (split; [vm_compute; reflexivity|split; vm_compute; reflexivity]). }
  induction n as [|n IH]; intros Hn; [apply silent_start|]. destruct (Hstep n) as (E & Hc & Hr); [lia|].
  apply (silent_dispatch _ _ _ _ _ _ _ _ _ (IH ltac:(lia)) Hc E Hr).
Qed.

Lemma silent_run_stalls_witness : ∃ r, poll default_policy ex_world 240000 ex_rfc3339 (ex_lapsed 4) = Ok (None, r) ∧
  is_terminal (run_state (r_row r)) = true.
Proof.
  destruct (silent_run_stalls 8 default_policy 4 ex_new (ex_lapsed 4) (reach_new _ _ _)) as [_ H];
    [vm_compute; reflexivity|vm_compute; reflexivity|apply ex_silent; lia|done|].
  apply (H ex_world 240000%Z ex_rfc3339 240000%Z);
    [by vm_compute|vm_compute; reflexivity|vm_compute; reflexivity|by vm_compute|by vm_compute|by vm_compute].
Defined.

Lemma completion_once_witness : ∃ t, tk_id t = lit "task" ∧ t ∈ r_tasks ex_rolling ∧
  complete default_policy ex_world 90000 ex_rfc3339 t ex_batch ex_rolling =
    Ok (mk_receipt (lit "task") 0 SCompensating 10, ex_rolling).
Proof.
  destruct (completion_once 8 default_policy ex_world 10 ex_rfc3339 ex_task ex_batch ex_leased ex_rolling
    (mk_receipt (lit "task") 0 SCompensating 10)) as (t & Hid & H);
    [apply ex_leased_reachable|apply ex_grants|apply list_elem_of_lookup_2 with 0; vm_compute; reflexivity|
     vm_compute; reflexivity|].
  destruct (H ex_rolling (rtc_refl _ _)) as [Hin Hc]. exists t. split; [exact Hid|]. split; [exact Hin|].
  exact (Hc default_policy ex_world 90000%Z ex_rfc3339 ex_batch).
Defined.

(** An order that waits for an approval, which arrives at the thirtieth millisecond. *)
Definition ex_approval : list StepOutcome := [Wait 0 (lit "approval") 0 None None (Some (lit "approve")) None None None].
Definition ex_waiting : Run := ex_complete 10 ex_approval ex_leased.
Definition ex_approved : Run :=
  match deliver 30 (lit "s1") (lit "approve") (lit "api") Null 1 ex_waiting with Ok r => r | Err _ => ex_waiting end.

Lemma ex_waiting_reachable : reachable 8 ex_waiting.
Proof.
  eapply reach_step; [apply ex_leased_reachable|].
  eapply (step_complete _ _ _ default_policy ex_world 10 ex_rfc3339 _ ex_approval
    (mk_receipt (lit "task") 0 SWaiting 10));
    [apply ex_grants|apply list_elem_of_lookup_2 with 0; vm_compute; reflexivity|vm_compute; reflexivity].
Qed.

Definition ex_wait : StepCheckpoint :=
  default (sleep_checkpoint 0 [] 0 0) (r_steps ex_waiting !! 0).

Lemma ex_approved_serviceable : serviceable default_policy ex_world 40 ex_approved.
Proof.
  assert (j_signals (r_journal ex_approved) =
    [mk_signal (lit "s1") (lit "approve") Null 30 1 (lit "api") (lit "direct") None None None]) as Hs
    by (vm_compute; reflexivity).
  assert (map st_kind (r_steps ex_approved) = [lit "wait_signal"]) as Hk by (vm_compute; reflexivity).
  split.
  - rewrite Hs. split; [apply NoDup_singleton|]. constructor; [by split; [|eexists]|constructor].
  - apply Forall_forall. intros s Hin Hc. exfalso.
    assert (st_kind s ∈ map st_kind (r_steps ex_approved)) as Hin' by (by apply list_elem_of_fmap_2).
    rewrite Hk, list_elem_of_singleton in Hin'. lits.
  - exists 0%Z. vm_compute. reflexivity.
  - by vm_compute.
  - reflexivity.
  - by vm_compute.
  - by vm_compute.
Qed.

