(* ===== verification/TxFrames.v ===== *)
(** The savepoint frames of a database transaction and the change events each of them
    buffers ([zeroship-data-orm/src/transaction/reducer/frames.rs]), and the flat buffer
    with watermarks the transaction lane keeps beside them ([tx_lanes.rs]). A stack lists
    its innermost frame first. *)

From S2P Require Export RustStd.

(** * The frame stack *)

Inductive FrameStatus := FrameOpening | FrameOpen | FrameRolledBack.
#[global] Instance frame_status_eq_dec : EqDecision FrameStatus.
Proof. solve_decision. Defined.

(** A change event queued by a write. *)
Record Effect := mk_effect { ef_collection : bytes; ef_payload : bytes }.
#[global] Instance effect_eq_dec : EqDecision Effect.
Proof. solve_decision. Defined.

Record Frame := mk_frame {
  fr_id : Z;
  fr_savepoint : option bytes;
  fr_status : FrameStatus;
  fr_effects : list Effect
}.

Definition is_root (f : Frame) : bool := bool_decide (fr_savepoint f = None).

Inductive FrameError := SavepointNotCurrent | SavepointDepthExceeded | SavepointRootCannotClose | NoOpenFrame.
#[global] Instance frame_error_eq_dec : EqDecision FrameError.
Proof. solve_decision. Defined.

Inductive FrameClose := Released | RolledBackTo.
#[global] Instance frame_close_eq_dec : EqDecision FrameClose.
Proof. solve_decision. Defined.

Record FrameStack := mk_stack {
  fs_frames : list Frame;
  fs_next_sequence : Z;
  fs_minted_names : list bytes;
  fs_max_depth : Z
}.

Definition new_stack (max_depth : Z) : FrameStack := mk_stack [] 0 [] max_depth.
Definition with_frames (frames : list Frame) (s : FrameStack) : FrameStack :=
  mk_stack frames (fs_next_sequence s) (fs_minted_names s) (fs_max_depth s).

Definition top (s : FrameStack) : option Frame := hd_error (fs_frames s).
Definition contains (id : Z) (s : FrameStack) : bool := existsb (λ f, (fr_id f =? id)%Z) (fs_frames s).

Definition savepoint_name (id : Z) : bytes := lit "zs_sp_" ++ nat_to_string id.

(** The root, on a confirmed [BEGIN]. *)
Definition open_root (s : FrameStack) : Z * FrameStack :=
  let id := (fs_next_sequence s + 1)%Z in
  (id, mk_stack (mk_frame id None FrameOpen [] :: fs_frames s) id (fs_minted_names s) (fs_max_depth s)).

(** A child is pushed before its [SAVEPOINT] is sent. *)
Definition open_child (s : FrameStack) : result FrameError (Z * bytes * FrameStack) :=
  match fs_frames s with
  | [] => Err NoOpenFrame
  | f :: _ =>
      if negb (bool_decide (fr_status f = FrameOpen)) then Err SavepointNotCurrent
      else if (fs_max_depth s <? Z.of_nat (length (fs_frames s)))%Z then Err SavepointDepthExceeded
      else
        let id := (fs_next_sequence s + 1)%Z in
        let name := savepoint_name id in
        Ok (id, name, mk_stack (mk_frame id (Some name) FrameOpening [] :: fs_frames s) id
                        (bset_insert name (fs_minted_names s)) (fs_max_depth s))
  end.

Definition confirm_child_open (id : Z) (s : FrameStack) : result FrameError FrameStack :=
  match fs_frames s with
  | [] => Err NoOpenFrame
  | f :: rest =>
      if negb (fr_id f =? id)%Z then Err SavepointNotCurrent
      else Ok (with_frames (mk_frame (fr_id f) (fr_savepoint f) FrameOpen (fr_effects f) :: rest) s)
  end.

(** A child whose [SAVEPOINT] failed. *)
Definition abandon_opening_child (id : Z) (s : FrameStack) : result FrameError FrameStack :=
  match fs_frames s with
  | [] => Err NoOpenFrame
  | f :: rest =>
      if negb (fr_id f =? id)%Z || is_root f then Err SavepointNotCurrent
      else Ok (with_frames rest s)
  end.

(** [ROLLBACK TO] succeeded: the effects are gone and the frame waits for its [RELEASE]. *)
Definition mark_rolled_back (id : Z) (s : FrameStack) : result FrameError FrameStack :=
  match fs_frames s with
  | [] => Err NoOpenFrame
  | f :: rest =>
      if negb (fr_id f =? id)%Z then Err SavepointNotCurrent
      else if is_root f then Err SavepointRootCannotClose
      else Ok (with_frames (mk_frame (fr_id f) (fr_savepoint f) FrameRolledBack [] :: rest) s)
  end.

Definition queue_effect (effect : Effect) (s : FrameStack) : result FrameError FrameStack :=
  match fs_frames s with
  | [] => Err NoOpenFrame
  | f :: rest =>
      if negb (bool_decide (fr_status f = FrameOpen)) then Err SavepointNotCurrent
      else Ok (with_frames (mk_frame (fr_id f) (fr_savepoint f) (fr_status f) (fr_effects f ++ [effect])
                              :: rest) s)
  end.

(** Close the top frame. [None] is the panic of a child without a parent. *)
Definition close_top (id : Z) (close : FrameClose) (s : FrameStack) :
    option (result FrameError (Z * FrameStack)) :=
  match fs_frames s with
  | [] => Some (Err NoOpenFrame)
  | f :: rest =>
      if negb (fr_id f =? id)%Z then Some (Err SavepointNotCurrent)
      else if is_root f then Some (Err SavepointRootCannotClose)
      else
        match close with
        | Released =>
            match rest with
            | [] => None
            | p :: rest =>
                Some (Ok (fr_id f, with_frames (mk_frame (fr_id p) (fr_savepoint p) (fr_status p)
                                                  (fr_effects p ++ fr_effects f) :: rest) s))
            end
        | RolledBackTo => Some (Ok (fr_id f, with_frames rest s))
        end
  end.

(** Every retained effect, the outermost frame's first. *)
Definition retained_effects (s : FrameStack) : list Effect := concat (map fr_effects (rev (fs_frames s))).

Definition clear_frames (s : FrameStack) : FrameStack :=
  with_frames (map (λ f, mk_frame (fr_id f) (fr_savepoint f) (fr_status f) []) (fs_frames s)) s.
Definition take_effects_for_confirmed_commit (s : FrameStack) : list Effect * FrameStack :=
  (retained_effects s, clear_frames s).
Definition discard_all_effects (s : FrameStack) : FrameStack := clear_frames s.

(** * The lane's flat buffer

    One queue for the transaction, with the length it had when each open frame opened;
    the marks list the innermost first. *)

Record Emits := mk_emits { em_pending : list Effect; em_marks : list nat }.

Definition push_pending_emit (effect : Effect) (e : Emits) : Emits :=
  mk_emits (em_pending e ++ [effect]) (em_marks e).
Definition push_frame_emit_mark (e : Emits) : Emits :=
  mk_emits (em_pending e) (length (em_pending e) :: em_marks e).
Definition pop_frame_emit_mark (e : Emits) : Emits := mk_emits (em_pending e) (tail (em_marks e)).
Definition discard_frame_effects (e : Emits) : Emits :=
  match em_marks e with
  | [] => e
  | mark :: _ =>
      if mark <=? length (em_pending e) then mk_emits (take mark (em_pending e)) (em_marks e) else e
  end.
