(* ===== verification/TxBuffers.v ===== *)
(** Two ways of buffering the change events of a transaction, one buffer per frame
    ([reducer/frames.rs]) and one queue with a watermark per savepoint ([tx_lanes.rs]),
    keep the same events. *)

From stdpp Require Import relations.
From S2P Require Export TxFrames.

(** The operations a driver pairs. A savepoint is confirmed or abandoned while it is being
    opened; a frame is rolled back or released once it is open. *)
Inductive paired : FrameStack * Emits → FrameStack * Emits → Prop :=
  | paired_write effect s s' e : queue_effect effect s = Ok s' →
      paired (s, e) (s', push_pending_emit effect e)
  | paired_open id name s s' e : open_child s = Ok (id, name, s') → paired (s, e) (s', e)
  | paired_opened id f s s' e : top s = Some f → fr_status f = FrameOpening →
      confirm_child_open id s = Ok s' → paired (s, e) (s', push_frame_emit_mark e)
  | paired_abandon id f s s' e : top s = Some f → fr_status f = FrameOpening →
      abandon_opening_child id s = Ok s' → paired (s, e) (s', e)
  | paired_roll_back id f s s' e : top s = Some f → fr_status f ≠ FrameOpening →
      mark_rolled_back id s = Ok s' → paired (s, e) (s', discard_frame_effects e)
  | paired_release id f x s s' e : top s = Some f → fr_status f ≠ FrameOpening →
      close_top id Released s = Some (Ok (x, s')) → paired (s, e) (s', pop_frame_emit_mark e).

(** The buffers of the frames lie in the queue one after the other, and the marks of the
    open ones are where they start. *)
Inductive layered : list Frame → list Effect → list nat → Prop :=
  | layered_root id es : layered [mk_frame id None FrameOpen es] es []
  | layered_opening id name frames es marks : layered frames es marks →
      layered (mk_frame id (Some name) FrameOpening [] :: frames) es marks
  | layered_child id name status own frames below marks : status ≠ FrameOpening → layered frames below marks →
      layered (mk_frame id (Some name) status own :: frames) (below ++ own) (length below :: marks).

Definition outer_open (frames : list Frame) : Prop := Forall (λ f, fr_status f = FrameOpen) (tail frames).

Definition mirrored (x : FrameStack * Emits) : Prop :=
  layered (fs_frames x.1) (em_pending x.2) (em_marks x.2) ∧ outer_open (fs_frames x.1).

Lemma layered_retained frames es marks : layered frames es marks → es = concat (map fr_effects (rev frames)).
Proof.
  induction 1 as [id es|id name frames es marks _ IH|id name st own frames below marks _ _ IH]; cbn;
    rewrite ?map_app, ?concat_app; cbn; rewrite ?app_nil_r; [done|done|by rewrite <- IH].
Qed.

Lemma release_mirrored id f x frames next names max s' e : fr_status f ≠ FrameOpening →
  mirrored (mk_stack (f :: frames) next names max, e) →
  close_top id Released (mk_stack (f :: frames) next names max) = Some (Ok (x, s')) →
  mirrored (s', pop_frame_emit_mark e).
Proof.
  intros Hst [Hl Ho] E. unfold close_top in E. cbn in E. destruct (negb _); [done|].
  destruct (is_root f) eqn:Er; [done|]. destruct frames as [|p rest]; [done|]. injection E as <- <-.
  unfold outer_open in Ho. cbn in Hl, Ho. apply Forall_cons in Ho as [Hp Ho].
  inversion Hl as [|? ? ? ? ? Hl'|? ? ? ? ? below marks Hs Hl' Ef Ee Em]; subst; [done|]. cbn in *.
  split; cbn; rewrite <- ?Em, <- ?Ee; [|done]. cbn.
  inversion Hl' as [|? ? ? ? ? Hl''|? ? ? ? ? below' marks' Hs' Hl'' Ef' Ee' Em']; subst; [constructor|done|].
  cbn. rewrite <- app_assoc. by constructor.
Qed.

Lemma paired_mirrored x y : paired x y → mirrored x → mirrored y.
Proof.
  intros [effect s s' e E|id name s s' e E|id f s s' e Ht Hst E|id f s s' e Ht Hst E|id f s s' e Ht Hst E|
    id f x' s s' e Ht Hst E]; destruct s as [[|g frames] next names max]; try done.
  - intros [Hl Ho]. unfold queue_effect in E. cbn in *. case_bool_decide as Hg; [|done]. injection E as <-.
    split; [|done]. cbn. inversion Hl; subst; [constructor|done|]. cbn. rewrite <- app_assoc. by constructor.
  - intros [Hl Ho]. unfold open_child in E. cbn in *. case_bool_decide as Hg; [|done]. cbn in E.
    destruct (_ <? _)%Z; [done|]. injection E as <- <- <-. split; [by constructor|]. by constructor.
  - intros [Hl Ho]. unfold confirm_child_open in E. cbn in *. destruct (negb _); [done|]. injection E as <-.
    injection Ht as ->. split; [|done]. cbn. inversion Hl; subst; [done| |done]. cbn.
    rewrite <- (app_nil_r (em_pending e)) at 1. by constructor.
  - intros [Hl Ho]. unfold abandon_opening_child in E. cbn in *. destruct (_ || _); [done|]. injection E as <-.
    injection Ht as ->. inversion Hl; subst; [done| |done]. split; [done|].
    unfold outer_open in *. cbn in *. destruct frames; [done|]. by apply Forall_cons in Ho as [_ Ho].
  - intros [Hl Ho]. unfold mark_rolled_back in E. cbn in *. destruct (negb _); [done|].
    destruct (is_root g) eqn:Er; [done|]. injection E as <-. injection Ht as ->. split; [|done]. cbn.
    inversion Hl as [| |? ? ? own ? below marks Hs Hl' Ef Ee Em]; subst; [done|done|].
    unfold discard_frame_effects. rewrite <- Em, <- Ee, (proj2 (Nat.leb_le _ _)) by (rewrite length_app; lia). cbn.
    rewrite take_app_length, <- (app_nil_r below) at 1. by constructor.
  - injection Ht as ->. intros Hm. by eapply release_mirrored in Hm.
Qed.

(** From the begin of a transaction on, however the operations are interleaved, the queue
    with watermarks holds exactly the events the frames hold, the outermost frame's
    first. *)
Theorem watermarks_keep_the_frames_events max s e :
  rtc paired ((open_root (new_stack max)).2, mk_emits [] []) (s, e) → em_pending e = retained_effects s.
Proof.
  intros Hr. cut (mirrored (s, e)). { intros [Hl _]. by apply layered_retained in Hl. }
  remember ((open_root (new_stack max)).2, mk_emits [] []) as x eqn:Ex.
  assert (mirrored x) as Hx by (subst; split; [apply layered_root|constructor]). clear Ex.
  induction Hr as [x|x y z Hxy _ IH]; [done|]. apply IH. by eapply paired_mirrored.
Qed.

Definition insert_row : Effect := mk_effect (lit "orders") (lit "insert").

Lemma watermarks_keep_the_frames_events_witness : ∃ s e,
  rtc paired ((open_root (new_stack 8)).2, mk_emits [] []) (s, e) ∧ retained_effects s = [insert_row] ∧
  em_pending e = retained_effects s.
Proof.
  assert (∃ s e, rtc paired ((open_root (new_stack 8)).2, mk_emits [] []) (s, e) ∧ retained_effects s = [insert_row])
    as (s & e & Hr & Hs).
  { do 2 eexists. split.
    - eapply rtc_l; [by apply (paired_write insert_row)|]. eapply rtc_l; [by eapply paired_open|].
      eapply rtc_l; [by eapply (paired_opened 2)|]. eapply rtc_l; [by apply (paired_write insert_row)|].
      eapply rtc_l; [by eapply (paired_roll_back 2)|]. eapply rtc_l; [by eapply (paired_release 2)|]. apply rtc_refl.
    - vm_compute. reflexivity. }
  exists s, e. split; [exact Hr|]. split; [exact Hs|]. exact (watermarks_keep_the_frames_events 8 s e Hr).
Defined.
