(* ===== verification/TxReducer.v ===== *)
(** The transaction reducer ([zeroship-data-orm/src/transaction/reducer]): its deadline
    slot ([deadline.rs]), the classifier of authority observations ([identity.rs]) and the
    state machine itself ([mod.rs]). An event yields the next state and the actions a
    driver must perform; [None] is a panic ([expect]). Instants and durations are [Z], and
    so are the counters of [u64] that go up by one per command. *)

From S2P Require Export TxFrames.

(** * Deadlines *)

Inductive DeadlineKind := Execution | CancellationSql | TerminalSql.
#[global] Instance deadline_kind_eq_dec : EqDecision DeadlineKind.
Proof. solve_decision. Defined.

(** [DeadlineSlot] holds one [DeadlineState]. *)
Inductive DeadlineState :=
  | Disarmed
  | Armed (kind : DeadlineKind) (generation at_ : Z)
  | Fired (kind : DeadlineKind) (generation : Z).
#[global] Instance deadline_state_eq_dec : EqDecision DeadlineState.
Proof. solve_decision. Defined.

Record ScheduleTimer := mk_timer { ti_kind : DeadlineKind; ti_generation : Z; ti_at : Z }.
#[global] Instance timer_eq_dec : EqDecision ScheduleTimer.
Proof. solve_decision. Defined.

(** The mutators; [None] is [Err(Stale)], which changes nothing. *)
Definition arm_initial (kind : DeadlineKind) (generation at_ : Z) (slot : DeadlineState) :
    option (ScheduleTimer * DeadlineState) :=
  if bool_decide (slot = Disarmed)
  then Some (mk_timer kind generation at_, Armed kind generation at_) else None.

Definition claim_fire (kind : DeadlineKind) (generation : Z) (slot : DeadlineState) : option DeadlineState :=
  match slot with
  | Armed armed_kind armed_generation _ =>
      if bool_decide (armed_kind = kind) && (armed_generation =? generation)%Z
      then Some (Fired kind generation) else None
  | _ => None
  end.

Definition replace_current (expected_kind next_kind : DeadlineKind) (next_generation next_at : Z)
    (slot : DeadlineState) : option (ScheduleTimer * DeadlineState) :=
  let replace current_kind :=
    if bool_decide (current_kind = expected_kind)
    then Some (mk_timer next_kind next_generation next_at, Armed next_kind next_generation next_at)
    else None in
  match slot with
  | Armed kind _ _ | Fired kind _ => replace kind
  | Disarmed => None
  end.

(** * Authority *)

Record AuthorityIdentity := mk_identity { id_key : bytes; id_incarnation : Z }.
#[global] Instance identity_eq_dec : EqDecision AuthorityIdentity.
Proof. solve_decision. Defined.

Record AuthorityDomain := mk_domain { do_system_identifier : Z; do_timeline_id : Z }.
#[global] Instance domain_eq_dec : EqDecision AuthorityDomain.
Proof. solve_decision. Defined.

Inductive LifecycleState := Stable | Changing | Deprovisioned.
#[global] Instance lifecycle_eq_dec : EqDecision LifecycleState.
Proof. solve_decision. Defined.

(** The unmask actor kinds a ceiling permits. *)
Definition MaskCeiling : Type := list bytes.
Definition meet_ceiling (a b : MaskCeiling) : MaskCeiling := List.filter (λ k, bool_decide (k ∈ b)) a.
Definition is_no_broader_than (a b : MaskCeiling) : bool := forallb (λ k, bool_decide (k ∈ b)) a.
Definition permits (kind : bytes) (c : MaskCeiling) : bool := bool_decide (kind ∈ c).

Record ExpectedAuthority := mk_expected {
  ex_identity : AuthorityIdentity;
  ex_domain : AuthorityDomain;
  ex_epoch : Z
}.

Record ObservedAuthority := mk_observed {
  ob_identity : AuthorityIdentity;
  ob_domain : AuthorityDomain;
  ob_epoch : Z;
  ob_lifecycle : LifecycleState;
  ob_ceiling : MaskCeiling
}.

Inductive DenyReason := AppDeprovisioned | StaleAppIncarnation | AuthorityDomainMismatch | GrantRevoked.
#[global] Instance deny_eq_dec : EqDecision DenyReason.
Proof. solve_decision. Defined.

Inductive Verdict := Current (ceiling : MaskCeiling) | ReResolve | Deny (reason : DenyReason).

Definition classify (observed : ObservedAuthority) (expected : ExpectedAuthority) : Verdict :=
  if negb (bool_decide (ob_domain observed = ex_domain expected)) then Deny AuthorityDomainMismatch
  else if negb (bool_decide (ob_identity observed = ex_identity expected)) then Deny StaleAppIncarnation
  else
    match ob_lifecycle observed with
    | Deprovisioned => Deny AppDeprovisioned
    | Changing => ReResolve
    | Stable =>
        if negb (ob_epoch observed =? ex_epoch expected)%Z then ReResolve
        else Current (ob_ceiling observed)
    end.

(** * States, events and actions *)

Inductive TxState :=
  | Preparing | Starting | Idle | InFlight | Quiescing | Poisoned | Cancelling | Settling | Settled.
#[global] Instance tx_state_eq_dec : EqDecision TxState.
Proof. solve_decision. Defined.

Definition admits_creator_sql (s : TxState) : bool := bool_decide (s = Idle).
Definition is_forceable (s : TxState) : bool :=
  match s with
  | Preparing | Starting | Idle | InFlight | Quiescing | Poisoned => true
  | Cancelling | Settling | Settled => false
  end.

Inductive CleanupAck := NoOpenTransaction | AckRolledBack | AckIndeterminate.
#[global] Instance ack_eq_dec : EqDecision CleanupAck.
Proof. solve_decision. Defined.

Inductive CleanupGoal := NoTransaction | AbortIfOpened | OpenTransaction.
#[global] Instance goal_eq_dec : EqDecision CleanupGoal.
Proof. solve_decision. Defined.

Definition for_state (s : TxState) : CleanupGoal :=
  match s with
  | Preparing => NoTransaction
  | Starting => AbortIfOpened
  | Idle | InFlight | Quiescing | Poisoned => OpenTransaction
  | Cancelling | Settling | Settled => AbortIfOpened
  end.

Definition is_proved_by (g : CleanupGoal) (ack : CleanupAck) : bool :=
  match g with
  | NoTransaction => bool_decide (ack = NoOpenTransaction)
  | AbortIfOpened => bool_decide (ack = NoOpenTransaction) || bool_decide (ack = AckRolledBack)
  | OpenTransaction => bool_decide (ack = AckRolledBack)
  end.

Inductive CleanupCause :=
  | CauseCancelled
  | DeadlineExpired (kind : DeadlineKind)
  | Detached
  | CauseEpochChanged
  | CauseDenied (reason : DenyReason)
  | SessionSetupFailed
  | BeginFailed
  | BackendHealthUnknown.
#[global] Instance cause_eq_dec : EqDecision CleanupCause.
Proof. solve_decision. Defined.

(** Only a changed epoch is worth another attempt. *)
Definition retryable (c : CleanupCause) : bool := bool_decide (c = CauseEpochChanged).

Record LatchedCleanup := mk_latched { la_cause : CleanupCause; la_goal : CleanupGoal }.
#[global] Instance latched_eq_dec : EqDecision LatchedCleanup.
Proof. solve_decision. Defined.

Inductive SessionOwnership := NoSession | OwnedByRegistry | OwnedByCommand (token : Z) | Withdrawn.
#[global] Instance ownership_eq_dec : EqDecision SessionOwnership.
Proof. solve_decision. Defined.

Inductive SettleIntent := Commit | Rollback.
#[global] Instance intent_eq_dec : EqDecision SettleIntent.
Proof. solve_decision. Defined.

Inductive TerminalResult := TerminalCommitted | TerminalRolledBack | TerminalIndeterminate.
#[global] Instance terminal_result_eq_dec : EqDecision TerminalResult.
Proof. solve_decision. Defined.

Inductive TerminalOutcome :=
  | Committed
  | RolledBack
  | Cancelled (cause : CleanupCause)
  | Indeterminate (cause : CleanupCause)
  | ResultMismatch.
#[global] Instance outcome_eq_dec : EqDecision TerminalOutcome.
Proof. solve_decision. Defined.

Definition publishes (o : TerminalOutcome) : bool := bool_decide (o = Committed).

Record EventAuthority := mk_authority { au_identity : AuthorityIdentity; au_domain : AuthorityDomain }.

Inductive BeginOutcome :=
  | Opened (generation : Z)
  | SetupFailed
  | BeginReResolve
  | BeginDenied (reason : DenyReason)
  | BeginOutcomeFailed.

Inductive TxEvent :=
  | AuthorityObserved (authority : EventAuthority) (observed : ObservedAuthority)
  | BeginCompleted (token : Z) (outcome : BeginOutcome)
  | OperationRequested
  | OperationCompleted (token : Z) (errored : bool)
  | OpenFrame
  | OpenFrameCompleted (token frame : Z) (ok : bool)
  | CloseFrame (frame : Z) (close : FrameClose)
  | CloseFrameCompleted (token frame : Z) (close : FrameClose) (ok : bool)
  | SettleRequested (intent : SettleIntent)
  | TerminalCompleted (token : Z) (result : TerminalResult)
  | Cancel (authority : EventAuthority)
  | DetachRequested (authority : EventAuthority)
  | DeadlineFired (kind : DeadlineKind) (generation : Z)
  | CancellationAcknowledged (token : Z) (ack : CleanupAck).

Inductive TxReply :=
  | Began
  | FrameOpened (frame : Z)
  | FrameClosed (frame : Z)
  | OperationAccepted
  | ReplySettled (outcome : TerminalOutcome).
#[global] Instance reply_eq_dec : EqDecision TxReply.
Proof. solve_decision. Defined.

Inductive TxProtocolError :=
  | AppIncarnationMismatch
  | StaleTransactionCompletion
  | StaleTransactionDeadline
  | StaleBackendGeneration
  | TransactionNotReady
  | TransactionConnectionBusy
  | TransactionAlreadySettled
  | SettleConflict
  | FrameRefused (error : FrameError)
  | ReplyEpochChanged
  | ReplyDenied (reason : DenyReason)
  | Cleanup (cause : CleanupCause).
#[global] Instance protocol_error_eq_dec : EqDecision TxProtocolError.
Proof. solve_decision. Defined.

Inductive Action :=
  | Schedule (timer : ScheduleTimer)
  | IssueBegin (token : Z)
  | IssueDataSql (token : Z)
  | IssueSavepoint (token : Z) (name : bytes)
  | IssueRollbackTo (token : Z) (name : bytes)
  | IssueRelease (token : Z) (name : bytes)
  | IssueTerminal (token : Z) (intent : SettleIntent)
  | IssueCancellation (token : Z) (goal : CleanupGoal)
  | WithdrawSession
  | ReleaseSession
  | ReleaseAdmission
  | PublishEffects (effects : list Effect)
  | DiscardEffects
  | Reply (reply : result TxProtocolError TxReply).

Definition is_creator_data_sql (a : Action) : bool :=
  match a with
  | IssueDataSql _ | IssueSavepoint _ _ | IssueRollbackTo _ _ | IssueRelease _ _ | IssueBegin _ => true
  | _ => false
  end.

Record TxBudgets := mk_budgets { bu_execution : Z; bu_cancellation_sql : Z; bu_terminal_sql : Z }.

(** * The reducer *)

Record TxReducer := mk_tx {
  tx_state : TxState;
  tx_expected : ExpectedAuthority;
  tx_budgets : TxBudgets;
  tx_begin_ceiling : option MaskCeiling;
  tx_effective_ceiling : option MaskCeiling;
  tx_session : SessionOwnership;
  tx_generation : option Z;
  tx_frames : FrameStack;
  tx_slot : DeadlineState;
  tx_generations : Z;
  tx_next_token : Z;
  tx_active : option Z;
  tx_cancellation_token : option Z;
  tx_cleanup : option LatchedCleanup;
  tx_settle_intent : option SettleIntent;
  tx_terminal_promised : bool;
  tx_outcome : option TerminalOutcome
}.

(** Assignments to one field, or to the few that are assigned together. *)
Definition set_state (s : TxState) (r : TxReducer) : TxReducer :=
  mk_tx s (tx_expected r) (tx_budgets r) (tx_begin_ceiling r) (tx_effective_ceiling r) (tx_session r)
    (tx_generation r) (tx_frames r) (tx_slot r) (tx_generations r) (tx_next_token r) (tx_active r)
    (tx_cancellation_token r) (tx_cleanup r) (tx_settle_intent r) (tx_terminal_promised r) (tx_outcome r).
Definition set_ceilings (begin effective : option MaskCeiling) (r : TxReducer) : TxReducer :=
  mk_tx (tx_state r) (tx_expected r) (tx_budgets r) begin effective (tx_session r)
    (tx_generation r) (tx_frames r) (tx_slot r) (tx_generations r) (tx_next_token r) (tx_active r)
    (tx_cancellation_token r) (tx_cleanup r) (tx_settle_intent r) (tx_terminal_promised r) (tx_outcome r).
Definition set_session (o : SessionOwnership) (r : TxReducer) : TxReducer :=
  mk_tx (tx_state r) (tx_expected r) (tx_budgets r) (tx_begin_ceiling r) (tx_effective_ceiling r) o
    (tx_generation r) (tx_frames r) (tx_slot r) (tx_generations r) (tx_next_token r) (tx_active r)
    (tx_cancellation_token r) (tx_cleanup r) (tx_settle_intent r) (tx_terminal_promised r) (tx_outcome r).
Definition set_generation (g : option Z) (r : TxReducer) : TxReducer :=
  mk_tx (tx_state r) (tx_expected r) (tx_budgets r) (tx_begin_ceiling r) (tx_effective_ceiling r) (tx_session r)
    g (tx_frames r) (tx_slot r) (tx_generations r) (tx_next_token r) (tx_active r)
    (tx_cancellation_token r) (tx_cleanup r) (tx_settle_intent r) (tx_terminal_promised r) (tx_outcome r).
Definition set_frames (f : FrameStack) (r : TxReducer) : TxReducer :=
  mk_tx (tx_state r) (tx_expected r) (tx_budgets r) (tx_begin_ceiling r) (tx_effective_ceiling r) (tx_session r)
    (tx_generation r) f (tx_slot r) (tx_generations r) (tx_next_token r) (tx_active r)
    (tx_cancellation_token r) (tx_cleanup r) (tx_settle_intent r) (tx_terminal_promised r) (tx_outcome r).
Definition set_slot (s : DeadlineState) (r : TxReducer) : TxReducer :=
  mk_tx (tx_state r) (tx_expected r) (tx_budgets r) (tx_begin_ceiling r) (tx_effective_ceiling r) (tx_session r)
    (tx_generation r) (tx_frames r) s (tx_generations r) (tx_next_token r) (tx_active r)
    (tx_cancellation_token r) (tx_cleanup r) (tx_settle_intent r) (tx_terminal_promised r) (tx_outcome r).
Definition set_active (t : option Z) (r : TxReducer) : TxReducer :=
  mk_tx (tx_state r) (tx_expected r) (tx_budgets r) (tx_begin_ceiling r) (tx_effective_ceiling r) (tx_session r)
    (tx_generation r) (tx_frames r) (tx_slot r) (tx_generations r) (tx_next_token r) t
    (tx_cancellation_token r) (tx_cleanup r) (tx_settle_intent r) (tx_terminal_promised r) (tx_outcome r).
Definition set_cancellation_token (t : option Z) (r : TxReducer) : TxReducer :=
  mk_tx (tx_state r) (tx_expected r) (tx_budgets r) (tx_begin_ceiling r) (tx_effective_ceiling r) (tx_session r)
    (tx_generation r) (tx_frames r) (tx_slot r) (tx_generations r) (tx_next_token r) (tx_active r)
    t (tx_cleanup r) (tx_settle_intent r) (tx_terminal_promised r) (tx_outcome r).
Definition set_cleanup (c : option LatchedCleanup) (r : TxReducer) : TxReducer :=
  mk_tx (tx_state r) (tx_expected r) (tx_budgets r) (tx_begin_ceiling r) (tx_effective_ceiling r) (tx_session r)
    (tx_generation r) (tx_frames r) (tx_slot r) (tx_generations r) (tx_next_token r) (tx_active r)
    (tx_cancellation_token r) c (tx_settle_intent r) (tx_terminal_promised r) (tx_outcome r).
Definition set_settle_intent (i : option SettleIntent) (r : TxReducer) : TxReducer :=
  mk_tx (tx_state r) (tx_expected r) (tx_budgets r) (tx_begin_ceiling r) (tx_effective_ceiling r) (tx_session r)
    (tx_generation r) (tx_frames r) (tx_slot r) (tx_generations r) (tx_next_token r) (tx_active r)
    (tx_cancellation_token r) (tx_cleanup r) i (tx_terminal_promised r) (tx_outcome r).
Definition set_terminal_promised (b : bool) (r : TxReducer) : TxReducer :=
  mk_tx (tx_state r) (tx_expected r) (tx_budgets r) (tx_begin_ceiling r) (tx_effective_ceiling r) (tx_session r)
    (tx_generation r) (tx_frames r) (tx_slot r) (tx_generations r) (tx_next_token r) (tx_active r)
    (tx_cancellation_token r) (tx_cleanup r) (tx_settle_intent r) b (tx_outcome r).
Definition set_outcome (o : option TerminalOutcome) (r : TxReducer) : TxReducer :=
  mk_tx (tx_state r) (tx_expected r) (tx_budgets r) (tx_begin_ceiling r) (tx_effective_ceiling r) (tx_session r)
    (tx_generation r) (tx_frames r) (tx_slot r) (tx_generations r) (tx_next_token r) (tx_active r)
    (tx_cancellation_token r) (tx_cleanup r) (tx_settle_intent r) (tx_terminal_promised r) o.

Definition mint_token (r : TxReducer) : Z * TxReducer :=
  let t := (tx_next_token r + 1)%Z in
  (t, mk_tx (tx_state r) (tx_expected r) (tx_budgets r) (tx_begin_ceiling r) (tx_effective_ceiling r)
        (tx_session r) (tx_generation r) (tx_frames r) (tx_slot r) (tx_generations r) t (tx_active r)
        (tx_cancellation_token r) (tx_cleanup r) (tx_settle_intent r) (tx_terminal_promised r) (tx_outcome r)).
(** [DeadlineGenerations::mint]. *)
Definition mint (r : TxReducer) : Z * TxReducer :=
  let g := (tx_generations r + 1)%Z in
  (g, mk_tx (tx_state r) (tx_expected r) (tx_budgets r) (tx_begin_ceiling r) (tx_effective_ceiling r)
        (tx_session r) (tx_generation r) (tx_frames r) (tx_slot r) g (tx_next_token r) (tx_active r)
        (tx_cancellation_token r) (tx_cleanup r) (tx_settle_intent r) (tx_terminal_promised r) (tx_outcome r)).

Definition admit_tx (expected : ExpectedAuthority) (budgets : TxBudgets) (now max_depth : Z) :
    option (TxReducer * list Action) :=
  let r := mk_tx Preparing expected budgets None None NoSession None (new_stack max_depth) Disarmed 0 0
             None None None None false None in
  let '(generation, r) := mint r in
  res ← arm_initial Execution generation (now + bu_execution budgets)%Z (tx_slot r);
  Some (set_slot res.2 r, [Schedule res.1]).

(** The slot moves on to the deadline that bounds what comes next. *)
Definition replace_slot (next_kind : DeadlineKind) (at_ : Z) (r : TxReducer) : TxReducer * list Action :=
  let '(next, r) := mint r in
  match replace_current Execution next_kind next at_ (tx_slot r) with
  | Some (scheduled, slot) => (set_slot slot r, [Schedule scheduled])
  | None => (r, [])
  end.

(** The gate every forcing publisher goes through. *)
Inductive GateOutcome := ForceWon | Joined | LateCancel.

Definition force (cause : CleanupCause) (now : Z) (r : TxReducer) : TxReducer * GateOutcome * list Action :=
  if tx_terminal_promised r || bool_decide (tx_state r = Settling) then (r, LateCancel, [])
  else
    match tx_cleanup r with
    | Some _ => (r, Joined, [])
    | None =>
        let goal := for_state (tx_state r) in
        let r := set_state Cancelling (set_cleanup (Some (mk_latched cause goal)) r) in
        let '(token, r) := mint_token r in
        let r := set_cancellation_token (Some token) r in
        let '(r, actions) := replace_slot CancellationSql (now + bu_cancellation_sql (tx_budgets r))%Z r in
        (r, ForceWon, actions ++ [IssueCancellation token goal])
    end.
Definition forced (cause : CleanupCause) (now : Z) (r : TxReducer) : TxReducer * list Action :=
  let '(r, _, actions) := force cause now r in (r, actions).

Definition settle_now (outcome : TerminalOutcome) (withdraw : bool) (r : TxReducer) : TxReducer * list Action :=
  let r := set_slot Disarmed (set_active None (set_outcome (Some outcome) (set_state Settled r))) in
  let '(r, effects) :=
    if publishes outcome
    then let '(effects, f) := take_effects_for_confirmed_commit (tx_frames r) in
         (set_frames f r, [PublishEffects effects])
    else (set_frames (discard_all_effects (tx_frames r)) r, [DiscardEffects]) in
  let '(r, session) :=
    if withdraw then (set_session Withdrawn r, [WithdrawSession])
    else (set_session NoSession r, [ReleaseSession]) in
  (r, effects ++ session ++ [ReleaseAdmission; Reply (Ok (ReplySettled outcome))]).

Definition refusal (e : TxProtocolError) (r : TxReducer) : option (TxReducer * list Action) :=
  Some (r, [Reply (Err e)]).

(** What a creator's request meets once cleanup has begun. *)
Definition refuse_if_cleaning_up (r : TxReducer) : option TxProtocolError :=
  latched ← tx_cleanup r; Some (Cleanup (la_cause latched)).

Definition check_token (token : Z) (r : TxReducer) : bool := bool_decide (tx_active r = Some token).

Definition command_returned_during_cleanup (r : TxReducer) : option (TxReducer * list Action) :=
  let r := set_session OwnedByRegistry (set_active None r) in
  latched ← tx_cleanup r;
  refusal (Cleanup (la_cause latched)) r.

(** The session goes out with a command. *)
Definition lease (state : TxState) (r : TxReducer) : Z * TxReducer :=
  let '(token, r) := mint_token r in
  (token, set_state state (set_session (OwnedByCommand token) (set_active (Some token) r))).

Definition begin_terminal (intent : SettleIntent) (now : Z) (r : TxReducer) : TxReducer * list Action :=
  let command := if bool_decide (tx_state r = Poisoned) then Rollback else intent in
  let r := set_settle_intent (Some intent) r in
  let '(token, r) := lease Settling r in
  let '(r, actions) := replace_slot TerminalSql (now + bu_terminal_sql (tx_budgets r))%Z r in
  (r, actions ++ [IssueTerminal token command]).

(** ** Handlers *)

Definition on_verdict (verdict : Verdict) (now : Z) (r : TxReducer) : TxReducer * list Action :=
  match verdict with
  | Current ceiling =>
      let effective :=
        match tx_begin_ceiling r, tx_effective_ceiling r with
        | Some begin, Some effective => meet_ceiling (meet_ceiling begin effective) ceiling
        | _, _ => ceiling
        end in
      let r := set_ceilings (tx_begin_ceiling r) (Some effective) r in
      match tx_state r with
      | Preparing =>
          let r := set_state Starting (set_ceilings (Some ceiling) (tx_effective_ceiling r) r) in
          let '(token, r) := mint_token r in
          (set_active (Some token) r, [IssueBegin token])
      | _ => (r, [])
      end
  | ReResolve =>
      let '(r, actions) := forced CauseEpochChanged now r in (r, actions ++ [Reply (Err ReplyEpochChanged)])
  | Deny reason =>
      let '(r, actions) := forced (CauseDenied reason) now r in (r, actions ++ [Reply (Err (ReplyDenied reason))])
  end.

Definition on_authority (observed : ObservedAuthority) (now : Z) (r : TxReducer) : TxReducer * list Action :=
  on_verdict (classify observed (tx_expected r)) now r.

Definition on_begin_completed (token : Z) (outcome : BeginOutcome) (now : Z) (r : TxReducer) :
    option (TxReducer * list Action) :=
  if negb (check_token token r) then refusal StaleTransactionCompletion r
  else if negb (bool_decide (tx_state r = Starting)) then refusal TransactionNotReady r
  else
    let r := set_active None r in
    Some match outcome with
         | Opened generation =>
             let r := set_session OwnedByRegistry (set_generation (Some generation) r) in
             let r := set_frames (open_root (tx_frames r)).2 r in
             (set_state Idle r, [Reply (Ok Began)])
         | SetupFailed => forced SessionSetupFailed now r
         | BeginReResolve => on_verdict ReResolve now r
         | BeginDenied reason => on_verdict (Deny reason) now r
         | BeginOutcomeFailed => forced BeginFailed now r
         end.

Definition on_operation_requested (r : TxReducer) : option (TxReducer * list Action) :=
  match refuse_if_cleaning_up r with
  | Some e => refusal e r
  | None =>
      match tx_state r with
      | Idle => let '(token, r) := lease InFlight r in Some (r, [IssueDataSql token])
      | InFlight | Quiescing => refusal TransactionConnectionBusy r
      | _ => refusal TransactionNotReady r
      end
  end.

Definition on_operation_completed (token : Z) (errored : bool) (now : Z) (r : TxReducer) :
    option (TxReducer * list Action) :=
  if negb (check_token token r) then refusal StaleTransactionCompletion r
  else if bool_decide (tx_state r = Cancelling) then command_returned_during_cleanup r
  else
    let quiescing := bool_decide (tx_state r = Quiescing) in
    let r := set_session OwnedByRegistry (set_active None r) in
    let r := set_state (if errored then Poisoned else Idle) r in
    let reply := Reply (if errored then Err TransactionNotReady else Ok OperationAccepted) in
    if quiescing then
      intent ← tx_settle_intent r;
      let '(r, actions) := begin_terminal intent now r in
      Some (r, reply :: actions)
    else Some (r, [reply]).

(** What a frame command meets in a state that does not take it. *)
Definition frame_busy (r : TxReducer) : TxProtocolError :=
  match tx_state r with InFlight | Quiescing => TransactionConnectionBusy | _ => TransactionNotReady end.

Definition on_open_frame (r : TxReducer) : option (TxReducer * list Action) :=
  match refuse_if_cleaning_up r with
  | Some e => refusal e r
  | None =>
      if negb (admits_creator_sql (tx_state r)) then refusal (frame_busy r) r
      else
        match open_child (tx_frames r) with
        | Ok (_, name, f) =>
            let '(token, r) := lease InFlight (set_frames f r) in
            Some (r, [IssueSavepoint token name])
        | Err e => refusal (FrameRefused e) r
        end
  end.

(** A frame operation whose refusal is dropped. *)
Definition frames_or_same (res : result FrameError FrameStack) (r : TxReducer) : TxReducer :=
  match res with Ok f => set_frames f r | Err _ => r end.

Definition on_open_frame_completed (token frame : Z) (ok : bool) (r : TxReducer) :
    option (TxReducer * list Action) :=
  if negb (check_token token r) then refusal StaleTransactionCompletion r
  else if bool_decide (tx_state r = Cancelling) then command_returned_during_cleanup r
  else
    let r := set_session OwnedByRegistry (set_active None r) in
    if ok then
      let r := frames_or_same (confirm_child_open frame (tx_frames r)) r in
      Some (set_state Idle r, [Reply (Ok (FrameOpened frame))])
    else
      let r := frames_or_same (abandon_opening_child frame (tx_frames r)) r in
      refusal TransactionNotReady (set_state Poisoned r).

Definition on_close_frame (frame : Z) (close : FrameClose) (r : TxReducer) : option (TxReducer * list Action) :=
  match refuse_if_cleaning_up r with
  | Some e => refusal e r
  | None =>
      let recovering := bool_decide (tx_state r = Poisoned) && bool_decide (close = RolledBackTo) in
      if negb (admits_creator_sql (tx_state r)) && negb recovering then refusal (frame_busy r) r
      else
        match top (tx_frames r) with
        | None => refusal (FrameRefused NoOpenFrame) r
        | Some f =>
            if negb (fr_id f =? frame)%Z then refusal (FrameRefused SavepointNotCurrent) r
            else if is_root f then refusal (FrameRefused SavepointRootCannotClose) r
            else
              name ← fr_savepoint f;
              let '(token, r) := lease InFlight r in
              Some (r, [match close with
                        | Released => IssueRelease token name
                        | RolledBackTo => IssueRollbackTo token name
                        end])
        end
  end.

Definition on_close_frame_completed (token frame : Z) (close : FrameClose) (ok : bool) (r : TxReducer) :
    option (TxReducer * list Action) :=
  if negb (check_token token r) then refusal StaleTransactionCompletion r
  else if bool_decide (tx_state r = Cancelling) then command_returned_during_cleanup r
  else
    let r := set_session OwnedByRegistry (set_active None r) in
    if negb ok then refusal TransactionNotReady (set_state Poisoned r)
    else
      match close with
      | RolledBackTo =>
          let r := frames_or_same (mark_rolled_back frame (tx_frames r)) r in
          f ← top (tx_frames r);
          name ← fr_savepoint f;
          let '(release, r) := lease InFlight r in
          Some (r, [IssueRelease release name])
      | Released =>
          closed ← close_top frame Released (tx_frames r);
          match closed with
          | Ok (id, f) => Some (set_state Idle (set_frames f r), [Reply (Ok (FrameClosed id))])
          | Err e =>
              match top (tx_frames r) with
              | Some f =>
                  closed ← close_top (fr_id f) RolledBackTo (tx_frames r);
                  let r := match closed with Ok (_, s) => set_frames s r | Err _ => r end in
                  Some (set_state Idle r, [Reply (Ok (FrameClosed (fr_id f)))])
              | None => refusal (FrameRefused e) r
              end
          end
      end.

Definition on_settle_requested (intent : SettleIntent) (now : Z) (r : TxReducer) : option (TxReducer * list Action) :=
  match refuse_if_cleaning_up r with
  | Some e => refusal e r
  | None =>
      match tx_state r with
      | Idle | Poisoned => Some (begin_terminal intent now r)
      | InFlight => Some (set_settle_intent (Some intent) (set_state Quiescing r), [])
      | Quiescing | Settling =>
          if bool_decide (tx_settle_intent r = Some intent) then Some (r, []) else refusal SettleConflict r
      | _ => refusal TransactionNotReady r
      end
  end.

Definition terminal_outcome (intent : SettleIntent) (result : TerminalResult) : TerminalOutcome :=
  match intent, result with
  | Commit, TerminalCommitted => Committed
  | Commit, TerminalRolledBack => RolledBack
  | Rollback, TerminalRolledBack => RolledBack
  | Rollback, TerminalCommitted => ResultMismatch
  | _, TerminalIndeterminate => Indeterminate BackendHealthUnknown
  end.

Definition on_terminal_completed (token : Z) (result : TerminalResult) (r : TxReducer) :
    option (TxReducer * list Action) :=
  if negb (check_token token r) then refusal StaleTransactionCompletion r
  else if negb (bool_decide (tx_state r = Settling)) then refusal TransactionNotReady r
  else
    let r := set_terminal_promised true (set_active None r) in
    intent ← tx_settle_intent r;
    let outcome := terminal_outcome intent result in
    let withdraw := match outcome with Indeterminate _ => true | _ => false end in
    Some (settle_now outcome withdraw (set_slot Disarmed r)).

Definition on_deadline_fired (kind : DeadlineKind) (generation now : Z) (r : TxReducer) : TxReducer * list Action :=
  let preflight_legal :=
    match kind with
    | Execution => is_forceable (tx_state r)
    | CancellationSql => bool_decide (tx_state r = Cancelling)
    | TerminalSql => bool_decide (tx_state r = Settling)
    end in
  if negb preflight_legal then (r, [])
  else
    match claim_fire kind generation (tx_slot r) with
    | None => (r, [])
    | Some slot =>
        let r := set_slot slot r in
        match kind with
        | Execution => forced (DeadlineExpired kind) now r
        | CancellationSql | TerminalSql =>
            let cause := match tx_cleanup r with Some latched => la_cause latched | None => DeadlineExpired kind end in
            settle_now (Indeterminate cause) true (set_slot Disarmed r)
        end
    end.

Definition on_cancellation_acknowledged (token : Z) (ack : CleanupAck) (r : TxReducer) :
    option (TxReducer * list Action) :=
  if negb (bool_decide (tx_cancellation_token r = Some token)) then refusal StaleTransactionCompletion r
  else if negb (bool_decide (tx_state r = Cancelling)) then refusal TransactionNotReady r
  else
    latched ← tx_cleanup r;
    let r := set_slot Disarmed r in
    Some (if is_proved_by (la_goal latched) ack
          then settle_now (Cancelled (la_cause latched)) false r
          else settle_now (Indeterminate (la_cause latched)) true r).

Definition event_authority (e : TxEvent) : option EventAuthority :=
  match e with
  | AuthorityObserved authority _ | Cancel authority | DetachRequested authority => Some authority
  | _ => None
  end.

Definition is_late_force (e : TxEvent) : bool :=
  match e with Cancel _ | DetachRequested _ | DeadlineFired _ _ => true | _ => false end.

(** One event, in the guard order of the protocol. *)
Definition tx_apply (event : TxEvent) (now : Z) (r : TxReducer) : option (TxReducer * list Action) :=
  if match event_authority event with
     | Some a => negb (bool_decide (au_identity a = ex_identity (tx_expected r)))
                 || negb (bool_decide (au_domain a = ex_domain (tx_expected r)))
     | None => false
     end
  then refusal AppIncarnationMismatch r
  else if bool_decide (tx_state r = Settled)
  then if is_late_force event then Some (r, []) else refusal TransactionAlreadySettled r
  else
    match event with
    | AuthorityObserved _ observed => Some (on_authority observed now r)
    | BeginCompleted token outcome => on_begin_completed token outcome now r
    | OperationRequested => on_operation_requested r
    | OperationCompleted token errored => on_operation_completed token errored now r
    | OpenFrame => on_open_frame r
    | OpenFrameCompleted token frame ok => on_open_frame_completed token frame ok r
    | CloseFrame frame close => on_close_frame frame close r
    | CloseFrameCompleted token frame close ok => on_close_frame_completed token frame close ok r
    | SettleRequested intent => on_settle_requested intent now r
    | TerminalCompleted token result => on_terminal_completed token result r
    | Cancel _ => Some (forced CauseCancelled now r)
    | DetachRequested _ => Some (forced Detached now r)
    | DeadlineFired kind generation => Some (on_deadline_fired kind generation now r)
    | CancellationAcknowledged token ack => on_cancellation_acknowledged token ack r
    end.
