(* ===== verification/TxDriver.v ===== *)
(** The driver of a transaction ([zeroship-data-orm/src/transaction/driver.rs]): it
    performs the reducer's actions and feeds the answers back, while the lane buffers the
    change events of the transaction. Statements in flight are a list, answered in any
    order; the database server is a parameter. *)

From S2P Require Export TxReducer.

(** * The server

    What an open transaction holds on the server: the changes it would commit, and its
    savepoints, the most recent first, each with the changes there were when it was
    established. The laws are PostgreSQL's documented behaviour of [SAVEPOINT],
    [ROLLBACK TO SAVEPOINT] and [RELEASE SAVEPOINT]: a name means the most recent savepoint
    of that name; rolling back to it keeps it and destroys the later ones; releasing it
    destroys it and the later ones and keeps the changes. *)
Class Server := {
  Srv : Type;
  sv_changes : Srv → list Effect;
  sv_savepoints : Srv → list (bytes * list Effect);
  sv_begin : Srv;
  sv_write : Effect → Srv → Srv;
  sv_savepoint : bytes → Srv → Srv;
  sv_rollback_to : bytes → Srv → option Srv;
  sv_release : bytes → Srv → option Srv
}.

Class ServerLaws `{Server} : Prop := {
  begin_fresh : sv_changes sv_begin = [] ∧ sv_savepoints sv_begin = [];
  write_appends : ∀ e s, sv_changes (sv_write e s) = sv_changes s ++ [e] ∧
    sv_savepoints (sv_write e s) = sv_savepoints s;
  savepoint_pushes : ∀ n s, sv_changes (sv_savepoint n s) = sv_changes s ∧
    sv_savepoints (sv_savepoint n s) = (n, sv_changes s) :: sv_savepoints s;
  rollback_to_latest : ∀ n s later changes earlier,
    sv_savepoints s = later ++ (n, changes) :: earlier → n ∉ later.*1 →
    ∃ s', sv_rollback_to n s = Some s' ∧ sv_changes s' = changes ∧
      sv_savepoints s' = (n, changes) :: earlier;
  release_latest : ∀ n s later changes earlier,
    sv_savepoints s = later ++ (n, changes) :: earlier → n ∉ later.*1 →
    ∃ s', sv_release n s = Some s' ∧ sv_changes s' = sv_changes s ∧ sv_savepoints s' = earlier
}.

(** * The interpreter *)

(** A statement in flight. The frame commands carry the frame that was innermost when the
    driver picked them up ([current_frame]). *)
Inductive Pending :=
  | PBegin (token : Z)
  | POperation (token : Z)
  | PSavepoint (token frame : Z) (name : bytes)
  | PRollbackTo (token frame : Z) (name : bytes)
  | PRelease (token frame : Z) (name : bytes)
  | PTerminal (token : Z) (intent : SettleIntent)
  | PCancellation (token : Z) (goal : CleanupGoal).

Definition pending_token (p : Pending) : Z :=
  match p with
  | PBegin t | POperation t | PSavepoint t _ _ | PRollbackTo t _ _ | PRelease t _ _ | PTerminal t _
  | PCancellation t _ => t
  end.

(** A statement of the creator, other than the [BEGIN]. *)
Definition creator_command (p : Pending) : bool :=
  match p with
  | POperation _ | PSavepoint _ _ _ | PRollbackTo _ _ _ | PRelease _ _ _ => true
  | _ => false
  end.

(** A transaction with its statements in flight, the lane's buffer, the server's side of
    it, the events that went to subscribers, those queued after the settlement had begun
    and, once the server has committed, the changes it committed. *)
Record Drive `{Server} := mk_drive {
  dr_tx : TxReducer;
  dr_pending : list Pending;
  dr_emits : Emits;
  dr_server : Srv;
  dr_published : list Effect;
  dr_late : list Effect;
  dr_committed : option (list Effect)
}.

Section driver.
Context `{Server}.

Definition with_tx (tx : TxReducer) (d : Drive) : Drive :=
  mk_drive _ tx (dr_pending d) (dr_emits d) (dr_server d) (dr_published d) (dr_late d) (dr_committed d).
Definition with_pending (pending : list Pending) (d : Drive) : Drive :=
  mk_drive _ (dr_tx d) pending (dr_emits d) (dr_server d) (dr_published d) (dr_late d) (dr_committed d).
Definition with_emits (emits : Emits) (d : Drive) : Drive :=
  mk_drive _ (dr_tx d) (dr_pending d) emits (dr_server d) (dr_published d) (dr_late d) (dr_committed d).
Definition with_server (server : Srv) (d : Drive) : Drive :=
  mk_drive _ (dr_tx d) (dr_pending d) (dr_emits d) server (dr_published d) (dr_late d) (dr_committed d).
Definition with_published (published : list Effect) (d : Drive) : Drive :=
  mk_drive _ (dr_tx d) (dr_pending d) (dr_emits d) (dr_server d) published (dr_late d) (dr_committed d).
Definition with_late (late : list Effect) (d : Drive) : Drive :=
  mk_drive _ (dr_tx d) (dr_pending d) (dr_emits d) (dr_server d) (dr_published d) late (dr_committed d).
Definition with_committed (committed : option (list Effect)) (d : Drive) : Drive :=
  mk_drive _ (dr_tx d) (dr_pending d) (dr_emits d) (dr_server d) (dr_published d) (dr_late d) committed.

Definition in_flight (p : Pending) (d : Drive) : Drive := with_pending (dr_pending d ++ [p]) d.
Definition current_frame (d : Drive) : option Z := fr_id <$> top (tx_frames (dr_tx d)).

(** One action of [run_attempt]. The session's disposition and the admission are the
    lane's. A frame command is only ever issued with a frame open; without one the driver
    would feed no completion. *)
Definition interpret (d : Drive) (a : Action) : Drive :=
  let frame_command p := match current_frame d with Some frame => in_flight (p frame) d | None => d end in
  match a with
  | IssueBegin token => in_flight (PBegin token) d
  | IssueDataSql token => in_flight (POperation token) d
  | IssueSavepoint token name => frame_command (λ frame, PSavepoint token frame name)
  | IssueRollbackTo token name => frame_command (λ frame, PRollbackTo token frame name)
  | IssueRelease token name => frame_command (λ frame, PRelease token frame name)
  | IssueTerminal token intent => in_flight (PTerminal token intent) d
  | IssueCancellation token goal => in_flight (PCancellation token goal) d
  | PublishEffects _ =>
      with_emits (mk_emits [] (em_marks (dr_emits d))) (with_published (dr_published d ++ em_pending (dr_emits d)) d)
  | DiscardEffects => with_emits (mk_emits [] (em_marks (dr_emits d))) d
  | Schedule _ | WithdrawSession | ReleaseSession | ReleaseAdmission | Reply _ => d
  end.

(** [step]: an event, and every action it produces. *)
Definition dispatch (event : TxEvent) (now : Z) (d : Drive) : option Drive :=
  res ← tx_apply event now (dr_tx d);
  Some (foldl interpret (with_tx res.1 d) res.2).

Definition admit_drive (expected : ExpectedAuthority) (budgets : TxBudgets) (now max_depth : Z) : option Drive :=
  res ← admit_tx expected budgets now max_depth;
  Some (foldl interpret (mk_drive _ res.1 [] (mk_emits [] []) sv_begin [] [] None) res.2).

(** Completions are the driver's own; every other event can come at any time. *)
Definition is_request (e : TxEvent) : bool :=
  match e with
  | BeginCompleted _ _ | OperationCompleted _ _ | OpenFrameCompleted _ _ _ | CloseFrameCompleted _ _ _ _
  | TerminalCompleted _ _ | CancellationAcknowledged _ _ => false
  | _ => true
  end.

Definition writes (effects : list Effect) (s : Srv) : Srv := foldl (λ s e, sv_write e s) s effects.
Definition queues (effects : list Effect) (e : Emits) : Emits := foldl (λ e ev, push_pending_emit ev e) e effects.

(** The answer to a statement: the changes it made, the completion it is reported with,
    and what happened on the server and what the driver does to the lane before it feeds
    the completion. A statement that failed left the server as it was. A server that
    reports a commit was asked for one. *)
Inductive answered (d : Drive) : Pending → list Effect → TxEvent → Drive → Prop :=
  | answered_begin token outcome :
      answered d (PBegin token) [] (BeginCompleted token outcome)
        (match outcome with
         | Opened _ => with_emits (mk_emits [] (em_marks (dr_emits d))) (with_server sv_begin d)
         | _ => d
         end)
  | answered_operation token effects :
      answered d (POperation token) effects (OperationCompleted token false)
        (with_server (writes effects (dr_server d)) d)
  | answered_savepoint token frame name :
      answered d (PSavepoint token frame name) [] (OpenFrameCompleted token frame true)
        (with_emits (push_frame_emit_mark (dr_emits d)) (with_server (sv_savepoint name (dr_server d)) d))
  | answered_rollback_to token frame name server : sv_rollback_to name (dr_server d) = Some server →
      answered d (PRollbackTo token frame name) [] (CloseFrameCompleted token frame RolledBackTo true)
        (with_emits (discard_frame_effects (dr_emits d)) (with_server server d))
  | answered_release token frame name server : sv_release name (dr_server d) = Some server →
      answered d (PRelease token frame name) [] (CloseFrameCompleted token frame Released true)
        (with_emits (pop_frame_emit_mark (dr_emits d)) (with_server server d))
  | failed_operation token : answered d (POperation token) [] (OperationCompleted token true) d
  | failed_savepoint token frame name :
      answered d (PSavepoint token frame name) [] (OpenFrameCompleted token frame false) d
  | failed_rollback_to token frame name :
      answered d (PRollbackTo token frame name) [] (CloseFrameCompleted token frame RolledBackTo false) d
  | failed_release token frame name :
      answered d (PRelease token frame name) [] (CloseFrameCompleted token frame Released false) d
  | answered_terminal token intent result : (result = TerminalCommitted → intent = Commit) →
      answered d (PTerminal token intent) [] (TerminalCompleted token result)
        (if bool_decide (result = TerminalCommitted)
         then with_committed (Some (sv_changes (dr_server d))) d else d)
  | answered_cancellation token goal ack :
      answered d (PCancellation token goal) [] (CancellationAcknowledged token ack) d.

(** The events of an operation are queued once its completion has been processed to the
    end. When that started the settlement that waited for it, the end is past the
    publication, and the events come late. *)
Definition queue_events (effects : list Effect) (d : Drive) : Drive :=
  match tx_state (dr_tx d) with
  | Idle => with_emits (queues effects (dr_emits d)) d
  | Settling => with_late (dr_late d ++ effects) d
  | _ => d
  end.

(** One step: a request or a timer, as far as the callers' discipline allows it; the
    answer to a statement in flight; or an answer that comes after the end, which reaches
    neither the reducer nor the lane. *)
Inductive drive_step (allowed : Drive → TxEvent → Prop) (d : Drive) : Drive → Prop :=
  | drive_request event now d' : is_request event = true → allowed d event →
      dispatch event now d = Some d' → drive_step allowed d d'
  | drive_answer before p after effects event now d1 d' : tx_state (dr_tx d) ≠ Settled →
      dr_pending d = before ++ p :: after →
      answered (with_pending (before ++ after) d) p effects event d1 → dispatch event now d1 = Some d' →
      drive_step allowed d (queue_events effects d')
  | drive_late before p after effects event d1 : tx_state (dr_tx d) = Settled →
      dr_pending d = before ++ p :: after →
      answered (with_pending (before ++ after) d) p effects event d1 →
      drive_step allowed d (with_emits (dr_emits d) d1).

Inductive driven (allowed : Drive → TxEvent → Prop) : Drive → Prop :=
  | driven_admit expected budgets now max_depth d :
      admit_drive expected budgets now max_depth = Some d → driven allowed d
  | driven_step d d' : driven allowed d → drive_step allowed d d' → driven allowed d'.

(** The disciplines: none; and the one of the transaction scopes
    ([OutstandingWork::drained]), which request a settlement only when nothing the
    callback started is in flight. *)
Definition anything (d : Drive) (event : TxEvent) : Prop := True.
Definition drained (d : Drive) (event : TxEvent) : Prop :=
  match event with
  | SettleRequested _ => ∀ p, p ∈ dr_pending d → creator_command p = false
  | _ => True
  end.
End driver.
