(* ===== verification/TxReducerFacts.v ===== *)
(** What the transaction reducer promises whatever events it is fed: a forced transaction
    never resumes, a transaction settles once, and the mask ceiling only tightens. *)

From S2P Require Export TxReducer.

#[global] Arguments replace_slot : simpl never.
#[global] Arguments forced : simpl never.
#[global] Arguments begin_terminal : simpl never.
#[global] Arguments settle_now : simpl never.
#[global] Arguments on_verdict : simpl never.
#[global] Strategy 1000 [replace_slot forced begin_terminal settle_now on_verdict].

(** Any events in any order, and effects queued in between. *)
Inductive tx_steps (r : TxReducer) : list TxEvent → list Action → TxReducer → Prop :=
  | steps_refl : tx_steps r [] [] r
  | steps_event events acts r1 event now r2 acts2 : tx_steps r events acts r1 →
      tx_apply event now r1 = Some (r2, acts2) → tx_steps r (events ++ [event]) (acts ++ acts2) r2
  | steps_effect events acts r1 effect frames : tx_steps r events acts r1 →
      queue_effect effect (tx_frames r1) = Ok frames → tx_steps r events acts (set_frames frames r1).

(** * What one event can do *)

(** Actions that belong to the end of a transaction. *)
Definition is_settlement (a : Action) : bool :=
  match a with
  | WithdrawSession | ReleaseSession | ReleaseAdmission | PublishEffects _ | DiscardEffects
  | Reply (Ok (ReplySettled _)) => true
  | _ => false
  end.

(** The ways a transaction ends. *)
Inductive settles (r : TxReducer) : TxEvent → TerminalOutcome → bool → Prop :=
  | settles_terminal token result intent : tx_state r = Settling → tx_active r = Some token →
      tx_settle_intent r = Some intent →
      settles r (TerminalCompleted token result) (terminal_outcome intent result)
        (bool_decide (result = TerminalIndeterminate))
  | settles_deadline kind generation at_ : tx_state r = Cancelling ∧ kind = CancellationSql ∨
        tx_state r = Settling ∧ kind = TerminalSql →
      tx_slot r = Armed kind generation at_ →
      settles r (DeadlineFired kind generation)
        (Indeterminate (match tx_cleanup r with Some l => la_cause l | None => DeadlineExpired kind end)) true
  | settles_cleanup token ack latched : tx_state r = Cancelling → tx_cancellation_token r = Some token →
      tx_cleanup r = Some latched →
      settles r (CancellationAcknowledged token ack)
        (if is_proved_by (la_goal latched) ack then Cancelled (la_cause latched)
         else Indeterminate (la_cause latched))
        (negb (is_proved_by (la_goal latched) ack)).

Definition is_schedule (a : Action) : bool := match a with Schedule _ => true | _ => false end.

(** The slot a change of deadline leaves. *)
Definition next_slot (kind : DeadlineKind) (at_ : Z) (r : TxReducer) : DeadlineState :=
  match tx_slot r with
  | Armed Execution _ _ | Fired Execution _ => Armed kind (tx_generations r + 1) at_
  | slot => slot
  end.

Lemma replace_slot_spec kind at_ r r' acts : replace_slot kind at_ r = (r', acts) →
  r' = set_slot (next_slot kind at_ r) (mint r).2 ∧ Forall is_schedule acts.
Proof.
  unfold replace_slot, next_slot. cbn. destruct (tx_slot r) as [|[] g t|[] g] eqn:E; cbn;
    intros [= <- <-]; (split; [|by repeat constructor]); unfold set_slot; cbn; by rewrite ?E.
Qed.

(** The reducer a won force leaves. *)
Definition cancelling (cause : CleanupCause) (now : Z) (r : TxReducer) : TxReducer :=
  set_slot (next_slot CancellationSql (now + bu_cancellation_sql (tx_budgets r)) r)
    (mint (set_cancellation_token (Some (tx_next_token r + 1)%Z)
      (mint_token (set_state Cancelling
        (set_cleanup (Some (mk_latched cause (for_state (tx_state r)))) r))).2)).2.

Lemma forced_spec cause now r r' acts : forced cause now r = (r', acts) →
  (r' = r ∧ acts = [] ∧ (tx_terminal_promised r = true ∨ tx_state r = Settling ∨ tx_cleanup r ≠ None)) ∨
  (tx_cleanup r = None ∧ tx_terminal_promised r = false ∧ tx_state r ≠ Settling ∧ r' = cancelling cause now r ∧
   ∃ timers, acts = timers ++ [IssueCancellation (tx_next_token r + 1) (for_state (tx_state r))] ∧
     Forall is_schedule timers).
Proof.
  unfold forced, force. destruct (_ || _) eqn:Ep.
  { apply orb_true_iff in Ep. rewrite bool_decide_eq_true in Ep. intros [= <- <-]. left. naive_solver. }
  destruct (tx_cleanup r) eqn:Hc; [intros [= <- <-]; left; auto|].
  apply orb_false_iff in Ep as [Et Ep%bool_decide_eq_false].
  destruct (mint_token _) as [t r0] eqn:Em. injection Em as <- <-.
  destruct (replace_slot _ _ _) as [r1 a1] eqn:E. apply replace_slot_spec in E as [-> Ha].
  intros [= <- <-]. right. eauto 10.
Qed.

(** The reducer the start of a settlement leaves. *)
Definition settling (intent : SettleIntent) (now : Z) (r : TxReducer) : TxReducer :=
  set_slot (next_slot TerminalSql (now + bu_terminal_sql (tx_budgets r)) r)
    (mint (lease Settling (set_settle_intent (Some intent) r)).2).2.

Lemma begin_terminal_spec intent now r r' acts : begin_terminal intent now r = (r', acts) →
  r' = settling intent now r ∧
  ∃ timers, acts = timers ++ [IssueTerminal (tx_next_token r + 1)
                               (if bool_decide (tx_state r = Poisoned) then Rollback else intent)] ∧
    Forall is_schedule timers.
Proof.
  unfold begin_terminal.
  destruct (lease _ _) as [t r0] eqn:El. destruct (replace_slot _ _ _) as [r1 a1] eqn:E.
  apply replace_slot_spec in E as [-> Ha]. injection El as <- <-. intros [= <- <-].
  split; [done|]. eauto.
Qed.

Lemma schedules_quiet timers : Forall is_schedule timers → Forall (λ a, is_settlement a = false) timers.
Proof. intros Ht. eapply Forall_impl; [exact Ht|]. by intros []. Qed.

(** The names of the savepoints asked for. *)
Definition savepoints (acts : list Action) : list bytes :=
  omap (λ a, match a with IssueSavepoint _ name => Some name | _ => None end) acts.

Lemma schedules_savepoints timers acts : Forall is_schedule timers → savepoints (timers ++ acts) = savepoints acts.
Proof. induction 1 as [|[] timers Ht _ IH]; done. Qed.

Lemma refusals_savepoints acts : Forall (λ a, ∃ e, a = Reply (Err e)) acts → savepoints acts = [].
Proof. induction 1 as [|a acts [e ->] _ IH]; done. Qed.

(** What may become of the frames, with the savepoints asked for. *)
Inductive frame_step (s : FrameStack) : FrameStack → list bytes → Prop :=
  | fstep_same : frame_step s s []
  | fstep_root : frame_step s (open_root s).2 []
  | fstep_child id name s' : open_child s = Ok (id, name, s') → frame_step s s' [name]
  | fstep_confirm id s' : confirm_child_open id s = Ok s' → frame_step s s' []
  | fstep_abandon id s' : abandon_opening_child id s = Ok s' → frame_step s s' []
  | fstep_mark id s' : mark_rolled_back id s = Ok s' → frame_step s s' []
  | fstep_close id close x s' : close_top id close s = Some (Ok (x, s')) → frame_step s s' []
  | fstep_queue effect s' : queue_effect effect s = Ok s' → frame_step s s' []
  | fstep_clear : frame_step s (clear_frames s) [].
Create HintDb frames.
#[export] Hint Constructors frame_step : frames.

(** The ceilings a current observation leaves. *)
Definition retightened (r r' : TxReducer) : Prop := tx_expected r' = tx_expected r ∧ ∃ c,
  tx_effective_ceiling r' = Some match tx_begin_ceiling r, tx_effective_ceiling r with
                                 | Some b, Some e => meet_ceiling (meet_ceiling b e) c
                                 | _, _ => c
                                 end ∧
  (tx_begin_ceiling r' = tx_begin_ceiling r ∧ tx_state r' = tx_state r ∧ tx_state r ≠ Preparing ∨
   tx_begin_ceiling r' = Some c ∧ tx_state r = Preparing ∧ tx_state r' = Starting).
Definition same_policy (r r' : TxReducer) : Prop :=
  tx_expected r' = tx_expected r ∧ tx_begin_ceiling r' = tx_begin_ceiling r ∧
  tx_effective_ceiling r' = tx_effective_ceiling r ∧ (tx_state r' = Preparing → tx_state r = Preparing).

(** An event that does not end the transaction. *)
Record quiet (event : option SettleIntent) (r r' : TxReducer) (acts : list Action) : Prop := {
  q_open : tx_state r' ≠ Settled;
  q_actions : Forall (λ a, is_settlement a = false) acts;
  q_cleanup : tx_cleanup r' = tx_cleanup r ∨ tx_cleanup r = None;
  q_intent : tx_settle_intent r' = tx_settle_intent r ∨ event ≠ None ∧ tx_settle_intent r' = event;
  q_policy : same_policy r r' ∨ retightened r r';
  q_outcome : tx_outcome r' = tx_outcome r;
  q_frames : frame_step (tx_frames r) (tx_frames r') (savepoints acts);
  q_quiescing : tx_state r' = Quiescing → tx_state r = Quiescing ∨ tx_state r = InFlight ∧ event ≠ None
}.
Definition settle_intent_of (event : TxEvent) : option SettleIntent :=
  match event with SettleRequested intent => Some intent | _ => None end.

Lemma quiet_active event t r r' acts : quiet event (set_active t r) r' acts → quiet event r r' acts.
Proof. by intros []; split. Qed.
Lemma quiet_slot event slot r r' acts : quiet event (set_slot slot r) r' acts → quiet event r r' acts.
Proof. by intros []; split. Qed.

Lemma forced_quiet event cause now r r' acts replies : forced cause now r = (r', acts) → tx_state r ≠ Settled →
  Forall (λ a, ∃ e, a = Reply (Err e)) replies → quiet event r r' (acts ++ replies).
Proof.
  intros [(-> & -> & _)|(Hc & _ & _ & -> & timers & -> & Ht)]%forced_spec Hns Hr.
  - split; [done| |by left|by left|by left|done| |by left]; cbn [app].
    + eapply Forall_impl; [exact Hr|]. by intros a [e ->].
    + rewrite refusals_savepoints by done. constructor.
  - split; [done| |by right|by left|by left|done| |done].
    + repeat (apply Forall_app; split); [by apply schedules_quiet|by repeat constructor|].
      eapply Forall_impl; [exact Hr|]. by intros a [e ->].
    + rewrite <- app_assoc, schedules_savepoints by done. cbn. rewrite refusals_savepoints by done. constructor.
Qed.

Lemma forced_quiet' event cause now r r' acts : forced cause now r = (r', acts) → tx_state r ≠ Settled →
  quiet event r r' acts.
Proof. intros E Hns. rewrite <- (app_nil_r acts). by eapply forced_quiet. Qed.

Lemma on_verdict_spec event verdict now r r' acts : on_verdict verdict now r = (r', acts) →
  tx_state r ≠ Settled → quiet event r r' acts.
Proof.
  intros E Hns. unfold on_verdict in E. destruct verdict as [ceiling| |reason].
  - destruct (decide (tx_state r = Preparing)) as [Es|Es].
    + cbn in E. rewrite Es in E. injection E as <- <-.
      split; cbn; [done|by repeat constructor|by left|by left|right|done|constructor|done]. split; [done|].
      exists ceiling. cbn. split; [done|by right].
    + cbn in E. destruct (tx_state r) eqn:Es'; [done|..]; injection E as <- <-;
        (split; cbn; [by rewrite Es'|by repeat constructor|by left|by left|right|done|constructor|rewrite Es'; by left]; split; [done|]; exists ceiling; cbn; split; [done|left]);
        by rewrite Es'.
  - destruct (forced _ _ _) as [r1 a1] eqn:Ef. injection E as <- <-. eapply forced_quiet; [done..|by repeat econstructor].
  - destruct (forced _ _ _) as [r1 a1] eqn:Ef. injection E as <- <-. eapply forced_quiet; [done..|by repeat econstructor].
Qed.

Lemma begin_terminal_quiet event intent now r r' acts : begin_terminal intent now r = (r', acts) →
  tx_settle_intent r = Some intent ∨ event = Some intent → quiet event r r' acts.
Proof.
  intros [-> (timers & -> & Ht)]%begin_terminal_spec Hi.
  split; [done| |by left| |by left|done| |done].
  - apply Forall_app. split; [by apply schedules_quiet|by repeat constructor].
  - destruct Hi as [->| ->]; [by left|by right].
  - rewrite schedules_savepoints by done. constructor.
Qed.

Lemma settle_now_spec outcome withdraw r r' acts : settle_now outcome withdraw r = (r', acts) →
  tx_state r' = Settled ∧ tx_outcome r' = Some outcome ∧ tx_cleanup r' = tx_cleanup r ∧
  (same_policy r r' ∧ tx_slot r' = Disarmed ∧ tx_frames r' = clear_frames (tx_frames r)) ∧
  acts = [if publishes outcome then PublishEffects (retained_effects (tx_frames r)) else DiscardEffects;
          if withdraw then WithdrawSession else ReleaseSession; ReleaseAdmission;
          Reply (Ok (ReplySettled outcome))].
Proof. unfold settle_now. destruct (publishes outcome), withdraw; cbn; by intros [= <- <-]. Qed.

(** A refusal changes nothing. *)
Ltac refused := left; split; [done|split; [by repeat constructor|done]].

(** A change that does not end the transaction, seen by computation. *)
Ltac quietly_here :=
  split; cbn; [done|by repeat constructor|by left|first [by left|by right]|
               left; unfold same_policy; cbn; repeat (split; [done|]); intros; congruence|done|eauto with frames|
               first [done|by intros; left|by intros; right]].
Ltac quietly := right; left; split; [done|quietly_here].

Lemma returned_quiet event r r' acts : command_returned_during_cleanup r = Some (r', acts) →
  tx_state r ≠ Settled → quiet event r r' acts.
Proof.
  unfold command_returned_during_cleanup. intros (l & Hl & E)%bind_Some Hs. injection E as <- <-.
  split; cbn; [done|by repeat constructor|by left|by left|by left|done|constructor|by left].
Qed.

(** What an event may do: nothing, a step that leaves the transaction open, or one of the
    three ends. *)
Definition one_of (event : TxEvent) (r r' : TxReducer) (acts : list Action) : Prop :=
  (r' = r ∧ Forall (λ a, is_settlement a = false) acts ∧ savepoints acts = []) ∨
  (tx_state r ≠ Settled ∧ quiet (settle_intent_of event) r r' acts) ∨
  (tx_state r ≠ Settled ∧ ∃ outcome withdraw r0, settles r event outcome withdraw ∧
    settle_now outcome withdraw r0 = (r', acts) ∧ tx_frames r0 = tx_frames r ∧ tx_cleanup r0 = tx_cleanup r ∧
    same_policy r r0).

Section handlers.
Context (r r' : TxReducer) (acts : list Action) (Hs : tx_state r ≠ Settled).

Lemma begin_completed_one token outcome now : on_begin_completed token outcome now r = Some (r', acts) →
  one_of (BeginCompleted token outcome) r r' acts.
Proof using Hs.
  intros E. unfold one_of. unfold on_begin_completed in E. destruct (negb _); [injection E as <- <-; refused|].
  destruct (negb _); [injection E as <- <-; refused|]. right; left. split; [done|]. injection E as E.
  destruct outcome; cbn in E.
  - injection E as <- <-. quietly_here.
  - eapply quiet_active, forced_quiet'; [exact E|done].
  - eapply quiet_active, on_verdict_spec; [exact E|done].
  - eapply quiet_active, on_verdict_spec; [exact E|done].
  - eapply quiet_active, forced_quiet'; [exact E|done].
Qed.

Lemma operation_requested_one : on_operation_requested r = Some (r', acts) → one_of OperationRequested r r' acts.
Proof using Hs.
  intros E. unfold one_of. unfold on_operation_requested in E. destruct (refuse_if_cleaning_up r); [injection E as <- <-; refused|].
  destruct (tx_state r) eqn:Es; cbn in E; injection E as <- <-; first [refused|quietly].
Qed.

Lemma operation_completed_one token errored now : on_operation_completed token errored now r = Some (r', acts) →
  one_of (OperationCompleted token errored) r r' acts.
Proof using Hs.
  intros E. unfold one_of. unfold on_operation_completed in E. destruct (negb _); [injection E as <- <-; refused|].
  case_bool_decide; [right; left; by split; [|eapply returned_quiet]|].
  case_bool_decide; [|injection E as <- <-; destruct errored; quietly].
  apply bind_Some in E as (i & Hi & E).
  destruct (begin_terminal _ _ _) as [r1 a1] eqn:Eb. injection E as <- <-.
  pose proof Eb as [-> _]%begin_terminal_spec. apply (begin_terminal_quiet None) in Eb as []; [|by left].
  right; left. split; [done|]. split; [done|constructor; [by destruct errored|done]|done..|by left|done|done|done].
Qed.

Lemma open_frame_one : on_open_frame r = Some (r', acts) → one_of OpenFrame r r' acts.
Proof using Hs.
  intros E. unfold one_of. unfold on_open_frame in E. destruct (refuse_if_cleaning_up r); [injection E as <- <-; refused|].
  destruct (negb _); [injection E as <- <-; refused|].
  destruct (open_child _) as [[[id name] f]|e] eqn:Ef; injection E as <- <-; [quietly|refused].
Qed.

Lemma open_frame_completed_one token frame ok : on_open_frame_completed token frame ok r = Some (r', acts) →
  one_of (OpenFrameCompleted token frame ok) r r' acts.
Proof using Hs.
  intros E. unfold one_of. unfold on_open_frame_completed in E. destruct (negb _); [injection E as <- <-; refused|].
  case_bool_decide; [right; left; by split; [|eapply returned_quiet]|].
  unfold frames_or_same in E. destruct ok; cbn in E; injection E as <- <-;
    (destruct (confirm_child_open _ _) eqn:Ef + destruct (abandon_opening_child _ _) eqn:Ef); quietly.
Qed.

Lemma close_frame_one frame close : on_close_frame frame close r = Some (r', acts) →
  one_of (CloseFrame frame close) r r' acts.
Proof using Hs.
  intros E. unfold one_of. unfold on_close_frame in E. destruct (refuse_if_cleaning_up r); [injection E as <- <-; refused|].
  destruct (_ && _); [injection E as <- <-; refused|].
  destruct (top _) as [f|]; [|injection E as <- <-; refused].
  destruct (negb _); [injection E as <- <-; refused|].
  destruct (is_root f); [injection E as <- <-; refused|].
  destruct (fr_savepoint f); [|done]. cbn in E. injection E as <- <-. destruct close; quietly.
Qed.

Lemma close_frame_completed_one token frame close ok :
  on_close_frame_completed token frame close ok r = Some (r', acts) →
  one_of (CloseFrameCompleted token frame close ok) r r' acts.
Proof using Hs.
  intros E. unfold one_of. unfold on_close_frame_completed in E. destruct (negb _); [injection E as <- <-; refused|].
  case_bool_decide; [right; left; by split; [|eapply returned_quiet]|].
  destruct (negb _); [injection E as <- <-; quietly|]. cbn in E. destruct close.
  - destruct (close_top _ _ _) as [[[id f]|e]|] eqn:Ef; [| |done]; cbn in E; [injection E as <- <-; quietly|].
    destruct (top _) as [f|]; cbn in E.
    + destruct (close_top _ RolledBackTo _) as [[[id' f']|e']|] eqn:Ef'; [| |done]; cbn in E; injection E as <- <-; quietly.
    + injection E as <- <-. quietly.
  - destruct (top _) as [f|]; [|done]. cbn in E. destruct (fr_savepoint f); [|done]. cbn in E.
    injection E as <- <-. unfold frames_or_same. destruct (mark_rolled_back _ _) eqn:Ef; quietly.
Qed.

Lemma settle_requested_one intent now : on_settle_requested intent now r = Some (r', acts) →
  one_of (SettleRequested intent) r r' acts.
Proof using Hs.
  intros E. unfold one_of. unfold on_settle_requested in E. destruct (refuse_if_cleaning_up r); [injection E as <- <-; refused|].
  assert (Some (begin_terminal intent now r) = Some (r', acts) → quiet (Some intent) r r' acts) as Hb.
  { intros [= Eb]. eapply begin_terminal_quiet; [done|by right]. }
  destruct (tx_state r) eqn:Es; try (injection E as <- <-; first [refused|quietly]);
    try (right; left; split; [done|by apply Hb]);
    (case_bool_decide; injection E as <- <-; refused).
Qed.

Lemma terminal_completed_one token result : on_terminal_completed token result r = Some (r', acts) →
  one_of (TerminalCompleted token result) r r' acts.
Proof using Hs.
  intros E. unfold one_of. unfold on_terminal_completed in E. destruct (negb _) eqn:Et; [injection E as <- <-; refused|].
  case_bool_decide as Hst; cbn [negb] in E; [|injection E as <- <-; refused].
  cbn [tx_settle_intent set_terminal_promised set_active] in E.
  destruct (tx_settle_intent r) as [intent|] eqn:Ei; [|done]. cbn [mbind option_bind] in E. injection E as E.
  right; right. split; [done|]. unfold check_token in Et. apply negb_false_iff, bool_decide_eq_true in Et.
  eexists _, _, (set_slot Disarmed (set_terminal_promised true (set_active None r))).
  split; [by apply (settles_terminal r token result intent)|].
  split; [|done]. rewrite <- E. by destruct intent, result.
Qed.

Lemma deadline_fired_one kind generation now : on_deadline_fired kind generation now r = (r', acts) →
  one_of (DeadlineFired kind generation) r r' acts.
Proof using Hs.
  intros E. unfold one_of. unfold on_deadline_fired in E. destruct (negb _) eqn:Ep; [injection E as <- <-; refused|].
  apply negb_false_iff in Ep. unfold claim_fire in E.
  destruct (tx_slot r) as [|k g at_|] eqn:Esl; [injection E as <- <-; refused| |injection E as <- <-; refused].
  destruct (_ && _) eqn:Eg; [|injection E as <- <-; refused].
  apply andb_true_iff in Eg as [->%bool_decide_eq_true ->%Z.eqb_eq]. destruct kind.
  - right; left. split; [done|]. eapply quiet_slot, forced_quiet'; [exact E|done].
  - right; right. split; [done|]. cbn [tx_cleanup set_slot] in E.
    apply bool_decide_eq_true in Ep. eexists _, true, _.
    split; [eapply settles_deadline; [by left|done]|]. split; [exact E|done].
  - right; right. split; [done|]. cbn [tx_cleanup set_slot] in E.
    apply bool_decide_eq_true in Ep. eexists _, true, _.
    split; [eapply settles_deadline; [by right|done]|]. split; [exact E|done].
Qed.

Lemma acknowledged_one token ack : on_cancellation_acknowledged token ack r = Some (r', acts) →
  one_of (CancellationAcknowledged token ack) r r' acts.
Proof using Hs.
  intros E. unfold one_of. unfold on_cancellation_acknowledged in E. case_bool_decide as Et; cbn [negb] in E; [|injection E as <- <-; refused].
  case_bool_decide as Hst; cbn [negb] in E; [|injection E as <- <-; refused].
  destruct (tx_cleanup r) as [l|] eqn:El; [|done]. cbn [mbind option_bind] in E. injection E as E. right; right. split; [done|].
  eexists _, _, (set_slot Disarmed r). split; [by apply (settles_cleanup r token ack l)|].
  split; [|done]. by destruct (is_proved_by _ _).
Qed.
End handlers.

(** Every event either leaves the transaction open, or ends it in one of the three ways. *)
Lemma apply_spec event now r r' acts : tx_apply event now r = Some (r', acts) → one_of event r r' acts.
Proof.
  unfold tx_apply. destruct (match event_authority event with Some _ => _ | None => _ end).
  { intros [= <- <-]. refused. }
  case_bool_decide as Hs; [destruct (is_late_force event); intros [= <- <-]; refused|].
  destruct event; intros E.
  - right; left. split; [done|]. injection E as E. by eapply on_verdict_spec.
  - by eapply begin_completed_one.
  - by eapply operation_requested_one.
  - by eapply operation_completed_one.
  - by eapply open_frame_one.
  - by eapply open_frame_completed_one.
  - by eapply close_frame_one.
  - by eapply close_frame_completed_one.
  - by eapply settle_requested_one.
  - by eapply terminal_completed_one.
  - right; left. split; [done|]. injection E as E. by eapply forced_quiet'.
  - right; left. split; [done|]. injection E as E. by eapply forced_quiet'.
  - injection E as E. by eapply deadline_fired_one.
  - by eapply acknowledged_one.
Qed.

(** Only a settlement requested while a statement is in flight waits. *)
Lemma apply_quiescing event now r r' acts : tx_apply event now r = Some (r', acts) → tx_state r' = Quiescing →
  tx_state r = Quiescing ∨ tx_state r = InFlight ∧ ∃ intent, event = SettleRequested intent.
Proof.
  intros [(-> & _)|[[_ Hq]|(_ & o & w & r0 & _ & E & _)]]%apply_spec Hs; [by left|..].
  - destruct (q_quiescing _ _ _ _ Hq Hs) as [|[Hf He]]; [by left|right]. split; [done|]. destruct event; try done. eauto.
  - apply settle_now_spec in E as [Hs' _]. congruence.
Qed.

Lemma settled_stays event now r r' acts : tx_state r = Settled → tx_apply event now r = Some (r', acts) →
  r' = r ∧ Forall (λ a, ∃ e, a = Reply (Err e)) acts.
Proof.
  intros Hs. unfold tx_apply. destruct (match event_authority event with Some _ => _ | None => _ end).
  { intros [= <- <-]. eauto. }
  rewrite bool_decide_eq_true_2 by done. destruct (is_late_force event); intros [= <- <-]; eauto.
Qed.

(** * A forced transaction never resumes *)

(** An action that neither reaches the creator's data nor publishes anything. *)
Definition harmless (a : Action) : bool :=
  match a with
  | Reply _ | WithdrawSession | ReleaseSession | ReleaseAdmission | DiscardEffects => true
  | _ => false
  end.

(** The ends of a transaction under cleanup. *)
Definition cleaned_up (l : LatchedCleanup) (event : TxEvent) (r' : TxReducer) : Prop :=
  tx_outcome r' = Some (Indeterminate (la_cause l)) ∨
  tx_outcome r' = Some (Cancelled (la_cause l)) ∧
    ∃ token ack, event = CancellationAcknowledged token ack ∧ is_proved_by (la_goal l) ack = true.

(** What an event does to a transaction under cleanup. *)
Definition stays_forced (l : LatchedCleanup) (event : TxEvent) (r' : TxReducer) (acts : list Action) : Prop :=
  tx_cleanup r' = Some l ∧ Forall harmless acts ∧
  (tx_state r' = Cancelling ∨ tx_state r' = Settled ∧ cleaned_up l event r').

Section cancelling.
Context (l : LatchedCleanup) (r : TxReducer) (Hs : tx_state r = Cancelling) (Hl : tx_cleanup r = Some l).

Lemma stays_refused event acts : Forall harmless acts → stays_forced l event r acts.
Proof using Hs Hl. split; [done|]. by split; [|left]. Qed.

Lemma cancelling_forced cause now : forced cause now r = (r, []).
Proof using Hl. unfold forced, force. rewrite Hl. by destruct (_ || _). Qed.

Lemma cancelling_verdict event verdict now r' acts : on_verdict verdict now r = (r', acts) →
  stays_forced l event r' acts.
Proof using Hs Hl.
  unfold on_verdict. destruct verdict; cbn.
  - rewrite Hs. intros [= <- <-]. split; [done|]. by split; [|left].
  - rewrite cancelling_forced. intros [= <- <-]. apply stays_refused. by repeat constructor.
  - rewrite cancelling_forced. intros [= <- <-]. apply stays_refused. by repeat constructor.
Qed.

Lemma cancelling_returned event r' acts : command_returned_during_cleanup r = Some (r', acts) →
  stays_forced l event r' acts.
Proof using Hs Hl.
  unfold command_returned_during_cleanup. intros (? & _ & [= <- <-])%bind_Some.
  split; [done|]. split; [by repeat constructor|by left].
Qed.

Lemma cancelling_settles event outcome withdraw r0 r' acts : settles r event outcome withdraw →
  settle_now outcome withdraw r0 = (r', acts) → tx_cleanup r0 = tx_cleanup r → stays_forced l event r' acts.
Proof using Hs Hl.
  intros He (Hs' & Ho & Hc & _ & Ha)%settle_now_spec Hr. split; [congruence|].
  assert (publishes outcome = false ∧ cleaned_up l event r') as [Hp Hu].
  { destruct He as [| |token ack latched]; [congruence|rewrite Hl in Ho; by split; [|left]|].
    rewrite Hl in H1. injection H1 as <-. destruct (is_proved_by _ _) eqn:E; split; [done|right|done|by left].
    split; [done|by eauto]. }
  rewrite Hp in Ha. subst acts. split; [by destruct withdraw; repeat constructor|by right].
Qed.

Ltac refused_here E := injection E as <- <-; apply stays_refused; by repeat constructor.

Lemma cancelling_deadline kind generation now r' acts : on_deadline_fired kind generation now r = (r', acts) →
  stays_forced l (DeadlineFired kind generation) r' acts.
Proof using Hs Hl.
  unfold on_deadline_fired. rewrite Hs. intros E. destruct kind; [refused_here E| |refused_here E].
  cbn [bool_decide negb] in E. rewrite bool_decide_eq_true_2 in E by done. unfold claim_fire in E. cbn [negb] in E.
  destruct (tx_slot r) as [|k g t|] eqn:Et; [refused_here E| |refused_here E].
  destruct (_ && _) eqn:Eg; [|refused_here E].
  apply andb_true_iff in Eg as [->%bool_decide_eq_true ->%Z.eqb_eq].
  eapply cancelling_settles; [eapply settles_deadline; [by left|done]|exact E|done].
Qed.

Lemma cancelling_acknowledged token ack r' acts : on_cancellation_acknowledged token ack r = Some (r', acts) →
  stays_forced l (CancellationAcknowledged token ack) r' acts.
Proof using Hs Hl.
  unfold on_cancellation_acknowledged. intros E. case_bool_decide as Et; cbn [negb] in E; [|refused_here E].
  rewrite bool_decide_eq_true_2 in E by done. cbn [negb] in E. apply bind_Some in E as (l' & Hl' & [= E]).
  eapply cancelling_settles; [by apply (settles_cleanup r token ack l')| |].
  - destruct (is_proved_by _ _); exact E.
  - done.
Qed.

Lemma cancelling_step event now r' acts : tx_apply event now r = Some (r', acts) → stays_forced l event r' acts.
Proof using Hs Hl.
  unfold tx_apply. destruct (match event_authority event with Some _ => _ | None => _ end); intros E; [refused_here E|].
  rewrite bool_decide_eq_false_2 in E by congruence.
  assert (refuse_if_cleaning_up r = Some (Cleanup (la_cause l))) as Hr by (unfold refuse_if_cleaning_up; by rewrite Hl).
  destruct event;
    unfold on_authority, on_begin_completed, on_operation_requested, on_operation_completed, on_open_frame,
      on_open_frame_completed, on_close_frame, on_close_frame_completed, on_settle_requested, on_terminal_completed in E;
    rewrite ?Hr in E; rewrite ?Hs in E; try refused_here E.
  - injection E as E. by eapply cancelling_verdict.
  - destruct (negb _); refused_here E.
  - destruct (negb _); [refused_here E|by eapply cancelling_returned].
  - destruct (negb _); [refused_here E|by eapply cancelling_returned].
  - destruct (negb _); [refused_here E|by eapply cancelling_returned].
  - destruct (negb _); refused_here E.
  - rewrite cancelling_forced in E. refused_here E.
  - rewrite cancelling_forced in E. refused_here E.
  - injection E as E. by eapply cancelling_deadline.
  - by eapply cancelling_acknowledged.
Qed.
End cancelling.

(** C17: A publisher that wins the force (a cancellation, a detach, an expired deadline, a
    denied or changed authority, a failed begin) ends the transaction for good: whatever
    events follow, its cause stays the one reported, no statement of the creator, no
    commit and no event publication follows, and the outcome is either indeterminate or,
    when the backend proved the goal of the cleanup, cancelled. *)
Theorem forced_never_resumes cause now r r0 acts0 events acts r' :
  force cause now r = (r0, ForceWon, acts0) → tx_steps r0 events acts r' →
  let goal := for_state (tx_state r) in
  Forall (λ a, is_creator_data_sql a = false) acts0 ∧ Forall harmless acts ∧
  tx_cleanup r' = Some (mk_latched cause goal) ∧
  (tx_state r' = Cancelling ∨
   tx_state r' = Settled ∧
   (tx_outcome r' = Some (Indeterminate cause) ∨
    tx_outcome r' = Some (Cancelled cause) ∧
    ∃ token ack, CancellationAcknowledged token ack ∈ events ∧ is_proved_by goal ack = true)).
Proof.
  intros E Hst goal.
  assert (forced cause now r = (r0, acts0)) as Ef by (unfold forced; by rewrite E).
  apply forced_spec in Ef as [(-> & -> & _)|(_ & _ & _ & -> & timers & -> & Ht)].
  { unfold force in E. repeat case_match; simplify_eq; try done.
    by match goal with Ea : ?l ++ _ = [] |- _ => destruct l end. }
  split. { apply Forall_app. split; [|by repeat constructor]. eapply Forall_impl; [exact Ht|]. by intros []. }
  induction Hst as [|events acts r1 event n r2 acts2 _ (Ha & Hc & IH) Es|events acts r1 effect frames _ IH Eq];
    [by split; [|split; [|left]]| |done].
  destruct IH as [IH|(IH & IHo)].
  - eapply cancelling_step in Es as (Hc' & Ha' & Hs'); [|done..]. split; [by apply Forall_app|]. split; [done|].
    destruct Hs' as [Hs'|[Hs' [Ho|(Ho & token & ack & -> & Hp)]]]; [by left|right; split; [done|by left]|].
    right. split; [done|right]. split; [done|]. exists token, ack. split; [set_solver|done].
  - apply settled_stays in Es as [-> Hr]; [|done]. split.
    { apply Forall_app. split; [done|]. eapply Forall_impl; [exact Hr|]. by intros a [e ->]. }
    split; [done|right]. split; [done|]. destruct IHo as [Ho|(Ho & token & ack & Hin & Hp)]; [by left|right].
    split; [done|]. exists token, ack. split; [set_solver|done].
Qed.

(** * A transaction settles once *)

(** What is published, done with the session and answered when a transaction ends. *)
Definition settlement (outcome : TerminalOutcome) (effects : list Effect) : list Action :=
  [if bool_decide (outcome = Committed) then PublishEffects effects else DiscardEffects;
   match outcome with Indeterminate _ => WithdrawSession | _ => ReleaseSession end;
   ReleaseAdmission; Reply (Ok (ReplySettled outcome))].

Lemma settles_actions r event outcome withdraw r0 r' acts : settles r event outcome withdraw →
  settle_now outcome withdraw r0 = (r', acts) →
  acts = settlement outcome (retained_effects (tx_frames r0)) ∧
  (outcome = Committed → tx_settle_intent r = Some Commit ∧ ∃ token, event = TerminalCompleted token TerminalCommitted).
Proof.
  intros He (_ & _ & _ & _ & ->)%settle_now_spec. destruct He as [token result intent| |].
  - destruct intent, result; (split; [done|]); intros; by eauto.
  - done.
  - by destruct (is_proved_by _ _).
Qed.

Lemma settlement_settles outcome effects : List.filter is_settlement (settlement outcome effects) = settlement outcome effects.
Proof. by destruct outcome. Qed.

Lemma no_settlement acts : Forall (λ a, is_settlement a = false) acts → List.filter is_settlement acts = [].
Proof. induction 1 as [|a acts Ha _ IH]; [done|]. cbn. by rewrite Ha. Qed.

(** C22: Whatever events arrive in whatever order after admission, the end of a transaction
    happens at most once, and all of it at once: its buffered events are published or
    discarded, its session is released or withdrawn, its admission is released, and the
    outcome is reported. Events are published exactly when the outcome is a commit, which
    takes a request to commit and the server's confirmation of it; the session is
    withdrawn exactly when the outcome is unknown. *)
Theorem settles_once expected budgets now max_depth r acts0 events acts r' :
  admit_tx expected budgets now max_depth = Some (r, acts0) → tx_steps r events acts r' →
  match tx_outcome r' with
  | None => tx_state r' ≠ Settled ∧ List.filter is_settlement acts = []
  | Some outcome => tx_state r' = Settled ∧
      (∃ effects, List.filter is_settlement acts = settlement outcome effects) ∧
      (outcome = Committed → SettleRequested Commit ∈ events ∧
        ∃ token, TerminalCompleted token TerminalCommitted ∈ events)
  end.
Proof.
  intros Ha Hst.
  cut (match tx_outcome r' with
       | None => tx_state r' ≠ Settled ∧ List.filter is_settlement acts = [] ∧
                 ∀ intent, tx_settle_intent r' = Some intent → SettleRequested intent ∈ events
       | Some outcome => tx_state r' = Settled ∧
           (∃ effects, List.filter is_settlement acts = settlement outcome effects) ∧
           (outcome = Committed → SettleRequested Commit ∈ events ∧
             ∃ token, TerminalCompleted token TerminalCommitted ∈ events)
       end). { by destruct (tx_outcome r'); [|intros (? & ? & _)]. }
  induction Hst as [|events acts r1 event n r2 acts2 _ IH Es|events acts r1 effect frames _ IH _];
    [injection Ha as <- <-; done| |done].
  rewrite List.filter_app.
  apply apply_spec in Es as [(-> & Hn & _)|[[Hns Hq]|(Hns & outcome & withdraw & r0 & He & E & _)]].
  - rewrite (no_settlement acts2), app_nil_r by done.
    destruct (tx_outcome r1); [destruct IH as (? & ? & IH)|destruct IH as (? & ? & IH)].
    + split; [done|]. split; [done|]. intros Hc. destruct (IH Hc) as (? & token & ?).
      split; [|exists token]; apply elem_of_app; by left.
    + split; [done|]. split; [done|]. intros. apply elem_of_app. left. by apply IH.
  - rewrite (no_settlement acts2), app_nil_r by apply Hq. rewrite (q_outcome _ _ _ _ Hq).
    destruct (tx_outcome r1); [by destruct IH|]. destruct IH as (_ & Hf & Hi).
    split; [apply Hq|]. split; [done|]. intros intent Hin.
    destruct (q_intent _ _ _ _ Hq) as [Hk|[_ Hk]]; [apply elem_of_app; left; apply Hi; congruence|].
    rewrite Hk in Hin. destruct event; try done. injection Hin as ->. apply elem_of_app. right. by left.
  - pose proof E as (Hs & -> & _)%settle_now_spec. eapply settles_actions in E as [-> Hc]; [|done].
    destruct (tx_outcome r1); [by destruct IH|]. destruct IH as (_ & Hf & Hi).
    rewrite Hf, settlement_settles. split; [done|]. split; [eauto|]. intros Ho.
    destruct (Hc Ho) as (Hk & token & ->). split; [|exists token]; apply elem_of_app; [left; by apply Hi|right; by left].
Qed.

(** * The mask ceiling only tightens *)

Lemma meet_elem a b k : k ∈ meet_ceiling a b ↔ k ∈ a ∧ k ∈ b.
Proof. unfold meet_ceiling. by rewrite elem_of_lfilter, bool_decide_eq_true. Qed.

Lemma no_broader_elem a b : is_no_broader_than a b = true ↔ ∀ k, k ∈ a → k ∈ b.
Proof.
  unfold is_no_broader_than. rewrite forallb_forall. setoid_rewrite bool_decide_eq_true.
  by setoid_rewrite <- list_elem_of_In.
Qed.

(** What holds of the ceilings once [BEGIN] was issued under the ceiling [b]. *)
Definition under (expected : ExpectedAuthority) (b : MaskCeiling) (r : TxReducer) : Prop :=
  tx_expected r = expected ∧ tx_begin_ceiling r = Some b ∧ tx_state r ≠ Preparing ∧
  ∃ e, tx_effective_ceiling r = Some e ∧ ∀ k, k ∈ e → k ∈ b.

Lemma under_step event now expected b r r' acts e : under expected b r → tx_effective_ceiling r = Some e →
  tx_apply event now r = Some (r', acts) →
  under expected b r' ∧ ∃ e', tx_effective_ceiling r' = Some e' ∧ ∀ k, k ∈ e' → k ∈ e.
Proof.
  intros (Hx & Hb & Hp & e0 & He & Hsub) He0 Es. rewrite He in He0. injection He0 as ->.
  assert (same_policy r r' ∨ retightened r r') as [(Hx' & Hb' & He' & Hp')|(Hx' & c & He' & Hb')].
  { apply apply_spec in Es as [[-> _]|[[_ []]|(_ & o & w & r0 & _ & E & _ & _ & Hq)]]; [by left|done|left].
    apply settle_now_spec in E as (_ & _ & _ & (Hq' & _) & _). unfold same_policy in *. naive_solver congruence. }
  - split; [|exists e; split; [congruence|done]]. split; [congruence|]. split; [congruence|].
    split; [naive_solver|]. exists e. split; [congruence|done].
  - rewrite Hb, He in He'. destruct Hb' as [(Hb' & Hs & _)|(_ & ? & _)]; [|done].
    split; [|eexists; split; [done|]; intros k; rewrite !meet_elem; naive_solver].
    split; [congruence|]. split; [congruence|]. split; [congruence|].
    eexists. split; [done|]. intros k. rewrite !meet_elem. naive_solver.
Qed.

Lemma under_begun expected budgets now max_depth r0 acts0 events acts r begin :
  admit_tx expected budgets now max_depth = Some (r0, acts0) → tx_steps r0 events acts r →
  tx_begin_ceiling r = Some begin → under expected begin r.
Proof.
  intros Ha Hst. cut (tx_expected r = expected ∧
    match tx_begin_ceiling r with Some b => under expected b r | None => True end).
  { intros [_ Hu] Hb. by rewrite Hb in Hu. }
  induction Hst as [|events acts r1 event n r2 acts2 _ [Hx IH] Es|events acts r1 effect frames _ IH _];
    [by injection Ha as <- <-| |done].
  destruct (tx_begin_ceiling r1) as [b|] eqn:Hb.
  { pose proof IH as (_ & _ & _ & e & He & _). eapply under_step in Es as [Hu _]; [|done..].
    pose proof Hu as (Hx' & Hb' & _). by rewrite Hb'. }
  apply apply_spec in Es as [[-> _]|[[_ [_ _ _ _ Hp _ _ _]]|(_ & o & w & r0' & _ & E & _ & _ & Hq)]].
  - by rewrite Hb.
  - destruct Hp as [(Hx' & Hb' & _)|(Hx' & c & He & Hb')].
    + split; [congruence|]. by rewrite Hb', Hb.
    + split; [congruence|]. rewrite Hb in He. destruct Hb' as [(Hb' & _)|(Hb' & _ & Hs)]; [by rewrite Hb', Hb|].
      rewrite Hb'. split; [congruence|]. split; [done|]. split; [congruence|]. by exists c.
  - apply settle_now_spec in E as (_ & _ & _ & ((Hx1 & Hb1 & _) & _) & _). destruct Hq as (Hx2 & Hb2 & _).
    split; [congruence|]. by rewrite Hb1, Hb2, Hb.
Qed.

(** An observation that speaks of the transaction's own app and is current. *)
Definition current_observation (expected : ExpectedAuthority) (event : TxEvent) (ceiling : MaskCeiling) : Prop :=
  ∃ a o, event = AuthorityObserved a o ∧ au_identity a = ex_identity expected ∧ au_domain a = ex_domain expected ∧
    classify o expected = Current ceiling.

Lemma current_step event now expected b r r' acts c : under expected b r → tx_state r ≠ Settled →
  current_observation expected event c → tx_apply event now r = Some (r', acts) →
  ∀ e, tx_effective_ceiling r' = Some e → ∀ k, k ∈ e → k ∈ c.
Proof.
  intros (Hx & Hb & Hp & e0 & He & _) Hs (a & o & -> & Hi & Hd & Hc) E e. unfold tx_apply in E. cbn in E.
  rewrite Hx, Hi, Hd, !bool_decide_eq_true_2, bool_decide_eq_false_2 in E by done. cbn in E. injection E as E.
  unfold on_authority, on_verdict in E. rewrite Hx, Hc, Hb, He in E. cbn in E.
  destruct (tx_state r); [done|..]; injection E as <- <-; cbn; intros [= <-] k; rewrite !meet_elem; by intros [].
Qed.

(** The kinds of actor that may see unmasked values only ever shrink: once the transaction
    has begun under a ceiling, whatever happens, that ceiling stays on record, the one in
    effect never lets through a kind it refused before, and while the transaction is open
    it lets through only what every current observation of its authority allowed. *)
Theorem ceiling_only_tightens expected budgets now max_depth r0 acts0 events acts r begin events' acts' r' :
  admit_tx expected budgets now max_depth = Some (r0, acts0) → tx_steps r0 events acts r →
  tx_begin_ceiling r = Some begin → tx_steps r events' acts' r' →
  tx_begin_ceiling r' = Some begin ∧
  ∃ effective effective', tx_effective_ceiling r = Some effective ∧ tx_effective_ceiling r' = Some effective' ∧
    is_no_broader_than effective begin = true ∧ is_no_broader_than effective' effective = true ∧
    (tx_state r' ≠ Settled → ∀ event ceiling, event ∈ events' → current_observation expected event ceiling →
      is_no_broader_than effective' ceiling = true).
Proof.
  intros Ha Hst Hb Hst'. pose proof (under_begun _ _ _ _ _ _ _ _ _ _ Ha Hst Hb) as Hu.
  pose proof Hu as (_ & _ & _ & e & He & Hsub). setoid_rewrite no_broader_elem.
  cut (under expected begin r' ∧ ∃ e', tx_effective_ceiling r' = Some e' ∧ (∀ k, k ∈ e' → k ∈ e) ∧
    (tx_state r' ≠ Settled → ∀ event ceiling, event ∈ events' → current_observation expected event ceiling →
      ∀ k, k ∈ e' → k ∈ ceiling)).
  { intros [(_ & ? & _) (e' & ? & ? & ?)]. split; [done|]. by exists e, e'. }
  induction Hst' as [|events' acts' r1 event n r2 acts2 _ (Hu1 & e1 & He1 & Hsub1 & Hall) Es|
    events' acts' r1 effect frames _ IH _]; [| |done].
  - split; [done|]. exists e. split; [done|]. split; [done|]. intros _ event c Hin. by apply not_elem_of_nil in Hin.
  - destruct (under_step _ _ _ _ _ _ _ _ Hu1 He1 Es) as (Hu2 & e2 & He2 & Hsub2).
    split; [done|]. exists e2. split; [done|]. split; [auto|]. intros Hs2 ev c Hin Hc.
    assert (tx_state r1 ≠ Settled) as Hs1. { intros Hs1. apply Hs2. by apply settled_stays in Es as [-> _]. }
    apply elem_of_app in Hin as [Hin| ->%list_elem_of_singleton]; [by intros k Hk%Hsub2; eapply Hall|].
    exact (current_step _ _ _ _ _ _ _ _ Hu1 Hs1 Hc Es e2 He2).
Qed.
