(* ===== verification/TxSavepoints.v ===== *)
(** The savepoints of a transaction: their names never repeat, whatever events arrive, and
    their nesting is bounded. *)

From S2P Require Export TxReducerFacts.

(** The frames without their events and statuses. *)
Definition shape (s : FrameStack) : list (Z * option bytes) := map (λ f, (fr_id f, fr_savepoint f)) (fs_frames s).

(** The frames opened by a savepoint. *)
Definition children (sh : list (Z * option bytes)) : list bytes := omap snd sh.

(** One frame operation, as it changes the shape. *)
Inductive shape_step (max : Z) : Z → list (Z * option bytes) → Z → list (Z * option bytes) → list bytes → Prop :=
  | sstep_same next sh : shape_step max next sh next sh []
  | sstep_pop next id name sh : shape_step max next ((id, Some name) :: sh) next sh []
  | sstep_root next sh : shape_step max next sh (next + 1) ((next + 1, None) :: sh)%Z []
  | sstep_child next sh : sh ≠ [] → (Z.of_nat (length sh) ≤ max)%Z →
      shape_step max next sh (next + 1) ((next + 1, Some (savepoint_name (next + 1))) :: sh)%Z
        [savepoint_name (next + 1)].

Lemma frame_step_shape s s' names : frame_step s s' names →
  fs_max_depth s' = fs_max_depth s ∧
  shape_step (fs_max_depth s) (fs_next_sequence s) (shape s) (fs_next_sequence s') (shape s') names.
Proof.
  destruct s as [frames next minted max].
  intros [| |id name s1 E|id s1 E|id s1 E|id s1 E|id close x s1 E|effect s1 E|]; [split; [done|constructor]..| | | | | | |];
    try (unfold open_child, confirm_child_open, abandon_opening_child, mark_rolled_back, close_top, queue_effect in E;
      cbn in E; destruct frames as [|f rest]; [done|]).
  - destruct (negb _); [done|]. destruct (_ <? _)%Z eqn:El; [done|]. injection E as <- <- <-.
    split; [done|]. apply Z.ltb_ge in El. apply sstep_child; [done|]. unfold shape. by rewrite length_map.
  - destruct (negb _); [done|]. injection E as <-. split; [done|constructor].
  - unfold is_root in E. destruct (_ || _) eqn:Er; [done|]. injection E as <-. split; [done|].
    apply orb_false_iff in Er as [_ Er%bool_decide_eq_false]. unfold shape. cbn.
    destruct (fr_savepoint f); [constructor|done].
  - destruct (negb _); [done|]. destruct (is_root f); [done|]. injection E as <-. split; [done|constructor].
  - unfold is_root in E. destruct (negb _); [done|]. case_bool_decide as Er; [done|].
    unfold shape. cbn. destruct (fr_savepoint f) eqn:En; [|done]. destruct close.
    + destruct rest as [|p rest]; [done|]. injection E as <- <-. split; [done|constructor].
    + injection E as <- <-. split; [done|constructor].
  - destruct (negb _); [done|]. injection E as <-. split; [done|constructor].
  - split; [done|]. unfold shape, clear_frames. cbn. rewrite map_map. cbn. constructor.
Qed.

(** What holds of the shape and of the savepoints asked for so far. *)
Record fresh (max next : Z) (sh : list (Z * option bytes)) (issued : list bytes) : Prop := {
  fh_ids : ∃ ids, issued = map savepoint_name ids ∧ NoDup ids ∧ Forall (λ id, 0 < id ≤ next)%Z ids ∧
    NoDup (map fst sh) ∧ Forall (λ f, 0 < f.1 ≤ next)%Z sh ∧
    Forall (λ f, ∀ name, f.2 = Some name → name = savepoint_name f.1 ∧ f.1 ∈ ids) sh;
  fh_next : (0 ≤ next)%Z;
  fh_rooted : sh = [] ∨ length (children sh) < length sh;
  fh_depth : (Z.of_nat (length (children sh)) ≤ Z.max 0 max)%Z
}.

Lemma fresh_id next (sh : list (Z * option bytes)) : Forall (λ f, 0 < f.1 ≤ next)%Z sh → (next + 1)%Z ∉ map fst sh.
Proof.
  intros Hf (f & E & Hin)%list_elem_of_fmap. rewrite Forall_forall in Hf. apply Hf in Hin. lia.
Qed.

Lemma fresh_step max next sh next' sh' names issued : shape_step max next sh next' sh' names →
  fresh max next sh issued → fresh max next' sh' (issued ++ names).
Proof.
  intros [| n id name s|n s|n s Hne Hlen] [(ids & -> & Hnd & Hr & Hs & Hf & Hn) Hnx Hroot Hd];
    rewrite ?app_nil_r.
  - split; [|done..]. exists ids. by split_and!.
  - unfold children in *. cbn in *. apply NoDup_cons in Hs as [_ Hs]. inversion Hf. inversion Hn. subst.
    split; unfold children; [exists ids; by split_and!|done|destruct Hroot; [done|right; lia]|lia].
  - assert (Forall (λ f, 0 < f.1 ≤ n + 1)%Z s) as Hf' by (eapply Forall_impl; [exact Hf|cbn; lia]).
    unfold children in *. cbn in *. split; unfold children; cbn; [|lia| |lia].
    + exists ids. split; [done|]. split; [done|]. split; [eapply Forall_impl; [exact Hr|cbn; lia]|].
      split; [constructor; [by apply fresh_id|done]|]. split; [constructor; [cbn; lia|done]|]. by constructor.
    + right. destruct Hroot as [->|]; cbn; lia.
  - assert (Forall (λ f, 0 < f.1 ≤ n + 1)%Z s) as Hf' by (eapply Forall_impl; [exact Hf|cbn; lia]).
    unfold children in *. cbn in *. destruct Hroot as [|Hroot]; [done|]. split; unfold children; cbn; [|lia|right; lia|lia].
    exists (ids ++ [n + 1]%Z). split; [by rewrite map_app|].
    split. { apply NoDup_app. split; [done|]. split; [|apply NoDup_singleton].
      intros x Hx ->%list_elem_of_singleton. rewrite Forall_forall in Hr. apply Hr in Hx. lia. }
    split; [apply Forall_app; split; [eapply Forall_impl; [exact Hr|cbn; lia]|constructor; [lia|done]]|].
    split; [constructor; [by apply fresh_id|done]|]. split; [constructor; [cbn; lia|done]|].
    constructor; [intros name [= <-]; split; [done|]; apply elem_of_app; right; by left|].
    eapply Forall_impl; [exact Hn|]. intros f Hname name En. destruct (Hname name En).
    split; [done|]. apply elem_of_app. by left.
Qed.

Lemma apply_frames event now r r' acts : tx_apply event now r = Some (r', acts) →
  frame_step (tx_frames r) (tx_frames r') (savepoints acts).
Proof.
  intros [(-> & _ & ->)|[[_ []]|(_ & o & w & r0 & He & E & Hf & _)]]%apply_spec; [constructor|done|].
  pose proof E as (_ & _ & _ & (_ & _ & ->) & ->)%settle_now_spec. rewrite Hf.
  replace (savepoints _) with (@nil bytes) by (by destruct (publishes o), w). constructor.
Qed.

Lemma steps_fresh expected budgets now max_depth r acts0 events acts r' :
  admit_tx expected budgets now max_depth = Some (r, acts0) → tx_steps r events acts r' →
  fs_max_depth (tx_frames r') = max_depth ∧
  fresh max_depth (fs_next_sequence (tx_frames r')) (shape (tx_frames r')) (savepoints acts).
Proof.
  intros Ha Hst.
  induction Hst as [|events acts r1 event n r2 acts2 _ [Hm IH] Es|events acts r1 effect frames _ [Hm IH] Eq].
  - injection Ha as <- <-. split; [done|]. split; [|done|by left|cbn; lia].
    exists []. by split_and!; try constructor.
  - apply apply_frames, frame_step_shape in Es as [Hm' Hsh]. rewrite Hm in Hsh. split; [congruence|].
    unfold savepoints. rewrite omap_app. by eapply fresh_step.
  - apply fstep_queue, frame_step_shape in Eq as [Hm' Hsh]. rewrite Hm in Hsh. split; [cbn; congruence|].
    rewrite <- (app_nil_r (savepoints acts)). by eapply fresh_step.
Qed.

Lemma savepoint_name_inj a b : (0 ≤ a < 10 ^ 20)%Z → (0 ≤ b < 10 ^ 20)%Z → savepoint_name a = savepoint_name b → a = b.
Proof.
  unfold savepoint_name. intros Ha Hb E%app_inv_head.
  pose proof (nat_to_string_parse a Ha) as Pa. rewrite E, nat_to_string_parse in Pa by done. congruence.
Qed.

Lemma children_shape s : children (shape s) = omap fr_savepoint (fs_frames s).
Proof.
  unfold children, shape. induction (fs_frames s) as [|f frames IH]; [done|]. cbn. rewrite IH. by destruct (fr_savepoint f).
Qed.

Lemma children_elem name sh : name ∈ children sh ↔ ∃ f, f ∈ sh ∧ f.2 = Some name.
Proof. apply list_elem_of_omap. Qed.

Lemma children_nodup (ids : list Z) next sh : (next < 2 ^ 64)%Z → NoDup (map fst sh) → Forall (λ f, 0 < f.1 ≤ next)%Z sh →
  Forall (λ f, ∀ name, f.2 = Some name → name = savepoint_name f.1 ∧ f.1 ∈ ids) sh → NoDup (children sh).
Proof.
  intros Hb. unfold children. induction sh as [|[id [name|]] sh IH]; cbn; [by constructor|..];
    intros [Hni Hnd]%NoDup_cons [Hid Hf]%Forall_cons [Hname Hn]%Forall_cons; [|by apply IH].
  constructor; [|by apply IH]. intros (f & Hin & Ef)%children_elem. apply Hni.
  rewrite Forall_forall in Hf, Hn. destruct (Hn f Hin name Ef) as [-> _]. destruct (Hname _ eq_refl) as [E _].
  apply savepoint_name_inj in E; [|specialize (Hf f Hin); cbn in *; lia..].
  cbn in E. rewrite <- E. by apply list_elem_of_fmap_2.
Qed.

(** C35: Whatever events arrive after admission, no two savepoints of a transaction are given
    the same name, as long as the counter of frames fits its 64 bits; the savepoints of
    the open frames are among those, all different; and never more of them are nested than
    the depth allowed. *)
Theorem savepoint_names_never_repeat expected budgets now max_depth r acts0 events acts r' :
  admit_tx expected budgets now max_depth = Some (r, acts0) → tx_steps r events acts r' →
  (fs_next_sequence (tx_frames r') < 2 ^ 64)%Z →
  NoDup (savepoints acts) ∧ NoDup (omap fr_savepoint (fs_frames (tx_frames r'))) ∧
  (∀ name, name ∈ omap fr_savepoint (fs_frames (tx_frames r')) → name ∈ savepoints acts) ∧
  (Z.of_nat (length (omap fr_savepoint (fs_frames (tx_frames r')))) ≤ Z.max 0 max_depth)%Z.
Proof.
  intros Ha Hst Hb. rewrite <- children_shape.
  destruct (steps_fresh _ _ _ _ _ _ _ _ _ Ha Hst) as [_ [(ids & -> & Hnd & Hr & Hs & Hf & Hn) _ _ Hd]].
  split_and!; [| | |done].
  - apply NoDup_fmap_2_strong; [|done]. rewrite Forall_forall in Hr.
    intros x y Hx%Hr Hy%Hr. apply savepoint_name_inj; lia.
  - by eapply children_nodup.
  - intros name (f & Hin & Ef)%children_elem. rewrite Forall_forall in Hn.
    destruct (Hn f Hin name Ef) as [-> Hid]. by apply list_elem_of_fmap_2.
Qed.
