(* ===== verification/TxBegin.v ===== *)
(** A transaction issues its [BEGIN] at most once, so the driver opens at most one session
    for an admission: what [TxThread] relies on. *)

From S2P Require Import Prelude RustStd TxFrames TxReducer TxReducerFacts.

Definition is_begin (a : Action) : bool := match a with IssueBegin _ => true | _ => false end.
Definition begins (acts : list Action) : list Action := List.filter is_begin acts.

Lemma begins_app acts acts' : begins (acts ++ acts') = begins acts ++ begins acts'.
Proof. apply List.filter_app. Qed.
Lemma begins_schedules timers : Forall is_schedule timers → begins timers = [].
Proof. induction 1 as [|a timers Ha _ IH]; [done|]. destruct a; done. Qed.

Section begins.
Context (r r' : TxReducer) (acts : list Action).

Lemma forced_begins cause now : forced cause now r = (r', acts) → begins acts = [].
Proof.
  intros [(_ & -> & _)|(_ & _ & _ & _ & timers & -> & Ht)]%forced_spec; [done|].
  by rewrite begins_app, begins_schedules.
Qed.
Lemma terminal_begins intent now : begin_terminal intent now r = (r', acts) → begins acts = [].
Proof. intros (_ & timers & -> & Ht)%begin_terminal_spec. by rewrite begins_app, begins_schedules. Qed.
Lemma settle_begins outcome withdraw : settle_now outcome withdraw r = (r', acts) → begins acts = [].
Proof. intros (_ & _ & _ & _ & ->)%settle_now_spec. by destruct (publishes outcome), withdraw. Qed.
Lemma returned_begins : command_returned_during_cleanup r = Some (r', acts) → begins acts = [].
Proof. intros (l & _ & [= _ <-])%bind_Some. done. Qed.

Lemma verdict_begins verdict now : on_verdict verdict now r = (r', acts) →
  begins acts = [] ∨
  (∃ ceiling, verdict = Current ceiling) ∧ tx_state r = Preparing ∧ tx_state r' = Starting ∧ ∃ t, begins acts = [IssueBegin t].
Proof.
  unfold on_verdict. destruct verdict as [ceiling| |reason].
  - cbn. destruct (tx_state r) eqn:Es; intros [= <- <-]; try by left. right. cbn. eauto 10.
  - destruct (forced _ _ r) as [r1 a1] eqn:E. intros [= <- <-]. left.
    apply forced_spec in E as [(_ & -> & _)|(_ & _ & _ & _ & timers & -> & Ht)]; [done|].
    by rewrite !begins_app, begins_schedules.
  - destruct (forced _ _ r) as [r1 a1] eqn:E. intros [= <- <-]. left.
    apply forced_spec in E as [(_ & -> & _)|(_ & _ & _ & _ & timers & -> & Ht)]; [done|].
    by rewrite !begins_app, begins_schedules.
Qed.
End begins.

(** Nothing returns to [Preparing]. *)
Lemma preparing_left event now r r' acts : tx_apply event now r = Some (r', acts) →
  tx_state r' = Preparing → tx_state r = Preparing.
Proof.
  intros [(-> & _)|[[_ Hq]|(_ & o & w & r0 & _ & Es & _)]]%apply_spec Hp; [done|..].
  - destruct (q_policy _ _ _ _ Hq) as [(_ & _ & _ & H)|(_ & c & _ & [(_ & H & _)|(_ & _ & H)])]; [auto|congruence..].
  - apply settle_now_spec in Es as [Hs _]. congruence.
Qed.

Definition begin_issued (r r' : TxReducer) (acts : list Action) : Prop :=
  begins acts = [] ∨ tx_state r = Preparing ∧ tx_state r' = Starting ∧ ∃ t, begins acts = [IssueBegin t].

Ltac issues_none := let E := fresh in intros E; injection E; intros; subst; done.

(** The commands of the creator and their completions issue none. *)
Lemma handlers_begin event now r r' acts : tx_state r ≠ Settled →
  match event with
  | OperationRequested => on_operation_requested r
  | OperationCompleted token errored => on_operation_completed token errored now r
  | OpenFrame => on_open_frame r
  | OpenFrameCompleted token frame ok => on_open_frame_completed token frame ok r
  | CloseFrame frame close => on_close_frame frame close r
  | CloseFrameCompleted token frame close ok => on_close_frame_completed token frame close ok r
  | SettleRequested intent => on_settle_requested intent now r
  | _ => None
  end = Some (r', acts) → begins acts = [].
Proof.
  intros Hs. destruct event; try done.
  - unfold on_operation_requested. repeat case_match; issues_none.
  - unfold on_operation_completed. destruct (negb _); [issues_none|].
    case_bool_decide; [apply returned_begins|]. case_bool_decide; [|by destruct errored; intros [= _ <-]].
    intros (i & _ & E)%bind_Some. destruct (begin_terminal _ _ _) as [r1 a1] eqn:Eb. injection E as _ <-.
    apply terminal_begins in Eb. cbn. by destruct errored.
  - unfold on_open_frame. repeat case_match; issues_none.
  - unfold on_open_frame_completed. destruct (negb _); [issues_none|].
    case_bool_decide; [apply returned_begins|]. destruct ok; issues_none.
  - unfold on_close_frame. destruct (refuse_if_cleaning_up r); [issues_none|]. destruct (_ && _); [issues_none|].
    destruct (top _) as [f|]; [|issues_none]. destruct (negb _); [issues_none|]. destruct (is_root f); [issues_none|].
    destruct (fr_savepoint f); [|done]. cbn. destruct close; issues_none.
  - unfold on_close_frame_completed. destruct (negb _); [issues_none|].
    case_bool_decide; [apply returned_begins|]. destruct (negb _); [issues_none|]. cbn. destruct close.
    + destruct (close_top _ _ _) as [[[id f]|e]|]; [issues_none| |done]. cbn. destruct (top _); cbn; [|issues_none].
      destruct (close_top _ RolledBackTo _) as [[[id' f']|e']|]; [| |done]; issues_none.
    + destruct (top _) as [f|]; [|done]. cbn. destruct (fr_savepoint f); [|done]. issues_none.
  - unfold on_settle_requested. destruct (refuse_if_cleaning_up r); [issues_none|].
    assert (Some (begin_terminal intent now r) = Some (r', acts) → begins acts = []) as Hb by (intros [= E]; by eapply terminal_begins).
    destruct (tx_state r); try done; try (issues_none); (case_bool_decide; issues_none).
Qed.

Lemma apply_begins event now r r' acts : tx_apply event now r = Some (r', acts) → begin_issued r r' acts.
Proof.
  unfold tx_apply. destruct (match event_authority event with Some _ => _ | None => _ end).
  { intros [= _ <-]. by left. }
  case_bool_decide as Hs; [destruct (is_late_force event); intros [= _ <-]; by left|].
  destruct event as [a o|token outcome| | | | | | | |token result|a|a|kind g|token ack] eqn:Hev; intros E;
    try (left; apply (handlers_begin event now r r' acts Hs); rewrite Hev; exact E).
  - injection E as E. destruct (verdict_begins _ _ _ _ _ E) as [|(_ & ?)]; [by left|by right].
  - unfold on_begin_completed in E. destruct (negb _); [injection E as _ <-; by left|].
    destruct (negb _); [injection E as _ <-; by left|]. injection E as E. left.
    destruct outcome; [by injection E as _ <-|by eapply forced_begins|..|by eapply forced_begins];
      destruct (verdict_begins _ _ _ _ _ E) as [|[[c Hc] _]]; done.
  - unfold on_terminal_completed in E. destruct (negb _); [injection E as _ <-; by left|].
    destruct (negb _); [injection E as _ <-; by left|]. apply bind_Some in E as (i & _ & [= E]). left. by eapply settle_begins.
  - injection E as E. left. by eapply forced_begins.
  - injection E as E. left. by eapply forced_begins.
  - injection E as E. left. unfold on_deadline_fired in E. destruct (negb _); [by injection E as _ <-|].
    destruct (claim_fire _ _ _); [|by injection E as _ <-].
    destruct kind; [by eapply forced_begins|by eapply settle_begins..].
  - unfold on_cancellation_acknowledged in E. destruct (negb _); [injection E as _ <-; by left|].
    destruct (negb _); [injection E as _ <-; by left|]. apply bind_Some in E as (l & _ & [= E]). left.
    destruct (is_proved_by _ _); by eapply settle_begins.
Qed.

(** Whatever events arrive after admission, at most one [BEGIN] is issued. *)
Theorem begins_once expected budgets now max_depth r acts0 events acts r' :
  admit_tx expected budgets now max_depth = Some (r, acts0) → tx_steps r events acts r' →
  length (begins (acts0 ++ acts)) ≤ 1.
Proof.
  intros Ha Hst.
  assert (tx_state r = Preparing ∧ begins acts0 = []) as [Hp H0].
  { apply bind_Some in Ha as (res & _ & [= <- <-]). done. }
  rewrite begins_app, H0. cbn.
  cut ((tx_state r' = Preparing → begins acts = []) ∧ length (begins acts) ≤ 1); [by intros []|].
  induction Hst as [|events acts r1 event nw r2 acts2 _ IH E|events acts r1 effect frames _ IH E]; [by split; [|cbn; lia]| |exact IH].
  destruct IH as [Hn Hl]. rewrite begins_app, length_app.
  destruct (apply_begins _ _ _ _ _ E) as [Hb|(Hpr & Hs & t & Hb)]; rewrite Hb; cbn.
  - split; [|lia]. intros H2. rewrite Hn; [done|]. by eapply preparing_left.
  - rewrite (Hn Hpr). split; [by rewrite Hs|done].
Qed.
