(* ===== verification/TxDriverFacts.v ===== *)
(** What holds of every transaction as its driver runs it: the statements in flight fit the
    state, a deadline is always armed, the lane's buffer of change events is the one of the
    frames and of the server, and nothing panics. *)

From S2P Require Export TxReducerFacts TxDriver.

(** * The invariant *)

(** Neither ended nor being ended. *)
Definition running (r : TxReducer) : Prop :=
  (∃ g t, tx_slot r = Armed Execution g t) ∧ tx_cleanup r = None ∧ tx_terminal_promised r = false ∧
  tx_outcome r = None.

(** The statements in flight fit the state: at most one, besides the cancellation. *)
Definition phase (r : TxReducer) (ps : list Pending) : Prop :=
  match tx_state r with
  | Preparing => running r ∧ ps = [] ∧ tx_active r = None
  | Starting => running r ∧ ∃ t, ps = [PBegin t] ∧ tx_active r = Some t
  | Idle | Poisoned => running r ∧ ps = [] ∧ tx_active r = None ∧ tx_session r = OwnedByRegistry
  | InFlight | Quiescing => running r ∧ (tx_state r = Quiescing → tx_settle_intent r ≠ None) ∧
      ∃ p, ps = [p] ∧ creator_command p ∧ tx_active r = Some (pending_token p) ∧
        tx_session r = OwnedByCommand (pending_token p)
  | Settling => (∃ g t, tx_slot r = Armed TerminalSql g t) ∧ tx_cleanup r = None ∧
      tx_terminal_promised r = false ∧ tx_outcome r = None ∧
      ∃ t command intent, ps = [PTerminal t command] ∧ tx_active r = Some t ∧ tx_session r = OwnedByCommand t ∧
        tx_settle_intent r = Some intent
  | Cancelling => (∃ g t, tx_slot r = Armed CancellationSql g t) ∧ tx_cleanup r ≠ None ∧
      tx_terminal_promised r = false ∧ tx_outcome r = None ∧
      ∃ t goal live, tx_cancellation_token r = Some t ∧ ps = live ++ [PCancellation t goal] ∧
        (live = [] ∨ ∃ p, live = [p] ∧ tx_active r = Some (pending_token p) ∧
                       (creator_command p ∨ p = PBegin (pending_token p)))
  | Settled => tx_slot r = Disarmed ∧ tx_outcome r ≠ None ∧ (tx_outcome r = Some Committed → ps = [])
  end.

(** The frames, the lane's buffer and the server's side agree: what was queued since a
    savepoint lies in the queue after what was queued before it, the marks are the lengths
    the queue had, and the server would undo exactly to there. *)
Inductive agree : list Frame → list Effect → list nat → list (bytes * list Effect) → Prop :=
  | agree_root id own es : agree [mk_frame id None FrameOpen own] es [] []
  | agree_opening id n own frames es marks sps : agree frames es marks sps →
      agree (mk_frame id (Some n) FrameOpening own :: frames) es marks sps
  | agree_child id n status own frames below es marks sps : status ≠ FrameOpening →
      agree frames below marks sps →
      agree (mk_frame id (Some n) status own :: frames) (below ++ es) (length below :: marks) ((n, below) :: sps).

Definition is_open (f : Frame) : Prop := fr_status f = FrameOpen.

(** The innermost frame fits the statement in flight; the frames around it are open. *)
Definition frames_fit (r : TxReducer) (ps : list Pending) : Prop :=
  match fs_frames (tx_frames r) with
  | [] => False
  | f :: rest => Forall is_open rest ∧
      match ps with
      | [PSavepoint _ frame n] => fr_id f = frame ∧ fr_savepoint f = Some n ∧ fr_status f = FrameOpening
      | [PRollbackTo _ frame n] | [PRelease _ frame n] =>
          fr_id f = frame ∧ fr_savepoint f = Some n ∧ fr_status f ≠ FrameOpening
      | [] => fr_status f ≠ FrameOpening ∧ (tx_state r = Idle → is_open f)
      | _ => is_open f
      end
  end.

Section driver_facts.
Context `{Server} `{!ServerLaws}.

Definition linked (r : TxReducer) (ps : list Pending) (em : Emits) (srv : Srv) (late : list Effect) : Prop :=
  match tx_state r with
  | Preparing | Starting => fs_frames (tx_frames r) = [] ∧ em = mk_emits [] [] ∧ late = []
  | Idle | InFlight | Quiescing | Poisoned =>
      agree (fs_frames (tx_frames r)) (em_pending em) (em_marks em) (sv_savepoints srv) ∧
      sv_changes srv = em_pending em ∧ frames_fit r ps ∧ late = []
  | Settling => sv_changes srv = em_pending em ++ late
  | Cancelling | Settled => True
  end.

Definition truthful (r : TxReducer) (published late : list Effect) (committed : option (list Effect)) : Prop :=
  if bool_decide (tx_outcome r = Some Committed) then committed = Some (published ++ late) else published = [].

Definition good (d : Drive) : Prop :=
  phase (dr_tx d) (dr_pending d) ∧ linked (dr_tx d) (dr_pending d) (dr_emits d) (dr_server d) (dr_late d) ∧
  truthful (dr_tx d) (dr_published d) (dr_late d) (dr_committed d).

Lemma good_admit expected budgets now max_depth d : admit_drive expected budgets now max_depth = Some d → good d.
Proof. intros [= <-]. split; [|by split]. cbn. split; [|done]. split; [cbn; eauto|done]. Qed.

(** ** Performing actions *)

Definition perform (d : Drive) (r : TxReducer) (acts : list Action) : Drive := foldl interpret (with_tx r d) acts.

Lemma perform_timers d r timers acts : Forall is_schedule timers → perform d r (timers ++ acts) = perform d r acts.
Proof. unfold perform. induction 1 as [|[] timers Ht _ IH]; done. Qed.

Definition is_refusal (a : Action) : Prop := ∃ e, a = Reply (Err e).

Lemma perform_refusals d r acts : Forall is_refusal acts → perform d r acts = with_tx r d.
Proof. unfold perform. induction 1 as [|a acts [e ->] _ IH]; done. Qed.

Lemma perform_reply d r x acts : perform d r (Reply x :: acts) = perform d r acts.
Proof. done. Qed.

Lemma perform_refused d acts : Forall is_refusal acts → perform d (dr_tx d) acts = d.
Proof. intros Hr. rewrite perform_refusals by done. by destruct d. Qed.

Lemma perform_settlement d r outcome effects :
  perform d r (settlement outcome effects) =
  mk_drive _ r (dr_pending d) (mk_emits [] (em_marks (dr_emits d))) (dr_server d)
    (if bool_decide (outcome = Committed) then dr_published d ++ em_pending (dr_emits d) else dr_published d)
    (dr_late d) (dr_committed d).
Proof. by destruct outcome. Qed.

Lemma perform_tx d r acts : dr_tx (perform d r acts) = r.
Proof.
  unfold perform. enough (∀ d', dr_tx (foldl interpret d' acts) = dr_tx d') as Hf by apply (Hf (with_tx r d)).
  induction acts as [|a acts IH]; [done|]. intros d'. cbn. rewrite IH.
  by destruct a; cbn; try destruct (current_frame d').
Qed.

Lemma perform_late d r acts : dr_late (perform d r acts) = dr_late d.
Proof.
  unfold perform. enough (∀ d', dr_late (foldl interpret d' acts) = dr_late d') as Hf by apply (Hf (with_tx r d)).
  induction acts as [|a acts IH]; [done|]. intros d'. cbn. rewrite IH.
  by destruct a; cbn; try destruct (current_frame d').
Qed.

Lemma with_late_same d : with_late (dr_late d) d = d.
Proof. by destruct d. Qed.

Definition close_command (close : FrameClose) (token : Z) (n : bytes) : Action :=
  match close with Released => IssueRelease token n | RolledBackTo => IssueRollbackTo token n end.
Definition close_pending (close : FrameClose) (token frame : Z) (n : bytes) : Pending :=
  match close with Released => PRelease token frame n | RolledBackTo => PRollbackTo token frame n end.

Lemma perform_close d r close token n f rest : fs_frames (tx_frames r) = f :: rest →
  perform d r [close_command close token n] = in_flight (close_pending close token (fr_id f) n) (with_tx r d).
Proof. intros E. by destruct close; unfold perform; cbn; unfold current_frame, top; cbn; rewrite E. Qed.

(** ** Forcing *)

(** Ready to be forced, with at most one statement in flight. *)
Definition forceable (r : TxReducer) (ps : list Pending) : Prop :=
  is_forceable (tx_state r) ∧
  ((∃ g t, tx_slot r = Armed Execution g t) ∨ (∃ g, tx_slot r = Fired Execution g)) ∧
  tx_cleanup r = None ∧ tx_terminal_promised r = false ∧ tx_outcome r = None ∧
  (ps = [] ∨ ∃ p, ps = [p] ∧ tx_active r = Some (pending_token p) ∧
                 (creator_command p ∨ p = PBegin (pending_token p))).

Lemma phase_forceable r ps : is_forceable (tx_state r) → phase r ps → forceable r ps.
Proof.
  unfold phase, forceable, running. intros Hf Hp. split; [done|].
  destruct (tx_state r); try done; destruct Hp as [((g & t & ->) & -> & -> & ->) Hp];
    (split; [left; eauto|]); split_and!; try done;
    [by left; destruct Hp|right|by left; destruct Hp|right|right|by left; destruct Hp].
  - destruct Hp as (b & -> & ->). exists (PBegin b). eauto.
  - destruct Hp as (_ & p & -> & Hc & -> & _). exists p. eauto.
  - destruct Hp as (_ & p & -> & Hc & -> & _). exists p. eauto.
Qed.

Lemma forced_good cause now r r' acts replies d : forceable r (dr_pending d) → dr_published d = [] →
  forced cause now r = (r', acts) → Forall is_refusal replies → good (perform d r' (acts ++ replies)).
Proof.
  intros (Hf & Hs & Hc & Ht & Ho & Hp) Hpub E Hr.
  assert (tx_state r ≠ Settling) as Hst by (by intros Hst; rewrite Hst in Hf).
  apply forced_spec in E as [(_ & _ & Hno)|(_ & _ & _ & -> & timers & -> & Hti)].
  { rewrite Hc, Ht in Hno. naive_solver. }
  rewrite <- app_assoc, perform_timers by done. cbn [app].
  change (good (perform (in_flight (PCancellation (tx_next_token r + 1) (for_state (tx_state r))) d)
    (cancelling cause now r) replies)).
  set (r' := cancelling cause now r). set (d' := in_flight _ d).
  rewrite perform_refusals by done.
  split; [|split; [done|]].
  - cbn. split. { unfold next_slot. destruct Hs as [(g & t & ->)|(g & ->)]; eauto. }
    split_and!; try done. eexists _, _, (dr_pending d). split; [done|]. split; [done|exact Hp].
  - unfold truthful. cbn. by rewrite Ho.
Qed.

Lemma good_refused d acts : good d → Forall is_refusal acts → good (perform d (dr_tx d) acts).
Proof. intros Hg Hr. by rewrite perform_refused. Qed.

Lemma good_unpublished d : good d → tx_state (dr_tx d) ≠ Settled → dr_published d = [].
Proof.
  intros (Hp & _ & Ht) Hs. unfold truthful in Ht.
  assert (tx_outcome (dr_tx d) = None) as Ho.
  { unfold phase, running in Hp. destruct (tx_state _); naive_solver. }
  by rewrite Ho in Ht.
Qed.

Lemma good_forced cause now d r' acts replies : good d → tx_state (dr_tx d) ≠ Settled →
  forced cause now (dr_tx d) = (r', acts) → Forall is_refusal replies → good (perform d r' (acts ++ replies)).
Proof.
  intros Hg Hs E Hr. destruct (is_forceable (tx_state (dr_tx d))) eqn:Ef.
  - eapply forced_good; [|by apply good_unpublished|done..]. apply phase_forceable; [by rewrite Ef|apply Hg].
  - apply forced_spec in E as [(-> & -> & _)|(Hc & _ & Hn & _)]; [by apply good_refused|].
    destruct Hg as [Hp _]. unfold phase in Hp. destruct (tx_state (dr_tx d)); naive_solver.
Qed.

Lemma good_verdict verdict now d r' acts : good d → tx_state (dr_tx d) ≠ Settled →
  on_verdict verdict now (dr_tx d) = (r', acts) → good (perform d r' acts).
Proof.
  intros Hg Hs E. unfold on_verdict in E. destruct verdict as [ceiling| |reason].
  - cbn in E. destruct Hg as (Hp & Hl & Ht). unfold phase, linked in *.
    destruct (tx_state (dr_tx d)) eqn:Es; [|injection E as <- <-; split; [|split; [|exact Ht]];
      unfold phase, linked, perform; cbn; rewrite Es; done..].
    injection E as <- <-. split; [|split; [exact Hl|exact Ht]]. unfold phase. cbn.
    destruct Hp as (Hr & -> & _). split; [done|]. eauto.
  - destruct (forced _ _ _) as [r1 a1] eqn:Ef. injection E as <- <-. eapply good_forced; [done..|].
    repeat constructor. by eexists.
  - destruct (forced _ _ _) as [r1 a1] eqn:Ef. injection E as <- <-. eapply good_forced; [done..|].
    repeat constructor. by eexists.
Qed.

(** ** Requests *)

Lemma good_settled event outcome withdraw r r0 r' acts d : settles r event outcome withdraw →
  settle_now outcome withdraw r0 = (r', acts) → dr_published d = [] →
  (outcome = Committed → dr_committed d = Some (em_pending (dr_emits d) ++ dr_late d) ∧ dr_pending d = []) →
  good (perform d r' acts).
Proof.
  intros He E Hpub Hc. pose proof E as (Hs & Ho & _ & (_ & Hd & _) & _)%settle_now_spec.
  eapply settles_actions in E as [-> _]; [|done]. rewrite perform_settlement.
  unfold good, phase, linked, truthful. cbn. rewrite Hs, Ho, Hpub. split; [|split; [done|]].
  - split; [done|]. split; [done|]. intros [= ->]. by apply Hc.
  - repeat case_bool_decide; simplify_eq; try done. by apply Hc.
Qed.

Lemma good_begin_terminal effects intent now r d r' acts : running r → dr_pending d = [] → dr_published d = [] →
  sv_changes (dr_server d) = em_pending (dr_emits d) ++ dr_late d ++ effects →
  begin_terminal intent now r = (r', acts) → good (with_late (dr_late d ++ effects) (perform d r' acts)).
Proof.
  intros ((g & t & Hslot) & Hc & Hpr & Ho) Hps Hpub Hch [-> (timers & -> & Hti)]%begin_terminal_spec.
  rewrite perform_timers by done. split; [|split].
  - unfold phase. cbn. unfold next_slot. rewrite Hslot, Hps.
    split; [eauto|]. split_and!; try done. eexists _, _, intent. by split_and!.
  - unfold linked. cbn. done.
  - unfold truthful. cbn. by rewrite Ho.
Qed.

Ltac still_good E := injection E as <- <-; apply good_refused; [done|by repeat econstructor].

Lemma good_operation_requested d r' acts : good d → on_operation_requested (dr_tx d) = Some (r', acts) →
  good (perform d r' acts).
Proof.
  intros Hg E. unfold on_operation_requested in E.
  destruct (refuse_if_cleaning_up _); [still_good E|]. destruct (tx_state (dr_tx d)) eqn:Es; try still_good E.
  destruct Hg as (Hp & Hl & Ht). unfold phase, linked in *. rewrite Es in Hp, Hl. injection E as <- <-.
  destruct Hp as (Hr & Hps & _). destruct Hl as (Ha & Hch & Hf & Hla). split; [|split; [|exact Ht]].
  - unfold phase. cbn. rewrite Hps. split; [exact Hr|]. split; [done|]. eexists. by split_and!.
  - unfold linked. cbn. split; [exact Ha|]. split; [exact Hch|]. split; [|done].
    unfold frames_fit in *. cbn. rewrite Hps in *. destruct (fs_frames _); [done|]. naive_solver.
Qed.

(** Of an idle or poisoned transaction. *)
Lemma good_resting d : good d → tx_state (dr_tx d) = Idle ∨ tx_state (dr_tx d) = Poisoned →
  running (dr_tx d) ∧ dr_pending d = [] ∧
  agree (fs_frames (tx_frames (dr_tx d))) (em_pending (dr_emits d)) (em_marks (dr_emits d))
    (sv_savepoints (dr_server d)) ∧
  sv_changes (dr_server d) = em_pending (dr_emits d) ∧ frames_fit (dr_tx d) [] ∧ dr_late d = [].
Proof.
  intros (Hp & Hl & _) [Hs|Hs]; unfold phase, linked in *; rewrite Hs in Hp, Hl;
    destruct Hp as (Hr & Hps & _); rewrite Hps in Hl; naive_solver.
Qed.

Lemma good_open_frame d r' acts : good d → on_open_frame (dr_tx d) = Some (r', acts) → good (perform d r' acts).
Proof.
  intros Hg E. unfold on_open_frame in E. destruct (refuse_if_cleaning_up _); [still_good E|].
  destruct (admits_creator_sql _) eqn:Es; [|still_good E]. cbn [negb] in E. apply bool_decide_eq_true in Es.
  destruct (open_child _) as [[[id n] f]|e] eqn:Ef; [|still_good E]. injection E as <- <-.
  destruct (good_resting d) as (Hr & Hps & Ha & Hch & Hf & Hla); [done|by left|].
  unfold open_child in Ef. unfold frames_fit in Hf. destruct (fs_frames _) as [|f0 rest] eqn:Efs; [done|].
  destruct (negb _); [done|]. destruct (_ <? _)%Z; [done|]. injection Ef as <- <- <-.
  split; [|split; [|apply Hg]].
  - unfold phase. cbn. rewrite Hps. split; [exact Hr|]. split; [done|]. eexists. by split_and!.
  - unfold linked. cbn. split; [by constructor|]. split; [exact Hch|]. split; [|done]. unfold frames_fit. cbn.
    split; [|by rewrite Hps]. constructor; [by apply Hf|apply Hf].
Qed.

Lemma good_close_frame frame close d r' acts : good d → on_close_frame frame close (dr_tx d) = Some (r', acts) →
  good (perform d r' acts).
Proof.
  intros Hg E. unfold on_close_frame in E. destruct (refuse_if_cleaning_up _); [still_good E|].
  destruct (_ && _) eqn:Es; [still_good E|].
  assert (tx_state (dr_tx d) = Idle ∨ tx_state (dr_tx d) = Poisoned) as Hs.
  { apply andb_false_iff in Es as [Es|Es]; apply negb_false_iff in Es; [left|right; apply andb_true_iff in Es as [Es _]];
      by apply bool_decide_eq_true in Es. }
  clear Es. destruct (good_resting d) as (Hr & Hps & Ha & Hch & Hf & Hla); [done..|].
  unfold top in E. unfold frames_fit in Hf. destruct (fs_frames (tx_frames (dr_tx d))) as [|f rest] eqn:Efs; [done|]. cbn [hd_error] in E.
  destruct (negb _); [still_good E|]. destruct (is_root f); [still_good E|].
  apply bind_Some in E as (n & Hn & E). injection E as <- <-.
  fold (close_command close (tx_next_token (dr_tx d) + 1) n). rewrite (perform_close _ _ _ _ _ f rest) by done.
  split; [|split; [|apply Hg]].
  - unfold phase. cbn. rewrite Hps. split; [exact Hr|]. split; [done|]. eexists.
    split; [done|]. by destruct close.
  - unfold linked. cbn. rewrite Hps. split; [by rewrite Efs|]. split; [exact Hch|]. split; [|done].
    unfold frames_fit. cbn. rewrite Efs. destruct close; naive_solver.
Qed.

Lemma good_settle_requested intent now d r' acts : good d → on_settle_requested intent now (dr_tx d) = Some (r', acts) →
  good (perform d r' acts).
Proof.
  intros Hg E. unfold on_settle_requested in E. destruct (refuse_if_cleaning_up _); [still_good E|].
  assert (tx_state (dr_tx d) = Idle ∨ tx_state (dr_tx d) = Poisoned →
    begin_terminal intent now (dr_tx d) = (r', acts) → good (perform d r' acts)) as Hb.
  { intros Hs Eb. destruct (good_resting d) as (Hr & Hps & Ha & Hch & Hf & Hla); [done..|].
    assert (dr_published d = []) as Hpub by (apply good_unpublished; [done|by destruct Hs as [->| ->]]).
    apply (good_begin_terminal [] intent now (dr_tx d) d) in Eb; [|done..|by rewrite Hla, !app_nil_r].
    rewrite app_nil_r, <- (perform_late d r' acts), with_late_same in Eb. exact Eb. }
  destruct (tx_state (dr_tx d)) eqn:Es; try still_good E;
    [by injection E as E; apply Hb; [left|]
    | |case_bool_decide; still_good E
     |by injection E as E; apply Hb; [right|]
     |case_bool_decide; still_good E].
  injection E as <- <-. destruct Hg as (Hp & Hl & Ht). unfold phase, linked in *. rewrite Es in Hp, Hl.
  split; [|split; [|exact Ht]].
  - unfold phase. cbn. destruct Hp as (Hr & _ & Hp). split; [exact Hr|]. by split.
  - unfold linked. cbn. destruct Hl as (Ha & Hch & Hf & Hla). split; [exact Ha|]. split; [exact Hch|].
    split; [|done]. unfold frames_fit in *. cbn. destruct Hp as (_ & _ & p & Hps & Hc & _). rewrite Hps in *. by destruct p.
Qed.

Lemma good_deadline kind generation now d r' acts : good d → tx_state (dr_tx d) ≠ Settled →
  on_deadline_fired kind generation now (dr_tx d) = (r', acts) → good (perform d r' acts).
Proof.
  intros Hg Hs E. pose proof (good_unpublished _ Hg Hs) as Hpub. unfold on_deadline_fired in E.
  destruct (negb _) eqn:Ep; [still_good E|]. apply negb_false_iff in Ep. unfold claim_fire in E.
  destruct (tx_slot (dr_tx d)) as [|k g at_|] eqn:Esl; [still_good E| |still_good E].
  destruct (_ && _) eqn:Eg; [|still_good E].
  apply andb_true_iff in Eg as [->%bool_decide_eq_true ->%Z.eqb_eq]. destruct kind.
  - rewrite <- (app_nil_r acts). eapply forced_good; [|done|exact E|done].
    destruct (phase_forceable (dr_tx d) (dr_pending d)) as (? & _ & ?); [by rewrite Ep|apply Hg|].
    split; [done|]. split; [right; by eexists|done].
  - apply bool_decide_eq_true in Ep.
    eapply good_settled; [eapply settles_deadline; [by left|done]|exact E|done|done].
  - apply bool_decide_eq_true in Ep.
    eapply good_settled; [eapply settles_deadline; [by right|done]|exact E|done|done].
Qed.

Lemma good_request event now d d' : good d → is_request event = true → dispatch event now d = Some d' → good d'.
Proof.
  intros Hg Hr ([r' acts] & E & [= <-])%bind_Some. cbn [fst snd]. fold (perform d r' acts).
  unfold tx_apply in E. destruct (match event_authority event with Some _ => _ | None => _ end); [still_good E|].
  case_bool_decide as Hs; [destruct (is_late_force event); still_good E|].
  destruct event; try done; try injection E as E.
  - by eapply good_verdict.
  - by apply good_operation_requested.
  - by apply good_open_frame.
  - by eapply good_close_frame.
  - by eapply good_settle_requested.
  - rewrite <- (app_nil_r acts). by eapply good_forced.
  - rewrite <- (app_nil_r acts). by eapply good_forced.
  - by eapply good_deadline.
Qed.

(** ** Answers *)

(** What the answer to a statement leaves alone. *)
Lemma answered_keeps d p effects event d1 : answered d p effects event d1 →
  dr_tx d1 = dr_tx d ∧ dr_pending d1 = dr_pending d ∧
  (dr_published d1 = dr_published d ∧ dr_late d1 = dr_late d) ∧
  event_authority event = None ∧ is_request event = false.
Proof. intros []; try done; by (destruct outcome || case_bool_decide). Qed.

Lemma one_in_flight (x p : Pending) before after : [x] = before ++ p :: after → x = p ∧ before ++ after = [].
Proof. destruct before as [|? []]; cbn; [|done..]. by intros [= <- <-]. Qed.

Lemma queue_events_nil d : queue_events [] d = d.
Proof.
  unfold queue_events. rewrite app_nil_r, with_late_same. destruct (tx_state _); try done. by destruct d.
Qed.

(** A late answer to a transaction that has ended. *)
Lemma good_late effects event d p before after d1 : good d → tx_state (dr_tx d) = Settled →
  dr_pending d = before ++ p :: after → answered (with_pending (before ++ after) d) p effects event d1 →
  good (with_emits (dr_emits d) d1).
Proof.
  intros (Hp & _ & Ht) Hs Hps (Htx & Hps1 & [Hpub Hla] & _)%answered_keeps. cbn in *.
  unfold good, phase, linked, truthful in *. cbn. rewrite Htx, Hs in *. destruct Hp as (Hd & Ho & Hc).
  assert (tx_outcome (dr_tx d) ≠ Some Committed) as Hn. { intros Hk. rewrite Hc in Hps by done. by destruct before. }
  rewrite bool_decide_eq_false_2 in * by done. split; [done|]. by rewrite Hpub.
Qed.

(** An answer that reaches a transaction under cleanup: the one to a statement of the
    creator is swallowed, the one to the cancellation ends it. *)
Lemma cancelling_answer event now r r' acts : tx_state r = Cancelling → event_authority event = None →
  is_request event = false → (∀ t ack, event ≠ CancellationAcknowledged t ack) →
  tx_apply event now r = Some (r', acts) →
  (r' = r ∨ r' = set_session OwnedByRegistry (set_active None r)) ∧ Forall is_refusal acts.
Proof.
  intros Hs Hau Hreq Hne E.
  assert (∀ x, command_returned_during_cleanup r = Some x →
    (x.1 = r ∨ x.1 = set_session OwnedByRegistry (set_active None r)) ∧ Forall is_refusal x.2) as Hret.
  { unfold command_returned_during_cleanup. intros x (l & _ & [= <-])%bind_Some. split; [by right|]. by repeat econstructor. }
  unfold tx_apply in E. rewrite Hau, bool_decide_eq_false_2 in E by congruence.
  destruct event; try done; [..|naive_solver];
    unfold on_begin_completed, on_operation_completed, on_open_frame_completed, on_close_frame_completed,
      on_terminal_completed in E; rewrite ?Hs in E;
    (destruct (negb _); [injection E as <- <-; split; [by left|by repeat econstructor]|]);
    first [by apply (Hret (_, _))|injection E as <- <-; split; [by left|by repeat econstructor]].
Qed.

Lemma good_acknowledged token ack now d r' acts :
  tx_state (dr_tx d) = Cancelling → tx_cleanup (dr_tx d) ≠ None → tx_cancellation_token (dr_tx d) = Some token →
  dr_published d = [] → tx_apply (CancellationAcknowledged token ack) now (dr_tx d) = Some (r', acts) →
  good (perform d r' acts).
Proof.
  intros Hs Hc Ht Hpub E. unfold tx_apply in E. cbn [event_authority] in E.
  rewrite bool_decide_eq_false_2 in E by congruence. unfold on_cancellation_acknowledged in E.
  rewrite !bool_decide_eq_true_2 in E by done. cbn [negb] in E. apply bind_Some in E as (l & Hl & E). injection E as E.
  eapply good_settled; [by apply (settles_cleanup (dr_tx d) token ack l)| |done|by destruct (is_proved_by _ _)].
  destruct (is_proved_by _ _); exact E.
Qed.

Lemma in_flight_cases (q c p : Pending) before after : [q; c] = before ++ p :: after →
  p = q ∧ before ++ after = [c] ∨ p = c ∧ before ++ after = [q].
Proof.
  destruct before as [|? [|? []]]; cbn; intros E; simplify_eq/=; [by left|by right].
Qed.

Lemma good_answer_cancelling effects event now d p before after d1 r' acts : good d → tx_state (dr_tx d) = Cancelling →
  dr_pending d = before ++ p :: after → answered (with_pending (before ++ after) d) p effects event d1 →
  tx_apply event now (dr_tx d1) = Some (r', acts) → good (queue_events effects (perform d1 r' acts)).
Proof.
  intros Hg Hs Hps Ha E. assert (dr_published d = []) as Hpub by (apply good_unpublished; [done|congruence]).
  destruct Hg as (Hp & _ & Ht). unfold phase in Hp. rewrite Hs in Hp.
  destruct Hp as ((g & t & Hsl) & Hc & Hpr & Ho & ct & goal & live & Hct & Hlive & Hl).
  pose proof Ha as (Htx & Hps1 & [Hpub1 Hla1] & Hau & Hreq)%answered_keeps. cbn in Htx, Hps1, Hpub1, Hla1.
  assert (p = PCancellation ct goal ∨ before ++ after = [PCancellation ct goal] ∧
    (creator_command p ∨ p = PBegin (pending_token p))) as [->|[Hrest Hlp]].
  { rewrite Hlive in Hps. destruct Hl as [->|(q & -> & _ & Hq)]; [left; by apply one_in_flight in Hps as [? _]|].
    apply in_flight_cases in Hps as [[-> ?]|[-> _]]; [by right|by left]. }
  - inversion Ha; subst. rewrite queue_events_nil. eapply good_acknowledged; [done..|exact E].
  - rewrite Htx in E. apply cancelling_answer in E as [Hr' Hrf]; [|done..|].
    2: { intros t' ack ->. inversion Ha; subst. cbn in Hlp. naive_solver. }
    rewrite perform_refusals by done. unfold queue_events.
    assert (tx_state r' = Cancelling) as Hs' by (by destruct Hr' as [->| ->]).
    cbn [dr_tx with_tx]. rewrite Hs'. unfold good, phase, linked, truthful. cbn. rewrite Hps1, Hpub1, Hpub.
    destruct Hr' as [->| ->]; cbn; rewrite Hs, Ho; (split; [|by split]); (split; [by eauto|]);
      split_and!; try done; exists ct, goal, []; rewrite Hrest; by split_and!; [..|left].
Qed.

(** The answer to [BEGIN]. *)
Lemma good_answer_starting effects event now d p before after d1 r' acts : good d → tx_state (dr_tx d) = Starting →
  dr_pending d = before ++ p :: after → answered (with_pending (before ++ after) d) p effects event d1 →
  tx_apply event now (dr_tx d1) = Some (r', acts) → good (queue_events effects (perform d1 r' acts)).
Proof.
  intros Hg Hs Hps Ha E. assert (dr_published d = []) as Hpub by (apply good_unpublished; [done|congruence]).
  pose proof Ha as (Htx & Hps1 & [Hpub1 Hla1] & Hau & Hreq)%answered_keeps. cbn in Htx, Hps1, Hpub1, Hla1. rewrite Htx in E.
  destruct Hg as (Hp & Hl & Ht). unfold phase, linked in *. rewrite Hs in Hp, Hl.
  destruct Hp as (((g & t & Hsl) & Hc & Hpr & Ho) & token & Hp & Hact), Hl as (Hf & Hem & Hla).
  rewrite Hp in Hps. apply one_in_flight in Hps as [<- Hrest]. rewrite Hrest in *.
  inversion Ha as [? outcome| | | | | | | | | |]; subst. rewrite queue_events_nil. unfold tx_apply in E. cbn [event_authority] in E.
  rewrite bool_decide_eq_false_2 in E by congruence. unfold on_begin_completed, check_token in E.
  rewrite !bool_decide_eq_true_2 in E by done. cbn [negb] in E. injection E as E.
  assert (forceable (set_active None (dr_tx d)) []) as Hfo.
  { split; [by cbn; rewrite Hs|]. split; [left; by eauto|]. by split_and!; [..|left]. }
  destruct outcome as [generation| | |reason|].
  - injection E as <- <-. split; [|split].
    + unfold phase. cbn. by split; [split; [eauto|]|].
    + unfold linked. cbn. unfold frames_fit. cbn. rewrite Hem, Hf. cbn.
      destruct begin_fresh as [-> ->]. split; [constructor|]. split; [done|]. split; [|done].
      by split_and!; [constructor|done|].
    + unfold truthful. cbn. by rewrite Ho.
  - rewrite <- (app_nil_r acts). by eapply forced_good.
  - unfold on_verdict in E. destruct (forced _ _ _) as [r1 a1] eqn:Ef. injection E as <- <-.
    eapply forced_good; [done..|by repeat econstructor].
  - unfold on_verdict in E. destruct (forced _ _ _) as [r1 a1] eqn:Ef. injection E as <- <-.
    eapply forced_good; [done..|by repeat econstructor].
  - rewrite <- (app_nil_r acts). by eapply forced_good.
Qed.

(** The answer to [COMMIT] or [ROLLBACK]. *)
Lemma good_answer_settling effects event now d p before after d1 r' acts : good d → tx_state (dr_tx d) = Settling →
  dr_pending d = before ++ p :: after → answered (with_pending (before ++ after) d) p effects event d1 →
  tx_apply event now (dr_tx d1) = Some (r', acts) → good (queue_events effects (perform d1 r' acts)).
Proof.
  intros Hg Hs Hps Ha E. assert (dr_published d = []) as Hpub by (apply good_unpublished; [done|congruence]).
  pose proof Ha as (Htx & Hps1 & [Hpub1 Hla1] & Hau & Hreq)%answered_keeps. cbn in Htx, Hps1, Hpub1, Hla1. rewrite Htx in E.
  destruct Hg as (Hp & Hl & Ht). unfold phase, linked in *. rewrite Hs in Hp, Hl.
  destruct Hp as (_ & _ & _ & _ & token & command & intent & Hp & Hact & _ & Hi). rename Hl into Hch.
  rewrite Hp in Hps. apply one_in_flight in Hps as [<- Hrest]. rewrite Hrest in *.
  inversion Ha as [| | | | | | | | |? ? result Hcom|]; subst. rewrite queue_events_nil. unfold tx_apply in E. cbn [event_authority] in E.
  rewrite bool_decide_eq_false_2 in E by congruence.
  unfold on_terminal_completed, check_token in E. rewrite !bool_decide_eq_true_2 in E by done. cbn [negb] in E.
  apply bind_Some in E as (i & Hi' & E). injection E as E.
  eapply good_settled; [by apply (settles_terminal (dr_tx d) token result i)|by destruct i, result; exact E| |].
  - by case_bool_decide.
  - intros Ho. assert (result = TerminalCommitted) as -> by (by destruct i, result). cbn. by rewrite Hch.
Qed.

(** ** Answers to the creator's statements *)

(** An answer that leaves an idle or poisoned transaction. *)
Lemma good_rests state r d :
  running r → tx_active r = None → tx_session r = OwnedByRegistry → tx_state r = state →
  state = Idle ∨ state = Poisoned → dr_published d = [] → dr_late d = [] → dr_pending d = [] →
  agree (fs_frames (tx_frames r)) (em_pending (dr_emits d)) (em_marks (dr_emits d)) (sv_savepoints (dr_server d)) →
  sv_changes (dr_server d) = em_pending (dr_emits d) → frames_fit r [] → good (with_tx r d).
Proof.
  intros Hr Ha Hse Hs Hst Hpub Hla Hps Hag Hch Hf. unfold good, phase, linked, truthful. cbn.
  rewrite Hs, Hps, Hpub, Hla. destruct Hr as (? & ? & ? & Ho). rewrite Ho.
  destruct Hst as [->| ->]; (split; [|by split_and!]); by split; [|split_and!].
Qed.

Lemma agree_parent p f es marks sps rest : agree (f :: p :: rest) es marks sps → is_open p →
  fr_status f ≠ FrameOpening → ∃ below mark marks' n sps', marks = mark :: marks' ∧ sps = (n, below) :: sps' ∧
    fr_savepoint f = Some n ∧ mark = length below ∧
    agree (mk_frame (fr_id p) (fr_savepoint p) (fr_status p) (fr_effects p ++ fr_effects f) :: rest) es marks' sps'.
Proof.
  intros Ha Hp Hf. inversion Ha as [|? ? ? ? ? ? ? Ha'|? ? ? ? ? below own marks' sps' Hst Ha']; subst; [done|].
  exists below, (length below), marks', n, sps'. split_and!; try done.
  inversion Ha' as [|? ? ? ? ? ? ? Ha''|? ? ? ? ? below' own' marks'' sps'' Hst' Ha'']; subst; [constructor|done|].
  cbn. rewrite <- (app_assoc below'). by constructor.
Qed.

(** What is queued last belongs to the innermost frame. *)
Lemma agree_grows f rest es marks sps effects : agree (f :: rest) es marks sps → fr_status f ≠ FrameOpening →
  agree (f :: rest) (es ++ effects) marks sps.
Proof.
  intros Ha Hf. inversion Ha as [|? ? ? ? ? ? ? Ha'|? ? ? ? ? below own marks' sps' Hst Ha']; subst; [constructor|done|].
  rewrite <- app_assoc. by constructor.
Qed.

Lemma writes_spec effects srv : sv_changes (writes effects srv) = sv_changes srv ++ effects ∧
  sv_savepoints (writes effects srv) = sv_savepoints srv.
Proof.
  unfold writes. revert srv. induction effects as [|e effects IH]; intros srv; cbn; [by rewrite app_nil_r|].
  destruct (IH (sv_write e srv)) as [-> ->]. destruct (write_appends e srv) as [-> ->]. by rewrite <- app_assoc.
Qed.

Lemma queues_spec effects em : queues effects em = mk_emits (em_pending em ++ effects) (em_marks em).
Proof.
  unfold queues. revert em. induction effects as [|e effects IH]; intros em; cbn; [rewrite app_nil_r; by destruct em|].
  rewrite IH. cbn. by rewrite <- app_assoc.
Qed.

(** A transaction whose statement [p] has just been answered. *)
Record landing (d : Drive) (p : Pending) : Prop := {
  ld_state : tx_state (dr_tx d) = InFlight ∨ tx_state (dr_tx d) = Quiescing;
  ld_running : running (dr_tx d);
  ld_intent : tx_state (dr_tx d) = Quiescing → tx_settle_intent (dr_tx d) ≠ None;
  ld_active : tx_active (dr_tx d) = Some (pending_token p);
  ld_alone : dr_pending d = [];
  ld_unpublished : dr_published d = [] ∧ dr_late d = [];
  ld_agree : agree (fs_frames (tx_frames (dr_tx d))) (em_pending (dr_emits d)) (em_marks (dr_emits d))
               (sv_savepoints (dr_server d));
  ld_changes : sv_changes (dr_server d) = em_pending (dr_emits d);
  ld_frames : frames_fit (dr_tx d) [p]
}.

Lemma landing_not_cancelling d p : landing d p → tx_state (dr_tx d) ≠ Cancelling ∧ tx_state (dr_tx d) ≠ Settled.
Proof. intros [[->| ->]]; done. Qed.

(** The reducer once the session is back. *)
Definition returned (state : TxState) (r : TxReducer) : TxReducer :=
  set_state state (set_session OwnedByRegistry (set_active None r)).

Lemma good_landed state f r d : running r → state = Idle ∨ state = Poisoned →
  dr_published d = [] ∧ dr_late d = [] → dr_pending d = [] →
  agree (fs_frames f) (em_pending (dr_emits d)) (em_marks (dr_emits d)) (sv_savepoints (dr_server d)) →
  sv_changes (dr_server d) = em_pending (dr_emits d) → frames_fit (set_frames f (returned state r)) [] →
  good (with_tx (set_frames f (returned state r)) d).
Proof. intros Hr Hst [Hpub Hla] Hps Ha Hch Hf. by eapply (good_rests state). Qed.

(** What an operation that returned leaves of the reducer. *)
Lemma operation_returns token errored now d r' acts : landing d (POperation token) →
  on_operation_completed token errored now (dr_tx d) = Some (r', acts) →
  let r := returned (if errored then Poisoned else Idle) (dr_tx d) in
  tx_state (dr_tx d) = InFlight ∧ r' = r ∧ (∃ x, acts = [Reply x]) ∨
  tx_state (dr_tx d) = Quiescing ∧
    ∃ intent x acts', begin_terminal intent now r = (r', acts') ∧ acts = Reply x :: acts'.
Proof.
  intros [Hs Hr Hi Ha Hps Hpub Hag Hch Hf] E. unfold on_operation_completed, check_token in E.
  rewrite bool_decide_eq_true_2, bool_decide_eq_false_2 in E by (done || by destruct Hs as [->| ->]). cbn [negb] in E.
  fold (returned (if errored then Poisoned else Idle) (dr_tx d)) in E.
  case_bool_decide as Hq; [right|left; injection E as <- <-; destruct Hs as [Hs|]; [by eauto|done]].
  apply bind_Some in E as (intent & Hin & E). destruct (begin_terminal _ _ _) as [r1 a1] eqn:Eb.
  injection E as <- <-. eauto 10.
Qed.

Lemma land_operation token effects now d r' acts : landing d (POperation token) →
  on_operation_completed token false now (dr_tx d) = Some (r', acts) →
  good (queue_events effects (perform (with_server (writes effects (dr_server d)) d) r' acts)).
Proof.
  intros Hld E. apply operation_returns in E; [|done]. destruct Hld as [Hs Hr Hi Ha Hps [Hpub Hla] Hag Hch Hf].
  destruct (writes_spec effects (dr_server d)) as [Hw Hsp].
  destruct E as [(_ & -> & x & ->)|(_ & intent & x & acts' & Eb & ->)].
  - rewrite perform_reply. unfold queue_events, perform. cbn [foldl dr_tx with_tx tx_state returned set_state].
    unfold frames_fit in Hf. destruct (fs_frames (tx_frames (dr_tx d))) as [|f rest] eqn:Efs; [done|].
    set (em := queues _ _). apply (good_rests Idle _ (with_emits em (with_server (writes effects (dr_server d)) d)));
      try done; [by left|..]; unfold em; cbn; rewrite ?queues_spec; cbn.
    + rewrite Hsp, Efs. apply agree_grows; [done|]. destruct Hf as [_ ->]. done.
    + by rewrite Hw, Hch.
    + unfold frames_fit. cbn. rewrite Efs. destruct Hf as [? Hf]. unfold is_open in *. by rewrite Hf.
  - rewrite perform_reply. assert (tx_state r' = Settling) as Hst by (by apply begin_terminal_spec in Eb as [-> _]).
    unfold queue_events. rewrite perform_tx, Hst, perform_late.
    apply (good_begin_terminal effects intent now (returned Idle (dr_tx d))
      (with_server (writes effects (dr_server d)) d)); [done|done|done| |exact Eb].
    cbn. by rewrite Hw, Hch, Hla.
Qed.

Lemma land_operation_failed token now d r' acts : landing d (POperation token) →
  on_operation_completed token true now (dr_tx d) = Some (r', acts) → good (perform d r' acts).
Proof.
  intros Hld E. apply operation_returns in E; [|done]. destruct Hld as [Hs Hr Hi Ha Hps [Hpub Hla] Hag Hch Hf].
  destruct E as [(_ & -> & x & ->)|(_ & intent & x & acts' & Eb & ->)]; rewrite perform_reply.
  - apply (good_rests Poisoned); try done; [by right|]. unfold frames_fit in *. cbn.
    destruct (fs_frames _) as [|f rest]; [done|]. destruct Hf as [? Hf]. unfold is_open in *. by rewrite Hf.
  - apply (good_begin_terminal [] intent now (returned Poisoned (dr_tx d)) d) in Eb; [|done..|by rewrite Hla, !app_nil_r].
    by rewrite app_nil_r, <- (perform_late d r' acts'), with_late_same in Eb.
Qed.

Lemma land_savepoint token frame name d r' acts : landing d (PSavepoint token frame name) →
  on_open_frame_completed token frame true (dr_tx d) = Some (r', acts) →
  good (perform (with_emits (push_frame_emit_mark (dr_emits d)) (with_server (sv_savepoint name (dr_server d)) d)) r' acts).
Proof.
  intros [Hs Hr Hi Ha Hps Hpub Hag Hch Hf] E. unfold on_open_frame_completed, check_token in E.
  rewrite bool_decide_eq_true_2, bool_decide_eq_false_2 in E by (done || by destruct Hs as [->| ->]). cbn [negb] in E.
  unfold frames_fit in Hf. destruct (fs_frames (tx_frames (dr_tx d))) as [|f rest] eqn:Efs; [done|].
  destruct Hf as (Hrest & Hid & Hn & Hst). unfold frames_or_same, confirm_child_open in E. cbn [tx_frames set_session set_active] in E.
  rewrite Efs, Hid, Z.eqb_refl in E. cbn [negb] in E. injection E as <- <-.
  destruct (savepoint_pushes name (dr_server d)) as [Hch' Hsp'].
  set (d' := with_emits _ _). eapply (good_landed Idle _ (dr_tx d) d'); [done|by left|done|done|..].
  - cbn. rewrite Hsp', Hch. inversion Hag; subst; [done| |done]. cbn.
    rewrite <- (app_nil_r (em_pending _)) at 1. simplify_eq/=. by constructor.
  - cbn. by rewrite Hch'.
  - unfold frames_fit. cbn. by split_and!.
Qed.

Lemma land_savepoint_failed token frame name d r' acts : landing d (PSavepoint token frame name) →
  on_open_frame_completed token frame false (dr_tx d) = Some (r', acts) → good (perform d r' acts).
Proof.
  intros [Hs Hr Hi Ha Hps Hpub Hag Hch Hf] E. unfold on_open_frame_completed, check_token in E.
  rewrite bool_decide_eq_true_2, bool_decide_eq_false_2 in E by (done || by destruct Hs as [->| ->]). cbn [negb] in E.
  unfold frames_fit in Hf. destruct (fs_frames (tx_frames (dr_tx d))) as [|f rest] eqn:Efs; [done|].
  destruct Hf as (Hrest & Hid & Hn & Hst). unfold frames_or_same, abandon_opening_child in E.
  cbn [tx_frames set_session set_active] in E. rewrite Efs, Hid, Z.eqb_refl in E. unfold is_root in E.
  rewrite Hn in E. injection E as <- <-.
  eapply (good_landed Poisoned _ (dr_tx d) d); [done|by right|done|done| |done|].
  - inversion Hag; by subst.
  - unfold frames_fit. cbn. inversion Hag as [|? ? ? ? ? ? ? Hag'|]; subst; [done| |done].
    destruct rest as [|p rest]; [inversion Hag'|]. inversion Hrest as [|? ? Hp]. split; [done|]. by rewrite Hp.
Qed.

Lemma land_close_failed token frame close p d r' acts : landing d p → pending_token p = token →
  (∃ n, p = close_pending close token frame n) →
  on_close_frame_completed token frame close false (dr_tx d) = Some (r', acts) → good (perform d r' acts).
Proof.
  intros [Hs Hr Hi Ha Hps Hpub Hag Hch Hf] Ht (n & ->) E. unfold on_close_frame_completed, check_token in E.
  rewrite Ht in Ha.
  rewrite bool_decide_eq_true_2, bool_decide_eq_false_2 in E by (done || by destruct Hs as [->| ->]). cbn [negb] in E.
  injection E as <- <-.
  apply (good_landed Poisoned (tx_frames (dr_tx d)) (dr_tx d) d); [done|by right|done|done|done|done|].
  unfold frames_fit in *. cbn. destruct (fs_frames _) as [|f rest]; [done|]. destruct close; naive_solver.
Qed.

Lemma land_release token frame name server d r' acts : landing d (PRelease token frame name) →
  sv_release name (dr_server d) = Some server →
  on_close_frame_completed token frame Released true (dr_tx d) = Some (r', acts) →
  good (perform (with_emits (pop_frame_emit_mark (dr_emits d)) (with_server server d)) r' acts).
Proof.
  intros [Hs Hr Hi Ha Hps Hpub Hag Hch Hf] Hsv E. unfold on_close_frame_completed, check_token in E.
  rewrite bool_decide_eq_true_2, bool_decide_eq_false_2 in E by (done || by destruct Hs as [->| ->]). cbn [negb] in E.
  unfold frames_fit in Hf. destruct (fs_frames (tx_frames (dr_tx d))) as [|f rest] eqn:Efs; [done|].
  destruct Hf as (Hrest & Hid & Hn & Hst).
  destruct rest as [|p rest]. { exfalso. inversion Hag as [|? ? ? ? ? ? ? Hag'|? ? ? ? ? ? ? ? ? ? Hag']; subst; [done|inversion Hag'..]. }
  inversion Hrest as [|? ? Hp Hrest']; subst.
  apply agree_parent in Hag as (below & mark & marks' & n & sps' & Hmk & Hsp & Hn' & -> & Hag); [|done..].
  assert (n = name) as -> by congruence. edestruct (release_latest name (dr_server d) [] below sps')
    as (server' & Hsv' & Hch' & Hsp'); [exact Hsp|by intros ?%not_elem_of_nil|].
  assert (server' = server) as -> by congruence.
  unfold close_top in E. cbn [tx_frames set_session set_active] in E. rewrite Efs, Z.eqb_refl in E.
  unfold is_root in E. rewrite Hn in E. cbn in E. injection E as <- <-.
  set (d' := with_emits _ _). eapply (good_landed Idle _ (dr_tx d) d'); [done|by left|done|done| | |].
  - cbn. by rewrite Hmk, Hsp'.
  - cbn. by rewrite Hch'.
  - unfold frames_fit. cbn. unfold is_open in Hp |- *. cbn. rewrite Hp. by split_and!.
Qed.

Lemma land_rollback_to token frame name server d r' acts : landing d (PRollbackTo token frame name) →
  sv_rollback_to name (dr_server d) = Some server →
  on_close_frame_completed token frame RolledBackTo true (dr_tx d) = Some (r', acts) →
  good (perform (with_emits (discard_frame_effects (dr_emits d)) (with_server server d)) r' acts).
Proof.
  intros [Hs Hr Hi Ha Hps Hpub Hag Hch Hf] Hsv E. unfold on_close_frame_completed, check_token in E.
  rewrite bool_decide_eq_true_2, bool_decide_eq_false_2 in E by (done || by destruct Hs as [->| ->]). cbn [negb] in E.
  unfold frames_fit in Hf. destruct (fs_frames (tx_frames (dr_tx d))) as [|f rest] eqn:Efs; [done|].
  destruct Hf as (Hrest & Hid & Hn & Hst).
  assert (∃ below marks' sps', em_marks (dr_emits d) = length below :: marks' ∧
    sv_savepoints (dr_server d) = (name, below) :: sps' ∧ (∃ own, em_pending (dr_emits d) = below ++ own) ∧
    agree rest below marks' sps') as (below & marks' & sps' & Hmk & Hsp & (own & Hes) & Hag').
  { inversion Hag as [|? ? ? ? ? ? ? Hag'|? ? ? ? ? below own marks' sps' Hst' Hag']; subst; [done|done|].
    injection Hn as ->. eauto 10. }
  edestruct (rollback_to_latest name (dr_server d) [] below sps')
    as (server' & Hsv' & Hch' & Hsp'); [exact Hsp|by intros ?%not_elem_of_nil|].
  assert (server' = server) as -> by congruence.
  unfold frames_or_same, mark_rolled_back in E. cbn [tx_frames set_session set_active] in E.
  rewrite Efs, Hid, Z.eqb_refl in E. unfold is_root in E. rewrite Hn in E. cbn in E. injection E as <- <-.
  fold (close_command Released (tx_next_token (dr_tx d) + 1) name). erewrite perform_close by reflexivity.
  assert (discard_frame_effects (dr_emits d) = mk_emits below (length below :: marks')) as Hdis.
  { unfold discard_frame_effects. rewrite Hmk, Hes, (proj2 (Nat.leb_le _ _)) by (rewrite length_app; lia).
    by rewrite take_app_length. }
  unfold good, phase, linked. cbn. rewrite Hps, Hdis. cbn. split; [|split].
  - split; [exact Hr|]. split; [done|]. eexists. by split_and!.
  - rewrite Hsp', Hch'. split; [|split; [done|]].
    + rewrite <- (app_nil_r below) at 1. by constructor.
    + destruct Hpub as [_ Hla]. split; [|done]. unfold frames_fit. cbn. by split_and!.
  - unfold truthful. cbn. destruct Hr as (_ & _ & _ & ->). cbn. apply Hpub.
Qed.

Lemma good_landing d p before after : good d →
  tx_state (dr_tx d) = InFlight ∨ tx_state (dr_tx d) = Quiescing → dr_pending d = before ++ p :: after →
  landing (with_pending (before ++ after) d) p ∧ creator_command p.
Proof.
  intros Hg Hs Hps.
  assert (dr_published d = []) as Hpub by (apply good_unpublished; [done|by destruct Hs as [->| ->]]).
  destruct Hg as (Hp & Hl & _). unfold phase, linked in Hp, Hl.
  assert (running (dr_tx d) ∧ (tx_state (dr_tx d) = Quiescing → tx_settle_intent (dr_tx d) ≠ None) ∧
    ∃ q, dr_pending d = [q] ∧ creator_command q ∧ tx_active (dr_tx d) = Some (pending_token q))
    as (Hr & Hi & q & Hq & Hc & Hact) by (destruct Hs as [Hs|Hs]; rewrite Hs in Hp |- *; naive_solver).
  assert (agree (fs_frames (tx_frames (dr_tx d))) (em_pending (dr_emits d)) (em_marks (dr_emits d))
      (sv_savepoints (dr_server d)) ∧ sv_changes (dr_server d) = em_pending (dr_emits d) ∧
      frames_fit (dr_tx d) [q] ∧ dr_late d = []) as (Hag & Hch & Hf & Hla)
    by (rewrite <- Hq; destruct Hs as [Hs|Hs]; rewrite Hs in Hl; exact Hl).
  rewrite Hq in Hps. apply one_in_flight in Hps as [<- ->]. split; [by split|done].
Qed.

Lemma good_answer_flight effects event now d p before after d1 r' acts : good d →
  tx_state (dr_tx d) = InFlight ∨ tx_state (dr_tx d) = Quiescing →
  dr_pending d = before ++ p :: after → answered (with_pending (before ++ after) d) p effects event d1 →
  tx_apply event now (dr_tx d1) = Some (r', acts) → good (queue_events effects (perform d1 r' acts)).
Proof.
  intros Hg Hs Hps Ha E.
  pose proof Ha as (Htx & _ & _ & Hau & _)%answered_keeps. cbn in Htx. rewrite Htx in E. unfold tx_apply in E.
  rewrite Hau, bool_decide_eq_false_2 in E by (by destruct Hs as [->| ->]).
  destruct (good_landing d p before after) as [Hld Hcr]; [done..|].
  destruct Ha as [| | |? ? ? ? Hsv|? ? ? ? Hsv| | | | | |]; try done; rewrite ?queue_events_nil.
  - by eapply (land_operation _ _ _ _ _ _ Hld).
  - by eapply (land_savepoint _ _ _ _ _ _ Hld).
  - by eapply (land_rollback_to _ _ _ _ _ _ _ Hld).
  - by eapply (land_release _ _ _ _ _ _ _ Hld).
  - by eapply (land_operation_failed _ _ _ _ _ Hld).
  - by eapply (land_savepoint_failed _ _ _ _ _ _ Hld).
  - by apply (land_close_failed token frame RolledBackTo _ _ _ _ Hld); eauto.
  - by apply (land_close_failed token frame Released _ _ _ _ Hld); eauto.
Qed.

Lemma good_answer effects event now d p before after d1 d' : good d → tx_state (dr_tx d) ≠ Settled →
  dr_pending d = before ++ p :: after →
  answered (with_pending (before ++ after) d) p effects event d1 → dispatch event now d1 = Some d' →
  good (queue_events effects d').
Proof.
  intros Hg Hns Hps Ha ([r' acts] & E & [= <-])%bind_Some. cbn [fst snd]. fold (perform d1 r' acts).
  assert (dr_pending d ≠ []) as Hne by (rewrite Hps; by destruct before).
  pose proof Hg as [Hp _]. unfold phase in Hp. destruct (tx_state (dr_tx d)) eqn:Es.
  - naive_solver.
  - by eapply good_answer_starting.
  - naive_solver.
  - eapply good_answer_flight; [done|by left|done..].
  - eapply good_answer_flight; [done|by right|done..].
  - naive_solver.
  - by eapply good_answer_cancelling.
  - by eapply good_answer_settling.
  - done.
Qed.

Lemma driven_good allowed d : driven allowed d → good d.
Proof.
  induction 1 as [expected budgets now max_depth d E|d d' _ IH Hstep]; [by eapply good_admit|].
  destruct Hstep; [by eapply good_request|by eapply good_answer|by eapply good_late].
Qed.

(** ** Nothing panics *)

Lemma close_frame_total frame close r : is_Some (on_close_frame frame close r).
Proof.
  unfold on_close_frame. destruct (refuse_if_cleaning_up r); [by eexists|]. destruct (_ && _); [by eexists|].
  destruct (top _) as [f|]; [|by eexists]. destruct (negb _); [by eexists|].
  destruct (is_root f) eqn:Er; [by eexists|]. unfold is_root in Er. apply bool_decide_eq_false in Er.
  destruct (fr_savepoint f); [by eexists|done].
Qed.

Lemma request_total event now r : is_request event = true → is_Some (tx_apply event now r).
Proof.
  intros He. unfold tx_apply. destruct (match event_authority event with Some _ => _ | None => _ end); [by eexists|].
  case_bool_decide; [by destruct (is_late_force event); eexists|]. destruct event; try done; try by eexists.
  - unfold on_operation_requested. repeat case_match; by eexists.
  - unfold on_open_frame. repeat case_match; by eexists.
  - apply close_frame_total.
  - unfold on_settle_requested. repeat case_match; by eexists.
Qed.

Lemma returned_total r : tx_cleanup r ≠ None → is_Some (command_returned_during_cleanup r).
Proof. unfold command_returned_during_cleanup. cbn. destruct (tx_cleanup r); [by eexists|done]. Qed.

(** The answer to a frame command finds the frame it closes. *)
Lemma landing_close_total token frame close ok p d : landing d p → (∃ n, p = close_pending close token frame n) →
  is_Some (on_close_frame_completed token frame close ok (dr_tx d)).
Proof.
  intros [Hs Hr Hi Ha Hps Hpub Hag Hch Hf] (n & ->). unfold on_close_frame_completed.
  destruct (negb _); [by eexists|]. rewrite bool_decide_eq_false_2 by (by destruct Hs as [->| ->]).
  destruct (negb ok); [by eexists|]. unfold frames_fit in Hf.
  destruct (fs_frames (tx_frames (dr_tx d))) as [|f rest] eqn:Efs; [done|].
  assert (fr_id f = frame ∧ fr_savepoint f = Some n) as [Hid Hn] by (destruct close; naive_solver).
  unfold close_top, mark_rolled_back, top, is_root. destruct close; cbn.
  - rewrite Efs, Hid, Z.eqb_refl, Hn. cbn. destruct rest as [|p rest]; [|by eexists].
    inversion Hag as [|? ? ? ? ? ? ? Hag'|? ? ? ? ? ? ? ? ? ? Hag']; subst; [done|inversion Hag'..].
  - rewrite Efs, Hid, Z.eqb_refl, Hn. cbn. by eexists.
Qed.

Lemma landing_operation_total token errored now d p : landing d p →
  bool_decide (tx_state (dr_tx d) = Cancelling) = false →
  is_Some (on_operation_completed token errored now (dr_tx d)).
Proof.
  intros Hld Hnc.
  unfold on_operation_completed. destruct (negb _); [by eexists|]. rewrite Hnc.
  destruct (bool_decide (tx_state (dr_tx d) = Quiescing)) eqn:Hq; cbn; [|by eexists].
  apply bool_decide_eq_true in Hq. destruct (tx_settle_intent (dr_tx d)) eqn:Hi; cbn.
  - destruct (begin_terminal _ _ _). by eexists.
  - by apply (ld_intent _ _ Hld) in Hq.
Qed.

Lemma landing_total effects event now d p d1 : landing d p → answered d p effects event d1 → is_Some (tx_apply event now (dr_tx d)).
Proof.
  intros Hld Ha. pose proof Ha as (_ & _ & _ & Hau & _)%answered_keeps. unfold tx_apply.
  rewrite Hau, bool_decide_eq_false_2 by (by apply landing_not_cancelling in Hld as []).
  assert (bool_decide (tx_state (dr_tx d) = Cancelling) = false) as Hnc
    by (apply bool_decide_eq_false_2; by apply landing_not_cancelling in Hld as []).
  destruct Ha; try (by eapply landing_close_total; [done|eexists]).
  - unfold on_begin_completed. repeat (destruct (negb _); [by eexists|]). by eexists.
  - by eapply landing_operation_total.
  - unfold on_open_frame_completed. destruct (negb _); [by eexists|]. rewrite Hnc. by eexists.
  - by eapply landing_operation_total.
  - unfold on_open_frame_completed. destruct (negb _); [by eexists|]. rewrite Hnc. by eexists.
  - unfold on_terminal_completed. destruct (negb _); [by eexists|]. destruct (ld_state _ _ Hld) as [->| ->]; by eexists.
  - unfold on_cancellation_acknowledged. destruct (negb _); [by eexists|]. rewrite Hnc. by eexists.
Qed.

Lemma cancelling_total event now r : tx_state r = Cancelling → tx_cleanup r ≠ None → is_Some (tx_apply event now r).
Proof.
  intros Hs Hc. destruct (is_request event) eqn:Er; [by apply request_total|].
  unfold tx_apply. destruct (match event_authority event with Some _ => _ | None => _ end); [by eexists|].
  rewrite bool_decide_eq_false_2 by congruence.
  destruct event; try done;
    unfold on_begin_completed, on_operation_completed, on_open_frame_completed, on_close_frame_completed,
      on_terminal_completed, on_cancellation_acknowledged; rewrite ?Hs;
    (destruct (negb _); [by eexists|]); first [by apply returned_total|by eexists|idtac].
  cbn. destruct (tx_cleanup r); [by eexists|done].
Qed.

Lemma answer_total effects event now d p before after d1 : good d → dr_pending d = before ++ p :: after →
  answered (with_pending (before ++ after) d) p effects event d1 → is_Some (tx_apply event now (dr_tx d1)).
Proof.
  intros Hg Hps Ha. pose proof Ha as (Htx & _ & _ & Hau & Hreq)%answered_keeps. rewrite Htx. cbn.
  assert (dr_pending d ≠ []) as Hne by (rewrite Hps; by destruct before).
  pose proof Hg as [Hp _]. unfold phase in Hp. destruct (tx_state (dr_tx d)) eqn:Es.
  - naive_solver.
  - destruct Hp as (_ & t & Hp & _). rewrite Hp in Hps. apply one_in_flight in Hps as [<- _].
    inversion Ha; subst. unfold tx_apply. cbn [event_authority]. rewrite bool_decide_eq_false_2 by congruence.
    unfold on_begin_completed. repeat (destruct (negb _); [by eexists|]). by eexists.
  - naive_solver.
  - destruct (good_landing d p before after) as [Hld _]; [done|by left|done|]. by eapply landing_total in Hld.
  - destruct (good_landing d p before after) as [Hld _]; [done|by right|done|]. by eapply landing_total in Hld.
  - naive_solver.
  - apply cancelling_total; [done|apply Hp].
  - destruct Hp as (_ & _ & _ & _ & t & command & intent & Hp & _ & _ & Hi). rewrite Hp in Hps.
    apply one_in_flight in Hps as [<- _]. inversion Ha; subst. unfold tx_apply. cbn [event_authority].
    rewrite bool_decide_eq_false_2 by congruence. unfold on_terminal_completed.
    repeat (destruct (negb _); [by eexists|]). cbn. rewrite Hi. by eexists.
  - unfold tx_apply. rewrite Hau, bool_decide_eq_true_2 by done. destruct (is_late_force _); by eexists.
Qed.

(** * The theorems *)

Section driven.
Context (allowed : Drive → TxEvent → Prop).

(** The driver cannot reach a state from which a request, a timer or the answer to a
    statement in flight would panic. *)
Theorem driver_never_panics d : driven allowed d →
  (∀ event now, is_request event = true → is_Some (dispatch event now d)) ∧
  (∀ before p after effects event d1 now, dr_pending d = before ++ p :: after →
    answered (with_pending (before ++ after) d) p effects event d1 → is_Some (dispatch event now d1)).
Proof.
  intros Hg%driven_good. split.
  - intros event now He. destruct (request_total event now (dr_tx d) He) as [x Hx].
    unfold dispatch. rewrite Hx. by eexists.
  - intros before p after effects event d1 now Hps Ha. edestruct (answer_total effects event now) as [x Hx]; [done..|].
    unfold dispatch. rewrite Hx. by eexists.
Qed.

(** The statements in flight always fit the state of the transaction. *)
Theorem statements_fit_state d : driven allowed d → phase (dr_tx d) (dr_pending d).
Proof. intros Hg%driven_good. apply Hg. Qed.

Lemma agree_savepoints frames es marks sps : agree frames es marks sps →
  marks = map (λ sp, length sp.2) sps ∧
  map fst sps = omap fr_savepoint (List.filter (λ f, negb (bool_decide (fr_status f = FrameOpening))) frames) ∧
  Forall (λ sp, sp.2 `prefix_of` es) sps.
Proof.
  induction 1 as [id own es|id n own frames es marks sps _ IH|
    id n st own frames below es marks sps Hst _ (-> & IH & Hpre)]; [done|done|].
  cbn. rewrite bool_decide_eq_false_2 by done. cbn. rewrite IH. split; [done|]. split; [done|].
  constructor; [cbn; by apply prefix_app_r|]. eapply Forall_impl; [exact Hpre|]. intros sp Hsp. by apply prefix_app_r.
Qed.

Definition is_open_state (s : TxState) : bool :=
  match s with Idle | InFlight | Quiescing | Poisoned => true | _ => false end.

(** While a transaction is open, the one queue of the lane holds exactly the changes the
    server would commit, in order; there is one mark for each savepoint the server has,
    which are those of the confirmed frames; and each mark is the length of the changes
    the server would go back to, which the queue starts with. *)
Theorem lane_mirrors_the_server d : driven allowed d → is_open_state (tx_state (dr_tx d)) = true →
  em_pending (dr_emits d) = sv_changes (dr_server d) ∧
  em_marks (dr_emits d) = map (λ sp, length sp.2) (sv_savepoints (dr_server d)) ∧
  map fst (sv_savepoints (dr_server d)) =
    omap fr_savepoint (List.filter (λ f, negb (bool_decide (fr_status f = FrameOpening)))
      (fs_frames (tx_frames (dr_tx d)))) ∧
  Forall (λ sp, sp.2 `prefix_of` em_pending (dr_emits d)) (sv_savepoints (dr_server d)).
Proof.
  intros (_ & Hl & _)%driven_good Hb. unfold linked in Hl.
  assert (agree (fs_frames (tx_frames (dr_tx d))) (em_pending (dr_emits d)) (em_marks (dr_emits d))
      (sv_savepoints (dr_server d)) ∧ sv_changes (dr_server d) = em_pending (dr_emits d)) as [Ha ->]
    by (destruct (tx_state (dr_tx d)); naive_solver).
  by apply agree_savepoints in Ha as (? & ? & ?).
Qed.

(** A transaction that is not reported committed publishes nothing; one that is publishes
    the changes the server committed, in order, except those of an operation whose
    completion a settlement was waiting for, which are queued too late. *)
Theorem published_unless_late d : driven allowed d →
  (tx_outcome (dr_tx d) = Some Committed → dr_committed d = Some (dr_published d ++ dr_late d)) ∧
  (tx_outcome (dr_tx d) ≠ Some Committed → dr_published d = []).
Proof. intros (_ & _ & Ht)%driven_good. unfold truthful in Ht. by case_bool_decide. Qed.

(** ** Deadlines *)

Lemma dispatch_tx event now d r' acts : tx_apply event now (dr_tx d) = Some (r', acts) →
  ∃ d', dispatch event now d = Some d' ∧ dr_tx d' = r'.
Proof. intros E. unfold dispatch. rewrite E. eexists. split; [done|]. apply perform_tx. Qed.

(** The timer of a command ends the transaction. *)
Lemma command_timer_settles kind g at_ now r :
  tx_state r = Cancelling ∧ kind = CancellationSql ∨ tx_state r = Settling ∧ kind = TerminalSql →
  tx_slot r = Armed kind g at_ →
  ∃ r' acts, tx_apply (DeadlineFired kind g) now r = Some (r', acts) ∧ tx_state r' = Settled ∧
    tx_outcome r' = Some (Indeterminate match tx_cleanup r with
                                        | Some l => la_cause l
                                        | None => DeadlineExpired kind
                                        end).
Proof.
  intros Hk Hsl. unfold tx_apply. cbn [event_authority].
  rewrite bool_decide_eq_false_2 by (by destruct Hk as [[-> _]|[-> _]]).
  assert (∃ r0, on_deadline_fired kind g now r = settle_now (Indeterminate match tx_cleanup r with
    | Some l => la_cause l | None => DeadlineExpired kind end) true r0) as [r0 ->].
  { unfold on_deadline_fired, claim_fire. rewrite Hsl.
    destruct Hk as [[-> ->]|[-> ->]]; rewrite !bool_decide_eq_true_2, Z.eqb_refl by done; by eexists. }
  destruct (settle_now _ _ _) as [r' acts] eqn:E. apply settle_now_spec in E as (Hs & Ho & _). eauto.
Qed.

(** The execution timer starts the cleanup, under a deadline of its own. *)
Lemma execution_timer_forces g at_ now r : is_forceable (tx_state r) = true → tx_slot r = Armed Execution g at_ →
  tx_cleanup r = None → tx_terminal_promised r = false →
  ∃ r' acts, tx_apply (DeadlineFired Execution g) now r = Some (r', acts) ∧ tx_state r' = Cancelling ∧
    tx_cleanup r' = Some (mk_latched (DeadlineExpired Execution) (for_state (tx_state r))) ∧
    ∃ g', tx_slot r' = Armed CancellationSql g' (now + bu_cancellation_sql (tx_budgets r)).
Proof.
  intros Hf Hsl Hc Hp. unfold tx_apply. cbn [event_authority].
  rewrite bool_decide_eq_false_2 by (by intros Hs; rewrite Hs in Hf).
  unfold on_deadline_fired, claim_fire. rewrite Hf, Hsl, bool_decide_eq_true_2, Z.eqb_refl by done. cbn [negb andb].
  destruct (forced _ _ _) as [r' acts] eqn:E.
  apply forced_spec in E as [(_ & _ & Hno)|(_ & _ & _ & -> & _)].
  { cbn in Hno. rewrite Hp, Hc in Hno. destruct Hno as [|[Hs|]]; [done| |done]. by rewrite Hs in Hf. }
  eexists _, acts. split; [done|]. split; [done|]. split; [done|]. by eexists.
Qed.

Lemma good_armed d : good d → tx_state (dr_tx d) ≠ Settled → ∃ kind g at_, tx_slot (dr_tx d) = Armed kind g at_ ∧
  (kind = Execution ∧ is_forceable (tx_state (dr_tx d)) = true ∧ tx_cleanup (dr_tx d) = None ∧
     tx_terminal_promised (dr_tx d) = false ∨
   tx_state (dr_tx d) = Cancelling ∧ kind = CancellationSql ∨ tx_state (dr_tx d) = Settling ∧ kind = TerminalSql).
Proof.
  intros [Hp _] Hs. unfold phase, running in Hp.
  destruct (tx_state (dr_tx d)); try done;
    (destruct Hp as [((g & t & Hsl) & ? & ? & _) _] || destruct Hp as ((g & t & Hsl) & ? & ? & _));
    eexists _, g, t; (split; [exact Hsl|]); naive_solver.
Qed.

(** C30: No transaction outlives its deadlines, whatever the backend does: one that has not
    ended always has a timer armed; when the timer of a cancellation or of a settlement
    fires, the transaction ends; when the timer of the execution fires, its cleanup starts
    under a timer of the cleanup's own budget, whose firing ends it. *)
Theorem deadlines_end_the_transaction d : driven allowed d → tx_state (dr_tx d) ≠ Settled →
  ∃ kind g at_, tx_slot (dr_tx d) = Armed kind g at_ ∧ ∀ now,
    ∃ d1, dispatch (DeadlineFired kind g) now d = Some d1 ∧
      if bool_decide (kind = Execution) then
        tx_state (dr_tx d1) = Cancelling ∧
        ∃ g1, tx_slot (dr_tx d1) = Armed CancellationSql g1 (now + bu_cancellation_sql (tx_budgets (dr_tx d))) ∧
          ∀ now1, ∃ d2, dispatch (DeadlineFired CancellationSql g1) now1 d1 = Some d2 ∧
            tx_state (dr_tx d2) = Settled ∧
            tx_outcome (dr_tx d2) = Some (Indeterminate (DeadlineExpired Execution))
      else tx_state (dr_tx d1) = Settled ∧ ∃ cause, tx_outcome (dr_tx d1) = Some (Indeterminate cause).
Proof.
  intros Hg%driven_good Hs. destruct (good_armed d Hg Hs) as (kind & g & at_ & Hsl & Hk).
  exists kind, g, at_. split; [done|]. intros now. destruct Hk as [(-> & Hf & Hc & Hp)|Hk].
  - destruct (execution_timer_forces g at_ now (dr_tx d)) as (r1 & acts & E & Hs1 & Hc1 & g1 & Hsl1); [done..|].
    apply dispatch_tx in E as (d1 & E & <-). exists d1. split; [done|]. cbn. split; [done|].
    exists g1. split; [done|]. intros now1.
    destruct (command_timer_settles CancellationSql g1 (now + bu_cancellation_sql (tx_budgets (dr_tx d))) now1 (dr_tx d1))
      as (r2 & acts2 & E2 & Hs2 & Ho2); [by left|done|].
    apply dispatch_tx in E2 as (d2 & E2 & <-). exists d2. rewrite Hc1 in Ho2. done.
  - destruct (command_timer_settles kind g at_ now (dr_tx d)) as (r1 & acts & E & Hs1 & Ho); [done..|].
    apply dispatch_tx in E as (d1 & E & <-). exists d1. split; [done|].
    rewrite bool_decide_eq_false_2 by (destruct Hk as [[_ ->]|[_ ->]]; done). eauto.
Qed.

(** ** A settlement that waited *)

(** What becomes of a transaction with a settlement waiting, by the statement that
    returned. *)
Definition after_return (p : Pending) (d' : Drive) : Prop :=
  let resting := (tx_state (dr_tx d') = Idle ∨ tx_state (dr_tx d') = Poisoned) ∧ dr_pending d' = [] in
  match p with
  | POperation _ => tx_state (dr_tx d') = Settling ∧ ∃ token command, dr_pending d' = [PTerminal token command]
  | PSavepoint _ _ _ | PRelease _ _ _ => resting
  | PRollbackTo _ frame name =>
      resting ∨ tx_state (dr_tx d') = InFlight ∧ ∃ token, dr_pending d' = [PRelease token frame name]
  | _ => False
  end.

Lemma land_any effects event now d p d1 d' : landing d p → answered d p effects event d1 → dispatch event now d1 = Some d' →
  ∃ r' acts, d' = perform d1 r' acts ∧ dr_pending d1 = [] ∧ bool_decide (tx_state (dr_tx d) = Cancelling) = false ∧
    match event with
    | OperationCompleted token errored => on_operation_completed token errored now (dr_tx d)
    | OpenFrameCompleted token frame ok => on_open_frame_completed token frame ok (dr_tx d)
    | CloseFrameCompleted token frame close ok => on_close_frame_completed token frame close ok (dr_tx d)
    | _ => tx_apply event now (dr_tx d)
    end = Some (r', acts).
Proof.
  intros Hld Ha ([r' acts] & E & [= <-])%bind_Some. exists r', acts. split; [done|].
  pose proof Ha as (Htx & Hps & _ & Hau & _)%answered_keeps. rewrite Htx in E. rewrite Hps.
  apply landing_not_cancelling in Hld as Hn. destruct Hn as [Hc Hs]. split; [apply Hld|].
  split; [by apply bool_decide_eq_false|].
  destruct event; try exact E; unfold tx_apply in E; by rewrite Hau, bool_decide_eq_false_2 in E.
Qed.

(** A return that leaves the transaction at rest. *)
Definition rests (r r' : TxReducer) (acts : list Action) : Prop :=
  (tx_state r' = Idle ∨ tx_state r' = Poisoned) ∧ tx_settle_intent r' = tx_settle_intent r ∧ ∃ x, acts = [Reply x].

Lemma perform_rests d r r' acts : rests r r' acts → dr_pending d = [] →
  tx_settle_intent (dr_tx (perform d r' acts)) = tx_settle_intent r ∧
  (tx_state (dr_tx (perform d r' acts)) = Idle ∨ tx_state (dr_tx (perform d r' acts)) = Poisoned) ∧
  dr_pending (perform d r' acts) = [].
Proof. by intros (Hs & Hi & x & ->) Hps. Qed.

Lemma open_completed_rests token frame ok r r' acts : tx_active r = Some token →
  bool_decide (tx_state r = Cancelling) = false →
  on_open_frame_completed token frame ok r = Some (r', acts) → rests r r' acts.
Proof.
  intros Ha Hc E. unfold on_open_frame_completed, check_token in E. rewrite bool_decide_eq_true_2, Hc in E by done.
  unfold frames_or_same in E. destruct ok; injection E as <- <-; cbn.
  - destruct (confirm_child_open _ _); split; [by left|by split; [|eexists]|by left|by split; [|eexists]].
  - destruct (abandon_opening_child _ _); split; [by right|by split; [|eexists]|by right|by split; [|eexists]].
Qed.

Lemma close_failed_rests token frame close r r' acts : tx_active r = Some token →
  bool_decide (tx_state r = Cancelling) = false →
  on_close_frame_completed token frame close false r = Some (r', acts) → rests r r' acts.
Proof.
  intros Ha Hc E. unfold on_close_frame_completed, check_token in E. rewrite bool_decide_eq_true_2, Hc in E by done.
  injection E as <- <-. split; [by right|by split; [|eexists]].
Qed.

Lemma released_rests token frame r r' acts : tx_active r = Some token →
  bool_decide (tx_state r = Cancelling) = false → fs_frames (tx_frames r) ≠ [] →
  on_close_frame_completed token frame Released true r = Some (r', acts) → rests r r' acts.
Proof.
  intros Ha Hc Hf E. unfold on_close_frame_completed, check_token in E. rewrite bool_decide_eq_true_2, Hc in E by done.
  cbn [negb] in E. apply bind_Some in E as ([[id f]|e] & _ & E).
  - injection E as <- <-. split; [by left|by split; [|eexists]].
  - unfold top in E. cbn [tx_frames set_session set_active] in E. destruct (fs_frames (tx_frames r)) as [|f rest]; [done|].
    cbn [hd_error] in E. apply bind_Some in E as ([[id f']|e'] & _ & E); injection E as <- <-;
      (split; [by left|by split; [|eexists]]).
Qed.

Lemma quiescing_operation_settles token errored now intent d r' acts :
  tx_active (dr_tx d) = Some token → tx_state (dr_tx d) = Quiescing → tx_settle_intent (dr_tx d) = Some intent →
  dr_pending d = [] → on_operation_completed token errored now (dr_tx d) = Some (r', acts) →
  tx_settle_intent r' = Some intent ∧ tx_state r' = Settling ∧
  ∃ token command, dr_pending (perform d r' acts) = [PTerminal token command].
Proof.
  intros Ha Hs Hi Hps E. unfold on_operation_completed, check_token in E. rewrite bool_decide_eq_true_2, Hs in E by done.
  cbn [negb] in E. rewrite bool_decide_eq_false_2, bool_decide_eq_true_2 in E by done.
  apply bind_Some in E as (i & Hi' & E). assert (i = intent) as -> by (cbn in Hi'; congruence).
  destruct (begin_terminal _ _ _) as [r1 a1] eqn:Eb. injection E as <- <-.
  apply begin_terminal_spec in Eb as [-> (timers & -> & Ht)]. split; [done|]. split; [done|].
  rewrite perform_reply, perform_timers by done. cbn. rewrite Hps. by eexists _, _.
Qed.

Lemma land_rollback_returns token frame name d d1 r' acts : landing d (PRollbackTo token frame name) →
  dr_pending d1 = [] →
  on_close_frame_completed token frame RolledBackTo true (dr_tx d) = Some (r', acts) →
  tx_settle_intent r' = tx_settle_intent (dr_tx d) ∧ tx_state (dr_tx (perform d1 r' acts)) = InFlight ∧
  ∃ token, dr_pending (perform d1 r' acts) = [PRelease token frame name].
Proof.
  intros [Hs _ _ Ha _ _ _ _ Hf] Hps E. unfold on_close_frame_completed, check_token in E.
  rewrite bool_decide_eq_true_2, bool_decide_eq_false_2 in E by (done || by destruct Hs as [->| ->]). cbn [negb] in E.
  unfold frames_fit in Hf. destruct (fs_frames (tx_frames (dr_tx d))) as [|f rest] eqn:Efs; [done|].
  destruct Hf as (Hrest & Hid & Hn & Hst).
  unfold frames_or_same, mark_rolled_back in E. cbn [tx_frames set_session set_active] in E.
  rewrite Efs, Hid, Z.eqb_refl in E. unfold is_root in E. rewrite Hn in E. cbn in E. injection E as <- <-.
  fold (close_command Released (tx_next_token (dr_tx d) + 1) name). erewrite perform_close by reflexivity.
  split; [done|]. split; [done|]. eexists. cbn. by rewrite Hps.
Qed.

(** A settlement requested while a statement is in flight waits for it. The return of a
    data statement starts the settlement. The return of a savepoint command does not: the
    transaction rests, with the settlement still recorded and no statement in flight. *)
Theorem settlement_waits_on_operations_only d p effects event now d1 : driven allowed d →
  tx_state (dr_tx d) = Quiescing → dr_pending d = [p] → answered (with_pending [] d) p effects event d1 →
  ∃ d' intent, dispatch event now d1 = Some d' ∧ tx_settle_intent (dr_tx d) = Some intent ∧
    tx_settle_intent (dr_tx d') = Some intent ∧ after_return p d'.
Proof.
  intros Hg%driven_good Hs Hps Ha.
  destruct (good_landing d p [] []) as [Hld Hcr]; [done|by right|done|]. cbn [app] in Hld.
  destruct (answer_total effects event now d p [] [] d1) as [[r' acts] E]; [done..|].
  assert (dispatch event now d1 = Some (perform d1 r' acts)) as Ed by (unfold dispatch; by rewrite E).
  edestruct land_any as (r1 & acts1 & Ep & Hps1 & Hnc & Eh); [done..|]. cbn [dr_tx with_pending] in *.
  destruct (tx_settle_intent (dr_tx d)) as [intent|] eqn:Hi; [|by eapply ld_intent in Hld].
  exists (perform d1 r' acts), intent. split; [done|]. split; [done|]. rewrite Ep.
  pose proof (ld_active _ _ Hld) as Hact. pose proof (ld_frames _ _ Hld) as Hf. cbn in Hact.
  assert (fs_frames (tx_frames (dr_tx d)) ≠ []) as Hne.
  { unfold frames_fit in Hf. cbn in Hf. by destruct (fs_frames _). }
  destruct Ha; try done; cbn [pending_token] in Hact.
  - destruct (quiescing_operation_settles _ _ _ _ (with_server (writes effects (dr_server d)) (with_pending [] d)) _ _
      Hact Hs Hi eq_refl Eh) as (Hi' & Hs' & Ht). unfold after_return. by rewrite perform_tx.
  - apply open_completed_rests in Eh; [|done..].
    apply (perform_rests _ _ _ _ Eh) in Hps1 as (Hi' & Hs' & Ht). by rewrite Hi'.
  - destruct (land_rollback_returns _ _ _ (with_pending [] d) _ _ _ Hld Hps1 Eh) as (Hi' & Ht).
    split; [by rewrite perform_tx, Hi'|by right].
  - apply released_rests in Eh; [|done..].
    apply (perform_rests _ _ _ _ Eh) in Hps1 as (Hi' & Hs' & Ht). by rewrite Hi'.
  - destruct (quiescing_operation_settles _ _ _ _ (with_pending [] d) _ _ Hact Hs Hi eq_refl Eh) as (Hi' & Hs' & Ht).
    unfold after_return. by rewrite perform_tx.
  - apply open_completed_rests in Eh; [|done..].
    apply (perform_rests _ _ _ _ Eh) in Hps1 as (Hi' & Hs' & Ht). by rewrite Hi'.
  - apply close_failed_rests in Eh; [|done..].
    apply (perform_rests _ _ _ _ Eh) in Hps1 as (Hi' & Hs' & Ht). rewrite Hi'. split; [done|]. by left.
  - apply close_failed_rests in Eh; [|done..].
    apply (perform_rests _ _ _ _ Eh) in Hps1 as (Hi' & Hs' & Ht). by rewrite Hi'.
Qed.
End driven.

(** ** Under the discipline of the scopes *)

Lemma answer_not_late effects event now d p before after d1 d' : good d →
  tx_state (dr_tx d) ≠ Settled → tx_state (dr_tx d) ≠ Quiescing → dr_late d = [] →
  dr_pending d = before ++ p :: after →
  answered (with_pending (before ++ after) d) p effects event d1 → dispatch event now d1 = Some d' →
  dr_late (queue_events effects d') = [].
Proof.
  intros Hg Hs Hq Hla Hps Ha ([r' acts] & E & [= <-])%bind_Some. cbn [fst snd]. fold (perform d1 r' acts).
  pose proof Ha as (Htx & _ & [_ Hla1] & Hau & _)%answered_keeps. cbn in Htx, Hla1. rewrite Htx in E.
  assert (effects = [] ∨ tx_state r' ≠ Settling) as [->|Hns].
  { destruct Ha; try (by left). right. pose proof Hg as [Hp _]. unfold phase in Hp.
    destruct (tx_state (dr_tx d)) eqn:Es; try done.
    - destruct Hp as (_ & Hp & _). rewrite Hp in Hps. by destruct before.
    - destruct Hp as (_ & t & Hp & _). rewrite Hp in Hps. by apply one_in_flight in Hps as [? _].
    - destruct Hp as (_ & Hp & _). rewrite Hp in Hps. by destruct before.
    - destruct (good_landing d (POperation token) before after) as [Hld _]; [done|by left|done|].
      unfold tx_apply in E. rewrite Hau, bool_decide_eq_false_2 in E by congruence.
      apply (operation_returns token false now (with_pending (before ++ after) d)) in E as [(_ & -> & _)|[? _]]; [done| |done].
      cbn in *. congruence.
    - destruct Hp as (_ & Hp & _). rewrite Hp in Hps. by destruct before.
    - destruct Hp as (_ & Hc & _). destruct (tx_cleanup (dr_tx d)) as [l|] eqn:Hl; [|done].
      apply (cancelling_step l) in E as (_ & _ & Hst); [|done..]. destruct Hst as [->|[-> _]]; done.
    - destruct Hp as (_ & _ & _ & _ & t & c & i & Hp & _). rewrite Hp in Hps. by apply one_in_flight in Hps as [? _]. }
  - rewrite queue_events_nil, perform_late. congruence.
  - unfold queue_events. rewrite perform_tx. destruct (tx_state r') eqn:Es'; try done; cbn; rewrite perform_late; congruence.
Qed.

Lemma drained_never_late d : driven drained d → tx_state (dr_tx d) ≠ Quiescing ∧ dr_late d = [].
Proof.
  induction 1 as [expected budgets now max_depth d E|d d' Hd [IHq IHl] Hstep]; [by injection E as <-|].
  apply driven_good in Hd as Hg. destruct Hstep as [event now d' Hr Hal Ed|before p after effects event now d1 d' Hns Hps Ha Ed|
    before p after effects event d1 Hs Hps Ha].
  - pose proof Ed as ([r' acts] & E & [= <-])%bind_Some. cbn [fst snd]. fold (perform d r' acts).
    rewrite perform_tx, perform_late. split; [|done]. intros Hq.
    destruct (apply_quiescing _ _ _ _ _ E Hq) as [|[Hf (intent & ->)]]; [done|].
    destruct Hg as [Hp _]. unfold phase in Hp. rewrite Hf in Hp. destruct Hp as (_ & _ & q & Hps & Hc & _).
    cbn in Hal. rewrite Hps in Hal. specialize (Hal q (list_elem_of_here _ _)). by rewrite Hal in Hc.
  - split; [|by eapply answer_not_late].
    pose proof Ed as ([r' acts] & E & [= <-])%bind_Some. cbn [fst snd]. fold (perform d1 r' acts).
    pose proof Ha as (Htx & _ & _ & _ & Hreq)%answered_keeps. cbn in Htx. rewrite Htx in E.
    replace (dr_tx (queue_events effects (perform d1 r' acts))) with r'.
    2: { unfold queue_events. rewrite perform_tx. by destruct (tx_state r'); cbn; rewrite perform_tx. }
    intros Hq. destruct (apply_quiescing _ _ _ _ _ E Hq) as [|[_ (intent & ->)]]; done.
  - pose proof Ha as (Htx & _ & [_ Hla] & _)%answered_keeps. cbn in *. rewrite Htx, Hla. done.
Qed.

(** C6: Subscribers see what the server committed, when settlements are requested the way the
    transaction scopes do: nothing unless the transaction is reported committed, and then
    exactly the changes the server committed, in order. *)
Theorem published_is_committed d : driven drained d →
  (tx_outcome (dr_tx d) = Some Committed → dr_committed d = Some (dr_published d)) ∧
  (tx_outcome (dr_tx d) ≠ Some Committed → dr_published d = []).
Proof.
  intros Hd. apply drained_never_late in Hd as Hl. destruct Hl as [_ Hl].
  apply driven_good in Hd as (_ & _ & Ht). unfold truthful in Ht. rewrite Hl, app_nil_r in Ht. by case_bool_decide.
Qed.

End driver_facts.
