(* ===== verification/TxExamples.v ===== *)
(** A server that keeps the laws of [TxDriver], and a transaction run on it: instances of
    the theorems about database transactions. *)

From S2P Require Import TxDriverFacts TxSavepoints.

(** * A server *)

(** The most recent savepoint of a name: the changes it would restore, and the savepoints
    before it. *)
Fixpoint find_savepoint (name : bytes) (sps : list (bytes * list Effect)) :
    option (list Effect * list (bytes * list Effect)) :=
  match sps with
  | [] => None
  | (n, changes) :: earlier =>
      if bool_decide (n = name) then Some (changes, earlier) else find_savepoint name earlier
  end.

#[global] Instance plain_server : Server := {|
  Srv := list Effect * list (bytes * list Effect);
  sv_changes := fst;
  sv_savepoints := snd;
  sv_begin := ([], []);
  sv_write e s := (s.1 ++ [e], s.2);
  sv_savepoint n s := (s.1, (n, s.1) :: s.2);
  sv_rollback_to n s :=
    match find_savepoint n s.2 with
    | Some (changes, earlier) => Some (changes, (n, changes) :: earlier)
    | None => None
    end;
  sv_release n s :=
    match find_savepoint n s.2 with
    | Some (_, earlier) => Some (s.1, earlier)
    | None => None
    end
|}.

Lemma find_latest name later changes earlier : name ∉ later.*1 →
  find_savepoint name (later ++ (name, changes) :: earlier) = Some (changes, earlier).
Proof.
  induction later as [|[n c] later IH]; cbn; intros Hn; [by rewrite bool_decide_eq_true_2|].
  rewrite bool_decide_eq_false_2 by set_solver. apply IH. set_solver.
Qed.

#[global] Instance plain_server_laws : ServerLaws.
Proof.
  split; [done|done|done|..]; intros n [ch sps] later changes earlier E Hn; cbn in *; rewrite E, find_latest by done; eauto.
Qed.

(** * Running a transaction *)

(** What the world does next: a request or a timer, a good answer to the oldest statement
    in flight, with the changes an operation made, or a bad one. *)
Inductive Move := MRequest (event : TxEvent) | MGood (effects : list Effect) | MBad.

Definition good_answer (p : Pending) (effects : list Effect) (d : Drive) : option (list Effect * TxEvent * Drive) :=
  match p with
  | PBegin token =>
      Some ([], BeginCompleted token (Opened 1), with_emits (mk_emits [] (em_marks (dr_emits d))) (with_server sv_begin d))
  | POperation token =>
      Some (effects, OperationCompleted token false, with_server (writes effects (dr_server d)) d)
  | PSavepoint token frame name =>
      Some ([], OpenFrameCompleted token frame true,
        with_emits (push_frame_emit_mark (dr_emits d)) (with_server (sv_savepoint name (dr_server d)) d))
  | PRollbackTo token frame name =>
      server ← sv_rollback_to name (dr_server d);
      Some ([], CloseFrameCompleted token frame RolledBackTo true,
        with_emits (discard_frame_effects (dr_emits d)) (with_server server d))
  | PRelease token frame name =>
      server ← sv_release name (dr_server d);
      Some ([], CloseFrameCompleted token frame Released true,
        with_emits (pop_frame_emit_mark (dr_emits d)) (with_server server d))
  | PTerminal token Commit =>
      Some ([], TerminalCompleted token TerminalCommitted, with_committed (Some (sv_changes (dr_server d))) d)
  | PTerminal token Rollback => Some ([], TerminalCompleted token TerminalRolledBack, d)
  | PCancellation token _ => Some ([], CancellationAcknowledged token AckRolledBack, d)
  end.

Definition bad_answer (p : Pending) : TxEvent :=
  match p with
  | PBegin token => BeginCompleted token BeginOutcomeFailed
  | POperation token => OperationCompleted token true
  | PSavepoint token frame _ => OpenFrameCompleted token frame false
  | PRollbackTo token frame _ => CloseFrameCompleted token frame RolledBackTo false
  | PRelease token frame _ => CloseFrameCompleted token frame Released false
  | PTerminal token _ => TerminalCompleted token TerminalIndeterminate
  | PCancellation token _ => CancellationAcknowledged token AckIndeterminate
  end.

Definition is_drained (d : Drive) (event : TxEvent) : bool :=
  match event with SettleRequested _ => forallb (λ p, negb (creator_command p)) (dr_pending d) | _ => true end.

(** One move, with the discipline of the scopes or without. *)
Definition move (strict : bool) (d : Drive) (m : Move) : option Drive :=
  if bool_decide (tx_state (dr_tx d) = Settled) then None else
  match m, dr_pending d with
  | MRequest event, _ =>
      if is_request event && (negb strict || is_drained d event) then dispatch event 0 d else None
  | MGood effects, p :: after =>
      res ← good_answer p effects (with_pending after d);
      queue_events res.1.1 <$> dispatch res.1.2 0 res.2
  | MBad, p :: after => queue_events [] <$> dispatch (bad_answer p) 0 (with_pending after d)
  | _, [] => None
  end.

Fixpoint moves (strict : bool) (ms : list Move) (d : Drive) : option Drive :=
  match ms with [] => Some d | m :: ms => d ← move strict d m; moves strict ms d end.

Definition discipline (strict : bool) : Drive → TxEvent → Prop := if strict then drained else anything.

Lemma good_answered p effects d made event d1 : good_answer p effects d = Some (made, event, d1) →
  answered d p made event d1.
Proof.
  destruct p as [token|token|token frame name|token frame name|token frame name|token []|token goal]; cbn; intros E.
  1: injection E as <- <- <-; apply (answered_begin d token (Opened 1)).
  3, 4: apply bind_Some in E as (server & Hs & E).
  all: injection E as <- <- <-; by constructor.
Qed.

Lemma bad_answered p d : answered d p [] (bad_answer p) d.
Proof. destruct p; by constructor. Qed.

Lemma is_drained_spec d event : is_drained d event = true → drained d event.
Proof.
  unfold is_drained, drained. destruct event; try done. rewrite forallb_forall. intros Hf p Hp.
  apply negb_true_iff, Hf. by apply list_elem_of_In.
Qed.

Lemma move_step strict d m d' : move strict d m = Some d' → drive_step (discipline strict) d d'.
Proof.
  unfold move. case_bool_decide as Hs; [done|]. destruct m as [event|effects|].
  - destruct (_ && _) eqn:Er; [|done]. apply andb_true_iff in Er as [Er Ed]. intros E.
    eapply drive_request; [done| |done]. destruct strict; [by apply is_drained_spec|done].
  - destruct (dr_pending d) as [|p after] eqn:Ep; [done|]. intros ([[made event] d1] & Ea & E)%bind_Some.
    apply fmap_Some in E as (d2 & E & ->). eapply (drive_answer _ d [] p after); [done|done|by apply good_answered in Ea|exact E].
  - destruct (dr_pending d) as [|p after] eqn:Ep; [done|]. intros (d2 & E & ->)%fmap_Some.
    eapply (drive_answer _ d [] p after); [done|done|apply bad_answered|exact E].
Qed.

Lemma moves_driven strict ms d d' : driven (discipline strict) d → moves strict ms d = Some d' →
  driven (discipline strict) d'.
Proof.
  revert d. induction ms as [|m ms IH]; cbn; intros d Hd; [by intros [= <-]|].
  intros (d1 & Em & E)%bind_Some. eapply IH; [|exact E]. eapply driven_step; [done|]. by eapply move_step.
Qed.

(** * A transaction *)

Definition app : AuthorityIdentity := mk_identity (lit "acme/shop") 3.
Definition domain : AuthorityDomain := mk_domain 7 1.
Definition expected : ExpectedAuthority := mk_expected app domain 5.
Definition authority : EventAuthority := mk_authority app domain.
Definition sees (kinds : list bytes) : TxEvent :=
  AuthorityObserved authority (mk_observed app domain 5 Stable kinds).
Definition budgets : TxBudgets := mk_budgets 30000 5000 5000.
Definition order : Effect := mk_effect (lit "orders") (lit "insert 1").
Definition line : Effect := mk_effect (lit "lines") (lit "insert 2").
Definition total : Effect := mk_effect (lit "orders") (lit "update 1").

(** A write, a savepoint with a write that is rolled back, another write. *)
Definition busy : list Move :=
  [MRequest (sees [lit "admin"; lit "owner"]); MGood [];
   MRequest OperationRequested; MGood [order];
   MRequest OpenFrame; MGood []; MRequest OperationRequested; MGood [line]; MRequest OperationRequested; MBad;
   MRequest (CloseFrame 2 RolledBackTo); MGood []; MGood [];
   MRequest (sees [lit "admin"]);
   MRequest OperationRequested; MGood [total]].
Definition committing : list Move := busy ++ [MRequest (SettleRequested Commit); MGood []].
(** Settlement requested while a data statement, or a savepoint, is in flight. *)
Definition waiting : list Move :=
  [MRequest (sees []); MGood []; MRequest OperationRequested; MRequest (SettleRequested Commit)].
Definition opening : list Move :=
  [MRequest (sees []); MGood []; MRequest OpenFrame; MRequest (SettleRequested Commit)].

Definition ran (strict : bool) (ms : list Move) : option Drive :=
  d ← admit_drive expected budgets 0 8; moves strict ms d.

(** A run that exists, and what can be read off its end by computation. *)
Lemma ran_some strict ms : bool_decide (is_Some (ran strict ms)) = true →
  ∃ d, ran strict ms = Some d ∧ driven (discipline strict) d.
Proof.
  rewrite bool_decide_eq_true. intros [d Hd]. exists d. split; [done|].
  apply bind_Some in Hd as (d0 & E & Em). eapply moves_driven; [|exact Em]. by eapply driven_admit.
Qed.

Lemma ran_read {A} (f : Drive → A) strict ms d a : ran strict ms = Some d → f <$> ran strict ms = Some a → f d = a.
Proof. intros -> E. by injection E. Qed.

Ltac runs strict ms :=
  destruct (ran_some strict ms) as (d & Hran & Hd); [vm_compute; reflexivity|]; exists d; split; [exact Hran|].
Ltac reads f :=
  match goal with Hran : ran ?strict ?ms = Some ?d |- _ =>
    apply (ran_read f strict ms d _ Hran); vm_compute; reflexivity end.

Lemma published_is_committed_witness : ∃ d, ran true committing = Some d ∧
  dr_published d = [order; total] ∧ dr_committed d = Some (dr_published d).
Proof.
  runs true committing. split; [reads (@dr_published _)|].
  apply (published_is_committed d Hd). reads (λ d, tx_outcome (dr_tx d)).
Defined.

(** Without the discipline, the event of a committed write can miss the publication. *)
Theorem late_event_is_lost : ∃ d, driven anything d ∧ tx_outcome (dr_tx d) = Some Committed ∧
  dr_committed d = Some [order] ∧ dr_published d = [].
Proof.
  destruct (ran_some false (waiting ++ [MGood [order]; MGood []])) as (d & Hran & Hd); [vm_compute; reflexivity|].
  exists d. split; [exact Hd|]. split; [reads (λ d, tx_outcome (dr_tx d))|].
  split; [reads (@dr_committed _)|reads (@dr_published _)].
Qed.

Lemma published_unless_late_witness : ∃ d, ran false (waiting ++ [MGood [order]; MGood []]) = Some d ∧
  dr_committed d = Some (dr_published d ++ dr_late d).
Proof.
  runs false (waiting ++ [MGood [order]; MGood []]). apply (published_unless_late anything d Hd).
  reads (λ d, tx_outcome (dr_tx d)).
Defined.

Lemma lane_mirrors_the_server_witness : ∃ d, ran false busy = Some d ∧
  sv_changes (dr_server d) = [order; total] ∧ em_pending (dr_emits d) = sv_changes (dr_server d).
Proof.
  runs false busy. split; [reads (λ d, sv_changes (dr_server d))|].
  apply (lane_mirrors_the_server anything d Hd). reads (λ d, is_open_state (tx_state (dr_tx d))).
Defined.

Lemma statements_fit_state_witness : ∃ d, ran false waiting = Some d ∧
  tx_state (dr_tx d) = Quiescing ∧ phase (dr_tx d) (dr_pending d).
Proof.
  runs false waiting. split; [reads (λ d, tx_state (dr_tx d))|]. apply (statements_fit_state anything d Hd).
Defined.

Lemma driver_never_panics_witness : ∃ d, ran false waiting = Some d ∧ tx_state (dr_tx d) = Quiescing ∧
  is_Some (dispatch (CloseFrame 1 Released) 0 d).
Proof.
  runs false waiting. split; [reads (λ d, tx_state (dr_tx d))|]. by apply (driver_never_panics anything d Hd).
Defined.

Lemma deadlines_end_the_transaction_witness : ∃ d, ran false busy = Some d ∧ tx_state (dr_tx d) = Idle ∧
  ∃ kind g at_, tx_slot (dr_tx d) = Armed kind g at_.
Proof.
  runs false busy. assert (tx_state (dr_tx d) = Idle) as Hs by reads (λ d, tx_state (dr_tx d)). split; [exact Hs|].
  destruct (deadlines_end_the_transaction anything d Hd) as (kind & g & at_ & Ha & _); [by rewrite Hs|].
  exists kind, g, at_. exact Ha.
Defined.

Lemma settlement_waits_on_operations_only_witness : ∃ d, ran false opening = Some d ∧
  ∃ d' intent, tx_settle_intent (dr_tx d') = Some intent ∧ after_return (PSavepoint 2 2 (lit "zs_sp_2")) d'.
Proof.
  runs false opening. pose (d0 := with_pending [] d).
  destruct (settlement_waits_on_operations_only anything d (PSavepoint 2 2 (lit "zs_sp_2")) []
      (OpenFrameCompleted 2 2 true) 0
      (with_emits (push_frame_emit_mark (dr_emits d0)) (with_server (sv_savepoint (lit "zs_sp_2") (dr_server d0)) d0)) Hd)
    as (d' & intent & _ & _ & Hi & Ha).
  - reads (λ d, tx_state (dr_tx d)).
  - reads (@dr_pending _).
  - apply answered_savepoint.
  - exists d', intent. split; [exact Hi|exact Ha].
Defined.

(** * The reducer alone *)

Fixpoint feed (events : list TxEvent) (r : TxReducer) : option (list Action * TxReducer) :=
  match events with
  | [] => Some ([], r)
  | event :: events =>
      res ← tx_apply event 0 r; rest ← feed events res.1; Some (res.2 ++ rest.1, rest.2)
  end.

Lemma tx_steps_trans r events acts r1 events2 acts2 r2 : tx_steps r events acts r1 → tx_steps r1 events2 acts2 r2 →
  tx_steps r (events ++ events2) (acts ++ acts2) r2.
Proof.
  intros H1. induction 1 as [|ev2 a2 r3 event now r4 a4 _ IH E|ev2 a2 r3 effect frames _ IH E].
  - by rewrite !app_nil_r.
  - rewrite !app_assoc. by eapply steps_event.
  - by eapply steps_effect.
Qed.

Lemma feed_steps events r acts r' : feed events r = Some (acts, r') → tx_steps r events acts r'.
Proof.
  revert r acts. induction events as [|event events IH]; cbn; intros r acts; [intros [= <- <-]; constructor|].
  intros ([r1 a1] & E1 & ([a2 r2] & E2 & [= <- <-])%bind_Some)%bind_Some.
  eapply (tx_steps_trans _ [event] a1 r1); [|by apply IH].
  by apply (steps_event r [] [] r event 0%Z r1 a1); [constructor|].
Qed.

Definition start : TxReducer :=
  mk_tx Preparing expected budgets None None NoSession None (new_stack 8) (Armed Execution 1 30000) 1 0
    None None None None false None.
Lemma starts : admit_tx expected budgets 0 8 = Some (start, [Schedule (mk_timer Execution 1 30000)]).
Proof. reflexivity. Qed.

Definition feeds (events : list TxEvent) (r : TxReducer) : bool :=
  match feed events r with Some _ => true | None => false end.

Lemma feed_some events r : feeds events r = true →
  ∃ acts r', feed events r = Some (acts, r') ∧ tx_steps r events acts r'.
Proof.
  unfold feeds. destruct (feed events r) as [[acts r']|] eqn:E; [|done]. intros _.
  exists acts, r'. split; [done|]. by apply feed_steps.
Qed.
Lemma feed_read {A} (f : list Action * TxReducer → A) events r acts r' a : feed events r = Some (acts, r') →
  f <$> feed events r = Some a → f (acts, r') = a.
Proof. intros -> E. by injection E. Qed.

Definition begun : list TxEvent := [sees [lit "admin"; lit "owner"]; BeginCompleted 1 (Opened 1)].
Definition committed_run : list TxEvent :=
  begun ++ [SettleRequested Commit; TerminalCompleted 2 TerminalCommitted; Cancel authority].
Definition nested_run : list TxEvent := begun ++ [OpenFrame; OpenFrameCompleted 2 2 true; OpenFrame].

Lemma settles_once_witness : ∃ acts r', feed committed_run start = Some (acts, r') ∧
  tx_state r' = Settled ∧ ∃ effects, List.filter is_settlement acts = settlement Committed effects.
Proof.
  destruct (feed_some committed_run start) as (acts & r' & E & Hst); [vm_compute; reflexivity|].
  exists acts, r'. split; [exact E|].
  pose proof (settles_once expected budgets 0 8 start _ committed_run acts r' starts Hst) as Hs.
  assert (tx_outcome r' = Some Committed) as Ho
    by (apply (feed_read (λ x, tx_outcome x.2) _ _ _ _ _ E); vm_compute; reflexivity).
  rewrite Ho in Hs. destruct Hs as (Hs & He & _). split; [exact Hs|exact He].
Defined.

Lemma savepoint_names_never_repeat_witness : ∃ acts r', feed nested_run start = Some (acts, r') ∧
  savepoints acts = [lit "zs_sp_2"; lit "zs_sp_3"] ∧ NoDup (savepoints acts).
Proof.
  destruct (feed_some nested_run start) as (acts & r' & E & Hst); [vm_compute; reflexivity|].
  exists acts, r'. split; [exact E|]. split.
  - apply (feed_read (λ x, savepoints x.1) _ _ _ _ _ E). vm_compute. reflexivity.
  - apply (savepoint_names_never_repeat expected budgets 0 8 start _ nested_run acts r' starts Hst).
    replace (fs_next_sequence (tx_frames r')) with 3%Z; [reflexivity|].
    symmetry. apply (feed_read (λ x, fs_next_sequence (tx_frames x.2)) _ _ _ _ _ E). vm_compute. reflexivity.
Defined.

Definition late : list TxEvent := [SettleRequested Commit; CancellationAcknowledged 1 AckRolledBack].

Lemma forced_never_resumes_witness : ∃ r0 acts0 acts r', force CauseCancelled 0 start = (r0, ForceWon, acts0) ∧
  feed late r0 = Some (acts, r') ∧ Forall harmless acts ∧
  tx_cleanup r' = Some (mk_latched CauseCancelled NoTransaction).
Proof.
  destruct (force CauseCancelled 0 start) as [[r0 won] acts0] eqn:Ef.
  assert (won = ForceWon) as -> by (change won with ((r0, won, acts0).1.2); rewrite <- Ef; vm_compute; reflexivity).
  assert (feeds late r0 = true) as Hsome
    by (change r0 with ((r0, ForceWon, acts0).1.1); rewrite <- Ef; vm_compute; reflexivity).
  destruct (feed_some late r0 Hsome) as (acts & r' & E & Hst).
  exists r0, acts0, acts, r'. split; [reflexivity|]. split; [exact E|].
  destruct (forced_never_resumes CauseCancelled 0 start r0 acts0 late acts r' Ef Hst) as (_ & Ha & Hc & _).
  split; [exact Ha|exact Hc].
Defined.

Lemma ceiling_only_tightens_witness : ∃ acts r acts' r', feed begun start = Some (acts, r) ∧
  feed [sees [lit "admin"]; sees [lit "admin"; lit "root"]] r = Some (acts', r') ∧
  tx_begin_ceiling r' = Some [lit "admin"; lit "owner"].
Proof.
  destruct (feed_some begun start) as (acts & r & E & Hst); [vm_compute; reflexivity|].
  assert (feeds [sees [lit "admin"]; sees [lit "admin"; lit "root"]] r = true) as Hsome.
  { apply (feed_read (λ x, feeds [sees [lit "admin"]; sees [lit "admin"; lit "root"]] x.2) _ _ _ _ _ E).
    vm_compute. reflexivity. }
  destruct (feed_some _ _ Hsome) as (acts' & r' & E' & Hst'). exists acts, r, acts', r'.
  split; [exact E|]. split; [exact E'|].
  eapply (ceiling_only_tightens expected budgets 0 8 start _ begun acts r _ _ acts' r' starts Hst _ Hst').
  Unshelve. apply (feed_read (λ x, tx_begin_ceiling x.2) _ _ _ _ _ E). vm_compute. reflexivity.
Defined.
