(* ===== verification/TxLanes.v ===== *)
(** The transaction lanes of a worker thread
    ([zeroship-data-orm/src/tx_lanes.rs]), the guards that hold a session out of its lane,
    what the driver does to the lanes when a transaction opens and ends
    ([transaction/driver.rs]), and the claims operations hold on their frames
    ([transaction/scope.rs]). Sessions, completions and wakers are identities; what an
    operation does to the outside - waking, destroying a session, answering a completion -
    is listed beside its result. *)

From stdpp Require Import gmap.
From S2P Require Export TxReducer.

(** * Routes *)

Record DbRoute := mk_route { rt_app_id : bytes; rt_database : option bytes }.
#[global] Instance route_eq_dec : EqDecision DbRoute.
Proof. solve_decision. Defined.
#[global] Instance route_countable : Countable DbRoute.
Proof.
  refine (inj_countable' (λ r, (rt_app_id r, rt_database r)) (λ p, mk_route p.1 p.2) _). by intros [].
Defined.

(** * Lanes *)

Notation Session := Z (only parsing).
Notation Completion := Z (only parsing).
Notation Waker := Z (only parsing).

Record TxLane := mk_lane {
  ln_reducer : option TxReducer;
  ln_completion : option Completion;
  ln_session : option Session;
  ln_canceller : option Session;
  ln_claim_waiters : list Waker;
  ln_slot_waiters : list Waker;
  ln_emits : Emits;
  ln_claimed_frames : gset (Z * Z);
  ln_frame_waiters : list Waker;
  ln_settling_frames : gset (Z * Z);
  ln_callback_polls : Z
}.

Definition empty_lane : TxLane := mk_lane None None None None [] [] (mk_emits [] []) ∅ [] ∅ 0.

Record TxLanes := mk_lanes {
  lanes : gmap DbRoute TxLane;
  withdrawn_tx_sessions : gset DbRoute
}.

Definition no_lanes : TxLanes := mk_lanes ∅ ∅.

Inductive LaneEffect := Woke (waker : Waker) | Destroyed (session : Session) | Abandoned (completion : Completion).

(** Assignments to a lane. *)
Definition set_reducer (x : option TxReducer) (n : TxLane) : TxLane :=
  mk_lane x (ln_completion n) (ln_session n) (ln_canceller n) (ln_claim_waiters n) (ln_slot_waiters n)
    (ln_emits n) (ln_claimed_frames n) (ln_frame_waiters n) (ln_settling_frames n) (ln_callback_polls n).
Definition set_completion (x : option Completion) (n : TxLane) : TxLane :=
  mk_lane (ln_reducer n) x (ln_session n) (ln_canceller n) (ln_claim_waiters n) (ln_slot_waiters n)
    (ln_emits n) (ln_claimed_frames n) (ln_frame_waiters n) (ln_settling_frames n) (ln_callback_polls n).
Definition set_client (x : option Session) (n : TxLane) : TxLane :=
  mk_lane (ln_reducer n) (ln_completion n) x (ln_canceller n) (ln_claim_waiters n) (ln_slot_waiters n)
    (ln_emits n) (ln_claimed_frames n) (ln_frame_waiters n) (ln_settling_frames n) (ln_callback_polls n).
Definition set_canceller (x : option Session) (n : TxLane) : TxLane :=
  mk_lane (ln_reducer n) (ln_completion n) (ln_session n) x (ln_claim_waiters n) (ln_slot_waiters n)
    (ln_emits n) (ln_claimed_frames n) (ln_frame_waiters n) (ln_settling_frames n) (ln_callback_polls n).
Definition set_claim_waiters (x : list Waker) (n : TxLane) : TxLane :=
  mk_lane (ln_reducer n) (ln_completion n) (ln_session n) (ln_canceller n) x (ln_slot_waiters n)
    (ln_emits n) (ln_claimed_frames n) (ln_frame_waiters n) (ln_settling_frames n) (ln_callback_polls n).
Definition set_slot_waiters (x : list Waker) (n : TxLane) : TxLane :=
  mk_lane (ln_reducer n) (ln_completion n) (ln_session n) (ln_canceller n) (ln_claim_waiters n) x
    (ln_emits n) (ln_claimed_frames n) (ln_frame_waiters n) (ln_settling_frames n) (ln_callback_polls n).
Definition set_emits (x : Emits) (n : TxLane) : TxLane :=
  mk_lane (ln_reducer n) (ln_completion n) (ln_session n) (ln_canceller n) (ln_claim_waiters n) (ln_slot_waiters n)
    x (ln_claimed_frames n) (ln_frame_waiters n) (ln_settling_frames n) (ln_callback_polls n).
Definition set_claimed (x : gset (Z * Z)) (n : TxLane) : TxLane :=
  mk_lane (ln_reducer n) (ln_completion n) (ln_session n) (ln_canceller n) (ln_claim_waiters n) (ln_slot_waiters n)
    (ln_emits n) x (ln_frame_waiters n) (ln_settling_frames n) (ln_callback_polls n).
Definition set_frame_waiters (x : list Waker) (n : TxLane) : TxLane :=
  mk_lane (ln_reducer n) (ln_completion n) (ln_session n) (ln_canceller n) (ln_claim_waiters n) (ln_slot_waiters n)
    (ln_emits n) (ln_claimed_frames n) x (ln_settling_frames n) (ln_callback_polls n).
Definition set_settling (x : gset (Z * Z)) (n : TxLane) : TxLane :=
  mk_lane (ln_reducer n) (ln_completion n) (ln_session n) (ln_canceller n) (ln_claim_waiters n) (ln_slot_waiters n)
    (ln_emits n) (ln_claimed_frames n) (ln_frame_waiters n) x (ln_callback_polls n).
Definition set_callback_polls (x : Z) (n : TxLane) : TxLane :=
  mk_lane (ln_reducer n) (ln_completion n) (ln_session n) (ln_canceller n) (ln_claim_waiters n) (ln_slot_waiters n)
    (ln_emits n) (ln_claimed_frames n) (ln_frame_waiters n) (ln_settling_frames n) x.

(** [lanes.get_mut(route)] and [lanes.entry(route).or_default()]. *)
Definition with_lane (route : DbRoute) (f : TxLane → TxLane) (l : TxLanes) : TxLanes :=
  mk_lanes (alter f route (lanes l)) (withdrawn_tx_sessions l).
Definition with_entry (route : DbRoute) (f : TxLane → TxLane) (l : TxLanes) : TxLanes :=
  mk_lanes (<[route := f (default empty_lane (lanes l !! route))]> (lanes l)) (withdrawn_tx_sessions l).

(** * Claims *)

Definition has_tx_for (route : DbRoute) (l : TxLanes) : bool :=
  match lanes l !! route with Some n => bool_decide (is_Some (ln_session n)) | None => false end.

(** [fresh] is the completion allocated for the claim. *)
Definition try_claim_tx (route : DbRoute) (fresh : Completion) (l : TxLanes) : bool * TxLanes :=
  match lanes l !! route with
  | Some _ => (false, l)
  | None => (true, mk_lanes (<[route := set_completion (Some fresh) empty_lane]> (lanes l)) (withdrawn_tx_sessions l))
  end.

Definition tx_claimed_by (route : DbRoute) (l : TxLanes) : bool := bool_decide (is_Some (lanes l !! route)).

(** A lane that is dropped destroys its session and abandons its completion. *)
Definition drop_lane (n : TxLane) : list LaneEffect :=
  match ln_session n with Some s => [Destroyed s] | None => [] end ++
  match ln_completion n with Some c => [Abandoned c] | None => [] end.

Definition release_tx_claim (route : DbRoute) (l : TxLanes) : TxLanes * list LaneEffect :=
  match lanes l !! route with
  | None => (l, [])
  | Some n =>
      (mk_lanes (delete route (lanes l)) (withdrawn_tx_sessions l),
       map Woke (ln_claim_waiters n ++ ln_frame_waiters n) ++ drop_lane n)
  end.

Definition enter_callback (route : DbRoute) : TxLanes → TxLanes :=
  with_lane route (λ n, set_callback_polls (ln_callback_polls n + 1) n).
Definition exit_callback (route : DbRoute) : TxLanes → TxLanes :=
  with_lane route (λ n, set_callback_polls (Z.max 0 (ln_callback_polls n - 1)) n).
Definition callback_is_polling (route : DbRoute) (l : TxLanes) : bool :=
  match lanes l !! route with Some n => (0 <? ln_callback_polls n)%Z | None => false end.

(** * Frame claims *)

Definition claim_frame (route : DbRoute) (generation frame : Z) (l : TxLanes) : bool * TxLanes :=
  match lanes l !! route with
  | None => (false, l)
  | Some n =>
      (bool_decide ((generation, frame) ∉ ln_claimed_frames n),
       with_lane route (λ n, set_claimed ({[(generation, frame)]} ∪ ln_claimed_frames n) n) l)
  end.

Definition release_frame_claim (route : DbRoute) (generation frame : Z) (l : TxLanes) : TxLanes * list LaneEffect :=
  match lanes l !! route with
  | None => (l, [])
  | Some n =>
      if bool_decide ((generation, frame) ∈ ln_claimed_frames n)
      then (with_lane route (λ n, set_frame_waiters []
              (set_claimed (ln_claimed_frames n ∖ {[(generation, frame)]}) n)) l,
            map Woke (ln_frame_waiters n))
      else (l, [])
  end.

Definition mark_frame_settling (route : DbRoute) (generation frame : Z) : TxLanes → TxLanes :=
  with_lane route (λ n, set_settling ({[(generation, frame)]} ∪ ln_settling_frames n) n).
Definition clear_frame_settling (route : DbRoute) (generation frame : Z) : TxLanes → TxLanes :=
  with_lane route (λ n, set_settling (ln_settling_frames n ∖ {[(generation, frame)]}) n).
Definition frame_settling (route : DbRoute) (generation frame : Z) (l : TxLanes) : bool :=
  match lanes l !! route with Some n => bool_decide ((generation, frame) ∈ ln_settling_frames n) | None => false end.
Definition frame_claimed (route : DbRoute) (generation frame : Z) (l : TxLanes) : bool :=
  match lanes l !! route with Some n => bool_decide ((generation, frame) ∈ ln_claimed_frames n) | None => false end.

(** Waiters are kept once ([will_wake]); without a lane the waiter is woken at once. *)
Definition push_frame_waiter (route : DbRoute) (waker : Waker) (l : TxLanes) : TxLanes * list LaneEffect :=
  match lanes l !! route with
  | None => (l, [Woke waker])
  | Some n =>
      (if bool_decide (waker ∈ ln_frame_waiters n) then l
       else with_lane route (λ n, set_frame_waiters (ln_frame_waiters n ++ [waker]) n) l, [])
  end.
Definition push_tx_waiter (route : DbRoute) (waker : Waker) (l : TxLanes) : TxLanes * list LaneEffect :=
  match lanes l !! route with
  | None => (l, [Woke waker])
  | Some n => (with_lane route (λ n, set_claim_waiters (ln_claim_waiters n ++ [waker]) n) l, [])
  end.

(** * Sessions *)

(** The previous occupant is returned. *)
Definition install_tx_client (route : DbRoute) (client : Session) (l : TxLanes) : option Session * TxLanes :=
  (n ← lanes l !! route; ln_session n, with_entry route (set_client (Some client)) l).

Definition take_tx_client_for (route : DbRoute) (l : TxLanes) : option Session * TxLanes :=
  (n ← lanes l !! route; ln_session n, with_lane route (set_client None) l).

Definition wake_tx_slot_waiters (route : DbRoute) (l : TxLanes) : TxLanes * list LaneEffect :=
  match lanes l !! route with
  | None => (l, [])
  | Some n => (with_lane route (set_slot_waiters []) l, map Woke (ln_slot_waiters n))
  end.

Definition put_tx_client_for (route : DbRoute) (client : Session) (l : TxLanes) : TxLanes * list LaneEffect :=
  if bool_decide (route ∈ withdrawn_tx_sessions l) then (l, [Destroyed client])
  else
    match lanes l !! route with
    | None => (l, [Destroyed client])
    | Some n =>
        if bool_decide (is_Some (ln_session n)) then (l, [Destroyed client])
        else wake_tx_slot_waiters route (with_lane route (set_client (Some client)) l)
    end.

Definition push_tx_slot_waiter (route : DbRoute) (waker : Waker) (l : TxLanes) : TxLanes * list LaneEffect :=
  match lanes l !! route with
  | None => (l, [Woke waker])
  | Some n =>
      (if bool_decide (waker ∈ ln_slot_waiters n) then l
       else with_lane route (λ n, set_slot_waiters (ln_slot_waiters n ++ [waker]) n) l, [])
  end.

Definition install_tx_canceller (route : DbRoute) (canceller : Session) : TxLanes → TxLanes :=
  with_entry route (set_canceller (Some canceller)).
Definition tx_canceller_for (route : DbRoute) (l : TxLanes) : option Session :=
  n ← lanes l !! route; ln_canceller n.
Definition remove_tx_canceller (route : DbRoute) : TxLanes → TxLanes := with_lane route (set_canceller None).

(** * The reducer of a lane *)

(** [fresh] is the completion allocated when the lane has none. *)
Definition admit_transaction (route : DbRoute) (expected : ExpectedAuthority) (budgets : TxBudgets)
    (now max_depth : Z) (fresh : Completion) (l : TxLanes) : option (list Action * TxLanes) :=
  res ← admit_tx expected budgets now max_depth;
  let l := with_entry route (λ n, set_completion (Some (default fresh (ln_completion n)))
             (set_reducer (Some res.1) n)) l in
  Some (res.2, mk_lanes (lanes l) (withdrawn_tx_sessions l ∖ {[route]})).

(** The outer [None] is a panic of the reducer, the inner one that there is none. *)
Definition apply_transaction_event (route : DbRoute) (event : TxEvent) (now : Z) (l : TxLanes) :
    option (option (list Action) * TxLanes * list LaneEffect) :=
  match n ← lanes l !! route; r ← ln_reducer n; Some (n, r) with
  | None => Some (None, l, [])
  | Some (n, r) =>
      res ← tx_apply event now r;
      let forced := bool_decide (is_Some (tx_cleanup res.1)) in
      Some (Some res.2,
            with_lane route (λ n, (if forced then set_frame_waiters [] else id) (set_reducer (Some res.1) n)) l,
            if forced then map Woke (ln_frame_waiters n) else [])
  end.

Definition transaction_reducer (route : DbRoute) (l : TxLanes) : option TxReducer :=
  n ← lanes l !! route; ln_reducer n.
Definition transaction_completion (route : DbRoute) (l : TxLanes) : option Completion :=
  n ← lanes l !! route; ln_completion n.
Definition detach_transaction_completion (route : DbRoute) : TxLanes → TxLanes := with_lane route (set_completion None).
Definition transaction_expected_authority (route : DbRoute) (l : TxLanes) : option ExpectedAuthority :=
  tx_expected <$> transaction_reducer route l.

Definition retire_transaction (route : DbRoute) (l : TxLanes) : TxLanes * list LaneEffect :=
  let woken := match lanes l !! route with
               | Some n => match ln_completion n with Some c => [Abandoned c] | None => [] end ++
                           map Woke (ln_frame_waiters n)
               | None => []
               end in
  let l := with_lane route (λ n, set_frame_waiters [] (set_completion None (set_canceller None
             (set_emits (mk_emits (em_pending (ln_emits n)) []) (set_reducer None n))))) l in
  let '(l, slot) := wake_tx_slot_waiters route l in
  (l, woken ++ slot).

Definition withdraw_tx_session (route : DbRoute) (l : TxLanes) : option Session * TxLanes :=
  let l := mk_lanes (lanes l) ({[route]} ∪ withdrawn_tx_sessions l) in
  take_tx_client_for route l.

(** * The queue of change events *)

Definition lane_push_mark (route : DbRoute) : TxLanes → TxLanes :=
  with_entry route (λ n, set_emits (push_frame_emit_mark (ln_emits n)) n).
Definition lane_pop_mark (route : DbRoute) : TxLanes → TxLanes :=
  with_lane route (λ n, set_emits (pop_frame_emit_mark (ln_emits n)) n).
Definition lane_discard_effects (route : DbRoute) : TxLanes → TxLanes :=
  with_lane route (λ n, set_emits (discard_frame_effects (ln_emits n)) n).
Definition lane_push_emit (route : DbRoute) (ev : Effect) : TxLanes → TxLanes :=
  with_entry route (λ n, set_emits (push_pending_emit ev (ln_emits n)) n).
Definition drain_pending_emits_for (route : DbRoute) (l : TxLanes) : list Effect * TxLanes :=
  (match lanes l !! route with Some n => em_pending (ln_emits n) | None => [] end,
   with_lane route (λ n, set_emits (mk_emits [] (em_marks (ln_emits n))) n) l).
Definition clear_pending_emits_for (route : DbRoute) : TxLanes → TxLanes :=
  with_lane route (λ n, set_emits (mk_emits [] (em_marks (ln_emits n))) n).

(** * Guards *)

Record TxClientSlotGuard := mk_guard {
  gd_route : DbRoute;
  gd_client : Session;
  gd_completion : option Completion
}.

(** [None] is the error of an empty slot. *)
Definition guard_take (route : DbRoute) (l : TxLanes) : option (TxClientSlotGuard * TxLanes) :=
  let '(client, l') := take_tx_client_for route l in
  client ← client;
  Some (mk_guard route client (transaction_completion route l'), l').

Definition is_current_in (completion : Completion) (route : DbRoute) (l : TxLanes) : bool :=
  bool_decide (transaction_completion route l = Some completion).

Definition guard_drop (g : TxClientSlotGuard) (l : TxLanes) : TxLanes * list LaneEffect :=
  if match gd_completion g with Some c => negb (is_current_in c (gd_route g) l) | None => false end
  then (l, [Destroyed (gd_client g)])
  else put_tx_client_for (gd_route g) (gd_client g) l.

(** * What the driver does to a lane *)

(** [false] is the refusal of a session whose admission has ended. The occupant a session
    displaces is dropped, which returns it to its pool. *)
Definition install_opened_session (route : DbRoute) (completion : Completion) (client : Session)
    (canceller : bool) (l : TxLanes) : bool * TxLanes * option Session * list LaneEffect :=
  if negb (is_current_in completion route l) then (false, l, None, [Destroyed client])
  else
    let '(previous, l) := install_tx_client route client l in
    let l := if canceller then install_tx_canceller route client l else l in
    (true, clear_pending_emits_for route l, previous, []).

(** The session handed back to its pool. *)
Definition release_session (route : DbRoute) (l : TxLanes) : option Session * TxLanes :=
  take_tx_client_for route (remove_tx_canceller route l).

Definition destroy_session (route : DbRoute) (l : TxLanes) : TxLanes * list LaneEffect :=
  let '(client, l) := withdraw_tx_session route (remove_tx_canceller route l) in
  (l, match client with Some s => [Destroyed s] | None => [] end).

Definition release_admission (route : DbRoute) (l : TxLanes) : TxLanes * list LaneEffect :=
  let l := detach_transaction_completion route l in
  let '(l, e1) := retire_transaction route l in
  let '(l, e2) := release_tx_claim route l in
  (l, e1 ++ e2).

(** * Scopes *)

Record TransactionScope := mk_scope { sc_route : DbRoute; sc_generation : Z; sc_frame : Z }.

Inductive ScopeRefusal := ScopeExpired | ConnectionBusy.
#[global] Instance scope_refusal_eq_dec : EqDecision ScopeRefusal.
Proof. solve_decision. Defined.

(** The scope of the innermost frame. *)
Definition scope_current (route : DbRoute) (l : TxLanes) : option TransactionScope :=
  r ← transaction_reducer route l;
  generation ← tx_generation r;
  f ← top (tx_frames r);
  Some (mk_scope route generation (fr_id f)).

Definition check_in (s : TransactionScope) (l : TxLanes) : result ScopeRefusal unit :=
  match transaction_reducer (sc_route s) l with
  | None => Err ScopeExpired
  | Some r =>
      if negb (bool_decide (tx_generation r = Some (sc_generation s))) || negb (contains (sc_frame s) (tx_frames r))
      then Err ScopeExpired
      else if negb (bool_decide (fr_id <$> top (tx_frames r) = Some (sc_frame s))) then Err ConnectionBusy
      else Ok tt
  end.

Definition claim_operation (s : TransactionScope) (l : TxLanes) : result ScopeRefusal unit * TxLanes :=
  match check_in s l with
  | Err e => (Err e, l)
  | Ok _ =>
      if frame_settling (sc_route s) (sc_generation s) (sc_frame s) l then (Err ScopeExpired, l)
      else
        let '(won, l) := claim_frame (sc_route s) (sc_generation s) (sc_frame s) l in
        (if won then Ok tt else Err ConnectionBusy, l)
  end.

Definition claim_drop (s : TransactionScope) (l : TxLanes) : TxLanes * list LaneEffect :=
  release_frame_claim (sc_route s) (sc_generation s) (sc_frame s) l.

Record OutstandingWork := mk_work { ow_scope : TransactionScope; ow_held : bool }.

(** [root()]: the outermost frame. *)
Definition root_frame (s : FrameStack) : option Frame := last (fs_frames s).

Definition sample (route : DbRoute) (frame : option Z) (l : TxLanes) : option (OutstandingWork * TxLanes) :=
  r ← transaction_reducer route l;
  generation ← tx_generation r;
  frame ← match frame with Some f => Some f | None => fr_id <$> root_frame (tx_frames r) end;
  let l := mark_frame_settling route generation frame l in
  Some (mk_work (mk_scope route generation frame) (frame_claimed route generation frame l), l).

(** One poll of [FrameDrained]. *)
Definition poll_drained (w : OutstandingWork) (waker : Waker) (l : TxLanes) : bool * TxLanes * list LaneEffect :=
  let s := ow_scope w in
  let settling :=
    match transaction_reducer (sc_route s) l with
    | Some r => bool_decide (tx_cleanup r = None) && bool_decide (tx_generation r = Some (sc_generation s))
    | None => false
    end in
  if negb settling || negb (frame_claimed (sc_route s) (sc_generation s) (sc_frame s) l) then (true, l, [])
  else let '(l, e) := push_frame_waiter (sc_route s) waker l in (false, l, e).

Definition work_drop (w : OutstandingWork) : TxLanes → TxLanes :=
  clear_frame_settling (sc_route (ow_scope w)) (sc_generation (ow_scope w)) (sc_frame (ow_scope w)).
