(* ===== verification/TxThread.v ===== *)
(** A worker thread's transaction sessions: every interleaving of claims, admissions, opened
    sessions, guards and settlements over the lanes of [TxLanes]. Each session opened has
    exactly one owner, stays with the route it was opened for, and once withdrawn is never
    parked or returned to its pool. *)

From stdpp Require Import gmap.
From S2P Require Import Prelude RustStd TxFrames TxReducer TxLanes.

(** * The thread *)

(** Operations of the lanes that move no session. *)
Inductive Bookkeeping :=
  | EnterCallback | ExitCallback
  | ClaimFrame (generation frame : Z) | ReleaseFrame (generation frame : Z)
  | MarkSettling (generation frame : Z) | ClearSettling (generation frame : Z)
  | WaitFrame (waker : Waker) | WaitClaim (waker : Waker) | WaitSlot (waker : Waker)
  | PushMark | PopMark | DiscardFrame | PushEmit (ev : Effect) | DrainEmits | ClearEmits.

Definition book (route : DbRoute) (b : Bookkeeping) (l : TxLanes) : TxLanes * list LaneEffect :=
  match b with
  | EnterCallback => (enter_callback route l, [])
  | ExitCallback => (exit_callback route l, [])
  | ClaimFrame g f => ((claim_frame route g f l).2, [])
  | ReleaseFrame g f => release_frame_claim route g f l
  | MarkSettling g f => (mark_frame_settling route g f l, [])
  | ClearSettling g f => (clear_frame_settling route g f l, [])
  | WaitFrame w => push_frame_waiter route w l
  | WaitClaim w => push_tx_waiter route w l
  | WaitSlot w => push_tx_slot_waiter route w l
  | PushMark => (lane_push_mark route l, [])
  | PopMark => (lane_pop_mark route l, [])
  | DiscardFrame => (lane_discard_effects route l, [])
  | PushEmit ev => (lane_push_emit route ev l, [])
  | DrainEmits => ((drain_pending_emits_for route l).2, [])
  | ClearEmits => (clear_pending_emits_for route l, [])
  end.

(** Beside the lanes and the guards alive, the thread remembers for which route and
    completion each session was opened, which completions opened one or had theirs
    withdrawn, and which sessions were destroyed or handed back to their pool. *)
Record Thread := mk_thread {
  th_lanes : TxLanes;
  th_guards : list TxClientSlotGuard;
  th_next : Z;
  th_home : gmap Session (DbRoute * Completion);
  th_opened : gset Completion;
  th_condemned : gset Completion;
  th_destroyed : list Session;
  th_pooled : list Session
}.

Definition idle_thread : Thread := mk_thread no_lanes [] 0 ∅ ∅ ∅ [] [].

Definition destroyed_in (es : list LaneEffect) : list Session :=
  omap (λ e, match e with Destroyed s => Some s | _ => None end) es.

Inductive ThreadMove :=
  | Claim (route : DbRoute)
  | Admit (route : DbRoute) (expected : ExpectedAuthority) (budgets : TxBudgets) (now max_depth : Z)
  | Event (route : DbRoute) (event : TxEvent) (now : Z)
  | Book (route : DbRoute) (b : Bookkeeping)
  | Open (route : DbRoute) (completion : Completion) (canceller : bool)
  | Take (route : DbRoute)
  | DropGuard (i : nat)
  | Release (route : DbRoute) (completion : Completion)
  | Withdraw (route : DbRoute) (completion : Completion)
  | Abandon (route : DbRoute).

Definition with_lanes (l : TxLanes) (next : Z) (es : list LaneEffect) (th : Thread) : Thread :=
  mk_thread l (th_guards th) next (th_home th) (th_opened th) (th_condemned th)
    (th_destroyed th ++ destroyed_in es) (th_pooled th).

(** One move; [None] is one that cannot happen. An admission opens at most one session,
    since its reducer issues [BEGIN] once ([begins_once] of [TxBegin]); the actions of a
    settlement run without suspending, and only while the admission is current. *)
Definition thread_move (m : ThreadMove) (th : Thread) : option Thread :=
  let l := th_lanes th in
  match m with
  | Claim route => Some (with_lanes (try_claim_tx route (th_next th) l).2 (th_next th + 1) [] th)
  | Admit route expected budgets now max_depth =>
      res ← admit_transaction route expected budgets now max_depth (th_next th) l;
      Some (with_lanes res.2 (th_next th + 1) [] th)
  | Event route event now =>
      res ← apply_transaction_event route event now l;
      Some (with_lanes res.1.2 (th_next th) res.2 th)
  | Book route b => let '(l, es) := book route b l in Some (with_lanes l (th_next th) es th)
  | Open route c canceller =>
      if bool_decide (c ∈ th_opened th) then None
      else
        let '(_, l, previous, es) := install_opened_session route c (th_next th) canceller l in
        Some (mk_thread l (th_guards th) (th_next th + 1) (<[th_next th := (route, c)]> (th_home th))
                ({[c]} ∪ th_opened th) (th_condemned th) (th_destroyed th ++ destroyed_in es)
                (th_pooled th ++ option_list previous))
  | Take route =>
      match guard_take route l with
      | None => Some th
      | Some (g, l) => Some (mk_thread l (g :: th_guards th) (th_next th) (th_home th) (th_opened th)
                               (th_condemned th) (th_destroyed th) (th_pooled th))
      end
  | DropGuard i =>
      g ← th_guards th !! i;
      let '(l, es) := guard_drop g l in
      Some (mk_thread l (delete i (th_guards th)) (th_next th) (th_home th) (th_opened th)
              (th_condemned th) (th_destroyed th ++ destroyed_in es) (th_pooled th))
  | Release route c =>
      if negb (is_current_in c route l) then Some th
      else
        let '(s, l) := release_session route l in
        let '(l, es) := release_admission route l in
        Some (mk_thread l (th_guards th) (th_next th) (th_home th) (th_opened th) (th_condemned th)
                (th_destroyed th ++ destroyed_in es) (th_pooled th ++ option_list s))
  | Withdraw route c =>
      if negb (is_current_in c route l) then Some th
      else
        let '(l, e1) := destroy_session route l in
        let '(l, e2) := release_admission route l in
        Some (mk_thread l (th_guards th) (th_next th) (th_home th) (th_opened th) ({[c]} ∪ th_condemned th)
                (th_destroyed th ++ destroyed_in (e1 ++ e2)) (th_pooled th))
  | Abandon route => let '(l, es) := release_tx_claim route l in Some (with_lanes l (th_next th) es th)
  end.

Fixpoint thread_moves (ms : list ThreadMove) (th : Thread) : option Thread :=
  match ms with
  | [] => Some th
  | m :: ms => th ← thread_move m th; thread_moves ms th
  end.

(** * Slots and completions *)

Definition slot (route : DbRoute) (l : TxLanes) : option Session := n ← lanes l !! route; ln_session n.

Definition one (P : Prop) `{Decision P} : nat := if decide P then 1 else 0.

(** A session parked in the slot of the route it was opened for. *)
Definition parked (s : Session) (home : gmap Session (DbRoute * Completion)) (l : TxLanes) : nat :=
  match home !! s with Some (route, _) => one (slot route l = Some s) | None => 0 end.

(** The owners of a session: its route's slot, the guards, the destroyed and the pooled. *)
Definition holders (s : Session) (th : Thread) : nat :=
  parked s (th_home th) (th_lanes th)
  + count_occ Z.eq_dec (map gd_client (th_guards th)) s
  + count_occ Z.eq_dec (th_destroyed th) s + count_occ Z.eq_dec (th_pooled th) s.

Record sound (th : Thread) : Prop := {
  so_fresh r c : transaction_completion r (th_lanes th) = Some c → (c < th_next th)%Z;
  so_home s r c : th_home th !! s = Some (r, c) → (s < th_next th)%Z ∧ c ∈ th_opened th;
  so_inj r r' c : transaction_completion r (th_lanes th) = Some c →
    transaction_completion r' (th_lanes th) = Some c → r = r';
  so_slot r s : slot r (th_lanes th) = Some s →
    ∃ c, transaction_completion r (th_lanes th) = Some c ∧ th_home th !! s = Some (r, c);
  so_guard g : g ∈ th_guards th →
    ∃ c, gd_completion g = Some c ∧ th_home th !! gd_client g = Some (gd_route g, c);
  so_count s : holders s th = one (is_Some (th_home th !! s));
  so_once s s' r r' c : th_home th !! s = Some (r, c) → th_home th !! s' = Some (r', c) → s = s';
  so_condemned c : c ∈ th_condemned th →
    (c < th_next th)%Z ∧ ∀ r, transaction_completion r (th_lanes th) ≠ Some c;
  so_pooled s : s ∈ th_pooled th → ∃ r c, th_home th !! s = Some (r, c) ∧ (c < th_next th)%Z ∧
    c ∉ th_condemned th ∧ ∀ r', transaction_completion r' (th_lanes th) ≠ Some c
}.

Lemma idle_sound : sound idle_thread.
Proof.
  split; unfold slot, transaction_completion, holders, parked, one; cbn; intros *;
    rewrite ?lookup_empty; cbn; try done; set_solver.
Qed.

(** The effect of an operation on the slot and the completion of its route, read off by cases
    on the lane. *)
Ltac at_lane :=
  unfold slot, transaction_completion, with_lane, with_entry; cbn;
  rewrite ?lookup_alter_eq, ?lookup_insert_eq, ?lookup_delete_eq.
Ltac by_lanes route r :=
  unfold slot, transaction_completion, with_lane, with_entry; cbn;
  destruct (decide (r = route)) as [->|?];
  [at_lane
  |rewrite ?lookup_alter_ne, ?lookup_insert_ne, ?lookup_delete_ne by done; try done].

(** Two lane sets agree on what the sessions depend on. *)
Definition same_view (l l' : TxLanes) : Prop :=
  ∀ r, slot r l' = slot r l ∧ transaction_completion r l' = transaction_completion r l.

Lemma same_view_refl l : same_view l l.
Proof. done. Qed.

Lemma with_lane_view route f l : (∀ n, ln_session (f n) = ln_session n) →
  (∀ n, ln_completion (f n) = ln_completion n) → same_view l (with_lane route f l).
Proof.
  intros Hs Hc r. by_lanes route r. destruct (lanes l !! route); cbn; [by rewrite Hs, Hc|done].
Qed.
Lemma with_entry_view route f l : (∀ n, ln_session (f n) = ln_session n) →
  (∀ n, ln_completion (f n) = ln_completion n) → same_view l (with_entry route f l).
Proof.
  intros Hs Hc r. by_lanes route r. destruct (lanes l !! route); cbn; by rewrite Hs, Hc.
Qed.
Ltac view :=
  unfold enter_callback, exit_callback, mark_frame_settling, clear_frame_settling, lane_push_mark, lane_pop_mark,
    lane_discard_effects, lane_push_emit, clear_pending_emits_for;
  lazymatch goal with
  | |- same_view _ (with_lane _ _ _) => by apply with_lane_view
  | |- same_view _ (with_entry _ _ _) => by apply with_entry_view
  | _ => apply same_view_refl
  end.

Lemma destroyed_woken ws : destroyed_in (map Woke ws) = [].
Proof. by induction ws. Qed.
Lemma destroyed_app es es' : destroyed_in (es ++ es') = destroyed_in es ++ destroyed_in es'.
Proof. apply omap_app. Qed.
Create HintDb lanes.
#[export] Hint Rewrite destroyed_woken destroyed_app : lanes.

Lemma book_view route b l l' es : book route b l = (l', es) → same_view l l' ∧ destroyed_in es = [].
Proof.
  destruct b; cbn [book]; unfold claim_frame, release_frame_claim, push_frame_waiter, push_tx_waiter, push_tx_slot_waiter;
    destruct (lanes l !! route); cbn [fst snd];
    try match goal with |- context [bool_decide ?P] => destruct (bool_decide P) end; intros [= <- <-]; (split; [view|by autorewrite with lanes]).
Qed.

Lemma event_view route event now l a l' es : apply_transaction_event route event now l = Some (a, l', es) →
  same_view l l' ∧ destroyed_in es = [].
Proof.
  unfold apply_transaction_event.
  destruct (n ← lanes l !! route; r ← ln_reducer n; Some (n, r)) as [[n r0]|];
    [|intros [= <- <- <-]; split; [view|done]]. intros (res & _ & [= <- <- <-])%bind_Some. split.
  - apply with_lane_view; intros n'; by case_match.
  - case_match; by autorewrite with lanes.
Qed.

(** A claim or an admission names at most one new completion. *)
Definition named (route : DbRoute) (fresh : Completion) (l l' : TxLanes) : Prop :=
  (∀ r, slot r l' = slot r l) ∧
  (∀ r, transaction_completion r l' = transaction_completion r l ∨
        r = route ∧ transaction_completion r l = None ∧ transaction_completion r l' = Some fresh).

Lemma view_named route fresh l l' : same_view l l' → named route fresh l l'.
Proof. intros H. split; intros r; [apply H|left; apply H]. Qed.

Lemma claim_named route fresh l : named route fresh l (try_claim_tx route fresh l).2.
Proof.
  unfold try_claim_tx. destruct (lanes l !! route) eqn:E; [by apply view_named|].
  split; intros r; by_lanes route r; rewrite ?E; cbn; auto.
Qed.

Lemma admit_named route expected budgets now depth fresh l a l' :
  admit_transaction route expected budgets now depth fresh l = Some (a, l') → named route fresh l l'.
Proof.
  intros (res & _ & [= <- <-])%bind_Some.
  split; intros r; by_lanes route r; destruct (lanes l !! route) as [lane|]; cbn; auto.
  destruct (ln_completion lane); cbn; auto.
Qed.

(** Closing a lane empties its slot and its completion. *)
Definition closed (route : DbRoute) (l l' : TxLanes) : Prop :=
  slot route l' = None ∧ transaction_completion route l' = None ∧
  ∀ r, r ≠ route → slot r l' = slot r l ∧ transaction_completion r l' = transaction_completion r l.

Lemma release_claim_closed route l l' es : release_tx_claim route l = (l', es) →
  closed route l l' ∧ destroyed_in es = option_list (slot route l).
Proof.
  unfold release_tx_claim, slot. destruct (lanes l !! route) as [n|] eqn:E; intros [= <- <-].
  - split; [split; [|split; [|intros r Hr]]; unfold slot, transaction_completion; cbn;
      [by rewrite lookup_delete_eq..|by rewrite lookup_delete_ne]|].
    autorewrite with lanes. unfold drop_lane. cbn. by destruct (ln_session n), (ln_completion n).
  - unfold closed, slot, transaction_completion. by rewrite E.
Qed.

Lemma wake_slot_view route l l' es : wake_tx_slot_waiters route l = (l', es) → same_view l l' ∧ destroyed_in es = [].
Proof.
  unfold wake_tx_slot_waiters. case_match; intros [= <- <-]; (split; [view|by autorewrite with lanes]).
Qed.

Lemma release_admission_closed route l l' es : release_admission route l = (l', es) →
  closed route l l' ∧ destroyed_in es = option_list (slot route l).
Proof.
  unfold release_admission, retire_transaction.
  destruct (wake_tx_slot_waiters _ _) as [l1 e1] eqn:E1. destruct (release_tx_claim _ _) as [l2 e2] eqn:E2.
  intros [= <- <-]. apply wake_slot_view in E1 as [V1 D1]. apply release_claim_closed in E2 as [(S2 & C2 & O2) D2].
  assert (slot route l1 = slot route l) as Hslot.
  { rewrite (proj1 (V1 route)). at_lane. by destruct (lanes l !! route). }
  split; [split; [done|split; [done|intros r Hr]]|].
  - destruct (O2 r Hr) as [-> ->]. destruct (V1 r) as [-> ->]. by by_lanes route r.
  - rewrite !destroyed_app, D1, D2, Hslot, app_nil_r.
    at_lane. destruct (lanes l !! route); cbn; by rewrite ?destroyed_woken.
Qed.

(** Taking the session out of a slot. *)
Definition taken (route : DbRoute) (l l' : TxLanes) : Prop :=
  slot route l' = None ∧ (∀ r, r ≠ route → slot r l' = slot r l) ∧
  ∀ r, transaction_completion r l' = transaction_completion r l.

Lemma take_taken route l s l' : take_tx_client_for route l = (s, l') → taken route l l' ∧ s = slot route l.
Proof.
  intros [= <- <-]. split; [|done]. split; [|split]; [|intros r Hr|intros r].
  - at_lane. by destruct (lanes l !! route).
  - by by_lanes route r.
  - by_lanes route r. by destruct (lanes l !! route).
Qed.

Lemma canceller_view route l : same_view l (remove_tx_canceller route l).
Proof. by apply with_lane_view. Qed.

Lemma taken_view route l l1 l' : same_view l l1 → taken route l1 l' → taken route l l'.
Proof.
  intros V (S & O & C). split; [done|split; [intros r Hr; rewrite O by done; apply V|intros r; rewrite C; apply V]].
Qed.
Lemma taken_closed route l l1 l' : taken route l l1 → closed route l1 l' → closed route l l'.
Proof.
  intros (S & O & C) (S1 & C1 & O1). split; [done|split; [done|intros r Hr]].
  destruct (O1 r Hr) as [-> ->]. by rewrite O, C.
Qed.

Lemma release_session_taken route l s l' : release_session route l = (s, l') → taken route l l' ∧ s = slot route l.
Proof.
  intros [H ->]%take_taken. pose proof (canceller_view route l) as V.
  split; [by eapply taken_view|apply V].
Qed.
Lemma destroy_session_taken route l l' es : destroy_session route l = (l', es) →
  taken route l l' ∧ destroyed_in es = option_list (slot route l).
Proof.
  unfold destroy_session, withdraw_tx_session. destruct (take_tx_client_for _ _) as [s l1] eqn:E.
  intros [= <- <-]. apply take_taken in E as [H ->]. pose proof (canceller_view route l) as V.
  split; [by eapply taken_view|]. transitivity (option_list (slot route (remove_tx_canceller route l))).
  - by destruct (slot route (mk_lanes _ _)) eqn:E; unfold slot in E |- *; cbn in *; rewrite E.
  - by rewrite (proj1 (V route)).
Qed.

(** * Every move keeps the thread sound *)

Lemma count_option o s : count_occ Z.eq_dec (option_list o) s = one (o = Some s).
Proof.
  unfold one. destruct o as [s'|]; cbn; [|by case_decide].
  destruct (Z.eq_dec s' s); case_decide; congruence.
Qed.

Lemma one_true (P : Prop) `{Decision P} : P → one P = 1.
Proof. intros. unfold one. by rewrite decide_True. Qed.
Lemma one_false (P : Prop) `{Decision P} : ¬ P → one P = 0.
Proof. intros. unfold one. by rewrite decide_False. Qed.
Lemma one_eq (P Q : Prop) `{Decision P, Decision Q} : (P ↔ Q) → one P = one Q.
Proof. intros. unfold one. repeat case_decide; tauto. Qed.

(** No session changes hands, and at most one new completion is named. *)
Lemma sound_relabelled th route l' next' : sound th → (∀ r, slot r l' = slot r (th_lanes th)) →
  (∀ r c, transaction_completion r (th_lanes th) = Some c → transaction_completion r l' = Some c) →
  (∀ r c, transaction_completion r l' = Some c → transaction_completion r (th_lanes th) = Some c ∨
    r = route ∧ c = th_next th ∧ (th_next th < next')%Z) → (th_next th ≤ next')%Z →
  sound (with_lanes l' next' [] th).
Proof.
  intros [] Hs Hold Hnew Hn. split; cbn; rewrite ?app_nil_r.
  - intros r c [H|(_ & -> & H)]%Hnew; [apply so_fresh0 in H; lia|done].
  - intros s r c H. destruct (so_home0 s r c H). split; [lia|done].
  - intros r r' c [H|(-> & -> & _)]%Hnew [H'|(-> & E & _)]%Hnew; [by eapply so_inj0|..|done];
      [apply so_fresh0 in H|apply so_fresh0 in H']; lia.
  - intros r s. rewrite Hs. intros (c & H & H')%so_slot0. eauto.
  - done.
  - intros s. rewrite <- so_count0. unfold holders, parked. cbn. rewrite app_nil_r.
    destruct (th_home th !! s) as [[r c]|]; [|done]. by rewrite Hs.
  - done.
  - intros c H. destruct (so_condemned0 c H) as [Hc Hr]. split; [lia|].
    intros r [H'|(_ & -> & _)]%Hnew; [by eapply Hr|lia].
  - intros s H. destruct (so_pooled0 s H) as (r & c & Hh & Hc & Hd & Hr). exists r, c.
    split; [done|split; [lia|split; [done|]]]. intros r' [H'|(_ & -> & _)]%Hnew; [by eapply Hr|lia].
Qed.

Lemma sound_named th route l' : sound th → named route (th_next th) (th_lanes th) l' →
  sound (with_lanes l' (th_next th + 1) [] th).
Proof.
  intros H [Hs Hc]. eapply (sound_relabelled _ route); [done|done|..|lia]; intros r c Hr.
  - destruct (Hc r) as [->|(_ & E & _)]; congruence.
  - destruct (Hc r) as [<-|(-> & _ & E)]; [by left|right]. split; [done|]. split; [congruence|lia].
Qed.

Lemma sound_view th l' es : sound th → same_view (th_lanes th) l' → destroyed_in es = [] →
  sound (with_lanes l' (th_next th) es th).
Proof.
  intros H V D. unfold with_lanes. rewrite D.
  apply (sound_relabelled _ (mk_route [] None)); [done|..|lia]; intros r; [apply V|..]; intros c;
    destruct (V r) as [_ ->]; auto.
Qed.

Section moves.
Context (th : Thread) (Hth : sound th).
Notation l := (th_lanes th).

Lemma slot_home r s : slot r l = Some s → ∃ c, th_home th !! s = Some (r, c) ∧ transaction_completion r l = Some c.
Proof using Hth. intros (c & ? & ?)%(so_slot th Hth). eauto. Qed.

(** A lane is closed; the session in its slot is destroyed or, unless its completion is
    condemned, handed back. *)
Lemma sound_closed route l' d p condemned : closed route l l' → d ++ p = option_list (slot route l) →
  (condemned = th_condemned th ∨
    p = [] ∧ ∃ c, transaction_completion route l = Some c ∧ condemned = {[c]} ∪ th_condemned th) →
  sound (mk_thread l' (th_guards th) (th_next th) (th_home th) (th_opened th) condemned
           (th_destroyed th ++ d) (th_pooled th ++ p)).
Proof using Hth.
  intros (Hs & Hc & Ho) Hdp Hcond.
  assert (∀ r c, transaction_completion r l' = Some c → r ≠ route ∧ transaction_completion r l = Some c) as Hold.
  { intros r c H. destruct (decide (r = route)) as [->|Hr]; [congruence|]. split; [done|]. by rewrite <- (proj2 (Ho r Hr)). }
  assert (∀ c, transaction_completion route l = Some c → ∀ r, transaction_completion r l' ≠ Some c) as Hgone.
  { intros c H r [Hr H']%Hold. by apply Hr, (so_inj th Hth _ _ c). }
  pose proof Hth as []. split; cbn; [|done| | |done| |done| |].
  - intros r c [_ H]%Hold. eauto.
  - intros r r' c [_ H]%Hold [_ H']%Hold. eauto.
  - intros r s H. destruct (decide (r = route)) as [->|Hr]; [congruence|].
    destruct (Ho r Hr) as [E ->]. rewrite E in H. eauto.
  - intros s. rewrite <- so_count0. unfold holders. cbn. rewrite !count_occ_app.
    assert (parked s (th_home th) l = parked s (th_home th) l' + count_occ Z.eq_dec (d ++ p) s) as ->;
      [|rewrite count_occ_app; lia]. rewrite Hdp, count_option. unfold parked.
    destruct (th_home th !! s) as [[r c]|] eqn:Eh.
    + destruct (decide (r = route)) as [->|Hr]; [by rewrite Hs, (one_false (None = _))|].
      rewrite (proj1 (Ho r Hr)), (one_false (slot route l = Some s)); [lia|].
      intros (c' & ? & ?)%slot_home. congruence.
    + rewrite one_false; [done|]. intros (c' & ? & ?)%slot_home. congruence.
  - intros c H. destruct Hcond as [->|(_ & c' & Hc' & ->)].
    + destruct (so_condemned0 c H) as [? Hr]. split; [done|]. intros r [_ ?]%Hold. by eapply Hr.
    + apply elem_of_union in H as [->%elem_of_singleton|H]; [split; eauto|].
      destruct (so_condemned0 c H) as [? Hr]. split; [done|]. intros r [_ ?]%Hold. by eapply Hr.
  - intros s [H|H]%elem_of_app.
    + destruct (so_pooled0 s H) as (r & c & ? & ? & Hd & Hr). exists r, c. split; [done|split; [done|split]].
      * destruct Hcond as [->|(_ & c' & Hc' & ->)]; [done|]. apply not_elem_of_union. split; [|done].
        intros ->%elem_of_singleton. by eapply Hr.
      * intros r' [_ ?]%Hold. by eapply Hr.
    + assert (slot route l = Some s) as (c & Hh & Hl)%slot_home.
      { assert (s ∈ option_list (slot route l)) as E by (rewrite <- Hdp; set_solver).
        destruct (slot route l); cbn in E; set_solver. }
      exists route, c. split; [done|split; [eauto|split; [|eauto]]].
      destruct Hcond as [->|(-> & _)]; [|set_solver]. intros Hd. by apply (so_condemned0 c Hd) in Hl.
Qed.

Lemma sound_taken route s l' : taken route l l' → slot route l = Some s →
  sound (mk_thread l' (mk_guard route s (transaction_completion route l') :: th_guards th) (th_next th)
           (th_home th) (th_opened th) (th_condemned th) (th_destroyed th) (th_pooled th)).
Proof using Hth.
  intros (Hs & Ho & Hc) Hslot. destruct (slot_home _ _ Hslot) as (c & Hh & Hl).
  pose proof Hth as []. split; cbn; repeat setoid_rewrite Hc; try done.
  - intros r s' H. destruct (decide (r = route)) as [->|Hr]; [congruence|]. rewrite Ho in H by done. eauto.
  - intros g [->|H]%elem_of_cons; cbn; eauto.
  - intros s'. rewrite <- so_count0. unfold holders. cbn.
    assert (parked s' (th_home th) l = parked s' (th_home th) l' + one (s = s')) as ->.
    { unfold parked. destruct (decide (s = s')) as [<-|Hne].
      - by rewrite Hh, Hs, Hslot, (one_false (None = _)), !one_true.
      - rewrite (one_false (s = s')) by done. destruct (th_home th !! s') as [[r c']|]; [|done].
        destruct (decide (r = route)) as [->|Hr]; [|rewrite Ho by done; lia].
        by rewrite Hs, Hslot, (one_false (Some s = _)), (one_false (None = _)) by congruence. }
    unfold one. destruct (Z.eq_dec s s'), (decide (s = s')); try done; lia.
Qed.

(** A guard goes, and its session is put back into its own slot or destroyed. *)
Lemma guard_count i g s : th_guards th !! i = Some g →
  count_occ Z.eq_dec (map gd_client (th_guards th)) s =
    one (gd_client g = s) + count_occ Z.eq_dec (map gd_client (delete i (th_guards th))) s.
Proof.
  intros H%delete_Permutation%(Permutation_map gd_client).
  rewrite (proj1 (Permutation_count_occ Z.eq_dec _ _) H s). cbn. unfold one. destruct (Z.eq_dec _ _), (decide _); done.
Qed.

Lemma sound_discarded i g : th_guards th !! i = Some g →
  sound (mk_thread l (delete i (th_guards th)) (th_next th) (th_home th) (th_opened th) (th_condemned th)
           (th_destroyed th ++ [gd_client g]) (th_pooled th)).
Proof using Hth.
  intros Hg. pose proof Hth as []. split; cbn; try done.
  - intros g' H%list_elem_of_delete_inv. eauto.
  - intros s. rewrite <- so_count0. unfold holders. cbn. rewrite (guard_count _ _ s Hg), count_occ_app.
    cbn. unfold one. destruct (Z.eq_dec _ _), (decide _); try done; lia.
Qed.

Lemma sound_returned i g c l' : th_guards th !! i = Some g → gd_completion g = Some c →
  transaction_completion (gd_route g) l = Some c → slot (gd_route g) l = None →
  slot (gd_route g) l' = Some (gd_client g) → (∀ r, r ≠ gd_route g → slot r l' = slot r l) →
  (∀ r, transaction_completion r l' = transaction_completion r l) →
  sound (mk_thread l' (delete i (th_guards th)) (th_next th) (th_home th) (th_opened th) (th_condemned th)
           (th_destroyed th) (th_pooled th)).
Proof using Hth.
  intros Hg Hgc Hcur He Hs Ho Hc. pose proof Hth as [].
  assert (th_home th !! gd_client g = Some (gd_route g, c)) as Hh.
  { destruct (so_guard0 g) as (c' & ? & ?); [by eapply list_elem_of_lookup_2|congruence]. }
  split; cbn; repeat setoid_rewrite Hc; try done.
  - intros r s H. destruct (decide (r = gd_route g)) as [->|Hr]; [|rewrite Ho in H by done; eauto].
    exists c. split; congruence.
  - intros g' H%list_elem_of_delete_inv. eauto.
  - intros s. rewrite <- so_count0. unfold holders. cbn. rewrite (guard_count _ _ s Hg).
    assert (parked s (th_home th) l' = parked s (th_home th) l + one (gd_client g = s)) as ->; [|lia].
    unfold parked. destruct (decide (gd_client g = s)) as [<-|Hne].
    + by rewrite Hh, Hs, He, (one_false (None = _)), !one_true.
    + rewrite (one_false (gd_client g = s)) by done. destruct (th_home th !! s) as [[r c']|]; [|done].
      destruct (decide (r = gd_route g)) as [->|Hr]; [|rewrite Ho by done; lia].
      by rewrite Hs, He, (one_false (Some _ = _)), (one_false (None = _)) by congruence.
Qed.

(** A session is opened: parked in the empty slot of its admission, or destroyed. *)
Definition opened_in (route : DbRoute) (c : Completion) (l' : TxLanes) (d : list Session) : Thread :=
  mk_thread l' (th_guards th) (th_next th + 1) (<[th_next th := (route, c)]> (th_home th)) ({[c]} ∪ th_opened th)
    (th_condemned th) (th_destroyed th ++ d) (th_pooled th).

Lemma fresh_home : th_home th !! th_next th = None.
Proof using Hth.
  destruct (th_home th !! th_next th) as [[r c]|] eqn:E; [|done]. apply (so_home th Hth) in E. lia.
Qed.

Lemma sound_opened route c l' d : c ∉ th_opened th →
  (∀ r, transaction_completion r l' = transaction_completion r l) →
  (d = [th_next th] ∧ (∀ r, slot r l' = slot r l) ∨
   d = [] ∧ transaction_completion route l = Some c ∧ slot route l = None ∧ slot route l' = Some (th_next th) ∧
   ∀ r, r ≠ route → slot r l' = slot r l) →
  sound (opened_in route c l' d).
Proof using Hth.
  intros Hop Hc Hd. pose proof Hth as []. pose proof fresh_home as Hf.
  assert (∀ s h, th_home th !! s = Some h → <[th_next th := (route, c)]> (th_home th) !! s = Some h) as Hkeep.
  { intros s h H. rewrite lookup_insert_ne; [done|congruence]. }
  split; cbn; repeat setoid_rewrite Hc.
  - intros r c' H%so_fresh0. lia.
  - intros s r c' [[<- [= <- <-]]|[_ H]]%lookup_insert_Some; [split; [lia|set_solver]|].
    destruct (so_home0 _ _ _ H). split; [lia|set_solver].
  - done.
  - intros r s H. destruct Hd as [[_ Hs]|(_ & Hcur & _ & Hs & Ho)].
    + rewrite Hs in H. destruct (so_slot0 _ _ H) as (c' & ? & ?). eauto.
    + destruct (decide (r = route)) as [->|Hr].
      * rewrite Hs in H. injection H as <-. exists c. by rewrite lookup_insert_eq.
      * rewrite Ho in H by done. destruct (so_slot0 _ _ H) as (c' & ? & ?). eauto.
  - intros g Hg. destruct (so_guard0 g Hg) as (c' & ? & ?). eauto.
  - intros s. pose proof (so_count0 s) as Hs. unfold holders in *. cbn. rewrite count_occ_app.
    destruct (decide (s = th_next th)) as [->|Hne].
    + unfold parked in *. rewrite Hf in Hs. rewrite lookup_insert_eq.
      rewrite (one_false (is_Some None)) in Hs by (by intros []). rewrite (one_true (is_Some (Some _))) by eauto.
      destruct Hd as [[-> Hsl]|(-> & _ & _ & Hsl & _)].
      * rewrite one_false; [cbn; destruct (Z.eq_dec _ _); [lia|done]|].
        rewrite Hsl. intros (c' & ? & ?)%slot_home. congruence.
      * rewrite one_true by done. cbn. lia.
    + assert (parked s (<[th_next th := (route, c)]> (th_home th)) l' = parked s (th_home th) l) as ->.
      { unfold parked. rewrite lookup_insert_ne by done. destruct (th_home th !! s) as [[r c']|]; [|done].
        destruct Hd as [[_ Hsl]|(_ & _ & He & Hsl & Ho)]; [by rewrite Hsl|].
        destruct (decide (r = route)) as [->|Hr]; [|by rewrite Ho].
        by rewrite He, Hsl, !one_false by congruence. }
      rewrite lookup_insert_ne by done. destruct Hd as [[-> _]|[-> _]]; cbn; [|lia].
      destruct (Z.eq_dec _ _); [congruence|lia].
  - intros s s' r r' c' [[<- [= <- <-]]|[_ H]]%lookup_insert_Some [[<- E]|[_ H']]%lookup_insert_Some; [done|..].
    + by apply so_home0 in H' as [_ ?].
    + injection E as <- <-. by apply so_home0 in H as [_ ?].
    + eauto.
  - intros c' H. destruct (so_condemned0 c' H). split; [lia|done].
  - intros s H. destruct (so_pooled0 s H) as (r & c' & ? & ? & ? & ?). exists r, c'.
    split; [eauto|split; [lia|done]].
Qed.

Lemma open_sound route c canceller ok l' previous es : c ∉ th_opened th →
  install_opened_session route c (th_next th) canceller l = (ok, l', previous, es) →
  previous = None ∧ sound (opened_in route c l' (destroyed_in es)).
Proof using Hth.
  intros Hop. unfold install_opened_session, is_current_in. case_bool_decide as Hcur; cbn.
  - intros [= <- <- <- <-].
    assert (slot route l = None) as He.
    { destruct (slot route l) as [s|] eqn:E; [|done]. apply slot_home in E as (c' & H & ?).
      apply (so_home th Hth) in H as [_ ?]. congruence. }
    split; [exact He|]. apply sound_opened; [done|..|right; repeat split; try done].
    all: destruct canceller; cbn; try intros r.
    all: try by_lanes route r; at_lane; rewrite ?insert_insert_eq, ?lookup_alter_eq, ?lookup_insert_eq; try done.
    all: by destruct (lanes l !! route).
  - intros [= <- <- <- <-]. split; [done|]. apply sound_opened; [done..|by left].
Qed.
End moves.

Lemma drop_sound th i g l' es : sound th → th_guards th !! i = Some g → guard_drop g (th_lanes th) = (l', es) →
  sound (mk_thread l' (delete i (th_guards th)) (th_next th) (th_home th) (th_opened th) (th_condemned th)
           (th_destroyed th ++ destroyed_in es) (th_pooled th)).
Proof.
  intros H Hg. destruct (so_guard th H g) as (c & Hc & Hh); [by eapply list_elem_of_lookup_2|].
  unfold guard_drop, is_current_in, put_tx_client_for. rewrite Hc.
  case_bool_decide as Hcur; cbn [negb]; [|intros [= <- <-]; by apply sound_discarded].
  case_bool_decide; [intros [= <- <-]; by apply sound_discarded|].
  destruct (lanes (th_lanes th) !! gd_route g) as [n|] eqn:En; [|intros [= <- <-]; by apply sound_discarded].
  case_bool_decide as Hn; [intros [= <- <-]; by apply sound_discarded|].
  intros [V ->]%wake_slot_view. rewrite app_nil_r.
  apply (sound_returned th H i g c); [done..| | | |].
  - unfold slot. rewrite En. cbn. by destruct (ln_session n) eqn:E; [destruct Hn|].
  - rewrite (proj1 (V _)). at_lane. by rewrite En.
  - intros r Hr. rewrite (proj1 (V r)). by by_lanes (gd_route g) r.
  - intros r. rewrite (proj2 (V r)). by_lanes (gd_route g) r. by rewrite En.
Qed.

Lemma thread_move_sound m th th' : sound th → thread_move m th = Some th' → sound th'.
Proof.
  intros H. destruct m as [route|route e b now d|route ev now|route b|route c canc|route|i|route c|route c|route];
    cbn [thread_move].
  - intros [= <-]. eapply sound_named; [done|apply claim_named].
  - intros ([a l'] & E & [= <-])%bind_Some. eapply sound_named; [done|by eapply admit_named].
  - intros ([[a l'] es] & [V D]%event_view & [= <-])%bind_Some. by apply sound_view.
  - destruct (book route b _) as [l' es] eqn:E. intros [= <-]. apply book_view in E as [V D]. by apply sound_view.
  - case_bool_decide as Hop; [done|].
    destruct (install_opened_session _ _ _ _ _) as [[[ok l'] previous] es] eqn:E.
    apply (open_sound th H) in E as [-> E]; [|done]. intros [= <-]. cbn [option_list]. by rewrite app_nil_r.
  - destruct (guard_take route _) as [[g l']|] eqn:E; intros [= <-]; [|done].
    unfold guard_take in E. destruct (take_tx_client_for _ _) as [s l1] eqn:Et.
    apply take_taken in Et as [T Hs]. apply bind_Some in E as (s' & Es & [= <- <-]).
    apply sound_taken; [done..|congruence].
  - intros (g & Hg & E)%bind_Some. destruct (guard_drop g _) as [l' es] eqn:Ed. injection E as <-.
    by eapply drop_sound.
  - destruct (is_current_in _ _ _); cbn [negb]; [|by intros [= <-]].
    destruct (release_session _ _) as [s l1] eqn:E1. destruct (release_admission _ _) as [l2 es] eqn:E2.
    intros [= <-]. apply release_session_taken in E1 as [T ->]. apply release_admission_closed in E2 as [C ->].
    eapply (sound_closed th H); [by eapply taken_closed| |by left].
    destruct T as [-> _]. done.
  - destruct (is_current_in c route _) eqn:Hcur; cbn [negb]; [|by intros [= <-]]. apply bool_decide_eq_true in Hcur.
    destruct (destroy_session _ _) as [l1 e1] eqn:E1. destruct (release_admission _ _) as [l2 e2] eqn:E2.
    intros [= <-]. apply destroy_session_taken in E1 as [T D1]. apply release_admission_closed in E2 as [C D2].
    rewrite <- (app_nil_r (th_pooled th)).
    eapply (sound_closed th H); [by eapply taken_closed| |right; eauto].
    rewrite destroyed_app, D1, D2. destruct T as [-> _]. by rewrite !app_nil_r.
  - destruct (release_tx_claim _ _) as [l' es] eqn:E. intros [= <-]. apply release_claim_closed in E as [C D].
    unfold with_lanes. rewrite <- (app_nil_r (th_pooled th)).
    eapply (sound_closed th H); [done|by rewrite app_nil_r|by left].
Qed.

Lemma thread_moves_sound ms th th' : sound th → thread_moves ms th = Some th' → sound th'.
Proof.
  revert th. induction ms as [|m ms IH]; intros th H; cbn [thread_moves]; [by intros [= <-]|].
  intros (th1 & E & Hm)%bind_Some. eapply IH; [by eapply thread_move_sound|done].
Qed.

Lemma condemned_stays m th th' c : c ∈ th_condemned th → thread_move m th = Some th' → c ∈ th_condemned th'.
Proof.
  intros Hc E. destruct m; cbn [thread_move] in E; try (apply bind_Some in E as (x & _ & E));
    repeat (case_match; try done); injection E as <-; cbn; try done; set_solver.
Qed.

(** C19: Whatever interleaving of claims, admissions, events, opened sessions, guards,
    settlements and abandoned claims a worker thread runs, over any number of tenants and
    databases: every session it opened has exactly one owner - the slot of the lane it was
    opened for, one guard, the sessions destroyed or the sessions handed back to a pool - and
    nothing else has any. A session found in a lane was opened for that lane's route, under
    the completion the lane has now, and a guard's session for the guard's route. *)
Theorem sessions_have_one_owner ms th : thread_moves ms idle_thread = Some th →
  (∀ s, holders s th = one (is_Some (th_home th !! s))) ∧
  (∀ r s, slot r (th_lanes th) = Some s →
    ∃ c, transaction_completion r (th_lanes th) = Some c ∧ th_home th !! s = Some (r, c)) ∧
  (∀ g, g ∈ th_guards th → ∃ c, th_home th !! gd_client g = Some (gd_route g, c)).
Proof.
  intros H%(thread_moves_sound _ _ _ idle_sound). destruct H. split; [done|split; [done|]].
  intros g (c & _ & ?)%so_guard0. eauto.
Qed.

(** C7: Once an admission's session is withdrawn, no session opened for that admission is in
    any lane or was handed to a pool, then or after any further moves - also when a guard
    held it while it was withdrawn, and when the route has been claimed and admitted again
    before the guard gives it back. *)
Theorem withdrawn_sessions_never_return ms th ms' th' c s r : thread_moves ms idle_thread = Some th →
  c ∈ th_condemned th → thread_moves ms' th = Some th' → th_home th' !! s = Some (r, c) →
  (∀ r', slot r' (th_lanes th') ≠ Some s) ∧ s ∉ th_pooled th'.
Proof.
  intros H Hc Hm Hs.
  assert (c ∈ th_condemned th') as Hc'.
  { clear H Hs. revert th Hc Hm. induction ms' as [|m ms' IH]; intros th Hc; cbn [thread_moves]; [by intros [= <-]|].
    intros (th1 & E & Hm)%bind_Some. eapply IH; [|done]. by eapply condemned_stays. }
  assert (sound th') as [] by (eapply thread_moves_sound, Hm; eapply thread_moves_sound, H; apply idle_sound).
  split.
  - intros r' (c' & Hl & Hh)%so_slot0. assert (c' = c) as -> by congruence. by apply (so_condemned0 c Hc') in Hl.
  - intros (r' & c' & Hh & _ & Hn & _)%so_pooled0. congruence.
Qed.
