(* ===== verification/TxScopes.v ===== *)
(** Two consequences of how the lanes are keyed: what runs on one route leaves every other
    route's lane alone, and the claims operations hold on their frames
    ([transaction/scope.rs]) are exclusive and only drain once a frame is being settled. *)

From stdpp Require Import gmap.
From S2P Require Import Prelude RustStd TxFrames TxReducer TxLanes TxThread.

(** * Routes *)

(** The route a move is about. *)
Definition move_route (m : ThreadMove) (th : Thread) : option DbRoute :=
  match m with
  | Claim r | Admit r _ _ _ _ | Event r _ _ | Book r _ | Open r _ _ | Take r | Release r _ | Withdraw r _
  | Abandon r => Some r
  | DropGuard i => gd_route <$> th_guards th !! i
  end.

Definition same_at (r : DbRoute) (l l' : TxLanes) : Prop :=
  lanes l' !! r = lanes l !! r ∧ (r ∈ withdrawn_tx_sessions l' ↔ r ∈ withdrawn_tx_sessions l).

Section other_route.
Context (route r : DbRoute) (Hr : r ≠ route).

Lemma same_refl l : same_at r l l.
Proof. done. Qed.
Lemma same_trans l1 l2 l3 : same_at r l1 l2 → same_at r l2 l3 → same_at r l1 l3.
Proof. intros [? ?] [? ?]. split; [congruence|tauto]. Qed.
Lemma same_with_lane f l : same_at r l (with_lane route f l).
Proof using Hr. split; [|done]. cbn. by rewrite lookup_alter_ne. Qed.
Lemma same_with_entry f l : same_at r l (with_entry route f l).
Proof using Hr. split; [|done]. cbn. by rewrite lookup_insert_ne. Qed.
Lemma same_wake l : same_at r l (wake_tx_slot_waiters route l).1.
Proof using Hr. unfold wake_tx_slot_waiters. case_match; [apply same_with_lane|apply same_refl]. Qed.
Lemma same_release_claim l : same_at r l (release_tx_claim route l).1.
Proof using Hr. unfold release_tx_claim. case_match; [|done]. split; [|done]. cbn. by rewrite lookup_delete_ne. Qed.
Lemma same_retire l : same_at r l (retire_transaction route l).1.
Proof using Hr.
  unfold retire_transaction. destruct (wake_tx_slot_waiters _ _) as [l' es] eqn:E. cbn [fst].
  change l' with (l', es).1. rewrite <- E. eapply same_trans; [|apply same_wake]. apply same_with_lane.
Qed.
Lemma same_release_admission l : same_at r l (release_admission route l).1.
Proof using Hr.
  unfold release_admission. destruct (retire_transaction _ _) as [l1 e1] eqn:E1.
  destruct (release_tx_claim _ _) as [l2 e2] eqn:E2. cbn [fst].
  eapply same_trans; [apply same_with_lane|]. eapply same_trans; [|change l2 with (l2, e2).1; rewrite <- E2; apply same_release_claim].
  change l1 with (l1, e1).1. rewrite <- E1. apply same_retire.
Qed.
Lemma same_withdraw l : same_at r l (withdraw_tx_session route l).2.
Proof using Hr. eapply same_trans; [|apply same_with_lane]. split; [done|]. cbn. set_solver. Qed.
Lemma same_put s l : same_at r l (put_tx_client_for route s l).1.
Proof using Hr.
  unfold put_tx_client_for. repeat case_match; try apply same_refl.
  eapply same_trans; [apply same_with_lane|apply same_wake].
Qed.
Lemma same_book b l : same_at r l (book route b l).1.
Proof using Hr.
  destruct b; cbn [book fst]; unfold claim_frame, release_frame_claim, push_frame_waiter, push_tx_waiter, push_tx_slot_waiter;
    repeat case_match; cbn [fst snd]; (apply same_with_lane || apply same_with_entry || apply same_refl).
Qed.
Lemma same_install c s canceller l : same_at r l (install_opened_session route c s canceller l).1.1.2.
Proof using Hr.
  unfold install_opened_session. destruct (negb _); [apply same_refl|]. cbn [install_tx_client fst snd].
  eapply same_trans; [apply same_with_entry|]. eapply same_trans; [|apply same_with_lane].
  destruct canceller; [apply same_with_entry|apply same_refl].
Qed.
End other_route.

(** The state a function of a pair leaves behind. *)
Ltac of_pair E := match type of E with ?f = (?l, ?e) => change l with (l, e).1; rewrite <- E end.

(** A move of a worker thread - a claim, an admission, an event, a session opened, taken,
    given back, released or withdrawn - leaves the lane and the withdrawal tombstone of every
    route other than its own exactly as they were: no tenant's transaction, and no other
    database's of the same tenant, is touched. *)
Theorem routes_are_isolated m th th' r : thread_move m th = Some th' → move_route m th ≠ Some r →
  lanes (th_lanes th') !! r = lanes (th_lanes th) !! r ∧
  (r ∈ withdrawn_tx_sessions (th_lanes th') ↔ r ∈ withdrawn_tx_sessions (th_lanes th)).
Proof.
  intros E Hr. change (same_at r (th_lanes th) (th_lanes th')).
  destruct m as [route|route e b now d|route ev now|route b|route c canc|route|i|route c|route c|route];
    cbn [thread_move move_route] in E, Hr; try (assert (r ≠ route) as Hne by congruence).
  - injection E as <-. unfold try_claim_tx. cbn. case_match; [done|]. split; [|done]. cbn. by rewrite lookup_insert_ne.
  - apply bind_Some in E as ([a l'] & E & [= <-]). apply bind_Some in E as (res & _ & [= <- <-]).
    split; cbn; [by rewrite lookup_insert_ne|set_solver].
  - apply bind_Some in E as ([[a l'] es] & E & [= <-]). unfold apply_transaction_event in E.
    destruct (n ← _; _) as [[n r0]|]; [|by injection E as <- <- <-].
    apply bind_Some in E as (res & _ & [= <- <- <-]). by apply same_with_lane.
  - destruct (book route b _) as [l' es] eqn:Eb. injection E as <-. cbn [with_lanes th_lanes]. of_pair Eb. by apply same_book.
  - destruct (bool_decide _); [done|]. destruct (install_opened_session _ _ _ _ _) as [[[ok l'] p] es] eqn:Ei.
    injection E as <-. cbn [th_lanes]. change l' with (ok, l', p, es).1.1.2. rewrite <- Ei. by apply same_install.
  - destruct (guard_take route _) as [[g l']|] eqn:Eg; [|by injection E as <-]. injection E as <-.
    apply bind_Some in Eg as (s & _ & [= _ <-]). by apply same_with_lane.
  - apply bind_Some in E as (g & Hg & E). rewrite Hg in Hr. destruct (guard_drop g _) as [l' es] eqn:Ed.
    injection E as <-. cbn [th_lanes]. unfold guard_drop in Ed.
    match type of Ed with (if ?b then _ else _) = _ => destruct b end; [by injection Ed as <- <-|].
    of_pair Ed. apply same_put. cbn in Hr. congruence.
  - destruct (negb _); [by injection E as <-|]. destruct (release_session _ _) as [s l1] eqn:E1.
    destruct (release_admission _ _) as [l2 es] eqn:E2. injection E as <-. cbn [th_lanes].
    of_pair E2. eapply same_trans; [|by apply same_release_admission]. injection E1 as _ <-.
    eapply same_trans; by apply same_with_lane.
  - destruct (negb _); [by injection E as <-|]. destruct (destroy_session _ _) as [l1 e1] eqn:E1.
    destruct (release_admission _ _) as [l2 e2] eqn:E2. injection E as <-. cbn [th_lanes].
    of_pair E2. eapply same_trans; [|by apply same_release_admission].
    unfold destroy_session in E1. destruct (withdraw_tx_session _ _) as [s l0] eqn:E0. injection E1 as <- _.
    change l0 with (s, l0).2. rewrite <- E0. eapply same_trans; [|by apply same_withdraw]. by apply same_with_lane.
  - destruct (release_tx_claim _ _) as [l' es] eqn:Ec. injection E as <-. cbn [with_lanes th_lanes].
    of_pair Ec. by apply same_release_claim.
Qed.

(** * Claims on frames *)

(** The claims alive, and the settlements that sampled a frame and have not finished. *)
Record Scopes := mk_scopes {
  sp_lanes : TxLanes;
  sp_claims : list TransactionScope;
  sp_works : list OutstandingWork
}.
#[global] Instance scope_eq_dec : EqDecision TransactionScope.
Proof. solve_decision. Defined.

Inductive ScopeMove :=
  | ClaimOperation (s : TransactionScope)
  | DropClaim (i : nat)
  | Sample (route : DbRoute) (frame : option Z)
  | PollDrained (i : nat) (waker : Waker)
  | DropWork (i : nat)
  | ReducerEvent (route : DbRoute) (event : TxEvent) (now : Z).

Definition scope_move (m : ScopeMove) (p : Scopes) : option Scopes :=
  let l := sp_lanes p in
  match m with
  | ClaimOperation s =>
      let '(won, l) := claim_operation s l in
      Some (mk_scopes l (match won with Ok _ => s :: sp_claims p | Err _ => sp_claims p end) (sp_works p))
  | DropClaim i =>
      s ← sp_claims p !! i;
      Some (mk_scopes (claim_drop s l).1 (delete i (sp_claims p)) (sp_works p))
  | Sample route frame =>
      match sample route frame l with
      | None => Some p
      | Some (w, l) => Some (mk_scopes l (sp_claims p) (w :: sp_works p))
      end
  | PollDrained i waker =>
      w ← sp_works p !! i;
      Some (mk_scopes (poll_drained w waker l).1.2 (sp_claims p) (sp_works p))
  | DropWork i =>
      w ← sp_works p !! i;
      Some (mk_scopes (work_drop w l) (sp_claims p) (delete i (sp_works p)))
  | ReducerEvent route event now =>
      res ← apply_transaction_event route event now l;
      Some (mk_scopes res.1.2 (sp_claims p) (sp_works p))
  end.

Fixpoint scope_moves (ms : list ScopeMove) (p : Scopes) : option Scopes :=
  match ms with
  | [] => Some p
  | m :: ms => p ← scope_move m p; scope_moves ms p
  end.

Definition held_by (s : TransactionScope) : TxLanes → bool := frame_claimed (sc_route s) (sc_generation s) (sc_frame s).
Definition settling_at (s : TransactionScope) : TxLanes → bool := frame_settling (sc_route s) (sc_generation s) (sc_frame s).

Definition claimed_of (r : DbRoute) (l : TxLanes) : gset (Z * Z) :=
  match lanes l !! r with Some n => ln_claimed_frames n | None => ∅ end.
Definition settling_of (r : DbRoute) (l : TxLanes) : gset (Z * Z) :=
  match lanes l !! r with Some n => ln_settling_frames n | None => ∅ end.
Definition key (s : TransactionScope) : Z * Z := (sc_generation s, sc_frame s).

Lemma held_claimed s l : held_by s l = true ↔ key s ∈ claimed_of (sc_route s) l.
Proof.
  unfold held_by, frame_claimed, claimed_of. destruct (lanes l !! _); [by rewrite bool_decide_eq_true|set_solver].
Qed.
Lemma settling_settling s l : settling_at s l = true ↔ key s ∈ settling_of (sc_route s) l.
Proof.
  unfold settling_at, frame_settling, settling_of. destruct (lanes l !! _); [by rewrite bool_decide_eq_true|set_solver].
Qed.

Lemma with_lane_sets route f l r n : lanes l !! route = Some n →
  claimed_of r (with_lane route f l) = (if decide (r = route) then ln_claimed_frames (f n) else claimed_of r l) ∧
  settling_of r (with_lane route f l) = (if decide (r = route) then ln_settling_frames (f n) else settling_of r l).
Proof.
  intros E. unfold claimed_of, settling_of. cbn. case_decide as Hr; [subst; by rewrite lookup_alter_eq, E|].
  by rewrite lookup_alter_ne.
Qed.

Lemma with_no_lane route f l : lanes l !! route = None → with_lane route f l = l.
Proof.
  intros E. destruct l as [m w]. unfold with_lane. cbn in *. f_equal. apply map_eq. intros r.
  destruct (decide (r = route)) as [->|]; [by rewrite lookup_alter_eq, E|by rewrite lookup_alter_ne].
Qed.

(** Neither set changes. *)
Lemma with_lane_keeps route f l r : (∀ n, ln_claimed_frames (f n) = ln_claimed_frames n) →
  (∀ n, ln_settling_frames (f n) = ln_settling_frames n) →
  claimed_of r (with_lane route f l) = claimed_of r l ∧ settling_of r (with_lane route f l) = settling_of r l.
Proof.
  intros Hc Hs. destruct (lanes l !! route) as [n|] eqn:E; [|by rewrite with_no_lane].
  destruct (with_lane_sets route f l r n E) as [-> ->]. rewrite Hc, Hs.
  unfold claimed_of, settling_of. case_decide; [subst; by rewrite E|done].
Qed.

Lemma claim_operation_sets s l res l' r : claim_operation s l = (res, l') →
  settling_of r l' = settling_of r l ∧
  match res with
  | Ok _ => key s ∉ claimed_of (sc_route s) l ∧ key s ∉ settling_of (sc_route s) l ∧
      claimed_of r l' = if decide (r = sc_route s) then {[key s]} ∪ claimed_of r l else claimed_of r l
  | Err _ => claimed_of r l' = claimed_of r l
  end.
Proof.
  unfold claim_operation, claim_frame, frame_settling. destruct (check_in s l); [|by intros [= <- <-]].
  unfold settling_of at 3, claimed_of at 1. destruct (lanes l !! sc_route s) as [n|] eqn:E; cycle 1.
  { by intros [= <- <-]. }
  case_bool_decide as Hs; [by intros [= <- <-]|].
  destruct (with_lane_sets (sc_route s) (λ n, set_claimed ({[key s]} ∪ ln_claimed_frames n) n) l r n E) as [Hc Hst].
  assert (r = sc_route s → ln_claimed_frames n = claimed_of r l ∧ ln_settling_frames n = settling_of r l) as Hn.
  { intros ->. unfold claimed_of, settling_of. by rewrite E. }
  case_bool_decide as Hk; intros [= <- <-]; unfold key in *; rewrite Hc, Hst; cbn in *;
    case_decide as Hr; try done; destruct (Hn Hr) as [H1 H2]; rewrite <- ?H1, <- ?H2; try done.
  split; [done|]. set_solver.
Qed.

Lemma claim_drop_sets s l r : settling_of r (claim_drop s l).1 = settling_of r l ∧
  claimed_of r (claim_drop s l).1 = if decide (r = sc_route s) then claimed_of r l ∖ {[key s]} else claimed_of r l.
Proof.
  unfold claim_drop, release_frame_claim, key. destruct (lanes l !! sc_route s) as [n|] eqn:E; cycle 1.
  { split; [done|]. case_decide; [subst|done]. unfold claimed_of. cbn. rewrite E. set_solver. }
  assert (r = sc_route s → ln_claimed_frames n = claimed_of r l ∧ ln_settling_frames n = settling_of r l) as Hn.
  { intros ->. unfold claimed_of, settling_of. by rewrite E. }
  case_bool_decide as Hk; cbn [fst].
  - destruct (with_lane_sets (sc_route s) (λ n, set_frame_waiters []
      (set_claimed (ln_claimed_frames n ∖ {[(sc_generation s, sc_frame s)]}) n)) l r n E) as [-> ->].
    case_decide as Hr; [|done]. destruct (Hn Hr) as [<- <-]. done.
  - split; [done|]. case_decide as Hr; [|done]. destruct (Hn Hr) as [<- _]. set_solver.
Qed.

Lemma event_sets route event now l a l' es r : apply_transaction_event route event now l = Some (a, l', es) →
  claimed_of r l' = claimed_of r l ∧ settling_of r l' = settling_of r l.
Proof.
  unfold apply_transaction_event. destruct (n ← _; _) as [[n r0]|]; [|by intros [= <- <- <-]].
  intros (res & _ & [= <- <- <-])%bind_Some. apply with_lane_keeps; intros n'; by destruct (bool_decide _).
Qed.

(** * The claims alive are the frames claimed *)

Definition exclusive (p : Scopes) : Prop :=
  NoDup (sp_claims p) ∧ ∀ s, s ∈ sp_claims p ↔ key s ∈ claimed_of (sc_route s) (sp_lanes p).

Lemma scope_ext s s' : sc_route s = sc_route s' → key s = key s' → s = s'.
Proof. destruct s, s'. unfold key. cbn. intros. congruence. Qed.

(** What a move does to the claims, and to the marks of settling frames. *)
Lemma sample_sets route frame l w l' r : sample route frame l = Some (w, l') →
  claimed_of r l' = claimed_of r l ∧ (ow_held w = true ↔ key (ow_scope w) ∈ claimed_of (sc_route (ow_scope w)) l) ∧
  key (ow_scope w) ∈ settling_of (sc_route (ow_scope w)) l' ∧ settling_of r l ⊆ settling_of r l'.
Proof.
  unfold sample, transaction_reducer. destruct (lanes l !! route) as [n|] eqn:E; [|done]. cbn [mbind option_bind].
  intros (r0 & _ & H)%bind_Some. apply bind_Some in H as (g & _ & H). apply bind_Some in H as (f & _ & [= <- <-]).
  cbn [ow_held ow_scope sc_route]. unfold mark_frame_settling.
  set (l' := with_lane _ _ _).
  assert (∀ r, claimed_of r l' = claimed_of r l ∧ settling_of r l' =
    if decide (r = route) then {[(g, f)]} ∪ settling_of r l else settling_of r l) as Hl.
  { intros r'. subst l'. destruct (with_lane_sets route (λ n, set_settling ({[(g, f)]} ∪ ln_settling_frames n) n) l r' n E) as [-> ->].
    unfold claimed_of, settling_of. case_decide; [subst; by rewrite E|done]. }
  split; [apply Hl|split; [|split]].
  - rewrite <- (proj1 (Hl route)). apply (held_claimed (mk_scope route g f)).
  - rewrite (proj2 (Hl route)), decide_True by done. unfold key. set_solver.
  - rewrite (proj2 (Hl r)). case_decide; set_solver.
Qed.

Lemma poll_sets w waker l r : claimed_of r (poll_drained w waker l).1.2 = claimed_of r l ∧
  settling_of r (poll_drained w waker l).1.2 = settling_of r l.
Proof.
  unfold poll_drained, push_frame_waiter. destruct (_ || _); [done|].
  destruct (lanes l !! _) eqn:E; [|done]. cbn [fst snd].
  match goal with |- context [bool_decide ?P] => destruct (bool_decide P) end; [done|by apply with_lane_keeps].
Qed.

Lemma work_drop_sets w l r : claimed_of r (work_drop w l) = claimed_of r l ∧
  (∀ s, sc_route s = r → key s ∈ settling_of r l → key s ∈ settling_of r (work_drop w l) ∨ ow_scope w = s).
Proof.
  unfold work_drop, clear_frame_settling. destruct (lanes l !! sc_route (ow_scope w)) as [n|] eqn:E; cycle 1.
  { rewrite with_no_lane by done. split; [done|]. by left. }
  destruct (with_lane_sets (sc_route (ow_scope w)) (λ n, set_settling (ln_settling_frames n ∖
    {[(sc_generation (ow_scope w), sc_frame (ow_scope w))]}) n) l r n E) as [-> ->].
  unfold claimed_of, settling_of. case_decide as Hr; [subst r; rewrite E|by split; [done|left]].
  split; [done|]. intros s Hs Hk. destruct (decide (key s = key (ow_scope w))) as [Hw|Hw].
  - right. by apply scope_ext.
  - left. cbn. unfold key in *. set_solver.
Qed.

Lemma scope_move_exclusive m p p' : exclusive p → scope_move m p = Some p' → exclusive p'.
Proof.
  intros [Hnd Hin] E. destruct m as [s|i|route frame|i waker|i|route event now]; cbn [scope_move] in E.
  - destruct (claim_operation s _) as [res l'] eqn:Ec. injection E as <-.
    destruct res as [[]|e]; split; cbn [sp_claims sp_lanes].
    + apply NoDup_cons. split; [|done]. rewrite Hin. by destruct (claim_operation_sets _ _ _ _ (sc_route s) Ec) as (_ & ? & _).
    + intros s'. destruct (claim_operation_sets _ _ _ _ (sc_route s') Ec) as (_ & _ & _ & Hc).
      rewrite Hc, elem_of_cons, Hin. case_decide as Hr; [|by intuition congruence].
      rewrite elem_of_union, elem_of_singleton. split; [intros [->|]; auto|].
      intros [H|H]; [left; by apply scope_ext|by right].
    + done.
    + intros s'. destruct (claim_operation_sets _ _ _ _ (sc_route s') Ec) as (_ & Hc). by rewrite Hc.
  - apply bind_Some in E as (s & Hs & [= <-]).
    assert (sp_claims p ≡ₚ s :: delete i (sp_claims p)) as Hp by (by apply delete_Permutation).
    rewrite Hp in Hnd. apply NoDup_cons in Hnd as [Hs' Hnd]. split; [done|]. cbn. intros s'.
    rewrite (proj2 (claim_drop_sets s _ (sc_route s'))). specialize (Hin s'). rewrite Hp, elem_of_cons in Hin.
    case_decide as Hr; [rewrite elem_of_difference, elem_of_singleton|];
      (split; [intros H; rewrite <- Hin|]).
    + split; [by right|]. intros Hk. by apply Hs'; rewrite <- (scope_ext s' s Hr Hk).
    + intros [[->|H]%Hin Hk]; [by destruct Hk|done].
    + by right.
    + intros [->|H]%Hin; [by destruct Hr|done].
  - destruct (sample route frame _) as [[w l']|] eqn:Es; injection E as <-; [|done].
    split; [done|]. cbn. intros s. by rewrite (proj1 (sample_sets _ _ _ _ _ (sc_route s) Es)).
  - apply bind_Some in E as (w & _ & [= <-]). split; [done|]. cbn. intros s. by rewrite (proj1 (poll_sets _ _ _ _)).
  - apply bind_Some in E as (w & _ & [= <-]). split; [done|]. cbn. intros s. by rewrite (proj1 (work_drop_sets _ _ _)).
  - apply bind_Some in E as ([[a l'] es] & Ee & [= <-]). split; [done|]. cbn. intros s.
    by rewrite (proj1 (event_sets _ _ _ _ _ _ _ (sc_route s) Ee)).
Qed.

Lemma scope_moves_exclusive ms p p' : exclusive p → scope_moves ms p = Some p' → exclusive p'.
Proof.
  revert p. induction ms as [|m ms IH]; intros p H; cbn [scope_moves]; [by intros [= <-]|].
  intros (p1 & E & Hm)%bind_Some. eapply IH; [by eapply scope_move_exclusive|done].
Qed.

Lemma unclaimed_exclusive p : sp_claims p = [] → (∀ s, held_by s (sp_lanes p) = false) → exclusive p.
Proof.
  intros E H. split; rewrite E; [constructor|]. intros s. rewrite <- held_claimed, H. set_solver.
Qed.

(** However operations are issued and dropped, frames settled and events applied, the
    claims alive are pairwise different and are exactly the frames the lanes record as
    claimed: no two operations hold one frame. A settlement that samples a frame is told
    there is outstanding work exactly when an operation holds it, and its wait ends, unless
    the transaction is being cleaned up or was replaced, exactly when none does. *)
Theorem operation_claims_are_exclusive p0 ms p : sp_claims p0 = [] → (∀ s, held_by s (sp_lanes p0) = false) →
  scope_moves ms p0 = Some p →
  NoDup (sp_claims p) ∧ (∀ s, s ∈ sp_claims p ↔ held_by s (sp_lanes p) = true) ∧
  (∀ route frame w l, sample route frame (sp_lanes p) = Some (w, l) →
    ow_held w = true ↔ ow_scope w ∈ sp_claims p) ∧
  (∀ w waker r, transaction_reducer (sc_route (ow_scope w)) (sp_lanes p) = Some r → tx_cleanup r = None →
    tx_generation r = Some (sc_generation (ow_scope w)) →
    (poll_drained w waker (sp_lanes p)).1.1 = true ↔ ow_scope w ∉ sp_claims p).
Proof.
  intros Hc Hl Hm. destruct (scope_moves_exclusive ms p0 p (unclaimed_exclusive _ Hc Hl) Hm) as [Hnd Hin].
  split; [done|split; [|split]].
  - intros s. by rewrite held_claimed.
  - intros route frame w l Hs. destruct (sample_sets _ _ _ _ _ route Hs) as (_ & -> & _). by rewrite Hin.
  - intros w waker r Hr Hcl Hg. rewrite Hin, <- held_claimed. unfold poll_drained, held_by.
    rewrite Hr, Hcl, Hg, !bool_decide_eq_true_2 by done. cbn [negb andb orb].
    destruct (frame_claimed _ _ _ _); cbn [negb]; [|by split].
    destruct (push_frame_waiter _ _ _). by split.
Qed.

(** Moves for as long as a frame is marked as settling. *)
Inductive while_settling (s : TransactionScope) (p : Scopes) : Scopes → Prop :=
  | settling_here : while_settling s p p
  | settling_there p1 m p2 : while_settling s p p1 → settling_at s (sp_lanes p1) = true →
      scope_move m p1 = Some p2 → while_settling s p p2.

Lemma settling_move s m p p' : settling_at s (sp_lanes p) = true → scope_move m p = Some p' →
  (s ∈ sp_claims p' → s ∈ sp_claims p) ∧
  (settling_at s (sp_lanes p') = true ∨ ∃ i w, m = DropWork i ∧ sp_works p !! i = Some w ∧ ow_scope w = s).
Proof.
  rewrite settling_settling. intros Hs E. setoid_rewrite settling_settling.
  destruct m as [s'|i|route frame|i waker|i|route event now]; cbn [scope_move] in E.
  - destruct (claim_operation s' _) as [res l'] eqn:Ec. injection E as <-. cbn.
    destruct (claim_operation_sets _ _ _ _ (sc_route s) Ec) as [-> Hres]. split; [|by left].
    destruct res as [[]|e]; [|done]. intros [->|H]%elem_of_cons; [by destruct Hres as (_ & ? & _)|done].
  - apply bind_Some in E as (s' & _ & [= <-]). cbn. split; [apply list_elem_of_delete_inv|left].
    by rewrite (proj1 (claim_drop_sets _ _ _)).
  - destruct (sample route frame _) as [[w l']|] eqn:Es; injection E as <-; [|by split; [|left]].
    split; [done|left]. by apply (sample_sets _ _ _ _ _ (sc_route s) Es).
  - apply bind_Some in E as (w & _ & [= <-]). split; [done|left]. cbn. by rewrite (proj2 (poll_sets _ _ _ _)).
  - apply bind_Some in E as (w & Hw & [= <-]). split; [done|]. cbn.
    destruct (proj2 (work_drop_sets w (sp_lanes p) (sc_route s)) s eq_refl Hs); [by left|right; eauto].
  - apply bind_Some in E as ([[a l'] es] & Ee & [= <-]). split; [done|left]. cbn.
    by rewrite (proj2 (event_sets _ _ _ _ _ _ _ (sc_route s) Ee)).
Qed.

(** From the moment a settlement samples its frame, no operation claims that frame until
    the settlement's own value is dropped: as long as the frame is marked, an operation that
    holds it held it when the settlement began, so once drained it stays drained; and only
    dropping a settlement of that frame removes the mark. *)
Theorem settling_frame_only_drains route frame p w l p' : sample route frame (sp_lanes p) = Some (w, l) →
  while_settling (ow_scope w) (mk_scopes l (sp_claims p) (w :: sp_works p)) p' →
  (ow_scope w ∈ sp_claims p' → ow_scope w ∈ sp_claims p) ∧
  (settling_at (ow_scope w) (sp_lanes p') = true ∨
   ∃ p1 i w', sp_works p1 !! i = Some w' ∧ ow_scope w' = ow_scope w ∧ scope_move (DropWork i) p1 = Some p' ∧
     while_settling (ow_scope w) (mk_scopes l (sp_claims p) (w :: sp_works p)) p1).
Proof.
  intros Hs. destruct (sample_sets _ _ _ _ _ route Hs) as (_ & _ & Hmark & _). rewrite <- settling_settling in Hmark.
  induction 1 as [|p1 m p2 Hw [IH _] Hst Hm]; [by split; [|left]|].
  destruct (settling_move _ _ _ _ Hst Hm) as [Hk Hmk]. split; [auto|].
  destruct Hmk as [?|(i & w' & -> & ? & ?)]; [by left|right]. exists p1, i, w'. done.
Qed.
