(* ===== verification/TxThreadExamples.v ===== *)
(** A worker thread with two tenants, and a frame settled while an operation holds it:
    instances of the theorems of [TxThread] and [TxScopes]. *)

From stdpp Require Import gmap.
From S2P Require Import TxExamples TxLanes TxThread TxScopes.

Lemma read {A B} (f : A → B) (o : option A) a b : o = Some a → f <$> o = Some b → f a = b.
Proof. intros -> E. by injection E. Qed.

Lemma runs_some {A} (o : option A) : bool_decide (is_Some o) = true → ∃ a, o = Some a.
Proof. by intros ?%bool_decide_eq_true. Qed.

(** * Two tenants *)

Definition shop : DbRoute := mk_route (lit "shop") (Some (lit "main")).
Definition blog : DbRoute := mk_route (lit "blog") (Some (lit "main")).

(** The shop's session 2 is held by a guard when it is withdrawn, and given back after the
    shop has been admitted again and opened session 6. *)
Definition condemned_run : list ThreadMove :=
  [Claim shop; Claim blog; Open shop 0 true; Open blog 1 false; Take shop; Withdraw shop 0].
Definition readmitted_run : list ThreadMove :=
  [Claim shop; Admit shop expected budgets 0 8; Take blog; DropGuard 1; Open shop 4 true; Take shop; DropGuard 0].

Lemma sessions_have_one_owner_witness : ∃ th, thread_moves (condemned_run ++ readmitted_run) idle_thread = Some th ∧
  slot shop (th_lanes th) = Some 6%Z ∧ th_destroyed th = [2%Z] ∧ holders 2 th = 1 ∧ holders 6 th = 1 ∧
  ∃ c, transaction_completion shop (th_lanes th) = Some c ∧ th_home th !! 6%Z = Some (shop, c).
Proof.
  destruct (runs_some (thread_moves (condemned_run ++ readmitted_run) idle_thread)) as [th E]; [vm_compute; reflexivity|].
  exists th. split; [exact E|].
  pose proof (sessions_have_one_owner _ _ E) as (Hc & Hs & _).
  assert (slot shop (th_lanes th) = Some 6%Z) as H6
    by (apply (read (λ th, slot shop (th_lanes th)) _ _ _ E); vm_compute; reflexivity).
  split; [exact H6|]. split; [apply (read th_destroyed _ _ _ E); vm_compute; reflexivity|].
  assert (∀ s, bool_decide (is_Some (th_home th !! s)) = true → holders s th = 1) as Hone.
  { intros s H%bool_decide_eq_true. rewrite Hc. by apply one_true. }
  split; [apply Hone, (read (λ th, bool_decide (is_Some (th_home th !! 2%Z))) _ _ _ E); vm_compute; reflexivity|].
  split; [apply Hone, (read (λ th, bool_decide (is_Some (th_home th !! 6%Z))) _ _ _ E); vm_compute; reflexivity|].
  exact (Hs shop 6%Z H6).
Defined.

Lemma withdrawn_sessions_never_return_witness : ∃ th th', thread_moves condemned_run idle_thread = Some th ∧
  thread_moves readmitted_run th = Some th' ∧ (∀ r, slot r (th_lanes th') ≠ Some 2%Z) ∧ 2%Z ∉ th_pooled th'.
Proof.
  destruct (runs_some (thread_moves condemned_run idle_thread)) as [th E]; [vm_compute; reflexivity|].
  assert (∃ th', thread_moves readmitted_run th = Some th') as [th' E'].
  { apply runs_some, (read (λ th, bool_decide (is_Some (thread_moves readmitted_run th))) _ _ _ E). vm_compute. reflexivity. }
  exists th, th'. split; [exact E|]. split; [exact E'|].
  eapply (withdrawn_sessions_never_return condemned_run th readmitted_run th' 0 2 shop E); [|exact E'|].
  - apply (bool_decide_unpack _).
    rewrite (read (λ th, bool_decide (0%Z ∈ th_condemned th)) _ _ true E); [exact I|vm_compute; reflexivity].
  - apply (read (λ th, th_home th !! 2%Z) (thread_moves readmitted_run th)); [exact E'|].
    apply (read (λ th, (λ th, th_home th !! 2%Z) <$> thread_moves readmitted_run th) _ _ _ E). vm_compute. reflexivity.
Defined.

Lemma routes_are_isolated_witness : ∃ th th', thread_moves condemned_run idle_thread = Some th ∧
  thread_move (Abandon shop) th = Some th' ∧ lanes (th_lanes th') !! blog = lanes (th_lanes th) !! blog.
Proof.
  destruct (runs_some (thread_moves condemned_run idle_thread)) as [th E]; [vm_compute; reflexivity|].
  destruct (runs_some (thread_move (Abandon shop) th)) as [th' E'].
  { apply (read (λ th, bool_decide (is_Some (thread_move (Abandon shop) th))) _ _ _ E). vm_compute. reflexivity. }
  exists th, th'. split; [exact E|]. split; [exact E'|].
  apply (routes_are_isolated (Abandon shop) th th' blog E'). discriminate.
Defined.

(** An event queued on a route whose transaction has ended opens a lane no transaction owns:
    the route can then not be claimed. *)
Lemma stray_event_blocks_route l route ev fresh : lanes l !! route = None →
  (try_claim_tx route fresh l).1 = true ∧ (try_claim_tx route fresh (lane_push_emit route ev l)).1 = false.
Proof. intros E. unfold try_claim_tx. rewrite E. cbn. by rewrite lookup_insert_eq. Qed.

(** * A frame settled while an operation holds it *)

Definition begun_lanes : TxLanes :=
  match thread_moves ([Claim shop; Admit shop expected budgets 0 8; Open shop 0 true] ++
                      map (λ e, Event shop e 0) begun) idle_thread with
  | Some th => th_lanes th
  | None => no_lanes
  end.

Definition rest_scopes : Scopes := mk_scopes begun_lanes [] [].
Definition root_scope : TransactionScope := mk_scope shop 1 1.
Definition held_run : list ScopeMove := [ClaimOperation root_scope; ClaimOperation root_scope; Sample shop None].

Lemma unclaimed l : bool_decide (map_Forall (λ _ n, ln_claimed_frames n = ∅) (lanes l)) = true →
  ∀ s, held_by s l = false.
Proof.
  rewrite bool_decide_eq_true. intros H s. unfold held_by, frame_claimed.
  destruct (lanes l !! sc_route s) as [n|] eqn:E; [|done]. rewrite (H _ _ E). by apply bool_decide_eq_false_2.
Qed.

Lemma operation_claims_are_exclusive_witness : ∃ p, scope_moves held_run rest_scopes = Some p ∧
  sp_claims p = [root_scope] ∧ held_by root_scope (sp_lanes p) = true.
Proof.
  destruct (runs_some (scope_moves held_run rest_scopes)) as [p E]; [vm_compute; reflexivity|].
  exists p. split; [exact E|].
  assert (sp_claims p = [root_scope]) as Hc by (apply (read sp_claims _ _ _ E); vm_compute; reflexivity).
  split; [exact Hc|].
  apply (operation_claims_are_exclusive rest_scopes held_run p); [reflexivity| |exact E|].
  - apply unclaimed. vm_compute. reflexivity.
  - rewrite Hc. left.
Defined.

Definition reclaimed (x : OutstandingWork * TxLanes) : option Scopes :=
  scope_move (ClaimOperation root_scope) (mk_scopes x.2 [] [x.1]).

Lemma settling_frame_only_drains_witness : ∃ w l p', sample shop None begun_lanes = Some (w, l) ∧
  reclaimed (w, l) = Some p' ∧ ow_scope w ∉ sp_claims p'.
Proof.
  destruct (runs_some (sample shop None begun_lanes)) as [[w l] E]; [vm_compute; reflexivity|].
  destruct (runs_some (reclaimed (w, l))) as [p' E'].
  { apply (read (λ x, bool_decide (is_Some (reclaimed x))) _ _ _ E). vm_compute. reflexivity. }
  exists w, l, p'. split; [exact E|]. split; [exact E'|]. intros H.
  apply (not_elem_of_nil (ow_scope w)). change [] with (sp_claims rest_scopes).
  apply (settling_frame_only_drains shop None rest_scopes w l p' E); [|exact H].
  eapply settling_there; [apply settling_here| |exact E'].
  apply (read (λ x, settling_at (ow_scope x.1) x.2) _ _ _ E). vm_compute. reflexivity.
Defined.
