(* ===== verification/Resp.v ===== *)
(** The reply framing of the Redis client ([libs/compio-redis/src/protocol/mod.rs]
    and [error.rs]).

    [OwnedFrame] is the reply value of [redis-protocol]; that crate's parser and printer
    are third-party functions and so the operations of the class [RespCodec].
    [ReplyDecoder] measures how many bytes of the read buffer form one reply, across
    reads: [scan] is its loop, one [scan_step] per round, the round an element header.
    Positions are [nat]; lengths and element counts, which a server declares, are [Z]
    with [usize] written out where the code saturates. *)
From S2P Require Import Prelude RustStd.

(** ** Replies and errors *)

Inductive OwnedFrame :=
  | SimpleString (s : bytes)
  | Error (s : bytes)
  | Integer (i : Z)
  | BulkString (b : bytes)
  | Array (items : list OwnedFrame)
  | Null.

(** Why a reply is refused while it is framed: one constructor per message of
    [ReplyDecoder]. *)
Inductive ProtocolError :=
  | InvalidType (kind : byte) (offset : nat)
  | UnterminatedLength (offset : nat)
  | LengthTooLong (n : nat)
  | LengthNotText
  | BadLength (text : bytes)
  | DeclaredTooLarge (len : Z)
  | TooManyElements (need : Z)
  | FramingDesync (extent : nat)
  | Decode
  | Encode
  | EmptyRole
  | InvalidAddress
  | InvalidPort.

(** The kinds of [std::io::Error] the client makes itself, and those it passes on. *)
Inductive IoError := TimedOut | InvalidData | UnexpectedEof | OtherIo.

(** [Error], the enum of [error.rs]. Messages are kept where the code reads them. *)
Inductive RedisError :=
  | EIo (e : IoError)
  | EProtocol (e : ProtocolError)
  | EServer (msg : bytes)
  | EConfig
  | EPool
  | EAuth (msg : bytes)
  | EUnexpected
  | EMoved (slot : Z) (addr : bytes)
  | EAsk (slot : Z) (addr : bytes)
  | ECrossSlot
  | ENoRoute (slot : Z)
  | EClusterBootstrap.

Notation redis := (result RedisError).
Notation protocol_err e := (Err (EProtocol e)).

#[global] Instance ProtocolError_eq_dec : EqDecision ProtocolError.
Proof. solve_decision. Defined.
#[global] Instance IoError_eq_dec : EqDecision IoError.
Proof. solve_decision. Defined.
#[global] Instance RedisError_eq_dec : EqDecision RedisError.
Proof. solve_decision. Defined.

Definition build_cmd (parts : list bytes) : OwnedFrame := Array (map BulkString parts).

(** ** The scan *)

Definition usize_max : Z := (2 ^ 64 - 1)%Z.
Definition MAX_LEN_HEADER : nat := 24.

Record ReplyDecoder := mkDecoder {
  max_reply_size : Z;
  offset : nat;
  probe : nat;
  need : Z
}.

#[global] Instance ReplyDecoder_eq_dec : EqDecision ReplyDecoder.
Proof. solve_decision. Defined.

Definition new_decoder (max : Z) : ReplyDecoder := mkDecoder max 0 0 1.

(** The first CRLF of a suffix of the buffer, by the loop's window of two bytes. *)
Fixpoint crlf_in (s : bytes) : option nat :=
  match s with
  | b :: (c :: _) as s' =>
      if bool_decide (b = "013"%byte) && bool_decide (c = "010"%byte) then Some 0
      else S <$> crlf_in s'
  | _ => None
  end.

Definition find_crlf (buf : bytes) (from : nat) : option nat :=
  (λ i, from + i) <$> crlf_in (drop from buf).

(** [std::str::from_utf8]: a lossy conversion changes exactly what is not UTF-8. *)
Definition from_utf8 (s : bytes) : option bytes :=
  if bool_decide (from_utf8_lossy s = s) then Some s else None.

Definition parse_len (max : Z) (digits : bytes) : redis (option Z) :=
  if MAX_LEN_HEADER <? length digits then protocol_err (LengthTooLong (length digits))
  else
    text ← ok_or (from_utf8 digits) (EProtocol LengthNotText);
    len ← ok_or (parse_i64 text) (EProtocol (BadLength text));
    if (len <? 0)%Z then Ok None
    else if (max <? len)%Z then protocol_err (DeclaredTooLarge len)
    else Ok (Some len).

Definition is_line (kind : byte) : bool :=
  match kind with "+"%byte | "-"%byte | ":"%byte => true | _ => false end.
Definition is_counted (kind : byte) : bool :=
  match kind with "$"%byte | "*"%byte => true | _ => false end.

(** What one round of the loop does: start another round, or return. *)
Inductive scan_next :=
  | Again
  | Return (r : redis (option nat)).

Definition set_probe (d : ReplyDecoder) (p : nat) : ReplyDecoder :=
  mkDecoder (max_reply_size d) (offset d) p (need d).
Definition set_need (d : ReplyDecoder) (n : Z) : ReplyDecoder :=
  mkDecoder (max_reply_size d) (offset d) (probe d) n.
(** The end of a round: [offset] moves on and [probe] with it. *)
Definition move_to (d : ReplyDecoder) (o : nat) : ReplyDecoder :=
  mkDecoder (max_reply_size d) o o (need d).

(** The element at [offset] of kind [kind], its header ended by the CRLF at [crlf]. *)
Definition scan_element (d : ReplyDecoder) (buf : bytes) (kind : byte) (crlf : nat) :
    ReplyDecoder * scan_next :=
  let after := crlf + 2 in
  let digits := take (crlf - (offset d + 1)) (drop (offset d + 1) buf) in
  let d1 := set_need d (need d - 1) in
  if is_line kind then (move_to d1 after, Again)
  else
    match parse_len (max_reply_size d) digits with
    | Err e => (d1, Return (Err e))
    | Ok len =>
        if bool_decide (kind = "$"%byte) then
          (move_to d1 (match len with
                       | Some len => after + Z.to_nat len + 2
                       | None => after
                       end), Again)
        else
          match len with
          | None => (move_to d1 after, Again)
          | Some len =>
              let d2 := set_need d1 (Z.min (need d1 + len) usize_max) in
              if (max_reply_size d <? need d2)%Z then
                (d2, Return (protocol_err (TooManyElements (need d2))))
              else (move_to d2 after, Again)
          end
    end.

Definition scan_step (d : ReplyDecoder) (buf : bytes) : ReplyDecoder * scan_next :=
  if (need d =? 0)%Z then
    (d, Return (Ok (if offset d <=? length buf then Some (offset d) else None)))
  else
    match buf !! offset d with
    | None => (d, Return (Ok None))
    | Some kind =>
        if negb (is_line kind || is_counted kind) then
          (d, Return (protocol_err (InvalidType kind (offset d))))
        else
          let from := probe d `max` (offset d + 1) in
          match find_crlf buf from with
          | None =>
              (set_probe d (from `max` (length buf - 1)),
               Return (if is_counted kind && (MAX_LEN_HEADER + 1 <? length buf - offset d)
                       then protocol_err (UnterminatedLength (offset d))
                       else Ok None))
          | Some crlf => scan_element d buf kind crlf
          end
    end.

(** [offset] moves past a CRLF in every round, so [length buf] rounds and the one that
    returns are enough ([scan_eq]). *)
Fixpoint scan_loop (fuel : nat) (d : ReplyDecoder) (buf : bytes) :
    ReplyDecoder * redis (option nat) :=
  match fuel with
  | 0 => (d, Ok None)
  | S fuel =>
      match scan_step d buf with
      | (d', Again) => scan_loop fuel d' buf
      | (d', Return r) => (d', r)
      end
  end.

Definition scan (d : ReplyDecoder) (buf : bytes) : ReplyDecoder * redis (option nat) :=
  scan_loop (S (length buf)) d buf.

(** ** Taking a reply *)

(** [redis_protocol::resp2]: [decode] gives the reply at the front of a buffer with the
    number of bytes it takes, [Some None] if it is partial; [encode] prints a frame. *)
Class RespCodec := {
  decode : bytes → option (option (OwnedFrame * nat));
  encode : OwnedFrame → option bytes
}.

Section decoding.
Context `{RespCodec}.

Definition encode_frame (frame : OwnedFrame) : redis bytes :=
  ok_or (encode frame) (EProtocol Encode).

Definition try_decode (buf : bytes) : redis (option (OwnedFrame * nat)) :=
  ok_or (decode buf) (EProtocol Decode).

(** [take_frame]: the decoder, the buffer and the outcome. *)
Definition take_frame (d : ReplyDecoder) (buf : bytes) :
    ReplyDecoder * bytes * redis (option OwnedFrame) :=
  match scan d buf with
  | (d', Err e) => (d', buf, Err e)
  | (d', Ok None) => (d', buf, Ok None)
  | (d', Ok (Some extent)) =>
      match try_decode (take extent buf) with
      | Err e => (d', buf, Err e)
      | Ok None => (d', buf, protocol_err (FramingDesync extent))
      | Ok (Some (frame, consumed)) =>
          (new_decoder (max_reply_size d'), drop consumed buf, Ok (Some frame))
      end
  end.
End decoding.

(** ** Reply shapes *)

Definition expect_ok (frame : OwnedFrame) : redis unit :=
  match frame with
  | SimpleString s => if bool_decide (s = lit "OK") then Ok tt else Err EUnexpected
  | Error msg => Err (EServer msg)
  | _ => Err EUnexpected
  end.

Definition expect_integer (frame : OwnedFrame) : redis Z :=
  match frame with
  | Integer i => Ok i
  | Error msg => Err (EServer msg)
  | _ => Err EUnexpected
  end.

Definition expect_bulk_or_null (frame : OwnedFrame) : redis (option bytes) :=
  match frame with
  | BulkString b => Ok (Some b)
  | SimpleString s => Ok (Some s)
  | Null => Ok None
  | Error msg => Err (EServer msg)
  | _ => Err EUnexpected
  end.

Definition expect_array (frame : OwnedFrame) : redis (list OwnedFrame) :=
  match frame with
  | Array items => Ok items
  | Null => Ok []
  | Error msg => Err (EServer msg)
  | _ => Err EUnexpected
  end.
