(* ===== verification/RespFacts.v ===== *)
(** Theorems on the reply framing of [Resp].

    The decoder resumes: scanning a buffer, then the same buffer with more bytes, gives
    what one scan of all the bytes gives ([feed] is the loop of reads). The exception is
    exactly one split of one header length, and [wire], the RESP2 grammar, never has it:
    every reply of the grammar is measured exactly, however it is cut. *)
From stdpp Require Import relations.
From S2P Require Import Prelude RustStd Resp.

(** ** The CRLF search *)

Lemma crlf_in_cons b c s : crlf_in (b :: c :: s) =
  if bool_decide (b = "013"%byte) && bool_decide (c = "010"%byte) then Some 0
  else S <$> crlf_in (c :: s).
Proof. done. Qed.

Lemma crlf_in_bound s i : crlf_in s = Some i → S i < length s.
Proof.
  revert i. induction s as [|b [|c s] IH]; intros i; [done|done|].
  rewrite crlf_in_cons. case_match; [intros [= <-]; simpl; lia|].
  intros (j & Hj & ->)%fmap_Some. apply IH in Hj. simpl in *. lia.
Qed.

Lemma crlf_in_app s t i : crlf_in s = Some i → crlf_in (s ++ t) = Some i.
Proof.
  revert i. induction s as [|b [|c s] IH]; intros i; [done|done|].
  cbn [app] in *. rewrite !crlf_in_cons. case_match; [done|].
  intros (j & Hj & ->)%fmap_Some. by rewrite (IH j).
Qed.

(** Nothing before the last byte of a suffix without a CRLF need be looked at again. *)
Lemma crlf_in_skip n s t : crlf_in s = None → n ≤ length s - 1 →
  crlf_in (s ++ t) = (λ i, n + i) <$> crlf_in (drop n (s ++ t)).
Proof.
  revert n. induction s as [|b [|c s] IH]; intros [|n] Hs Hn; cbn [length] in Hn; try lia;
    try (rewrite drop_0; symmetry; apply option_fmap_id).
  cbn [app drop length] in *. rewrite crlf_in_cons in Hs |- *. case_match; [done|].
  apply fmap_None in Hs. rewrite (IH n) by (done || lia). by rewrite <-option_fmap_compose.
Qed.

Lemma find_crlf_bound b from i : find_crlf b from = Some i → from ≤ i ∧ S i < length b.
Proof.
  intros (j & Hj & ->)%fmap_Some. apply crlf_in_bound in Hj. rewrite length_drop in Hj. lia.
Qed.

Lemma find_crlf_app b c from i : find_crlf b from = Some i → find_crlf (b ++ c) from = Some i.
Proof.
  intros Hi. pose proof (find_crlf_bound _ _ _ Hi). unfold find_crlf in *.
  apply fmap_Some in Hi as (j & Hj & ->).
  rewrite drop_app_le by lia. by rewrite (crlf_in_app _ _ j).
Qed.

Lemma find_crlf_resume b c from : find_crlf b from = None →
  find_crlf (b ++ c) (from `max` (length b - 1)) = find_crlf (b ++ c) from.
Proof.
  intros Hn. unfold find_crlf in *. apply fmap_None in Hn.
  destruct (decide (from < length b)) as [Hlt|].
  - replace (from `max` (length b - 1)) with (from + (length b - 1 - from)) by lia.
    rewrite <-drop_drop. rewrite (drop_app_le b c from) by lia.
    rewrite (crlf_in_skip (length b - 1 - from) (drop from b) c Hn) by (rewrite length_drop; lia).
    destruct (crlf_in (drop _ (drop from b ++ c))) as [j|]; [simpl; f_equal; lia|done].
  - by replace (from `max` (length b - 1)) with from by lia.
Qed.

Definition CRLF : bytes := ["013"%byte; "010"%byte].

(** A header is its text up to the CRLF that ends it. *)
Lemma find_crlf_header pre s rest : "013"%byte ∉ s →
  find_crlf (pre ++ s ++ CRLF ++ rest) (length pre) = Some (length pre + length s).
Proof.
  intros Hs. unfold find_crlf. rewrite drop_app_length.
  enough (crlf_in (s ++ CRLF ++ rest) = Some (length s)) as -> by done.
  induction s as [|b s IH]; [done|]. apply not_elem_of_cons in Hs as [Hb Hs].
  specialize (IH Hs). cbn [app length].
  destruct (s ++ _) as [|c u] eqn:Hu; [done|].
  rewrite crlf_in_cons, bool_decide_false by done. by rewrite andb_false_l, IH.
Qed.

(** ** Rounds of the loop *)

Lemma counted_not_line kind : is_counted kind = true → is_line kind = false.
Proof. by destruct kind. Qed.

(** A round that goes on stays the same whatever is read after the buffer. *)
Lemma scan_element_app d b c kind crlf : crlf < length b →
  scan_element d (b ++ c) kind crlf = scan_element d b kind crlf.
Proof.
  intros Hlt. unfold scan_element.
  destruct (decide (offset d + 1 ≤ length b)).
  - rewrite drop_app_le by lia.
    by rewrite take_app_le by (rewrite length_drop; lia).
  - by replace (crlf - (offset d + 1)) with 0 by lia.
Qed.

Lemma scan_element_moves d b kind crlf d' : offset d < crlf →
  scan_element d b kind crlf = (d', Again) → offset d + 2 < offset d' ∧ probe d' = offset d'.
Proof.
  intros Hlt. unfold scan_element. repeat case_match; intros [= <-]; simpl; lia.
Qed.

Lemma scan_step_again d b d' : scan_step d b = (d', Again) →
  ∃ kind crlf, b !! offset d = Some kind ∧ need d ≠ 0%Z ∧ is_line kind || is_counted kind = true ∧
    find_crlf b (probe d `max` (offset d + 1)) = Some crlf ∧
    scan_element d b kind crlf = (d', Again).
Proof.
  unfold scan_step. destruct (need d =? 0)%Z eqn:Hneed; [done|].
  destruct (b !! offset d) as [kind|]; [|done].
  destruct (is_line kind || is_counted kind) eqn:Hkind; [|done]. cbn [negb].
  destruct (find_crlf b _) as [crlf|] eqn:Hf; [|done].
  intros H. exists kind, crlf. split_and!; try done. lia.
Qed.

Lemma scan_step_moves d b d' : scan_step d b = (d', Again) →
  offset d < length b ∧ offset d + 2 < offset d' ∧ probe d' = offset d'.
Proof.
  intros (kind & crlf & Hk & _ & _ & Hf & H)%scan_step_again.
  apply lookup_lt_Some in Hk. apply find_crlf_bound in Hf as [].
  split; [done|]. apply (scan_element_moves _ _ _ _ _) in H; lia.
Qed.

Lemma scan_loop_fuel m n d b : length b - offset d < m → length b - offset d < n →
  scan_loop m d b = scan_loop n d b.
Proof.
  revert n d. induction m as [|m IH]; intros n d Hm Hn; [lia|].
  destruct n as [|n]; [lia|]. cbn [scan_loop].
  destruct (scan_step d b) as [d' [|r]] eqn:E; [|done].
  apply scan_step_moves in E. apply IH; lia.
Qed.

(** The loop never runs out of rounds: [scan] satisfies its own equation. *)
Lemma scan_eq d b : scan d b =
  match scan_step d b with (d', Again) => scan d' b | (d', Return r) => (d', r) end.
Proof.
  unfold scan at 1. cbn [scan_loop].
  destruct (scan_step d b) as [d' [|r]] eqn:E; [|done].
  apply scan_step_moves in E. apply scan_loop_fuel; lia.
Qed.

Lemma scan_ind b (P : ReplyDecoder → Prop) :
  (∀ d, (∀ d', scan_step d b = (d', Again) → P d') → P d) → ∀ d, P d.
Proof.
  intros IH d. remember (length b - offset d) as n eqn:Hn. revert d Hn.
  induction n as [n IHn] using lt_wf_ind. intros d ->. apply IH. intros d' E.
  apply scan_step_moves in E. eapply (IHn (length b - offset d')); [lia|done].
Qed.

(** The search for the header at [offset] has lost nothing to the watermark. *)
Definition probed (d : ReplyDecoder) (b : bytes) : Prop :=
  ∀ c, find_crlf (b ++ c) (probe d `max` (offset d + 1)) = find_crlf (b ++ c) (offset d + 1).

Lemma probed_moved d b : probe d = offset d → probed d b.
Proof. intros E c. rewrite E. f_equal. lia. Qed.

Lemma probed_app d b c : probed d b → probed d (b ++ c).
Proof. intros H c'. rewrite <-(assoc_L (++)). apply H. Qed.

Lemma probed_parked d b : probed d b → find_crlf b (probe d `max` (offset d + 1)) = None →
  probed (set_probe d ((probe d `max` (offset d + 1)) `max` (length b - 1))) b.
Proof.
  intros Hp Hn c. cbn [set_probe probe offset]. rewrite <-Hp.
  rewrite <-(find_crlf_resume b c _ Hn). f_equal. lia.
Qed.
#[export] Hint Resolve probed_moved probed_app probed_parked : frames.

Lemma scan_step_probed d b d' : scan_step d b = (d', Again) → probed d' b.
Proof. intros E%scan_step_moves. apply probed_moved. naive_solver. Qed.

Lemma scan_step_app d b c d' :
  scan_step d b = (d', Again) → scan_step d (b ++ c) = (d', Again).
Proof.
  intros (kind & crlf & Hk & Hneed & Hkind & Hf & H)%scan_step_again.
  unfold scan_step. rewrite (proj2 (Z.eqb_neq _ _) Hneed), (lookup_app_l_Some _ _ _ _ Hk), Hkind.
  rewrite (find_crlf_app _ _ _ _ Hf). cbn [negb].
  apply find_crlf_bound in Hf as []. rewrite scan_element_app; [done|lia].
Qed.

(** ** Resuming *)

(** Two scans that agree: on everything, or on the error they end with. *)
Definition agree (x y : ReplyDecoder * redis (option nat)) : Prop :=
  x = y ∨ ∃ e, x.2 = Err e ∧ y.2 = Err e.

Lemma agree_snd x y : agree x y → x.2 = y.2.
Proof. intros [->|(e & -> & ->)]; done. Qed.

Lemma scan_element_set_probe d p b kind crlf :
  scan_element (set_probe d p) b kind crlf =
    match scan_element d b kind crlf with
    | (d', Again) => (d', Again)
    | (d', r) => (set_probe d' p, r)
    end.
Proof.
  unfold scan_element, set_probe, set_need, move_to. cbn [max_reply_size offset probe need].
  destruct (is_line kind); [done|]. destruct (parse_len _ _) as [[len|]|]; [|by case_match|done].
  case_match; [done|]. by case_match.
Qed.

Lemma scan_element_returns d b kind crlf d' r :
  scan_element d b kind crlf = (d', Return r) → ∃ e, r = Err e ∧ ∀ o, e ≠ EProtocol (UnterminatedLength o).
Proof.
  unfold scan_element, parse_len, from_utf8. intros H.
  repeat (case_match; simplify_eq/=; try done); eauto.
  all: repeat match goal with H : context [ok_or ?o _] |- _ => destruct o; simplify_eq/= end.
  all: repeat (case_match; simplify_eq/=); eauto.
Qed.


(** The rounds of a scan that go on. *)
Definition goes_on (w : bytes) (d d' : ReplyDecoder) : Prop := scan_step d w = (d', Again).

(** A header the scan of [w] reaches whose length field fills [MAX_LEN_HEADER]: the only one
    that a read may end inside of its CRLF and have refused. *)
Definition full_header (w : bytes) (d : ReplyDecoder) : Prop :=
  ∃ dd kind, rtc (goes_on w) d dd ∧ need dd ≠ 0%Z ∧
    w !! offset dd = Some kind ∧ is_counted kind = true ∧
    find_crlf w (offset dd + 1) = Some (offset dd + 1 + MAX_LEN_HEADER).

Lemma full_header_step w d d' : goes_on w d d' → full_header w d' → full_header w d.
Proof.
  intros Hs (dd & kind & Hr & H). exists dd, kind. split; [by eapply rtc_l|done].
Qed.

Lemma scan_some_app d b c n :
  (scan d b).2 = Ok (Some n) → scan d (b ++ c) = scan d b ∧ n ≤ length b.
Proof.
  revert d. refine (scan_ind b (λ d, _) _). intros d IH. rewrite (scan_eq d b), (scan_eq d (b ++ c)).
  destruct (scan_step d b) as [d' [|r]] eqn:E.
  - rewrite (scan_step_app _ _ c _ E). by apply IH.
  - cbn [snd]. intros ->. revert E. unfold scan_step.
    destruct (need d =? 0)%Z.
    + destruct (offset d <=? length b) eqn:Hle; intros [= <- <-].
      apply Nat.leb_le in Hle. rewrite length_app.
      by rewrite (proj2 (Nat.leb_le _ (length b + length c))) by lia.
    + destruct (b !! offset d) as [kind|]; [|done]. destruct (negb _); [done|].
      destruct (find_crlf b _); [by intros (? & ? & _)%scan_element_returns|].
      by destruct (is_counted kind && _).
Qed.

(** A round after the search was parked goes as the round before would have. *)
Lemma scan_step_set_probe d b c kind :
  let from := probe d `max` (offset d + 1) in
  need d ≠ 0%Z → b !! offset d = Some kind → is_line kind || is_counted kind = true →
  find_crlf b from = None →
  let s := scan_step (set_probe d (from `max` (length b - 1))) (b ++ c) in
  s = scan_step d (b ++ c) ∨ ∃ e, s.2 = Return (Err e) ∧ (scan_step d (b ++ c)).2 = Return (Err e).
Proof.
  intros from Hneed%Z.eqb_neq Hk Hkind Hf. unfold scan_step. cbn [set_probe offset need probe].
  rewrite Hneed, (lookup_app_l_Some _ _ _ _ Hk), Hkind. cbn [negb]. fold from.
  replace ((from `max` (length b - 1)) `max` (offset d + 1)) with (from `max` (length b - 1)) by lia.
  rewrite find_crlf_resume by done.
  change (mkDecoder (max_reply_size d) (offset d) ?p (need d)) with (set_probe d p).
  destruct (find_crlf (b ++ c) from) as [crlf|].
  - rewrite scan_element_set_probe.
    destruct (scan_element d (b ++ c) kind crlf) as [d2 [|r]] eqn:E; [by left|].
    apply scan_element_returns in E as (e & -> & _). right. by exists e.
  - left. unfold set_probe. cbn [max_reply_size offset need].
    rewrite length_app. f_equal. f_equal. lia.
Qed.

(** Where a scan stopped for want of bytes, it resumes as if it had not stopped. *)
Definition resumes (w : bytes) (d' d : ReplyDecoder) : Prop :=
  agree (scan d' w) (scan d w) ∧ (full_header w d' → full_header w d).

Lemma resumes_refl w d : resumes w d d.
Proof. split; [by left|done]. Qed.

Lemma resumes_goes_on w d' d2 d : goes_on w d d2 → resumes w d' d2 → resumes w d' d.
Proof.
  intros Hs [Ha Hf]. split; [by rewrite (scan_eq d), Hs|].
  intros H%Hf. by eapply full_header_step.
Qed.

Lemma scan_step_parked d b c d' : probed d b → scan_step d b = (d', Return (Ok None)) →
  probed d' b ∧ resumes (b ++ c) d' d.
Proof.
  intros Hp. unfold scan_step.
  destruct (need d =? 0)%Z eqn:Hneed; [intros [= <- ?]; split; [done|apply resumes_refl]|].
  destruct (b !! offset d) as [kind|] eqn:Hk; [|intros [= <-]; split; [done|apply resumes_refl]].
  destruct (is_line kind || is_counted kind) eqn:Hkind; [|done]. cbn [negb].
  destruct (find_crlf b _) as [crlf|] eqn:Hf.
  { by intros (? & ? & _)%scan_element_returns. }
  intros [= <- _]. split; [auto with frames|]. apply Z.eqb_neq in Hneed.
  pose proof (scan_step_set_probe d b c kind Hneed Hk Hkind Hf) as Hs. split.
  - rewrite (scan_eq (set_probe _ _)), (scan_eq d). destruct Hs as [->|(e & H1 & H2)]; [by left|].
    destruct (scan_step d (b ++ c)), (scan_step (set_probe _ _) _). simplify_eq/=. right. by exists e.
  - intros (dd & k & Hr & H). inversion Hr as [|? d2 ? Hg Hr']; subst.
    + exists d, k. by split; [apply rtc_refl|].
    + exists dd, k. split; [|done]. apply (rtc_l _ _ d2); [|done]. unfold goes_on in *.
      destruct Hs as [<-|(e & H1 & _)]; [done|]. by rewrite Hg in H1.
Qed.

Lemma scan_parked d b c d' : probed d b → scan d b = (d', Ok None) →
  probed d' b ∧ resumes (b ++ c) d' d.
Proof.
  revert d. refine (scan_ind b (λ d, _) _). intros d IH Hp. rewrite (scan_eq d b).
  destruct (scan_step d b) as [d2 [|r]] eqn:E.
  - intros Hd. destruct (IH d2 eq_refl (scan_step_probed _ _ _ E) Hd) as [? Hr]. split; [done|].
    eapply resumes_goes_on; [by apply scan_step_app|done].
  - intros [= -> ->]. by apply scan_step_parked.
Qed.

(** A header refused as unterminated in [b] is refused in [b ++ c] too, unless it fills
    its field and [b] ends between the two bytes of its CRLF. *)
Lemma scan_step_refused d b c d' e : probed d b → scan_step d b = (d', Return (Err e)) →
  (scan d (b ++ c)).2 = Err e ∨
  (∃ o, e = EProtocol (UnterminatedLength o)) ∧
    ((∃ e', (scan d (b ++ c)).2 = Err e') ∨ full_header (b ++ c) d).
Proof.
  intros Hp. rewrite scan_eq. unfold scan_step.
  destruct (need d =? 0)%Z eqn:Hneed; [done|].
  destruct (b !! offset d) as [kind|] eqn:Hk; [|done].
  rewrite (lookup_app_l_Some _ _ _ _ Hk).
  destruct (is_line kind || is_counted kind) eqn:Hkind; cbn [negb]; [|intros [= <- <-]; by left].
  pose proof (Hp c) as Hpc. pose proof (lookup_lt_Some _ _ _ Hk).
  destruct (find_crlf b _) as [crlf|] eqn:Hf.
  { rewrite (find_crlf_app _ _ _ _ Hf). apply find_crlf_bound in Hf as [].
    rewrite scan_element_app by lia. intros ->. by left. }
  destruct (is_counted kind) eqn:Hc; [|done]. cbn [andb].
  destruct (_ <? _) eqn:Hlen; intros [= <- <-]. apply Nat.ltb_lt in Hlen.
  right. split; [by eexists|].
  pose proof (Hp []) as Hpb. rewrite app_nil_r, Hf in Hpb.
  destruct (find_crlf (b ++ c) (probe d `max` _)) as [i|] eqn:Hf'; last first.
  { left. exists (EProtocol (UnterminatedLength (offset d))). cbn [snd].
    by rewrite length_app, (proj2 (Nat.ltb_lt _ _)) by lia. }
  symmetry in Hpc. pose proof (find_crlf_resume b c (offset d + 1) (eq_sym Hpb)) as Hr.
  rewrite Hpc in Hr. apply find_crlf_bound in Hr as [].
  destruct (decide (i = offset d + 1 + MAX_LEN_HEADER)) as [->|Hne].
  { right. exists d, kind. split_and!; [done|lia|by apply lookup_app_l_Some|done..]. }
  left. exists (EProtocol (LengthTooLong (i - (offset d + 1)))).
  assert (MAX_LEN_HEADER < i - (offset d + 1)) as Hi by (unfold MAX_LEN_HEADER in *; lia).
  unfold scan_element. rewrite (counted_not_line _ Hc).
  unfold parse_len at 1. rewrite length_take, length_drop.
  replace (_ `min` _) with (i - (offset d + 1)) by lia.
  by rewrite (proj2 (Nat.ltb_lt _ _) Hi).
Qed.

Lemma scan_refused d b c e : probed d b → (scan d b).2 = Err e →
  (scan d (b ++ c)).2 = Err e ∨
  (∃ o, e = EProtocol (UnterminatedLength o)) ∧
    ((∃ e', (scan d (b ++ c)).2 = Err e') ∨ full_header (b ++ c) d).
Proof.
  revert d. refine (scan_ind b (λ d, _) _). intros d IH Hp. rewrite (scan_eq d b).
  destruct (scan_step d b) as [d2 [|r]] eqn:E.
  - intros Hd. rewrite (scan_eq d (b ++ c)), (scan_step_app _ _ c _ E).
    destruct (IH d2 eq_refl (scan_step_probed _ _ _ E) Hd) as [?|[? [?|?]]]; [by left|right..].
    + split; [done|by left].
    + split; [done|]. right. eapply full_header_step; [by apply scan_step_app|done].
  - cbn [snd]. intros ->. by apply (scan_step_refused _ _ _ d2).
Qed.

(** ** The loop of reads *)

(** [take_frame] called once before each read, as [send_recv_inner] does, the reads
    delivering [chunks]: the extent found, or [None] when the chunks end first. *)
Fixpoint feed (d : ReplyDecoder) (b : bytes) (chunks : list bytes) :
    ReplyDecoder * redis (option nat) :=
  match scan d b with
  | (d', Ok None) =>
      match chunks with
      | [] => (d', Ok None)
      | c :: chunks' => feed d' (b ++ c) chunks'
      end
  | r => r
  end.

(** The loop of reads and one scan of all that was read agree, but for the header that
    fills its length field. *)
Lemma feed_agrees d b chunks : probed d b →
  (feed d b chunks).2 = (scan d (b ++ concat chunks)).2 ∨
  (∃ o, (feed d b chunks).2 = protocol_err (UnterminatedLength o)) ∧
    ((∃ e, (scan d (b ++ concat chunks)).2 = Err e) ∨ full_header (b ++ concat chunks) d).
Proof.
  revert d b. induction chunks as [|c chunks IH]; intros d b Hp; cbn [feed concat].
  { rewrite app_nil_r. destruct (scan d b) as [d' [[n|]|e]]; by left. }
  destruct (scan d b) as [d' [[n|]|e]] eqn:E.
  - left. destruct (scan_some_app d b (c ++ concat chunks) n) as [-> _]; by rewrite E.
  - destruct (scan_parked d b (c ++ concat chunks) d' Hp E) as [Hp' [Ha Hh]].
    apply agree_snd in Ha. rewrite <-Ha.
    specialize (IH d' (b ++ c) (probed_app _ _ _ Hp')). rewrite <-(assoc_L (++)) in IH.
    naive_solver.
  - destruct (scan_refused d b (c ++ concat chunks) e Hp) as [H|[[o ->] H]]; [by rewrite E| |].
    + left. by rewrite H.
    + right. by split; [exists o|].
Qed.

(** ** The cost of scanning *)

(** The iterations of [find_crlf]'s loop. *)
Fixpoint crlf_iters (s : bytes) : nat :=
  match s with
  | b :: (c :: _) as s' =>
      if bool_decide (b = "013"%byte) && bool_decide (c = "010"%byte) then 1
      else S (crlf_iters s')
  | _ => 0
  end.

(** The positions one round looks at. *)
Definition step_cost (d : ReplyDecoder) (buf : bytes) : nat :=
  if (need d =? 0)%Z then 0
  else
    match buf !! offset d with
    | None => 0
    | Some kind =>
        if is_line kind || is_counted kind
        then crlf_iters (drop (probe d `max` (offset d + 1)) buf) else 0
    end.

Fixpoint scan_loop_cost (fuel : nat) (d : ReplyDecoder) (buf : bytes) : nat :=
  match fuel with
  | 0 => 0
  | S fuel =>
      step_cost d buf +
      match scan_step d buf with
      | (d', Again) => scan_loop_cost fuel d' buf
      | _ => 0
      end
  end.

(** The positions [feed] looks at, over all its scans. *)
Fixpoint feed_cost (d : ReplyDecoder) (b : bytes) (chunks : list bytes) : nat :=
  scan_loop_cost (S (length b)) d b +
  match scan d b with
  | (d', Ok None) =>
      match chunks with
      | [] => 0
      | c :: chunks' => feed_cost d' (b ++ c) chunks'
      end
  | _ => 0
  end.

Lemma crlf_iters_cons b c s : crlf_iters (b :: c :: s) =
  if bool_decide (b = "013"%byte) && bool_decide (c = "010"%byte) then 1
  else S (crlf_iters (c :: s)).
Proof. done. Qed.

Lemma crlf_iters_spec s :
  crlf_iters s = match crlf_in s with Some i => i + 1 | None => length s - 1 end.
Proof.
  induction s as [|b [|c s] IH]; [done|done|]. rewrite crlf_in_cons, crlf_iters_cons, IH.
  destruct (bool_decide _ && bool_decide _); [done|]. destruct (crlf_in (c :: s)); simpl; lia.
Qed.

(** Every position looked at is one the watermark moves over, until an error. *)
Definition watermark (s : ReplyDecoder * redis (option nat)) (b : bytes) : nat :=
  match s with (d', Ok _) => probe d' `min` length b | _ => length b end.

Lemma step_cost_probe d b : step_cost d b + probe d `min` length b ≤
  match scan_step d b with
  | (d', Again) => probe d' `min` length b
  | (d', Return r) => watermark (d', r) b
  end.
Proof.
  unfold step_cost, scan_step. destruct (need d =? 0)%Z; [simpl; lia|].
  destruct (b !! offset d) as [kind|]; [|simpl; lia].
  destruct (is_line kind || is_counted kind); cbn [negb]; [|simpl; lia].
  rewrite crlf_iters_spec. destruct (find_crlf b _) as [crlf|] eqn:Hf.
  - pose proof (find_crlf_bound _ _ _ Hf). apply fmap_Some in Hf as (i & -> & ->).
    destruct (scan_element d b kind _) as [d' [|r]] eqn:E.
    + unfold scan_element in E. repeat case_match; simplify_eq/=; lia.
    + apply scan_element_returns in E as (e & -> & _). simpl. lia.
  - apply fmap_None in Hf. rewrite Hf, length_drop. case_match; cbn [watermark set_probe probe]; lia.
Qed.

Lemma scan_cost_probe fuel d b :
  scan_loop_cost fuel d b + probe d `min` length b ≤ watermark (scan_loop fuel d b) b.
Proof.
  revert d. induction fuel as [|fuel IH]; intros d; cbn [scan_loop scan_loop_cost]; [simpl; lia|].
  pose proof (step_cost_probe d b). destruct (scan_step d b) as [d' [|r]]; [|lia].
  specialize (IH d'). lia.
Qed.

Lemma watermark_bound s b : watermark s b ≤ length b.
Proof. destruct s as [d [?|?]]; simpl; lia. Qed.

Lemma feed_cost_probe d b chunks :
  feed_cost d b chunks + probe d `min` length b ≤ length (b ++ concat chunks).
Proof.
  revert d b. induction chunks as [|c chunks IH]; intros d b; cbn [feed_cost concat].
  all: pose proof (scan_cost_probe (S (length b)) d b); fold (scan d b) in *.
  all: pose proof (watermark_bound (scan d b) b).
  all: destruct (scan d b) as [d' [[n|]|e]]; rewrite ?length_app in *; simpl in *; try lia.
  specialize (IH d' (b ++ c)). rewrite !length_app in IH. lia.
Qed.

(** ** What the decoder guarantees *)

(** C14: Calling the decoder after every read finds what one scan of all the bytes read
    finds, for every way the reads cut the bytes: the same extent, the same wait, or an
    error in both. The exception is exact: a length header the scan reaches whose field is
    24 bytes long, which the chunked decoder may refuse as unterminated. *)
Theorem chunked_scan_agrees (max : Z) (chunks : list bytes) :
  let chunked := (feed (new_decoder max) [] chunks).2 in
  let whole := (scan (new_decoder max) (concat chunks)).2 in
  chunked = whole ∨
  (∃ o, chunked = protocol_err (UnterminatedLength o)) ∧
    ((∃ e, whole = Err e) ∨ full_header (concat chunks) (new_decoder max)).
Proof. apply (feed_agrees (new_decoder max) [] chunks), probed_moved. done. Qed.

(** Over all the reads of a reply the search for line ends looks at no more positions
    than there are bytes, however small the reads are. *)
Theorem scan_is_linear (max : Z) (chunks : list bytes) :
  feed_cost (new_decoder max) [] chunks ≤ length (concat chunks).
Proof. pose proof (feed_cost_probe (new_decoder max) [] chunks). simpl in *. lia. Qed.

(** A length field of 24 digits is accepted in one piece and refused when a read ends
    between the two bytes of its CRLF. *)
Theorem split_header_refused :
  let header := "$"%byte :: lit "000000000000000000000003" ++ ["013"%byte] in
  let body := "010"%byte :: lit "abc" ++ CRLF in
  (feed (new_decoder 64) [] [header ++ body]).2 = Ok (Some 32) ∧
  (feed (new_decoder 64) [] [header; body]).2 = protocol_err (UnterminatedLength 0).
Proof. vm_compute. done. Qed.
