(* ===== verification/RespWire.v ===== *)
(** The RESP2 grammar as a printer, and the extent [ReplyDecoder] finds in it.

    The decoder keeps one count of outstanding elements where the grammar nests:
    [wire_goes_on] shows by induction on the reply that the count is exact. With
    [RespFacts.feed_agrees] every reply is measured to its last byte however the reads
    cut it ([feed_wire]). *)
From stdpp Require Import relations.
From S2P Require Import Prelude RustStd Resp RespFacts.

(** ** The grammar *)

(** RESP2 on the wire: a kind byte, a line, and for the counted kinds a body. *)
Fixpoint wire (f : OwnedFrame) : bytes :=
  match f with
  | SimpleString s => "+"%byte :: s ++ CRLF
  | Error s => "-"%byte :: s ++ CRLF
  | Integer i => ":"%byte :: i64_to_string i ++ CRLF
  | BulkString b => "$"%byte :: i64_to_string (Z.of_nat (length b)) ++ CRLF ++ b ++ CRLF
  | Array items =>
      "*"%byte :: i64_to_string (Z.of_nat (length items)) ++ CRLF ++ concat (map wire items)
  | Null => "$"%byte :: lit "-1" ++ CRLF
  end.

(** What the grammar asks of the values: a line holds no CR and an integer fits. *)
Fixpoint wire_ok (f : OwnedFrame) : bool :=
  match f with
  | SimpleString s | Error s => bool_decide ("013"%byte ∉ s)
  | Integer i => (i64_min <=? i)%Z && (i <=? i64_max)%Z
  | Array items => forallb wire_ok items
  | BulkString _ | Null => true
  end.

Section ind.
Variable P : OwnedFrame → Prop.
Hypothesis Hline : ∀ f, match f with Array _ => False | _ => True end → P f.
Hypothesis Harray : ∀ items, Forall P items → P (Array items).

(** Induction over nested replies; only arrays have parts. *)
Fixpoint frame_ind (f : OwnedFrame) : P f.
Proof.
  destruct f as [s|s|i|b|items|]; try (apply Hline; exact I).
  apply Harray. induction items as [|f items IH]; constructor; [apply frame_ind|exact IH].
Defined.
End ind.

(** ** Headers *)

Lemma i64_to_string_chars z : i64 z → ∀ b, b ∈ i64_to_string z → b ∈ lit "-0123456789".
Proof.
  intros Hz b. unfold i64, i64_min, i64_max in Hz. unfold i64_to_string.
  destruct (Z.ltb_spec z 0).
  - destruct (nat_to_string_digits (- z)) as [_ H1]; [lia|]. rewrite elem_of_cons.
    intros [->|Hb%H1]; [left|by right].
  - destruct (nat_to_string_digits z) as [_ H1]; [lia|]. intros Hb%H1. by right.
Qed.

Lemma number_char b : b ∈ lit "-0123456789" → lead_of b = LeadAscii ∧ b ≠ "013"%byte.
Proof. revert b. apply Forall_forall. repeat constructor; done. Qed.

Lemma number_no_cr z : i64 z → "013"%byte ∉ i64_to_string z.
Proof. intros Hz [_ ?]%i64_to_string_chars%number_char; done. Qed.

Lemma number_text z : i64 z → from_utf8 (i64_to_string z) = Some (i64_to_string z).
Proof.
  intros Hz. unfold from_utf8. rewrite bool_decide_true; [done|]. apply from_utf8_lossy_id.
  pose proof (i64_to_string_chars z Hz) as Hc. clear Hz. revert Hc.
  induction (i64_to_string z) as [|b s IH]; intros Hc; [constructor|].
  constructor; [apply number_char, Hc; by left|]. apply IH. intros c Hin. apply Hc. by right.
Qed.

(** A printed length parses back, within the cap. *)
Lemma parse_len_number max z : (0 ≤ z ≤ max)%Z → (max ≤ i64_max)%Z →
  parse_len max (i64_to_string z) = Ok (Some z).
Proof.
  intros Hz Hmax. assert (i64 z) as Hi by (unfold i64, i64_min in *; lia).
  unfold parse_len. pose proof (length_i64_to_string z).
  rewrite (proj2 (Nat.ltb_ge _ _)) by (unfold MAX_LEN_HEADER; lia).
  rewrite number_text by done. cbn [ok_or mbind result_bind].
  rewrite parse_i64_print by done. cbn [ok_or mbind result_bind].
  rewrite (proj2 (Z.ltb_ge z 0)), (proj2 (Z.ltb_ge max z)) by lia. done.
Qed.

(** The decoder at an element of [pre ++ kind :: text ++ CRLF ++ rest]. *)
Lemma scan_step_header max n pre kind text rest :
  n ≠ 0%Z → is_line kind || is_counted kind = true → "013"%byte ∉ text →
  let d := mkDecoder max (length pre) (length pre) n in
  let buf := pre ++ kind :: text ++ CRLF ++ rest in
  let crlf := length pre + 1 + length text in
  scan_step d buf = scan_element d buf kind crlf ∧
  find_crlf buf (length pre + 1) = Some crlf ∧
  take (crlf - (length pre + 1)) (drop (length pre + 1) buf) = text.
Proof.
  intros Hn Hkind Htext d buf crlf.
  assert (buf = (pre ++ [kind]) ++ text ++ CRLF ++ rest) as Hbuf.
  { unfold buf. by rewrite <-(assoc_L (++)). }
  assert (length (pre ++ [kind]) = length pre + 1) as Hl by (rewrite length_app; done).
  assert (find_crlf buf (length pre + 1) = Some crlf) as Hf.
  { unfold crlf. rewrite Hbuf, <-Hl. by apply find_crlf_header. }
  split_and!; [|done|].
  - unfold scan_step. cbn [d need offset probe]. rewrite (proj2 (Z.eqb_neq _ _) Hn).
    assert (buf !! length pre = Some kind) as -> by by apply list_lookup_middle.
    rewrite Hkind. cbn [negb].
    replace (length pre `max` (length pre + 1)) with (length pre + 1) by lia. by rewrite Hf.
  - rewrite Hbuf, <-Hl, drop_app_length. replace (crlf - _) with (length text) by lia.
    apply take_app_length.
Qed.

(** ** The extent of a reply *)

(** A round that goes on, at a header shorter than the field it may fill. *)
Definition short_step (w : bytes) (d d' : ReplyDecoder) : Prop :=
  goes_on w d d' ∧
  ∀ kind, w !! offset d = Some kind → is_counted kind = true →
    find_crlf w (offset d + 1) ≠ Some (offset d + 1 + MAX_LEN_HEADER).

(** The decoder at the start of an element, with [n] elements outstanding. *)
Notation at_element max o n := (mkDecoder max o o n).

Lemma line_goes_on max k pre kind text rest : (0 ≤ k)%Z → is_line kind = true → "013"%byte ∉ text →
  short_step (pre ++ kind :: text ++ CRLF ++ rest)
    (at_element max (length pre) (k + 1))
    (at_element max (length pre + length (kind :: text ++ CRLF)) k).
Proof.
  intros Hk Hline Htext.
  destruct (scan_step_header max (k + 1) pre kind text rest) as (Hs & _ & _); [lia|by rewrite Hline|done|].
  split.
  - unfold goes_on. rewrite Hs. unfold scan_element. rewrite Hline.
    unfold move_to, set_need. cbn [max_reply_size need length]. rewrite length_app. cbn [CRLF length].
    f_equal. f_equal; lia.
  - intros kind' Hk'. cbn [offset] in Hk'. rewrite list_lookup_middle in Hk' by done.
    simplify_eq. intros Hc%counted_not_line. congruence.
Qed.

(** A counted header: what follows is decided by the parsed length. *)
Lemma counted_goes_on max k pre kind text rest d' : (0 ≤ k)%Z → is_counted kind = true →
  "013"%byte ∉ text → length text < MAX_LEN_HEADER →
  let d := at_element max (length pre) (k + 1) in
  (∀ buf crlf, crlf = length pre + 1 + length text →
     take (crlf - (length pre + 1)) (drop (length pre + 1) buf) = text →
     scan_element d buf kind crlf = (d', Again)) →
  short_step (pre ++ kind :: text ++ CRLF ++ rest) d d'.
Proof.
  intros Hk Hkind Htext Hlen d Hd'.
  destruct (scan_step_header max (k + 1) pre kind text rest) as (Hs & Hf & Htake);
    [lia|by rewrite Hkind, orb_true_r|done|].
  split.
  - unfold goes_on, d. rewrite Hs. by apply Hd'.
  - intros _ _ _. unfold d. cbn [offset]. rewrite Hf. intros [= ?]. lia.
Qed.

Lemma bulk_goes_on max k pre b rest : (0 ≤ k)%Z → (Z.of_nat (length b) ≤ max ≤ i64_max)%Z →
  short_step (pre ++ wire (BulkString b) ++ rest)
    (at_element max (length pre) (k + 1))
    (at_element max (length pre + length (wire (BulkString b))) k).
Proof.
  intros Hk Hb. 
  replace (wire (BulkString b) ++ rest) with
    ("$"%byte :: i64_to_string (Z.of_nat (length b)) ++ CRLF ++ b ++ CRLF ++ rest)
    by (cbn [wire app]; by rewrite <-!(assoc_L (++))).
  assert (i64 (Z.of_nat (length b))) as Hi by (unfold i64, i64_min in *; lia).
  pose proof (length_i64_to_string (Z.of_nat (length b))).
  apply counted_goes_on; [done|done|by apply number_no_cr|unfold MAX_LEN_HEADER; lia|].
  intros buf crlf -> Ht. unfold scan_element. cbn [is_line offset max_reply_size].
  rewrite Ht, parse_len_number by lia. rewrite bool_decide_true by done.
  unfold move_to, set_need. cbn [max_reply_size need length CRLF wire]. rewrite !length_app.
  cbn [length CRLF]. f_equal. f_equal; lia.
Qed.

Lemma null_goes_on max k pre rest : (0 ≤ k)%Z →
  short_step (pre ++ wire Null ++ rest)
    (at_element max (length pre) (k + 1)) (at_element max (length pre + length (wire Null)) k).
Proof.
  intros Hk. apply (counted_goes_on max k pre "$"%byte (lit "-1") rest); [done|done| |unfold MAX_LEN_HEADER; simpl; lia|].
  { by apply (bool_decide_eq_true_1 ("013"%byte ∉ lit "-1")). }
  intros buf crlf -> Ht. unfold scan_element. cbn [is_line offset max_reply_size].
  rewrite Ht. change (parse_len max (lit "-1")) with (@Ok RedisError (option Z) None).
  rewrite bool_decide_true by done.
  unfold move_to, set_need. cbn. f_equal. f_equal; lia.
Qed.

Lemma array_goes_on max k pre n rest : (0 ≤ k)%Z → (0 ≤ n)%Z → (k + n ≤ max ≤ i64_max)%Z →
  short_step (pre ++ "*"%byte :: i64_to_string n ++ CRLF ++ rest)
    (at_element max (length pre) (k + 1))
    (at_element max (length (pre ++ "*"%byte :: i64_to_string n ++ CRLF)) (k + n)).
Proof.
  intros Hk Hn Hmax. assert (i64 n) as Hi by (unfold i64, i64_min in *; lia).
  pose proof (length_i64_to_string n).
  apply counted_goes_on; [done|done|by apply number_no_cr|unfold MAX_LEN_HEADER; lia|].
  intros buf crlf -> Ht. unfold scan_element. cbn [is_line offset max_reply_size].
  rewrite Ht, parse_len_number by lia. rewrite bool_decide_false by done.
  unfold move_to, set_need. cbn [max_reply_size need length CRLF].
  rewrite Z.min_l by (unfold usize_max, i64_max in *; lia).
  rewrite (proj2 (Z.ltb_ge _ _)) by lia. rewrite !length_app. cbn [length]. rewrite length_app.
  cbn [length CRLF]. f_equal. f_equal; lia.
Qed.

Lemma wire_length f : 2 < length (wire f).
Proof. destruct f; cbn [wire length]; rewrite ?length_app; cbn [CRLF length]; lia. Qed.

Lemma wires_length items : length items ≤ length (concat (map wire items)).
Proof.
  induction items as [|f items IH]; cbn [map concat length]; [lia|].
  rewrite length_app. pose proof (wire_length f). lia.
Qed.

Definition wire_scanned (f : OwnedFrame) : Prop := ∀ max k pre rest,
  wire_ok f = true → (0 ≤ k)%Z → (k + Z.of_nat (length (wire f)) ≤ max ≤ i64_max)%Z →
  rtc (short_step (pre ++ wire f ++ rest))
    (at_element max (length pre) (k + 1)) (at_element max (length pre + length (wire f)) k).

(** The elements of an array, one after the other. *)
Lemma wires_go_on items max k pre rest : Forall wire_scanned items →
  forallb wire_ok items = true → (0 ≤ k)%Z →
  (k + Z.of_nat (length (concat (map wire items))) ≤ max ≤ i64_max)%Z →
  rtc (short_step (pre ++ concat (map wire items) ++ rest))
    (at_element max (length pre) (k + Z.of_nat (length items)))
    (at_element max (length pre + length (concat (map wire items))) k).
Proof.
  intros Hall. revert pre. induction Hall as [|f items Hf _ IH]; intros pre.
  { cbn. intros _ _ _. rewrite Z.add_0_r, Nat.add_0_r. apply rtc_refl. }
  cbn [forallb map concat length]. rewrite length_app.
  intros [Hok Hoks]%andb_prop Hk Hmax. pose proof (wires_length items).
  rewrite <-(assoc_L (++)). transitivity
    (at_element max (length (pre ++ wire f)) (k + Z.of_nat (length items))).
  - rewrite length_app. replace (k + Z.of_nat (S (length items)))%Z
      with (k + Z.of_nat (length items) + 1)%Z by lia.
    apply Hf; [done|lia|lia].
  - replace (length pre + _) with (length (pre ++ wire f) + length (concat (map wire items)))
      by (rewrite length_app; lia).
    rewrite (assoc_L (++) pre). apply IH; [done|done|lia].
Qed.

(** The flat count is exact: from the start of a reply with [k] more owed, the scan ends
    after its last byte with [k] owed. *)
Lemma wire_goes_on f : wire_scanned f.
Proof.
  induction f as [f Hf|items IH] using frame_ind; intros max k pre rest Hok Hk Hmax.
  - destruct f as [s|s|i|b|items|]; [| | | |done|]; cbn [wire_ok] in Hok.
    1-3: cbn [wire]; rewrite <-app_comm_cons, <-(assoc_L (++)); apply rtc_once, line_goes_on; [done|done|].
    + by apply bool_decide_eq_true_1 in Hok.
    + by apply bool_decide_eq_true_1 in Hok.
    + apply number_no_cr. unfold i64. apply andb_prop in Hok. lia.
    + apply rtc_once, bulk_goes_on; [done|]. split; [|lia].
      cbn [wire length] in Hmax. rewrite !length_app in Hmax. lia.
    + by apply rtc_once, null_goes_on.
  - cbn [wire_ok] in Hok. pose proof (wires_length items).
    cbn [wire length] in Hmax. rewrite !length_app in Hmax.
    set (n := Z.of_nat (length items)) in *.
    eapply rtc_l.
    + cbn [wire]. rewrite <-app_comm_cons, <-!(assoc_L (++)). apply (array_goes_on max k pre n); lia.
    + set (hdr := "*"%byte :: i64_to_string n ++ CRLF).
      replace (pre ++ wire (Array items) ++ rest) with
        ((pre ++ hdr) ++ concat (map wire items) ++ rest)
        by (unfold hdr; cbn [wire]; rewrite <-!(assoc_L (++)); cbn [app]; by rewrite <-!(assoc_L (++))).
      replace (length pre + length (wire (Array items))) with
        (length (pre ++ hdr) + length (concat (map wire items)))
        by (unfold hdr; cbn [wire]; fold n; rewrite !length_app; cbn [length]; rewrite !length_app; lia).
      apply wires_go_on; [done|done|done|lia].
Qed.

Lemma short_steps_scan w d e n : rtc (short_step w) d e → scan_step e w = (e, Return (Ok (Some n))) →
  scan d w = (e, Ok (Some n)).
Proof.
  intros Hr He. induction Hr as [d|d d2 e [Hg _] _ IH]; rewrite scan_eq.
  - by rewrite He.
  - rewrite Hg. by apply IH.
Qed.

(** Rounds are deterministic, so short headers are all the scan meets. *)
Lemma short_steps_not_full w d e r : rtc (short_step w) d e → scan_step e w = (e, Return r) →
  need e = 0%Z → ¬ full_header w d.
Proof.
  intros Hr He Hz (dd & kind & Hg & Hneed & Hk & Hc & Hf). revert Hr. revert e He Hz.
  induction Hg as [d|d d2 dd Hg _ IH]; intros e He Hz Hr; inversion Hr as [|? d3 ? [Hg' Hshort] Hr']; subst.
  - done.
  - by apply (Hshort kind).
  - unfold goes_on in Hg. congruence.
  - unfold goes_on in *. rewrite Hg in Hg'. simplify_eq. by eapply IH.
Qed.

Lemma wire_scan max f rest :
  wire_ok f = true → (Z.of_nat (length (wire f)) ≤ max ≤ i64_max)%Z →
  let e := at_element max (length (wire f)) 0%Z in
  rtc (short_step (wire f ++ rest)) (new_decoder max) e ∧
  scan_step e (wire f ++ rest) = (e, Return (Ok (Some (length (wire f))))).
Proof.
  intros Hok Hmax e. split.
  - by apply (wire_goes_on f max 0%Z [] rest).
  - unfold scan_step, e. cbn [need offset]. rewrite length_app.
    by rewrite (proj2 (Nat.leb_le _ _)) by lia.
Qed.

(** However the reads cut a reply and what follows it, the decoder finds its extent. *)
Lemma feed_wire max f rest chunks :
  wire_ok f = true → (Z.of_nat (length (wire f)) ≤ max ≤ i64_max)%Z →
  concat chunks = wire f ++ rest →
  (feed (new_decoder max) [] chunks).2 = Ok (Some (length (wire f))).
Proof.
  intros Hok Hmax Hc. destruct (wire_scan max f rest Hok Hmax) as [Hr He].
  pose proof (short_steps_scan _ _ _ _ Hr He) as Hs.
  destruct (feed_agrees (new_decoder max) [] chunks) as [H|[_ [[e H]|H]]].
  - by apply probed_moved.
  - by rewrite H, Hc, app_nil_l, Hs.
  - by rewrite Hc, app_nil_l, Hs in H.
  - rewrite Hc, app_nil_l in H. by destruct (short_steps_not_full _ _ _ _ Hr He eq_refl).
Qed.

(** ** Between two reads of one reply *)

(** The decoder has scanned [b] from a fresh start and stopped for want of bytes. *)
Definition mid_reply (max : Z) (d : ReplyDecoder) (b : bytes) : Prop :=
  probed d b ∧ ∀ c, resumes (b ++ c) d (new_decoder max).

Lemma mid_reply_new max : mid_reply max (new_decoder max) [].
Proof. split; [by apply probed_moved|intros c; apply resumes_refl]. Qed.

Lemma agree_ok x y r : agree x y → y.2 = Ok r → x = y.
Proof. by intros [->|(e & _ & ->)]. Qed.

Lemma agree_trans x y z : agree x y → agree y z → agree x z.
Proof.
  intros [->|(e & Hx & Hy)]; [done|]. intros [<-|(e' & Hy' & Hz)]; right; [by exists e|].
  exists e. split; [done|]. congruence.
Qed.

Lemma mid_reply_read max d b d' c : mid_reply max d b → scan d b = (d', Ok None) →
  mid_reply max d' (b ++ c).
Proof.
  intros [Hp Hr] Hs. destruct (scan_parked d b [] d' Hp Hs) as [Hp' _].
  split; [by apply probed_app|]. intros c'. rewrite <-(assoc_L (++)).
  destruct (scan_parked d b (c ++ c') d' Hp Hs) as [_ [Ha Hh]], (Hr (c ++ c')) as [Ha' Hh'].
  split; [by eapply agree_trans|auto].
Qed.

(** Inside a reply of the grammar the scan finds the reply once it is all there, and
    else waits. *)
Lemma mid_reply_scan max d b f rest tail :
  wire_ok f = true → (Z.of_nat (length (wire f)) ≤ max ≤ i64_max)%Z →
  mid_reply max d b → b ++ tail = wire f ++ rest →
  if decide (length (wire f) ≤ length b)
  then ∃ d', scan d b = (d', Ok (Some (length (wire f)))) ∧ max_reply_size d' = max
  else ∃ d', scan d b = (d', Ok None).
Proof.
  intros Hok Hmax [Hp Hr] Hw.
  assert (∀ rest', scan (new_decoder max) (wire f ++ rest')
    = (at_element max (length (wire f)) 0%Z, Ok (Some (length (wire f))))) as Hnew.
  { intros rest'. destruct (wire_scan max f rest' Hok Hmax). by apply short_steps_scan. }
  case_decide as Hlen.
  - assert (∃ r, b = wire f ++ r) as [r Hb].
    { exists (drop (length (wire f)) b). rewrite <-(take_drop (length (wire f)) b) at 1. f_equal.
      by rewrite <-(take_app_le b tail), Hw, take_app_length. }
    destruct (Hr []) as [Ha _]. rewrite app_nil_r, Hb, Hnew in Ha. rewrite Hb.
    rewrite (agree_ok _ _ _ Ha eq_refl). by eexists.
  - destruct (Hr tail) as [Ha Hh]. rewrite Hw in Ha, Hh. rewrite Hnew in Ha.
    apply agree_ok with (r := Some (length (wire f))) in Ha; [|done].
    destruct (scan d b) as [d' [[n|]|e]] eqn:E; [|by eexists|].
    + destruct (scan_some_app d b tail n) as [Hs Hn]; [by rewrite E|].
      rewrite Hw, Ha, E in Hs. simplify_eq. lia.
    + exfalso. destruct (scan_refused d b tail e Hp) as [H|[_ [[e' H]|H]]]; [by rewrite E|..].
      1,2: by rewrite Hw, Ha in H.
      rewrite Hw in H. destruct (wire_scan max f rest Hok Hmax) as [Hs He].
      by apply (short_steps_not_full _ _ _ _ Hs He eq_refl), Hh.
Qed.

(** C18: Every reply of the RESP2 grammar within the cap, nested to any depth, is measured
    to its last byte: however the reads cut the reply and whatever follows it, the decoder
    reports exactly the length of the reply. *)
Theorem reply_extent_exact (max : Z) (f : OwnedFrame) (rest : bytes) (chunks : list bytes) :
  wire_ok f = true → (Z.of_nat (length (wire f)) ≤ max ≤ i64_max)%Z →
  concat chunks = wire f ++ rest →
  (feed (new_decoder max) [] chunks).2 = Ok (Some (length (wire f))).
Proof. apply feed_wire. Qed.
