(* ===== verification/RedisConn.v ===== *)
(** One Redis connection ([libs/compio-redis/src/client.rs]).

    [Client] is the source's struct without the socket, its scratch buffer and its
    timeout. [send_recv] runs a command on a [Conn]: a client together with what the model
    knows of its socket, the bytes the server has sent and nobody has read. What the
    network does during the command is an [Exchange]: the server's answer, the reads that
    complete, and how the wait ends if they do not make a reply. The server answers a
    command with one reply; a reply to a command whose future was dropped still arrives. *)
From S2P Require Import Prelude RustStd Resp RespFacts RespWire.

Definition MAX_REPLY_SIZE : Z := (64 * 1024 * 1024)%Z.

Definition u64_max : Z := (2 ^ 64 - 1)%Z.

Definition peek_declared_len (buf : bytes) : option Z :=
  match buf with
  | [] => None
  | kind :: rest =>
      if bool_decide (kind ∈ lit "$*%~>") then
        crlf ← crlf_in rest;
        text ← from_utf8 (take crlf rest);
        parse_unsigned u64_max text
      else None
  end.

Record Client := mkClient {
  rx : bytes;
  decoder : ReplyDecoder;
  dirty : bool
}.

Definition new_client : Client := mkClient [] (new_decoder MAX_REPLY_SIZE) false.
Definition set_dirty (c : Client) (b : bool) : Client := mkClient (rx c) (decoder c) b.

Definition is_dirty (c : Client) : bool := dirty c.
Definition is_rx_empty (c : Client) : bool := bool_decide (rx c = []).

Section client.
Context `{RespCodec}.

(** One round of [send_recv_inner]'s loop up to its read: a result, or [None] to read. *)
Definition recv_round (c : Client) : Client * option (redis OwnedFrame) :=
  if (match peek_declared_len (rx c) with
      | Some declared => MAX_REPLY_SIZE <? declared
      | None => false
      end)%Z
  then (c, Some (Err (EIo InvalidData)))
  else
    match take_frame (decoder c) (rx c) with
    | (d, b, Err e) => (mkClient b d (dirty c), Some (Err e))
    | (d, b, Ok (Some frame)) => (mkClient b d (dirty c), Some (Ok frame))
    | (d, b, Ok None) =>
        (mkClient b d (dirty c),
         if (MAX_REPLY_SIZE <? Z.of_nat (length b))%Z then Some (Err (EIo InvalidData)) else None)
    end.

(** The loop, over the reads that complete. The reads it did not get to are given back;
    no outcome means it still waits for a read. A read of no bytes is the end of the
    stream. *)
Fixpoint recv_loop (c : Client) (reads : list bytes) :
    Client * list bytes * option (redis OwnedFrame) :=
  match recv_round c with
  | (c', Some r) => (c', reads, Some r)
  | (c', None) =>
      match reads with
      | [] => (c', [], None)
      | [] :: reads' => (c', reads', Some (Err (EIo UnexpectedEof)))
      | chunk :: reads' => recv_loop (mkClient (rx c' ++ chunk) (decoder c') (dirty c')) reads'
      end
  end.

(** ** A command on a connection *)

Record Conn := mkConn {
  client : Client;
  stream : bytes;      (* sent by the server, not yet read *)
  address : bytes
}.

(** What the network does while one command runs. *)
Record Exchange := mkExchange {
  answer : option OwnedFrame;       (* the server's reply to this command *)
  reads : list bytes;
  ended : option RedisError         (* of a wait that is cut: the error, [None] if dropped *)
}.

(** [send_recv]: the connection afterwards and what the caller gets, nothing when its
    future was dropped. The result is [None] when the network cannot act as [x] says. *)
Definition send_recv (c : Conn) (cmd : OwnedFrame) (x : Exchange) :
    option (Conn * option (redis OwnedFrame)) :=
  let c0 := set_dirty (client c) true in
  match encode_frame cmd with
  | Err e => Some (mkConn c0 (stream c) (address c), Some (Err e))
  | Ok _ =>
      let arrived := stream c ++ match answer x with Some a => wire a | None => [] end in
      match recv_loop c0 (reads x) with
      | (c1, [], out) =>
          if bool_decide (concat (reads x) `prefix_of` arrived) then
            let rest := drop (length (concat (reads x))) arrived in
            Some match out with
            | Some (Ok frame) =>
                (mkConn (set_dirty c1 false) rest (address c), Some (Ok frame))
            | Some (Err e) => (mkConn c1 rest (address c), Some (Err e))
            | None => (mkConn c1 rest (address c), Err <$> ended x)
            end
          else None
      | _ => None
      end
  end.

(** ** The commands the pool and the cluster send themselves *)

(** A command and the reading of its reply. *)
Definition ask {A} (c : Conn) (parts : list bytes) (read : OwnedFrame → redis A) (x : Exchange) :
    option (Conn * option (redis A)) :=
  match send_recv c (build_cmd parts) x with
  | Some (c', out) => Some (c', match out with
                                | Some (Ok frame) => Some (read frame)
                                | Some (Err e) => Some (Err e)
                                | None => None
                                end)
  | None => None
  end.

Definition ping (c : Conn) (x : Exchange) : option (Conn * option (redis unit)) :=
  ask c [lit "PING"] (λ frame,
    match frame with
    | SimpleString s => if bool_decide (s = lit "PONG") then Ok tt else Err EUnexpected
    | Error msg => Err (EServer msg)
    | _ => Err EUnexpected
    end) x.

Definition asking (c : Conn) (x : Exchange) : option (Conn * option (redis unit)) :=
  ask c [lit "ASKING"] expect_ok x.

Definition select (c : Conn) (db : Z) (x : Exchange) : option (Conn * option (redis unit)) :=
  ask c [lit "SELECT"; i64_to_string db] expect_ok x.

Definition require_primary (c : Conn) (x : Exchange) : option (Conn * option (redis unit)) :=
  ask c [lit "ROLE"] (λ frame,
    items ← expect_array frame;
    role ← ok_or (head items) (EProtocol EmptyRole);
    name ← expect_bulk_or_null role;
    if bool_decide (name = Some (lit "master")) then Ok tt
    else Err (EServer (lit "READONLY endpoint is not a primary"))) x.

(** ** Setting a connection up *)

(** [ConnectionConfig], the fields the set-up reads. *)
Record ConnectionConfig := mkConnection {
  endpoint : bytes;
  username : option bytes;
  password : option bytes;
  database : Z
}.

(** The set-up commands of [connect_config] once the socket is connected, one exchange
    each, in order: AUTH with a password, then SELECT of a database other than 0. *)
Definition authenticate (config : ConnectionConfig) (c : Conn) (xs : list Exchange) :
    option (Conn * list Exchange * option (redis unit)) :=
  match password config, xs with
  | Some pass, x :: xs' =>
      let parts := match username config with
                   | Some user => [lit "AUTH"; user; pass]
                   | None => [lit "AUTH"; pass]
                   end in
      '(c', out) ← ask c parts (λ frame, map_err (λ _, EAuth []) (expect_ok frame)) x;
      Some (c', xs', out)
  | Some _, [] => None
  | None, _ => Some (c, xs, Some (if username config then Err EConfig else Ok tt))
  end.

Definition connect_config (config : ConnectionConfig) (xs : list Exchange) :
    option (Conn * option (redis unit)) :=
  let c := mkConn new_client [] (endpoint config) in
  '(c1, xs1, out) ← authenticate config c xs;
  match out with
  | Some (Ok tt) =>
      if (database config =? 0)%Z then Some (c1, Some (Ok tt))
      else match xs1 with x :: _ => select c1 (database config) x | [] => None end
  | _ => Some (c1, out)
  end.
End client.
