(* ===== verification/RedisConnFacts.v ===== *)
(** Theorems on one Redis connection.

    A settled connection, nothing read and nothing to come, gives a command its own
    reply however the reads cut it, and is settled again afterwards; every other end of
    the command leaves the connection dirty ([send_recv_settled], [send_recv_delivers]).
    The read buffer stays within the cap and one read ([recv_loop_bounded]). *)
From S2P Require Import Prelude RustStd Resp RespFacts RespWire RedisConn.

(** ** The early look at a declared length *)

Lemma parse_unsigned_digit max b s : b ∈ lit "0123456789" →
  parse_unsigned max (b :: s) =
    v ← parse_digits 0 (b :: s); if (v <=? max)%Z then Some v else None.
Proof. intros Hb. by repeat (apply elem_of_cons in Hb as [->|Hb]; [done|]); set_solver. Qed.

Lemma parse_u64_number z : (0 ≤ z ≤ i64_max)%Z → parse_unsigned u64_max (i64_to_string z) = Some z.
Proof.
  intros Hz. unfold i64_max in Hz. unfold i64_to_string.
  destruct (Z.ltb_spec z 0); [lia|].
  destruct (nat_to_string_digits z) as [Hne Hall]; [lia|].
  pose proof (nat_to_string_parse z) as Hp.
  destruct (nat_to_string z) as [|b s]; [done|].
  rewrite parse_unsigned_digit by (apply Hall; by left). rewrite Hp by lia. cbn [mbind option_bind].
  by rewrite (proj2 (Z.leb_le _ _)) by (unfold u64_max; lia).
Qed.

(** The header seen at the front of a partly read reply is the reply's own. *)
Lemma header_seen r tail text more i : "013"%byte ∉ text →
  r ++ tail = text ++ CRLF ++ more → crlf_in r = Some i → take i r = text.
Proof.
  intros Ht Hr Hi. pose proof (crlf_in_bound _ _ Hi).
  pose proof (find_crlf_header [] text more Ht) as Hf. unfold find_crlf in Hf.
  rewrite app_nil_l, <-Hr, drop_0, (crlf_in_app _ _ _ Hi) in Hf. cbn in Hf. simplify_eq.
  by rewrite <-(take_app_le r tail), Hr, take_app_length by lia.
Qed.

Lemma peek_number kind b tail n more : i64 n →
  b ++ tail = kind :: i64_to_string n ++ CRLF ++ more →
  match peek_declared_len b with Some v => v = n ∨ (n < 0)%Z | None => True end.
Proof.
  intros Hn. destruct b as [|k r]; [done|]. cbn [app]. intros [= -> Hr].
  cbn [peek_declared_len]. destruct (bool_decide _); [|done].
  destruct (crlf_in r) as [i|] eqn:Hi; [|done]. cbn [mbind option_bind].
  rewrite (header_seen r tail _ more i (number_no_cr n Hn) Hr Hi).
  rewrite number_text by done. cbn [mbind option_bind].
  destruct (decide (0 ≤ n)%Z) as [Hpos|]; [|case_match; [right; lia|done]].
  rewrite parse_u64_number by (unfold i64 in Hn; lia). by left.
Qed.

(** No reply within the cap is refused by its declared length. *)
Lemma peek_fits a b tail rest : (Z.of_nat (length (wire a)) ≤ MAX_REPLY_SIZE)%Z →
  b ++ tail = wire a ++ rest →
  match peek_declared_len b with Some n => MAX_REPLY_SIZE <? n | None => false end%Z = false.
Proof.
  intros Hmax Hb. assert (∀ n, (0 ≤ n ≤ MAX_REPLY_SIZE)%Z → i64 n) as Hi.
  { unfold i64, i64_min, i64_max, MAX_REPLY_SIZE. lia. }
  destruct b as [|k r]; [done|].
  destruct a as [s|s|i|s|items|]; cbn [wire length app] in Hb, Hmax; rewrite ?length_app in Hmax.
  1-3: by injection Hb as -> _.
  - rewrite <-!(assoc_L (++)) in Hb.
    assert (0 ≤ Z.of_nat (length s) ≤ MAX_REPLY_SIZE)%Z as Hs by lia.
    pose proof (peek_number _ (k :: r) _ _ _ (Hi _ Hs) Hb) as Hp.
    destruct (peek_declared_len _); [|done]. apply Z.ltb_ge. lia.
  - rewrite <-!(assoc_L (++)) in Hb. pose proof (wires_length items).
    assert (0 ≤ Z.of_nat (length items) ≤ MAX_REPLY_SIZE)%Z as Hs by lia.
    pose proof (peek_number _ (k :: r) _ _ _ (Hi _ Hs) Hb) as Hp.
    destruct (peek_declared_len _); [|done]. apply Z.ltb_ge. lia.
  - injection Hb as -> Hr. cbn [peek_declared_len]. destruct (bool_decide _); [|done].
    destruct (crlf_in r) as [i|] eqn:Hcr; [|done]. cbn [mbind option_bind].
    rewrite (header_seen r tail (lit "-1") rest i); [done| |done|done].
    by apply (bool_decide_eq_true_1 ("013"%byte ∉ lit "-1")).
Qed.

(** ** The receive loop *)

Section facts.
Context `{RespCodec}.

(** An answer the grammar, the cap and the codec accept: the codec reads back what the
    grammar prints, as [redis-protocol] documents. *)
Definition answerable (a : OwnedFrame) : Prop :=
  wire_ok a = true ∧ (Z.of_nat (length (wire a)) ≤ MAX_REPLY_SIZE)%Z ∧
  decode (wire a) = Some (Some (a, length (wire a))).

(** In the middle of reading the reply [a], with [rx] the part already read. *)
Lemma recv_round_wire c a tail rest : answerable a →
  mid_reply MAX_REPLY_SIZE (decoder c) (rx c) → rx c ++ tail = wire a ++ rest →
  if decide (length (wire a) ≤ length (rx c))
  then recv_round c =
    (mkClient (drop (length (wire a)) (rx c)) (new_decoder MAX_REPLY_SIZE) (dirty c), Some (Ok a))
  else ∃ d', recv_round c = (mkClient (rx c) d' (dirty c), None) ∧
    ∀ more, mid_reply MAX_REPLY_SIZE d' (rx c ++ more).
Proof.
  intros (Hok & Hmax & Hdec) Hmid Hrx.
  assert (Z.of_nat (length (wire a)) ≤ MAX_REPLY_SIZE ≤ i64_max)%Z as Hmax' by done.
  pose proof (mid_reply_scan _ _ _ a rest tail Hok Hmax' Hmid Hrx) as Hscan.
  unfold recv_round. rewrite (peek_fits a (rx c) tail rest) by done. unfold take_frame.
  case_decide as Hlen.
  - destruct Hscan as (d' & -> & <-). unfold try_decode.
    assert (take (length (wire a)) (rx c) = wire a) as ->.
    { by rewrite <-(take_app_le (rx c) tail), Hrx, take_app_length by lia. }
    by rewrite Hdec.
  - destruct Hscan as (d' & Hs). rewrite Hs. exists d'.
    rewrite (proj2 (Z.ltb_ge _ _)) by lia. split; [done|].
    intros more. by eapply mid_reply_read.
Qed.

(** Reading no further than the reply [a]: the loop ends with [a] exactly when it is all
    read, and else has no reply. *)
Lemma recv_loop_wire c a reads : answerable a →
  mid_reply MAX_REPLY_SIZE (decoder c) (rx c) → rx c ++ concat reads `prefix_of` wire a →
  match recv_loop c reads with
  | (c', unread, Some (Ok f)) =>
      f = a ∧ c' = mkClient [] (new_decoder MAX_REPLY_SIZE) (dirty c) ∧ concat unread = [] ∧
      rx c ++ concat reads = wire a
  | (c', _, _) => dirty c' = dirty c
  end.
Proof.
  intros Ha. revert c. induction reads as [|chunk reads IH]; intros c Hmid [tail Htail].
  all: cbn [recv_loop concat] in *.
  all: pose proof (recv_round_wire c a) as Hround.
  - rewrite app_nil_r in Htail. specialize (Hround tail [] Ha Hmid).
    rewrite app_nil_r in Hround. specialize (Hround (eq_sym Htail)).
    case_decide as Hlen; [|by destruct Hround as (d' & -> & _)]. rewrite Hround.
    assert (length (wire a) = length (rx c) + length tail) by (rewrite Htail, length_app; lia).
    rewrite app_nil_r. split_and!; [done| |done|].
    + f_equal. apply drop_ge. lia.
    + rewrite Htail. destruct tail; [by rewrite app_nil_r|simpl in *; lia].
  - specialize (Hround ((chunk ++ concat reads) ++ tail) [] Ha Hmid).
    rewrite app_nil_r, (assoc_L (++)) in Hround. specialize (Hround (eq_sym Htail)).
    pose proof (f_equal length Htail) as Hl. rewrite !length_app in Hl.
    case_decide as Hlen.
    + rewrite Hround. destruct (chunk ++ concat reads) as [|x u] eqn:E; [|cbn in Hl; rewrite <-length_app, E in Hl; simpl in Hl; lia].
      destruct tail; [|simpl in *; lia].
      split_and!; [done| |exact E|by rewrite Htail, !app_nil_r].
      f_equal. apply drop_ge. simpl in Hl. lia.
    + destruct Hround as (d' & -> & Hmid'). destruct chunk as [|x chunk]; [done|].
      cbn [rx decoder dirty] in *.
      specialize (IH (mkClient (rx c ++ x :: chunk) d' (dirty c))). cbn [rx decoder dirty] in IH.
      rewrite (assoc_L (++)). apply IH; [done|]. exists tail. by rewrite Htail, <-!(assoc_L (++)).
Qed.

(** Once all of the reply is read in non-empty chunks, the loop has returned it. *)
Lemma recv_loop_delivers c a reads : answerable a →
  mid_reply MAX_REPLY_SIZE (decoder c) (rx c) → rx c ++ concat reads = wire a →
  Forall (λ chunk, chunk ≠ []) reads →
  recv_loop c reads = (mkClient [] (new_decoder MAX_REPLY_SIZE) (dirty c), [], Some (Ok a)).
Proof.
  intros Ha. revert c. induction reads as [|chunk reads IH]; intros c Hmid Hrx Hne.
  all: cbn [recv_loop concat] in *.
  all: pose proof (recv_round_wire c a) as Hround.
  - rewrite app_nil_r in Hrx. specialize (Hround [] [] Ha Hmid). rewrite !app_nil_r in Hround.
    specialize (Hround Hrx). rewrite Hrx, decide_True in Hround by done.
    by rewrite Hround, drop_all.
  - apply Forall_cons in Hne as [Hc Hne]. destruct chunk as [|x chunk]; [done|].
    specialize (Hround ((x :: chunk) ++ concat reads) [] Ha Hmid). rewrite app_nil_r in Hround.
    specialize (Hround Hrx). pose proof (f_equal length Hrx) as Hl.
    rewrite !length_app in Hl. simpl in Hl. rewrite decide_False in Hround by lia.
    destruct Hround as (d' & -> & Hmid'). cbn [rx decoder dirty].
    apply (IH (mkClient (rx c ++ x :: chunk) d' (dirty c))); cbn [rx decoder]; [done| |done].
    by rewrite <-(assoc_L (++)).
Qed.

(** With nothing to read there is no reply. *)
Lemma recv_loop_silent dirty0 reads : concat reads = [] →
  match recv_loop (mkClient [] (new_decoder MAX_REPLY_SIZE) dirty0) reads with
  | (_, _, Some (Ok _)) => False
  | (c', _, _) => dirty c' = dirty0
  end.
Proof. by destruct reads as [|[|x chunk] reads]. Qed.

(** ** Commands *)

(** A connection with nothing read and nothing to come: the next reply that arrives is
    the next command's. *)
Definition settled (c : Conn) : Prop :=
  rx (client c) = [] ∧ decoder (client c) = new_decoder MAX_REPLY_SIZE ∧ stream c = [].
Definition clean (c : Conn) : Prop := settled c ∧ dirty (client c) = false.

Definition fair (x : Exchange) : Prop :=
  match answer x with Some a => answerable a | None => True end.

(** A connection settled before is settled after a reply, and dirty after anything else. *)
Definition command_end (x : Exchange) (c' : Conn) (out : option (redis OwnedFrame)) : Prop :=
  match out with
  | Some (Ok f) => answer x = Some f ∧ clean c'
  | _ => dirty (client c') = true
  end.

Lemma send_recv_settled c cmd x c' out : settled c → fair x →
  send_recv c cmd x = Some (c', out) → command_end x c' out.
Proof.
  intros (Hrx & Hd & Hs) Hfair. unfold send_recv, fair, command_end in *.
  destruct (encode_frame cmd) as [w|e]; [|by intros [= <- <-]]. rewrite Hs, app_nil_l.
  destruct (client c) as [rx0 d0 dirty0]. cbn [rx decoder] in Hrx, Hd. subst rx0 d0.
  set (c0 := mkClient [] (new_decoder MAX_REPLY_SIZE) true).
  change (set_dirty _ true) with c0. destruct (answer x) as [a|].
  - pose proof (recv_loop_wire c0 a (reads x) Hfair (mid_reply_new _)) as Hloop.
    destruct (recv_loop c0 (reads x)) as [[c1 unread] out1]. destruct unread; [|done].
    case_bool_decide as Hp; [|done]. specialize (Hloop Hp). intros E. simplify_eq.
    destruct out1 as [[f|e]|]; simplify_eq/=; [|done|by destruct (ended x)].
    destruct Hloop as (-> & -> & _ & Hall). split; [done|]. unfold clean, settled. cbn.
    split_and!; try done. by rewrite Hall, drop_all.
  - pose proof (recv_loop_silent true (reads x)) as Hloop. fold c0 in Hloop.
    destruct (recv_loop c0 (reads x)) as [[c1 unread] out1]. destruct unread; [|done].
    case_bool_decide as Hp; [|done]. apply prefix_nil_inv in Hp. specialize (Hloop Hp).
    intros E. destruct out1 as [[f|e]|]; simplify_eq/=; [done|done|by destruct (ended x)].
Qed.

Lemma send_recv_address c cmd x c' out :
  send_recv c cmd x = Some (c', out) → address c' = address c.
Proof.
  unfold send_recv. destruct (encode_frame cmd); [|by intros [= <- _]].
  destruct (recv_loop _ _) as [[c1 [|? ?]] out1]; [|done]. case_bool_decide; [|done].
  by destruct out1 as [[?|?]|]; intros [= <- _].
Qed.

(** The reply arrives in full: the caller gets it. *)
Lemma send_recv_delivers c cmd x a w : settled c → answerable a →
  answer x = Some a → encode cmd = Some w →
  concat (reads x) = wire a → Forall (λ chunk, chunk ≠ []) (reads x) →
  ∃ c', send_recv c cmd x = Some (c', Some (Ok a)) ∧ clean c'.
Proof.
  intros (Hrx & Hd & Hs) Ha Hx Henc Hc Hne. unfold send_recv, encode_frame.
  rewrite Henc, Hx, Hs, app_nil_l. cbn [ok_or].
  rewrite (recv_loop_delivers _ a); [|done| |by cbn; rewrite Hrx|done]; last first.
  { cbn. rewrite Hrx, Hd. apply mid_reply_new. }
  rewrite bool_decide_true by by rewrite Hc. eexists. split; [done|].
  unfold clean, settled. cbn. by rewrite Hc, drop_all.
Qed.

Lemma ask_settled {A} c parts (read : OwnedFrame → redis A) x c' out : settled c → fair x →
  ask c parts read x = Some (c', out) →
  match out with Some (Ok _) => clean c' | _ => True end ∧ address c' = address c.
Proof.
  intros Hc Hx. unfold ask. destruct (send_recv c _ x) as [[c1 out1]|] eqn:E; [|done].
  pose proof (send_recv_settled _ _ _ _ _ Hc Hx E) as Hend. apply send_recv_address in E.
  intros [= -> <-]. split; [|done]. destruct out1 as [[f|e]|]; [|done..].
  destruct Hend as [_ ?]. by destruct (read f).
Qed.

(** A connection is handed over clean once its set-up commands are answered. *)
Lemma connect_config_clean config xs c : Forall fair xs →
  connect_config config xs = Some (c, Some (Ok tt)) → clean c ∧ address c = endpoint config.
Proof.
  intros Hxs. unfold connect_config, authenticate.
  set (c0 := mkConn new_client [] (endpoint config)). assert (clean c0) as H0 by done.
  assert (∀ c1 xs1, clean c1 → address c1 = endpoint config → Forall fair xs1 →
    (if (database config =? 0)%Z then Some (c1, Some (Ok tt))
     else match xs1 with x :: _ => select c1 (database config) x | [] => None end)
      = Some (c, Some (Ok tt)) → clean c ∧ address c = endpoint config) as Hselect.
  { intros c1 xs1 Hc1 Ha Hxs1. destruct (_ =? 0)%Z; [by intros [= <-]|].
    destruct xs1 as [|x xs1]; [done|]. apply Forall_cons in Hxs1 as [Hx _].
    intros Hs. apply ask_settled in Hs as [Hc ->]; [done|by destruct Hc1|done]. }
  destruct (password config) as [pass|].
  - destruct xs as [|x xs]; [done|]. apply Forall_cons in Hxs as [Hx Hxs].
    destruct (ask c0 _ _ x) as [[c1 out]|] eqn:E; [|done]. cbn [mbind option_bind].
    apply ask_settled in E as [Hc1 Ha]; [|by destruct H0|done].
    destruct out as [[[]|?]|]; [by apply Hselect|done|done].
  - cbn [mbind option_bind]. destruct (username config); [done|]. by apply Hselect.
Qed.

(** ** Memory *)

Definition READ_CHUNK : Z := 4096.

Lemma take_frame_shrinks d b : length (take_frame d b).1.2 ≤ length b.
Proof.
  unfold take_frame. destruct (scan d b) as [d' [[n|]|e]]; [|done..].
  destruct (try_decode _) as [[[f n']|]|]; [|done..]. cbn. rewrite length_drop. lia.
Qed.

(** Whatever the server sends, the buffer holds no more than the cap and one read. *)
Lemma recv_loop_bounded c reads :
  (Z.of_nat (length (rx c)) ≤ MAX_REPLY_SIZE + READ_CHUNK)%Z →
  Forall (λ chunk, (Z.of_nat (length chunk) ≤ READ_CHUNK)%Z) reads →
  (Z.of_nat (length (rx (recv_loop c reads).1.1)) ≤ MAX_REPLY_SIZE + READ_CHUNK)%Z.
Proof.
  assert (∀ c, (recv_round c).2 = None ∧ (Z.of_nat (length (rx (recv_round c).1)) ≤ MAX_REPLY_SIZE)%Z ∨
    (recv_round c).2 ≠ None ∧ length (rx (recv_round c).1) ≤ length (rx c)) as Hround.
  { intros c0. unfold recv_round. 
    match goal with |- context [if ?b then _ else _] => destruct b end; [by right|].
    pose proof (take_frame_shrinks (decoder c0) (rx c0)) as Hs.
    destruct (take_frame _ _) as [[d b] [[f|]|e]]; [by right| |by right]. cbn in *.
    destruct (Z.ltb_spec MAX_REPLY_SIZE (Z.of_nat (length b))); [by right|by left]. }
  revert c. induction reads as [|chunk reads IH]; intros c Hc Hreads; cbn [recv_loop].
  all: specialize (Hround c); destruct (recv_round c) as [c' [r|]]; cbn in Hround.
  all: destruct Hround as [[? ?]|[? ?]]; try done; try (cbn; lia).
  { cbn. unfold READ_CHUNK. lia. }
  apply Forall_cons in Hreads as [Hx Hreads]. destruct chunk as [|x chunk].
  { cbn. unfold READ_CHUNK. lia. }
  apply IH; [|done]. cbn [rx]. rewrite length_app. lia.
Qed.
End facts.

(** C26: A command on a settled connection whose reply arrives in full, in any non-empty
    pieces, returns exactly that reply and leaves the connection clean for the next
    command. *)
Theorem reply_is_delivered `{RespCodec} (c : Conn) (cmd : OwnedFrame) (x : Exchange)
    (a : OwnedFrame) (w : bytes) :
  settled c → answerable a → answer x = Some a → encode cmd = Some w →
  concat (reads x) = wire a → Forall (λ chunk, chunk ≠ []) (reads x) →
  ∃ c', send_recv c cmd x = Some (c', Some (Ok a)) ∧ clean c'.
Proof. apply send_recv_delivers. Qed.
