(* ===== verification/RedisPool.v ===== *)
(** The Redis connection pool ([libs/compio-redis/src/pool.rs], and [Source] of
    [sentinel.rs]).

    [Inner] is the source's struct. A caller of [acquire] is a task; between two awaits
    the code runs alone, so every event of [pool_step] is the code from one await to the
    next: the claim of an idle connection, the end of a probe, the end of a connect, the
    drop of the future. A task that is probing or connecting owns a [BusyGuard], a task
    that holds a connection owns a [PooledConn]; both free their slot when they go.
    Instants are milliseconds. *)
From stdpp Require Import gmap.
From S2P Require Import Prelude RustStd Resp RespFacts RespWire RedisConn.

Record PoolConfig := mkPoolConfig {
  max_size : nat;
  min_idle : nat;
  idle_timeout : Z;
  liveness_probe_after : Z
}.

Inductive Source :=
  | Direct (config : ConnectionConfig)
  | Sentinel.
Definition is_sentinel (s : Source) : bool := match s with Direct _ => false | Sentinel => true end.

Record Inner := mkInner {
  source : Source;
  pool_endpoint : bytes;
  generation : Z;
  config : PoolConfig;
  idle : list (Conn * Z);      (* the stack, its top first *)
  busy : nat
}.

Definition set_idle (p : Inner) (l : list (Conn * Z)) : Inner :=
  mkInner (source p) (pool_endpoint p) (generation p) (config p) l (busy p).
Definition set_busy (p : Inner) (n : nat) : Inner :=
  mkInner (source p) (pool_endpoint p) (generation p) (config p) (idle p) n.

(** [u64::wrapping_add]. *)
Definition wrapping_succ (g : Z) : Z := (g + 1) `mod` 2 ^ 64.

Definition invalidate (p : Inner) : Inner :=
  mkInner (source p) (pool_endpoint p) (wrapping_succ (generation p)) (config p) [] (busy p).

(** [Instant::duration_since]: no time passes backwards. *)
Definition duration_since (now ts : Z) : Z := Z.max 0 (now - ts).

(** A connection the barriers of checkout and return let through. *)
Definition reusable (c : Conn) : bool := negb (is_dirty (client c)) && is_rx_empty (client c).

Fixpoint pop_reusable (stack : list (Conn * Z)) : list (Conn * Z) * option (Conn * Z) :=
  match stack with
  | [] => ([], None)
  | (c, ts) :: stack' =>
      if reusable c then (stack', Some (c, ts)) else pop_reusable stack'
  end.

(** The synchronous part of [acquire]'s loop: sweep, pop, and reserve the slot. *)
Definition claim (now : Z) (p : Inner) : Inner * option (Conn * Z) :=
  let live := filter (λ e, (duration_since now e.2 <= idle_timeout (config p))%Z) (idle p) in
  match pop_reusable live with
  | (rest, Some e) => (set_busy (set_idle p rest) (busy p + 1), Some e)
  | (rest, None) => (set_idle p rest, None)
  end.

(** [BusyGuard::drop]. *)
Definition busy_release (p : Inner) : Inner := set_busy p (busy p - 1).

Inductive PoolTask :=
  | Probing (c : Conn) (now : Z) (guard : Z)
  | Connecting (guard : Z)
  | Holding (c : Conn) (gen : Z).

Record Pool := mkPool {
  inner : Inner;
  tasks : gmap nat PoolTask
}.

(** What an event gives the task it is about. *)
Inductive Outcome :=
  | Waits
  | Acquired
  | Refused (e : RedisError)
  | Replied (r : option (redis OwnedFrame))
  | Gone.

Inductive Event :=
  | Acquire (t : nat) (now : Z)
  | Probed (t : nat) (x : Exchange)
  | Connected (t : nat) (config : ConnectionConfig) (xs : list Exchange) (role : Exchange)
  | ConnectFailed (t : nat) (e : RedisError)
  | Cancelled (t : nat)
  | Command (t : nat) (cmd : OwnedFrame) (x : Exchange)
  | Dropped (t : nat) (now : Z)
  | Invalidate.

Section pool.
Context `{RespCodec}.

(** [Source::connect] once its socket is up. A Sentinel source found [config] by asking
    its sentinels; it goes on to the next sentinel unless the connection is set up and its
    server says it is a primary, so only that candidate is its result. *)
Definition source_connect (s : Source) (config : ConnectionConfig) (xs : list Exchange)
    (role : Exchange) : option (Conn * option (redis unit)) :=
  match s with
  | Direct config => connect_config config xs
  | Sentinel =>
      '(c, out) ← connect_config config xs;
      match out with
      | Some (Ok tt) =>
          '(c', out') ← require_primary c role;
          match out' with Some (Ok tt) => Some (c', out') | _ => None end
      | _ => None
      end
  end.

(** [from_source]'s loop: a connection to a new address drops the ones before. *)
Definition warm_up (s : Source) (acc : option (bytes * list (Conn * Z)))
    (e : ConnectionConfig * list Exchange * Exchange * Z) :
    option (bytes * list (Conn * Z)) :=
  let '(config, xs, role, now) := e in
  '(addr, l) ← acc;
  match source_connect s config xs role with
  | Some (c, Some (Ok tt)) =>
      Some (address c, (c, now) :: if bool_decide (addr = address c) then l else [])
  | _ => None
  end.

Definition from_source (s : Source) (cfg : PoolConfig)
    (connects : list (ConnectionConfig * list Exchange * Exchange * Z)) : option (redis Inner) :=
  if bool_decide (max_size cfg = 0) || (max_size cfg <? min_idle cfg) then Some (Err EConfig)
  else if bool_decide (length connects = min_idle cfg) then
    '(addr, l) ← fold_left (warm_up s) connects (Some ([], []));
    Some (Ok (mkInner s addr 0 cfg l 0))
  else None.

(** [acquire] from the head of its loop to an await or its return. *)
Definition acquire_on (t : nat) (now : Z) (st : Pool) : Pool * Outcome :=
  let '(p, candidate) := claim now (inner st) in
  match candidate with
  | Some (c, parked_at) =>
      if negb (is_sentinel (source p)) &&
         (duration_since now parked_at <=? liveness_probe_after (config p))%Z
      then (mkPool p (<[t := Holding c (generation p)]> (tasks st)), Acquired)
      else (mkPool p (<[t := Probing c now (generation p)]> (tasks st)), Waits)
  | None =>
      if max_size (config p) <=? busy p then (mkPool p (delete t (tasks st)), Refused EPool)
      else (mkPool (set_busy p (busy p + 1))
             (<[t := Connecting (generation p)]> (tasks st)), Waits)
  end.

(** The task's guard goes, and with it its slot. *)
Definition release_slot (t : nat) (st : Pool) : Pool :=
  mkPool (busy_release (inner st)) (delete t (tasks st)).

(** After the probe of an idle connection. *)
Definition probed_to (t : nat) (c' : Conn) (now guard : Z) (out : option (redis unit)) (st : Pool) :
    Pool * Outcome :=
  match out with
  | None => (release_slot t st, Gone)
  | Some (Ok _) =>
      if negb (reusable c') || negb (guard =? generation (inner st))%Z
      then acquire_on t now (release_slot t st)
      else (mkPool (inner st) (<[t := Holding c' guard]> (tasks st)), Acquired)
  | Some (Err _) => acquire_on t now (release_slot t st)
  end.

(** After the connect: a new address starts a new generation. *)
Definition connected_to (t : nat) (c : Conn) (st : Pool) : Pool :=
  let p := inner st in
  let p' := if bool_decide (pool_endpoint p = address c) then p
            else mkInner (source p) (address c) (wrapping_succ (generation p)) (config p) []
                   (busy p) in
  mkPool p' (<[t := Holding c (generation p')]> (tasks st)).

(** [PooledConn::drop]. *)
Definition pooled_drop (t : nat) (c : Conn) (gen now : Z) (st : Pool) : Pool :=
  let p := busy_release (inner st) in
  mkPool (if (gen =? generation p)%Z && reusable c then set_idle p ((c, now) :: idle p) else p)
    (delete t (tasks st)).

Definition pool_step (st : Pool) (ev : Event) : option (Pool * Outcome) :=
  match ev with
  | Acquire t now =>
      match tasks st !! t with None => Some (acquire_on t now st) | Some _ => None end
  | Probed t x =>
      match tasks st !! t with
      | Some (Probing c now guard) =>
          '(c', out) ← if is_sentinel (source (inner st)) then require_primary c x else ping c x;
          Some (probed_to t c' now guard out st)
      | _ => None
      end
  | Connected t config xs role =>
      match tasks st !! t with
      | Some (Connecting _) =>
          '(c, out) ← source_connect (source (inner st)) config xs role;
          Some match out with
          | Some (Ok tt) => (connected_to t c st, Acquired)
          | Some (Err e) => (release_slot t st, Refused e)
          | None => (release_slot t st, Gone)
          end
      | _ => None
      end
  | ConnectFailed t e =>
      match tasks st !! t with
      | Some (Connecting _) => Some (release_slot t st, Refused e)
      | _ => None
      end
  | Cancelled t =>
      match tasks st !! t with
      | Some (Probing _ _ _) | Some (Connecting _) => Some (release_slot t st, Gone)
      | _ => None
      end
  | Command t cmd x =>
      match tasks st !! t with
      | Some (Holding c gen) =>
          '(c', out) ← send_recv c cmd x;
          Some (mkPool (inner st) (<[t := Holding c' gen]> (tasks st)), Replied out)
      | _ => None
      end
  | Dropped t now =>
      match tasks st !! t with
      | Some (Holding c gen) => Some (pooled_drop t c gen now st, Gone)
      | _ => None
      end
  | Invalidate => Some (mkPool (invalidate (inner st)) (tasks st), Gone)
  end.

Fixpoint pool_run (st : Pool) (evs : list Event) : option Pool :=
  match evs with
  | [] => Some st
  | ev :: evs' => '(st', _) ← pool_step st ev; pool_run st' evs'
  end.
End pool.
