(* ===== verification/RedisPoolFacts.v ===== *)
(** Theorems on the Redis connection pool.

    For every order in which tasks acquire, probe, connect, run commands, go away and
    return their connections: the busy count is the number of tasks that own a slot and
    with the idle connections never exceeds [max_size] ([accounted_run]); a task that runs
    no command on a connection it already knows to be dirty only ever gets the replies to
    its own commands ([in_step_run]); and a connection held when the pool is invalidated is
    never handed out again ([stale_run]). *)
From stdpp Require Import gmap.
From S2P Require Import Prelude RustStd Resp RespFacts RespWire RedisConn RedisConnFacts RedisPool.

(** [Some f = Some (st', o) → _] with [st'] the first part of [f]. *)
Ltac first_of st' :=
  let E := fresh in intros [= E]; apply (f_equal fst) in E; cbn [fst] in E; subst st'.

Section facts.
Context `{RespCodec}.

(** ** Claims *)

Lemma pop_reusable_spec stack rest e : pop_reusable stack = (rest, e) →
  (∃ dropped, stack = dropped ++ match e with Some e => [e] | None => [] end ++ rest) ∧
  match e with Some (c, _) => reusable c = true | None => rest = [] end.
Proof.
  revert rest e. induction stack as [|[c ts] stack IH]; intros rest e; cbn [pop_reusable].
  { intros [= <- <-]. split; [by exists []|done]. }
  destruct (reusable c) eqn:Hc.
  - intros [= <- <-]. split; [by exists []|done].
  - intros [[dropped ->] He]%IH. split; [by exists ((c, ts) :: dropped)|done].
Qed.

(** The claim takes its connection from the stack and keeps some of the others. *)
Lemma claim_spec now p p' e : claim now p = (p', e) →
  source p' = source p ∧ pool_endpoint p' = pool_endpoint p ∧ generation p' = generation p ∧
  config p' = config p ∧ idle p' ⊆ idle p ∧
  match e with
  | Some (c, ts) =>
      reusable c = true ∧ (c, ts) ∈ idle p ∧ busy p' = busy p + 1 ∧
      length (idle p') + 1 ≤ length (idle p)
  | None => idle p' = [] ∧ busy p' = busy p
  end.
Proof.
  unfold claim. set (live := filter _ _).
  assert (live ⊆ idle p) as Hsub by (intros x Hx; by apply list_elem_of_filter in Hx as []).
  assert (length live ≤ length (idle p)) as Hlen by apply length_filter.
  destruct (pop_reusable live) as [rest [[c ts]|]] eqn:E; apply pop_reusable_spec in E as [[dr Hl] He].
  - assert (∀ x, x ∈ (c, ts) :: rest → x ∈ idle p) as Hin.
    { intros x Hx. apply Hsub. rewrite Hl. by apply elem_of_app; right. }
    intros [= <- <-]. split_and!; try done.
    + intros x Hx. apply Hin. by right.
    + apply Hin. by left.
    + rewrite Hl, !length_app in Hlen. simpl in *. lia.
  - intros [= <- <-]. subst rest. split_and!; try done. apply list_subseteq_nil.
Qed.

(** ** Slots *)

(** Every task owns one slot, and slots and idle connections fit the pool. *)
Definition accounted (cfg : PoolConfig) (st : Pool) : Prop :=
  config (inner st) = cfg ∧ busy (inner st) = size (tasks st) ∧
  busy (inner st) + length (idle (inner st)) ≤ max_size cfg.

Lemma release_accounted cfg t st task : accounted cfg st → tasks st !! t = Some task →
  accounted cfg (release_slot t st).
Proof.
  intros (Hc & Hb & Hm) Ht. unfold accounted, release_slot. cbn.
  rewrite (map_size_delete_Some _ _ (ex_intro _ _ Ht)). split; [done|lia].
Qed.

Lemma acquire_on_accounted cfg t now st : accounted cfg st → tasks st !! t = None →
  accounted cfg (acquire_on t now st).1.
Proof.
  intros (Hcfg & Hb & Hm) Ht. unfold acquire_on.
  destruct (claim now (inner st)) as [p e] eqn:E. apply claim_spec in E as (_ & _ & _ & Hc & _ & He).
  rewrite Hcfg in Hc. unfold accounted. destruct e as [[c ts]|].
  - destruct He as (_ & _ & Hb' & Hl).
    case_match; cbn; rewrite map_size_insert_None by done; (split; [done|lia]).
  - destruct He as (Hi & Hb'). rewrite Hc.
    destruct (Nat.leb_spec (max_size cfg) (busy p)); cbn; (split; [done|]).
    + rewrite delete_id by done. rewrite Hi. simpl. lia.
    + rewrite map_size_insert_None by done. rewrite Hi. simpl. lia.
Qed.

Lemma accounted_update cfg t task task' p st : accounted cfg st → tasks st !! t = Some task →
  busy p = busy (inner st) → config p = config (inner st) →
  length (idle p) ≤ length (idle (inner st)) →
  accounted cfg (mkPool p (<[t := task']> (tasks st))).
Proof.
  intros (Hcfg & Hb & Hm) Ht Hp Hc Hi. unfold accounted. cbn.
  rewrite map_size_insert_Some by (by eexists). split; [congruence|lia].
Qed.

Lemma acquire_on_released cfg t now st task : accounted cfg st → tasks st !! t = Some task →
  accounted cfg (acquire_on t now (release_slot t st)).1.
Proof.
  intros Ha Ht. apply acquire_on_accounted; [by eapply release_accounted|]. cbn. apply lookup_delete_eq.
Qed.

Lemma pooled_drop_accounted cfg t c gen now st : accounted cfg st →
  tasks st !! t = Some (Holding c gen) → accounted cfg (pooled_drop t c gen now st).
Proof.
  intros Ha Ht. pose proof (release_accounted _ _ _ _ Ha Ht) as (Hc & Hb & Hm).
  destruct Ha as (Hc0 & Hb0 & Hm0). assert (size (tasks st) ≠ 0).
  { intros Hz%map_size_empty_iff. by rewrite Hz, lookup_empty in Ht. }
  unfold accounted, pooled_drop. cbn in *. case_match; cbn; (split; [done|lia]).
Qed.

Lemma accounted_step cfg st ev st' o : accounted cfg st → pool_step st ev = Some (st', o) →
  accounted cfg st'.
Proof.
  intros Ha. destruct ev as [t now|t x|t conn xs role|t e|t|t cmd x|t now|]; cbn [pool_step].
  - destruct (tasks st !! t) eqn:Ht; [done|]. first_of st'.
    by apply acquire_on_accounted.
  - destruct (tasks st !! t) as [[c now guard| |]|] eqn:Ht; [|done..].
    destruct (if is_sentinel _ then _ else _) as [[c' out]|]; [|done]. cbn [mbind option_bind].
    first_of st'. unfold probed_to.
    destruct out as [[[]|e]|]; [|by eapply acquire_on_released|by eapply release_accounted].
    case_match; [by eapply acquire_on_released|]. by eapply accounted_update.
  - destruct (tasks st !! t) as [[|guard|]|] eqn:Ht; [done| |done|done].
    destruct (source_connect _ _ _ _) as [[c out]|]; [|done]. cbn [mbind option_bind].
    first_of st'.
    destruct out as [[[]|e]|]; cbn [fst]; [|by eapply release_accounted..].
    unfold connected_to. case_bool_decide; by eapply accounted_update; cbn; [..|lia].
  - destruct (tasks st !! t) as [[|guard|]|] eqn:Ht; [done| |done|done].
    intros [= <- _]. by eapply release_accounted.
  - destruct (tasks st !! t) as [[c now guard|guard|]|] eqn:Ht; [| |done|done];
      intros [= <- _]; by eapply release_accounted.
  - destruct (tasks st !! t) as [[| |c gen]|] eqn:Ht; [done|done| |done].
    destruct (send_recv c cmd x) as [[c' out]|]; [|done]. intros [= <- _].
    by eapply accounted_update.
  - destruct (tasks st !! t) as [[| |c gen]|] eqn:Ht; [done|done| |done].
    intros [= <- _]. by apply pooled_drop_accounted.
  - intros [= <- _]. destruct Ha as (? & ? & ?). split_and!; cbn; [done|done|lia].
Qed.

Lemma accounted_run cfg st evs st' : accounted cfg st → pool_run st evs = Some st' →
  accounted cfg st'.
Proof.
  revert st. induction evs as [|ev evs IH]; intros st Ha; cbn [pool_run]; [by intros [= <-]|].
  destruct (pool_step st ev) as [[st1 o]|] eqn:E; [|done]. cbn [mbind option_bind].
  apply IH. by eapply accounted_step.
Qed.

(** ** Tasks and the idle stack

    The invariants below say one thing of every idle connection and one of every task;
    these lemmas carry them through the parts of a step. *)

Section invariant.
Variable idle_ok : Inner → Conn → Prop.
Variable task_ok : Inner → PoolTask → Prop.

Definition all_ok (st : Pool) : Prop :=
  (∀ e, e ∈ idle (inner st) → idle_ok (inner st) e.1) ∧
  map_Forall (λ _, task_ok (inner st)) (tasks st).

(** Neither depends on the busy count or on the rest of the stack. *)
Hypothesis idle_frame : ∀ p l n c, idle_ok p c → idle_ok (set_busy (set_idle p l) n) c.
Hypothesis task_frame : ∀ p l n task, task_ok p task → task_ok (set_busy (set_idle p l) n) task.
Hypothesis claimed_ok : ∀ p c, idle_ok p c →
  task_ok p (Holding c (generation p)) ∧ ∀ now, task_ok p (Probing c now (generation p)).
Hypothesis connecting_ok : ∀ p g, task_ok p (Connecting g).

Lemma all_ok_frame l n st : all_ok st → (∀ e, e ∈ l → e ∈ idle (inner st)) →
  all_ok (mkPool (set_busy (set_idle (inner st) l) n) (tasks st)).
Proof.
  intros [Hi Ht] Hl. split; cbn.
  - intros e He. apply idle_frame, Hi, Hl, He.
  - eapply map_Forall_impl; [exact Ht|]. intros ? ?. apply task_frame.
Qed.

Lemma all_ok_insert t task st : all_ok st → task_ok (inner st) task →
  all_ok (mkPool (inner st) (<[t := task]> (tasks st))).
Proof. intros [Hi Ht] Hk. split; [done|]. by apply map_Forall_insert_2. Qed.

Lemma all_ok_delete t st : all_ok st → all_ok (mkPool (inner st) (delete t (tasks st))).
Proof. intros [Hi Ht]. split; [done|]. by apply map_Forall_delete. Qed.

Lemma set_busy_idle p : p = set_busy (set_idle p (idle p)) (busy p).
Proof. by destruct p. Qed.

Lemma all_ok_release t st : all_ok st → all_ok (release_slot t st).
Proof.
  intros Hst. apply (all_ok_delete t) in Hst.
  by apply (all_ok_frame (idle (inner st)) (busy (inner st) - 1)) in Hst.
Qed.

Lemma claim_frame now p : (claim now p).1 =
  set_busy (set_idle p (idle (claim now p).1)) (busy (claim now p).1).
Proof. unfold claim. by destruct (pop_reusable _) as [rest [e|]], p. Qed.

Lemma all_ok_acquire_on t now st : all_ok st → all_ok (acquire_on t now st).1.
Proof.
  intros Hst. unfold acquire_on. pose proof (claim_frame now (inner st)) as Hf.
  destruct (claim now (inner st)) as [p e] eqn:E. cbn [fst] in Hf.
  apply claim_spec in E as (_ & _ & _ & _ & Hsub & He).
  assert (all_ok (mkPool p (tasks st))) as Hp.
  { rewrite Hf. by apply all_ok_frame. }
  destruct e as [[c ts]|].
  - assert (idle_ok p c) as Hc.
    { rewrite Hf. destruct He as (_ & Hin & _). by apply idle_frame, (proj1 Hst (c, ts)). }
    destruct (claimed_ok p c Hc) as [Hhold Hprobe].
    case_match; cbn [fst]; by apply (all_ok_insert t _ (mkPool p (tasks st))).
  - case_match; cbn [fst]; [by apply (all_ok_delete t) in Hp|].
    apply (all_ok_insert t (Connecting (generation p))) in Hp; [|done].
    by apply (all_ok_frame (idle p) (busy p + 1)) in Hp.
Qed.

Lemma all_ok_acquire_release t now st : all_ok st → all_ok (acquire_on t now (release_slot t st)).1.
Proof. intros ?. by apply all_ok_acquire_on, all_ok_release. Qed.

Lemma all_ok_drop t c gen now st : all_ok st →
  ((gen =? generation (inner st))%Z && reusable c = true → idle_ok (inner st) c) →
  all_ok (pooled_drop t c gen now st).
Proof.
  intros Hst Hc. unfold pooled_drop. change (generation (busy_release _)) with (generation (inner st)).
  pose proof (all_ok_release t st Hst) as [Hi Ht]. cbn [inner tasks release_slot] in Hi, Ht.
  destruct (_ && _); [|by split]. split.
  - intros e [->|He]%elem_of_cons.
    + by apply (idle_frame _ ((c, now) :: idle (inner st)) (busy (inner st) - 1)), Hc.
    + by apply (idle_frame _ ((c, now) :: idle (inner st)) (busy (inner st) - 1)), (proj1 Hst).
  - eapply map_Forall_impl; [exact (proj2 (all_ok_delete t st Hst))|].
    intros ? ?. apply (task_frame _ ((c, now) :: idle (inner st)) (busy (inner st) - 1)).
Qed.
End invariant.

(** ** Replies reach the command they answer *)

(** Idle connections and connections under probe are clean, and a held connection is
    unless its holder has seen it fail. *)
Definition task_in_step (task : PoolTask) : Prop :=
  match task with
  | Probing c _ _ => clean c
  | Connecting _ => True
  | Holding c _ => dirty (client c) = false → clean c
  end.
Definition in_step : Pool → Prop := all_ok (λ _, clean) (λ _, task_in_step).

(** A server that answers each command with one reply of the grammar, and a holder that
    runs no command on a connection that is already dirty. *)
Definition polite (st : Pool) (ev : Event) : Prop :=
  match ev with
  | Probed _ x => fair x
  | Connected _ _ xs role => Forall fair xs ∧ fair role
  | Command t _ x =>
      fair x ∧
      match tasks st !! t with Some (Holding c _) => dirty (client c) = false | _ => True end
  | _ => True
  end.

Fixpoint polite_run (st : Pool) (evs : list Event) : Prop :=
  match evs with
  | [] => True
  | ev :: evs' =>
      polite st ev ∧
      match pool_step st ev with Some (st', _) => polite_run st' evs' | None => True end
  end.

Lemma source_connect_clean s config xs role c : Forall fair xs → fair role →
  source_connect s config xs role = Some (c, Some (Ok tt)) → clean c.
Proof.
  intros Hxs Hr. destruct s as [config'|]; cbn [source_connect].
  { intros E. by apply connect_config_clean in E as []. }
  destruct (connect_config config xs) as [[c1 out]|] eqn:E; [|done]. cbn [mbind option_bind].
  destruct out as [[[]|]|]; [|done..]. apply connect_config_clean in E as [[Hc _] _]; [|done].
  destruct (require_primary c1 role) as [[c2 out2]|] eqn:E2; [|done]. cbn [mbind option_bind].
  destruct out2 as [[[]|]|]; [|done..]. intros [= <-]. by apply ask_settled in E2 as [? _].
Qed.

Lemma in_step_acquire_on t now st : in_step st → in_step (acquire_on t now st).1.
Proof. apply all_ok_acquire_on; naive_solver. Qed.
Lemma in_step_release t st : in_step st → in_step (release_slot t st).
Proof. apply all_ok_release; naive_solver. Qed.

Lemma in_step_probed t c now guard out st c' x : in_step st → fair x → clean c →
  (if is_sentinel (source (inner st)) then require_primary c x else ping c x) = Some (c', out) →
  in_step (probed_to t c' now guard out st).1.
Proof.
  intros Hst Hx [Hc _] E.
  assert (match out with Some (Ok _) => clean c' | _ => True end) as Hc'.
  { destruct (is_sentinel _); by apply ask_settled in E as [? _]. }
  unfold probed_to. destruct out as [[[]|e]|].
  - destruct (negb _ || _); [by apply in_step_acquire_on, in_step_release|].
    by apply (all_ok_insert _ _ t (Holding c' guard)); [|intros _].
  - by apply in_step_acquire_on, in_step_release.
  - by apply in_step_release.
Qed.

Lemma in_step_step st ev st' o : in_step st → polite st ev → pool_step st ev = Some (st', o) →
  in_step st'.
Proof.
  intros Hst. destruct ev as [t now|t x|t cfg xs role|t e|t|t cmd x|t now|]; cbn [pool_step polite].
  - intros _. destruct (tasks st !! t); [done|]. first_of st'. by apply in_step_acquire_on.
  - intros Hx. destruct (tasks st !! t) as [[c now guard| |]|] eqn:Ht; [|done..].
    destruct (if is_sentinel _ then _ else _) as [[c' out]|] eqn:E; [|done].
    cbn [mbind option_bind]. first_of st'. eapply in_step_probed; [done|done| |exact E].
    by apply (proj2 Hst) in Ht.
  - intros [Hxs Hr]. destruct (tasks st !! t) as [[|guard|]|] eqn:Ht; [done| |done|done].
    destruct (source_connect _ _ _ _) as [[c out]|] eqn:E; [|done]. cbn [mbind option_bind].
    first_of st'. destruct out as [[[]|e]|]; cbn [fst]; [|by apply in_step_release..].
    apply source_connect_clean in E; [|done..]. destruct Hst as [Hi Htk].
    unfold connected_to. split; cbn.
    + case_bool_decide; [done|]. intros e []%elem_of_nil.
    + by apply map_Forall_insert_2; [intros _|].
  - intros _. destruct (tasks st !! t) as [[|guard|]|]; [done| |done|done].
    intros [= <- _]. by apply in_step_release.
  - intros _. destruct (tasks st !! t) as [[c now guard|guard|]|]; [| |done|done];
      intros [= <- _]; by apply in_step_release.
  - intros [Hx Hclean]. destruct (tasks st !! t) as [[| |c gen]|] eqn:Ht; [done|done| |done].
    destruct (send_recv c cmd x) as [[c' out]|] eqn:E; [|done]. intros [= <- _].
    apply all_ok_insert; [done|]. apply (proj2 Hst) in Ht. cbn in Ht |- *.
    destruct (Ht Hclean) as [Hset _]. apply send_recv_settled in E; [|done..].
    unfold command_end in E. intros Hd. destruct out as [[f|]|]; [by destruct E|congruence..].
  - intros _. destruct (tasks st !! t) as [[| |c gen]|] eqn:Ht; [done|done| |done].
    intros [= <- _]. apply all_ok_drop; [naive_solver..|].
    intros [_ [Hd _]%andb_prop]%andb_prop. apply (proj2 Hst) in Ht. apply Ht.
    unfold is_dirty in Hd. by destruct (dirty (client c)).
  - intros _ [= <- _]. destruct Hst. split; cbn; [|done]. intros e []%elem_of_nil.
Qed.

Lemma in_step_run st evs st' : in_step st → polite_run st evs → pool_run st evs = Some st' →
  in_step st'.
Proof.
  revert st. induction evs as [|ev evs IH]; intros st Hst; cbn [pool_run polite_run].
  { by intros _ [= <-]. }
  intros [Hp Hr]. destruct (pool_step st ev) as [[st1 o]|] eqn:E; [|done].
  cbn [mbind option_bind]. apply IH; [|done]. by eapply in_step_step.
Qed.

Lemma polite_run_app st evs ev st' : polite_run st (evs ++ [ev]) → pool_run st evs = Some st' →
  polite_run st evs ∧ polite st' ev.
Proof.
  revert st. induction evs as [|ev0 evs IH]; intros st; cbn.
  { intros [Hp _] [= <-]. done. }
  destruct (pool_step st ev0) as [[st1 o]|]; [|done]. intros [Hp Hr] Hrun.
  destruct (IH st1 Hr Hrun). done.
Qed.

(** A command on a connection in step gets its own reply. *)
Lemma in_step_reply st t cmd x st' f : in_step st → polite st (Command t cmd x) →
  pool_step st (Command t cmd x) = Some (st', Replied (Some (Ok f))) → answer x = Some f.
Proof.
  intros Hst [Hx Hclean]. cbn [pool_step].
  destruct (tasks st !! t) as [[| |c gen]|] eqn:Ht; [done|done| |done].
  destruct (send_recv c cmd x) as [[c' out]|] eqn:E; [|done]. cbn. intros [= _ ->].
  apply (proj2 Hst) in Ht. destruct (Ht Hclean) as [Hset _].
  apply send_recv_settled in E; [|done..]. by destruct E.
Qed.

(** ** Generations *)

(** Idle connections go to the pool's address, and so does a connection of the current
    generation; older ones carry an older generation. *)
Definition task_homed (p : Inner) (task : PoolTask) : Prop :=
  match task with
  | Probing c _ g | Holding c g =>
      (g ≤ generation p)%Z ∧ (g = generation p → address c = pool_endpoint p)
  | Connecting _ => True
  end.
Definition idle_homed (p : Inner) (c : Conn) : Prop := address c = pool_endpoint p.

Definition homed (n : Z) (st : Pool) : Prop :=
  (0 ≤ generation (inner st) ≤ n)%Z ∧ all_ok idle_homed task_homed st.

Lemma wrapping_succ_small n g : (0 ≤ g ≤ n)%Z → (n + 1 < 2 ^ 64)%Z → wrapping_succ g = (g + 1)%Z.
Proof. intros. unfold wrapping_succ. apply Z.mod_small. lia. Qed.

Lemma acquire_on_generation t now st :
  generation (inner (acquire_on t now st).1) = generation (inner st) ∧
  pool_endpoint (inner (acquire_on t now st).1) = pool_endpoint (inner st).
Proof.
  unfold acquire_on. destruct (claim now (inner st)) as [p e] eqn:E.
  apply claim_spec in E as (_ & He & Hg & _). destruct e as [[c ts]|]; by case_match.
Qed.

Lemma homed_acquire_on n t now st : homed n st → homed n (acquire_on t now st).1.
Proof.
  intros [Hn Hst]. split; [by rewrite (proj1 (acquire_on_generation t now st))|].
  by apply all_ok_acquire_on.
Qed.
Lemma homed_release n t st : homed n st → homed n (release_slot t st).
Proof. intros [Hn Hst]. split; [done|]. by apply all_ok_release. Qed.

(** A new generation leaves every task behind. *)
Lemma homed_bump n st p' : homed n st → (n + 1 < 2 ^ 64)%Z →
  generation p' = wrapping_succ (generation (inner st)) → idle p' = [] →
  homed (n + 1) (mkPool p' (tasks st)).
Proof.
  intros [Hn [Hi Ht]] Hw Hg Hidle. rewrite (wrapping_succ_small n) in Hg by lia.
  split; [cbn; lia|]. split; cbn; [rewrite Hidle; intros e []%elem_of_nil|].
  eapply map_Forall_impl; [exact Ht|]. intros k task. cbn.
  destruct task as [c now g|g|c g]; cbn; [|done|]; rewrite Hg; intros [Hle _]; split; lia.
Qed.

Lemma homed_connected n t c st : homed n st → (n + 1 < 2 ^ 64)%Z →
  homed (n + 1) (connected_to t c st).
Proof.
  intros Hst Hw. unfold connected_to. case_bool_decide as Ha.
  - destruct Hst as [Hn Hst]. split; [cbn; lia|]. by apply all_ok_insert.
  - pose proof (homed_bump n st (mkInner (source (inner st)) (address c)
      (wrapping_succ (generation (inner st))) (config (inner st)) [] (busy (inner st))) Hst Hw
      eq_refl eq_refl) as [Hn Hall].
    split; [done|]. by apply (all_ok_insert _ _ t (Holding c (wrapping_succ (generation (inner st))))) in Hall.
Qed.

Lemma homed_weaken n m st : homed n st → (n ≤ m)%Z → homed m st.
Proof. intros [? ?] ?. split; [lia|done]. Qed.

Lemma homed_probed n t c c' now guard x out st : homed n st →
  tasks st !! t = Some (Probing c now guard) →
  (if is_sentinel (source (inner st)) then require_primary c x else ping c x) = Some (c', out) →
  homed n (probed_to t c' now guard out st).1.
Proof.
  intros Hst Ht E. assert (address c' = address c) as Ha.
  { destruct (is_sentinel _); unfold require_primary, ping, ask in E;
      destruct (send_recv c _ x) as [[c1 o]|] eqn:E'; [|done| |done];
      apply send_recv_address in E'; congruence. }
  unfold probed_to. destruct out as [[[]|e]|].
  - destruct (negb _ || _); [by apply homed_acquire_on, homed_release|].
    destruct Hst as [Hn Hst]. split; [done|]. apply all_ok_insert; [done|].
    apply (proj2 Hst) in Ht. cbn in *. by rewrite Ha.
  - by apply homed_acquire_on, homed_release.
  - by apply homed_release.
Qed.

Lemma homed_step n st ev st' o : homed n st → (n + 1 < 2 ^ 64)%Z →
  pool_step st ev = Some (st', o) → homed (n + 1) st'.
Proof.
  intros Hst Hw. destruct ev as [t now|t x|t cfg xs role|t e|t|t cmd x|t now|]; cbn [pool_step].
  - destruct (tasks st !! t); [done|]. first_of st'.
    apply (homed_weaken n); [by apply homed_acquire_on|lia].
  - destruct (tasks st !! t) as [[c now guard| |]|] eqn:Ht; [|done..].
    destruct (if is_sentinel _ then _ else _) as [[c' out]|] eqn:E; [|done].
    cbn [mbind option_bind]. first_of st'.
    apply (homed_weaken n); [by eapply homed_probed|lia].
  - destruct (tasks st !! t) as [[|guard|]|] eqn:Ht; [done| |done|done].
    destruct (source_connect _ _ _ _) as [[c out]|]; [|done]. cbn [mbind option_bind].
    first_of st'. destruct out as [[[]|e]|]; cbn [fst]; [by apply homed_connected|..].
    all: apply (homed_weaken n); [by apply homed_release|lia].
  - destruct (tasks st !! t) as [[|guard|]|]; [done| |done|done].
    intros [= <- _]. apply (homed_weaken n); [by apply homed_release|lia].
  - destruct (tasks st !! t) as [[c now guard|guard|]|]; [| |done|done];
      intros [= <- _]; (apply (homed_weaken n); [by apply homed_release|lia]).
  - destruct (tasks st !! t) as [[| |c gen]|] eqn:Ht; [done|done| |done].
    destruct (send_recv c cmd x) as [[c' out]|] eqn:E; [|done]. intros [= <- _].
    apply (homed_weaken n); [|lia]. destruct Hst as [Hn Hst]. split; [done|].
    apply all_ok_insert; [done|]. apply (proj2 Hst) in Ht. cbn in *.
    by rewrite (send_recv_address _ _ _ _ _ E).
  - destruct (tasks st !! t) as [[| |c gen]|] eqn:Ht; [done|done| |done].
    intros [= <- _]. apply (homed_weaken n); [|lia]. destruct Hst as [Hn Hst].
    split; [unfold pooled_drop; cbn; by case_match|].
    apply all_ok_drop; [done..|]. intros [Hg%Z.eqb_eq _]%andb_prop.
    apply (proj2 Hst) in Ht as [_ Ha]. by apply Ha.
  - intros [= <- _]. by apply (homed_bump n st (invalidate (inner st))).
Qed.

Lemma homed_run n st evs st' : homed n st → (n + Z.of_nat (length evs) < 2 ^ 64)%Z →
  pool_run st evs = Some st' → homed (n + Z.of_nat (length evs)) st'.
Proof.
  revert n st. induction evs as [|ev evs IH]; intros n st Hst Hn; cbn [pool_run].
  { intros [= <-]. cbn. by rewrite Z.add_0_r. }
  destruct (pool_step st ev) as [[st1 o]|] eqn:E; [|done]. cbn [mbind option_bind length] in *.
  intros Hr. replace (n + Z.of_nat (S (length evs)))%Z with (n + 1 + Z.of_nat (length evs))%Z by lia.
  apply (IH (n + 1)%Z st1); [eapply homed_step; [done|lia|done]|lia|done].
Qed.

(** ** What an event leaves alone *)

Lemma acquire_on_others t t' now st : t' ≠ t → tasks (acquire_on t now st).1 !! t' = tasks st !! t'.
Proof.
  intros Hne. unfold acquire_on. destruct (claim now (inner st)) as [p [[c ts]|]]; case_match; cbn.
  all: by rewrite ?lookup_insert_ne, ?lookup_delete_ne by done.
Qed.

Lemma release_others t t' st : t' ≠ t → tasks (release_slot t st) !! t' = tasks st !! t'.
Proof. intros Hne. cbn. by rewrite lookup_delete_ne by done. Qed.

Lemma probed_others t t' c' now guard out st : t' ≠ t →
  tasks (probed_to t c' now guard out st).1 !! t' = tasks st !! t'.
Proof.
  intros Hne. unfold probed_to. destruct out as [[[]|e]|]; [destruct (negb _ || _)|..]; cbn.
  all: by rewrite ?acquire_on_others, ?lookup_insert_ne, ?release_others, ?lookup_delete_ne by done.
Qed.

(** A held connection stays with its holder and its generation until it is dropped. *)
Lemma held_step st ev st' o t c g : pool_step st ev = Some (st', o) →
  tasks st !! t = Some (Holding c g) → (∀ now, ev ≠ Dropped t now) →
  ∃ c', tasks st' !! t = Some (Holding c' g).
Proof.
  intros Hs Ht Hd. revert Hs.
  assert (∀ t', tasks st !! t' ≠ tasks st !! t → t ≠ t') as Hne by congruence.
  destruct ev as [t' now|t' x|t' cfg xs role|t' e|t'|t' cmd x|t' now|]; cbn [pool_step].
  - destruct (tasks st !! t') eqn:Ht'; [done|]. first_of st'.
    rewrite acquire_on_others by (apply Hne; congruence). by eexists.
  - destruct (tasks st !! t') as [[c1 now guard| |]|] eqn:Ht'; [|done..].
    destruct (if is_sentinel _ then _ else _) as [[c' out]|] eqn:E; [|done].
    cbn [mbind option_bind]. first_of st'.
    rewrite probed_others by (apply Hne; congruence). by eexists.
  - destruct (tasks st !! t') as [[|guard|]|] eqn:Ht'; [done| |done|done].
    destruct (source_connect _ _ _ _) as [[c1 out]|]; [|done]. cbn [mbind option_bind].
    first_of st'. assert (t ≠ t') by (apply Hne; congruence).
    destruct out as [[[]|e]|]; cbn; rewrite ?lookup_insert_ne, ?lookup_delete_ne by done; by eexists.
  - destruct (tasks st !! t') as [[|guard|]|] eqn:Ht'; [done| |done|done].
    intros [= <- _]. rewrite release_others by (apply Hne; congruence). by eexists.
  - destruct (tasks st !! t') as [[c1 now guard|guard|]|] eqn:Ht'; [| |done|done];
      intros [= <- _]; rewrite release_others by (apply Hne; congruence); by eexists.
  - destruct (tasks st !! t') as [[| |c1 gen]|] eqn:Ht'; [done|done| |done].
    destruct (send_recv c1 cmd x) as [[c' out]|] eqn:E; [|done]. intros [= <- _]. cbn.
    destruct (decide (t = t')) as [->|]; [|rewrite lookup_insert_ne by done; by eexists].
    rewrite lookup_insert_eq. rewrite Ht in Ht'. simplify_eq. by eexists.
  - destruct (tasks st !! t') as [[| |c1 gen]|] eqn:Ht'; [done|done| |done].
    intros [= <- _]. cbn. assert (t ≠ t') by (intros ->; by destruct (Hd now)).
    rewrite lookup_delete_ne by done. by eexists.
  - intros [= <- _]. by eexists.
Qed.

Lemma held_run st evs st' t c g : pool_run st evs = Some st' →
  tasks st !! t = Some (Holding c g) → (∀ now, Dropped t now ∉ evs) →
  ∃ c', tasks st' !! t = Some (Holding c' g).
Proof.
  revert st c. induction evs as [|ev evs IH]; intros st c; cbn [pool_run].
  { intros [= <-]. by eexists. }
  destruct (pool_step st ev) as [[st1 o]|] eqn:E; [|done]. cbn [mbind option_bind].
  intros Hr Ht Hd. destruct (held_step st ev st1 o t c g E Ht) as [c' Ht'].
  { intros now ->. apply (Hd now). by left. }
  apply (IH st1 c'); [done|done|]. intros now Hin. apply (Hd now). by right.
Qed.

Lemma generation_step n st ev st' o : homed n st → (n + 1 < 2 ^ 64)%Z →
  pool_step st ev = Some (st', o) → (generation (inner st) ≤ generation (inner st'))%Z.
Proof.
  intros [Hn _] Hw. pose proof (wrapping_succ_small n (generation (inner st)) Hn Hw) as Hg.
  destruct ev as [t now|t x|t cfg xs role|t e|t|t cmd x|t now|]; cbn [pool_step].
  - destruct (tasks st !! t); [done|]. first_of st'. by rewrite (proj1 (acquire_on_generation _ _ _)).
  - destruct (tasks st !! t) as [[c now guard| |]|]; [|done..].
    destruct (if is_sentinel _ then _ else _) as [[c' out]|]; [|done].
    cbn [mbind option_bind]. first_of st'. unfold probed_to.
    destruct out as [[[]|e]|]; [destruct (negb _ || _)|..]; try done.
    all: by rewrite (proj1 (acquire_on_generation _ _ _)).
  - destruct (tasks st !! t) as [[|guard|]|]; [done| |done|done].
    destruct (source_connect _ _ _ _) as [[c out]|]; [|done]. cbn [mbind option_bind].
    first_of st'. destruct out as [[[]|e]|]; cbn; [case_bool_decide; cbn; lia|lia|lia].
  - destruct (tasks st !! t) as [[|guard|]|]; [done| |done|done]. by intros [= <- _].
  - destruct (tasks st !! t) as [[c now guard|guard|]|]; [| |done|done]; by intros [= <- _].
  - destruct (tasks st !! t) as [[| |c gen]|]; [done|done| |done].
    destruct (send_recv c cmd x) as [[c' out]|]; [|done]. by intros [= <- _].
  - destruct (tasks st !! t) as [[| |c gen]|]; [done|done| |done].
    intros [= <- _]. unfold pooled_drop. cbn. by case_match.
  - intros [= <- _]. cbn. lia.
Qed.

Lemma generation_run n st evs st' : homed n st → (n + Z.of_nat (length evs) < 2 ^ 64)%Z →
  pool_run st evs = Some st' → (generation (inner st) ≤ generation (inner st'))%Z.
Proof.
  revert n st. induction evs as [|ev evs IH]; intros n st Hst Hn; cbn [pool_run].
  { by intros [= <-]. }
  destruct (pool_step st ev) as [[st1 o]|] eqn:E; [|done]. cbn [mbind option_bind length] in *.
  intros Hr. transitivity (generation (inner st1)).
  - eapply generation_step; [done|lia|done].
  - eapply (IH (n + 1)%Z); [eapply homed_step; [done|lia|done]|lia|done].
Qed.

(** A connection held when the pool is invalidated is not taken back. *)
Lemma stale_run n st t c g evs st' now : homed n st → tasks st !! t = Some (Holding c g) →
  (n + 1 + Z.of_nat (length evs) < 2 ^ 64)%Z → (∀ now, Dropped t now ∉ evs) →
  pool_run st (Invalidate :: evs) = Some st' →
  ∃ c', tasks st' !! t = Some (Holding c' g) ∧
    idle (inner (pooled_drop t c' g now st')) = idle (inner st').
Proof.
  intros Hst Ht Hn Hd Hr. destruct (held_run _ _ _ t c g Hr Ht) as [c' Ht'].
  { intros now'. rewrite elem_of_cons. naive_solver. }
  exists c'. split; [done|]. cbn [pool_run pool_step mbind option_bind] in Hr.
  pose proof Hst as [Hn0 [_ Htk]]. apply Htk in Ht as [Hle _].
  pose proof (wrapping_succ_small n (generation (inner st))) as Hg.
  assert (homed (n + 1) (mkPool (invalidate (inner st)) (tasks st))) as Hinv.
  { apply homed_bump; [done|lia|done|done]. }
  pose proof (generation_run _ _ _ _ Hinv Hn Hr) as Hmono. cbn in Hmono. rewrite Hg in Hmono by lia.
  unfold pooled_drop. cbn. rewrite (proj2 (Z.eqb_neq _ _)) by lia. done.
Qed.

(** ** A new pool *)

Lemma warm_up_spec s connects addr l addr' l' :
  fold_left (warm_up s) connects (Some (addr, l)) = Some (addr', l') →
  Forall (λ e, address e.1 = addr) l →
  Forall (λ e, address e.1 = addr') l' ∧ length l' ≤ length l + length connects.
Proof.
  revert addr l. induction connects as [|[[[cfg xs] role] now] connects IH]; intros addr l; cbn.
  { intros [= <- <-] Hl. split; [done|lia]. }
  destruct (source_connect s cfg xs role) as [[c [[[]|e]|]]|]; cbn.
  2-4: intros E; exfalso; clear IH; revert E; by induction connects as [|[[[? ?] ?] ?] ? IH].
  intros E Hl. apply IH in E as [Hall Hlen].
  - split; [done|]. simpl in Hlen. case_bool_decide; simpl in *; lia.
  - case_bool_decide; subst; by repeat constructor.
Qed.

Lemma warm_up_clean s connects addr l addr' l' :
  Forall (λ '(_, xs, role, _), Forall fair xs ∧ fair role) connects →
  fold_left (warm_up s) connects (Some (addr, l)) = Some (addr', l') →
  Forall (λ e, clean e.1) l → Forall (λ e, clean e.1) l'.
Proof.
  intros Hf. revert addr l.
  induction Hf as [|[[[cfg xs] role] now] connects [Hxs Hr] Hf IH]; intros addr l; cbn.
  { by intros [= <- <-]. }
  destruct (source_connect s cfg xs role) as [[c [[[]|e]|]]|] eqn:Ec; cbn.
  2-4: intros E; exfalso; clear IH Hf; revert E; by induction connects as [|[[[? ?] ?] ?] ? IH].
  intros E Hl. apply IH in E; [done|]. constructor; [by eapply source_connect_clean|].
  by case_bool_decide.
Qed.

(** What [Pool::from_source] makes. *)
Definition opened (s : Source) (cfg : PoolConfig)
    (connects : list (ConnectionConfig * list Exchange * Exchange * Z)) (st : Pool) : Prop :=
  ∃ p, from_source s cfg connects = Some (Ok p) ∧ st = mkPool p ∅.

Lemma opened_spec s cfg connects st : opened s cfg connects st →
  accounted cfg st ∧ homed 0 st ∧
  (Forall (λ '(_, xs, role, _), Forall fair xs ∧ fair role) connects → in_step st).
Proof.
  intros (p & E & ->). revert E. unfold from_source.
  destruct (bool_decide (max_size cfg = 0) || _) eqn:Hm; [done|].
  apply orb_false_elim in Hm as [_ Hm%Nat.ltb_ge].
  case_bool_decide as Hlen; [|done].
  destruct (fold_left (warm_up s) connects _) as [[addr l]|] eqn:E; [|done].
  cbn [mbind option_bind]. intros [= <-].
  destruct (warm_up_spec _ _ _ _ _ _ E) as [Hall Hl]; [constructor|]. cbn in Hl.
  split_and!; [|split; [done|split]|intros Hf; split].
  - split_and!; cbn; [done|by rewrite map_size_empty|lia].
  - intros e He. by eapply Forall_forall in Hall.
  - apply map_Forall_empty.
  - intros e He. apply (warm_up_clean _ _ _ _ _ _ Hf) in E; [|constructor].
    by eapply Forall_forall in E.
  - apply map_Forall_empty.
Qed.

(** ** Callers that stop at an error

    [polite_run] asks that no command runs on a dirty connection. A caller need not look:
    one that runs no further command after one that failed, as [?] makes it, is polite. *)

Definition fair_event (ev : Event) : Prop :=
  match ev with
  | Probed _ x | Command _ _ x => fair x
  | Connected _ _ xs role => Forall fair xs ∧ fair role
  | _ => True
  end.

(** The tasks whose last command failed or was dropped. *)
Definition failed_after (ev : Event) (o : Outcome) (failed : gset nat) : gset nat :=
  match ev, o with
  | Command _ _ _, Replied (Some (Ok _)) => failed
  | Command t _ _, _ => {[ t ]} ∪ failed
  | Dropped t _, _ => failed ∖ {[ t ]}
  | _, _ => failed
  end.

Fixpoint careful_run (failed : gset nat) (st : Pool) (evs : list Event) : Prop :=
  match evs with
  | [] => True
  | ev :: evs' =>
      fair_event ev ∧ match ev with Command t _ _ => t ∉ failed | _ => True end ∧
      match pool_step st ev with
      | Some (st', o) => careful_run (failed_after ev o failed) st' evs'
      | None => True
      end
  end.

Definition undirtied (failed : gset nat) (st : Pool) : Prop :=
  ∀ t c g, tasks st !! t = Some (Holding c g) → t ∉ failed → dirty (client c) = false.

Lemma reusable_undirtied c : reusable c = true → dirty (client c) = false.
Proof. unfold reusable, is_dirty. by destruct (dirty (client c)). Qed.

Lemma undirtied_insert failed st t task p : undirtied failed st →
  match task with Holding c _ => dirty (client c) = false | _ => True end →
  undirtied failed (mkPool p (<[t := task]> (tasks st))).
Proof.
  intros Hu Hk t' c g. cbn. rewrite lookup_insert_Some. intros [[-> ->]|[_ ?]]; [done|by eauto].
Qed.

Lemma undirtied_failed failed st t task p : undirtied failed st →
  undirtied ({[ t ]} ∪ failed) (mkPool p (<[t := task]> (tasks st))).
Proof.
  intros Hu t' c g. cbn. rewrite lookup_insert_Some, elem_of_union, elem_of_singleton.
  intros [[-> _]|[_ Hl]] Hn; [by destruct Hn; left|]. apply (Hu t' c g); [done|tauto].
Qed.

Lemma undirtied_delete failed st t p : undirtied failed st →
  undirtied failed (mkPool p (delete t (tasks st))).
Proof. intros Hu t' c g. cbn. rewrite lookup_delete_Some. intros [_ ?]. by eauto. Qed.

Lemma undirtied_acquire_on failed st t now : undirtied failed st → undirtied failed (acquire_on t now st).1.
Proof.
  intros Hu. unfold acquire_on. destruct (claim now (inner st)) as [p e] eqn:E.
  apply claim_spec in E as (_ & _ & _ & _ & _ & He). destruct e as [[c ts]|].
  - destruct He as [Hr _]. apply reusable_undirtied in Hr.
    case_match; by apply undirtied_insert.
  - case_match; [by apply undirtied_delete|by apply undirtied_insert].
Qed.

Lemma undirtied_release failed st t now : undirtied failed st →
  undirtied failed (acquire_on t now (release_slot t st)).1.
Proof. intros Hu. by apply undirtied_acquire_on, undirtied_delete. Qed.

Lemma send_recv_undirties c cmd x c' f :
  send_recv c cmd x = Some (c', Some (Ok f)) → dirty (client c') = false.
Proof.
  unfold send_recv. destruct (encode_frame cmd); [|done].
  destruct (recv_loop _ _) as [[c1 [|? ?]] out1]; [|done]. case_bool_decide; [|done].
  destruct out1 as [[?|?]|]; [by intros [= <- _]|done|by destruct (ended x)].
Qed.

Lemma undirtied_step failed st ev st' o : undirtied failed st → in_step st → polite st ev →
  pool_step st ev = Some (st', o) → undirtied (failed_after ev o failed) st'.
Proof.
  intros Hu Hst. destruct ev as [t now|t x|t cfg xs role|t e|t|t cmd x|t now|];
    cbn [pool_step polite failed_after].
  - intros _. destruct (tasks st !! t); [done|]. first_of st'. by apply undirtied_acquire_on.
  - intros Hx. destruct (tasks st !! t) as [[c now guard| |]|] eqn:Ht; [|done..].
    destruct (if is_sentinel _ then _ else _) as [[c' out]|] eqn:E; [|done].
    cbn [mbind option_bind]. first_of st'. unfold probed_to.
    destruct out as [[[]|e]|]; [|by apply undirtied_release|by apply undirtied_delete].
    destruct (reusable c') eqn:Hr; cbn [negb orb]; [|by apply undirtied_release].
    destruct (negb (guard =? _)%Z); [by apply undirtied_release|].
    apply undirtied_insert; [done|by apply reusable_undirtied].
  - intros [Hxs Hr]. destruct (tasks st !! t) as [[|guard|]|] eqn:Ht; [done| |done|done].
    destruct (source_connect _ _ _ _) as [[c out]|] eqn:E; [|done]. cbn [mbind option_bind].
    first_of st'. destruct out as [[[]|e]|]; cbn [fst]; [|by apply undirtied_delete..].
    apply source_connect_clean in E as [_ Hd]; [|done..]. by apply undirtied_insert.
  - intros _. destruct (tasks st !! t) as [[|guard|]|]; [done| |done|done].
    intros [= <- _]. by apply undirtied_delete.
  - intros _. destruct (tasks st !! t) as [[c now guard|guard|]|]; [| |done|done];
      intros [= <- _]; by apply undirtied_delete.
  - intros _. destruct (tasks st !! t) as [[| |c gen]|] eqn:Ht; [done|done| |done].
    destruct (send_recv c cmd x) as [[c' out]|] eqn:E; [|done]. cbn. intros [= <- <-].
    destruct out as [[f|e]|]; [|by apply undirtied_failed..].
    apply undirtied_insert; [done|]. by eapply send_recv_undirties.
  - intros _. destruct (tasks st !! t) as [[| |c gen]|] eqn:Ht; [done|done| |done].
    intros [= <- <-] t' c1 g. cbn. rewrite lookup_delete_Some. intros [Hne ?] ?.
    apply (Hu t' c1 g); [done|set_solver].
  - intros _ [= <- _]. done.
Qed.

Lemma careful_polite failed st evs : undirtied failed st → in_step st →
  careful_run failed st evs → polite_run st evs.
Proof.
  revert failed st. induction evs as [|ev evs IH]; intros failed st Hu Hst; cbn; [done|].
  intros (Hf & Hc & Hr). assert (polite st ev) as Hp.
  { destruct ev as [t now|t x|t cfg xs role|t e|t|t cmd x|t now|]; try done. split; [done|].
    destruct (tasks st !! t) as [[| |c g]|] eqn:Ht; try done. by eapply Hu. }
  split; [done|]. destruct (pool_step st ev) as [[st' o]|] eqn:E; [|done].
  eapply IH; [|by eapply in_step_step|done]. by eapply undirtied_step.
Qed.
End facts.

(** ** What the pool guarantees *)

(** C21: In every interleaving of tasks that acquire, probe, connect, run commands, are
    cancelled and return connections, the busy count is the number of tasks that own a
    slot, and busy and idle connections together never exceed [max_size]. *)
Theorem pool_never_oversubscribed `{RespCodec} s cfg connects st0 evs st :
  opened s cfg connects st0 → pool_run st0 evs = Some st →
  busy (inner st) = size (tasks st) ∧
  busy (inner st) + length (idle (inner st)) ≤ max_size cfg.
Proof.
  intros (Ha & _)%opened_spec Hr. by destruct (accounted_run _ _ _ _ Ha Hr) as (_ & ? & ?).
Qed.


