(* ===== verification/RedisCluster.v ===== *)
(** Cluster routing ([libs/compio-redis/src/cluster.rs]) and the choice of a deployment
    ([deployment.rs]).

    [Inner] holds the slot map, the addresses that have a pool, the seeds and the allowlist
    [known_nodes]. Sending a command is a loop of rounds ([round]); what the network does in
    a round is a [Network]: the answer of every address to [CLUSTER SLOTS], whether a
    connection can be acquired, and the replies. The trace records every address the code
    is prepared to open a connection to with the cluster's credentials and every command it
    sends. [redis_keyslot] is a third-party function and the iteration order of a
    [HashSet] is unspecified: both are operations of the class [Cluster]. *)
From stdpp Require Import gmap.
From S2P Require Import Prelude RustStd Resp.

Definition NUM_SLOTS : Z := 16384.
Definition u16_max : Z := 65535.

(** [parse_redirect]: [MOVED <slot> <addr>] or [ASK <slot> <addr>]. *)
Definition parse_redirect (server_msg : bytes) : option RedisError :=
  let it := splitn 3 " "%byte server_msg in
  kind ← it !! 0;
  word ← it !! 1;
  slot ← parse_unsigned u16_max word;
  if (NUM_SLOTS <=? slot)%Z then None
  else
    addr ← it !! 2;
    if bool_decide (kind = lit "MOVED") then Some (EMoved slot addr)
    else if bool_decide (kind = lit "ASK") then Some (EAsk slot addr)
    else None.

(** ** The slot map *)

(** The vector of [NUM_SLOTS] owners, as the map of the slots that have one. *)
Notation ClusterTopology := (gmap Z bytes).

Definition node_for_slot (t : ClusterTopology) (slot : Z) : option bytes := t !! slot.
Definition node_addrs (t : ClusterTopology) : list bytes := (map_to_list t).*2.

Definition expect_u16 (f : OwnedFrame) : redis Z :=
  match f with
  | Integer n => if (0 <=? n)%Z && (n <=? u16_max)%Z then Ok n else Err EClusterBootstrap
  | _ => Err EClusterBootstrap
  end.

Definition expect_bulk_string (f : OwnedFrame) : redis bytes :=
  match f with
  | BulkString b | SimpleString b => Ok (from_utf8_lossy b)
  | _ => Err EClusterBootstrap
  end.

(** One range of the reply: its slots and the address of its primary. *)
Definition parse_slot_range (range : OwnedFrame) : redis (Z * Z * bytes) :=
  match range with
  | Array (start :: end_ :: primary :: _) =>
      start ← expect_u16 start;
      end_ ← expect_u16 end_;
      match primary with
      | Array (host :: port :: _) =>
          host ← expect_bulk_string host;
          port ← expect_u16 port;
          Ok (start, end_, host ++ lit ":" ++ i64_to_string port)
      | _ => Err EClusterBootstrap
      end
  | _ => Err EClusterBootstrap
  end.

(** [for s in start..=end]. *)
Definition set_range (t : ClusterTopology) (start end_ : Z) (addr : bytes) : redis ClusterTopology :=
  try_fold (λ t s, if (NUM_SLOTS <=? s)%Z then Err EClusterBootstrap else Ok (<[s := addr]> t))
    t (seqZ start (end_ - start + 1)).

Definition parse_cluster_slots (frame : OwnedFrame) : redis ClusterTopology :=
  match frame with
  | Array ranges =>
      try_fold (λ t range, '(start, end_, addr) ← parse_slot_range range; set_range t start end_ addr)
        ∅ ranges
  | _ => Err EClusterBootstrap
  end.

(** ** The client *)

Class Cluster := {
  redis_keyslot : bytes → Z;
  set_order : gset bytes → list bytes
}.
(** Slots are below 16384; iterating a set visits its elements. *)
Class ClusterLaws `{Cluster} : Prop := {
  keyslot_range : ∀ key, (0 ≤ redis_keyslot key < NUM_SLOTS)%Z;
  set_order_perm : ∀ s, set_order s ≡ₚ elements s
}.

Record Inner := mkCluster {
  topology : ClusterTopology;
  pools : gset bytes;
  seeds : list bytes;
  known_nodes : gset bytes
}.

Definition normalize_node_addr (addr : bytes) : bytes := str_to_ascii_lowercase addr.
Definition is_known_node (addr : bytes) (known : gset bytes) : bool :=
  bool_decide (normalize_node_addr addr ∈ known).

(** [known_nodes.extend(topology.node_addrs().map(normalize))]. *)
Definition learn (known : gset bytes) (t : ClusterTopology) : gset bytes :=
  known ∪ list_to_set (map normalize_node_addr (node_addrs t)).

(** The network during one round: what [CLUSTER SLOTS] gives at an address, whether a pool
    for an address can be made and hands out a connection, and the replies. *)
Record Network := mkNetwork {
  slots_reply : bytes → redis OwnedFrame;
  connect_at : bytes → redis unit;
  acquire_at : bytes → redis unit;
  asking_reply : bytes → redis OwnedFrame;
  command_reply : bytes → redis OwnedFrame
}.

Inductive NetAction :=
  | Dial (addr : bytes)      (* a credentialed connection may be opened to [addr] *)
  | Send (addr : bytes) (reply : redis OwnedFrame).      (* the command runs at [addr] *)

(** [topology_from]. *)
Definition topology_from (net : Network) (addr : bytes) : redis ClusterTopology :=
  frame ← slots_reply net addr; parse_cluster_slots frame.

(** The first candidate with a topology, and the candidates dialled. *)
Fixpoint first_topology (net : Network) (candidates : list bytes) :
    list NetAction * option ClusterTopology :=
  match candidates with
  | [] => ([], None)
  | addr :: candidates' =>
      match topology_from net addr with
      | Ok t => ([Dial addr], Some t)
      | Err _ => let '(tr, r) := first_topology net candidates' in (Dial addr :: tr, r)
      end
  end.

(** [connect_seeds]'s loop over the seeds. *)
Fixpoint try_seeds (net : Network) (all rest : list bytes) (last_err : RedisError) :
    list NetAction * redis Inner :=
  match rest with
  | [] => ([], Err last_err)
  | addr :: rest' =>
      match topology_from net addr with
      | Ok t =>
          let known := list_to_set (map normalize_node_addr all) in
          ([Dial addr], Ok (mkCluster t ∅ all (learn known t)))
      | Err e => let '(tr, r) := try_seeds net all rest' e in (Dial addr :: tr, r)
      end
  end.

(** A seed is its endpoint and its database. *)
Definition connect_seeds (net : Network) (seeds : list (bytes * Z)) : list NetAction * redis Inner :=
  if bool_decide (seeds = []) then ([], Err EClusterBootstrap)
  else if existsb (λ s, negb (s.2 =? 0)%Z) seeds then ([], Err EConfig)
  else try_seeds net seeds.*1 seeds.*1 EClusterBootstrap.

Section cluster.
Context `{Cluster}.

Definition refresh_topology (net : Network) (c : Inner) : Inner * list NetAction * redis unit :=
  match first_topology net (seeds c ++ set_order (known_nodes c)) with
  | (tr, Some t) => (mkCluster t ∅ (seeds c) (learn (known_nodes c) t), tr, Ok tt)
  | (tr, None) => (c, tr, Err EClusterBootstrap)
  end.

(** [pool_for]: a pool that exists is used, and none is made for an address off the
    allowlist. *)
Definition pool_for (net : Network) (c : Inner) (addr : bytes) : Inner * list NetAction * redis unit :=
  if bool_decide (addr ∈ pools c) then (c, [], Ok tt)
  else if is_known_node addr (known_nodes c) then
    match connect_at net addr with
    | Ok _ =>
        (mkCluster (topology c) ({[ addr ]} ∪ pools c) (seeds c) (known_nodes c), [Dial addr], Ok tt)
    | Err _ => (c, [Dial addr], Err EPool)
    end
  else (c, [], Err EConfig).

(** The pool's connection, which it may have to open. *)
Definition acquire_for (net : Network) (c : Inner) (addr : bytes) : Inner * list NetAction * redis unit :=
  match pool_for net c addr with
  | (c', tr, Ok _) => (c', tr ++ [Dial addr], acquire_at net addr)
  | (c', tr, Err e) => (c', tr, Err e)
  end.

Definition set_slot_owner (c : Inner) (slot : Z) (addr : bytes) : Inner :=
  if (0 <=? slot)%Z && (slot <? NUM_SLOTS)%Z
  then mkCluster (<[slot := addr]> (topology c)) (pools c) (seeds c) (known_nodes c) else c.

(** The locals of [send_to_slot]'s loop. *)
Record Routing := mkRouting {
  redirects : nat;
  refreshed : bool;
  addr_override : option bytes;
  ask_once : bool;
  pending_moved : option (Z * bytes)
}.

Definition MAX_REDIRECTS : nat := 2.

Inductive Turn :=
  | Go (r : Routing)
  | Finish (r : redis OwnedFrame).

(** What a reply does: a redirect within the limit goes on, anything else is returned. *)
Definition on_frame (r : Routing) (frame : OwnedFrame) : Turn :=
  match frame with
  | Error msg =>
      match parse_redirect msg with
      | Some redirect =>
          if MAX_REDIRECTS <=? redirects r then Finish (Err EClusterBootstrap)
          else
            match redirect with
            | EMoved s new_addr =>
                Go (mkRouting (redirects r + 1) (refreshed r) (Some new_addr) (ask_once r)
                      (Some (s, new_addr)))
            | EAsk _ new_addr =>
                Go (mkRouting (redirects r + 1) (refreshed r) (Some new_addr) true
                      (pending_moved r))
            | _ => Finish (Ok frame)
            end
      | None => Finish (Ok frame)
      end
  | _ => Finish (Ok frame)
  end.

(** Once a connection to [addr] is acquired: the ASKING marker, the command, the pending
    update of the slot map, and the reply. *)
Definition send_round (net : Network) (addr : bytes) (r : Routing) (c : Inner) :
    Inner * list NetAction * Turn :=
  match (if ask_once r then frame ← asking_reply net addr; expect_ok frame else Ok tt) with
  | Err e => (c, [], Finish (Err e))
  | Ok _ =>
      match command_reply net addr with
      | Err e =>
          let '(c', tr, _) := refresh_topology net c in (c', Send addr (Err e) :: tr, Finish (Err e))
      | Ok frame =>
          let c' := match pending_moved r with
                    | Some (slot, a) => set_slot_owner c slot a
                    | None => c
                    end in
          (c', [Send addr (Ok frame)],
           on_frame (mkRouting (redirects r) (refreshed r) (addr_override r) false None) frame)
      end
  end.

(** One round of [send_to_slot] to an address. *)
Definition route_to (net : Network) (addr : bytes) (r : Routing) (c : Inner) :
    Inner * list NetAction * Turn :=
  match acquire_for net c addr with
  | (c1, tr, Ok _) => let '(c2, tr2, t) := send_round net addr r c1 in (c2, tr ++ tr2, t)
  | (c1, tr, Err e) =>
      if refreshed r then (c1, tr, Finish (Err e))
      else
        match refresh_topology net c1 with
        | (c2, tr2, Ok _) => (c2, tr ++ tr2, Go (mkRouting (redirects r) true None false None))
        | (c2, tr2, Err _) => (c2, tr ++ tr2, Finish (Err e))
        end
  end.

Definition round (net : Network) (slot : Z) (r : Routing) (c : Inner) :
    Inner * list NetAction * Turn :=
  let r0 := mkRouting (redirects r) (refreshed r) None (ask_once r) (pending_moved r) in
  match addr_override r with
  | Some addr => route_to net addr r0 c
  | None =>
      match node_for_slot (topology c) slot with
      | Some addr => route_to net addr r0 c
      | None =>
          if refreshed r then (c, [], Finish (Err (ENoRoute slot)))
          else
            match refresh_topology net c with
            | (c', tr, Ok _) =>
                (c', tr, Go (mkRouting (redirects r) true None (ask_once r) (pending_moved r)))
            | (c', tr, Err e) => (c', tr, Finish (Err e))
            end
      end
  end.

(** The loop, with the network of each round; [None] when the networks given run out. *)
Fixpoint route (slot : Z) (r : Routing) (c : Inner) (nets : list Network) :
    Inner * list NetAction * option (redis OwnedFrame) :=
  match nets with
  | [] => (c, [], None)
  | net :: nets' =>
      match round net slot r c with
      | (c', tr, Finish res) => (c', tr, Some res)
      | (c', tr, Go r') => let '(c'', tr', res) := route slot r' c' nets' in (c'', tr ++ tr', res)
      end
  end.

Definition start_routing : Routing := mkRouting 0 false None false None.

Definition send_to_slot (routing_key : bytes) (c : Inner) (nets : list Network) :
    Inner * list NetAction * option (redis OwnedFrame) :=
  route (redis_keyslot routing_key) start_routing c nets.

(** ** Commands of several keys *)

Definition same_slot_or_err (keys : list bytes) : redis Z :=
  match keys with
  | [] => Err ECrossSlot
  | first :: rest =>
      let slot := redis_keyslot first in
      if forallb (λ k, redis_keyslot k =? slot)%Z rest then Ok slot else Err ECrossSlot
  end.
End cluster.

(** ** Deployments *)

(** [RedisClient::execute] on a pool, standalone or found by Sentinel: what an attempt to
    acquire a connection and to run the command on it gives, and what the pool is told. *)
Record Attempt := mkAttempt {
  acquired : redis unit;
  replied : redis OwnedFrame
}.

Inductive PoolAction := Wrote | Invalidated.
#[global] Instance PoolAction_eq_dec : EqDecision PoolAction.
Proof. solve_decision. Defined.

Definition attempt (a : Attempt) : list PoolAction * redis OwnedFrame :=
  match acquired a with
  | Err e => ([], Err e)
  | Ok _ => ([Wrote], replied a)
  end.

Definition is_readonly (r : redis OwnedFrame) : bool :=
  match r with Ok (Error msg) => starts_with msg (lit "READONLY ") | _ => false end.

Definition execute_standalone (a : Attempt) : list PoolAction * redis OwnedFrame := attempt a.

Definition execute_sentinel (a1 a2 : Attempt) : list PoolAction * redis OwnedFrame :=
  match acquired a1 with
  | Err e => ([], Err e)
  | Ok _ =>
      let result := replied a1 in
      if is_readonly result then
        let '(tr, r) := attempt a2 in (Wrote :: Invalidated :: tr, r)
      else
        match result with
        | Err e => ([Wrote; Invalidated], result)
        | Ok _ => ([Wrote], result)
        end
  end.
