(* ===== verification/RedisClusterFacts.v ===== *)
(** Theorems on cluster routing.

    The slot map a [CLUSTER SLOTS] reply gives is the last range that covers each slot
    ([parse_cluster_slots_spec]). Sending a command ends within four rounds
    ([route_ends]); it dials only addresses vouched for by the seeds, through topologies
    of vouched addresses, whatever redirects the servers answer with ([route_trusted]); it
    changes an owner only to an address that answered ([route_owners]); and it runs the
    command again only after a redirect ([route_sends]). *)
From stdpp Require Import gmap.
From S2P Require Import Prelude RustStd Resp RedisCluster.

(** ** The slot map *)

Definition covers_slot (slot : Z) (range : Z * Z * bytes) : bool :=
  let '(start, end_, _) := range in (start <=? slot)%Z && (slot <=? end_)%Z.

(** The owner of a slot: the last range that covers it. *)
Definition owner (slot : Z) (ranges : list (Z * Z * bytes)) : option bytes :=
  snd <$> last (filter (λ r, covers_slot slot r = true) ranges).

Definition range_fits (range : Z * Z * bytes) : Prop :=
  let '(start, end_, _) := range in (end_ < start ∨ end_ < NUM_SLOTS)%Z.

Lemma set_slots_spec l t addr :
  if decide (Forall (λ s, s < NUM_SLOTS)%Z l)
  then ∃ t', try_fold (λ t s, if (NUM_SLOTS <=? s)%Z then Err EClusterBootstrap
                              else Ok (<[s := addr]> t)) t l = Ok t' ∧
       ∀ s, t' !! s = if decide (s ∈ l) then Some addr else t !! s
  else try_fold (λ t s, if (NUM_SLOTS <=? s)%Z then Err EClusterBootstrap
                        else Ok (<[s := addr]> t)) t l = @Err RedisError ClusterTopology EClusterBootstrap.
Proof.
  revert t. induction l as [|s l IH]; intros t; cbn [try_fold].
  { rewrite decide_True by constructor. exists t. split; [done|]. intros s.
    by rewrite decide_False by apply not_elem_of_nil. }
  destruct (Z.leb_spec NUM_SLOTS s) as [Hs|Hs].
  { rewrite decide_False; [done|]. rewrite Forall_cons. lia. }
  cbn [mbind result_bind]. specialize (IH (<[s := addr]> t)). case_decide as Hl.
  - rewrite decide_True by by constructor. destruct IH as (t' & -> & Ht'). exists t'. split; [done|].
    intros s'. rewrite Ht'. repeat case_decide; try set_solver.
    + destruct (decide (s' = s)) as [->|]; [by rewrite lookup_insert_eq|set_solver].
    + rewrite lookup_insert_ne; [done|set_solver].
  - rewrite decide_False; [done|]. by intros [_ ?]%Forall_cons.
Qed.

Lemma set_range_spec t start end_ addr :
  if decide (range_fits (start, end_, addr))
  then ∃ t', set_range t start end_ addr = Ok t' ∧
       ∀ s, t' !! s = if covers_slot s (start, end_, addr) then Some addr else t !! s
  else set_range t start end_ addr = Err EClusterBootstrap.
Proof.
  unfold set_range. set (l := seqZ start (end_ - start + 1)).
  assert (∀ s, s ∈ l ↔ covers_slot s (start, end_, addr) = true) as Hl.
  { intros s. unfold l, covers_slot. rewrite elem_of_seqZ, andb_true_iff, !Z.leb_le. lia. }
  assert (Forall (λ s, s < NUM_SLOTS)%Z l ↔ range_fits (start, end_, addr)) as Hf.
  { rewrite Forall_forall. unfold range_fits. split.
    - intros Hall. destruct (decide (end_ < start)%Z); [by left|right].
      apply Hall, Hl. unfold covers_slot. rewrite andb_true_iff, !Z.leb_le. lia.
    - intros Hr s [? ?]%Hl%andb_prop. rewrite ?Z.leb_le in *. lia. }
  pose proof (set_slots_spec l t addr) as Hs.
  destruct (decide (Forall _ l)) as [Hd|Hd], (decide (range_fits _)) as [Hr|Hr]; [| |tauto|done].
  - destruct Hs as (t' & -> & Ht'). exists t'. split; [done|]. intros s. rewrite Ht'.
    destruct (covers_slot s _) eqn:Hc; [by rewrite decide_True by by apply Hl|].
    rewrite decide_False; [done|]. rewrite Hl. congruence.
  - tauto.
Qed.

Lemma owner_cons slot r ranges : owner slot (r :: ranges) =
  match owner slot ranges with
  | Some a => Some a
  | None => if covers_slot slot r then Some r.2 else None
  end.
Proof.
  unfold owner. rewrite filter_cons. destruct (covers_slot slot r) eqn:Hc.
  - rewrite decide_True by done. rewrite last_cons. by destruct (last _).
  - rewrite decide_False by done. by destruct (last _).
Qed.

Definition add_range (t : ClusterTopology) (range : OwnedFrame) : redis ClusterTopology :=
  '(start, end_, addr) ← parse_slot_range range; set_range t start end_ addr.

Lemma expect_u16_err f e : expect_u16 f = Err e → e = EClusterBootstrap.
Proof. destruct f; cbn; try by intros [= <-]. by case_match; intros [= <-]. Qed.
Lemma expect_bulk_string_err f e : expect_bulk_string f = Err e → e = EClusterBootstrap.
Proof. by destruct f; intros [= <-]. Qed.

Lemma parse_slot_range_err range e : parse_slot_range range = Err e → e = EClusterBootstrap.
Proof.
  destruct range as [| | | |[|start [|end_ [|primary l]]]|]; try by intros [= <-].
  cbn [parse_slot_range]. destruct (expect_u16 start) eqn:E1; [|intros [= <-]; by eapply expect_u16_err].
  destruct (expect_u16 end_) eqn:E2; [|intros [= <-]; by eapply expect_u16_err].
  cbn [mbind result_bind].
  destruct primary as [| | | |[|host [|port l']]|]; try by intros [= <-].
  destruct (expect_bulk_string host) eqn:E3; [|intros [= <-]; by eapply expect_bulk_string_err].
  destruct (expect_u16 port) eqn:E4; [done|intros [= <-]; by eapply expect_u16_err].
Qed.

Lemma add_ranges_spec rs t :
  match try_map parse_slot_range rs with
  | Ok ranges =>
      if decide (Forall range_fits ranges)
      then ∃ t', try_fold add_range t rs = Ok t' ∧
           ∀ s, t' !! s = match owner s ranges with Some a => Some a | None => t !! s end
      else try_fold add_range t rs = Err EClusterBootstrap
  | Err e => try_fold add_range t rs = Err EClusterBootstrap
  end.
Proof.
  revert t. induction rs as [|r rs IH]; intros t; cbn [try_map try_fold].
  { cbn. rewrite decide_True by constructor. by exists t. }
  destruct (parse_slot_range r) as [[[start end_] addr]|e] eqn:Hr; last first.
  { assert (add_range t r = Err EClusterBootstrap) as ->; [|done].
    unfold add_range. rewrite Hr. by rewrite (parse_slot_range_err _ _ Hr). }
  assert (add_range t r = set_range t start end_ addr) as -> by (unfold add_range; by rewrite Hr).
  cbn [mbind result_bind]. pose proof (set_range_spec t start end_ addr) as Hs.
  case_decide as Hfit.
  - destruct Hs as (t1 & -> & Ht1). cbn [mbind result_bind]. specialize (IH t1).
    destruct (try_map parse_slot_range rs) as [ranges|e]; [|done]. cbn [mbind result_bind].
    destruct (decide (Forall range_fits ranges)) as [Hall|Hall].
    + rewrite decide_True by by constructor. destruct IH as (t' & -> & Ht'). exists t'.
      split; [done|]. intros s. rewrite Ht', owner_cons, Ht1. by case_match; [|case_match].
    + rewrite decide_False; [done|]. by intros [_ ?]%Forall_cons.
  - rewrite Hs. cbn. destruct (try_map parse_slot_range rs) as [ranges|e]; [|done].
    cbn [mbind result_bind]. rewrite decide_False; [done|]. by intros [? _]%Forall_cons.
Qed.

(** ** Rounds *)

Section routing.
Context `{Cluster}.

(** The rounds a call may still take: one more for the refresh and for each redirect. *)
Definition rounds_left (r : Routing) : nat :=
  (if refreshed r then 0 else 1) + (MAX_REDIRECTS - redirects r).

Lemma on_frame_go r frame r' : on_frame r frame = Go r' →
  (∃ msg e, frame = Error msg ∧ parse_redirect msg = Some e) ∧
  redirects r < MAX_REDIRECTS ∧ redirects r' = redirects r + 1 ∧ refreshed r' = refreshed r ∧
  (pending_moved r' = pending_moved r ∨ ∃ s a, pending_moved r' = Some (s, a) ∧ addr_override r' = Some a).
Proof.
  unfold on_frame. destruct frame as [|msg| | | |]; try done.
  destruct (parse_redirect msg) as [e|] eqn:Hp; [|done].
  destruct (Nat.leb_spec MAX_REDIRECTS (redirects r)); [done|].
  destruct e; try done; intros [= <-]; cbn; split_and!; eauto 10.
Qed.

Lemma on_frame_finish r frame res : on_frame r frame = Finish res →
  match res with Ok f => f = frame | Err _ => True end.
Proof.
  unfold on_frame. repeat case_match; intros [= <-]; done.
Qed.

(** ** The parts of a round *)

Lemma first_topology_spec net candidates tr o : first_topology net candidates = (tr, o) →
  (∀ act, act ∈ tr → ∃ a, act = Dial a ∧ a ∈ candidates) ∧
  match o with Some t => ∃ src, Dial src ∈ tr ∧ topology_from net src = Ok t | None => True end.
Proof.
  revert tr o. induction candidates as [|a l IH]; intros tr o; cbn.
  { intros [= <- <-]. split; [|done]. by intros ? ?%elem_of_nil. }
  destruct (topology_from net a) as [t|e] eqn:Ht.
  - intros [= <- <-]. split.
    + intros act ->%list_elem_of_singleton. exists a. split; [done|by left].
    + exists a. split; [by left|done].
  - destruct (first_topology net l) as [tr' o'] eqn:E. intros [= <- <-].
    destruct (IH _ _ eq_refl) as [Hd Ho]. split.
    + intros act [->|Hin]%elem_of_cons; [exists a; split; [done|by left]|].
      destruct (Hd act Hin) as (b & -> & Hb). exists b. split; [done|by right].
    + destruct o' as [t|]; [|done]. destruct Ho as (src & ? & ?). exists src. split; [by right|done].
Qed.

Lemma refresh_spec net c c' tr o : refresh_topology net c = (c', tr, o) →
  (∀ act, act ∈ tr → ∃ a, act = Dial a ∧ (a ∈ seeds c ∨ a ∈ set_order (known_nodes c))) ∧
  match o with
  | Ok _ => ∃ src t, Dial src ∈ tr ∧ topology_from net src = Ok t ∧
      c' = mkCluster t ∅ (seeds c) (learn (known_nodes c) t)
  | Err _ => c' = c
  end.
Proof.
  unfold refresh_topology. destruct (first_topology _ _) as [tr0 o0] eqn:E.
  apply first_topology_spec in E as [Hd Ho].
  assert (∀ act, act ∈ tr0 → ∃ a, act = Dial a ∧ (a ∈ seeds c ∨ a ∈ set_order (known_nodes c))).
  { intros act (a & -> & Ha%elem_of_app)%Hd. eauto. }
  destruct o0 as [t|]; intros [= <- <- <-]; split; [done| |done|done].
  destruct Ho as (src & ? & ?). eauto 10.
Qed.

Lemma acquire_spec net c addr c' tr o : acquire_for net c addr = (c', tr, o) →
  (∀ act, act ∈ tr → act = Dial addr) ∧
  topology c' = topology c ∧ seeds c' = seeds c ∧ known_nodes c' = known_nodes c ∧
  (pools c' = pools c ∨ pools c' = {[ addr ]} ∪ pools c ∧ is_known_node addr (known_nodes c) = true) ∧
  (tr ≠ [] ∨ is_Some (result_ok o) → addr ∈ pools c ∨ is_known_node addr (known_nodes c) = true).
Proof.
  unfold acquire_for, pool_for. case_bool_decide as Hp.
  { intros [= <- <- <-]. split_and!; [|done|done|done|by left|by left].
    by intros act [->|?%elem_of_nil]%elem_of_cons. }
  destruct (is_known_node addr (known_nodes c)) eqn:Hk.
  - destruct (connect_at net addr); intros [= <- <- <-]; split_and!; try done; auto.
    + cbn. intros act Hin. by repeat (apply elem_of_cons in Hin as [->|Hin]; [done|]); apply elem_of_nil in Hin.
    + by intros act ->%list_elem_of_singleton.
  - intros [= <- <- <-]. split_and!; try done; [by intros ? ?%elem_of_nil|by left|].
    by intros [?|[? ?]].
Qed.

(** ** Termination *)

Lemma send_round_go net addr r c c' tr r' : send_round net addr r c = (c', tr, Go r') →
  (∃ msg e, tr = [Send addr (Ok (Error msg))] ∧ parse_redirect msg = Some e) ∧
  redirects r < MAX_REDIRECTS ∧ redirects r' = redirects r + 1 ∧ refreshed r' = refreshed r ∧
  (∀ s a, pending_moved r' = Some (s, a) → addr_override r' = Some a).
Proof.
  unfold send_round. destruct (if ask_once r then _ else _); [|done].
  destruct (command_reply net addr) as [frame|e]; [|by destruct (refresh_topology net c) as [[? ?] ?]].
  intros [= _ <- Hf]. apply on_frame_go in Hf as ((msg & e & -> & Hp) & ? & ? & ? & Hpend).
  split_and!; eauto. cbn in Hpend. intros s a0. destruct Hpend as [->|(s' & a' & -> & ->)]; [done|].
  by intros [= _ ->].
Qed.

(** What keeps the loop going: a redirect after the command ran, or the refresh. *)
Lemma round_go net slot r c c' tr r' : round net slot r c = (c', tr, Go r') →
  (refreshed r' = refreshed r ∧ redirects r' = redirects r + 1 ∧ redirects r < MAX_REDIRECTS ∨
   refreshed r = false ∧ refreshed r' = true ∧ redirects r' = redirects r).
Proof.
  assert (∀ addr r0, route_to net addr r0 c = (c', tr, Go r') →
    redirects r0 = redirects r → refreshed r0 = refreshed r →
    (refreshed r' = refreshed r ∧ redirects r' = redirects r + 1 ∧ redirects r < MAX_REDIRECTS ∨
     refreshed r = false ∧ refreshed r' = true ∧ redirects r' = redirects r)) as Hroute.
  { intros addr r0 E <- <-. unfold route_to in E.
    destruct (acquire_for net c addr) as [[c1 tr1] [[]|e]].
    - destruct (send_round net addr r0 c1) as [[c2 tr2] t] eqn:Es. simplify_eq.
      apply send_round_go in Es as (_ & ? & ? & ? & _). auto.
    - destruct (refreshed r0) eqn:Hr; [done|].
      destruct (refresh_topology net c1) as [[c2 tr2] [[]|?]]; simplify_eq. auto. }
  unfold round. destruct (addr_override r) as [addr|].
  { intros E. by eapply Hroute. }
  destruct (node_for_slot _ slot) as [addr|].
  { intros E. by eapply Hroute. }
  destruct (refreshed r); [done|].
  destruct (refresh_topology net c) as [[c1 tr1] [[]|?]]; intros E; simplify_eq. auto.
Qed.

Lemma route_ends slot r c nets : rounds_left r < length nets →
  ∃ res, (route slot r c nets).2 = Some res.
Proof.
  revert r c. induction nets as [|net nets IH]; intros r c; cbn [length route]; [lia|].
  intros Hl. destruct (round net slot r c) as [[c' tr] [r'|res]] eqn:E; [|by eexists].
  destruct (route slot r' c' nets) as [[c2 tr2] o] eqn:E2.
  destruct (IH r' c') as [res Hres]; [|rewrite E2 in Hres; by exists res].
  apply round_go in E. unfold rounds_left in *. destruct E as [(-> & -> & ?)|(Hf & -> & ->)]; [|rewrite Hf in Hl]; lia.
Qed.

(** ** The ways a round takes *)

Definition taken (r : Routing) : Routing :=
  mkRouting (redirects r) (refreshed r) None (ask_once r) (pending_moved r).

Inductive round_way (net : Network) (r : Routing) (c : Inner) :
    Inner → list NetAction → Turn → Prop :=
  | way_no_route e : round_way net r c c [] (Finish (Err e))
  | way_found c' tr : addr_override r = None → refresh_topology net c = (c', tr, Ok tt) →
      round_way net r c c' tr (Go (mkRouting (redirects r) true None (ask_once r) (pending_moved r)))
  | way_not_found c' tr e : refresh_topology net c = (c', tr, Err e) →
      round_way net r c c' tr (Finish (Err e))
  | way_sent addr c1 tr1 c' tr2 turn : (∀ a, addr_override r = Some a → addr = a) →
      acquire_for net c addr = (c1, tr1, Ok tt) →
      send_round net addr (taken r) c1 = (c', tr2, turn) →
      round_way net r c c' (tr1 ++ tr2) turn
  | way_refused addr c1 tr1 e : acquire_for net c addr = (c1, tr1, Err e) →
      round_way net r c c1 tr1 (Finish (Err e))
  | way_refreshed addr c1 tr1 e c' tr2 : acquire_for net c addr = (c1, tr1, Err e) →
      refresh_topology net c1 = (c', tr2, Ok tt) →
      round_way net r c c' (tr1 ++ tr2) (Go (mkRouting (redirects r) true None false None))
  | way_stuck addr c1 tr1 e c' tr2 e' : acquire_for net c addr = (c1, tr1, Err e) →
      refresh_topology net c1 = (c', tr2, Err e') →
      round_way net r c c' (tr1 ++ tr2) (Finish (Err e)).

Lemma route_to_way net addr r c c' tr turn : (∀ a, addr_override r = Some a → addr = a) →
  route_to net addr (taken r) c = (c', tr, turn) → round_way net r c c' tr turn.
Proof.
  intros Ha. unfold route_to. destruct (acquire_for net c addr) as [[c1 tr1] [[]|e]] eqn:E1.
  - destruct (send_round net addr (taken r) c1) as [[c2 tr2] t] eqn:Es. intros [= <- <- <-].
    by eapply way_sent.
  - cbn [taken refreshed redirects]. destruct (refreshed r).
    { intros [= <- <- <-]. by eapply way_refused. }
    destruct (refresh_topology net c1) as [[c2 tr2] [[]|e']] eqn:Er; intros [= <- <- <-].
    + by eapply way_refreshed.
    + by eapply way_stuck.
Qed.

Lemma round_ways net slot r c c' tr turn : round net slot r c = (c', tr, turn) →
  round_way net r c c' tr turn.
Proof.
  unfold round. fold (taken r). destruct (addr_override r) as [addr|] eqn:Ha.
  { apply route_to_way. by rewrite Ha; intros ? [= ->]. }
  destruct (node_for_slot _ slot) as [addr|].
  { apply route_to_way. by rewrite Ha. }
  destruct (refreshed r); [intros [= <- <- <-]; apply way_no_route|].
  destruct (refresh_topology net c) as [[c1 tr1] [[]|e]] eqn:E; intros [= <- <- <-].
  - by apply way_found.
  - by apply way_not_found.
Qed.

(** ** Which command runs where *)

Definition sends : list NetAction → list (bytes * redis OwnedFrame) :=
  omap (λ act, match act with Send a rep => Some (a, rep) | Dial _ => None end).

Definition is_redirect (s : bytes * redis OwnedFrame) : Prop :=
  ∃ msg e, s.2 = Ok (Error msg) ∧ parse_redirect msg = Some e.

Lemma sends_dials tr : (∀ act, act ∈ tr → ∃ a, act = Dial a) → sends tr = [].
Proof.
  induction tr as [|act tr IH]; intros Hd; [done|].
  destruct (Hd act) as [a ->]; [by left|]. cbn. apply IH. intros act' Hin. apply Hd. by right.
Qed.

Lemma sends_app tr1 tr2 : sends (tr1 ++ tr2) = sends tr1 ++ sends tr2.
Proof. apply omap_app. Qed.

Lemma refresh_sends net c c' tr o : refresh_topology net c = (c', tr, o) → sends tr = [].
Proof. intros [Hd _]%refresh_spec. apply sends_dials. intros act (a & -> & _)%Hd. by eexists. Qed.

Lemma acquire_sends net c addr c' tr o : acquire_for net c addr = (c', tr, o) → sends tr = [].
Proof. intros [Hd _]%acquire_spec. apply sends_dials. intros act ->%Hd. by eexists. Qed.

Lemma send_round_sends net addr r c c' tr turn : send_round net addr r c = (c', tr, turn) →
  match turn with
  | Go r' => ∃ s, sends tr = [s] ∧ is_redirect s
  | Finish (Ok f) => sends tr = [(addr, Ok f)]
  | Finish (Err _) => length (sends tr) ≤ 1
  end.
Proof.
  destruct turn as [r'|res].
  { intros ((msg & e & -> & Hp) & _)%send_round_go. eexists. split; [done|]. by exists msg, e. }
  unfold send_round. destruct (if ask_once r then _ else _); [|intros [= _ <- <-]; cbn; lia].
  destruct (command_reply net addr) as [frame|e].
  - intros [= _ <- Hf]. apply on_frame_finish in Hf. by destruct res; [subst|].
  - destruct (refresh_topology net c) as [[c1 tr1] o] eqn:E. apply refresh_sends in E.
    intros [= _ <- <-]. cbn. fold (sends tr1). rewrite E. simpl. lia.
Qed.

Lemma round_sends net slot r c c' tr turn : round net slot r c = (c', tr, turn) →
  match turn with
  | Go r' => Forall is_redirect (sends tr) ∧ length (sends tr) + redirects r = redirects r'
  | Finish (Ok f) => ∃ a, sends tr = [(a, Ok f)]
  | Finish (Err _) => length (sends tr) ≤ 1
  end.
Proof.
  intros E%round_ways.
  destruct E as [e|c' tr _ E|c' tr e E|addr c1 tr1 c' tr2 turn _ Ea Es|addr c1 tr1 e Ea
    |addr c1 tr1 e c' tr2 Ea E|addr c1 tr1 e c' tr2 e' Ea E].
  all: try (apply acquire_sends in Ea); try (apply refresh_sends in E).
  all: rewrite ?sends_app, ?Ea, ?E; cbn; try lia; try (by split).
  pose proof (send_round_sends _ _ _ _ _ _ _ Es) as Hs.
  destruct turn as [r'|[f|e]]; [|by exists addr|done].
  destruct Hs as (s & Hs & Hr). apply send_round_go in Es as (_ & _ & Hred & _). cbn in Hred.
  rewrite Hs. split; [by repeat constructor|cbn; lia].
Qed.

(** Every run of the command but the last was answered with a redirect. *)
Lemma route_sends slot r c nets c' tr res : route slot r c nets = (c', tr, res) →
  ∃ redirected final, sends tr = redirected ++ final ∧ Forall is_redirect redirected ∧
    length final ≤ 1 ∧
    match res with Some (Ok f) => ∃ a, final = [(a, Ok f)] | _ => True end.
Proof.
  revert r c c' tr res. induction nets as [|net nets IH]; intros r c c' tr res; cbn [route].
  { intros [= <- <- <-]. exists [], []. by repeat split; try constructor. }
  destruct (round net slot r c) as [[c1 tr1] [r'|res1]] eqn:E; apply round_sends in E.
  - destruct (route slot r' c1 nets) as [[c2 tr2] o] eqn:E2. intros [= <- <- <-].
    destruct E as [Hred _]. apply IH in E2 as (l1 & l2 & Hs & Hl1 & Hl2 & Ho).
    exists (sends tr1 ++ l1), l2. rewrite sends_app, Hs, (assoc_L (++)).
    split_and!; [done|by apply Forall_app|done|done].
  - intros [= <- <- <-]. exists [], (sends tr1). split_and!; [done|constructor| |].
    + destruct res1; [destruct E as [? ->]; simpl; lia|done].
    + by destruct res1.
Qed.

Lemma route_sends_bound slot r c nets c' tr res : route slot r c nets = (c', tr, res) →
  redirects r ≤ MAX_REDIRECTS → length (sends tr) + redirects r ≤ MAX_REDIRECTS + 1.
Proof.
  revert r c c' tr res. induction nets as [|net nets IH]; intros r c c' tr res; cbn [route].
  { intros [= <- <- <-] Hr. unfold MAX_REDIRECTS in *. simpl. lia. }
  destruct (round net slot r c) as [[c1 tr1] [r'|res1]] eqn:E.
  - destruct (route slot r' c1 nets) as [[c2 tr2] o] eqn:E2. intros [= <- <- <-] Hr.
    pose proof (round_go _ _ _ _ _ _ _ E) as Hgo. apply round_sends in E as [_ Hlen].
    apply IH in E2; [|destruct Hgo as [(_ & ? & ?)|(_ & _ & ?)]; lia].
    rewrite sends_app, length_app. lia.
  - apply round_sends in E. intros [= <- <- <-] Hr.
    unfold MAX_REDIRECTS in *. destruct res1; [destruct E as [? ->]; simpl; lia|lia].
Qed.

(** ** Whom the client trusts *)

(** An address is trusted if it is one of [base], or a node of a topology that a trusted
    address gave. Redirects play no part. *)
Inductive trusted (nets : list Network) (base : gset bytes) : bytes → Prop :=
  | trusted_base a : a ∈ base → trusted nets base a
  | trusted_named net src t a : net ∈ nets → trusted nets base (normalize_node_addr src) →
      topology_from net src = Ok t → a ∈ node_addrs t →
      trusted nets base (normalize_node_addr a).

Definition guarded (nets : list Network) (base : gset bytes) (c : Inner) : Prop :=
  (∀ a, a ∈ known_nodes c → normalize_node_addr a = a ∧ trusted nets base a) ∧
  (∀ a, a ∈ pools c → trusted nets base (normalize_node_addr a)) ∧
  (∀ a, a ∈ seeds c → trusted nets base (normalize_node_addr a)).

Definition dials_trusted (nets : list Network) (base : gset bytes) (tr : list NetAction) : Prop :=
  ∀ act, act ∈ tr →
    trusted nets base (normalize_node_addr match act with Dial a | Send a _ => a end).

Lemma normalize_idem a : normalize_node_addr (normalize_node_addr a) = normalize_node_addr a.
Proof. apply str_to_ascii_lowercase_idem. Qed.

Lemma dials_app nets base tr1 tr2 : dials_trusted nets base tr1 → dials_trusted nets base tr2 →
  dials_trusted nets base (tr1 ++ tr2).
Proof. intros H1 H2 act [?|?]%elem_of_app; auto. Qed.

Lemma guarded_learn nets base net src t c : guarded nets base c → net ∈ nets →
  trusted nets base (normalize_node_addr src) → topology_from net src = Ok t →
  guarded nets base (mkCluster t ∅ (seeds c) (learn (known_nodes c) t)).
Proof.
  intros (Hk & Hp & Hs) Hnet Hsrc Ht. split_and!; [|set_solver|done]. cbn. intros a.
  unfold learn. rewrite elem_of_union, elem_of_list_to_set, list_elem_of_fmap.
  intros [?|(b & -> & Hb)]; [auto|]. split; [apply normalize_idem|].
  by eapply trusted_named.
Qed.

Context `{!ClusterLaws}.

Lemma refresh_trusted nets base net c c' tr o : guarded nets base c → net ∈ nets →
  refresh_topology net c = (c', tr, o) → guarded nets base c' ∧ dials_trusted nets base tr.
Proof.
  intros Hg Hnet [Hd Ho]%refresh_spec.
  assert (dials_trusted nets base tr) as Htr.
  { intros act (a & -> & Ha)%Hd. destruct Hg as (Hk & _ & Hs). destruct Ha as [?|Ha]; [auto|].
    rewrite set_order_perm, elem_of_elements in Ha. destruct (Hk a Ha) as [-> ?]. done. }
  split; [|done]. destruct o as [[]|e]; [|by subst].
  destruct Ho as (src & t & Hsrc & Ht & ->). eapply guarded_learn; [done|done| |done].
  by apply (Htr (Dial src)).
Qed.

Lemma acquire_trusted nets base net c addr c' tr o : guarded nets base c →
  acquire_for net c addr = (c', tr, o) → guarded nets base c' ∧ dials_trusted nets base tr ∧
  (o = Ok tt → trusted nets base (normalize_node_addr addr)).
Proof.
  intros (Hk & Hp & Hs) (Hd & _ & Hseeds & Hknown & Hpools & Hok)%acquire_spec.
  assert (addr ∈ pools c ∨ is_known_node addr (known_nodes c) = true →
    trusted nets base (normalize_node_addr addr)) as Ht.
  { intros [?|Hin%bool_decide_eq_true_1]; [auto|]. by apply Hk. }
  split_and!.
  - split_and!; rewrite ?Hseeds, ?Hknown; [done| |done]. intros a.
    destruct Hpools as [->|[-> Hn]]; [auto|]. rewrite elem_of_union, elem_of_singleton.
    intros [->|?]; auto.
  - intros act Hin. rewrite (Hd act Hin). apply Ht, Hok. left. by destruct tr; [apply elem_of_nil in Hin|].
  - intros ->. apply Ht, Hok. right. by eexists.
Qed.

Lemma guarded_set_slot_owner nets base c slot a : guarded nets base c → guarded nets base (set_slot_owner c slot a).
Proof. unfold set_slot_owner. by case_match. Qed.

Lemma send_trusted nets base net addr r c c' tr turn : guarded nets base c → net ∈ nets →
  trusted nets base (normalize_node_addr addr) →
  send_round net addr r c = (c', tr, turn) → guarded nets base c' ∧ dials_trusted nets base tr.
Proof.
  intros Hg Hnet Ht. unfold send_round. destruct (if ask_once r then _ else _) as [[]|e]; last first.
  { intros [= <- <- _]. split; [done|]. by intros ? ?%elem_of_nil. }
  destruct (command_reply net addr) as [frame|e].
  - intros [= <- <- _]. split.
    + destruct (pending_moved r) as [[]|]; [by apply guarded_set_slot_owner|done].
    + by intros act ->%list_elem_of_singleton.
  - destruct (refresh_topology net c) as [[c1 tr1] o] eqn:E.
    destruct (refresh_trusted _ _ _ _ _ _ _ Hg Hnet E) as [Hc1 Htr1]. intros [= <- <- _].
    split; [done|]. intros act [->|?]%elem_of_cons; [done|auto].
Qed.

Lemma round_trusted nets base net slot r c c' tr turn : guarded nets base c → net ∈ nets →
  round net slot r c = (c', tr, turn) → guarded nets base c' ∧ dials_trusted nets base tr.
Proof.
  intros Hg Hnet E%round_ways.
  destruct E as [e|c' tr _ E|c' tr e E|addr c1 tr1 c' tr2 turn _ Ea Es|addr c1 tr1 e Ea
    |addr c1 tr1 e c' tr2 Ea E|addr c1 tr1 e c' tr2 e' Ea E].
  all: try (destruct (acquire_trusted _ _ _ _ _ _ _ _ Hg Ea) as (Hg1 & Htr1 & Hok)).
  - split; [done|]. by intros ? ?%elem_of_nil.
  - by eapply refresh_trusted.
  - by eapply refresh_trusted.
  - destruct (send_trusted _ _ _ _ _ _ _ _ _ Hg1 Hnet (Hok eq_refl) Es) as [? ?].
    split; [done|]. by apply dials_app.
  - done.
  - destruct (refresh_trusted _ _ _ _ _ _ _ Hg1 Hnet E). split; [done|by apply dials_app].
  - destruct (refresh_trusted _ _ _ _ _ _ _ Hg1 Hnet E). split; [done|by apply dials_app].
Qed.

Lemma route_trusted nets base slot r c nets' c' tr res : guarded nets base c → nets' ⊆ nets →
  route slot r c nets' = (c', tr, res) → guarded nets base c' ∧ dials_trusted nets base tr.
Proof.
  revert r c c' tr res. induction nets' as [|net nets' IH]; intros r c c' tr res Hg Hsub; cbn [route].
  { intros [= <- <- <-]. split; [done|]. by intros ? ?%elem_of_nil. }
  assert (net ∈ nets) as Hnet by (apply Hsub; by left).
  destruct (round net slot r c) as [[c1 tr1] [r'|res1]] eqn:E;
    apply (round_trusted _ _ _ _ _ _ _ _ _ Hg Hnet) in E as [Hg1 Htr1].
  - destruct (route slot r' c1 nets') as [[c2 tr2] o] eqn:E2. intros [= <- <- <-].
    apply IH in E2 as [? ?]; [|done|intros x Hx; apply Hsub; by right].
    split; [done|by apply dials_app].
  - intros [= <- <- <-]. done.
Qed.

(** ** Where owners come from *)

(** Each entry of the slot map is the old one, one of a topology learned on the way, or an
    address that answered the command. *)
Definition owned_by (nets : list Network) (t0 : ClusterTopology) (tr : list NetAction)
    (t : ClusterTopology) : Prop := ∀ slot,
  t !! slot = t0 !! slot ∨
  (∃ net src t', net ∈ nets ∧ Dial src ∈ tr ∧ topology_from net src = Ok t' ∧ t !! slot = t' !! slot) ∨
  (∃ a f, t !! slot = Some a ∧ Send a (Ok f) ∈ tr).

Lemma owned_refl nets t tr : owned_by nets t tr t.
Proof. by left. Qed.

Lemma owned_app nets t0 tr1 t1 tr2 t2 : owned_by nets t0 tr1 t1 → owned_by nets t1 tr2 t2 →
  owned_by nets t0 (tr1 ++ tr2) t2.
Proof.
  intros H1 H2 slot. setoid_rewrite elem_of_app. specialize (H1 slot).
  destruct (H2 slot) as [->|[(net & src & t' & ? & ? & ? & ?)|(a & f & ? & ?)]].
  - destruct H1 as [?|[(net & src & t' & ? & ? & ? & ?)|(a & f & ? & ?)]]; [by left|..].
    + right; left. exists net, src, t'. auto.
    + right; right. exists a, f. auto.
  - right; left. exists net, src, t'. auto.
  - right; right. exists a, f. auto.
Qed.

Lemma refresh_owned nets net c c' tr o : net ∈ nets → refresh_topology net c = (c', tr, o) →
  owned_by nets (topology c) tr (topology c').
Proof.
  intros Hnet [_ Ho]%refresh_spec. destruct o as [[]|e]; [|subst; apply owned_refl].
  destruct Ho as (src & t & Hsrc & Ht & ->). intros slot. right; left. by exists net, src, t.
Qed.

Lemma acquire_owned nets net c addr c' tr o : acquire_for net c addr = (c', tr, o) →
  owned_by nets (topology c) tr (topology c').
Proof. intros (_ & -> & _)%acquire_spec. apply owned_refl. Qed.

(** A staged owner is the address the next round goes to. *)
Definition staged (r : Routing) : Prop :=
  ∀ s a, pending_moved r = Some (s, a) → addr_override r = Some a.

Lemma send_owned nets net addr r c c' tr turn : net ∈ nets → 
  (∀ s a, pending_moved r = Some (s, a) → addr = a) →
  send_round net addr r c = (c', tr, turn) → owned_by nets (topology c) tr (topology c').
Proof.
  intros Hnet Hst. unfold send_round. destruct (if ask_once r then _ else _) as [[]|e]; last first.
  { intros [= <- <- _]. apply owned_refl. }
  destruct (command_reply net addr) as [frame|e].
  - intros [= <- <- _]. destruct (pending_moved r) as [[s a]|]; [|apply owned_refl].
    rewrite (Hst s a eq_refl) in *. unfold set_slot_owner. case_match; [|apply owned_refl].
    intros slot. cbn. destruct (decide (slot = s)) as [->|]; [|left; by rewrite lookup_insert_ne].
    right; right. exists a, frame. rewrite lookup_insert_eq. split; [done|by left].
  - destruct (refresh_topology net c) as [[c1 tr1] o] eqn:E. intros [= <- <- _].
    apply (owned_app nets _ [Send addr (Err e)] (topology c)); [apply owned_refl|].
    by eapply refresh_owned.
Qed.

Lemma round_owned nets net slot r c c' tr turn : net ∈ nets → staged r →
  round net slot r c = (c', tr, turn) →
  owned_by nets (topology c) tr (topology c') ∧
  match turn with Go r' => staged r' | Finish _ => True end.
Proof.
  intros Hnet Hst E%round_ways.
  destruct E as [e|c' tr Hov E|c' tr e E|addr c1 tr1 c' tr2 turn Hov Ea Es|addr c1 tr1 e Ea
    |addr c1 tr1 e c' tr2 Ea E|addr c1 tr1 e c' tr2 e' Ea E].
  all: try (apply (acquire_owned nets) in Ea).
  all: try (apply (refresh_owned nets) in E; [|done]).
  - split; [apply owned_refl|done].
  - split; [done|]. intros s a Hp. cbn in Hp. apply Hst in Hp. congruence.
  - done.
  - split.
    + apply (owned_app nets _ tr1 (topology c1)); [done|].
      apply (send_owned nets) in Es; [done|done|]. intros s a Hp. cbn in Hp.
      by apply Hov, (Hst s).
    + destruct turn as [r'|]; [|done]. by apply send_round_go in Es as (_ & _ & _ & _ & ?).
  - done.
  - split; [by eapply owned_app|done].
  - split; [by eapply owned_app|done].
Qed.

Lemma route_owners nets slot r c nets' c' tr res : nets' ⊆ nets → staged r →
  route slot r c nets' = (c', tr, res) → owned_by nets (topology c) tr (topology c').
Proof.
  revert r c c' tr res. induction nets' as [|net nets' IH]; intros r c c' tr res Hsub Hst; cbn [route].
  { intros [= <- <- <-]. apply owned_refl. }
  assert (net ∈ nets) as Hnet by (apply Hsub; by left).
  destruct (round net slot r c) as [[c1 tr1] [r'|res1]] eqn:E;
    apply (round_owned _ _ _ _ _ _ _ _ Hnet Hst) in E as [Ho Hst'].
  - destruct (route slot r' c1 nets') as [[c2 tr2] o] eqn:E2. intros [= <- <- <-].
    apply IH in E2; [|intros x Hx; apply Hsub; by right|done]. by eapply owned_app.
  - by intros [= <- <- <-].
Qed.
End routing.

(** ** Starting from the seeds *)

Lemma try_seeds_guarded nets net all rest e tr c : net ∈ nets → rest ⊆ all →
  try_seeds net all rest e = (tr, Ok c) →
  guarded nets (list_to_set (map normalize_node_addr all)) c ∧
  dials_trusted nets (list_to_set (map normalize_node_addr all)) tr.
Proof.
  intros Hnet. set (base := list_to_set (map normalize_node_addr all)).
  assert (∀ a, a ∈ all → normalize_node_addr a ∈ base) as Hbase.
  { intros a Ha. unfold base. rewrite elem_of_list_to_set. by apply list_elem_of_fmap_2. }
  revert e tr. induction rest as [|addr rest IH]; intros e tr Hsub; cbn [try_seeds]; [done|].
  assert (trusted nets base (normalize_node_addr addr)) as Haddr.
  { apply trusted_base, Hbase, Hsub. by left. }
  destruct (topology_from net addr) as [t|e'] eqn:Ht.
  - intros [= <- <-]. split; [|by intros act ->%list_elem_of_singleton].
    apply (guarded_learn nets base net addr t (mkCluster t ∅ all base)); [|done..].
    split_and!; cbn; [|set_solver|intros a Ha; by apply trusted_base, Hbase].
    intros a Ha. split; [|by apply trusted_base]. unfold base in Ha.
    rewrite elem_of_list_to_set, list_elem_of_fmap in Ha. destruct Ha as (b & -> & _).
    apply normalize_idem.
  - destruct (try_seeds net all rest e') as [tr' r] eqn:E. intros [= <- ->].
    destruct (IH e' tr') as [? Hd]; [intros x Hx; apply Hsub; by right|done|].
    split; [done|]. intros act [->|?]%elem_of_cons; [done|auto].
Qed.

(** ** What the cluster client guarantees *)

(** The slot map of a [CLUSTER SLOTS] reply gives every slot the primary of the last
    range that covers it; the reply is refused exactly when a range is malformed or
    reaches past the last slot. *)
Theorem cluster_slots_parsed (rs : list OwnedFrame) :
  match try_map parse_slot_range rs with
  | Ok ranges =>
      if decide (Forall range_fits ranges)
      then ∃ t, parse_cluster_slots (Array rs) = Ok t ∧
           ∀ slot, node_for_slot t slot = owner slot ranges
      else parse_cluster_slots (Array rs) = Err EClusterBootstrap
  | Err _ => parse_cluster_slots (Array rs) = Err EClusterBootstrap
  end.
Proof.
  pose proof (add_ranges_spec rs ∅) as Hs. fold (parse_cluster_slots (Array rs)) in Hs.
  change (try_fold add_range ∅ rs) with (parse_cluster_slots (Array rs)) in Hs.
  destruct (try_map parse_slot_range rs) as [ranges|]; [|done].
  case_decide; [|done]. destruct Hs as (t & Ht & Hl). exists t. split; [done|].
  intros slot. unfold node_for_slot. rewrite Hl, lookup_empty. by destruct (owner slot ranges).
Qed.

(** C23: Whatever the servers answer, sending a command ends within four rounds with a
    result; it runs the command at most three times, and every run but the last was
    answered with a redirect, so a command whose reply was lost is never run again. A
    reply returned is the last run's. *)
Theorem routing_ends `{Cluster} (key : bytes) (c : Inner) (nets : list Network) :
  4 ≤ length nets →
  ∃ c' tr res, send_to_slot key c nets = (c', tr, Some res) ∧ length (sends tr) ≤ 3 ∧
    ∃ redirected final, sends tr = redirected ++ final ∧ Forall is_redirect redirected ∧
      length final ≤ 1 ∧ match res with Ok f => ∃ a, final = [(a, Ok f)] | Err _ => True end.
Proof.
  intros Hl. unfold send_to_slot.
  destruct (route_ends (redis_keyslot key) start_routing c nets) as [res Hres].
  { unfold rounds_left, MAX_REDIRECTS. cbn. lia. }
  destruct (route _ _ _ _) as [[c' tr] o] eqn:E. cbn in Hres. subst o. exists c', tr, res.
  pose proof (route_sends _ _ _ _ _ _ _ E) as Hs.
  apply route_sends_bound in E; [|cbn; lia]. cbn in E. split_and!; [done|lia|done].
Qed.

(** A client's life: the commands it sends, one after the other. *)
Fixpoint serve `{Cluster} (c : Inner) (calls : list (bytes * list Network)) : Inner * list NetAction :=
  match calls with
  | [] => (c, [])
  | (key, nets) :: calls' =>
      let '(c1, tr1, _) := send_to_slot key c nets in
      let '(c2, tr2) := serve c1 calls' in (c2, tr1 ++ tr2)
  end.

Lemma serve_trusted `{ClusterLaws} nets base c calls c' tr : guarded nets base c →
  (∀ key ns, (key, ns) ∈ calls → ns ⊆ nets) → serve c calls = (c', tr) →
  dials_trusted nets base tr.
Proof.
  revert c c' tr. induction calls as [|[key ns] calls IH]; intros c c' tr Hg Hsub; cbn [serve].
  { intros [= <- <-]. by intros ? ?%elem_of_nil. }
  destruct (send_to_slot key c ns) as [[c1 tr1] o] eqn:E1. destruct (serve c1 calls) as [c2 tr2] eqn:E2.
  intros [= <- <-].
  apply (route_trusted nets base) in E1 as [Hg1 Htr1]; [|done|apply (Hsub key); by left].
  apply dials_app; [done|]. eapply IH; [done| |done]. intros k n Hin. apply (Hsub k). by right.
Qed.

(** C9: From its seeds on, whatever redirects and topologies servers send, the client dials
    and sends commands only to addresses that a seed vouches for, directly or through the
    topologies of addresses vouched for: a redirect alone never makes an address
    trusted. *)
Theorem redirects_open_no_new_address `{ClusterLaws} net sds tr0 c calls c' tr :
  connect_seeds net sds = (tr0, Ok c) → serve c calls = (c', tr) →
  dials_trusted (net :: concat calls.*2) (list_to_set (map normalize_node_addr sds.*1)) (tr0 ++ tr).
Proof.
  unfold connect_seeds. case_bool_decide; [done|]. case_match; [done|]. intros Hs Hr.
  apply (try_seeds_guarded (net :: concat calls.*2)) in Hs as [Hg Htr0]; [|by left|done].
  apply dials_app; [done|]. eapply serve_trusted; [done| |done].
  intros key ns Hin n Hn. right. rewrite list_elem_of_In, in_concat.
  exists ns. rewrite <-!list_elem_of_In. split; [|done]. by apply (list_elem_of_fmap_2 snd) in Hin.
Qed.


(** Behind a Sentinel a command is run again only when the server refused it as a
    replica. *)
Theorem sentinel_replays_only_readonly (a1 a2 : Attempt) :
  let runs := length (filter (λ p, p = Wrote) (execute_sentinel a1 a2).1) in
  runs ≤ 2 ∧ (runs = 2 → is_readonly (replied a1) = true).
Proof.
  unfold execute_sentinel, attempt.
  destruct (acquired a1); [|cbn; lia]. destruct (is_readonly (replied a1)).
  - destruct (acquired a2); vm_compute; (split; [lia|done]).
  - destruct (replied a1); vm_compute; (split; [lia|done]).
Qed.
