(* ===== verification/RedisExamples.v ===== *)
(** Concrete runs of the Redis connection and its pool.

    [line_codec] is a codec for replies of one line, enough to run the client end to end.
    The witnesses apply the theorems of [RespWire], [RedisConnFacts] and [RedisPoolFacts]
    to concrete inputs, and [late_reply_crosses_callers] shows the behaviour that their
    hypothesis on callers excludes. *)
From stdpp Require Import gmap.
From S2P Require Import Prelude RustStd Resp RespFacts RespWire RedisConn RedisConnFacts RedisPool RedisPoolFacts.

#[local] Instance line_codec : RespCodec := {
  decode b :=
    match b with
    | "+"%byte :: r =>
        Some ((λ i, (SimpleString (take i r), i + 3)) <$> crlf_in r)
    | _ => None
    end;
  encode f := Some (wire f)
}.

(** ** Framing *)

Definition nested : OwnedFrame :=
  Array [BulkString (lit "0"); Array [Integer (-7); Null; BulkString []]; SimpleString (lit "OK")].

Lemma reply_extent_exact_witness :
  (feed (new_decoder 64) [] (map (λ b, [b]) (wire nested ++ lit "+"))).2
    = Ok (Some (length (wire nested))).
Proof.
  apply (reply_extent_exact 64 nested (lit "+")).
  - vm_compute. reflexivity.
  - vm_compute. split; discriminate.
  - vm_compute. reflexivity.
Defined.

(** ** A command *)

Definition conn0 : Conn := mkConn new_client [] (lit "redis:6379").
Definition get : OwnedFrame := build_cmd [lit "GET"; lit "k"].
Definition says (s : bytes) : OwnedFrame := SimpleString s.
Definition replies (s : bytes) (reads : list bytes) : Exchange :=
  mkExchange (Some (says s)) reads None.

Lemma answerable_says s : length s < 100 → bool_decide ("013"%byte ∉ s) = true → answerable (says s).
Proof.
  intros Hl Hs. assert (crlf_in (s ++ CRLF) = Some (length s)) as Hc.
  { apply bool_decide_eq_true_1 in Hs. pose proof (find_crlf_header [] s [] Hs) as Hf.
    unfold find_crlf in Hf. rewrite app_nil_l, drop_0, app_nil_r in Hf.
    by destruct (crlf_in (s ++ CRLF)) as [i|]; [cbn in Hf; simplify_eq|]. }
  split_and!.
  - exact Hs.
  - cbn [wire says length]. rewrite length_app. cbn [CRLF length]. unfold MAX_REPLY_SIZE. lia.
  - cbn [decode line_codec wire says]. rewrite Hc. cbn [fmap option_fmap option_map].
    rewrite take_app_length. cbn [length]. rewrite length_app. cbn [CRLF length].
    do 3 f_equal. lia.
Qed.

Lemma reply_is_delivered_witness :
  ∃ c', send_recv conn0 get (replies (lit "v") [lit "+"; lit "v" ++ CRLF])
    = Some (c', Some (Ok (says (lit "v")))) ∧ clean c'.
Proof.
  apply (reply_is_delivered conn0 get (replies (lit "v") [lit "+"; lit "v" ++ CRLF])
    (says (lit "v")) (wire get)).
  - vm_compute. repeat split.
  - apply answerable_says; vm_compute; [lia|reflexivity].
  - reflexivity.
  - reflexivity.
  - vm_compute. reflexivity.
  - vm_compute. repeat constructor; discriminate.
Defined.

(** ** A pool *)

Definition direct : Source := Direct (mkConnection (lit "redis:6379") None None 0).
Definition pool_config : PoolConfig := mkPoolConfig 2 1 600000 30000.
Definition no_exchange : Exchange := mkExchange None [] None.
Definition connects : list (ConnectionConfig * list Exchange * Exchange * Z) :=
  [(mkConnection [] None None 0, [], no_exchange, 0%Z)].
Definition pool0 : Pool := mkPool (mkInner direct (lit "redis:6379") 0 pool_config [(conn0, 0%Z)] 0) ∅.

Lemma pool0_opened : opened direct pool_config connects pool0.
Proof. eexists. split; [vm_compute; reflexivity|reflexivity]. Defined.

Lemma connects_fair : Forall (λ '(_, xs, role, _), Forall fair xs ∧ fair role) connects.
Proof. repeat constructor. Defined.

(** The state a run of this pool ends in. *)
Definition after (evs : list Event) : Pool := default pool0 (pool_run pool0 evs).

(** Two tasks share the pool; the first times out, and its connection is dropped. *)
Definition timed_out : Exchange := mkExchange (Some (says (lit "old"))) [lit "+o"] (Some (EIo TimedOut)).
Definition two_tasks : list Event :=
  [Acquire 1 10; Command 1 get timed_out; Acquire 2 20;
   Connected 2 (mkConnection [] None None 0) [] no_exchange; Dropped 1 30].

Lemma two_tasks_run : pool_run pool0 two_tasks = Some (after two_tasks).
Proof. vm_compute. reflexivity. Defined.

Lemma pool_never_oversubscribed_witness :
  busy (inner (after two_tasks)) = size (tasks (after two_tasks)) ∧
  busy (inner (after two_tasks)) + length (idle (inner (after two_tasks))) ≤ 2.
Proof.
  exact (pool_never_oversubscribed direct pool_config connects pool0 two_tasks (after two_tasks)
    pool0_opened two_tasks_run).
Defined.

Lemma fair_says s reads e : length s < 100 → bool_decide ("013"%byte ∉ s) = true →
  fair (mkExchange (Some (says s)) reads e).
Proof. apply answerable_says. Defined.

Definition second_get : Exchange := replies (lit "new") [wire (says (lit "new"))].

Lemma two_tasks_careful : careful_run ∅ pool0 (two_tasks ++ [Command 2 get second_get]).
Proof.
  assert (fair timed_out) as H1 by (apply fair_says; [vm_compute; lia|vm_compute; reflexivity]).
  assert (fair second_get) as H2 by (apply fair_says; [vm_compute; lia|vm_compute; reflexivity]).
  repeat match goal with
  | |- careful_run _ _ _ => split; [|split]
  | |- match pool_step ?s ?e with _ => _ end =>
      let r := eval vm_compute in (pool_step s e) in
      let E := fresh in assert (E : pool_step s e = r) by (vm_compute; reflexivity); rewrite E; clear E;
      cbn [failed_after]
  end; try done; try set_solver.
Qed.

Definition after_second : Pool :=
  match pool_step (after two_tasks) (Command 2 get second_get) with
  | Some (st, _) => st
  | None => pool0
  end.


(** Task 1 holds a connection while the pool is invalidated and task 2 opens another. *)
Definition meanwhile : list Event :=
  [Acquire 2 20; Connected 2 (mkConnection [] None None 0) [] no_exchange; Dropped 2 30].

Definition after_meanwhile : Pool :=
  default pool0 (pool_run (after [Acquire 1 10]) (Invalidate :: meanwhile)).


(** ** A command after a failed one

    The pool's barrier reads the dirty flag when the connection comes back. A holder that
    runs another command after a timeout gets the late reply of the first, which clears the
    flag while the second reply is still to come. *)

Definition late : list Event :=
  [Acquire 1 10;
   Command 1 get (mkExchange (Some (says (lit "alice-1"))) [] (Some (EIo TimedOut)));
   Command 1 get (mkExchange (Some (says (lit "alice-2"))) [wire (says (lit "alice-1"))] None);
   Dropped 1 20;
   Acquire 2 30].

Definition bob : Exchange := mkExchange (Some (says (lit "bob"))) [wire (says (lit "alice-2"))] None.

Lemma late_fair : Forall fair_event late.
Proof.
  assert (∀ s, length s < 100 → bool_decide ("013"%byte ∉ s) = true → answerable (says s)) as Ha
    by exact answerable_says.
  repeat constructor; apply Ha; vm_compute; (reflexivity || lia).
Qed.

