(* ===== verification/RedisClusterExamples.v ===== *)
(** Concrete runs of the cluster client: a redirect to a known node, and one to an address
    no topology names. The witnesses apply the theorems of [RedisClusterFacts] to them. *)
From stdpp Require Import gmap.
From S2P Require Import Prelude RustStd Resp RedisCluster RedisClusterFacts.

(** A cluster in which every key is in slot 5 and sets are visited in the order of
    [elements]. *)
#[local] Instance toy_cluster : Cluster := {
  redis_keyslot _ := 5%Z;
  set_order s := elements s
}.
#[local] Instance toy_laws : ClusterLaws.
Proof. split; [intros; cbn; unfold NUM_SLOTS; lia|done]. Qed.

Definition node_a : bytes := lit "a:1".
Definition node_b : bytes := lit "b:2".
Definition evil : bytes := lit "169.254.169.254:80".

Definition range (lo hi : Z) (host : bytes) (port : Z) : OwnedFrame :=
  Array [Integer lo; Integer hi; Array [BulkString host; Integer port]].

(** Slots 0 to 9 at the first node, 10 to 19 at the second. *)
Definition layout : OwnedFrame := Array [range 0 9 (lit "a") 1; range 10 19 (lit "b") 2].

Definition reply_at (replies : list (bytes * OwnedFrame)) (addr : bytes) : redis OwnedFrame :=
  match find_map (λ '(a, f), if bool_decide (a = addr) then Some f else None) replies with
  | Some f => Ok f
  | None => Err (EIo OtherIo)
  end.

Definition net_of (replies : list (bytes * OwnedFrame)) : Network :=
  mkNetwork (reply_at [(node_a, layout)]) (λ _, Ok tt) (λ _, Ok tt)
    (reply_at [(node_b, SimpleString (lit "OK"))]) (reply_at replies).

Definition moves_to (addr : bytes) : Network := net_of [(node_a, Error (lit "MOVED 5 " ++ addr))].
Definition answers : Network :=
  net_of [(node_a, SimpleString (lit "A")); (node_b, SimpleString (lit "B"))].

Definition cluster0 : Inner :=
  match (connect_seeds answers [(node_a, 0%Z)]).2 with
  | Ok c => c
  | Err _ => mkCluster ∅ ∅ [] ∅
  end.

(** A redirect to the other node is followed and committed once it answers. *)
Definition followed : list Network := [moves_to node_b; answers; answers; answers].
(** A redirect to an address nobody vouches for is refused; the refreshed map is used. *)
Definition refused : list Network := [moves_to evil; answers; answers; answers].

Lemma redirects_in_practice :
  (send_to_slot [] cluster0 followed).2 = Some (Ok (SimpleString (lit "B"))) ∧
  node_for_slot (topology (send_to_slot [] cluster0 followed).1.1) 5 = Some node_b ∧
  (send_to_slot [] cluster0 refused).2 = Some (Ok (SimpleString (lit "A"))) ∧
  node_for_slot (topology (send_to_slot [] cluster0 refused).1.1) 5 = Some node_a ∧
  ∀ reply, Dial evil ∉ (send_to_slot [] cluster0 refused).1.2 ∧
    Send evil reply ∉ (send_to_slot [] cluster0 refused).1.2.
Proof.
  split_and!; try (vm_compute; reflexivity).
  intros reply. let tr := eval vm_compute in (send_to_slot [] cluster0 refused).1.2 in
    assert ((send_to_slot [] cluster0 refused).1.2 = tr) as -> by (vm_compute; reflexivity).
  split; intros Hin; repeat (apply elem_of_cons in Hin as [Hin|Hin]; [discriminate|]);
    by apply elem_of_nil in Hin.
Qed.

Lemma routing_ends_witness :
  ∃ c' tr res, send_to_slot [] cluster0 followed = (c', tr, Some res) ∧ length (sends tr) ≤ 3 ∧
    ∃ redirected final, sends tr = redirected ++ final ∧ Forall is_redirect redirected ∧
      length final ≤ 1 ∧ match res with Ok f => ∃ a, final = [(a, Ok f)] | Err _ => True end.
Proof. apply (routing_ends [] cluster0 followed). vm_compute. lia. Defined.


Lemma redirects_open_no_new_address_witness :
  dials_trusted (answers :: concat [followed; refused]) (list_to_set (map normalize_node_addr [node_a]))
    ((connect_seeds answers [(node_a, 0%Z)]).1 ++
     (serve cluster0 [([], followed); ([], refused)]).2).
Proof.
  apply (redirects_open_no_new_address answers [(node_a, 0%Z)]
    (connect_seeds answers [(node_a, 0%Z)]).1 cluster0 [([], followed); ([], refused)]
    (serve cluster0 [([], followed); ([], refused)]).1).
  - vm_compute. reflexivity.
  - destruct (serve cluster0 [([], followed); ([], refused)]) as [c tr]. reflexivity.
Defined.
