(* ===== verification/Kv.v ===== *)
(** The key-value store of [zeroship-kv]: the limits on keys, values and lifetimes
    ([limits.rs]), namespaces ([namespace.rs]), the contract of a backend
    ([backend/mod.rs]), the embedded backend on redb ([backend/redb.rs]) and the handles
    applications get ([store.rs]).

    redb is the class [RedbTable]: the operations of one ordered table, with their
    documented behaviour as [RedbTableLaws]. A database is the table, or [None] before the
    first write creates it. A call reads the clock once and may fail at any of its steps,
    which the environment [Env] of the call decides; a transaction that is dropped before
    its commit leaves no trace, and a failed commit may or may not have landed. *)

From S2P Require Import Prelude RustStd.

(** ** Errors *)

Inductive KvError :=
  | InvalidKey (message : bytes)
  | InvalidValue (message : bytes)
  | InvalidArgument (message : bytes)
  | NonNumeric (message : bytes)
  | Overflow (message : bytes)
  | ListTooLarge (message : bytes)
  | Connection (message : bytes)
  | BackendError (message : bytes).
#[global] Instance KvError_eq_dec : EqDecision KvError.
Proof. solve_decision. Defined.

Notation kv := (result KvError).

Definition is_validation (e : KvError) : bool :=
  match e with InvalidKey _ | InvalidValue _ | InvalidArgument _ => true | _ => false end.

(** ** Limits *)

Definition MAX_KEY_LEN : Z := 512.
Definition MAX_VALUE_BYTES : Z := 256 * 1024.
Definition LIST_DEFAULT_LIMIT : Z := 1000.
Definition LIST_MAX_LIMIT : Z := 10000.
Definition MAX_TTL_MS : Z := 100 * 365 * 24 * 60 * 60 * 1000.

(** Whether a text holds a brace or a control character: the controls are the ASCII ones and
    U+0080 to U+009F, which UTF-8 encodes as 0xC2 and a byte below 0xA0. *)
Fixpoint has_reserved_char (s : bytes) : bool :=
  match s with
  | [] => false
  | b :: s' =>
      bool_decide (b = "{"%byte) || bool_decide (b = "}"%byte) || byte_in 0 31 b ||
      byte_in 127 127 b ||
      (byte_in 194 194 b && match s' with b1 :: _ => byte_in 128 159 b1 | [] => false end) ||
      has_reserved_char s'
  end.

Definition validate_key (key : bytes) : kv unit :=
  if bool_decide (key = []) then Err (InvalidKey (lit "kv: key must be a non-empty string"))
  else if (MAX_KEY_LEN <? Z.of_nat (length key))%Z then
    Err (InvalidKey (lit "kv: key exceeds 512 bytes (got " ++
                     nat_to_string (Z.of_nat (length key)) ++ lit ")"))
  else if has_reserved_char key then
    Err (InvalidKey (lit "kv: key must not contain '{', '}', NUL, or control characters"))
  else Ok tt.

Definition validate_value (value : bytes) : kv unit :=
  if (MAX_VALUE_BYTES <? Z.of_nat (length value))%Z then
    Err (InvalidValue (lit "kv: value exceeds 262144 bytes (got " ++
                       nat_to_string (Z.of_nat (length value)) ++ lit ")"))
  else Ok tt.

Definition validate_ttl_ms (ttl_ms : Z) : kv unit :=
  if (ttl_ms =? 0)%Z then Err (InvalidArgument (lit "kv: ttlMs must be greater than 0"))
  else if (MAX_TTL_MS <? ttl_ms)%Z then Err (InvalidArgument (lit "kv: ttlMs exceeds the maximum"))
  else Ok tt.

Definition normalize_list_limit (limit : Z) : Z :=
  if (limit =? 0)%Z then LIST_DEFAULT_LIMIT else Z.min limit LIST_MAX_LIMIT.

(** ** Namespaces *)

Definition is_name_byte (b : byte) : bool :=
  is_ascii_alphabetic b || is_ascii_digit b || bool_decide (b ∈ lit "_-.").

Definition validate_component (name : bytes) : kv unit :=
  if bool_decide (name = []) || negb (forallb is_name_byte name) then
    Err (InvalidArgument
      (lit "kv: namespace must contain only ASCII letters, digits, '_', '-', or '.'"))
  else Ok tt.

Record Namespace := mkNamespace { as_str : bytes }.
#[global] Instance Namespace_eq_dec : EqDecision Namespace.
Proof. solve_decision. Defined.

Definition app_namespace (app_id : bytes) : kv Namespace :=
  _ ← validate_component app_id; Ok (mkNamespace app_id).
Definition platform_namespace (name : bytes) : kv Namespace :=
  _ ← validate_component name; Ok (mkNamespace (lit "platform:" ++ name)).

(** ** Backends *)

Definition scope (app_id key : bytes) : bytes := lit "{" ++ app_id ++ lit "}:" ++ key.

Inductive TtlState := Missing | NoExpiry | ExpiresInMs (ms : Z).
#[global] Instance TtlState_eq_dec : EqDecision TtlState.
Proof. solve_decision. Defined.

(** The trait: [E] is what the world does during a call, [S] the state behind the backend. *)
Class Backend (E S : Type) := {
  be_get : E → bytes → bytes → S → kv (option bytes) * S;
  be_set : E → bytes → bytes → bytes → option Z → S → kv unit * S;
  be_delete : E → bytes → bytes → S → kv bool * S;
  be_incr : E → bytes → bytes → Z → option Z → S → kv Z * S;
  be_set_if_absent : E → bytes → bytes → bytes → option Z → S → kv bool * S;
  be_expire : E → bytes → bytes → Z → S → kv bool * S;
  be_ttl : E → bytes → bytes → S → kv TtlState * S;
  be_persist : E → bytes → bytes → S → kv bool * S;
  be_list : E → bytes → bytes → option bytes → Z → S → kv (list bytes * option bytes) * S
}.

(** ** The table of redb *)

(** A value and its deadline in milliseconds of the epoch. *)
Notation Row := (bytes * option Z)%type.

Inductive Bound := Included (key : bytes) | Excluded (key : bytes).
Definition above (b : Bound) (key : bytes) : Prop :=
  match b with Included k => cmp k key ≠ Gt | Excluded k => cmp k key = Lt end.

Class RedbTable (T : Type) := {
  no_rows : T;
  row_at : T → bytes → option Row;
  put_row : bytes → Row → T → T;
  drop_row : bytes → T → T;
  rows_from : Bound → T → list (bytes * Row)
}.
(** A table is a map, and a range visits its rows from the bound on in the order of their
    keys. *)
Class RedbTableLaws T `{RedbTable T} : Prop := {
  row_at_none : ∀ k, row_at no_rows k = None;
  row_at_put : ∀ k r k' t, row_at (put_row k r t) k' = if decide (k = k') then Some r else row_at t k';
  row_at_drop : ∀ k k' t, row_at (drop_row k t) k' = if decide (k = k') then None else row_at t k';
  rows_from_spec : ∀ b t k r, (k, r) ∈ rows_from b t ↔ above b k ∧ row_at t k = Some r;
  rows_from_sorted : ∀ b t, bset_wf (map fst (rows_from b t))
}.

(** ** The embedded backend *)

Inductive Step :=
  | BeginRead | BeginWrite | OpenTable | GetRow | InsertRow | RemoveRow | OpenRange
  | NextRow (n : nat) | Commit.

(** What happens during a call: the clock it reads, the error text of the steps that fail,
    and whether a commit that fails has landed. *)
Record Env := mkEnv {
  clock : Z;
  fault : Step → option bytes;
  landed : bool
}.

Definition redb_err (at_ e : bytes) : KvError := BackendError (lit "kv: redb " ++ at_ ++ lit ": " ++ e).
Definition at_step (env : Env) (s : Step) (what : bytes) : kv unit :=
  match fault env s with Some e => Err (redb_err what e) | None => Ok tt end.

(** [u64::saturating_add] and [i64::checked_add]. *)
Definition saturating_add (a b : Z) : Z := Z.min (a + b) (2 ^ 64 - 1).
Definition checked_add (a b : Z) : option Z :=
  if ((i64_min <=? a + b) && (a + b <=? i64_max))%Z then Some (a + b)%Z else None.

Definition is_expired (expires_at : option Z) (now : Z) : bool :=
  match expires_at with Some at_ => (at_ <=? now)%Z | None => false end.

(** The deadline of a row written now. *)
Definition expires_after (now : Z) (ttl_ms : option Z) : option Z := saturating_add now <$> ttl_ms.

Section redb.
Context {T : Type} `{RedbTable T}.
Notation Db := (option T).

(** A read transaction: a table that does not exist yet reads as [missing]. *)
Definition read_txn {A} (env : Env) (op : bytes) (missing : A) (body : T → kv A) (db : Db) :
    kv A * Db :=
  (_ ← at_step env BeginRead (op ++ lit " begin_read");
   _ ← at_step env OpenTable (op ++ lit " open_table");
   match db with Some t => body t | None => Ok missing end, db).

(** A write transaction. *)
Definition write_txn {A} (env : Env) (op : bytes) (body : T → kv (A * T)) (db : Db) : kv A * Db :=
  let run :=
    _ ← at_step env BeginWrite (op ++ lit " begin_write");
    _ ← at_step env OpenTable (op ++ lit " open_table");
    body (default no_rows db) in
  match run with
  | Err e => (Err e, db)
  | Ok (a, t) =>
      match at_step env Commit (op ++ lit " commit") with
      | Ok _ => (Ok a, Some t)
      | Err e => (Err e, if landed env then Some t else db)
      end
  end.

(** The row of a key that has not expired. *)
Definition unexpired (now : Z) (row : option Row) : option Row :=
  r ← row; if is_expired r.2 now then None else Some r.

Definition redb_get (env : Env) (app_id key : bytes) (db : Db) : kv (option bytes) * Db :=
  let scoped := scope app_id key in
  let now := clock env in
  read_txn env (lit "get") None (λ t,
    _ ← at_step env GetRow (lit "get");
    match row_at t scoped with
    | Some (value, expires_at) => Ok (if is_expired expires_at now then None else Some value)
    | None => Ok None
    end) db.

Definition redb_set (env : Env) (app_id key value : bytes) (ttl_ms : option Z) (db : Db) :
    kv unit * Db :=
  let scoped := scope app_id key in
  let expires_at := expires_after (clock env) ttl_ms in
  write_txn env (lit "set") (λ t,
    _ ← at_step env InsertRow (lit "set insert");
    Ok (tt, put_row scoped (value, expires_at) t)) db.

Definition redb_delete (env : Env) (app_id key : bytes) (db : Db) : kv bool * Db :=
  let scoped := scope app_id key in
  write_txn env (lit "delete") (λ t,
    _ ← at_step env RemoveRow (lit "delete remove");
    let existed := match row_at t scoped with
                   | Some row => negb (is_expired row.2 (clock env))
                   | None => false
                   end in
    Ok (existed, drop_row scoped t)) db.

Definition incr_overflow (key : bytes) : KvError :=
  Overflow (lit "kv: incr overflowed i64 for key '" ++ key ++ lit "'").

(** The value and deadline [incr] writes, from the live row. *)
Definition incremented (now : Z) (key : bytes) (delta : Z) (ttl_ms : option Z) (live : option Row) :
    kv (Z * option Z) :=
  match live with
  | Some (value, expires_at) =>
      current ← ok_or (parse_i64 value)
        (NonNumeric (lit "kv: incr on non-numeric value for key '" ++ key ++ lit "'"));
      next ← ok_or (checked_add current delta) (incr_overflow key);
      Ok (next, expires_at)
  | None =>
      next ← ok_or (checked_add 0 delta) (incr_overflow key);
      Ok (next, expires_after now ttl_ms)
  end.

Definition redb_incr (env : Env) (app_id key : bytes) (delta : Z) (ttl_ms : option Z) (db : Db) :
    kv Z * Db :=
  let scoped := scope app_id key in
  let now := clock env in
  write_txn env (lit "incr") (λ t,
    _ ← at_step env GetRow (lit "incr get");
    '(next, expires_at) ← incremented now key delta ttl_ms (unexpired now (row_at t scoped));
    _ ← at_step env InsertRow (lit "incr insert");
    Ok (next, put_row scoped (i64_to_string next, expires_at) t)) db.

Definition redb_set_if_absent (env : Env) (app_id key value : bytes) (ttl_ms : option Z) (db : Db) :
    kv bool * Db :=
  let scoped := scope app_id key in
  let now := clock env in
  write_txn env (lit "setIfAbsent") (λ t,
    _ ← at_step env GetRow (lit "setIfAbsent get");
    let occupied := match row_at t scoped with
                    | Some (_, expires_at) => negb (is_expired expires_at now)
                    | None => false
                    end in
    if occupied then Ok (false, t)
    else
      _ ← at_step env InsertRow (lit "setIfAbsent insert");
      Ok (true, put_row scoped (value, expires_after now ttl_ms) t)) db.

Definition redb_expire (env : Env) (app_id key : bytes) (ttl_ms : Z) (db : Db) : kv bool * Db :=
  let scoped := scope app_id key in
  let now := clock env in
  write_txn env (lit "expire") (λ t,
    _ ← at_step env GetRow (lit "expire get");
    match unexpired now (row_at t scoped) with
    | Some (value, _) =>
        _ ← at_step env InsertRow (lit "expire insert");
        Ok (true, put_row scoped (value, Some (saturating_add now ttl_ms)) t)
    | None => Ok (false, t)
    end) db.

Definition redb_ttl (env : Env) (app_id key : bytes) (db : Db) : kv TtlState * Db :=
  let scoped := scope app_id key in
  let now := clock env in
  read_txn env (lit "ttl") Missing (λ t,
    _ ← at_step env GetRow (lit "ttl");
    match row_at t scoped with
    | Some (_, None) => Ok NoExpiry
    | Some (_, Some at_) => Ok (if (at_ <=? now)%Z then Missing else ExpiresInMs (at_ - now))
    | None => Ok Missing
    end) db.

Definition redb_persist (env : Env) (app_id key : bytes) (db : Db) : kv bool * Db :=
  let scoped := scope app_id key in
  let now := clock env in
  write_txn env (lit "persist") (λ t,
    _ ← at_step env GetRow (lit "persist get");
    let payload := match row_at t scoped with
                   | Some (value, expires_at) =>
                       if is_expired expires_at now || bool_decide (expires_at = None) then None
                       else Some value
                   | None => None
                   end in
    match payload with
    | Some value =>
        _ ← at_step env InsertRow (lit "persist insert");
        Ok (true, put_row scoped (value, None) t)
    | None => Ok (false, t)
    end) db.

(** The loop of [list] over the rows of the range, from the [n]th on; the flag is
    [any_remaining]. *)
Fixpoint list_rows (env : Env) (scoped_prefix strip : bytes) (limit : Z) (n : nat)
    (page : list bytes) (last_scoped : option bytes) (range : list (bytes * Row)) :
    kv (list bytes * option bytes * bool) :=
  _ ← at_step env (NextRow n) (lit "list iter");
  match range with
  | [] => Ok (page, last_scoped, false)
  | (scoped_key, (_, expires_at)) :: range' =>
      if negb (starts_with scoped_key scoped_prefix) then Ok (page, last_scoped, false)
      else if is_expired expires_at (clock env) then
        list_rows env scoped_prefix strip limit (S n) page last_scoped range'
      else
        match strip_prefix strip scoped_key with
        | None => list_rows env scoped_prefix strip limit (S n) page last_scoped range'
        | Some unscoped =>
            if (Z.of_nat (length page) =? limit)%Z then Ok (page, last_scoped, true)
            else list_rows env scoped_prefix strip limit (S n) (page ++ [unscoped]) (Some unscoped) range'
        end
  end.

Definition redb_list (env : Env) (app_id prefix : bytes) (cursor : option bytes) (limit : Z) (db : Db) :
    kv (list bytes * option bytes) * Db :=
  let scoped_prefix := scope app_id prefix in
  let strip := lit "{" ++ app_id ++ lit "}:" in
  read_txn env (lit "list") ([], None) (λ t,
    let lower := match cursor with
                 | Some c => Excluded (scope app_id c)
                 | None => Included scoped_prefix
                 end in
    _ ← at_step env OpenRange (lit "list range");
    '(page, last_scoped, any_remaining) ←
      list_rows env scoped_prefix strip limit 0 [] None (rows_from lower t);
    let next_cursor :=
      if (Z.of_nat (length page) =? limit)%Z && any_remaining then last_scoped else None in
    Ok (page, next_cursor)) db.

#[global] Instance RedbBackend : Backend Env Db := {
  be_get := redb_get; be_set := redb_set; be_delete := redb_delete; be_incr := redb_incr;
  be_set_if_absent := redb_set_if_absent; be_expire := redb_expire; be_ttl := redb_ttl;
  be_persist := redb_persist; be_list := redb_list
}.
End redb.

(** ** Handles *)

Definition validate_optional_ttl (ttl_ms : option Z) : kv unit :=
  match ttl_ms with Some ttl_ms => validate_ttl_ms ttl_ms | None => Ok tt end.

(** [check?;] before a call of the backend. *)
Definition after_check {A S} (check : kv unit) (call : S → kv A * S) (s : S) : kv A * S :=
  match check with Ok _ => call s | Err e => (Err e, s) end.

Section handle.
Context {E S : Type} `{Backend E S}.

(** A handle is the namespace the host bound it to. *)
Definition kv_get (env : E) (ns : Namespace) (key : bytes) : S → kv (option bytes) * S :=
  after_check (validate_key key) (be_get env (as_str ns) key).

Definition kv_set (env : E) (ns : Namespace) (key value : bytes) (ttl_ms : option Z) :
    S → kv unit * S :=
  after_check (_ ← validate_key key; _ ← validate_value value; validate_optional_ttl ttl_ms)
    (be_set env (as_str ns) key value ttl_ms).

Definition kv_delete (env : E) (ns : Namespace) (key : bytes) : S → kv bool * S :=
  after_check (validate_key key) (be_delete env (as_str ns) key).

Definition kv_incr (env : E) (ns : Namespace) (key : bytes) (delta : Z) (ttl_ms : option Z) :
    S → kv Z * S :=
  after_check (_ ← validate_key key; validate_optional_ttl ttl_ms)
    (be_incr env (as_str ns) key delta ttl_ms).

Definition kv_set_if_absent (env : E) (ns : Namespace) (key value : bytes) (ttl_ms : option Z) :
    S → kv bool * S :=
  after_check (_ ← validate_key key; _ ← validate_value value; validate_optional_ttl ttl_ms)
    (be_set_if_absent env (as_str ns) key value ttl_ms).

Definition kv_expire (env : E) (ns : Namespace) (key : bytes) (ttl_ms : Z) : S → kv bool * S :=
  after_check (_ ← validate_key key; validate_ttl_ms ttl_ms) (be_expire env (as_str ns) key ttl_ms).

Definition kv_ttl (env : E) (ns : Namespace) (key : bytes) : S → kv TtlState * S :=
  after_check (validate_key key) (be_ttl env (as_str ns) key).

Definition kv_persist (env : E) (ns : Namespace) (key : bytes) : S → kv bool * S :=
  after_check (validate_key key) (be_persist env (as_str ns) key).

Definition kv_list (env : E) (ns : Namespace) (prefix : bytes) (cursor : option bytes) (limit : Z) :
    S → kv (list bytes * option bytes) * S :=
  be_list env (as_str ns) prefix cursor (normalize_list_limit limit).

(** *** Calls and their replies, for histories *)

Inductive Call :=
  | CGet (key : bytes)
  | CSet (key value : bytes) (ttl_ms : option Z)
  | CDelete (key : bytes)
  | CIncr (key : bytes) (delta : Z) (ttl_ms : option Z)
  | CSetIfAbsent (key value : bytes) (ttl_ms : option Z)
  | CExpire (key : bytes) (ttl_ms : Z)
  | CTtl (key : bytes)
  | CPersist (key : bytes)
  | CList (prefix : bytes) (cursor : option bytes) (limit : Z).

Inductive Reply :=
  | RValue (value : option bytes)
  | RDone
  | RFlag (b : bool)
  | RCount (n : Z)
  | RTtl (state : TtlState)
  | RPage (page : list bytes) (next_cursor : option bytes).

Definition reply {A} (f : A → Reply) (r : kv A * S) : kv Reply * S := (f <$> r.1, r.2).

Definition kv_call (env : E) (ns : Namespace) (c : Call) (s : S) : kv Reply * S :=
  match c with
  | CGet k => reply RValue (kv_get env ns k s)
  | CSet k v ttl => reply (λ _, RDone) (kv_set env ns k v ttl s)
  | CDelete k => reply RFlag (kv_delete env ns k s)
  | CIncr k d ttl => reply RCount (kv_incr env ns k d ttl s)
  | CSetIfAbsent k v ttl => reply RFlag (kv_set_if_absent env ns k v ttl s)
  | CExpire k ttl => reply RFlag (kv_expire env ns k ttl s)
  | CTtl k => reply RTtl (kv_ttl env ns k s)
  | CPersist k => reply RFlag (kv_persist env ns k s)
  | CList p c l => reply (λ r, RPage r.1 r.2) (kv_list env ns p c l s)
  end.

(** A history: calls of any handles on one store, each in its own environment. *)
Fixpoint kv_run (calls : list (E * Namespace * Call)) (s : S) : list (kv Reply) * S :=
  match calls with
  | [] => ([], s)
  | (env, ns, c) :: calls' =>
      let '(r, s1) := kv_call env ns c s in
      let '(rs, s2) := kv_run calls' s1 in
      (r :: rs, s2)
  end.
End handle.
