(* ===== verification/KvFacts.v ===== *)
(** What the embedded store promises. The contract of [backend/mod.rs] is a [Keyspace] per
    namespace: a finite map from keys to values and deadlines on which [keyspace_call] says
    what every call does. The store keeps all namespaces in one table, and
    [redb_serves_namespaces] shows that it serves each of them as its own keyspace. *)

From stdpp Require Import gmap.
From S2P Require Import Prelude RustStd Kv.

(** * The contract *)

Notation Keyspace := (gmap bytes Row).

(** What is left of a keyspace when the clock shows [now]. *)
Definition tick (now : Z) (m : Keyspace) : Keyspace :=
  filter (λ kr, is_expired kr.2.2 now = false) m.

(** The keys, in order. *)
Definition sorted_keys (m : Keyspace) : list bytes := bset_of (map fst (map_to_list m)).

Definition past_cursor (cursor : option bytes) (key : bytes) : bool :=
  match cursor with Some c => bool_decide (cmp c key = Lt) | None => true end.

(** The next [limit] keys under a prefix after the cursor, and the last of them when there are
    more. *)
Definition page_of (m : Keyspace) (prefix : bytes) (cursor : option bytes) (limit : Z) :
    list bytes * option bytes :=
  let keys := List.filter (λ k, starts_with k prefix && past_cursor cursor k) (sorted_keys m) in
  let page := take (Z.to_nat limit) keys in
  (page, if (limit <? Z.of_nat (length keys))%Z then last page else None).

(** The count a counter stands at. *)
Definition count_of (row : option Row) : option Z :=
  match row with Some (value, _) => parse_i64 value | None => Some 0%Z end.
Definition deadline_of (now : Z) (ttl : option Z) (row : option Row) : option Z :=
  match row with Some (_, at_) => at_ | None => expires_after now ttl end.

(** A valid call on the live keys of a namespace. *)
Definition keyspace_op (now : Z) (c : Call) (m : Keyspace) : kv Reply * Keyspace :=
  match c with
  | CGet k => (Ok (RValue (fst <$> m !! k)), m)
  | CSet k v ttl => (Ok RDone, <[k := (v, expires_after now ttl)]> m)
  | CDelete k => (Ok (RFlag (bool_decide (is_Some (m !! k)))), delete k m)
  | CIncr k d ttl =>
      match count_of (m !! k) with
      | None => (Err (NonNumeric (lit "kv: incr on non-numeric value for key '" ++ k ++ lit "'")), m)
      | Some n =>
          if bool_decide (i64_min ≤ n + d ≤ i64_max)%Z then
            (Ok (RCount (n + d)),
             <[k := (i64_to_string (n + d), deadline_of now ttl (m !! k))]> m)
          else (Err (incr_overflow k), m)
      end
  | CSetIfAbsent k v ttl =>
      match m !! k with
      | Some _ => (Ok (RFlag false), m)
      | None => (Ok (RFlag true), <[k := (v, expires_after now ttl)]> m)
      end
  | CExpire k ttl =>
      match m !! k with
      | Some (v, _) => (Ok (RFlag true), <[k := (v, Some (saturating_add now ttl))]> m)
      | None => (Ok (RFlag false), m)
      end
  | CTtl k =>
      (Ok (RTtl match m !! k with
                | None => Missing
                | Some (_, None) => NoExpiry
                | Some (_, Some at_) => ExpiresInMs (at_ - now)
                end), m)
  | CPersist k =>
      match m !! k with
      | Some (v, Some _) => (Ok (RFlag true), <[k := (v, None)]> m)
      | _ => (Ok (RFlag false), m)
      end
  | CList p cur l =>
      let '(page, next) := page_of m p cur (normalize_list_limit l) in (Ok (RPage page next), m)
  end.

(** What a handle refuses before it calls the backend. *)
Definition call_check (c : Call) : kv unit :=
  match c with
  | CGet k | CDelete k | CTtl k | CPersist k => validate_key k
  | CSet k v ttl | CSetIfAbsent k v ttl =>
      _ ← validate_key k; _ ← validate_value v; validate_optional_ttl ttl
  | CIncr k _ ttl => _ ← validate_key k; validate_optional_ttl ttl
  | CExpire k ttl => _ ← validate_key k; validate_ttl_ms ttl
  | CList _ _ _ => Ok tt
  end.

Definition keyspace_call (now : Z) (c : Call) (m : Keyspace) : kv Reply * Keyspace :=
  match call_check c with Ok _ => keyspace_op now c m | Err e => (Err e, m) end.

(** A call in an environment: what the contract says, or an error of the storage, which some
    step of the call reports; the call then took no effect, or its commit landed. *)
Inductive serves (env : Env) (c : Call) (m : Keyspace) : kv Reply → Keyspace → Prop :=
  | serves_done r m' : keyspace_call (clock env) c m = (r, m') → serves env c m r m'
  | serves_failed s text e :
      fault env s = Some text → serves env c m (Err (BackendError e)) m
  | serves_landed s text e :
      fault env s = Some text → landed env = true →
      serves env c m (Err (BackendError e)) (keyspace_call (clock env) c m).2.

(** The calls of a history on one namespace, served from [m] to [m']; calls on other
    namespaces do not matter to it. *)
Inductive serves_all (ns : Namespace) :
    Keyspace → list (Env * Namespace * Call) → list (kv Reply) → Keyspace → Prop :=
  | serves_all_nil m : serves_all ns m [] [] m
  | serves_all_own env c calls m r m1 rs m2 :
      serves env c (tick (clock env) m) r m1 → serves_all ns m1 calls rs m2 →
      serves_all ns m ((env, ns, c) :: calls) (r :: rs) m2
  | serves_all_other env ns' c calls m r rs m2 :
      ns' ≠ ns → serves_all ns m calls rs m2 →
      serves_all ns m ((env, ns', c) :: calls) (r :: rs) m2.

(** Namespaces a host can bind a handle to. *)
Definition issued (ns : Namespace) : Prop :=
  ∃ name, app_namespace name = Ok ns ∨ platform_namespace name = Ok ns.

(** A cursor sorts within or after the prefix listed, as every cursor [list] returns does, and
    a limit is not negative. *)
Definition cursor_ok (prefix : bytes) (cursor : option bytes) : Prop :=
  match cursor with Some c => cmp prefix c ≠ Gt | None => True end.
Definition call_ok (c : Call) : Prop :=
  match c with CList p cur l => cursor_ok p cur ∧ (0 ≤ l)%Z | _ => True end.

(** The clock does not go back. *)
Fixpoint clocks_from (t : Z) (calls : list (Env * Namespace * Call)) : Prop :=
  match calls with
  | [] => True
  | (env, _, _) :: calls' => (t ≤ clock env)%Z ∧ clocks_from (clock env) calls'
  end.
Fixpoint last_clock (t : Z) (calls : list (Env * Namespace * Call)) : Z :=
  match calls with [] => t | (env, _, _) :: calls' => last_clock (clock env) calls' end.

(** * Keys *)

Definition tag (ns : Namespace) : bytes := lit "{" ++ as_str ns ++ lit "}:".
#[global] Arguments tag : simpl never.
#[global] Arguments scope : simpl never.

Lemma scope_tag ns k : scope (as_str ns) k = tag ns ++ k.
Proof. unfold scope, tag. by rewrite <-!app_assoc. Qed.

Lemma name_byte_no_brace b : is_name_byte b = true → b ≠ "{"%byte ∧ b ≠ "}"%byte ∧ b ≠ ":"%byte.
Proof. by destruct b. Qed.

Lemma validate_component_ok name u : validate_component name = Ok u →
  name ≠ [] ∧ ∀ b, b ∈ name → is_name_byte b = true.
Proof.
  unfold validate_component. case_bool_decide; cbn; [done|].
  destruct (forallb is_name_byte name) eqn:E; cbn; [|done]. intros _. split; [done|].
  intros b Hb. rewrite forallb_forall in E. by apply E, list_elem_of_In.
Qed.

Lemma issued_shape ns : issued ns → as_str ns ≠ [] ∧ "}"%byte ∉ as_str ns ∧ "{"%byte ∉ as_str ns.
Proof.
  intros (name & [E|E]); revert E; unfold app_namespace, platform_namespace;
    (destruct (validate_component name) eqn:Ev; cbn; [|done]); intros [= <-];
    apply validate_component_ok in Ev as [? Hb]; cbn; (split; [done|]).
  - split; intros ?%Hb%name_byte_no_brace; naive_solver.
  - split; rewrite !not_elem_of_cons; (do 9 (split; [done|]));
      intros ?%Hb%name_byte_no_brace; naive_solver.
Qed.

Lemma cut_inj (c : byte) a a' x x' : c ∉ a → c ∉ a' → a ++ c :: x = a' ++ c :: x' → a = a' ∧ x = x'.
Proof.
  revert a'. induction a as [|b a IH]; intros [|b' a'] Ha Ha' E; simplify_eq/=.
  - done.
  - set_solver.
  - set_solver.
  - destruct (IH a') as [-> ->]; [set_solver..|done|done].
Qed.

(** The key of a row determines the namespace and the key of the application. *)
Lemma tag_inj ns ns' k k' : issued ns → issued ns' → tag ns ++ k = tag ns' ++ k' → ns = ns' ∧ k = k'.
Proof.
  intros (_ & H1 & _)%issued_shape (_ & H2 & _)%issued_shape. unfold tag.
  rewrite <-!app_assoc. cbn. intros [= E]. apply cut_inj in E as [E E']; [|done..].
  simplify_eq. destruct ns, ns'. by simplify_eq/=.
Qed.

(** Applications and the platform have disjoint namespaces. *)
Lemma app_not_platform name name' ns :
  app_namespace name = Ok ns → platform_namespace name' = Ok ns → False.
Proof.
  unfold app_namespace, platform_namespace.
  destruct (validate_component name) eqn:E; cbn; [|done].
  destruct (validate_component name'); cbn; [|done]. intros [= <-] [= E']. subst name.
  apply validate_component_ok in E as [_ Hb]. specialize (Hb ":"%byte).
  assert (":"%byte ∈ lit "platform:" ++ name') as Hin by (cbn; set_solver).
  apply Hb in Hin. done.
Qed.

(** ** Prefixes and the order of keys *)

Lemma cmp_app (p a b : bytes) : cmp (p ++ a) (p ++ b) = cmp a b.
Proof.
  induction p as [|x p IH]; [done|]. rewrite <-!app_comm_cons.
  change (match cmp x x with Eq => cmp (p ++ a) (p ++ b) | c => c end = cmp a b).
  by rewrite cmp_refl.
Qed.

Lemma cmp_prefix (p a : bytes) : cmp p (p ++ a) ≠ Gt.
Proof. rewrite <-(app_nil_r p) at 1. rewrite cmp_app. by destruct a. Qed.

Lemma cmp_le_trans (a b c : bytes) : cmp a b ≠ Gt → cmp b c ≠ Gt → cmp a c ≠ Gt.
Proof.
  destruct (cmp a b) eqn:E1; [apply cmp_eq in E1 as ->; auto| |done].
  destruct (cmp b c) eqn:E2; [apply cmp_eq in E2 as <-; congruence| |done].
  intros _ _. by rewrite (cmp_trans _ _ _ E1 E2).
Qed.

(** The keys under a prefix are an interval that starts at the prefix. *)
Lemma prefix_interval (p a b : bytes) :
  cmp p a ≠ Gt → cmp a b = Lt → p `prefix_of` b → p `prefix_of` a.
Proof.
  revert a b. induction p as [|x p IH]; intros [|y a] [|z b] H1 H2 [w E]; simplify_eq/=;
    try done; try apply prefix_nil.
  change (match cmp x y with Eq => cmp p a | c => c end ≠ Gt) in H1.
  change (match cmp y x with Eq => cmp a (p ++ w) | c => c end = Lt) in H2.
  destruct (cmp x y) eqn:E; [|apply cmp_gt in E; by rewrite E in H2|done].
  apply cmp_eq in E as ->. rewrite cmp_refl in H2. apply prefix_cons, (IH a (p ++ w)); [done..|].
  by exists w.
Qed.

(** * The live keys of a namespace *)

Lemma tick_lookup now m k : tick now m !! k = unexpired now (m !! k).
Proof.
  unfold tick, unexpired. rewrite map_lookup_filter. destruct (m !! k) as [r|]; [|done]. cbn.
  destruct (is_expired r.2 now); [by rewrite option_guard_False|by rewrite option_guard_True].
Qed.

Lemma unexpired_later now now' r : (now ≤ now')%Z → unexpired now' (unexpired now r) = unexpired now' r.
Proof.
  intros Ht. destruct r as [[v [at_|]]|]; cbn; [|done..].
  destruct (Z.leb_spec at_ now); cbn; [|done]. destruct (Z.leb_spec at_ now'); [done|lia].
Qed.
Lemma tick_later now now' m : (now ≤ now')%Z → tick now' (tick now m) = tick now' m.
Proof. intros. apply map_eq. intros k. rewrite !tick_lookup. by apply unexpired_later. Qed.
Lemma tick_idem now m : tick now (tick now m) = tick now m.
Proof. by apply tick_later. Qed.

Lemma unexpired_Some now r row : unexpired now r = Some row → r = Some row ∧ is_expired row.2 now = false.
Proof.
  unfold unexpired. destruct r as [row'|]; cbn; [|done].
  destruct (is_expired row'.2 now) eqn:E; [done|]. by intros [= <-].
Qed.

Lemma tick_insert now m k r : tick now (<[k := r]> (tick now m)) = tick now (<[k := r]> m).
Proof.
  apply map_eq. intros k'. rewrite !tick_lookup. destruct (decide (k = k')) as [->|].
  - by rewrite !lookup_insert_eq.
  - rewrite !lookup_insert_ne, tick_lookup by done. by apply unexpired_later.
Qed.
Lemma tick_delete now m k : tick now (delete k m) = delete k (tick now m).
Proof.
  apply map_eq. intros k'. destruct (decide (k = k')) as [->|].
  - by rewrite tick_lookup, !lookup_delete_eq.
  - by rewrite tick_lookup, !lookup_delete_ne, tick_lookup.
Qed.

Section store.
Context {T : Type} `{RedbTableLaws T}.
Notation Db := (option T).

(** The row of a key, and the live keys of a namespace. *)
Definition row_of (ns : Namespace) (db : Db) (k : bytes) : option Row :=
  t ← db; row_at t (tag ns ++ k).

Definition view (now : Z) (ns : Namespace) (db : Db) : Keyspace :=
  tick now (list_to_map
    (omap (λ kr : bytes * Row, k ← strip_prefix (tag ns) kr.1; Some (k, kr.2))
      (rows_from (Included []) (default no_rows db)))).

Lemma row_of_default ns db k : row_of ns (Some (default no_rows db)) k = row_of ns db k.
Proof. destruct db; cbn; [done|]. apply row_at_none. Qed.

Lemma lookup_list_to_map_iff (l : list (bytes * Row)) k r :
  (∀ k r r', (k, r) ∈ l → (k, r') ∈ l → r = r') →
  (list_to_map l : Keyspace) !! k = Some r ↔ (k, r) ∈ l.
Proof.
  intros Hu. split; [apply elem_of_list_to_map_2|]. induction l as [|[k' r'] l IH]; [set_solver|].
  intros Hin. cbn. destruct (decide (k' = k)) as [->|Hne].
  - rewrite lookup_insert_eq. f_equal. apply (Hu k); [left|done].
  - rewrite lookup_insert_ne by done. apply IH; [|set_solver].
    intros k0 r0 r0' ??. apply (Hu k0); by right.
Qed.

Lemma view_lookup now ns db k : view now ns db !! k = unexpired now (row_of ns db k).
Proof.
  unfold view. rewrite tick_lookup. f_equal. apply option_eq. intros r.
  assert (∀ k r, (k, r) ∈ omap (λ kr : bytes * Row, k ← strip_prefix (tag ns) kr.1; Some (k, kr.2))
    (rows_from (Included []) (default no_rows db)) ↔ row_of ns db k = Some r) as Hin.
  { intros k0 r0. rewrite list_elem_of_omap, <-row_of_default. cbn [row_of mbind option_bind]. split.
    - intros ([key row] & Hrow & E). apply rows_from_spec in Hrow as [_ Hrow]. cbn in E.
      destruct (strip_prefix (tag ns) key) as [k'|] eqn:Es; [|done].
      apply strip_prefix_Some in Es as ->. cbn in E. by injection E as -> ->.
    - intros Hrow. exists (tag ns ++ k0, r0). cbn. rewrite strip_prefix_app. split; [|done].
      apply rows_from_spec. split; [|done]. apply (cmp_prefix []). }
  rewrite lookup_list_to_map_iff; [apply Hin|]. intros k0 r0 r0' E1%Hin E2%Hin. congruence.
Qed.

(** Views are compared row by row. *)
Lemma view_ext now ns db m : (∀ k, unexpired now (row_of ns db k) = m !! k) → view now ns db = m.
Proof. intros E. apply map_eq. intros k. by rewrite view_lookup. Qed.

Lemma view_later now now' ns db : (now ≤ now')%Z → view now' ns db = tick now' (view now ns db).
Proof. intros. apply view_ext. intros k. rewrite tick_lookup, view_lookup. by rewrite unexpired_later. Qed.

Lemma view_default now ns db : view now ns (Some (default no_rows db)) = view now ns db.
Proof. apply view_ext. intros k. by rewrite row_of_default, view_lookup. Qed.

Lemma view_put now ns db k r :
  view now ns (Some (put_row (tag ns ++ k) r (default no_rows db))) =
    tick now (<[k := r]> (view now ns db)).
Proof.
  apply view_ext. intros k'. rewrite tick_lookup. cbn. rewrite row_at_put.
  destruct (decide (k = k')) as [->|Hne]; [by rewrite decide_True, lookup_insert_eq|].
  rewrite decide_False by (intros ?%app_inv_head; done).
  rewrite lookup_insert_ne, view_lookup, unexpired_later, <-row_of_default; done.
Qed.

Lemma view_drop now ns db k :
  view now ns (Some (drop_row (tag ns ++ k) (default no_rows db))) = delete k (view now ns db).
Proof.
  apply view_ext. intros k'. cbn. rewrite row_at_drop.
  destruct (decide (k = k')) as [->|Hne]; [by rewrite decide_True, lookup_delete_eq|].
  rewrite decide_False by (intros ?%app_inv_head; done).
  by rewrite lookup_delete_ne, view_lookup, <-row_of_default.
Qed.

(** Writing a row of another namespace changes nothing. *)
Lemma view_put_other now ns ns' db k r : issued ns → issued ns' → ns' ≠ ns →
  view now ns (Some (put_row (tag ns' ++ k) r (default no_rows db))) = view now ns db.
Proof.
  intros H1 H2 Hne. apply view_ext. intros k'. cbn. rewrite row_at_put.
  rewrite decide_False by (intros [? _]%tag_inj; done). by rewrite view_lookup, <-row_of_default.
Qed.
Lemma view_drop_other now ns ns' db k : issued ns → issued ns' → ns' ≠ ns →
  view now ns (Some (drop_row (tag ns' ++ k) (default no_rows db))) = view now ns db.
Proof.
  intros H1 H2 Hne. apply view_ext. intros k'. cbn. rewrite row_at_drop.
  rewrite decide_False by (intros [? _]%tag_inj; done). by rewrite view_lookup, <-row_of_default.
Qed.

(** * Faults *)

Definition undisturbed (env : Env) : Env := mkEnv (clock env) (λ _, None) false.

(** Under [env] a step gives what it gives undisturbed, or the error of a failed step. *)
Definition soft {A} (env : Env) (r r0 : kv A) : Prop :=
  r = r0 ∨ ∃ s text e, fault env s = Some text ∧ r = Err (BackendError e).

Lemma soft_same {A} env (r : kv A) : soft env r r.
Proof. by left. Qed.
Lemma soft_step env s what : soft env (at_step env s what) (Ok tt).
Proof. unfold at_step, redb_err. destruct (fault env s) eqn:E; [right; eauto|by left]. Qed.
Lemma soft_bind {A B} env (m m0 : kv A) (f f0 : A → kv B) :
  soft env m m0 → (∀ a, soft env (f a) (f0 a)) → soft env (m ≫= f) (m0 ≫= f0).
Proof.
  intros [->|(s & text & e & ? & ->)] Hf; [|right; by exists s, text, e].
  destruct m0 as [a|e]; cbn; [apply Hf|by left].
Qed.
Lemma soft_then {A} env s what (f f0 : kv A) :
  soft env f f0 → soft env (_ ← at_step env s what; f) f0.
Proof. intros Hf. apply (soft_bind env _ (Ok tt) _ (λ _, f0)); [apply soft_step|done]. Qed.

(** The ends of a call: undisturbed, failed without effect, or failed after its commit landed. *)
Definition ends_as {A} (env : Env) (db : Db) (r r0 : kv A * Db) : Prop :=
  r = r0 ∨
  (∃ s text e, fault env s = Some text ∧ r.1 = Err (BackendError e) ∧
    (r.2 = db ∨ (landed env = true ∧ r.2 = r0.2))).

Lemma read_txn_ends {A} env op (missing : A) body body0 db :
  (∀ t, soft env (body t) (body0 t)) →
  ends_as env db (read_txn env op missing body db) (read_txn (undisturbed env) op missing body0 db).
Proof.
  intros Hb. unfold read_txn. change (at_step (undisturbed env) _ _) with (@Ok KvError unit tt). cbn.
  match goal with |- ends_as _ _ (?r, _) (?r0, _) => assert (soft env r r0) as Hs end.
  { apply soft_then, soft_then. destruct db; [apply Hb|apply soft_same]. }
  destruct Hs as [->|(s & text & e & ? & ->)]; [by left|]. right. exists s, text, e. auto.
Qed.

Lemma write_txn_ends {A} env op (body body0 : T → kv (A * T)) db :
  (∀ t, soft env (body t) (body0 t)) →
  ends_as env db (write_txn env op body db) (write_txn (undisturbed env) op body0 db).
Proof.
  intros Hb. unfold write_txn. cbn.
  match goal with |- ends_as _ _ (match ?r with _ => _ end) _ =>
    assert (soft env r (body0 (default no_rows db))) as Hs by (by apply soft_then, soft_then) end.
  destruct Hs as [->|(s & text & e & ? & ->)]; [|right; exists s, text, e; auto].
  destruct (body0 _) as [[a t]|e]; [|by left]. unfold at_step.
  destruct (fault env Commit) as [text|] eqn:E; [|by left]. right. eexists Commit, text, _.
  split; [done|]. split; [done|]. cbn. destruct (landed env); auto.
Qed.

Lemma list_rows_soft env p strip limit n page last_ range :
  soft env (list_rows env p strip limit n page last_ range)
    (list_rows (undisturbed env) p strip limit n page last_ range).
Proof.
  revert n page last_. induction range as [|[k [v at_]] range IH]; intros n page last_; cbn;
    apply soft_then; [apply soft_same|].
  repeat (case_match; auto using soft_same).
Qed.

Lemma checked_ends {A} env check (call call0 : Db → kv A * Db) db :
  ends_as env db (call db) (call0 db) → ends_as env db (after_check check call db) (after_check check call0 db).
Proof. unfold after_check. destruct check; [done|by left]. Qed.
Lemma reply_ends {A} env (f : A → Reply) db (r r0 : kv A * Db) :
  ends_as env db r r0 → ends_as env db (reply f r) (reply f r0).
Proof.
  intros [->|(s & text & e & ? & E & Hdb)]; [by left|]. right. exists s, text, e.
  unfold reply. cbn. by rewrite E.
Qed.

(** A call under any faults ends as the undisturbed call does, or fails as a whole. *)
Lemma call_ends env ns c db : ends_as env db (kv_call env ns c db) (kv_call (undisturbed env) ns c db).
Proof.
  destruct c; cbn [kv_call]; apply reply_ends; try apply checked_ends;
    first [apply read_txn_ends|apply write_txn_ends]; intros t;
    repeat (cbv zeta; cbn [clock undisturbed]; apply soft_then || apply soft_same || case_match).
  - apply (soft_bind env _ (incremented _ _ _ _ _)); [apply soft_same|].
    intros [next at_]. apply soft_then, soft_same.
  - apply (soft_bind env _ (list_rows (undisturbed env) _ _ _ _ _ _ _)); [apply list_rows_soft|].
    intros [[??]?]. apply soft_same.
  - apply (soft_bind env _ (list_rows (undisturbed env) _ _ _ _ _ _ _)); [apply list_rows_soft|].
    intros [[??]?]. apply soft_same.
Qed.

(** * Listings *)

(** The keys [list] goes through. *)
Definition listed (now : Z) (p strip : bytes) (range : list (bytes * Row)) : list bytes :=
  omap (λ kr : bytes * Row,
    if starts_with kr.1 p && negb (is_expired kr.2.2 now) then strip_prefix strip kr.1 else None) range.

Lemma listed_none now p strip k r range :
  bset_wf (map fst ((k, r) :: range)) → cmp p k ≠ Gt → starts_with k p = false →
  listed now p strip ((k, r) :: range) = [].
Proof.
  intros [_ Hk]%StronglySorted_inv Hp Hs. unfold listed. cbn. rewrite Hs. cbn.
  rewrite Forall_forall in Hk. apply not_true_iff_false in Hs. rewrite starts_with_spec in Hs.
  assert (∀ kr, kr ∈ range → starts_with kr.1 p = false) as Hr.
  { intros [k' r'] Hin. apply not_true_iff_false. rewrite starts_with_spec. intros Hpre.
    apply Hs, (prefix_interval p k k'); [done| |done]. apply Hk, list_elem_of_fmap. by exists (k', r'). }
  clear Hk. induction range as [|kr range IH]; [done|]. cbn. rewrite Hr by left. cbn.
  apply IH. intros ??. apply Hr. by right.
Qed.

Lemma list_rows_quiet env p strip limit n page last_ range :
  (Z.of_nat (length page) ≤ limit)%Z → bset_wf (map fst range) →
  Forall (λ kr : bytes * Row, cmp p kr.1 ≠ Gt) range →
  let keys := listed (clock env) p strip range in
  let more := take (Z.to_nat limit - length page) keys in
  list_rows (undisturbed env) p strip limit n page last_ range =
    Ok (page ++ more, from_option Some last_ (last more),
        (limit <? Z.of_nat (length page + length keys))%Z).
Proof.
  revert n page last_. induction range as [|[k [v at_]] range IH]; intros n page last_ Hl Hw Hp; cbn zeta.
  { cbn. rewrite take_nil, app_nil_r. cbn. do 2 f_equal. symmetry. apply Z.ltb_ge. lia. }
  apply Forall_cons in Hp as [Hk Hp]. pose proof Hw as [Hw' _]%StronglySorted_inv. cbn [map fst] in Hw'.
  destruct (starts_with k p) eqn:Es.
  2: { rewrite (listed_none _ _ _ _ _ _ Hw Hk Es). cbn. rewrite Es, take_nil, app_nil_r. cbn.
       do 2 f_equal. symmetry. apply Z.ltb_ge. lia. }
  cbn [list_rows listed omap list_omap fst snd clock undisturbed]. rewrite Es. cbn [negb andb].
  destruct (is_expired at_ (clock env)); cbn [negb]; [by apply IH|].
  destruct (strip_prefix strip k) as [u|]; [|by apply IH]. cbn.
  fold (listed (clock env) p strip range). set (keys := listed _ _ _ range) in *.
  destruct (Z.eqb_spec (Z.of_nat (length page)) limit) as [El|Hne].
  - replace (Z.to_nat limit - length page) with 0 by lia. cbn. rewrite app_nil_r.
    do 2 f_equal. symmetry. apply Z.ltb_lt. lia.
  - rewrite IH; [|rewrite length_app; cbn; lia|done..].
    rewrite length_app. cbn [length].
    replace (Z.to_nat limit - length page) with (S (Z.to_nat limit - (length page + 1))) by lia.
    cbn [take]. rewrite <-app_assoc. cbn [app]. f_equal. f_equal; [f_equal|].
    + rewrite last_cons. by destruct (last (take _ keys)).
    + do 2 f_equal. lia.
Qed.

Definition start_of (ns : Namespace) (prefix : bytes) (cursor : option bytes) : Bound :=
  match cursor with
  | Some c => Excluded (scope (as_str ns) c)
  | None => Included (scope (as_str ns) prefix)
  end.

Lemma elem_of_sorted_keys m k : k ∈ sorted_keys m ↔ is_Some (m !! k).
Proof.
  unfold sorted_keys. rewrite elem_of_bset_of, list_elem_of_fmap. split.
  - intros ([k' r] & -> & Hin%elem_of_map_to_list). by exists r.
  - intros [r Hr]. exists (k, r). by rewrite elem_of_map_to_list.
Qed.

(** The keys gone through are the live ones under the prefix after the cursor, in order. *)
Lemma listed_keys now ns prefix cursor db :
  listed now (scope (as_str ns) prefix) (tag ns) (rows_from (start_of ns prefix cursor) (default no_rows db)) =
    List.filter (λ k, starts_with k prefix && past_cursor cursor k) (sorted_keys (view now ns db)).
Proof.
  set (t := default no_rows db). set (range := rows_from _ t).
  apply bset_ext; [|apply bset_filter_wf, bset_of_wf|].
  - pose proof (rows_from_sorted (start_of ns prefix cursor) t) as Hs. fold range in Hs.
    unfold bset_wf in *. induction range as [|[k r] range IH]; [constructor|].
    apply StronglySorted_inv in Hs as [Hs Hk]. unfold listed. cbn.
    destruct (_ && _); [|by apply IH]. destruct (strip_prefix (tag ns) k) as [u|] eqn:Eu; [|by apply IH].
    constructor; [by apply IH|]. apply Forall_forall. intros u' ([k' r'] & Hin & E)%list_elem_of_omap.
    destruct (_ && _); [|done]. apply strip_prefix_Some in E, Eu. cbn in E. subst.
    rewrite <-(cmp_app (tag ns)). rewrite Forall_forall in Hk.
    apply Hk, list_elem_of_fmap. by exists (tag ns ++ u', r').
  - intros k. rewrite elem_of_lfilter, elem_of_sorted_keys, andb_true_iff. unfold listed.
    rewrite list_elem_of_omap. split.
    + intros ([key [v at_]] & Hin & E). cbn in E.
      destruct (starts_with key _) eqn:Es; [|done]. destruct (is_expired at_ now) eqn:Ex; [done|]. cbn in E.
      apply strip_prefix_Some in E as ->. apply rows_from_spec in Hin as [Hab Hrow].
      apply starts_with_spec in Es. rewrite scope_tag in Es. apply prefix_app_inv in Es.
      split; [|split; [by apply starts_with_spec|]].
      * exists (v, at_). rewrite view_lookup, <-row_of_default. cbn. fold t. rewrite Hrow. cbn. by rewrite Ex.
      * destruct cursor as [c|]; [|done]. apply bool_decide_eq_true. cbn in Hab.
        by rewrite scope_tag, cmp_app in Hab.
    + intros ([[v at_] Hv] & Hpre & Hcur). rewrite view_lookup, <-row_of_default in Hv.
      apply unexpired_Some in Hv as [Hrow Hx]. cbn in Hrow, Hx. exists (tag ns ++ k, (v, at_)).
      assert (starts_with (tag ns ++ k) (scope (as_str ns) prefix) = true) as Hs.
      { apply starts_with_spec. rewrite scope_tag. by apply prefix_app, starts_with_spec. }
      cbn. rewrite Hs, Hx, strip_prefix_app. split; [|done]. apply rows_from_spec. split; [|done].
      destruct cursor as [c|]; cbn; rewrite scope_tag, cmp_app; [by apply bool_decide_eq_true in Hcur|].
      apply starts_with_spec in Hpre as [w ->]. apply cmp_prefix.
Qed.

Lemma normalize_list_limit_pos l : (0 ≤ l)%Z → (0 < normalize_list_limit l)%Z.
Proof.
  unfold normalize_list_limit, LIST_DEFAULT_LIMIT, LIST_MAX_LIMIT.
  destruct (Z.eqb_spec l 0); lia.
Qed.

Lemma list_quiet env ns prefix cursor limit db : cursor_ok prefix cursor → (0 ≤ limit)%Z →
  redb_list (undisturbed env) (as_str ns) prefix cursor limit db =
    (Ok (page_of (view (clock env) ns db) prefix cursor limit), db).
Proof.
  intros Hc Hl. unfold redb_list, read_txn. cbn [at_step undisturbed fault mbind result_bind clock].
  pose proof (listed_keys (clock env) ns prefix cursor db) as Hk. f_equal.
  assert (∀ t, default no_rows db = t →
    ('(page, last_scoped, any_remaining) ←
       list_rows (undisturbed env) (scope (as_str ns) prefix) (tag ns) limit 0 [] None
         (rows_from (start_of ns prefix cursor) t);
     Ok (page, if (Z.of_nat (length page) =? limit)%Z && any_remaining then last_scoped else None)) =
    Ok (page_of (view (clock env) ns db) prefix cursor limit)) as Hlist.
  { intros t Ht. rewrite Ht in Hk. rewrite list_rows_quiet; [|cbn; lia|apply rows_from_sorted|].
    - rewrite Hk. cbn. unfold page_of. set (keys := List.filter _ _). rewrite Nat.sub_0_r.
      do 2 f_equal. destruct (Z.ltb_spec limit (Z.of_nat (length keys))); [|by rewrite andb_false_r].
      rewrite length_take_le by lia. rewrite Z2Nat.id, Z.eqb_refl by lia. cbn. by destruct (last _).
    - apply Forall_forall. intros [k r] [Hab _]%rows_from_spec. cbn. destruct cursor as [c|]; [|done].
      cbn in Hab. apply (cmp_le_trans _ (scope (as_str ns) c)); [|by rewrite Hab].
      by rewrite !scope_tag, cmp_app. }
  destruct db as [t|]; [by apply (Hlist t)|]. specialize (Hlist no_rows eq_refl). rewrite <-Hlist.
  destruct (rows_from _ no_rows) as [|[k r] range] eqn:E; [cbn; by rewrite andb_false_r|].
  assert ((k, r) ∈ (k, r) :: range) as Hin by left. rewrite <-E in Hin.
  apply rows_from_spec in Hin as [_ Hin]. by rewrite row_at_none in Hin.
Qed.

(** * One call *)

Lemma row_view now ns db k :
  unexpired now (row_at (default no_rows db) (scope (as_str ns) k)) = view now ns db !! k.
Proof. by rewrite view_lookup, <-row_of_default, scope_tag. Qed.

Lemma tick_view now ns db : tick now (view now ns db) = view now ns db.
Proof. symmetry. by apply view_later. Qed.

(** The operations undisturbed, in terms of the live keys. *)
Section quiet_ops.
Context (env : Env) (ns : Namespace) (db : Db).
Let now := clock env.
Let t := default no_rows db.
Let m := view now ns db.

(** The row of a key as stored, split by whether it is live. *)
Lemma stored_row k :
  (m !! k = row_at t (scope (as_str ns) k) ∧ ∀ r, m !! k = Some r → is_expired r.2 now = false) ∨
  (m !! k = None ∧ ∃ r, row_at t (scope (as_str ns) k) = Some r ∧ is_expired r.2 now = true).
Proof.
  unfold m. rewrite <-row_view. fold t.
  destruct (row_at t (scope (as_str ns) k)) as [r|] eqn:E; cbn; [|by left].
  destruct (is_expired r.2 now) eqn:Ex; [right; eauto|]. left. by split; [|intros ? [= <-]].
Qed.

Lemma get_quiet k : redb_get (undisturbed env) (as_str ns) k db = (Ok (fst <$> m !! k), db).
Proof.
  unfold redb_get, read_txn. cbn. f_equal. destruct (stored_row k) as [[E Hx]|(E & r & Er & Hx)].
  - destruct db as [t'|]; cbn in *; [|by rewrite E, row_at_none]. rewrite <-E.
    destruct (m !! k) as [[v at_]|] eqn:Em; [|done]. specialize (Hx _ eq_refl). cbn in *.
    fold now; by rewrite Hx.
  - rewrite E. destruct db as [t'|]; cbn in *; [|by rewrite row_at_none in Er]. rewrite Er.
    destruct r as [v at_]. cbn in *. fold now; by rewrite Hx.
Qed.

Lemma ttl_quiet k : redb_ttl (undisturbed env) (as_str ns) k db =
  (Ok match m !! k with
      | None => Missing
      | Some (_, None) => NoExpiry
      | Some (_, Some at_) => ExpiresInMs (at_ - now)
      end, db).
Proof.
  unfold redb_ttl, read_txn. cbn. f_equal. destruct (stored_row k) as [[E Hx]|(E & r & Er & Hx)].
  - destruct db as [t'|]; cbn in *; [|by rewrite E, row_at_none]. rewrite <-E.
    destruct (m !! k) as [[v [at_|]]|] eqn:Em; [|done..]. specialize (Hx _ eq_refl). cbn in *.
    fold now; by rewrite Hx.
  - rewrite E. destruct db as [t'|]; cbn in *; [|by rewrite row_at_none in Er]. rewrite Er.
    destruct r as [v [at_|]]; cbn in *; [fold now; by rewrite Hx|done].
Qed.

Lemma delete_quiet k : redb_delete (undisturbed env) (as_str ns) k db =
  (Ok (bool_decide (is_Some (m !! k))), Some (drop_row (scope (as_str ns) k) t)).
Proof.
  unfold redb_delete, write_txn. cbn. f_equal. f_equal. fold t now.
  destruct (stored_row k) as [[E Hx]|(E & r & Er & Hx)].
  - rewrite <-E. destruct (m !! k) as [r|] eqn:Em; [|done]. rewrite (Hx _ eq_refl). by rewrite bool_decide_true.
  - rewrite E, Er, Hx. done.
Qed.

Lemma incr_quiet k d ttl : redb_incr (undisturbed env) (as_str ns) k d ttl db =
  match count_of (m !! k) with
  | None => (Err (NonNumeric (lit "kv: incr on non-numeric value for key '" ++ k ++ lit "'")), db)
  | Some n =>
      if bool_decide (i64_min ≤ n + d ≤ i64_max)%Z then
        (Ok (n + d)%Z, Some (put_row (scope (as_str ns) k)
                               (i64_to_string (n + d), deadline_of now ttl (m !! k)) t))
      else (Err (incr_overflow k), db)
  end.
Proof.
  assert (∀ a b, checked_add a b = if bool_decide (i64_min ≤ a + b ≤ i64_max)%Z then Some (a + b)%Z else None) as Hadd.
  { intros a b. unfold checked_add. destruct (Z.leb_spec i64_min (a + b)), (Z.leb_spec (a + b) i64_max); cbn;
      (rewrite bool_decide_true by lia; done) || (rewrite bool_decide_false by lia; done). }
  unfold redb_incr, write_txn. cbn [undisturbed at_step fault mbind result_bind clock]. rewrite row_view. fold now m t.
  unfold incremented, count_of. destruct (m !! k) as [[v at_]|].
  - destruct (parse_i64 v) as [n|]; cbn [ok_or mbind result_bind]; [|done]. rewrite Hadd. by case_bool_decide.
  - rewrite Hadd. by case_bool_decide.
Qed.

Lemma set_if_absent_quiet k v ttl : redb_set_if_absent (undisturbed env) (as_str ns) k v ttl db =
  match m !! k with
  | Some _ => (Ok false, Some t)
  | None => (Ok true, Some (put_row (scope (as_str ns) k) (v, expires_after now ttl) t))
  end.
Proof.
  unfold redb_set_if_absent, write_txn. cbn [undisturbed at_step fault mbind result_bind clock]. fold t.
  destruct (stored_row k) as [[E Hx]|(E & [v0 at_] & Er & Hx)].
  - rewrite <-E. destruct (m !! k) as [[v0 at_]|] eqn:Em; [|done]. specialize (Hx _ eq_refl). cbn in Hx.
    cbn zeta. fold now. by rewrite Hx.
  - rewrite E, Er. cbn in Hx. cbn zeta. fold now. by rewrite Hx.
Qed.

Lemma expire_quiet k ttl : redb_expire (undisturbed env) (as_str ns) k ttl db =
  match m !! k with
  | Some (v, _) => (Ok true, Some (put_row (scope (as_str ns) k) (v, Some (saturating_add now ttl)) t))
  | None => (Ok false, Some t)
  end.
Proof.
  unfold redb_expire, write_txn. cbn [undisturbed at_step fault mbind result_bind clock]. rewrite row_view. fold now m t.
  by destruct (m !! k) as [[v at_]|].
Qed.

Lemma persist_quiet k : redb_persist (undisturbed env) (as_str ns) k db =
  match m !! k with
  | Some (v, Some _) => (Ok true, Some (put_row (scope (as_str ns) k) (v, None) t))
  | _ => (Ok false, Some t)
  end.
Proof.
  unfold redb_persist, write_txn. cbn [undisturbed at_step fault mbind result_bind clock]. fold t.
  destruct (stored_row k) as [[E Hx]|(E & [v0 at_] & Er & Hx)].
  - rewrite <-E. destruct (m !! k) as [[v0 at_]|] eqn:Em; [|done]. specialize (Hx _ eq_refl). cbn in Hx.
    cbn zeta. fold now. rewrite Hx. by destruct at_.
  - rewrite E, Er. cbn in Hx. cbn zeta. fold now. by rewrite Hx.
Qed.
End quiet_ops.

(** An undisturbed call does to the live keys of its namespace what the contract says. *)
Lemma call_quiet env ns c db : call_ok c →
  ∃ m, keyspace_call (clock env) c (view (clock env) ns db) = ((kv_call (undisturbed env) ns c db).1, m) ∧
    view (clock env) ns (kv_call (undisturbed env) ns c db).2 = tick (clock env) m.
Proof.
  intros Hc. destruct c; unfold keyspace_call; cbn [kv_call];
    unfold kv_get, kv_set, kv_delete, kv_incr, kv_set_if_absent, kv_expire, kv_ttl, kv_persist, kv_list,
      after_check; cbn [call_check];
    try (match goal with |- context [match ?chk with Ok _ => _ | Err _ => _ end] => 
      destruct chk; [|eexists; by rewrite tick_view] end);
    cbn [be_get be_set be_delete be_incr be_set_if_absent be_expire be_ttl be_persist be_list RedbBackend].
  - rewrite get_quiet. eexists. by rewrite tick_view.
  - eexists. split; [done|]. cbn. by rewrite scope_tag, view_put.
  - rewrite delete_quiet. eexists. split; [done|]. cbn. by rewrite scope_tag, view_drop, tick_delete, tick_view.
  - rewrite incr_quiet. cbn [keyspace_op]. destruct (count_of _); [|eexists; by rewrite tick_view].
    case_bool_decide; [|eexists; by rewrite tick_view].
    eexists. split; [done|]. cbn. by rewrite scope_tag, view_put.
  - rewrite set_if_absent_quiet. cbn [keyspace_op].
    destruct (_ !! key); eexists; (split; [done|]); cbn; [by rewrite view_default, tick_view|].
    by rewrite scope_tag, view_put.
  - rewrite expire_quiet. cbn [keyspace_op].
    destruct (_ !! key) as [[v at_]|]; eexists; (split; [done|]); cbn; [|by rewrite view_default, tick_view].
    by rewrite scope_tag, view_put.
  - rewrite ttl_quiet. eexists. by rewrite tick_view.
  - rewrite persist_quiet. cbn [keyspace_op].
    destruct (_ !! key) as [[v [at_|]]|]; eexists; (split; [done|]); cbn; [|by rewrite view_default, tick_view..].
    by rewrite scope_tag, view_put.
  - destruct Hc as [Hc Hl%normalize_list_limit_pos]. rewrite list_quiet by (done || lia). cbn [keyspace_op].
    destruct (page_of _ _ _ _) as [page next]. eexists. by rewrite tick_view.
Qed.

(** An undisturbed call leaves the table alone, or writes or drops one row of its namespace. *)
Lemma call_writes env ns c db :
  let t := default no_rows db in
  let db' := (kv_call (undisturbed env) ns c db).2 in
  db' = db ∨ db' = Some t ∨ (∃ k r, db' = Some (put_row (tag ns ++ k) r t)) ∨
  (∃ k, db' = Some (drop_row (tag ns ++ k) t)).
Proof.
  cbn zeta. destruct c; cbn [kv_call];
    unfold kv_get, kv_set, kv_delete, kv_incr, kv_set_if_absent, kv_expire, kv_ttl, kv_persist, kv_list,
      after_check; cbn [reply snd];
    try (match goal with |- context [match ?chk with Ok _ => _ | Err _ => _ end] =>
      destruct chk; [|by left] end);
    cbn [be_get be_set be_delete be_incr be_set_if_absent be_expire be_ttl be_persist be_list RedbBackend].
  - by left.
  - right; right; left. cbn. rewrite scope_tag. eauto.
  - rewrite delete_quiet, scope_tag. eauto.
  - rewrite incr_quiet, scope_tag. destruct (count_of _); [|by left]. case_bool_decide; [|by left]. cbn. eauto 6.
  - rewrite set_if_absent_quiet, scope_tag. destruct (_ !! key); cbn; eauto 6.
  - rewrite expire_quiet, scope_tag. destruct (_ !! key) as [[v at_]|]; cbn; eauto 6.
  - by left.
  - rewrite persist_quiet, scope_tag. destruct (_ !! key) as [[v [at_|]]|]; cbn; eauto 6.
  - by left.
Qed.

Lemma call_other env ns ns' c db now : issued ns → issued ns' → ns' ≠ ns →
  view now ns (kv_call env ns' c db).2 = view now ns db.
Proof.
  intros H1 H2 Hne.
  assert (view now ns (kv_call (undisturbed env) ns' c db).2 = view now ns db) as Hq.
  { destruct (call_writes env ns' c db) as [->|[->|[(k & r & ->)|(k & ->)]]];
      auto using view_default, view_put_other, view_drop_other. }
  by destruct (call_ends env ns' c db) as [->|(s & text & e & ? & ? & [->|[? ->]])].
Qed.

Lemma call_serves env ns c db : call_ok c →
  ∃ m, serves env c (view (clock env) ns db) (kv_call env ns c db).1 m ∧
    view (clock env) ns (kv_call env ns c db).2 = tick (clock env) m.
Proof.
  intros Hc. destruct (call_quiet env ns c db Hc) as (m & Hm & Hv).
  destruct (call_ends env ns c db) as [->|(s & text & e & Hf & -> & [->|[Hl ->]])].
  - exists m. split; [by constructor|done].
  - exists (view (clock env) ns db). split; [by econstructor|]. by rewrite tick_view.
  - exists m. split; [|done]. replace m with (keyspace_call (clock env) c (view (clock env) ns db)).2
      by (by rewrite Hm). by econstructor.
Qed.

(** * Histories *)

Lemma run_serves t ns db m0 calls :
  issued ns → Forall (λ call, issued call.1.2 ∧ call_ok call.2) calls → clocks_from t calls →
  view t ns db = tick t m0 →
  ∃ m, serves_all ns m0 calls (kv_run calls db).1 m ∧
    view (last_clock t calls) ns (kv_run calls db).2 = tick (last_clock t calls) m.
Proof.
  intros Hns Hcalls. revert t db m0.
  induction Hcalls as [|[[env ns'] c] calls [Hns' Hc] _ IH]; intros t db m0 Ht Hv; cbn.
  { exists m0. split; [constructor|done]. }
  destruct Ht as [Hle Ht]. cbn in Hns', Hc.
  destruct (kv_call env ns' c db) as [r db1] eqn:E1. destruct (kv_run calls db1) as [rs db2] eqn:E2. cbn.
  assert (view (clock env) ns db = tick (clock env) m0) as Hv0.
  { rewrite (view_later t), Hv by done. by apply tick_later. }
  destruct (decide (ns' = ns)) as [->|Hne].
  - destruct (call_serves env ns c db Hc) as (m1 & Hs & Hv1). rewrite E1 in Hs, Hv1. cbn in Hs, Hv1.
    destruct (IH (clock env) db1 m1 Ht Hv1) as (m & Hall & Hend). rewrite E2 in Hall, Hend.
    exists m. split; [|done]. rewrite Hv0 in Hs. by econstructor.
  - pose proof (call_other env ns ns' c db (clock env) Hns Hns' Hne) as Ho. rewrite E1 in Ho. cbn in Ho.
    destruct (IH (clock env) db1 m0 Ht) as (m & Hall & Hend); [by rewrite Ho|].
    rewrite E2 in Hall, Hend. exists m. split; [by constructor|done].
Qed.

End store.
