(* ===== verification/KvClients.v ===== *)
(** What applications build on the store: listings that follow cursors while others write
    ([listing_complete]), locks that end by themselves ([absent_set_locks]) and fixed-window
    counters ([counter_window]). Each is proved from the contract of [KvFacts]. *)

From stdpp Require Import gmap.
From S2P Require Import Prelude RustStd Kv KvFacts.

(** * Pages *)

Lemma lt_irrefl (a : bytes) : cmp a a ≠ Lt.
Proof. by rewrite cmp_refl. Qed.

Lemma sorted_take_last (l : list bytes) n c : bset_wf l → last (take n l) = Some c →
  c ∈ take n l ∧ (∀ k, k ∈ take n l → k = c ∨ cmp k c = Lt) ∧ (∀ k, k ∈ drop n l → cmp c k = Lt).
Proof.
  unfold bset_wf. revert n. induction l as [|x l IH]; intros [|n] Hs Hl; try done.
  apply StronglySorted_inv in Hs as [Hs Hx]. rewrite Forall_forall in Hx.
  cbn [take drop] in *. rewrite last_cons in Hl. destruct (last (take n l)) as [c'|] eqn:E.
  - simplify_eq. destruct (IH n Hs E) as (Hin & Hle & Hgt). split; [by right|]. split; [|done].
    intros k [->|Hk]%elem_of_cons; [|auto]. right. apply Hx. by apply elem_of_take in Hin as (i & ?%list_elem_of_lookup_2 & ?).
  - simplify_eq. apply last_None in E. rewrite E. split; [left|]. split; [set_solver|].
    intros k Hk. apply Hx. rewrite <-(take_drop n l), E. done.
Qed.

Lemma bset_take_wf (l : list bytes) n : bset_wf l → bset_wf (take n l).
Proof.
  unfold bset_wf. intros Hs. revert n. induction Hs as [|x l Hs IH Hx]; intros [|n]; cbn; try by constructor.
  constructor; [done|]. rewrite Forall_forall in Hx |- *. intros k Hk. apply Hx.
  by apply elem_of_take in Hk as (i & ?%list_elem_of_lookup_2 & ?).
Qed.

Lemma sorted_nodup (l : list bytes) : bset_wf l → NoDup l.
Proof.
  induction 1 as [|x l Hs IH Hx]; constructor; [|done]. intros Hin. rewrite Forall_forall in Hx.
  by apply (lt_irrefl x), Hx.
Qed.

(** A key a listing from a cursor still has to return. *)
Definition ahead (m : Keyspace) (prefix : bytes) (cursor : option bytes) (k : bytes) : Prop :=
  is_Some (m !! k) ∧ prefix `prefix_of` k ∧ past_cursor cursor k = true.

(** A page holds keys ahead, in order; without a cursor it holds all of them, and with one it
    is full, ends with the cursor and leaves what comes after it. *)
Lemma page_of_spec m prefix cursor limit page next :
  (0 < limit)%Z → page_of m prefix cursor limit = (page, next) →
  bset_wf page ∧ (∀ k, k ∈ page → ahead m prefix cursor k) ∧
  match next with
  | None => ∀ k, ahead m prefix cursor k → k ∈ page
  | Some c => Z.of_nat (length page) = limit ∧ c ∈ page ∧ (∀ k, k ∈ page → k = c ∨ cmp k c = Lt) ∧
      (∀ k, ahead m prefix cursor k → k ∈ page ∨ cmp c k = Lt) ∧
      ∃ k, ahead m prefix cursor k ∧ cmp c k = Lt
  end.
Proof.
  intros Hl. unfold page_of. set (keys := List.filter _ _).
  assert (bset_wf keys) as Hw by apply bset_filter_wf, bset_of_wf.
  assert (∀ k, k ∈ keys ↔ ahead m prefix cursor k) as Hkeys.
  { intros k. unfold keys, ahead. rewrite elem_of_lfilter, elem_of_sorted_keys, andb_true_iff, starts_with_spec.
    naive_solver. }
  intros [= <- <-]. split; [by apply bset_take_wf|]. split.
  { intros k Hk. apply Hkeys. by apply elem_of_take in Hk as (i & ?%list_elem_of_lookup_2 & ?). }
  destruct (Z.ltb_spec limit (Z.of_nat (length keys))) as [Hlt|Hge].
  2: { intros k Hk%Hkeys. by rewrite take_ge by lia. }
  destruct (last (take (Z.to_nat limit) keys)) as [c|] eqn:El.
  2: { apply last_None in El. apply (f_equal length) in El. rewrite length_take_le in El by lia. cbn in El. lia. }
  destruct (sorted_take_last keys _ c Hw El) as (Hc & Hle & Hgt).
  split; [rewrite length_take_le by lia; lia|]. do 2 (split; [done|]). split.
  - intros k Hk%Hkeys. rewrite <-(take_drop (Z.to_nat limit) keys) in Hk.
    apply elem_of_app in Hk as [|]; auto.
  - destruct (drop (Z.to_nat limit) keys) as [|k rest] eqn:Ed.
    { apply (f_equal length) in Ed. rewrite length_drop in Ed. cbn in Ed. lia. }
    exists k. split; [|apply Hgt; left]. apply Hkeys.
    rewrite <-(take_drop (Z.to_nat limit) keys), Ed. apply elem_of_app. right. left.
Qed.

Section clients.
Context {T : Type} `{RedbTableLaws T}.
Notation Db := (option T).

Lemma kv_list_quiet env ns prefix cursor limit (db : Db) : cursor_ok prefix cursor → (0 ≤ limit)%Z →
  kv_list (undisturbed env) ns prefix cursor limit db =
    (Ok (page_of (view (clock env) ns db) prefix cursor (normalize_list_limit limit)), db).
Proof. intros ? Hl%normalize_list_limit_pos. apply list_quiet; [done|lia]. Qed.

(** * Listings *)

(** Following the cursors of [list] until there is none, when the store is in the states
    given at the times of the calls; [None] if these run out. *)
Fixpoint follow (ns : Namespace) (prefix : bytes) (limit : Z) (cursor : option bytes)
    (states : list (Env * Db)) : option (list bytes) :=
  match states with
  | [] => None
  | (env, db) :: states' =>
      match (kv_list (undisturbed env) ns prefix cursor limit db).1 with
      | Ok (page, None) => Some page
      | Ok (page, Some c) => rest ← follow ns prefix limit (Some c) states'; Some (page ++ rest)
      | Err _ => None
      end
  end.

(** The live keys when the store is in a state. *)
Definition live_in (ns : Namespace) (st : Env * Db) : Keyspace := view (clock st.1) ns st.2.

Lemma past_trans (cursor : option bytes) (c k : bytes) :
  past_cursor cursor c = true → cmp c k = Lt → past_cursor cursor k = true.
Proof.
  destruct cursor as [c0|]; cbn; [|done]. rewrite !bool_decide_eq_true. apply cmp_trans.
Qed.

(** What is left of a set of keys after a page of it that ends with [c], when a key is. *)
Lemma page_shrinks (all : gset bytes) (page : list bytes) (c k0 : bytes) :
  bset_wf page → (∀ k, k ∈ page → k = c ∨ cmp k c = Lt) → (∀ k, k ∈ page → k ∈ all) →
  cmp c k0 = Lt → k0 ∈ all →
  size (filter (λ k, cmp c k = Lt) all) + length page ≤ size all ∧ 0 < size (filter (λ k, cmp c k = Lt) all).
Proof.
  intros Hw Hle Hall Hlt Hk0. set (rest := filter _ all). split.
  - rewrite <-(size_list_to_set (C:=gset bytes) page) by (by apply sorted_nodup).
    rewrite <-size_union; [apply subseteq_size|].
    + intros k [[_ ?]%elem_of_filter|Hk%elem_of_list_to_set]%elem_of_union; auto.
    + intros k [Hk _]%elem_of_filter Hk'%elem_of_list_to_set.
      destruct (Hle k Hk') as [->|Hkc]; [by apply (lt_irrefl c)|]. apply (lt_irrefl c). by eapply cmp_trans.
  - assert (k0 ∈ rest) as Hin by (by apply elem_of_filter).
    destruct (decide (size rest = 0)) as [E|]; [|lia]. apply size_empty_inv in E. by apply E, elem_of_empty in Hin.
Qed.

Lemma follow_complete (ns : Namespace) (prefix : bytes) (limit : Z) (cursor : option bytes)
    (states : list (Env * Db)) (all : gset bytes) :
  (0 ≤ limit)%Z → cursor_ok prefix cursor → states ≠ [] →
  (∀ st k, st ∈ states → ahead (live_in ns st) prefix cursor k → k ∈ all) →
  (∀ k, k ∈ all → past_cursor cursor k = true) →
  (Z.of_nat (size all) ≤ Z.of_nat (length states) * normalize_list_limit limit)%Z →
  ∃ keys, follow ns prefix limit cursor states = Some keys ∧ bset_wf keys ∧
    (∀ k, k ∈ keys → ∃ st, st ∈ states ∧ ahead (live_in ns st) prefix cursor k) ∧
    (∀ k, (∀ st, st ∈ states → ahead (live_in ns st) prefix cursor k) → k ∈ keys).
Proof.
  intros Hl. pose proof (normalize_list_limit_pos limit Hl) as Hpos. revert cursor all.
  induction states as [|[env db] states IH]; intros cursor all Hc Hne Hall Hpast Hsize; [done|].
  cbn [follow]. rewrite kv_list_quiet by done. cbn [fst].
  destruct (page_of _ _ _ _) as [page next] eqn:Ep.
  apply page_of_spec in Ep as (Hw & Hpage & Hnext); [|done]. fold (live_in ns (env, db)) in *.
  destruct next as [c|].
  2: { exists page. split; [done|]. split; [done|]. split.
       - intros k Hk. exists (env, db). split; [left|by apply Hpage].
       - intros k Hk. apply Hnext, (Hk (env, db)). left. }
  destruct Hnext as (Hlen & Hcp & Hle & Hcover & k0 & Hk0 & Hck0).
  assert (∀ st k, st ∈ states → ahead (live_in ns st) prefix (Some c) k →
    ahead (live_in ns st) prefix cursor k ∧ cmp c k = Lt) as Hstep.
  { intros st k Hst (Hlive & Hpre & Hk). cbn in Hk. apply bool_decide_eq_true in Hk.
    split; [|done]. split; [done|]. split; [done|]. apply (past_trans _ c); [|done]. by apply Hpage. }
  set (rest := filter (λ k, cmp c k = Lt) all).
  destruct (page_shrinks all page c k0) as [Hcount Hrest]; [done|done| |done|by apply (Hall (env, db)); [left|]|].
  { intros k Hk. apply (Hall (env, db)); [left|by apply Hpage]. }
  fold rest in Hcount, Hrest.
  cbn [length] in Hsize.
  destruct (IH (Some c) rest) as (keys & Ek & Hkw & Hin & Hcov).
  - cbn. destruct (Hpage c Hcp) as (_ & [w ->] & _). apply cmp_prefix.
  - intros ->. cbn in Hsize. nia.
  - intros st k Hst Hk. destruct (Hstep st k Hst Hk). apply elem_of_filter. split; [done|].
    apply (Hall st); [by right|done].
  - intros k [? _]%elem_of_filter. cbn. by apply bool_decide_eq_true.
  - nia.
  - rewrite Ek. cbn. exists (page ++ keys). split; [done|]. split; [|split].
    + apply StronglySorted_app. split; [|done].
      intros x y Hx (st & _ & _ & _ & Hy)%Hin. cbn in Hy. apply bool_decide_eq_true in Hy.
      destruct (Hle x Hx) as [->|]; [done|]. by eapply cmp_trans.
    + intros k [Hk|Hk]%elem_of_app; [exists (env, db); split; [left|by apply Hpage]|].
      destruct (Hin k Hk) as (st & Hst & Ha). exists st. split; [by right|]. by apply Hstep.
    + intros k Hk. apply elem_of_app. destruct (Hcover k) as [|Hlt]; [apply (Hk (env, db)); left|by left|]. right.
      apply Hcov. intros st Hst. destruct (Hk st) as (? & ? & _); [by right|]. split; [done|].
      split; [done|]. cbn. by apply bool_decide_eq_true.
Qed.


(** * Rows other calls leave alone *)

(** Calls that may change the value or the deadline of a live key. *)
Definition touches (k : bytes) (c : Call) : bool :=
  match c with
  | CSet k' _ _ | CDelete k' | CIncr k' _ _ | CExpire k' _ => bool_decide (k' = k)
  | _ => false
  end.

(** What a call that does not touch it leaves of a live key. *)
Lemma keyspace_keeps now c m k v at_ :
  m !! k = Some (v, at_) → touches k c = false →
  (keyspace_call now c m).2 !! k = Some (v, at_) ∨
  (c = CPersist k ∧ (keyspace_call now c m).2 !! k = Some (v, None)).
Proof.
  intros Hk Ht. unfold keyspace_call. destruct (call_check c); [|by left].
  destruct c; cbn in *; try apply bool_decide_eq_false in Ht; try by left.
  - left. by rewrite lookup_insert_ne.
  - left. by rewrite lookup_delete_ne.
  - left. destruct (count_of _); [|done]. case_bool_decide; [|done]. cbn. by rewrite lookup_insert_ne.
  - left. destruct (m !! key) eqn:E; [done|]. cbn. rewrite lookup_insert_ne; [done|]. congruence.
  - left. destruct (m !! key) as [[??]|] eqn:E; [|done]. cbn. by rewrite lookup_insert_ne.
  - destruct (decide (key = k)) as [->|Hne].
    + rewrite Hk. destruct at_; [right|by left]. split; [done|]. cbn. by rewrite lookup_insert_eq.
    + left. destruct (m !! key) as [[? [?|]]|]; [|done..]. cbn. by rewrite lookup_insert_ne.
Qed.

Lemma row_view_live now ns db k r :
  row_of ns db k = Some r → is_expired r.2 now = false → view now ns db !! k = Some r.
Proof. intros E Hx. rewrite view_lookup, E. cbn. by rewrite Hx. Qed.
Lemma view_row_live now ns db k r : view now ns db !! k = Some r → row_of ns db k = Some r.
Proof. rewrite view_lookup. by intros [? _]%unexpired_Some. Qed.
Lemma tick_live now m k r : m !! k = Some r → is_expired r.2 now = false → tick now m !! k = Some r.
Proof. intros E Hx. rewrite tick_lookup, E. cbn. by rewrite Hx. Qed.

(** The row of a live key stays, except that its namespace may make it permanent. *)
Lemma call_keeps env ns ns' c (db : Db) k v at_ :
  issued ns → issued ns' → call_ok c → row_of ns db k = Some (v, at_) →
  is_expired at_ (clock env) = false → (ns' = ns → touches k c = false) →
  row_of ns (kv_call env ns' c db).2 k = Some (v, at_) ∨
  (ns' = ns ∧ c = CPersist k ∧ row_of ns (kv_call env ns' c db).2 k = Some (v, None)).
Proof.
  intros Hns Hns' Hc Hrow Hx Ht. pose proof (row_view_live _ _ _ _ _ Hrow Hx) as Hv.
  destruct (decide (ns' = ns)) as [->|Hne].
  2: { left. apply (view_row_live (clock env)). by rewrite call_other. }
  specialize (Ht eq_refl). destruct (call_serves env ns c db Hc) as (m & Hs & Hend).
  assert (m !! k = Some (v, at_) ∨ (c = CPersist k ∧ m !! k = Some (v, None))) as [Hm|[-> Hm]].
  { destruct Hs as [r m Hcall|s text e|s text e]; [|by left|by apply keyspace_keeps].
    replace m with (keyspace_call (clock env) c (view (clock env) ns db)).2 by (by rewrite Hcall).
    by apply keyspace_keeps. }
  - left. apply (view_row_live (clock env)). rewrite Hend. by apply tick_live.
  - right. do 2 (split; [done|]). apply (view_row_live (clock env)). rewrite Hend. by apply tick_live.
Qed.

(** * Locks *)

Lemma set_if_absent_won env ns k v ttl (db db1 : Db) :
  kv_set_if_absent env ns k v ttl db = (Ok true, db1) →
  row_of ns db1 k = Some (v, expires_after (clock env) ttl) ∧ call_check (CSetIfAbsent k v ttl) = Ok tt.
Proof.
  intros E. pose proof (call_ends env ns (CSetIfAbsent k v ttl) db) as Hend. cbn [kv_call] in Hend.
  rewrite E in Hend. destruct Hend as [Hq|(s & text & e & _ & Hq & _)]; [|done]. revert Hq.
  unfold kv_set_if_absent, after_check. cbn [call_check]. destruct (_ ≫= _) as [[]|]; [|done].
  intros Hq. split; [|done]. revert Hq. cbn [be_set_if_absent RedbBackend].
  rewrite set_if_absent_quiet. destruct (_ !! k); [done|]. intros [= ->]. cbn.
  by rewrite scope_tag, row_at_put, decide_True.
Qed.

(** What a call gets while [k] is taken with value [v]: nobody else takes it, and reading it
    gives [v] unless the storage fails. *)
Definition locked_out (ns : Namespace) (k v : bytes) (call : Env * Namespace * Call) (r : kv Reply) : Prop :=
  call.1.2 = ns →
  match call.2 with
  | CSetIfAbsent k' _ _ => k' = k → r ≠ Ok (RFlag true)
  | CGet k' => k' = k → (∀ s, fault call.1.1 s = None) → r = Ok (RValue (Some v))
  | _ => True
  end.

Lemma call_locked_out env ns ns' c (db : Db) k v at_ :
  validate_key k = Ok tt → call_ok c → row_of ns db k = Some (v, at_) →
  is_expired at_ (clock env) = false → locked_out ns k v (env, ns', c) (kv_call env ns' c db).1.
Proof.
  intros Hk Hc Hrow Hx Hns. cbn in *. subst ns'. pose proof (row_view_live _ _ _ _ _ Hrow Hx) as Hv.
  destruct (call_serves env ns c db Hc) as (m & Hs & _).
  destruct c; try done; intros ->; [intros Hq|]; destruct Hs as [r m Hcall|s text e Hf|s text e Hf];
    try done; try congruence; revert Hcall; unfold keyspace_call.
  - cbn. rewrite Hk, Hv. by intros [= <- _].
  - destruct (call_check _); [|by intros [= <- _]]. cbn. rewrite Hv. by intros [= <- _].
Qed.

Lemma run_locked ns k v deadline calls (db : Db) at_ :
  issued ns → validate_key k = Ok tt → row_of ns db k = Some (v, at_) → at_ = Some deadline ∨ at_ = None →
  Forall (λ call, issued call.1.2 ∧ call_ok call.2 ∧ (clock call.1.1 < deadline)%Z ∧
    (call.1.2 = ns → touches k call.2 = false)) calls →
  Forall2 (locked_out ns k v) calls (kv_run calls db).1 ∧
  ((∀ call, call ∈ calls → call.1.2 = ns → call.2 ≠ CPersist k) →
    row_of ns (kv_run calls db).2 k = Some (v, at_)).
Proof.
  intros Hns Hk Hrow Hat Hcalls. revert db at_ Hrow Hat.
  induction Hcalls as [|[[env ns'] c] calls (Hns' & Hc & Hclock & Ht) _ IH]; intros db at_ Hrow Hat; cbn.
  { split; [constructor|done]. }
  cbn in *. assert (is_expired at_ (clock env) = false) as Hx.
  { destruct Hat as [->| ->]; [|done]. cbn. by apply Z.leb_gt. }
  pose proof (call_locked_out env ns ns' c db k v at_ Hk Hc Hrow Hx) as Hout.
  pose proof (call_keeps env ns ns' c db k v at_ Hns Hns' Hc Hrow Hx Ht) as Hkeep.
  destruct (kv_call env ns' c db) as [r db1]. cbn in *.
  destruct Hkeep as [Hrow1|(-> & -> & Hrow1)].
  - destruct (IH db1 at_ Hrow1 Hat) as [Hall Hend]. destruct (kv_run calls db1) as [rs db2]. cbn in *.
    split; [by constructor|]. intros Hp. apply Hend. intros call ?. apply Hp. by right.
  - destruct (IH db1 None Hrow1) as [Hall _]; [by right|]. destruct (kv_run calls db1) as [rs db2]. cbn in *.
    split; [by constructor|]. intros Hp. exfalso. by apply (Hp (env, ns, CPersist k)); [left|..].
Qed.

(** C20: A key taken by [set_if_absent] with a lifetime is a lock. Until the deadline, as long
    as no handle on the namespace writes, deletes or expires the key itself, every other
    [set_if_absent] on it is refused and reading it gives the value of the holder, whatever
    handles on this and other namespaces do and whatever storage errors they meet. Unless the
    key was made permanent, it can be taken again from the deadline on. *)
Theorem absent_set_locks ns k v ttl env (db db1 : Db) calls env' :
  issued ns → kv_set_if_absent env ns k v (Some ttl) db = (Ok true, db1) →
  Forall (λ call, issued call.1.2 ∧ call_ok call.2 ∧
    (clock call.1.1 < saturating_add (clock env) ttl)%Z ∧ (call.1.2 = ns → touches k call.2 = false)) calls →
  Forall2 (locked_out ns k v) calls (kv_run calls db1).1 ∧
  ((∀ call, call ∈ calls → call.1.2 = ns → call.2 ≠ CPersist k) →
    (saturating_add (clock env) ttl ≤ clock env')%Z →
    (kv_set_if_absent (undisturbed env') ns k v (Some ttl) (kv_run calls db1).2).1 = Ok true).
Proof.
  intros Hns [Hrow Hcheck]%set_if_absent_won Hcalls. assert (validate_key k = Ok tt) as Hk.
  { cbn in Hcheck. by destruct (validate_key k) as [[]|]. }
  destruct (run_locked ns k v _ calls db1 _ Hns Hk Hrow (or_introl eq_refl) Hcalls) as [Hout Hend].
  split; [done|]. intros Hp Hlate. specialize (Hend Hp).
  unfold kv_set_if_absent. cbn [call_check] in Hcheck. rewrite Hcheck. cbn [after_check be_set_if_absent RedbBackend].
  rewrite set_if_absent_quiet, view_lookup, Hend. cbn. apply Z.leb_le in Hlate. by rewrite Hlate.
Qed.

(** * Counters *)

(** Calls that would make a counter something else, or change when it ends. *)
Definition leaves_counter (k : bytes) (c : Call) : bool :=
  match c with
  | CSet k' _ _ | CDelete k' | CExpire k' _ | CPersist k' => bool_decide (k' ≠ k)
  | _ => true
  end.

(** What a call may be answered while the counter [k] stands at [n] and ends at [deadline]. *)
Definition counted (ns : Namespace) (k : bytes) (deadline n : Z) (call : Env * Namespace * Call)
    (r : kv Reply) : Prop :=
  call.1.2 = ns →
  match call.2 with
  | CIncr k' d _ => k' = k →
      (∀ x, r = Ok x → x = RCount (n + d)) ∧
      ((∀ s, fault call.1.1 s = None) → call_check call.2 = Ok tt →
        r = if bool_decide (i64 (n + d)) then Ok (RCount (n + d)) else Err (incr_overflow k))
  | CGet k' => k' = k → ∀ x, r = Ok x → x = RValue (Some (i64_to_string n))
  | CTtl k' => k' = k → ∀ x, r = Ok x → x = RTtl (ExpiresInMs (deadline - clock call.1.1))
  | _ => True
  end.

(** Where the counter stands after a call: an increment counts when it is answered. *)
Definition count_after (ns : Namespace) (k : bytes) (n : Z) (call : Env * Namespace * Call) (r : kv Reply) : Z :=
  match call.2, r with
  | CIncr k' d _, Ok _ => if bool_decide (call.1.2 = ns ∧ k' = k) then n + d else n
  | _, _ => n
  end%Z.

Inductive counts (ns : Namespace) (k : bytes) (deadline : Z) :
    Z → list (Env * Namespace * Call) → list (kv Reply) → Z → Prop :=
  | counts_nil n : counts ns k deadline n [] [] n
  | counts_cons n call calls r rs n' :
      counted ns k deadline n call r →
      counts ns k deadline (count_after ns k n call r) calls rs n' →
      counts ns k deadline n (call :: calls) (r :: rs) n'.

Definition counter_row (n deadline : Z) : Row := (i64_to_string n, Some deadline).

Lemma counter_count n deadline : i64 n → count_of (Some (counter_row n deadline)) = Some n.
Proof. intros. by apply parse_i64_print. Qed.

(** A call on the namespace of a live counter, by the contract. *)
Lemma keyspace_counts now c m k n deadline :
  m !! k = Some (counter_row n deadline) → i64 n → leaves_counter k c = true →
  ∀ r m', keyspace_call now c m = (r, m') →
  (match c with
   | CIncr k' d _ => k' = k → (∀ x, r = Ok x → x = RCount (n + d)) ∧
       (call_check c = Ok tt → r = if bool_decide (i64 (n + d)) then Ok (RCount (n + d)) else Err (incr_overflow k))
   | CGet k' => k' = k → ∀ x, r = Ok x → x = RValue (Some (i64_to_string n))
   | CTtl k' => k' = k → ∀ x, r = Ok x → x = RTtl (ExpiresInMs (deadline - now))
   | _ => True
   end) ∧
  ∃ n', m' !! k = Some (counter_row n' deadline) ∧ i64 n' ∧
    n' = match c, r with CIncr k' d _, Ok _ => if bool_decide (k' = k) then n + d else n | _, _ => n end%Z.
Proof.
  intros Hm Hn Hc r m'. destruct (touches k c) eqn:Ht.
  - destruct c; cbn in Ht, Hc; try done; apply bool_decide_eq_true in Ht; try (by case_bool_decide); subst key.
    unfold keyspace_call. destruct (call_check _) as [[]|e] eqn:Ec; [|intros [= <- <-]; naive_solver].
    cbn [keyspace_op]. rewrite Hm, counter_count by done.
    destruct (decide (i64 (n + delta))) as [Hi|Hi].
    + rewrite !bool_decide_true by (done || exact Hi). intros [= <- <-]. split; [naive_solver|].
      exists (n + delta)%Z. by rewrite lookup_insert_eq.
    + rewrite !bool_decide_false by (done || exact Hi). intros [= <- <-]. split; [naive_solver|]. by exists n.
  - intros E. destruct (keyspace_keeps now c m k (i64_to_string n) (Some deadline) Hm Ht) as [Hk|[-> _]].
    2: { cbn in Hc. by case_bool_decide. }
    rewrite E in Hk. cbn in Hk. split.
    + destruct c; try done; intros ->; [| |];
        cbn in Ht; try (by rewrite bool_decide_true in Ht); revert E; unfold keyspace_call;
        (destruct (call_check _); [|intros; by simplify_eq]); cbn; rewrite Hm; cbn; intros; by simplify_eq.
    + exists n. split; [done|]. split; [done|]. destruct c; try done. cbn in Ht. rewrite Ht. by destruct r.
Qed.

Lemma call_counts env ns ns' c (db : Db) k n deadline :
  issued ns → issued ns' → call_ok c → landed env = false → (clock env < deadline)%Z →
  (ns' = ns → leaves_counter k c = true) → i64 n → row_of ns db k = Some (counter_row n deadline) →
  let r := (kv_call env ns' c db).1 in
  let n' := count_after ns k n (env, ns', c) r in
  counted ns k deadline n (env, ns', c) r ∧ i64 n' ∧
  row_of ns (kv_call env ns' c db).2 k = Some (counter_row n' deadline).
Proof.
  intros Hns Hns' Hc Hland Hclock Hleave Hn Hrow. cbn zeta.
  assert (∀ n0, is_expired (counter_row n0 deadline).2 (clock env) = false) as Hx by (intros; by apply Z.leb_gt).
  pose proof (row_view_live _ _ _ _ _ Hrow (Hx n)) as Hv.
  destruct (decide (ns' = ns)) as [->|Hne].
  2: { assert (count_after ns k n (env, ns', c) (kv_call env ns' c db).1 = n) as ->.
       { unfold count_after. destruct c, (_.1); try done. cbn. by rewrite bool_decide_false by naive_solver. }
       split; [by intros ?|]. split; [done|]. apply (view_row_live (clock env)). by rewrite call_other. }
  destruct (call_serves env ns c db Hc) as (m & Hs & Hend). specialize (Hleave eq_refl).
  destruct Hs as [r m Hcall|s text e Hf|s text e Hf Hl]; [| |congruence].
  - destruct (keyspace_counts _ _ _ _ _ _ Hv Hn Hleave _ _ Hcall) as [Hans (n' & Hm & Hn' & En)].
    assert (count_after ns k n (env, ns, c) r = n') as ->.
    { subst n'. unfold count_after. destruct c, r; try done. cbn. by repeat case_bool_decide; naive_solver. }
    split; [|split; [done|]].
    + intros _. destruct c; try done. cbn in *. naive_solver.
    + apply (view_row_live (clock env)). rewrite Hend. by apply tick_live.
  - assert (count_after ns k n (env, ns, c) (Err (BackendError e)) = n) as -> by (by destruct c).
    split; [|split; [done|]].
    + intros _. destruct c; try done. cbn. intros ->. split; [done|]. intros Hq. by rewrite Hq in Hf.
    + apply (view_row_live (clock env)). by rewrite Hend, tick_view.
Qed.

Lemma run_counts ns k n deadline calls (db : Db) :
  issued ns → i64 n → row_of ns db k = Some (counter_row n deadline) →
  Forall (λ call, issued call.1.2 ∧ call_ok call.2 ∧ landed call.1.1 = false ∧
    (clock call.1.1 < deadline)%Z ∧ (call.1.2 = ns → leaves_counter k call.2 = true)) calls →
  ∃ n', counts ns k deadline n calls (kv_run calls db).1 n' ∧ i64 n' ∧
    row_of ns (kv_run calls db).2 k = Some (counter_row n' deadline).
Proof.
  intros Hns Hn Hrow Hcalls. revert n db Hn Hrow.
  induction Hcalls as [|[[env ns'] c] calls (Hns' & Hc & Hl & Hclock & Hleave) _ IH]; intros n db Hn Hrow; cbn.
  { exists n. split; [constructor|done]. }
  cbn in *. destruct (call_counts env ns ns' c db k n deadline) as (Hans & Hn1 & Hrow1); [done..|].
  destruct (kv_call env ns' c db) as [r db1]. cbn in *.
  destruct (IH _ db1 Hn1 Hrow1) as (n' & Hcount & Hn' & Hend). destruct (kv_run calls db1) as [rs db2].
  exists n'. split; [by econstructor|done].
Qed.

Lemma incr_created env ns k d ttl (db db1 : Db) n :
  view (clock env) ns db !! k = None → kv_incr env ns k d (Some ttl) db = (Ok n, db1) →
  n = d ∧ i64 d ∧ call_check (CIncr k d (Some ttl)) = Ok tt ∧
  row_of ns db1 k = Some (counter_row d (saturating_add (clock env) ttl)).
Proof.
  intros Hv E. pose proof (call_ends env ns (CIncr k d (Some ttl)) db) as Hend. cbn [kv_call] in Hend.
  rewrite E in Hend. destruct Hend as [Hq|(s & text & e & _ & Hq & _)]; [|done]. revert Hq.
  unfold kv_incr, after_check. cbn [call_check]. destruct (_ ≫= _) as [[]|]; [|done].
  cbn [be_incr RedbBackend]. rewrite incr_quiet, Hv. cbn [count_of]. rewrite Z.add_0_l.
  case_bool_decide; [|done]. intros [= -> ->]. do 3 (split; [done|]). cbn.
  by rewrite scope_tag, row_at_put, decide_True.
Qed.

End clients.
