(* ===== verification/KvRedis.v ===== *)
(** The network backend of the key-value store ([backend/redis.rs]): the commands it sends
    through a Redis client, how it reads their replies, and the clients a thread keeps.

    What [RedisClient::execute] answers is an argument ([Exec]), so that the theorems hold for
    any deployment and any server. The text of an error of the client is the argument
    [describe]. *)

From stdpp Require Import gmap.
From S2P Require Import Prelude RustStd Kv Resp.

(** [escape_glob] of [limits.rs]; the characters it escapes are ASCII. *)
Definition is_glob_meta (b : byte) : bool := bool_decide (b ∈ lit "*?[]\^").
Definition escape_glob (prefix : bytes) : bytes :=
  flat_map (λ b, if is_glob_meta b then lit "\" ++ [b] else [b]) prefix.

(** [str::contains]. *)
Fixpoint contains_text (s p : bytes) : bool :=
  starts_with s p || match s with [] => false | _ :: s' => contains_text s' p end.

Definition classify_incr_error (msg : bytes) : KvError :=
  let lower := str_to_ascii_lowercase msg in
  if contains_text lower (lit "overflow") then Overflow msg
  else if contains_text lower (lit "not an integer") then NonNumeric msg
  else if contains_text lower (lit "out of range") then Overflow msg
  else BackendError msg.

Definition INCR_TTL_SCRIPT : bytes :=
  lit "local e=redis.call('EXISTS',KEYS[1]); redis.call('INCRBY',KEYS[1],ARGV[1]); if e==0 and ARGV[2]~='' then redis.call('PEXPIRE',KEYS[1],ARGV[2]) end; return redis.call('GET',KEYS[1])".

(** ** Stores *)

(** [Redis::new]: the id is the counter [NEXT_STORE], an atomic [u64] that wraps. *)
Definition new_store (next_store : Z) : Z * Z := (next_store, ((next_store + 1) `mod` 2 ^ 64)%Z).

(** ** Clients of a thread *)

(** [CLIENTS]: the client of a store id. The weak reference of an entry tells whether its
    store still exists, [open] here. *)
Section clients_map.
Context {C : Type}.
Implicit Types clients : gmap Z C.

(** The lookup of [client], before it awaits a connection. *)
Definition cached_client (open : Z → bool) (id : Z) clients : gmap Z C * option C :=
  let clients' := filter (λ ic, open ic.1 = true) clients in
  (clients', clients' !! id).

(** What [client] does with the connection it made. *)
Definition keep_client (id : Z) (client : C) clients : gmap Z C * C :=
  match clients !! id with
  | Some kept => (clients, kept)
  | None => (<[id := client]> clients, client)
  end.
End clients_map.

(** ** Operations *)

Notation Exec S := (bytes → OwnedFrame → S → redis OwnedFrame * S).

Section ops.
Context (describe : RedisError → bytes) {S : Type}.
Implicit Types (exec : Exec S) (s : S).

Definition map_error (error : RedisError) : KvError :=
  match error with
  | EServer message => classify_incr_error message
  | EIo _ | EPool | EAuth _ | EConfig | EClusterBootstrap | ENoRoute _ => Connection (describe error)
  | _ => BackendError (describe error)
  end.

(** [execute] and what the operation makes of the reply. *)
Definition redis_execute {A} exec (routing_key : bytes) (args : list bytes)
    (read : OwnedFrame → kv A) s : kv A * S :=
  let '(r, s') := exec routing_key (build_cmd args) s in
  (frame ← map_err map_error r; read frame, s').

Definition reading {A} (extract : OwnedFrame → redis A) (frame : OwnedFrame) : kv A :=
  map_err map_error (extract frame).

Definition redis_get exec (app_id key : bytes) s : kv (option bytes) * S :=
  let key := scope app_id key in
  redis_execute (A:=option bytes) exec key [lit "GET"; key] (λ frame,
    value ← reading expect_bulk_or_null frame;
    Ok (option_map from_utf8_lossy value)) s.

Definition ttl_args (ttl_ms : option Z) : list bytes :=
  match ttl_ms with Some ttl => [lit "PX"; nat_to_string ttl] | None => [] end.

Definition redis_set exec (app_id key value : bytes) (ttl_ms : option Z) s : kv unit * S :=
  let key := scope app_id key in
  redis_execute (A:=unit) exec key ([lit "SET"; key; value] ++ ttl_args ttl_ms) (reading expect_ok) s.

Definition is_nonzero (n : Z) : bool := negb (n =? 0)%Z.

Definition redis_delete exec (app_id key : bytes) s : kv bool * S :=
  let key := scope app_id key in
  redis_execute (A:=bool) exec key [lit "DEL"; key] (λ frame,
    n ← reading expect_integer frame; Ok (is_nonzero n)) s.

Definition redis_incr exec (app_id key : bytes) (delta : Z) (ttl_ms : option Z) s : kv Z * S :=
  let key := scope app_id key in
  let delta := i64_to_string delta in
  let ttl := match ttl_ms with Some ttl => nat_to_string ttl | None => [] end in
  redis_execute (A:=Z) exec key [lit "EVAL"; INCR_TTL_SCRIPT; lit "1"; key; delta; ttl] (λ frame,
    value ← reading expect_bulk_or_null frame;
    value ← ok_or value (BackendError (lit "incr returned no value"));
    ok_or (value ← from_utf8 value; parse_i64 value)
      (BackendError (lit "incr returned an invalid integer"))) s.

Definition redis_set_if_absent exec (app_id key value : bytes) (ttl_ms : option Z) s : kv bool * S :=
  let key := scope app_id key in
  redis_execute (A:=bool) exec key ([lit "SET"; key; value; lit "NX"] ++ ttl_args ttl_ms) (λ frame,
    match frame with
    | Null => Ok false
    | frame => _ ← reading expect_ok frame; Ok true
    end) s.

Definition redis_expire exec (app_id key : bytes) (ttl_ms : Z) s : kv bool * S :=
  let key := scope app_id key in
  redis_execute (A:=bool) exec key [lit "PEXPIRE"; key; nat_to_string ttl_ms] (λ frame,
    n ← reading expect_integer frame; Ok (is_nonzero n)) s.

Definition redis_ttl exec (app_id key : bytes) s : kv TtlState * S :=
  let key := scope app_id key in
  redis_execute (A:=TtlState) exec key [lit "PTTL"; key] (λ frame,
    value ← reading expect_integer frame;
    Ok (if (value =? -2)%Z then Missing
        else if (value =? -1)%Z then NoExpiry
        else ExpiresInMs (Z.max value 0))) s.

Definition redis_persist exec (app_id key : bytes) s : kv bool * S :=
  let key := scope app_id key in
  redis_execute (A:=bool) exec key [lit "PERSIST"; key] (λ frame,
    n ← reading expect_integer frame; Ok (is_nonzero n)) s.

(** The entries of a page that are keys of the application under the prefix. *)
Definition scan_key (app_prefix prefix : bytes) (keys : list bytes) (entry : OwnedFrame) : kv (list bytes) :=
  value ← reading expect_bulk_or_null entry;
  Ok (match value with
      | Some bytes =>
          match strip_prefix app_prefix (from_utf8_lossy bytes) with
          | Some key => if starts_with key prefix then keys ++ [key] else keys
          | None => keys
          end
      | None => keys
      end).

Definition redis_list exec (app_id prefix : bytes) (cursor : option bytes) (limit : Z) s :
    kv (list bytes * option bytes) * S :=
  let app_prefix := scope app_id [] in
  let pattern := app_prefix ++ escape_glob prefix ++ lit "*" in
  let count := nat_to_string (Z.min limit u32_max) in
  redis_execute (A:=list bytes * option bytes) exec app_prefix
    [lit "SCAN"; default (lit "0") cursor; lit "MATCH"; pattern; lit "COUNT"; count] (λ frame,
    response ← reading expect_array frame;
    frame ← ok_or (head response) (BackendError (lit "missing scan cursor"));
    next ← reading expect_bulk_or_null frame;
    next ← ok_or next (BackendError (lit "null scan cursor"));
    next ← ok_or (from_utf8 next) (BackendError (lit "invalid scan cursor"));
    frame ← ok_or (head (tail response)) (BackendError (lit "missing scan keys"));
    entries ← reading expect_array frame;
    keys ← try_fold (scan_key app_prefix prefix) [] entries;
    Ok (keys, if bool_decide (next = lit "0") then None else Some next)) s.

#[local] Instance RedisBackend : Backend (Exec S) S := {
  be_get := redis_get; be_set := redis_set; be_delete := redis_delete; be_incr := redis_incr;
  be_set_if_absent := redis_set_if_absent; be_expire := redis_expire; be_ttl := redis_ttl;
  be_persist := redis_persist; be_list := redis_list
}.

(** The calls of handles on a store in Redis. *)
Definition redis_call exec (ns : Namespace) (c : Call) (s : S) : kv Reply * S := kv_call exec ns c s.
Definition redis_run (calls : list (Exec S * Namespace * Call)) (s : S) : list (kv Reply) * S :=
  kv_run calls s.
End ops.
