(* ===== verification/KvRedisFacts.v ===== *)
(** What the network backend promises, whatever the server answers: the commands of a namespace
    name only its keys and go to its slot, and a listing returns only its keys
    ([redis_stays_in_namespace]); a thread uses one client per store ([one_client]). *)

From stdpp Require Import gmap.
From S2P Require Import Prelude RustStd Kv KvFacts Resp RedisCluster KvRedis.

(** * Stores *)

Fixpoint store_ids (n : nat) (next_store : Z) : list Z :=
  match n with
  | 0 => []
  | S n' => let '(id, next) := new_store next_store in id :: store_ids n' next
  end.

Lemma store_ids_range n next : (0 ≤ next)%Z → (next + Z.of_nat n ≤ 2 ^ 64)%Z →
  store_ids n next = seqZ next (Z.of_nat n).
Proof.
  revert next. induction n as [|n IH]; intros next H0 Hn; [done|]. cbn [store_ids new_store].
  rewrite seqZ_cons by lia. f_equal. replace (Z.pred (Z.of_nat (S n))) with (Z.of_nat n) by lia.
  destruct n as [|n]; [done|]. rewrite Z.mod_small by lia. apply IH; lia.
Qed.

(** No two of the first 2^64 - 1 stores of a process have one id. *)
Lemma store_ids_distinct n : (Z.of_nat n < 2 ^ 64)%Z → NoDup (store_ids n 1).
Proof. intros. rewrite store_ids_range by lia. apply NoDup_seqZ. Qed.

(** * Clients of a thread *)

(** The steps of the calls of a thread that ask for the client of a store: a lookup, or a
    connection that is ready after others may have run. *)
Inductive ClientStep (C : Type) := Lookup (id : Z) | Connected (id : Z) (client : C).
Arguments Lookup {C} id.
Arguments Connected {C} id client.

Definition client_step {C} (open : Z → bool) (st : ClientStep C) (clients : gmap Z C) :
    gmap Z C * option (Z * C) :=
  match st with
  | Lookup id => let '(clients', found) := cached_client open id clients in (clients', pair id <$> found)
  | Connected id client => let '(clients', used) := keep_client id client clients in (clients', Some (id, used))
  end.

Fixpoint client_steps {C} (open : Z → bool) (sts : list (ClientStep C)) (clients : gmap Z C) :
    gmap Z C * list (Z * C) :=
  match sts with
  | [] => (clients, [])
  | st :: sts' =>
      let '(clients1, used) := client_step open st clients in
      let '(clients2, all) := client_steps open sts' clients1 in
      (clients2, match used with Some u => u :: all | None => all end)
  end.

Lemma client_step_keeps {C} open (st : ClientStep C) clients id c :
  open id = true → clients !! id = Some c →
  (client_step open st clients).1 !! id = Some c ∧
  (∀ c', (client_step open st clients).2 = Some (id, c') → c' = c).
Proof.
  intros Ho Hc. destruct st as [id'|id' new]; cbn.
  - assert (filter (λ ic : Z * C, open ic.1 = true) clients !! id = Some c) as Hf.
    { by apply map_lookup_filter_Some. }
    split; [done|]. intros c'.
    destruct (filter _ clients !! id') as [c0|] eqn:E; cbn; [|done]. intros [= -> ->]. congruence.
  - unfold keep_client. destruct (clients !! id') as [kept|] eqn:E; cbn.
    + split; [done|]. intros c' [= -> ->]. congruence.
    + split; [|intros c' [= -> ->]; congruence]. rewrite lookup_insert_ne; [done|]. congruence.
Qed.

(** While a store exists, every call on a thread uses the client first kept for it, also when
    several calls connected at the same time. *)
Theorem one_client {C} open (sts : list (ClientStep C)) clients id c :
  open id = true → clients !! id = Some c →
  ∀ c', (id, c') ∈ (client_steps open sts clients).2 → c' = c.
Proof.
  intros Ho. revert clients. induction sts as [|st sts IH]; intros clients Hc c'; cbn; [set_solver|].
  destruct (client_step_keeps open st clients id c Ho Hc) as [Hk Hu].
  destruct (client_step open st clients) as [clients1 used]. cbn in *.
  specialize (IH clients1 Hk). destruct (client_steps open sts clients1) as [clients2 all]. cbn in *.
  destruct used as [u|]; [|apply IH]. intros [<-|?]%elem_of_cons; auto.
Qed.

(** * Slots *)

(** The part of a key that is hashed: what stands between the first opening brace and the next
    closing one, if that is not empty, and else the whole key. *)
Definition hash_tag (key : bytes) : bytes :=
  match split_once "{"%byte key with
  | Some (_, rest) =>
      match split_once "}"%byte rest with
      | Some (t, _) => if bool_decide (t = []) then key else t
      | None => key
      end
  | None => key
  end.

(** Keys with equal hash tags have equal slots. *)
Class HashTags `{Cluster} : Prop :=
  keyslot_tag : ∀ key key', hash_tag key = hash_tag key' → redis_keyslot key = redis_keyslot key'.

Lemma split_once_cut c a b : c ∉ a → split_once c (a ++ c :: b) = Some (a, b).
Proof.
  induction a as [|x a IH]; cbn; intros Hc; [by rewrite decide_True|].
  rewrite decide_False by set_solver. by rewrite IH by set_solver.
Qed.

Lemma hash_tag_scope ns k : issued ns → hash_tag (tag ns ++ k) = as_str ns.
Proof.
  intros (Hne & Hcl & _)%issued_shape. unfold hash_tag, tag. rewrite <-!app_assoc.
  change (lit "{" ++ ?r) with ("{"%byte :: r). cbn [split_once]. rewrite decide_True by done.
  change (lit "}:" ++ k) with ("}"%byte :: ":"%byte :: k). rewrite split_once_cut by done.
  by rewrite bool_decide_false.
Qed.

(** * Patterns *)

(** The patterns of [SCAN] without character classes. *)
Inductive glob_match : bytes → bytes → Prop :=
  | glob_end : glob_match [] []
  | glob_star p s1 s2 : glob_match p s2 → glob_match ("*"%byte :: p) (s1 ++ s2)
  | glob_one b p s : glob_match p s → glob_match ("?"%byte :: p) (b :: s)
  | glob_escape b p s : glob_match p s → glob_match ("\"%byte :: b :: p) (b :: s)
  | glob_literal b p s : is_glob_meta b = false → glob_match p s → glob_match (b :: p) (b :: s).

Lemma glob_plain p q s : (∀ b, b ∈ p → is_glob_meta b = false) →
  glob_match (p ++ q) s ↔ ∃ r, s = p ++ r ∧ glob_match q r.
Proof.
  revert s. induction p as [|b p IH]; intros s Hp; cbn; [naive_solver|].
  assert (is_glob_meta b = false) as Hb by (apply Hp; left).
  assert (∀ r, glob_match (p ++ q) r ↔ ∃ r', r = p ++ r' ∧ glob_match q r') as IH'.
  { intros r. apply IH. intros ??. apply Hp. by right. }
  split.
  - inversion 1 as [|p' s1 s2 Hm|b' p' s' Hm|b' p' s' Hm|b' p' s' Hb' Hm]; subst; try done.
    apply IH' in Hm as (r & -> & Hr). eauto.
  - intros (r & -> & Hr). apply glob_literal; [done|]. apply IH'. eauto.
Qed.

Lemma glob_escaped p q s : glob_match (escape_glob p ++ q) s ↔ ∃ r, s = p ++ r ∧ glob_match q r.
Proof.
  revert s. induction p as [|b p IH]; intros s; cbn; [naive_solver|].
  destruct (is_glob_meta b) eqn:Eb; cbn.
  - split.
    + inversion 1 as [|p' s1 s2 Hm|b' p' s' Hm|b' p' s' Hm|b' p' s' Hb' Hm]; subst; try done.
      apply IH in Hm as (r & -> & Hr). eauto.
    + intros (r & -> & Hr). apply glob_escape, IH. eauto.
  - split.
    + inversion 1 as [|p' s1 s2 Hm|b' p' s' Hm|b' p' s' Hm|b' p' s' Hb' Hm]; subst; try done.
      apply IH in Hm as (r & -> & Hr). eauto.
    + intros (r & -> & Hr). apply glob_literal; [done|]. apply IH. eauto.
Qed.

Definition no_meta (s : bytes) : Prop := ∀ b, b ∈ s → is_glob_meta b = false.

Lemma no_meta_text s : forallb (λ b, negb (is_glob_meta b)) s = true → no_meta s.
Proof. intros H b Hb%list_elem_of_In. rewrite forallb_forall in H. by apply negb_true_iff, H. Qed.
Lemma no_meta_app a b : no_meta a → no_meta b → no_meta (a ++ b).
Proof. intros Ha Hb x [?|?]%elem_of_app; auto. Qed.
Lemma no_meta_name name u : validate_component name = Ok u → no_meta name.
Proof. intros [_ Hb]%validate_component_ok b ?%Hb. by destruct b. Qed.

Lemma tag_plain ns : issued ns → no_meta (tag ns).
Proof.
  intros (name & E). unfold tag. apply no_meta_app; [by apply no_meta_text|].
  apply no_meta_app; [|by apply no_meta_text]. revert E. unfold app_namespace, platform_namespace.
  destruct (validate_component name) eqn:Ev; cbn [mbind result_bind]; [|naive_solver].
  apply no_meta_name in Ev. intros [[= <-]|[= <-]]; [done|].
  apply (no_meta_app (lit "platform:")); [by apply no_meta_text|done].
Qed.

(** The pattern of a listing matches exactly the keys of the namespace under the prefix, taken
    literally. *)
Lemma scan_pattern_exact ns prefix key : issued ns →
  glob_match (scope (as_str ns) [] ++ escape_glob prefix ++ lit "*") key ↔ (tag ns ++ prefix) `prefix_of` key.
Proof.
  intros Hns. rewrite scope_tag, app_nil_r, glob_plain by (by apply tag_plain). split.
  - intros (r & -> & (r' & -> & _)%glob_escaped). exists r'. by rewrite app_assoc.
  - intros [r ->]. exists (prefix ++ r). rewrite app_assoc. split; [done|]. apply glob_escaped.
    exists r. split; [done|]. rewrite <-(app_nil_r r). apply glob_star, glob_end.
Qed.

(** * Commands *)

(** The keys a command names: [SCAN] none, [EVAL] with one key that key, and the others the
    key in the first place. *)
Definition command_keys (args : list bytes) : list bytes :=
  match args with
  | [] => []
  | cmd :: rest =>
      if bool_decide (cmd = lit "SCAN") then []
      else if bool_decide (cmd = lit "EVAL") then take 1 (drop 2 rest)
      else take 1 rest
  end.

(** The texts of the entries of a page. *)
Definition scan_entries (frame : OwnedFrame) : list bytes :=
  match frame with
  | Array (_ :: Array entries :: _) =>
      omap (λ e, match e with BulkString b | SimpleString b => Some b | _ => None end) entries
  | _ => []
  end.

Section commands.
Context (describe : RedisError → bytes) {S : Type} `{Cluster, !HashTags}.
Implicit Types (exec : Exec S) (s : S).

(** [exec] with a record of what it was given and what it answered. *)
Definition recording exec : Exec (S * list (bytes * OwnedFrame * redis OwnedFrame)) :=
  λ key frame sl, let '(r, s') := exec key frame sl.1 in (r, (s', sl.2 ++ [(key, frame, r)])).

(** A command of a namespace: the cluster client sends it where it sends any command on
    a key of the namespace, the keys it names are keys of the namespace, and so are those a
    pattern of it matches. *)
Definition own_command (ns : Namespace) (x : bytes * OwnedFrame * redis OwnedFrame) : Prop :=
  (∀ key c nets, send_to_slot x.1.1 c nets = send_to_slot (scope (as_str ns) key) c nets) ∧
  ∃ args, x.1.2 = build_cmd args ∧
    Forall (λ k, tag ns `prefix_of` k) (command_keys args) ∧
    ∀ cursor pattern count key, args = [lit "SCAN"; cursor; lit "MATCH"; pattern; lit "COUNT"; count] →
      glob_match pattern key → tag ns `prefix_of` key.

Lemma own_slot ns key key' : issued ns →
  redis_keyslot (scope (as_str ns) key) = redis_keyslot (scope (as_str ns) key').
Proof. intros Hns. apply keyslot_tag. by rewrite !scope_tag, !hash_tag_scope. Qed.

Lemma executed {A} exec key args (read : OwnedFrame → kv A) s log :
  ∃ r, redis_execute describe (recording exec) key args read (s, log) =
    (frame ← map_err (map_error describe) r; read frame, ((exec key (build_cmd args) s).2, log ++ [(key, build_cmd args, r)])) ∧
    r = (exec key (build_cmd args) s).1.
Proof. unfold redis_execute, recording. cbn. destruct (exec _ _ s) as [r s']. by exists r. Qed.

Lemma own_key_command ns key args : issued ns →
  command_keys args = [scope (as_str ns) key] → head args ≠ Some (lit "SCAN") →
  ∀ r, own_command ns (scope (as_str ns) key, build_cmd args, r).
Proof.
  intros Hns Hkeys Hscan r. split.
  - intros key' c nets. unfold send_to_slot. cbn. by rewrite (own_slot ns key key').
  - exists args. split; [done|]. rewrite Hkeys, scope_tag. split.
    + constructor; [by exists key|constructor].
    + intros cursor pattern count k ->. done.
Qed.

Lemma own_scan ns prefix cursor count : issued ns →
  ∀ r, own_command ns (scope (as_str ns) [],
    build_cmd [lit "SCAN"; cursor; lit "MATCH"; scope (as_str ns) [] ++ escape_glob prefix ++ lit "*";
               lit "COUNT"; count], r).
Proof.
  intros Hns r. split.
  - intros key c nets. unfold send_to_slot. cbn. by rewrite (own_slot ns [] key).
  - eexists. split; [done|]. split; [constructor|]. intros cursor' pattern count' key [= <- <- <-] Hm.
    apply scan_pattern_exact in Hm as [w ->]; [|done]. exists (prefix ++ w). by rewrite app_assoc.
Qed.

(** The keys a listing returns are entries of the reply, without the tag of the namespace. *)
Lemma scanned_keys app_prefix prefix entries keys :
  try_fold (scan_key describe app_prefix prefix) [] entries = Ok keys →
  ∀ k, k ∈ keys → prefix `prefix_of` k ∧
    ∃ raw, (BulkString raw ∈ entries ∨ SimpleString raw ∈ entries) ∧ from_utf8_lossy raw = app_prefix ++ k.
Proof.
  apply (try_fold_inv (λ keys, ∀ k, k ∈ keys → prefix `prefix_of` k ∧
    ∃ raw, (BulkString raw ∈ entries ∨ SimpleString raw ∈ entries) ∧ from_utf8_lossy raw = app_prefix ++ k)).
  { intros k Hk. by apply not_elem_of_nil in Hk. }
  intros keys0 entry keys' Hin IH. unfold scan_key, reading.
  assert (∀ raw, expect_bulk_or_null entry = Ok (Some raw) →
    BulkString raw ∈ entries ∨ SimpleString raw ∈ entries) as Hraw.
  { intros raw. destruct entry; cbn; try done; intros [= ->]; auto. }
  destruct (expect_bulk_or_null entry) as [[raw|]|]; cbn; [|by intros [= <-]|done].
  destruct (strip_prefix app_prefix (from_utf8_lossy raw)) as [key|] eqn:Es; [|by intros [= <-]].
  destruct (starts_with key prefix) eqn:Ep; [|by intros [= <-]]. intros [= <-] k.
  rewrite elem_of_app, elem_of_cons. intros [?|[->|?%not_elem_of_nil]]; [auto| |done].
  split; [by apply starts_with_spec|]. exists raw. split; [auto|]. by apply strip_prefix_Some.
Qed.

Lemma checked_sent {A} exec check key args (read : OwnedFrame → kv A) (f : A → Reply) s :
  let res := reply f (after_check check (redis_execute describe (recording exec) key args read) (s, [])) in
  res.2.2 = [] ∨ ∃ r, res.2.2 = [(key, build_cmd args, r)].
Proof.
  cbn zeta. unfold after_check. destruct check; [|by left]. right.
  destruct (executed exec key args read s []) as (r & -> & _). by exists r.
Qed.

(** A call other than a listing sends nothing, or one command on its key. *)
Lemma key_call_sent exec ns c s : (∀ p cur l, c ≠ CList p cur l) →
  ∃ key args, command_keys args = [scope (as_str ns) key] ∧ head args ≠ Some (lit "SCAN") ∧
    ((redis_call describe (recording exec) ns c (s, [])).2.2 = [] ∨
     ∃ r, (redis_call describe (recording exec) ns c (s, [])).2.2 = [(scope (as_str ns) key, build_cmd args, r)]).
Proof.
  intros Hc. destruct c as [key|key v ttl|key|key d ttl|key v ttl|key ttl|key|key|p cur l];
    [exists key; eexists; (split; [|split; [|apply checked_sent]]); done..|].
  by destruct (Hc p cur l).
Qed.

Lemma list_sent exec ns prefix cursor limit s page next sl :
  redis_list describe (recording exec) (as_str ns) prefix cursor limit (s, []) = (Ok (page, next), sl) →
  ∃ frame, sl.2.*2 = [Ok frame] ∧ ∀ k, k ∈ page → prefix `prefix_of` k ∧
      ∃ raw, raw ∈ scan_entries frame ∧ from_utf8_lossy raw = tag ns ++ k.
Proof.
  unfold redis_list. match goal with |- redis_execute _ _ ?k ?a ?rd _ = _ → _ =>
    destruct (executed exec k a rd s []) as (r & -> & _) end.
  destruct r as [frame|e]; cbn [map_err mbind result_bind]; [|done]. intros [= E <-].
  exists frame. split; [done|]. revert E. unfold reading.
  destruct (expect_array frame) as [response|] eqn:Er; cbn; [|done].
  destruct response as [|f1 [|f2 rest]]; cbn; [done| |];
    (destruct (expect_bulk_or_null f1) as [[nxt|]|]; cbn; [|done..]);
    (destruct (from_utf8 nxt) as [nxt'|]; cbn; [|done]); [done|].
  destruct (expect_array f2) as [entries|] eqn:E2; cbn; [|done].
  destruct (try_fold _ _ _) as [keys|] eqn:Ek; cbn; [|done]. intros [= <- _] k Hk.
  destruct (scanned_keys _ _ _ _ Ek k Hk) as (Hpre & raw & Hin & Ht). split; [done|].
  exists raw. rewrite scope_tag, app_nil_r in Ht. split; [|done].
  assert (frame = Array (f1 :: f2 :: rest)) as -> by (destruct frame; cbn in Er; congruence).
  destruct f2; cbn in E2; simplify_eq; [|by destruct Hin as [?%not_elem_of_nil|?%not_elem_of_nil]].
  cbn. apply list_elem_of_omap. destruct Hin; eauto.
Qed.

(** C16: Whatever the servers answer, a handle on a store in Redis stays in its namespace. A call
    sends at most one command; it is routed as every command of the namespace, so that a
    cluster sends all of them, listings included, the same way; the keys it names are keys
    of the namespace, and so is every key its pattern can match; and the keys a
    listing returns are under the prefix and are entries of the reply that carry the tag of the
    namespace. *)
Theorem redis_stays_in_namespace exec ns c s : issued ns →
  let '(r, (_, sent)) := redis_call describe (recording exec) ns c (s, []) in
  length sent ≤ 1 ∧ Forall (own_command ns) sent ∧
  ∀ prefix cursor limit page next, c = CList prefix cursor limit → r = Ok (RPage page next) →
    ∃ frame, sent.*2 = [Ok frame] ∧ ∀ k, k ∈ page → prefix `prefix_of` k ∧
      ∃ raw, raw ∈ scan_entries frame ∧ from_utf8_lossy raw = tag ns ++ k.
Proof.
  intros Hns. destruct (redis_call _ _ ns c (s, [])) as [r [s' sent]] eqn:Ecall.
  assert ((∃ p cur l, c = CList p cur l) ∨ ∀ p cur l, c ≠ CList p cur l) as [(p & cur & l & ->)|Hc].
  { destruct c; try (by right). left. eauto. }
  - cbn [redis_call kv_call kv_list be_list RedisBackend] in Ecall. unfold redis_call, kv_call, kv_list in Ecall.
    cbn [be_list RedisBackend] in Ecall. set (limit := normalize_list_limit l) in *.
    destruct (redis_list describe (recording exec) (as_str ns) p cur limit (s, [])) as [r0 sl] eqn:El.
    unfold reply in Ecall. cbn in Ecall. injection Ecall as <- ->.
    assert (∃ r1, sent = [(scope (as_str ns) [], build_cmd
      [lit "SCAN"; default (lit "0") cur; lit "MATCH"; scope (as_str ns) [] ++ escape_glob p ++ lit "*";
       lit "COUNT"; nat_to_string (Z.min limit u32_max)], r1)]) as [r1 Es].
    { revert El. unfold redis_list. match goal with |- redis_execute _ _ ?k ?a ?rd _ = _ → _ =>
        destruct (executed exec k a rd s []) as (r1 & -> & _) end. intros [= _ _ <-]. by exists r1. }
    split; [by rewrite Es|]. split; [rewrite Es; constructor; [by apply own_scan|constructor]|].
    intros prefix cursor limit0 page next [= <- <- <-] Er. destruct r0 as [[page0 next0]|]; [|done].
    cbn in Er. injection Er as <- <-. by apply list_sent in El.
  - destruct (key_call_sent exec ns c s Hc) as (key & args & Hk & Hh & Hsent).
    rewrite Ecall in Hsent. cbn in Hsent. split; [by destruct Hsent as [->|[r0 ->]]; cbn; lia|].
    split; [|intros prefix cursor limit page next ->; by destruct (Hc prefix cursor limit)].
    destruct Hsent as [->|[r0 ->]]; [constructor|]. constructor; [by apply own_key_command|constructor].
Qed.
End commands.
