(* ===== verification/KvBackends.v ===== *)
(** The two backends side by side. Over a server that does what Redis documents of the commands
    the network backend sends ([RedisServerLaws]), the network backend follows the contract of
    [KvFacts] as the embedded one does, so the two answer a history of calls alike
    ([backends_agree]). *)

From stdpp Require Import gmap.
From S2P Require Import Prelude RustStd Kv KvFacts Resp RespWire KvRedis.

(** * The server *)

Class RedisServer (S : Type) := {
  serve : Z → list bytes → S → OwnedFrame * S;
  content : S → Keyspace;
  redis_int : bytes → option Z
}.

(** A command is answered with a frame, and the keys are then those of [m]. *)
Definition does {S : Type} `{RedisServer S} (now : Z) (args : list bytes) (s : S) (frame : OwnedFrame) (m : Keyspace) : Prop :=
  (serve now args s).1 = frame ∧ tick now (content (serve now args s).2) = tick now m.

(** [redis.call] in a script raises the errors of the server, which end the script. *)
Definition script_call {S : Type} `{RedisServer S} (now : Z) (args : list bytes) (s : S) :
    result bytes OwnedFrame * S :=
  match serve now args s with
  | (Error msg, s') => (Err msg, s')
  | (frame, s') => (Ok frame, s')
  end.
Definition is_zero (frame : OwnedFrame) : bool := match frame with Integer n => (n =? 0)%Z | _ => false end.

(** The script of [incr], run on a server. *)
Definition incr_ttl_script {S : Type} `{RedisServer S} (now : Z) (key arg1 arg2 : bytes) (s : S) :
    result bytes OwnedFrame * S :=
  match script_call now [lit "EXISTS"; key] s with
  | (Err msg, s1) => (Err msg, s1)
  | (Ok e, s1) =>
      match script_call now [lit "INCRBY"; key; arg1] s1 with
      | (Err msg, s2) => (Err msg, s2)
      | (Ok _, s2) =>
          match (if is_zero e && bool_decide (arg2 ≠ []) then script_call now [lit "PEXPIRE"; key; arg2] s2
                 else (Ok Null, s2)) with
          | (Err msg, s3) => (Err msg, s3)
          | (Ok _, s3) => script_call now [lit "GET"; key] s3
          end
      end
  end.

Definition not_an_integer : bytes := lit "ERR value is not an integer or out of range".
Definition would_overflow : bytes := lit "ERR increment or decrement would overflow".
Definition mentions_overflow (msg : bytes) : bool :=
  contains_text (str_to_ascii_lowercase msg) (lit "overflow").

(** What Redis documents of the commands, on keys that have not expired. The server may add
    a note to the error of a script. *)
Class RedisServerLaws (S : Type) `{RedisServer S} : Prop := {
  serve_get : ∀ now k s, does now [lit "GET"; k] s
    match tick now (content s) !! k with Some (v, _) => BulkString v | None => Null end (content s);
  serve_set : ∀ now k v s, does now [lit "SET"; k; v] s (SimpleString (lit "OK"))
    (<[k := (v, None)]> (content s));
  serve_set_px : ∀ now k v ttl s, (0 < ttl ≤ MAX_TTL_MS)%Z →
    does now [lit "SET"; k; v; lit "PX"; nat_to_string ttl] s (SimpleString (lit "OK"))
      (<[k := (v, Some (now + ttl)%Z)]> (content s));
  serve_set_nx : ∀ now k v s,
    match tick now (content s) !! k with
    | Some _ => does now [lit "SET"; k; v; lit "NX"] s Null (content s)
    | None => does now [lit "SET"; k; v; lit "NX"] s (SimpleString (lit "OK"))
                (<[k := (v, None)]> (content s))
    end;
  serve_set_nx_px : ∀ now k v ttl s, (0 < ttl ≤ MAX_TTL_MS)%Z →
    match tick now (content s) !! k with
    | Some _ => does now [lit "SET"; k; v; lit "NX"; lit "PX"; nat_to_string ttl] s Null (content s)
    | None => does now [lit "SET"; k; v; lit "NX"; lit "PX"; nat_to_string ttl] s
                (SimpleString (lit "OK")) (<[k := (v, Some (now + ttl)%Z)]> (content s))
    end;
  serve_del : ∀ now k s, does now [lit "DEL"; k] s
    (Integer (if tick now (content s) !! k then 1 else 0)) (delete k (content s));
  serve_exists : ∀ now k s, does now [lit "EXISTS"; k] s
    (Integer (if tick now (content s) !! k then 1 else 0)) (content s);
  serve_pexpire : ∀ now k ttl s, (0 < ttl ≤ MAX_TTL_MS)%Z →
    match tick now (content s) !! k with
    | Some (v, _) => does now [lit "PEXPIRE"; k; nat_to_string ttl] s (Integer 1)
                       (<[k := (v, Some (now + ttl)%Z)]> (content s))
    | None => does now [lit "PEXPIRE"; k; nat_to_string ttl] s (Integer 0) (content s)
    end;
  serve_pttl : ∀ now k s, does now [lit "PTTL"; k] s
    (Integer match tick now (content s) !! k with
             | Some (_, Some at_) => at_ - now
             | Some (_, None) => -1
             | None => -2
             end) (content s);
  serve_persist : ∀ now k s,
    match tick now (content s) !! k with
    | Some (v, Some _) => does now [lit "PERSIST"; k] s (Integer 1) (<[k := (v, None)]> (content s))
    | _ => does now [lit "PERSIST"; k] s (Integer 0) (content s)
    end;
  serve_incrby : ∀ now k d s, i64 d →
    let row := tick now (content s) !! k in
    match (match row with Some (v, _) => redis_int v | None => Some 0%Z end) with
    | None => does now [lit "INCRBY"; k; i64_to_string d] s (Error not_an_integer) (content s)
    | Some n =>
        if bool_decide (i64 (n + d)) then
          does now [lit "INCRBY"; k; i64_to_string d] s (Integer (n + d))
            (<[k := (i64_to_string (n + d), match row with Some (_, at_) => at_ | None => None end)]> (content s))
        else does now [lit "INCRBY"; k; i64_to_string d] s (Error would_overflow) (content s)
    end;
  serve_eval : ∀ now k arg1 arg2 s,
    let command := [lit "EVAL"; INCR_TTL_SCRIPT; lit "1"; k; arg1; arg2] in
    match incr_ttl_script now k arg1 arg2 s with
    | (Ok frame, s') => serve now command s = (frame, s')
    | (Err msg, s') => ∃ note, serve now command s = (Error (msg ++ note), s') ∧
        mentions_overflow (msg ++ note) = mentions_overflow msg
    end;
  redis_int_print : ∀ n, i64 n → redis_int (i64_to_string n) = Some n
}.

(** * Calls *)

Section server.
Context (describe : RedisError → bytes) {S : Type} `{RedisServerLaws S}.

Definition frame_args (frame : OwnedFrame) : list bytes :=
  match frame with Array items => omap (λ i, match i with BulkString b => Some b | _ => None end) items | _ => [] end.

(** A client whose commands reach the server. *)
Definition served (now : Z) : Exec S :=
  λ _ frame s, let '(f, s') := serve now (frame_args frame) s in (Ok f, s').

Lemma frame_args_build args : frame_args (build_cmd args) = args.
Proof. unfold build_cmd. cbn. induction args as [|a args IH]; cbn; [done|]. by f_equal. Qed.

(** The server holds the keys of [m] for a namespace. *)
Definition holds (now : Z) (ns : Namespace) (s : S) (m : Keyspace) : Prop :=
  ∀ k, unexpired now (content s !! (tag ns ++ k)) = unexpired now (m !! k).

(** A value that is text and that Redis reads as a number when [incr] of the embedded backend
    does. *)
Definition plain_value (v : bytes) : Prop := from_utf8_lossy v = v ∧ redis_int v = parse_i64 v.

Definition plain_keys (m : Keyspace) : Prop := ∀ k v at_, m !! k = Some (v, at_) → plain_value v.

(** Arguments of the machine types, values that are plain, and no listing. *)
Definition call_plain (c : Call) : Prop :=
  match c with
  | CSet _ v ttl | CSetIfAbsent _ v ttl => plain_value v ∧ (∀ t, ttl = Some t → (0 ≤ t)%Z)
  | CIncr _ d ttl => i64 d ∧ (∀ t, ttl = Some t → (0 ≤ t)%Z)
  | CExpire _ ttl => (0 ≤ ttl)%Z
  | CList _ _ _ => False
  | _ => True
  end.

Definition error_kind (e : KvError) : nat :=
  match e with
  | InvalidKey _ => 0 | InvalidValue _ => 1 | InvalidArgument _ => 2 | NonNumeric _ => 3
  | Overflow _ => 4 | ListTooLarge _ => 5 | Connection _ => 6 | BackendError _ => 7
  end.
(** The same answer, or errors of the same kind. *)
Definition same_reply (r r' : kv Reply) : Prop :=
  match r, r' with
  | Ok a, Ok b => a = b
  | Err e, Err e' => error_kind e = error_kind e'
  | _, _ => False
  end.

Lemma holds_live now ns s m k : holds now ns s m → tick now (content s) !! (tag ns ++ k) = tick now m !! k.
Proof. intros Hh. by rewrite !tick_lookup. Qed.

Lemma holds_tick now ns s m m' : tick now m = tick now m' → holds now ns s m → holds now ns s m'.
Proof. intros E Hh k. by rewrite Hh, <-!tick_lookup, E. Qed.

Lemma content_tick now ns s s' m : tick now (content s') = tick now (content s) → holds now ns s m → holds now ns s' m.
Proof. intros E Hh k. by rewrite <-tick_lookup, E, tick_lookup. Qed.

(** What a changed row of the table of the server is for the namespaces. *)
Lemma holds_insert now ns s s' m k r :
  tick now (content s') = tick now (<[tag ns ++ k := r]> (content s)) → holds now ns s m →
  holds now ns s' (<[k := r]> m).
Proof.
  intros E Hh k'. rewrite <-tick_lookup, E, tick_lookup. destruct (decide (k = k')) as [->|Hne].
  - by rewrite !lookup_insert_eq.
  - rewrite !lookup_insert_ne by (done || by intros ?%app_inv_head). apply Hh.
Qed.
Lemma holds_delete now ns s s' m k :
  tick now (content s') = tick now (delete (tag ns ++ k) (content s)) → holds now ns s m →
  holds now ns s' (delete k m).
Proof.
  intros E Hh k'. rewrite <-tick_lookup, E, tick_lookup. destruct (decide (k = k')) as [->|Hne].
  - by rewrite !lookup_delete_eq.
  - rewrite !lookup_delete_ne by (done || by intros ?%app_inv_head). apply Hh.
Qed.

(** The keys of a namespace go from [m] to [m'] while the server goes from [s] to [s']. *)
Inductive follows (now : Z) (ns : Namespace) (s s' : S) (m : Keyspace) : Keyspace → Prop :=
  | moves_same : tick now (content s') = tick now (content s) → follows now ns s s' m m
  | moves_put k r : tick now (content s') = tick now (<[tag ns ++ k := r]> (content s)) →
      follows now ns s s' m (<[k := r]> m)
  | moves_drop k : tick now (content s') = tick now (delete (tag ns ++ k) (content s)) →
      follows now ns s s' m (delete k m).

Lemma moves_holds now ns s s' m m' : follows now ns s s' m m' → holds now ns s m → holds now ns s' m'.
Proof. intros []; eauto using content_tick, holds_insert, holds_delete. Qed.

Lemma moves_other now ns ns' s s' m m' m0 : issued ns → issued ns' → ns' ≠ ns →
  follows now ns s s' m m' → holds now ns' s m0 → holds now ns' s' m0.
Proof.
  intros H1 H2 Hne Hm Hh. destruct Hm as [E|k r E|k E]; [by eapply content_tick|..]; intros k';
    rewrite <-tick_lookup, E, tick_lookup.
  - rewrite lookup_insert_ne; [apply Hh|]. by intros [? _]%tag_inj.
  - rewrite lookup_delete_ne; [apply Hh|]. by intros [? _]%tag_inj.
Qed.

Lemma execute_served {A} now key args (read : OwnedFrame → kv A) s :
  redis_execute describe (served now) key args read s = (read (serve now args s).1, (serve now args s).2).
Proof.
  unfold redis_execute, served. rewrite frame_args_build. by destruct (serve now args s) as [f s'].
Qed.

Lemma tick_put_cong now m m' k r : tick now m = tick now m' → tick now (<[k := r]> m) = tick now (<[k := r]> m').
Proof. intros E. by rewrite <-tick_insert, E, tick_insert. Qed.

Lemma ttl_sum now ttl u : (0 ≤ now)%Z → (now + MAX_TTL_MS < 2 ^ 64)%Z → (0 ≤ ttl)%Z → validate_ttl_ms ttl = Ok u →
  (0 < ttl ≤ MAX_TTL_MS)%Z ∧ saturating_add now ttl = (now + ttl)%Z.
Proof.
  intros Hn Hc Ht. unfold validate_ttl_ms. destruct (Z.eqb_spec ttl 0); [done|].
  destruct (Z.ltb_spec MAX_TTL_MS ttl); [done|]. intros _. unfold saturating_add. lia.
Qed.

(** ** The script *)

Lemma script_call_ok now args s frame m : does now args s frame m → (∀ msg, frame ≠ Error msg) →
  ∃ s', script_call now args s = (Ok frame, s') ∧ tick now (content s') = tick now m.
Proof.
  unfold does, script_call. destruct (serve now args s) as [f s']. cbn. intros [-> E] Hne. exists s'.
  split; [|done]. destruct frame; try done. by edestruct Hne.
Qed.
Lemma script_call_err now args s msg m : does now args s (Error msg) m →
  ∃ s', script_call now args s = (Err msg, s') ∧ tick now (content s') = tick now m.
Proof. unfold does, script_call. destruct (serve now args s) as [f s']. cbn. intros [-> E]. eauto. Qed.

Lemma ttl_text t : (0 < t ≤ MAX_TTL_MS)%Z → nat_to_string t ≠ [].
Proof.
  intros Ht E. assert (parse_digits 0 (nat_to_string t) = Some t) as Hp.
  { apply nat_to_string_parse. unfold MAX_TTL_MS in Ht. lia. }
  rewrite E in Hp. cbn in Hp. injection Hp as <-. lia.
Qed.

(** The script does what the contract says of [incr]. *)
Lemma script_counts now k d ttl s : i64 d → (∀ t, ttl = Some t → (0 < t ≤ MAX_TTL_MS)%Z) →
  let row := tick now (content s) !! k in
  let arg := match ttl with Some t => nat_to_string t | None => [] end in
  let '(res, s') := incr_ttl_script now k (i64_to_string d) arg s in
  match (match row with Some (v, _) => redis_int v | None => Some 0%Z end) with
  | None => res = Err not_an_integer ∧ tick now (content s') = tick now (content s)
  | Some n =>
      if bool_decide (i64 (n + d)) then
        res = Ok (BulkString (i64_to_string (n + d))) ∧
        tick now (content s') = tick now (<[k := (i64_to_string (n + d),
          match row with Some (_, at_) => at_ | None => (λ t, now + t)%Z <$> ttl end)]> (content s))
      else res = Err would_overflow ∧ tick now (content s') = tick now (content s)
  end.
Proof.
  intros Hd Httl. cbn zeta. unfold incr_ttl_script.
  destruct (script_call_ok _ _ _ _ _ (serve_exists now k s)) as (s1 & -> & E1); [done|].
  pose proof (serve_incrby now k d s1 Hd) as Hi. cbn zeta in Hi. rewrite E1 in Hi.
  set (row := tick now (content s) !! k) in *.
  destruct (match row with Some (v, _) => redis_int v | None => Some 0%Z end) as [n|] eqn:En.
  2: { destruct (script_call_err _ _ _ _ _ Hi) as (s2 & -> & E2). by rewrite E2, E1. }
  case_bool_decide as Hn; [|destruct (script_call_err _ _ _ _ _ Hi) as (s2 & -> & E2); by rewrite E2, E1].
  destruct (script_call_ok _ _ _ _ _ Hi) as (s2 & -> & E2); [done|]. rewrite (tick_put_cong _ _ _ _ _ E1) in E2.
  set (v' := i64_to_string (n + d)) in *.
  assert (∀ s3 at_, tick now (content s3) = tick now (<[k := (v', at_)]> (content s)) →
    is_expired at_ now = false →
    ∃ s4, script_call now [lit "GET"; k] s3 = (Ok (BulkString v'), s4) ∧
      tick now (content s4) = tick now (<[k := (v', at_)]> (content s))) as Hget.
  { intros s3 at_ E3 Hx. pose proof (serve_get now k s3) as Hg. rewrite E3, tick_lookup, lookup_insert_eq in Hg.
    cbn in Hg. rewrite Hx in Hg. destruct (script_call_ok _ _ _ _ _ Hg) as (s4 & E4 & Ec); [done|].
    exists s4. split; [done|]. by rewrite Ec. }
  assert (∀ r, row = Some r → is_expired r.2 now = false) as Hlive.
  { intros r Er. unfold row in Er. rewrite tick_lookup in Er. by apply unexpired_Some in Er as [_ ?]. }
  destruct row as [[v at_]|]; cbn [is_zero andb Z.eqb].
  { destruct (Hget s2 at_ E2 (Hlive _ eq_refl)) as (s4 & -> & E4). by rewrite E4. }
  destruct ttl as [t|]; cbn [fmap option_fmap option_map].
  2: { rewrite bool_decide_false by naive_solver. destruct (Hget s2 None E2 eq_refl) as (s4 & -> & E4). by rewrite E4. }
  specialize (Httl t eq_refl). rewrite bool_decide_true by (by apply ttl_text).
  pose proof (serve_pexpire now k t s2 Httl) as Hp. rewrite E2, tick_lookup, lookup_insert_eq in Hp.
  cbn [unexpired mbind option_bind is_expired snd] in Hp.
  destruct (script_call_ok _ _ _ _ _ Hp) as (s3 & -> & E3); [done|].
  rewrite (tick_put_cong _ _ _ _ _ E2), insert_insert_eq in E3.
  destruct (Hget s3 (Some (now + t)%Z) E3) as (s4 & -> & E4); [apply Z.leb_gt; lia|]. by rewrite E4.
Qed.

(** ** The operations *)

Section ops.
Context (now : Z) (ns : Namespace) (s : S) (m : Keyspace).
Context (Hnow : (0 ≤ now)%Z) (Hmax : (now + MAX_TTL_MS < 2 ^ 64)%Z).
Context (Hh : holds now ns s m) (Hplain : plain_keys (tick now m)).
Let live := tick now m.

(** A call is answered as the contract says, and the keys of the namespace change so. *)
Definition agrees (res : kv Reply * S) (spec : kv Reply * Keyspace) : Prop :=
  same_reply res.1 spec.1 ∧ follows now ns s res.2 live spec.2.

Lemma live_row k : tick now (content s) !! (tag ns ++ k) = live !! k.
Proof. by apply holds_live. Qed.

Lemma get_agrees k :
  agrees (reply RValue (redis_get describe (served now) (as_str ns) k s)) (keyspace_op now (CGet k) live).
Proof.
  unfold redis_get. rewrite execute_served, scope_tag. destruct (serve_get now (tag ns ++ k) s) as [E1 E2].
  rewrite live_row in E1. unfold agrees, reply. cbn [fst snd]. rewrite E1. split; [|by constructor]. cbn.
  destruct (live !! k) as [[v at_]|] eqn:El; [|done]. cbn. by rewrite (proj1 (Hplain k v at_ El)).
Qed.

Lemma set_agrees k v ttl : (∀ t, ttl = Some t → (0 < t ≤ MAX_TTL_MS)%Z ∧ saturating_add now t = (now + t)%Z) →
  agrees (reply (λ _, RDone) (redis_set describe (served now) (as_str ns) k v ttl s))
    (keyspace_op now (CSet k v ttl) live).
Proof.
  intros Ht. unfold redis_set. rewrite execute_served, scope_tag.
  assert (does now ([lit "SET"; tag ns ++ k; v] ++ ttl_args ttl) s (SimpleString (lit "OK"))
    (<[tag ns ++ k := (v, expires_after now ttl)]> (content s))) as [E1 E2].
  { destruct ttl as [t|]; [|apply serve_set]. destruct (Ht t eq_refl) as [Hr Hs].
    unfold expires_after. cbn [fmap option_fmap option_map]. rewrite Hs. by apply serve_set_px. }
  unfold agrees, reply. cbn [fst snd]. rewrite E1. split; [done|]. by apply moves_put.
Qed.

Lemma delete_agrees k :
  agrees (reply RFlag (redis_delete describe (served now) (as_str ns) k s)) (keyspace_op now (CDelete k) live).
Proof.
  unfold redis_delete. rewrite execute_served, scope_tag. destruct (serve_del now (tag ns ++ k) s) as [E1 E2].
  rewrite live_row in E1. unfold agrees, reply. cbn [fst snd]. rewrite E1. split; [|by apply moves_drop]. cbn.
  by destruct (live !! k).
Qed.

Lemma set_if_absent_agrees k v ttl :
  (∀ t, ttl = Some t → (0 < t ≤ MAX_TTL_MS)%Z ∧ saturating_add now t = (now + t)%Z) →
  agrees (reply RFlag (redis_set_if_absent describe (served now) (as_str ns) k v ttl s))
    (keyspace_op now (CSetIfAbsent k v ttl) live).
Proof.
  intros Ht. unfold redis_set_if_absent. rewrite execute_served, scope_tag.
  assert (match live !! k with
    | Some _ => does now ([lit "SET"; tag ns ++ k; v; lit "NX"] ++ ttl_args ttl) s Null (content s)
    | None => does now ([lit "SET"; tag ns ++ k; v; lit "NX"] ++ ttl_args ttl) s (SimpleString (lit "OK"))
        (<[tag ns ++ k := (v, expires_after now ttl)]> (content s)) end) as Hd.
  { rewrite <-live_row. destruct ttl as [t|]; [|apply serve_set_nx]. destruct (Ht t eq_refl) as [Hr Hs].
    unfold expires_after. cbn [fmap option_fmap option_map]. rewrite Hs. by apply serve_set_nx_px. }
  unfold agrees, reply. cbn [fst snd keyspace_op].
  destruct (live !! k) as [r|]; destruct Hd as [-> E2]; (split; [done|]); [by constructor|by apply moves_put].
Qed.

Lemma expire_agrees k ttl : (0 < ttl ≤ MAX_TTL_MS)%Z → saturating_add now ttl = (now + ttl)%Z →
  agrees (reply RFlag (redis_expire describe (served now) (as_str ns) k ttl s)) (keyspace_op now (CExpire k ttl) live).
Proof.
  intros Hr Hs. unfold redis_expire. rewrite execute_served, scope_tag.
  pose proof (serve_pexpire now (tag ns ++ k) ttl s Hr) as Hd. rewrite live_row in Hd.
  unfold agrees, reply. cbn [fst snd keyspace_op]. rewrite Hs.
  destruct (live !! k) as [[v at_]|]; destruct Hd as [-> E2]; (split; [done|]); [by apply moves_put|by constructor].
Qed.

Lemma ttl_agrees k :
  agrees (reply RTtl (redis_ttl describe (served now) (as_str ns) k s)) (keyspace_op now (CTtl k) live).
Proof.
  unfold redis_ttl. rewrite execute_served, scope_tag. destruct (serve_pttl now (tag ns ++ k) s) as [E1 E2].
  rewrite live_row in E1. unfold agrees, reply. cbn [fst snd]. rewrite E1. split; [|by constructor]. cbn.
  destruct (live !! k) as [[v [at_|]]|] eqn:El; cbn; [|done..].
  unfold live in El. rewrite tick_lookup in El. apply unexpired_Some in El as [_ Hx]. cbn in Hx.
  apply Z.leb_gt in Hx. destruct (Z.eqb_spec (at_ - now) (-2)); [lia|].
  destruct (Z.eqb_spec (at_ - now) (-1)); [lia|]. do 2 f_equal. lia.
Qed.

Lemma persist_agrees k :
  agrees (reply RFlag (redis_persist describe (served now) (as_str ns) k s)) (keyspace_op now (CPersist k) live).
Proof.
  unfold redis_persist. rewrite execute_served, scope_tag. pose proof (serve_persist now (tag ns ++ k) s) as Hd.
  rewrite live_row in Hd. unfold agrees, reply. cbn [fst snd keyspace_op].
  destruct (live !! k) as [[v [at_|]]|]; destruct Hd as [-> E2]; (split; [done|]);
    [by apply moves_put|by constructor..].
Qed.

Lemma not_integer_kind note : mentions_overflow (not_an_integer ++ note) = mentions_overflow not_an_integer →
  ∃ msg, classify_incr_error (not_an_integer ++ note) = NonNumeric msg.
Proof.
  unfold classify_incr_error, mentions_overflow. intros ->. change (contains_text _ (lit "overflow")) with false.
  cbn iota. replace (contains_text _ (lit "not an integer")) with true; [eauto|].
  symmetry. done.
Qed.
Lemma overflow_kind note : mentions_overflow (would_overflow ++ note) = mentions_overflow would_overflow →
  classify_incr_error (would_overflow ++ note) = Overflow (would_overflow ++ note).
Proof. unfold classify_incr_error, mentions_overflow. intros ->. done. Qed.

Lemma incr_agrees k d ttl : i64 d →
  (∀ t, ttl = Some t → (0 < t ≤ MAX_TTL_MS)%Z ∧ saturating_add now t = (now + t)%Z) →
  agrees (reply RCount (redis_incr describe (served now) (as_str ns) k d ttl s)) (keyspace_op now (CIncr k d ttl) live).
Proof.
  intros Hd Ht. unfold redis_incr. rewrite execute_served, scope_tag. cbn zeta.
  set (arg := match ttl with Some t => nat_to_string t | None => [] end).
  pose proof (script_counts now (tag ns ++ k) d ttl s Hd (λ t E, proj1 (Ht t E))) as Hs. cbn zeta in Hs.
  fold arg in Hs. pose proof (serve_eval now (tag ns ++ k) (i64_to_string d) arg s) as Hev. cbn zeta in Hev.
  destruct (incr_ttl_script now (tag ns ++ k) (i64_to_string d) arg s) as [res s']. rewrite live_row in Hs.
  assert ((match live !! k with Some (v, _) => redis_int v | None => Some 0%Z end) = count_of (live !! k)) as Ec.
  { unfold count_of. destruct (live !! k) as [[v at_]|] eqn:El; [|done]. apply (Hplain k v at_ El). }
  rewrite Ec in Hs. unfold agrees, reply. cbn [fst snd keyspace_op]. destruct (count_of (live !! k)) as [n|].
  2: { destruct Hs as [-> Ek]. destruct Hev as (note & -> & Hnote).
       cbn [fst snd reading expect_bulk_or_null map_err mbind result_bind map_error fmap result_fmap].
       destruct (not_integer_kind note Hnote) as [msg ->]. split; [done|]. by constructor. }
  change (bool_decide (i64 (n + d))) with (bool_decide (i64_min ≤ n + d ≤ i64_max)%Z) in Hs.
  case_bool_decide as Hn; destruct Hs as [-> Ek].
  2: { destruct Hev as (note & -> & Hnote).
       cbn [fst snd reading expect_bulk_or_null map_err mbind result_bind map_error fmap result_fmap].
       rewrite (overflow_kind note Hnote). split; [done|]. by constructor. }
  rewrite Hev. cbn. rewrite number_text by done. cbn. rewrite parse_i64_print by done. split; [done|]. apply moves_put.
  rewrite Ek. do 3 f_equal. unfold deadline_of, expires_after. destruct (live !! k) as [[v at_]|]; [done|].
  destruct ttl as [t|]; [|done]. cbn. by rewrite (proj2 (Ht t eq_refl)).
Qed.

Lemma check_ttl ttl u : (∀ t, ttl = Some t → (0 ≤ t)%Z) → validate_optional_ttl ttl = Ok u →
  ∀ t, ttl = Some t → (0 < t ≤ MAX_TTL_MS)%Z ∧ saturating_add now t = (now + t)%Z.
Proof. intros Ht Hv t ->. by eapply ttl_sum; eauto. Qed.

(** A call on the network backend follows the contract. *)
Lemma call_agrees c : call_plain c →
  agrees (redis_call describe (served now) ns c s) (keyspace_call now c live).
Proof.
  intros Hc. unfold keyspace_call, redis_call.
  destruct c; cbn [kv_call]; unfold kv_get, kv_set, kv_delete, kv_incr, kv_set_if_absent, kv_expire, kv_ttl,
    kv_persist, after_check; cbn [call_check]; [..|done];
    (match goal with |- context [match ?chk with Ok _ => _ | Err _ => _ end] =>
      destruct chk as [u|e] eqn:Echk; [|by split; [|constructor]] end);
    cbn [be_get be_set be_delete be_incr be_set_if_absent be_expire be_ttl be_persist RedisBackend].
  - apply get_agrees.
  - destruct Hc as [_ Hc]. apply set_agrees. revert Echk. bind_ok as []. bind_ok as []. by apply check_ttl.
  - apply delete_agrees.
  - destruct Hc as [Hd Hc]. apply incr_agrees; [done|]. revert Echk. bind_ok as []. by apply check_ttl.
  - destruct Hc as [_ Hc]. apply set_if_absent_agrees. revert Echk. bind_ok as []. bind_ok as []. by apply check_ttl.
  - revert Echk. bind_ok as []. intros Hv. destruct (ttl_sum now ttl_ms u) as [? ?]; [done..|].
    by apply expire_agrees.
  - apply ttl_agrees.
  - apply persist_agrees.
Qed.
End ops.

(** The contract keeps values plain. *)
Lemma keyspace_plain now c m : call_plain c → plain_keys m → plain_keys (keyspace_call now c m).2.
Proof.
  intros Hc Hm. assert (∀ k v at_, plain_value v → plain_keys (<[k := (v, at_)]> m)) as Hput.
  { intros k v at_ Hv k' v' at_'. destruct (decide (k = k')) as [->|Hne].
    - rewrite lookup_insert_eq. by intros [= <- _].
    - rewrite lookup_insert_ne by done. apply Hm. }
  unfold keyspace_call. destruct (call_check c); [|done]. destruct c; cbn; try done.
  - by apply Hput, Hc.
  - intros k v at_. rewrite lookup_delete_Some. intros [_ ?]. by eapply Hm.
  - destruct (count_of _); [|done]. case_bool_decide as Hn; [|done]. cbn. apply Hput. split.
    + pose proof (number_text _ Hn) as Ht. unfold from_utf8 in Ht. by case_bool_decide.
    + by rewrite redis_int_print, parse_i64_print.
  - destruct (m !! key); [done|]. by apply Hput, Hc.
  - destruct (m !! key) as [[v at_]|] eqn:E; [|done]. cbn. by eapply Hput, Hm.
  - destruct (m !! key) as [[v [at_|]]|] eqn:E; [|done..]. cbn. by eapply Hput, Hm.
Qed.

(** * Histories *)

Section histories.
Context {T : Type} `{RedbTableLaws T}.
Notation Db := (option T).

(** A call at a time, on each of the backends. *)
Definition on_redb (call : Z * Namespace * Call) : Env * Namespace * Call :=
  (mkEnv call.1.1 (λ _, None) false, call.1.2, call.2).
Definition on_redis (call : Z * Namespace * Call) : Exec S * Namespace * Call :=
  (served call.1.1, call.1.2, call.2).

(** The two stores hold the same live keys at a time, with plain values. *)
Definition same_keys (t : Z) (db : Db) (s : S) : Prop :=
  ∀ ns, issued ns → holds t ns s (view t ns db) ∧ plain_keys (view t ns db).

Definition call_fine (call : Z * Namespace * Call) : Prop :=
  issued call.1.2 ∧ call_plain call.2 ∧ (0 ≤ call.1.1)%Z ∧ (call.1.1 + MAX_TTL_MS < 2 ^ 64)%Z.

Fixpoint times_from (t : Z) (calls : list (Z * Namespace * Call)) : Prop :=
  match calls with
  | [] => True
  | call :: calls' => (t ≤ call.1.1)%Z ∧ times_from call.1.1 calls'
  end.

Lemma same_keys_later t t' db s : (t ≤ t')%Z → same_keys t db s → same_keys t' db s.
Proof.
  intros Ht Hs ns Hns. destruct (Hs ns Hns) as [Hh Hp]. split.
  - intros k. rewrite <-(unexpired_later t t') by done. rewrite Hh, unexpired_later by done.
    by rewrite (view_later t t'), tick_lookup, unexpired_later.
  - intros k v at_. rewrite (view_later t t'), tick_lookup by done. intros [? _]%unexpired_Some. by eapply Hp.
Qed.

Lemma plain_call_ok c : call_plain c → call_ok c.
Proof. by destruct c. Qed.

(** One call: the same answer, and the same keys after it. *)
Lemma call_same call db s : call_fine call → same_keys call.1.1 db s →
  let x := on_redb call in let y := on_redis call in
  same_reply (redis_call describe y.1.1 y.1.2 y.2 s).1 (kv_call x.1.1 x.1.2 x.2 db).1 ∧
  same_keys call.1.1 (kv_call x.1.1 x.1.2 x.2 db).2 (redis_call describe y.1.1 y.1.2 y.2 s).2.
Proof.
  destruct call as [[now ns] c]. intros (Hns & Hc & Hn & Hm) Hs. cbn in *.
  destruct (Hs ns Hns) as [Hh Hp]. set (env := mkEnv now (λ _, None) false).
  destruct (call_quiet env ns c db (plain_call_ok c Hc)) as (m & Hcall & Hview).
  change (undisturbed env) with env in Hcall, Hview. change (clock env) with now in Hcall, Hview.
  destruct (call_agrees now ns s (view now ns db) Hn Hm Hh) with c as [Hr Hmv]; [by rewrite tick_view|done|].
  rewrite tick_view, Hcall in Hr, Hmv. cbn in Hr, Hmv. split; [done|]. intros ns' Hns'.
  destruct (decide (ns' = ns)) as [->|Hne].
  - rewrite Hview. split.
    + apply (holds_tick now ns _ m); [by rewrite tick_idem|]. by eapply moves_holds.
    + intros k v at_. rewrite tick_lookup. intros [E _]%unexpired_Some. revert E.
      pose proof (keyspace_plain now c (view now ns db) Hc Hp) as Hk. rewrite Hcall in Hk. apply Hk.
  - rewrite call_other by done. destruct (Hs ns' Hns') as [Hh' Hp']. split; [|done].
    by apply (moves_other now ns ns' s _ _ _ _ Hns Hns' Hne Hmv).
Qed.

Lemma redis_run_cons (exec : Exec S) ns c calls (s : S) :
  redis_run describe ((exec, ns, c) :: calls) s =
    let '(r, s1) := redis_call describe exec ns c s in
    let '(rs, s2) := redis_run describe calls s1 in (r :: rs, s2).
Proof. done. Qed.

End histories.
End server.
