(* ===== verification/KvExamples.v ===== *)
(** Concrete stores: a table that follows the laws of redb, a server that follows those of
    Redis, and histories on which the theorems of the key-value store are applied. *)

From stdpp Require Import gmap.
From S2P Require Import Prelude RustStd Kv KvFacts KvClients Resp RespWire RedisCluster KvRedis KvRedisFacts KvBackends.

(** * A table *)

Definition is_above (b : Bound) (key : bytes) : bool :=
  match b with
  | Included k => match cmp k key with Gt => false | _ => true end
  | Excluded k => match cmp k key with Lt => true | _ => false end
  end.

#[global] Instance map_table : RedbTable Keyspace := {
  no_rows := ∅;
  row_at := λ t k, t !! k;
  put_row := λ k r t, <[k := r]> t;
  drop_row := λ k t, delete k t;
  rows_from := λ b t, omap (λ k, pair k <$> t !! k) (List.filter (is_above b) (sorted_keys t))
}.

Lemma is_above_spec b k : is_above b k = true ↔ above b k.
Proof. destruct b as [k0|k0]; cbn; by destruct (cmp k0 k). Qed.

#[global] Instance map_table_laws : RedbTableLaws Keyspace.
Proof.
  split; cbn.
  - apply lookup_empty.
  - intros k r k' t. case_decide; [subst; apply lookup_insert_eq|by apply lookup_insert_ne].
  - intros k k' t. case_decide; [subst; apply lookup_delete_eq|by apply lookup_delete_ne].
  - intros b t k r. rewrite list_elem_of_omap. split.
    + intros (k' & [Hin Hab]%elem_of_lfilter & E). destruct (t !! k') eqn:Ek; [|done].
      cbn in E. injection E as -> ->. by rewrite <-is_above_spec.
    + intros [Hab Hk]. exists k. rewrite Hk. split; [|done]. apply elem_of_lfilter.
      rewrite elem_of_sorted_keys, is_above_spec. eauto.
  - intros b t. assert (∀ l, (∀ k, k ∈ l → is_Some (t !! k)) →
      map fst (omap (λ k, pair k <$> t !! k) l) = l) as Hl.
    { induction l as [|k l IH]; intros Hk; [done|]. destruct (Hk k) as [r Hr]; [left|]. cbn. rewrite Hr. cbn.
      f_equal. apply IH. intros ??. apply Hk. by right. }
    rewrite Hl; [apply bset_filter_wf, bset_of_wf|]. intros k [Hk _]%elem_of_lfilter. by apply elem_of_sorted_keys.
Qed.

(** * A server *)

Definition ok_frame : OwnedFrame := SimpleString (lit "OK").
Definition int_of (o : option Row) : OwnedFrame := Integer (if o then 1 else 0).
Definition canonical_int (v : bytes) : option Z :=
  n ← parse_i64 v; if bool_decide (i64_to_string n = v) then Some n else None.

Definition expire_text (now : Z) (text : bytes) : option Z := (λ t, now + t)%Z <$> parse_digits 0 text.

Definition map_serve (now : Z) (args : list bytes) (m : Keyspace) : OwnedFrame * Keyspace :=
  match args with
  | cmd :: k :: rest =>
      let row := tick now m !! k in
      if bool_decide (cmd = lit "GET") then
        (match row with Some (v, _) => BulkString v | None => Null end, m)
      else if bool_decide (cmd = lit "SET") then
        match rest with
        | [v] => (ok_frame, <[k := (v, None)]> m)
        | [v; _] => match row with Some _ => (Null, m) | None => (ok_frame, <[k := (v, None)]> m) end
        | [v; _; t] => (ok_frame, <[k := (v, expire_text now t)]> m)
        | [v; _; _; t] =>
            match row with Some _ => (Null, m) | None => (ok_frame, <[k := (v, expire_text now t)]> m) end
        | _ => (Null, m)
        end
      else if bool_decide (cmd = lit "DEL") then (int_of row, delete k m)
      else if bool_decide (cmd = lit "EXISTS") then (int_of row, m)
      else if bool_decide (cmd = lit "PEXPIRE") then
        match row with
        | Some (v, _) => (Integer 1, <[k := (v, expire_text now (default [] (head rest)))]> m)
        | None => (Integer 0, m)
        end
      else if bool_decide (cmd = lit "PTTL") then
        (Integer match row with
                 | Some (_, Some at_) => at_ - now
                 | Some (_, None) => -1
                 | None => -2
                 end, m)
      else if bool_decide (cmd = lit "PERSIST") then
        match row with
        | Some (v, Some _) => (Integer 1, <[k := (v, None)]> m)
        | _ => (Integer 0, m)
        end
      else if bool_decide (cmd = lit "INCRBY") then
        match (match row with Some (v, _) => canonical_int v | None => Some 0%Z end),
              parse_i64 (default [] (head rest)) with
        | Some n, Some d =>
            if bool_decide (i64 (n + d)) then
              (Integer (n + d), <[k := (i64_to_string (n + d),
                 match row with Some (_, at_) => at_ | None => None end)]> m)
            else (Error would_overflow, m)
        | _, _ => (Error not_an_integer, m)
        end
      else (Null, m)
  | _ => (Null, m)
  end.

Definition plain_server : RedisServer Keyspace :=
  {| serve := map_serve; content := λ m, m; redis_int := canonical_int |}.

#[global] Instance map_server : RedisServer Keyspace := {
  serve := λ now args m,
    match args with
    | [cmd; _; _; k; arg1; arg2] =>
        if bool_decide (cmd = lit "EVAL") then
          match @incr_ttl_script _ plain_server now k arg1 arg2 m with
          | (Ok frame, m') => (frame, m')
          | (Err msg, m') => (Error msg, m')
          end
        else map_serve now args m
    | _ => map_serve now args m
    end;
  content := λ m, m;
  redis_int := canonical_int
}.

Lemma expire_print now t : (0 < t ≤ MAX_TTL_MS)%Z → expire_text now (nat_to_string t) = Some (now + t)%Z.
Proof.
  intros Ht. unfold expire_text. rewrite nat_to_string_parse; [done|]. unfold MAX_TTL_MS in Ht. lia.
Qed.

#[global] Instance map_server_laws : RedisServerLaws Keyspace.
Proof.
  split; unfold does.
  - done.
  - done.
  - intros now k v t s Ht. change (serve now _ s) with (ok_frame, <[k := (v, expire_text now (nat_to_string t))]> s).
    by rewrite expire_print.
  - intros now k v s. change (serve now _ s) with
      (match tick now s !! k with Some _ => (Null, s) | None => (ok_frame, <[k := (v, None)]> s) end).
    cbn [content map_server]. by destruct (tick now s !! k).
  - intros now k v t s Ht. change (serve now _ s) with
      (match tick now s !! k with
       | Some _ => (Null, s)
       | None => (ok_frame, <[k := (v, expire_text now (nat_to_string t))]> s) end).
    rewrite expire_print by done. cbn [content map_server]. by destruct (tick now s !! k).
  - done.
  - done.
  - intros now k t s Ht. change (serve now _ s) with
      (match tick now s !! k with
       | Some (v, _) => (Integer 1, <[k := (v, expire_text now (nat_to_string t))]> s)
       | None => (Integer 0, s) end).
    rewrite expire_print by done. cbn [content map_server]. by destruct (tick now s !! k) as [[??]|].
  - done.
  - intros now k s. change (serve now _ s) with
      (match tick now s !! k with Some (v, Some _) => (Integer 1, <[k := (v, None)]> s) | _ => (Integer 0, s) end).
    cbn [content map_server]. by destruct (tick now s !! k) as [[? [?|]]|].
  - intros now k d s Hd. change (serve now _ s) with
      (match (match tick now s !! k with Some (v, _) => canonical_int v | None => Some 0%Z end),
              parse_i64 (i64_to_string d) with
       | Some n, Some d =>
           if bool_decide (i64 (n + d)) then
             (Integer (n + d), <[k := (i64_to_string (n + d),
                match tick now s !! k with Some (_, at_) => at_ | None => None end)]> s)
           else (Error would_overflow, s)
       | _, _ => (Error not_an_integer, s)
       end).
    rewrite parse_i64_print by done. cbn [content map_server redis_int].
    destruct (match tick now s !! k with Some (v, _) => _ | None => _ end) as [n|]; [|done]. by case_bool_decide.
  - intros now k arg1 arg2 s. change (serve now _ s) with
      (match incr_ttl_script now k arg1 arg2 s with (Ok frame, m') => (frame, m') | (Err msg, m') => (Error msg, m') end).
    destruct (incr_ttl_script now k arg1 arg2 s) as [[frame|msg] s']; [done|]. exists []. by rewrite app_nil_r.
  - intros n Hn. cbn. unfold canonical_int. rewrite parse_i64_print by done. cbn. by rewrite bool_decide_true.
Qed.

(** * Histories *)

Definition shop_ns : Namespace := mkNamespace (lit "shop").
Definition control : Namespace := mkNamespace (lit "platform:control").

Lemma shop_issued : issued shop_ns.
Proof. exists (lit "shop"). by left. Defined.
Lemma control_issued : issued control.
Proof. exists (lit "control"). by right. Defined.

(** An environment without faults, and one in which the commit fails after it landed. *)
Definition at_time (t : Z) : Env := mkEnv t (λ _, None) false.
Definition torn (t : Z) : Env :=
  mkEnv t (λ s, match s with Commit => Some (lit "disk full") | _ => None end) true.

Definition shop_history : list (Env * Namespace * Call) :=
  [(at_time 10, shop_ns, CSet (lit "color") (lit "red") (Some 100%Z));
   (at_time 20, control, CSet (lit "color") (lit "blue") None);
   (torn 30, shop_ns, CIncr (lit "hits") 5 None);
   (at_time 40, shop_ns, CIncr (lit "hits") 2 None);
   (at_time 50, shop_ns, CGet (lit "color"));
   (at_time 60, shop_ns, CSet [] (lit "x") None);
   (at_time 110, shop_ns, CGet (lit "color"));
   (at_time 120, shop_ns, CList [] None 0)].


(** Two pages of two keys, with a key written between them. *)
Definition three_keys : option Keyspace :=
  (kv_run [(at_time 1, shop_ns, CSet (lit "k:a") (lit "1") None); (at_time 1, shop_ns, CSet (lit "k:b") (lit "2") None);
           (at_time 1, shop_ns, CSet (lit "k:c") (lit "3") None)] None).2.
Definition four_keys : option Keyspace :=
  (kv_run [(at_time 2, shop_ns, CSet (lit "k:d") (lit "4") None); (at_time 2, shop_ns, CDelete (lit "k:b"))] three_keys).2.
Definition page_states : list (Env * option Keyspace) := [(at_time 2, three_keys); (at_time 3, four_keys)].
Definition listed_names : gset bytes := list_to_set [lit "k:a"; lit "k:b"; lit "k:c"; lit "k:d"].

Lemma page_states_names st k : st ∈ page_states → is_Some (live_in shop_ns st !! k) → k ∈ listed_names.
Proof.
  assert (Forall (λ st, dom (live_in shop_ns st) ⊆ listed_names) page_states) as Hd.
  { apply (bool_decide_unpack _). by vm_compute. }
  rewrite Forall_forall in Hd. intros Hst Hk. apply (Hd st Hst). by apply elem_of_dom.
Qed.


(** A cursor of another listing, which sorts before the prefix, ends a listing at once. *)
Example foreign_cursor_ends_listing :
  (kv_list (at_time 2) shop_ns (lit "k:b") (Some (lit "k:")) 10 three_keys).1 = Ok ([], None) ∧
  is_Some (view 2 shop_ns three_keys !! lit "k:b").
Proof. split; [by vm_compute|]. apply (bool_decide_unpack _). by vm_compute. Qed.

Definition lock_history : list (Env * Namespace * Call) :=
  [(at_time 20, shop_ns, CSetIfAbsent (lit "job") (lit "w2") (Some 50%Z));
   (at_time 30, shop_ns, CGet (lit "job"));
   (at_time 40, control, CDelete (lit "job"))].

Lemma absent_set_locks_witness :
  let db1 := (kv_set_if_absent (at_time 10) shop_ns (lit "job") (lit "w1") (Some 50%Z) (None : option Keyspace)).2 in
  Forall2 (locked_out shop_ns (lit "job") (lit "w1")) lock_history (kv_run lock_history db1).1 ∧
  (kv_set_if_absent (undisturbed (at_time 60)) shop_ns (lit "job") (lit "w1") (Some 50%Z) (kv_run lock_history db1).2).1 = Ok true.
Proof.
  cbn zeta. destruct (absent_set_locks shop_ns (lit "job") (lit "w1") 50 (at_time 10) (None : option Keyspace)
    (kv_set_if_absent (at_time 10) shop_ns (lit "job") (lit "w1") (Some 50%Z) None).2 lock_history (at_time 60))
    as [Hout Hfree].
  - apply shop_issued.
  - apply injective_projections; [by vm_compute|reflexivity].
  - unfold lock_history. repeat first [by apply Forall_nil|apply Forall_cons; split]; cbn;
      (split; [apply shop_issued || apply control_issued|done]).
  - split; [exact Hout|]. apply Hfree; [|by vm_compute].
    unfold lock_history. intros call. rewrite !elem_of_cons. intros [->|[->|[->|?%not_elem_of_nil]]]; done.
Defined.

Definition count_history : list (Env * Namespace * Call) :=
  [(at_time 20, shop_ns, CIncr (lit "hits") 1 (Some 500%Z));
   (at_time 30, control, CIncr (lit "hits") 9 None);
   (at_time 40, shop_ns, CTtl (lit "hits"));
   (at_time 50, shop_ns, CIncr (lit "hits") 1 None)].


(** ** Redis *)

#[local] Instance tag_cluster : Cluster := {
  redis_keyslot := λ key, (Z.of_nat (length (hash_tag key)) `mod` NUM_SLOTS)%Z;
  set_order := elements
}.
#[local] Instance tag_cluster_tags : HashTags.
Proof. intros key key' E. cbn. by rewrite E. Defined.

Definition no_text (e : RedisError) : bytes := [].

(** A server that answers a listing with keys of others. *)
Definition leaky : Exec unit := λ _ _ s,
  (Ok (Array [BulkString (lit "0");
              Array [BulkString (lit "{shop}:k:a"); BulkString (lit "{bank}:k:b"); BulkString (lit "{shop}:x")]]), s).

Lemma redis_stays_in_namespace_witness :
  (redis_call no_text leaky shop_ns (CList (lit "k:") None 10) tt).1 = Ok (RPage [lit "k:a"] None) ∧
  let '(r, (_, sent)) := redis_call no_text (recording leaky) shop_ns (CList (lit "k:") None 10) (tt, []) in
  length sent ≤ 1 ∧ Forall (own_command shop_ns) sent ∧
  ∀ prefix cursor limit page next, CList (lit "k:") None 10 = CList prefix cursor limit → r = Ok (RPage page next) →
    ∃ frame, sent.*2 = [Ok frame] ∧ ∀ k, k ∈ page → prefix `prefix_of` k ∧
      ∃ raw, raw ∈ scan_entries frame ∧ from_utf8_lossy raw = tag shop_ns ++ k.
Proof.
  split; [by vm_compute|]. apply (redis_stays_in_namespace no_text leaky shop_ns (CList (lit "k:") None 10) tt).
  apply shop_issued.
Defined.

Definition both_history : list (Z * Namespace * Call) :=
  [(10%Z, shop_ns, CSet (lit "color") (lit "red") (Some 100%Z));
   (20%Z, shop_ns, CIncr (lit "hits") 5 (Some 1000%Z));
   (30%Z, control, CIncr (lit "hits") 1 None);
   (40%Z, shop_ns, CIncr (lit "color") 1 None);
   (50%Z, shop_ns, CTtl (lit "hits"));
   (60%Z, shop_ns, CIncr (lit "hits") i64_max None);
   (110%Z, shop_ns, CSetIfAbsent (lit "color") (lit "blue") None)].

Lemma empty_same_keys : same_keys 0 (None : option Keyspace) (∅ : Keyspace).
Proof.
  intros ns _. split; intros k; [|intros v at_]; rewrite view_lookup; [|done]. cbn [content map_server].
  by rewrite lookup_empty.
Qed.

